(* ===== verification/_CoqProject ===== *)
-Q . S2P
Prelude.v
State.v
Utils.v
PosTheory.v
HashPos.v
Sha512_256.v
HashPosTheory.v
SortedTheory.v
Traverse.v
Calc.v
Walk.v
DeTwinTheory.v
CalcTheory.v
Forest.v
EvalTheory.v
Stump.v
ProofUpdate.v
ProofUndo.v
PolNode.v
Pollard.v
MapPollard.v
IO.v
PollardIO.v
MapPollardIO.v
MapPollardIOProps.v
StumpTheory.v
StumpVerify.v
ForestLeaves.v
StumpSpec.v
Moves.v
Deletions.v
MapPollardMoves.v
Translate.v
Batch.v
MapPollardInv.v
MapPollardObs.v
MapPollardHashes.v
MapPollardRemove.v
MapPollardDelete.v
Carry.v
CarryRows.v
MapPollardAdd.v
MapPollardSpec.v
ProofUpdateTheory.v
MapPollardIngest.v
MapPollardRun.v
Toy.v
VerifyErrors.v
StumpProps.v
PosProps.v
ProofProps.v
ProofUpdateProps.v
MapPollardProps.v
