(* ===== verification/Prelude.v ===== *)
(** * A verified model of the utreexo accumulator

    ** The program

    Utreexo keeps a set of leaf hashes in a forest of perfect binary hash trees, one
    tree per set bit of the number [n] of leaves ever added.  Nodes are numbered row by
    row from the leaves up ("positions").  A deleted leaf is replaced by its sibling
    subtree, which moves up one row; a tree without leaves keeps its place as an "empty"
    root.  A stump ([src/stump.go]) holds only the roots and [n]; it is updated with the
    deleted hashes, a batch proof for them and the added hashes.  A wallet keeps a proof
    for its own leaves and updates it with the data that the stump update returns
    ([src/prove.go]).  Pollards ([src/pollard.go], [src/mappollard.go]) keep nodes as well
    and make proofs.

    ** Files

    Models of the source:
    - [Prelude]: machine integers, results and errors, the lemmas everyone uses.  A Go
      function that can fail is a function to [res]: a value, a returned [error], a
      run-time panic, or [Spin], a loop that does not end.
    - [State]: methods that change their receiver, as a state monad over [res] ([st]) that
      keeps the state reached when an error is returned, with rules to run them.
    - [Utils]: the position arithmetic of [src/utils.go].
    - [HashPos]: [Hash] and [hashAndPos], the parallel slices of [src/prove.go] with their
      set operations.
    - [Sha512_256]: [parentHash].  Everything else is proved for any hash function (class
      [HashFn]) that never returns the all-zero hash (class [HashLaws], a property that
      the program assumes of SHA-512/256 and that nobody can prove).
    - [Traverse], [Calc]: [proofPositions], [getNextPos] and [calculateHashes].
    - [Stump]: [Verify], [del], [add], [rootsToDestory], [Update] of [src/stump.go].
    - [ProofUpdate], [ProofUndo]: [AddProof], [GetMissingPositions], [GetProofSubset],
      [Proof.Update] and [Proof.Undo] of [src/prove.go].
    - [MapPollard]: [src/mappollard.go] but for printing.  The two Go maps are [gmap]s, a
      method is a computation of [st MapPollard].
    - [PolNode], [Pollard]: [src/polnode.go] and [src/pollard.go], with the methods of
      [Pollard] in [src/prove.go].  The nodes live in a heap from addresses to [polNode]s,
      because the niece and aunt pointers share them; a nil pointer that is dereferenced
      panics.  [NodeMap] is a [gmap] from the twelve bytes of [miniHash] to addresses.
    - [IO], [MapPollardIO], [PollardIO]: writers, readers and the serialization of both
      pollards, with the order of the Go maps as an argument.

    The specification:
    - [Forest]: the abstract accumulator.  A forest is the list of its rows, with a tree,
      a hole or nothing in each; [add_leaves] adds like a binary counter, [del] deletes
      positions, [node] and [label] read the subtree and the hash at a position.

    Theory of positions, proofs and the stump:
    - [PosTheory] gives the meaning of positions: [npos f r o] is the node at offset [o]
      of row [r], and every function of [Utils] is computed in these coordinates.
    - [HashPosTheory], [SortedTheory]: the slice helpers as operations on lists of pairs
      and on sorted sets.
    - [Walk], [DeTwinTheory], [CalcTheory], [EvalTheory]: the loops of [proofPositions] and
      [calculateHashes] follow one relation, [walk], on a sorted worklist; [eval] computes
      hashes along it.
    - [StumpTheory], [StumpVerify], [ForestLeaves], [StumpSpec]: [represents] relates a
      stump and a forest; the operations of [Stump] refine those of [Forest].
    - [ProofUpdateTheory]: proofs whose hashes are the labels of a forest.

    Theory of the map pollard:
    - [Moves], [Deletions]: where the positions of a forest go when one subtree or a list of
      them is deleted; [Translate]: the same node numbered for more rows; [Batch]: the
      detwined and translated targets of a block stand for the targets.
    - [MapPollardInv]: [holds] says which nodes of a part of a forest the state has and
      which of them it remembers, [tracks] that it does so for a whole forest; pruning
      keeps it.  [MapPollardObs]: what a tracking state answers.
    - [MapPollardMoves], [MapPollardHashes], [MapPollardRemove], [MapPollardDelete]: moving
      subtrees up, rehashing, [removeSingle] and [remove].
    - [Carry], [CarryRows], [MapPollardAdd]: the rows of [addSingle]; between two of them the
      state belongs to the forest without the trees joined so far, and to these.
    - [MapPollardSpec], [MapPollardIngest], [MapPollardRun]: whole blocks, [Ingest], and the
      relation [reachable] of the states that clients see.

    Properties, with [Toy], a small concrete hash function and forest on which their
    witnesses evaluate: [StumpProps], [MapPollardProps], [MapPollardIOProps], [PosProps],
    [ProofProps], [ProofUpdateProps], [VerifyErrors].

    ** What the properties say

    The stump ([StumpProps]): an honest update makes a stump follow the abstract forest, for
    one block and for any run of blocks from the empty stump; honest proofs are accepted; a
    rejected update changes nothing.  An accepted proof that has no all-zero hash and was
    matched with the roots of its targets is true of the forest or exhibits a break of the
    hash function, given as an explicit alternative of the conclusion and not as an
    assumption.  Both conditions are needed: [VerifyErrors] shows accepted proofs that are
    wrong without them.

    The map pollard ([MapPollardProps]): given valid blocks, whatever proofs it checks and
    whatever provers' proofs it remembers, it follows the forest of the blocks
    ([Modify_refines], [reachable_follows], [reachable_typed]), its stump is the stump that
    was updated with the same blocks ([Modify_Update_agree]), it can prove in every such
    state every leaf that it was told to remember ([reachable_proves], [Verify_remembers]),
    and its proofs are determined by the forest ([Prove_canonical]), so pruning is invisible
    ([prunePosition_safe]).  It does not survive remembering an accepted proof that no prover
    made ([Verify_remember_other_root]).  What [Write] writes of a state whose cached leaves
    have their nodes, as reachable states have ([reachable_present]), is read back, up to
    the flags of nodes ([MapPollardIOProps]).

    Positions form binary trees, and rows, roots, ancestors and moves are computed as
    documented ([PosProps]).  The traversal needs exactly the positions that it lists and
    root calculation gives the hashes of the forest before and after a deletion
    ([ProofProps]).  Proofs are combined and trimmed to what a prover would have made
    ([ProofUpdateProps]).  [VerifyErrors] says what happens on proofs that are malformed:
    missing hashes panic, positions past the forest loop, all-zero hashes are accepted, a
    candidate may match the root of another tree, and [GetProofSubset] wants sorted targets.

    ** Conventions and bounds

    - A [uint64] is an integer with explicit wrap-around; theorems assume at most [2^63]
      leaves, so that positions of the forest fit 64 bits.
    - Loops that the source bounds by a word size run with that many rounds ([bit_fuel],
      the 65 rounds of [detectRow_loop]), and [detectRow_loop_enough] and its like show
      that more change nothing.  The loops over targets run with [walk_fuel] rounds, at
      most [rows + 2] per target; [walk_fuel_enough] shows that it is never used up on
      well-formed targets.  [climb] repeats its states after 256 rounds, so that [Spin]
      there means that the source loops.  The row loops of the map pollard have [row_fuel]
      rounds, one more than rows; the theorems about [Modify] show that they end.
    - The theorems about a map pollard take the number of rows it has allocated ([f]) and
      forests that fit; a fresh one has 50, so [remap] never has to grow it below [2^50]
      leaves.  A leaf to be remembered must not have the hash of an inner node: the code
      looks nodes up by hash in the cache when it moves them.
    - Go slices are lists.  Helpers that modify a slice in place ([subtractSortedSlice],
      [Delete], [deTwin]) return it; their callers in the source use only the result.  The
      roots of a stump are written through [s.Roots], which no other stump shares here.
    - [GetProofSubset] takes hashes that are not Go's [nil]; [calculateHashes] has the
      [nil] case as [None].
    - [sort.Sort] on slices with equal positions is modelled as the insertion sort that
      Go uses up to twelve elements.

    ** Not modelled

    The interface of [src/accumulator_interface.go] (it only names methods), printing,
    [swapPlaces], and the helpers of [src/prove.go] and [src/polnode.go] that nobody calls
    ([PopFront], [Pop], [Reset], [getNextLeast], [removeHashes],
    [removeHashesFromHashAndPos], [removeDuplicateUint64Func]).  The definitions of
    [Pollard] with its serialization, of [Proof.Update], [Proof.Undo], [MapPollard.Undo] and
    of a [remap] that adds rows are here; their theorems are the next step.

    The rest of this file is the vocabulary that the development shares. *)


From stdpp Require Export base list numbers sorting gmap.
From Stdlib Require Export ZArith Lia.

#[global] Open Scope Z_scope.

(** ** Machine integers

    A Go [uint64] (resp. [uint8]) is a [Z] in [0, 2^64) (resp. [0, 2^8)); every
    operation that can leave the range wraps explicitly.  A shift by a count of
    64 or more yields 0, as in Go, because the count is not reduced. *)

Definition u64 (x : Z) : Z := x mod 2 ^ 64.
Definition u8 (x : Z) : Z := x mod 2 ^ 8.
Definition u32 (x : Z) : Z := x mod 2 ^ 32.

Definition add64 (x y : Z) : Z := u64 (x + y).
Definition sub64 (x y : Z) : Z := u64 (x - y).
Definition shl64 (x n : Z) : Z := u64 (Z.shiftl x n).
Definition shr64 (x n : Z) : Z := Z.shiftr x n.
Definition maxU64 : Z := 2 ^ 64 - 1.
Definition not64 (x : Z) : Z := Z.lxor x maxU64.

Declare Scope go_scope.
Delimit Scope go_scope with go.
Notation "x <<< n" := (shl64 x n) (at level 40, left associativity) : go_scope.
Notation "x >>> n" := (shr64 x n) (at level 40, left associativity) : go_scope.
Notation "x &&& y" := (Z.land x y) (at level 40, left associativity) : go_scope.
Notation "x ||| y" := (Z.lor x y) (at level 50, left associativity) : go_scope.
Notation "x ^^^ y" := (Z.lxor x y) (at level 50, left associativity) : go_scope.
Notation "x ⊞ y" := (add64 x y) (at level 50, left associativity) : go_scope.
Notation "x ⊟ y" := (sub64 x y) (at level 50, left associativity) : go_scope.
#[global] Open Scope go_scope.

(** ** Outcomes of Go code

    [Ok] is a normal return, [Err] a returned [error], [Panic] a run-time panic
    (an index out of range), and [Spin] a loop that was still running when the
    model's fuel ran out. *)

Inductive error : Type :=
| ErrDrop            (* childMany: drop > forestRows *)
| ErrRise            (* parentMany: rise > forestRows *)
| ErrDelPosLower     (* calcNextPosition *)
| ErrDetectOffset    (* detectOffset: position does not exist *)
| ErrRootPosition    (* getRootPosition *)
| ErrTargetCount     (* Verify: number of hashes and targets differ *)
| ErrInvalidProof    (* Verify: some root candidate matched no root *)
| ErrModifiedRoots   (* Stump.del *)
| ErrMissing         (* GetProofSubset: wants not in the proof *)
| ErrProofCount      (* GetProofSubset: proof hashes missing *)
| ErrAddRoot         (* addSingle: root not found *)
| ErrNotCached       (* remove, Prove: some hash is not cached *)
| ErrProofPosition   (* Prove: a proof position is not cached *)
| ErrCorrupt         (* Read: a cached leaf is not among the nodes *)
| ErrEOF             (* io.EOF *)
| ErrIO              (* a reader or a writer failed *)
| ErrAunt            (* polNode: an aunt does not point back to its niece *)
| ErrNoSibling       (* getChildren: neither a root nor with a sibling *)
| ErrNoPosition      (* getNode: position does not exist *)
| ErrRootIndex       (* getNode, deleteRoot: fewer roots than expected *)
| ErrNotFound        (* Prove: no node with the hash *)
| ErrUnreadable      (* Prove: a proof position cannot be read *)
| ErrNoRoots         (* Verify: no root candidates *)
| ErrRestore.        (* RestorePollardFrom: leaves missing in the map *)

Inductive res (A : Type) : Type :=
| Ok (a : A)
| Err (e : error)
| Panic
| Spin.
Arguments Ok {A} a.
Arguments Err {A} e.
Arguments Panic {A}.
Arguments Spin {A}.

Definition bind {A B} (m : res A) (k : A → res B) : res B :=
  match m with
  | Ok a => k a
  | Err e => Err e
  | Panic => Panic
  | Spin => Spin
  end.

Notation "'let*' x := m 'in' k" := (bind m (λ x, k))
  (at level 10, x pattern, m at level 100, k at level 200) : go_scope.

(** [v, _ := f()]: the error is dropped and the zero value returned with it is used. *)
Definition or_zero {A} (z : A) (m : res A) : A :=
  match m with Ok a => a | _ => z end.

(** [s[i]] on a slice: out of range panics. *)
Definition index {A} (l : list A) (i : nat) : res A :=
  match l !! i with Some a => Ok a | None => Panic end.

#[global] Instance error_eq_dec : EqDecision error.
Proof. solve_decision. Defined.
#[global] Instance res_eq_dec `{EqDecision A} : EqDecision (res A).
Proof. solve_decision. Defined.

(** ** Powers of two and bit operations as arithmetic *)

Create HintDb pos discriminated.
Create HintDb posrw discriminated.

Lemma pow2_pos k : 0 ≤ k → 0 < 2 ^ k.
Proof. intros. apply Z.pow_pos_nonneg; lia. Qed.

Lemma pow2_succ k : 0 ≤ k → 2 ^ (k + 1) = 2 * 2 ^ k.
Proof. intros. rewrite Z.pow_add_r by lia. lia. Qed.

Lemma pow2_le a b : 0 ≤ a ≤ b → 2 ^ a ≤ 2 ^ b.
Proof. intros. apply Z.pow_le_mono_r; lia. Qed.

Lemma pow2_split a b : 0 ≤ b ≤ a → 2 ^ a = 2 ^ (a - b) * 2 ^ b.
Proof. intros. rewrite <- Z.pow_add_r by lia. f_equal. lia. Qed.

#[export] Hint Resolve pow2_pos pow2_le : pos.
#[export] Hint Extern 1 (_ ≤ _) => lia : pos.
#[export] Hint Extern 1 (_ < _) => lia : pos.

Lemma u64_small x : 0 ≤ x < 2 ^ 64 → u64 x = x.
Proof. apply Z.mod_small. Qed.

Lemma u64_range x : 0 ≤ u64 x < 2 ^ 64.
Proof. apply Z.mod_pos_bound. lia. Qed.

Lemma u8_small x : 0 ≤ x < 256 → u8 x = x.
Proof. apply Z.mod_small. Qed.

Lemma u8_range x : 0 ≤ u8 x < 256.
Proof. apply Z.mod_pos_bound. lia. Qed.

Lemma u64_mod_pow2 x k : 0 ≤ k ≤ 64 → u64 x mod 2 ^ k = x mod 2 ^ k.
Proof.
  intros. unfold u64. rewrite (pow2_split 64 k) by lia.
  rewrite Z.mul_comm, Z.rem_mul_r by (pose proof (pow2_pos k); pose proof (pow2_pos (64 - k)); lia).
  rewrite Z.mul_comm, Z.mod_add by (pose proof (pow2_pos k); lia).
  apply Z.mod_mod. pose proof (pow2_pos k); lia.
Qed.

Lemma land_pow2 x k : 0 ≤ k → Z.land x (2 ^ k) = if Z.testbit x k then 2 ^ k else 0.
Proof.
  intros Hk. apply Z.bits_inj'. intros i Hi. rewrite Z.land_spec, Z.pow2_bits_eqb by lia.
  destruct (Z.eqb_spec k i) as [->|Hne].
  - destruct (Z.testbit x i); [|by rewrite Z.bits_0].
    rewrite Z.pow2_bits_true by lia. reflexivity.
  - rewrite andb_false_r. destruct (Z.testbit x k); [|by rewrite Z.bits_0].
    rewrite Z.pow2_bits_false by lia. reflexivity.
Qed.

(** A disjunction of disjoint bit ranges is a sum. *)
Lemma lor_shift_add a b k : 0 ≤ k → 0 ≤ a < 2 ^ k → Z.lor a (b * 2 ^ k) = a + b * 2 ^ k.
Proof.
  intros Hk Ha.
  assert (Hland : Z.land a (b * 2 ^ k) = 0).
  { apply Z.bits_inj'. intros i Hi. rewrite Z.land_spec, Z.bits_0.
    destruct (Z.lt_ge_cases i k).
    - rewrite Z.mul_pow2_bits_low by lia. apply andb_false_r.
    - rewrite <- (Z.mod_small a (2 ^ k)) by lia.
      rewrite Z.mod_pow2_bits_high by lia. reflexivity. }
  rewrite <- Z.lxor_lor by done. symmetry. by apply Z.add_nocarry_lxor.
Qed.

Lemma lor_top a k : 0 ≤ k → 0 ≤ a < 2 ^ k → Z.lor a (2 ^ k) = a + 2 ^ k.
Proof. intros. rewrite <- (Z.mul_1_l (2 ^ k)). by apply lor_shift_add. Qed.

Lemma shr_div x k : 0 ≤ k → x >>> k = x / 2 ^ k.
Proof. intros. unfold shr64. by apply Z.shiftr_div_pow2. Qed.

Lemma shl_mul x k : 0 ≤ k → x <<< k = u64 (x * 2 ^ k).
Proof. intros. unfold shl64. by rewrite Z.shiftl_mul_pow2. Qed.

Lemma testbit_div x k : 0 ≤ k → Z.testbit x k = Z.odd (x / 2 ^ k).
Proof.
  intros. rewrite <- (Z.add_0_l k) at 1. rewrite <- Z.div_pow2_bits by lia.
  apply Z.bit0_odd.
Qed.

Lemma div_div_pow2 x a b : 0 ≤ a → 0 ≤ b → x / 2 ^ a / 2 ^ b = x / 2 ^ (a + b).
Proof.
  intros. rewrite Z.pow_add_r by lia. apply Z.div_div.
  - pose proof (pow2_pos a); lia.
  - auto with pos.
Qed.

Lemma shl_one k : 0 ≤ k < 64 → 1 <<< k = 2 ^ k.
Proof.
  intros. rewrite shl_mul, Z.mul_1_l by lia. apply u64_small.
  pose proof (pow2_pos k). pose proof (Z.pow_lt_mono_r 2 k 64). lia.
Qed.

(** The mask [uint64(2<<forestRows) - 1] has [forestRows + 1] low ones. *)
Lemma mask_eq f : 0 ≤ f ≤ 63 → (2 <<< f) ⊟ 1 = 2 ^ (f + 1) - 1.
Proof.
  intros. unfold sub64. rewrite shl_mul by lia.
  replace (2 * 2 ^ f) with (2 ^ (f + 1)) by (rewrite pow2_succ; lia).
  pose proof (pow2_pos (f + 1)). pose proof (pow2_le (f + 1) 64).
  unfold u64. rewrite Zminus_mod_idemp_l. apply Z.mod_small. lia.
Qed.

Lemma land_mask x k : 0 ≤ k → Z.land x (2 ^ k - 1) = x mod 2 ^ k.
Proof.
  intros. rewrite <- Z.land_ones by lia. f_equal. rewrite Z.ones_equiv. lia.
Qed.

(** ** Sorted lists of integers *)

Lemma sorted_lt_nodup (l : list Z) : StronglySorted Z.lt l → NoDup l.
Proof.
  induction 1 as [|x l Hl IH Hall]; constructor; [|done].
  rewrite Forall_forall in Hall. intros Hin%Hall. lia.
Qed.

Lemma sorted_le_nodup_lt (l : list Z) : StronglySorted Z.le l → NoDup l → StronglySorted Z.lt l.
Proof.
  induction 1 as [|x l Hl IH Hall]; intros Hnd; constructor; inversion_clear Hnd; auto.
  rewrite Forall_forall in *. intros y Hy. specialize (Hall y Hy).
  assert (x ≠ y) by (intros ->; done). lia.
Qed.

Lemma sorted_lt_le (l : list Z) : StronglySorted Z.lt l → StronglySorted Z.le l.
Proof.
  induction 1 as [|x l ? ? Hall]; constructor; [done|].
  eapply Forall_impl; [exact Hall|]. intros; simpl in *; lia.
Qed.

(** A set of integers has one increasing enumeration. *)
Lemma sorted_lt_unique (l1 l2 : list Z) :
  StronglySorted Z.lt l1 → StronglySorted Z.lt l2 → l1 ≡ₚ l2 → l1 = l2.
Proof. intros. by apply (StronglySorted_unique Z.le); try apply sorted_lt_le. Qed.

Lemma sort_nodup (l : list Z) : NoDup l → ∃ l', StronglySorted Z.lt l' ∧ l' ≡ₚ l.
Proof.
  intros Hnd. exists (merge_sort Z.le l).
  assert (merge_sort Z.le l ≡ₚ l) as Hp by apply merge_sort_Permutation.
  split; [|done]. apply sorted_le_nodup_lt; [|by rewrite Hp].
  apply (StronglySorted_merge_sort Z.le).
Qed.
