(* ===== verification/State.v ===== *)
(** * Computations on a state

    A method with a pointer receiver is a function from the receiver to the receiver
    that it leaves behind and its outcome.  The receiver is returned with every
    outcome: an [error] or a panic in the middle of a method does not undo what the
    method has already done.  [wp] is the weakest precondition of a normal return. *)

From S2P Require Import Prelude.

Definition st (S A : Type) : Type := S → S * res A.

#[global] Instance st_ret S : MRet (st S) := λ A a s, (s, Ok a).
#[global] Instance st_bind S : MBind (st S) := λ A B k m s,
  match m s with
  | (s', Ok a) => k a s'
  | (s', Err e) => (s', Err e)
  | (s', Panic) => (s', Panic)
  | (s', Spin) => (s', Spin)
  end.

(** A function that does not touch the receiver. *)
Definition lift {S A} (m : res A) : st S A := λ s, (s, m).
Definition fail {S A} (e : error) : st S A := λ s, (s, Err e).
Definition gets {S A} (f : S → A) : st S A := λ s, (s, Ok (f s)).
Definition modify {S} (f : S → S) : st S unit := λ s, (f s, Ok tt).

(** [f()] where [f] returns an [error] that the caller does not look at. *)
Definition dropError {S} (m : st S unit) : st S unit := λ s,
  match m s with
  | (s', Err _) => (s', Ok tt)
  | r => r
  end.

(** [x, err = f(); if err != nil { return err }]: [onErr] is what the assignment does to
    the receiver when there is an error. *)
Definition orElse {S A} (m : st S A) (onErr : st S unit) : st S A := λ s,
  match m s with
  | (s', Err e) =>
      match onErr s' with
      | (s', Ok _) => (s', Err e)
      | (s', Err e) => (s', Err e)
      | (s', Panic) => (s', Panic)
      | (s', Spin) => (s', Spin)
      end
  | r => r
  end.

(** [for _, x := range l { f(x) }]. *)
Fixpoint for_each {S A} (l : list A) (f : A → st S unit) : st S unit :=
  match l with
  | [] => mret tt
  | x :: l => f x ;; for_each l f
  end.

(** ** Running *)

(** A step that returns normally. *)
Lemma st_bind_ok {S A B} (m : st S A) (k : A → st S B) s s' a :
  m s = (s', Ok a) → (m ≫= k) s = k a s'.
Proof. intros Hm. unfold mbind, st_bind. by rewrite Hm. Qed.

Lemma st_lift_ok {S A B} (m : res A) (k : A → st S B) s a :
  m = Ok a → (lift m ≫= k) s = k a s.
Proof. by intros ->. Qed.

Lemma st_ret_bind {S A B} (a : A) (k : A → st S B) s : (mret a ≫= k) s = k a s.
Proof. done. Qed.

Lemma st_gets {S A B} (f : S → A) (k : A → st S B) s : (gets f ≫= k) s = k (f s) s.
Proof. done. Qed.

Lemma st_modify {S B} (f : S → S) (k : unit → st S B) s : (modify f ≫= k) s = k tt (f s).
Proof. done. Qed.

Lemma st_assoc {S A B C} (m : st S A) (k : A → st S B) (k' : B → st S C) s :
  ((m ≫= k) ≫= k') s = (m ≫= λ a, k a ≫= k') s.
Proof. unfold mbind, st_bind. by destruct (m s) as [s' [a|e| |]]. Qed.

(** Running the steps that read or write the receiver. *)
Ltac st_run := repeat (rewrite st_gets || rewrite st_modify); cbn beta iota.

(** ** Total correctness *)

Definition wp {S A} (m : st S A) (Q : A → S → Prop) (s : S) : Prop :=
  match m s with
  | (s', Ok a) => Q a s'
  | _ => False
  end.

Section Wp.
Context {S : Type}.
Implicit Types s : S.

Lemma wp_ret {A} (a : A) (Q : A → S → Prop) s : wp (mret a) Q s ↔ Q a s.
Proof. done. Qed.

Lemma wp_bind {A B} (m : st S A) (k : A → st S B) Q s :
  wp (m ≫= k) Q s ↔ wp m (λ a, wp (k a) Q) s.
Proof. unfold wp, mbind, st_bind. by destruct (m s) as [s' [a|e| |]]. Qed.

Lemma wp_lift {A} (m : res A) Q s : wp (lift m) Q s ↔ ∃ a, m = Ok a ∧ Q a s.
Proof. unfold wp, lift. destruct m; naive_solver. Qed.

Lemma wp_gets {A} (f : S → A) Q s : wp (gets f) Q s ↔ Q (f s) s.
Proof. done. Qed.

Lemma wp_modify (f : S → S) Q s : wp (modify f) Q s ↔ Q tt (f s).
Proof. done. Qed.

Lemma wp_mono {A} (m : st S A) (P Q : A → S → Prop) s :
  wp m P s → (∀ a s', P a s' → Q a s') → wp m Q s.
Proof. unfold wp. destruct (m s) as [s' [a|e| |]]; naive_solver. Qed.

Lemma wp_dropError (m : st S unit) Q s : wp m Q s → wp (dropError m) Q s.
Proof. unfold wp, dropError. destruct (m s) as [s' [a|e| |]]; naive_solver. Qed.

Lemma wp_result {A} (m : st S A) Q s : wp m Q s → ∃ s' a, m s = (s', Ok a) ∧ Q a s'.
Proof. unfold wp. destruct (m s) as [s' [a|e| |]]; naive_solver. Qed.

(** A loop keeps an invariant that speaks about the elements that are left. *)
Lemma wp_for_each {A} (f : A → st S unit) (I : list A → S → Prop) l s :
  I l s → (∀ x l' s', I (x :: l') s' → wp (f x) (λ _, I l') s') → wp (for_each l f) (λ _, I []) s.
Proof.
  intros HI Hstep. revert s HI. induction l as [|x l IH]; intros s HI; [done|].
  cbn [for_each]. apply wp_bind. apply (wp_mono _ (λ _, I l)); [by apply Hstep|]. auto.
Qed.
End Wp.
