(* ===== verification/Utils.v ===== *)
(** * utils.go: arithmetic on forest positions

    One definition per function of [utils.go] that computes on positions; the
    printing functions are left out.  Rows are Go [uint8]s, positions and leaf
    counts Go [uint64]s. *)

From S2P Require Import Prelude.

(** ** Family relations *)

Definition leftChild (position forestRows : Z) : Z :=
  let mask := (2 <<< forestRows) ⊟ 1 in
  (position <<< 1) &&& mask.

Definition rightChild (position forestRows : Z) : Z :=
  let mask := (2 <<< forestRows) ⊟ 1 in
  ((position <<< 1) &&& mask) ||| 1.

Definition childMany (position drop forestRows : Z) : res Z :=
  if drop =? 0 then Ok position
  else if forestRows <? drop then Err ErrDrop
  else
    let mask := (2 <<< forestRows) ⊟ 1 in
    Ok ((position <<< drop) &&& mask).

Definition sibling (pos : Z) : Z := pos ^^^ 1.

(** Go's [pos &^ 1]. *)
Definition leftSib (pos : Z) : Z := Z.ldiff pos 1.

Definition rightSib (pos : Z) : Z := pos ||| 1.

Definition parent (position forestRows : Z) : Z :=
  (position >>> 1) ||| (1 <<< forestRows).

Definition parentMany (position rise forestRows : Z) : res Z :=
  if rise =? 0 then Ok position
  else if forestRows <? rise then Err ErrRise
  else
    let mask := (2 <<< forestRows) ⊟ 1 in
    Ok (((position >>> rise) ||| (mask <<< u8 (forestRows - u8 (rise - 1)))) &&& mask).

Definition isLeftNiece (position : Z) : bool := position &&& 1 =? 0.

(** ** Sizes *)

(** [math/bits.Len64] and [math/bits.OnesCount64]. *)
Definition Len64 (x : Z) : Z := if x =? 0 then 0 else Z.log2 x + 1.
Definition OnesCount64 (x : Z) : Z :=
  Z.of_nat (length (filter (λ i, Z.testbit x i = true) (seqZ 0 64))).

Definition treeRows (n : Z) : Z :=
  if n =? 0 then 0 else u8 (Len64 (n ⊟ 1)).

Definition numRoots (numLeaves : Z) : Z := u8 (OnesCount64 numLeaves).

Definition maxLeafCount (forestRows : Z) : Z := 1 <<< forestRows.

Definition maxPosition (forestRows : Z) : Z := (2 <<< forestRows) ⊟ 1.

(** The source computes [offset] in [int]; its conversion to [uint64] is the
    same value modulo [2^64]. *)
Definition startPositionAtRow (row forestRows : Z) : Z :=
  (2 <<< forestRows) ⊟ (2 <<< u8 (forestRows - row)).

Definition maxPossiblePosAtRow (row totalRows : Z) : Z :=
  let mask := (2 <<< totalRows) ⊟ 1 in
  ((mask <<< u8 (totalRows - row)) &&& mask) ⊟ 1.

Definition maxPositionAtRow (row forestRows numLeaves : Z) : res Z :=
  let* max := parentMany numLeaves row forestRows in
  Ok (if negb (max =? 0) then max ⊟ 1 else max).

(** ** Rows of positions *)

(** [for h = 0; position&marker != 0; h++ { marker >>= 1 }].  The marker is a
    64-bit word, so it is 0 after at most 64 shifts and 65 rounds are enough
    (see [detectRow_loop_enough] in [PosTheory]). *)
Fixpoint detectRow_loop (fuel : nat) (position marker h : Z) : Z :=
  match fuel with
  | O => h
  | S fuel =>
      if negb (position &&& marker =? 0)
      then detectRow_loop fuel position (marker >>> 1) (u8 (h + 1))
      else h
  end.

Definition detectRow (position forestRows : Z) : Z :=
  detectRow_loop 65 position (1 <<< forestRows) 0.

Definition translatePos (pos fromTotalRow toTotalRow : Z) : Z :=
  let row := detectRow pos fromTotalRow in
  if row =? 0 then pos
  else
    let offset := pos ⊟ startPositionAtRow row fromTotalRow in
    offset ⊞ startPositionAtRow row toTotalRow.

Definition translatePositions (positions : list Z) (fromTotalRow toTotalRow : Z) : list Z :=
  map (λ p, translatePos p fromTotalRow toTotalRow) positions.

(** ** Roots *)

Definition rootPosition (leaves h forestRows : Z) : Z :=
  let mask := (2 <<< forestRows) ⊟ 1 in
  let before := leaves &&& (mask <<< u8 (h + 1)) in
  let shifted := (before >>> h) ||| (mask <<< u8 (u8 (forestRows + 1) - h)) in
  shifted &&& mask.

Definition rootExistsOnRow (numLeaves h : Z) : bool :=
  (numLeaves >>> h) &&& 1 =? 1.

(** [for h := int(totalRows); h >= 0; h--]. *)
Fixpoint RootPositions_loop (h : nat) (numLeaves totalRows : Z) : list Z :=
  let rest := match h with O => [] | S h' => RootPositions_loop h' numLeaves totalRows end in
  if negb (rootExistsOnRow numLeaves (Z.of_nat h)) then rest
  else rootPosition numLeaves (Z.of_nat h) totalRows :: rest.

Definition RootPositions (numLeaves totalRows : Z) : list Z :=
  RootPositions_loop (Z.to_nat totalRows) numLeaves totalRows.

Definition isRootPositionOnRow (position numLeaves row : Z) : bool :=
  let rootPresent := negb (numLeaves &&& (1 <<< row) =? 0) in
  let rootPos := rootPosition numLeaves row (treeRows numLeaves) in
  rootPresent && (rootPos =? position).

Definition isRootPosition (position numLeaves : Z) : bool :=
  let row := detectRow position (treeRows numLeaves) in
  isRootPositionOnRow position numLeaves row.

Definition isRootPositionTotalRows (position numLeaves totalRows : Z) : bool :=
  if negb (totalRows =? treeRows numLeaves) then
    let translated := translatePos position totalRows (treeRows numLeaves) in
    isRootPosition translated numLeaves
  else isRootPosition position numLeaves.

Definition isRootPositionOnRowTotalRows (position numLeaves row forestRows : Z) : bool :=
  if negb (treeRows numLeaves =? forestRows) then
    let translated := translatePos position forestRows (treeRows numLeaves) in
    isRootPositionOnRow translated numLeaves row
  else isRootPositionOnRow position numLeaves row.

(** [for ; row <= totalRows; row++]; a [uint8] row that passes 255 wraps to 0, so
    256 rounds cover every run that ends. *)
Fixpoint getLowestRoot_loop (fuel : nat) (row numLeaves totalRows : Z) : res Z :=
  match fuel with
  | O => Spin
  | S fuel =>
      if row <=? totalRows then
        if negb (numLeaves &&& (1 <<< row) =? 0) then Ok row
        else getLowestRoot_loop fuel (u8 (row + 1)) numLeaves totalRows
      else Ok row
  end.

Definition getLowestRoot (numLeaves totalRows : Z) : res Z :=
  getLowestRoot_loop 257 0 numLeaves totalRows.

Fixpoint getRootPosition_loop (fuel : nat) (h returnPos numLeaves forestRows : Z) : option Z :=
  match fuel with
  | O => None
  | S fuel =>
      if h <=? forestRows then
        if rootPosition numLeaves h forestRows =? returnPos then Some returnPos
        else getRootPosition_loop fuel (u8 (h + 1)) (parent returnPos forestRows) numLeaves forestRows
      else None
  end.

(** The loop visits at most the rows from the position's own to [forestRows]. *)
Definition getRootPosition (position numLeaves forestRows : Z) : res Z :=
  match getRootPosition_loop 257 (detectRow position forestRows) position numLeaves forestRows with
  | Some p => Ok p
  | None =>
      if negb (position =? 0) && negb (forestRows =? 0) then Err ErrRootPosition else Ok 0
  end.

(** ** Ancestors and moves *)

Definition isAncestor (higherPos lowerPos forestRows : Z) : bool :=
  if higherPos =? lowerPos then false
  else
    let lowerRow := detectRow lowerPos forestRows in
    let higherRow := detectRow higherPos forestRows in
    if higherRow <? lowerRow then false
    else match parentMany lowerPos (u8 (higherRow - lowerRow)) forestRows with
         | Ok ancestor => higherPos =? ancestor
         | _ => false
         end.

Definition removeBit (val bit : Z) : Z :=
  let mask := (2 <<< bit) ⊟ 1 in
  let upperMask := maxU64 ^^^ mask in
  let upper := val &&& upperMask in
  let mask := (1 <<< bit) ⊟ 1 in
  let lowerMask := not64 (maxU64 ^^^ mask) in
  let lower := val &&& lowerMask in
  (upper >>> 1) ||| lower.

Definition addBit (val place : Z) (bit : bool) : Z :=
  let mask := (1 <<< place) ⊟ 1 in
  let upperMask := maxU64 ^^^ mask in
  let upper := val &&& upperMask in
  let upper := upper <<< 1 in
  let lowerMask := not64 (maxU64 ^^^ mask) in
  let lower := val &&& lowerMask in
  if bit then (upper ||| lower) ||| (1 <<< place) else upper ||| lower.

Definition calcNextPosition (position delPos forestRows : Z) : res Z :=
  let delRow := detectRow delPos forestRows in
  let posRow := detectRow position forestRows in
  if delRow <? posRow then Err ErrDelPosLower
  else
    let lowerBits := removeBit position (u8 (delRow - posRow)) in
    let toRow := u8 (posRow + 1) in
    let higherBits := (1 <<< toRow) <<< u8 (forestRows - toRow) in
    Ok (higherBits ||| lowerBits).

Definition calcPrevPosition (position delPos forestRows : Z) : Z :=
  let delRow := detectRow delPos forestRows in
  let posRow := detectRow position forestRows in
  let mask := not64 ((1 <<< posRow) <<< u8 (forestRows - posRow)) in
  let lowerBits := position &&& mask in
  let bitToAdd := isLeftNiece delPos in
  let bitToAdd :=
    if delRow <? posRow then (if isLeftNiece delPos then true else false) else bitToAdd in
  let place := u8 (delRow - u8 (posRow - 1)) in
  addBit lowerBits place bitToAdd.

(** ** Locating a position *)

(** The loop of [detectOffset]; [tRows] is a Go [int] and reaches -1 at worst. *)
Fixpoint detectOffset_loop (fuel : nat) (position nr tRows numLeaves biggerTrees : Z)
    : res (Z * Z * Z) :=
  match fuel with
  | O => Spin
  | S fuel =>
      if maxLeafCount (u8 tRows) &&& numLeaves
           <=? (position <<< nr) &&& maxPosition (u8 tRows) then
        if tRows <? 0 then Err ErrDetectOffset
        else
          let treeSize := (1 <<< tRows) &&& numLeaves in
          if negb (treeSize =? 0)
          then detectOffset_loop fuel (position ⊟ treeSize) nr (tRows - 1) numLeaves
                 (u8 (biggerTrees + 1))
          else detectOffset_loop fuel position nr (tRows - 1) numLeaves biggerTrees
      else Ok (biggerTrees, tRows, position)
  end.

Definition detectOffset (position numLeaves : Z) : res (Z * Z * Z) :=
  let tRows := treeRows numLeaves in
  let nr := detectRow position (u8 tRows) in
  let* (biggerTrees, tRows, position) :=
    detectOffset_loop (Z.to_nat tRows + 2) position nr tRows numLeaves 0 in
  let position := position ^^^ 1 in
  Ok (biggerTrees, u8 (u8 tRows - nr), not64 position).

(** [for pos&marker != 0 { pos = ((pos << 1) & mask) | 1 }]. *)
Fixpoint inForest_loop (fuel : nat) (pos marker mask : Z) : res Z :=
  match fuel with
  | O => Spin
  | S fuel =>
      if negb (pos &&& marker =? 0)
      then inForest_loop fuel (((pos <<< 1) &&& mask) ||| 1) marker mask
      else Ok pos
  end.

Definition inForest (pos numLeaves forestRows : Z) : res bool :=
  if pos <? numLeaves then Ok true
  else
    let marker := 1 <<< forestRows in
    let mask := (marker <<< 1) ⊟ 1 in
    if mask <=? pos then Ok false
    else
      let* pos := inForest_loop 66 pos marker mask in
      Ok (pos <? numLeaves).

(** ** Sorted deletions *)

(** [sort.Search(n, f)]: the binary search of Go's standard library. *)
Fixpoint sortSearch_loop (fuel : nat) (i j : nat) (f : nat → bool) : nat :=
  match fuel with
  | O => i
  | S fuel =>
      if (i <? j)%nat then
        let h := ((i + j) / 2)%nat in
        if negb (f h) then sortSearch_loop fuel (h + 1) j f
        else sortSearch_loop fuel i h f
      else i
  end.

Definition sortSearch (n : nat) (f : nat → bool) : nat := sortSearch_loop n 0 n f.

Definition insertInOrder (dels : list Z) (el : Z) : list Z :=
  let index := sortSearch (length dels) (λ i, el <? default 0 (dels !! i)) in
  take index dels ++ el :: drop index dels.

(** The loop of [deTwin]: [i] is unchanged after a merge because of [i--; i++]. *)
Fixpoint deTwin_loop (fuel : nat) (i : nat) (dels : list Z) (forestRows : Z) : list Z :=
  match fuel with
  | O => dels
  | S fuel =>
      match dels !! i with
      | None => dels
      | Some pos =>
          match dels !! S i with
          | Some next =>
              if rightSib pos =? next then
                deTwin_loop fuel i
                  (insertInOrder (take i dels ++ drop (i + 2) dels) (parent pos forestRows))
                  forestRows
              else deTwin_loop fuel (S i) dels forestRows
          | None => deTwin_loop fuel (S i) dels forestRows
          end
      end
  end.

(** A merge shortens the slice by one and any other round advances [i], so
    [2 * len] rounds suffice. *)
Definition deTwin (dels : list Z) (forestRows : Z) : list Z :=
  deTwin_loop (2 * length dels + 1) 0 dels forestRows.

(** ** Proof positions of a single target *)

Fixpoint proofPosition_loop (fuel : nat) (h pos numLeaves totalRows : Z) : list Z :=
  match fuel with
  | O => []
  | S fuel =>
      if h <=? totalRows then
        if isRootPositionTotalRows pos numLeaves totalRows then []
        else sibling pos ::
             proofPosition_loop fuel (u8 (h + 1)) (parent pos totalRows) numLeaves totalRows
      else []
  end.

Definition proofPosition (target numLeaves totalRows : Z) : list Z :=
  proofPosition_loop (Z.to_nat totalRows + 2) (detectRow target totalRows) target
    numLeaves totalRows.

(** ** Comparison helpers *)

Definition uint64Cmp (a b : Z) : Z := if a <? b then -1 else if b <? a then 1 else 0.

Definition uint64Less (a b : Z) : bool := a <? b.

(** [copySortedFunc(s, uint64Less)]: a sorted copy. *)
Definition copySortedFunc (slice : list Z) : list Z := merge_sort Z.le slice.

(** The examples of the source comments and of [utils_test.go]. *)
Example parent_ex : parent 0 3 = 8 ∧ leftChild 14 3 = 12 ∧ rightChild 12 3 = 9.
Proof. repeat split. Qed.
Example childMany_ex : childMany 14 3 3 = Ok 0 ∧ childMany 14 2 3 = Ok 8.
Proof. repeat split. Qed.
Example removeBit_ex : removeBit 11 2 = 7 ∧ addBit 9 2 true = 21.
Proof. repeat split. Qed.
Example calc_ex : calcNextPosition 1 5 2 = Ok 5 ∧ calcPrevPosition 5 5 2 = 1.
Proof. repeat split. Qed.
Example inForest_ex :
  inForest 0 2 50 = Ok true ∧ inForest 4 2 50 = Ok false ∧
  inForest 43 40 50 = Ok false ∧ inForest 150004 152121 50 = Ok true ∧
  inForest (parent 156004 50) 152121 50 = Ok false.
Proof. repeat split. Qed.
Example roots_ex : RootPositions 7 3 = [12; 10; 6] ∧ treeRows 5 = 3 ∧ numRoots 7 = 3.
Proof. repeat split; vm_compute; reflexivity. Qed.
Example deTwin_ex : deTwin [0; 1; 2; 3] 3 = [12] ∧ deTwin [0; 1; 4; 6; 7] 3 = [4; 8; 11].
Proof. repeat split; vm_compute; reflexivity. Qed.
