(* ===== verification/PosTheory.v ===== *)
(** * Theory of forest positions

    A node of a forest of [f] rows is a pair of a row [r] and an offset [o] in
    that row; [npos f r o] is its position.  This file proves what every function
    of [Utils] does in these coordinates. *)

From S2P Require Import Prelude Utils.

(** ** Coordinates *)

Definition npos (f r o : Z) : Z := 2 ^ (f + 1) - 2 ^ (f + 1 - r) + o.

(** The rows and offsets that exist in a full forest of [f] rows. *)
Definition valid (f r o : Z) : Prop := 0 ≤ r ≤ f ∧ f ≤ 63 ∧ 0 ≤ o < 2 ^ (f - r).

(** The node [(r, o)] lies in the forest of [n] leaves: its last leaf does. *)
Definition in_forest (n r o : Z) : Prop := 0 ≤ r ∧ 0 ≤ o ∧ (o + 1) * 2 ^ r ≤ n.

(** The node [(r, o)] is the root of one of the trees of a forest of [n] leaves. *)
Definition is_root (n r o : Z) : bool :=
  Z.testbit n r && (o =? 2 * (n / 2 ^ (r + 1))).

(** The numbers of leaves and rows for which positions fit in 64 bits. *)
Definition fits (n f : Z) : Prop := 0 ≤ n ≤ 2 ^ f ∧ 0 ≤ f ≤ 63.

Lemma npos_eq f r o : 0 ≤ r ≤ f + 1 → npos f r o = (2 ^ r - 1) * 2 ^ (f + 1 - r) + o.
Proof. intros. unfold npos. rewrite (pow2_split (f + 1) (f + 1 - r)) by lia.
  replace (f + 1 - (f + 1 - r)) with r by lia. lia. Qed.

Lemma npos_range f r o : valid f r o → 0 ≤ npos f r o < 2 ^ (f + 1) - 1.
Proof.
  intros (Hr & Hf & Ho). unfold npos.
  pose proof (pow2_le (f + 1 - r) (f + 1)). pose proof (pow2_succ (f - r)).
  replace (f - r + 1) with (f + 1 - r) in * by lia.
  pose proof (pow2_pos (f - r)). lia.
Qed.

Lemma npos_range64 f r o : valid f r o → 0 ≤ npos f r o < 2 ^ 64.
Proof.
  intros Hv. pose proof (npos_range f r o Hv). destruct Hv as (? & ? & ?).
  pose proof (pow2_le (f + 1) 64). lia.
Qed.

Lemma npos_row_succ f r : 0 ≤ r ≤ f → npos f (r + 1) 0 = npos f r 0 + 2 ^ (f - r).
Proof.
  intros. unfold npos. replace (f + 1 - r) with (f - r + 1) by lia.
  rewrite (pow2_succ (f - r)) by lia. replace (f + 1 - (r + 1)) with (f - r) by lia. lia.
Qed.

Lemma npos_row_mono f r r' : 0 ≤ r ≤ r' → r' ≤ f + 1 → npos f r 0 ≤ npos f r' 0.
Proof. intros. unfold npos. pose proof (pow2_le (f + 1 - r') (f + 1 - r)). lia. Qed.

(** Positions are ordered by row first and by offset within a row. *)
Lemma npos_lt_row f r o r' o' :
  valid f r o → valid f r' o' → r < r' → npos f r o < npos f r' o'.
Proof.
  intros (? & ? & ?) (? & ? & ?) ?.
  pose proof (npos_row_mono f (r + 1) r'). pose proof (npos_row_succ f r).
  assert (npos f r o = npos f r 0 + o) by (unfold npos; lia).
  assert (npos f r' o' = npos f r' 0 + o') by (unfold npos; lia). lia.
Qed.

Lemma npos_lt f r o r' o' :
  valid f r o → valid f r' o' →
  npos f r o < npos f r' o' ↔ r < r' ∨ r = r' ∧ o < o'.
Proof.
  intros Hv Hv'. split.
  - intros Hlt. destruct (Z.lt_trichotomy r r') as [?|[->|?]]; [by left| |].
    + right. split; [done|]. unfold npos in Hlt. lia.
    + pose proof (npos_lt_row f r' o' r o Hv' Hv). lia.
  - intros [?|[-> ?]]; [by apply npos_lt_row|]. unfold npos. lia.
Qed.

Lemma npos_inj f r o r' o' :
  valid f r o → valid f r' o' → npos f r o = npos f r' o' → r = r' ∧ o = o'.
Proof.
  intros Hv Hv' Heq. destruct (Z.lt_trichotomy r r') as [?|[->|?]].
  - pose proof (npos_lt_row f r o r' o' Hv Hv'). lia.
  - split; [done|]. unfold npos in Heq. lia.
  - pose proof (npos_lt_row f r' o' r o Hv' Hv). lia.
Qed.

(** Every position below the top has coordinates. *)
Definition rowOf (f p : Z) : Z := f - Z.log2 (2 ^ (f + 1) - 1 - p).
Definition offOf (f p : Z) : Z := p - npos f (rowOf f p) 0.

Lemma npos_decode f p : 0 ≤ f ≤ 63 → 0 ≤ p < 2 ^ (f + 1) - 1 →
  valid f (rowOf f p) (offOf f p) ∧ p = npos f (rowOf f p) (offOf f p).
Proof.
  intros Hf Hp. unfold offOf. split; [|unfold npos; lia].
  pose proof (Z.log2_spec (2 ^ (f + 1) - 1 - p)) as [Hlo Hhi]; [lia|].
  pose proof (Z.log2_nonneg (2 ^ (f + 1) - 1 - p)).
  assert (Z.log2 (2 ^ (f + 1) - 1 - p) ≤ f) as Hle.
  { assert (Z.log2 (2 ^ (f + 1) - 1 - p) < f + 1); [|lia].
    apply Z.log2_lt_pow2; lia. }
  unfold valid, rowOf in *. set (k := Z.log2 _) in *.
  rewrite <- Z.add_1_r, (pow2_succ k) in Hhi by lia.
  unfold npos. replace (f + 1 - (f - k)) with (k + 1) by lia.
  rewrite (pow2_succ k) by lia. replace (f - (f - k)) with k by lia. lia.
Qed.

(** ** Bits of a position *)

Lemma npos_testbit f r o i : valid f r o → f - r ≤ i ≤ f →
  Z.testbit (npos f r o) i = (f - r <? i).
Proof.
  intros (Hr & Hf & Ho) Hi. rewrite npos_eq by lia.
  rewrite Z.add_comm, <- lor_shift_add; [|lia|].
  2:{ pose proof (pow2_le (f - r) (f + 1 - r)). lia. }
  rewrite Z.lor_spec.
  assert (Z.testbit o i = false) as ->.
  { rewrite <- (Z.mod_small o (2 ^ (f - r))) by lia.
    apply Z.mod_pow2_bits_high. lia. }
  rewrite orb_false_l. destruct (Z.ltb_spec (f - r) i).
  - rewrite Z.mul_pow2_bits by lia.
    replace (2 ^ r - 1) with (Z.ones r) by (rewrite Z.ones_equiv; lia).
    apply Z.ones_spec_low. lia.
  - apply Z.mul_pow2_bits_low. lia.
Qed.

(** ** [detectRow] *)

(** The loop of [detectRow] has ended after 65 rounds on any 64-bit input. *)
Lemma detectRow_loop_enough n fuel p m h :
  0 ≤ m < 2 ^ Z.of_nat n → (n < fuel)%nat →
  detectRow_loop fuel p m h = detectRow_loop (S n) p m h.
Proof.
  revert fuel m h. induction n as [|n IH]; intros fuel m h Hm Hfuel.
  - assert (m = 0) as -> by (simpl in Hm; lia).
    destruct fuel; [lia|]. cbn. by rewrite Z.land_0_r.
  - destruct fuel as [|fuel]; [lia|].
    cbn [detectRow_loop]. case_match; [|done].
    change (if negb _ then _ else _) with (detectRow_loop (S n) p (m >>> 1) (u8 (h + 1))).
    apply IH; [|lia]. rewrite shr_div by lia.
    rewrite Nat2Z.inj_succ, <- Z.add_1_r, pow2_succ in Hm by lia.
    split; [apply Z.div_pos; lia|]. apply Z.div_lt_upper_bound; lia.
Qed.

Lemma detectRow_loop_npos fuel f r o h :
  valid f r o → 0 ≤ h ≤ r → (Z.to_nat (r - h) < fuel)%nat →
  detectRow_loop fuel (npos f r o) (2 ^ (f - h)) h = r.
Proof.
  intros Hv. revert h. induction fuel as [|fuel IH]; intros h Hh Hfuel; [lia|].
  pose proof Hv as (? & ? & ?). cbn [detectRow_loop].
  rewrite land_pow2, npos_testbit by (done || lia).
  destruct (Z.ltb_spec (f - r) (f - h)).
  - pose proof (pow2_pos (f - h)). rewrite (proj2 (Z.eqb_neq _ _)) by lia. simpl.
    rewrite shr_div, (pow2_split (f - h) 1), Z.div_mul, u8_small by lia.
    replace (f - h - 1) with (f - (h + 1)) by lia. apply IH; lia.
  - simpl. lia.
Qed.

Lemma detectRow_npos f r o : valid f r o → detectRow (npos f r o) f = r.
Proof.
  intros Hv. pose proof Hv as (? & ? & ?). unfold detectRow.
  rewrite shl_one by lia. rewrite <- (Z.sub_0_r f) at 2.
  apply detectRow_loop_npos; lia || done.
Qed.

(** ** Family relations in coordinates *)

Lemma parent_eq p f : 0 ≤ f ≤ 63 → 0 ≤ p < 2 ^ (f + 1) → parent p f = p / 2 + 2 ^ f.
Proof.
  intros. unfold parent. rewrite shl_one, shr_div by lia.
  change (2 ^ 1) with 2. rewrite lor_top; [lia|lia|].
  rewrite pow2_succ in * by lia. split; [apply Z.div_pos; lia|].
  apply Z.div_lt_upper_bound; lia.
Qed.

Lemma leftChild_eq p f : 0 ≤ f ≤ 63 → leftChild p f = (2 * p) mod 2 ^ (f + 1).
Proof.
  intros. unfold leftChild. rewrite mask_eq, land_mask, shl_mul, u64_mod_pow2 by lia.
  f_equal. lia.
Qed.

Lemma lor_one_even x : Z.even x = true → Z.lor x 1 = x + 1.
Proof.
  intros He. apply Z.even_spec in He as [k ->].
  rewrite Z.lor_comm, (Z.mul_comm 2 k). change 2 with (2 ^ 1) at 1.
  rewrite lor_shift_add by (change (2 ^ 1) with 2; lia). change (2 ^ 1) with 2. lia.
Qed.

Lemma rightSib_eq p : rightSib p = if Z.even p then p + 1 else p.
Proof.
  unfold rightSib. destruct (Z.even p) eqn:He; [by apply lor_one_even|].
  rewrite <- Z.negb_odd in He. apply negb_false_iff, Z.odd_spec in He as [k ->].
  rewrite <- (lor_one_even (2 * k)) by (apply Z.even_spec; by exists k).
  rewrite <- Z.lor_assoc. reflexivity.
Qed.

Lemma lxor_one_even x : Z.even x = true → Z.lxor x 1 = x + 1.
Proof.
  intros He. rewrite <- lor_one_even by done. apply Z.lxor_lor.
  change 1 with (2 ^ 0). rewrite land_pow2, Z.bit0_odd, <- Z.negb_even, He by lia. done.
Qed.

Lemma sibling_eq p : sibling p = if Z.even p then p + 1 else p - 1.
Proof.
  unfold sibling. destruct (Z.even p) eqn:He; [by apply lxor_one_even|].
  rewrite <- Z.negb_odd in He. apply negb_false_iff, Z.odd_spec in He as [k ->].
  rewrite <- (lxor_one_even (2 * k)) at 1 by (apply Z.even_spec; by exists k).
  rewrite Z.lxor_assoc, Z.lxor_nilpotent, Z.lxor_0_r. lia.
Qed.

Lemma leftSib_eq p : leftSib p = if Z.even p then p else p - 1.
Proof.
  unfold leftSib. change 1 with (Z.ones 1) at 1.
  rewrite Z.ldiff_ones_r, Z.shiftl_mul_pow2, Z.shiftr_div_pow2 by lia. change (2 ^ 1) with 2.
  pose proof (Z.div_mod p 2). pose proof (Zmod_even p). destruct (Z.even p); lia.
Qed.

Lemma isLeftNiece_even p : isLeftNiece p = Z.even p.
Proof.
  unfold isLeftNiece. change 1 with (2 ^ 0). rewrite land_pow2, Z.bit0_odd by lia.
  rewrite <- Z.negb_odd. by destruct (Z.odd p).
Qed.

Lemma npos_even f r o : valid f r o → r < f → Z.even (npos f r o) = Z.even o.
Proof.
  intros (? & ? & ?) ?. unfold npos.
  rewrite (pow2_succ f), (pow2_split (f + 1 - r) 1) by lia.
  rewrite Z.even_add, Z.even_sub, !Z.even_mul. simpl. rewrite orb_true_r. by destruct (Z.even o).
Qed.

Lemma valid_parent f r o : valid f r o → r < f → valid f (r + 1) (o / 2).
Proof.
  intros (? & ? & ?) ?. repeat split; try lia.
  - apply Z.div_pos; lia.
  - apply Z.div_lt_upper_bound; [lia|]. rewrite <- pow2_succ by lia.
    replace (f - (r + 1) + 1) with (f - r) by lia. lia.
Qed.

Lemma parent_npos f r o : valid f r o → parent (npos f r o) f = npos f (r + 1) (o / 2).
Proof.
  intros Hv. pose proof (npos_range f r o Hv). pose proof Hv as (? & ? & ?).
  rewrite parent_eq by lia. unfold npos. rewrite pow2_succ by lia.
  replace (f + 1 - (r + 1)) with (f - r) by lia.
  replace (f + 1 - r) with (f - r + 1) by lia. rewrite (pow2_succ (f - r)) by lia.
  replace (2 * 2 ^ f - 2 * 2 ^ (f - r) + o) with (o + (2 ^ f - 2 ^ (f - r)) * 2) by lia.
  rewrite Z.div_add by lia. lia.
Qed.

Lemma sibling_npos f r o : valid f r o → r < f → sibling (npos f r o) = npos f r (sibling o).
Proof.
  intros Hv Hr. rewrite !sibling_eq, npos_even by done.
  unfold npos. destruct (Z.even o); lia.
Qed.

Lemma valid_sibling f r o : valid f r o → r < f → valid f r (sibling o).
Proof.
  intros (? & ? & ?) ?. repeat split; try lia; rewrite sibling_eq; destruct (Z.even o) eqn:He.
  - lia.
  - rewrite <- Z.negb_odd in He. apply negb_false_iff, Z.odd_spec in He as [k ->]. lia.
  - apply Z.even_spec in He as [k ->].
    rewrite (pow2_split (f - r) 1) in * by lia. lia.
  - lia.
Qed.

Lemma npos_shift f r o : 0 ≤ r → npos f (r + 1) o = npos f (r + 1) 0 + o.
Proof. unfold npos. lia. Qed.

Lemma leftChild_npos f r o :
  valid f (r + 1) o → 0 ≤ r → leftChild (npos f (r + 1) o) f = npos f r (2 * o).
Proof.
  intros (? & ? & ?) ?. rewrite leftChild_eq by lia.
  pose proof (pow2_succ (f - (r + 1))). replace (f - (r + 1) + 1) with (f - r) in * by lia.
  pose proof (npos_range f r (2 * o)). unfold valid in *.
  replace (2 * npos f (r + 1) o) with (npos f r (2 * o) + 1 * 2 ^ (f + 1)).
  - rewrite Z.mod_add by lia. apply Z.mod_small. lia.
  - unfold npos. replace (f + 1 - (r + 1)) with (f - r) by lia.
    replace (f + 1 - r) with (f - r + 1) by lia. rewrite (pow2_succ (f - r)) by lia. lia.
Qed.

Lemma rightChild_leftChild p f : 0 ≤ f ≤ 63 → rightChild p f = leftChild p f + 1.
Proof.
  intros. change (rightChild p f) with (Z.lor (leftChild p f) 1).
  apply lor_one_even. rewrite leftChild_eq by lia.
  rewrite <- Z.negb_odd, <- Z.bit0_odd, Z.mod_pow2_bits_low by lia.
  by rewrite Z.testbit_even_0.
Qed.

Lemma valid_child f r o b : valid f (r + 1) o → 0 ≤ r → 0 ≤ b ≤ 1 → valid f r (2 * o + b).
Proof.
  intros (? & ? & ?) ? ?. repeat split; try lia.
  replace (f - r) with (f - (r + 1) + 1) by lia. rewrite pow2_succ by lia. lia.
Qed.

(** ** Several rows at once *)

Lemma mask_shift f k : 0 ≤ f ≤ 63 → 0 ≤ k ≤ f + 1 →
  ((2 ^ (f + 1) - 1) <<< k) &&& (2 ^ (f + 1) - 1) = 2 ^ (f + 1) - 2 ^ k.
Proof.
  intros. rewrite land_mask, shl_mul, u64_mod_pow2 by lia.
  replace ((2 ^ (f + 1) - 1) * 2 ^ k)
    with (2 ^ (f + 1) - 2 ^ k + (2 ^ k - 1) * 2 ^ (f + 1)) by lia.
  pose proof (pow2_pos (f + 1)). pose proof (pow2_pos k). pose proof (pow2_le k (f + 1)).
  rewrite Z.mod_add by lia. apply Z.mod_small. lia.
Qed.

(** The common shape of [parentMany] and [rootPosition]: row bits above an offset. *)
Lemma row_bits f k a : 0 ≤ f ≤ 63 → 0 ≤ k ≤ f + 1 → 0 ≤ a < 2 ^ k →
  (a ||| ((2 ^ (f + 1) - 1) <<< k)) &&& (2 ^ (f + 1) - 1) = 2 ^ (f + 1) - 2 ^ k + a.
Proof.
  intros Hf Hk Ha. rewrite Z.land_lor_distr_l, mask_shift by lia.
  pose proof (pow2_le k (f + 1)). rewrite land_mask, Z.mod_small by lia.
  replace (2 ^ (f + 1) - 2 ^ k) with ((2 ^ (f + 1 - k) - 1) * 2 ^ k)
    by (rewrite (pow2_split (f + 1) k) by lia; lia).
  rewrite lor_shift_add by lia. lia.
Qed.

Lemma parentMany_eq p k f : 0 ≤ f ≤ 63 → 0 ≤ p < 2 ^ (f + 1) → 0 ≤ k ≤ f →
  parentMany p k f = Ok (npos f k (p / 2 ^ k)).
Proof.
  intros. unfold parentMany. destruct (Z.eqb_spec k 0) as [->|].
  - f_equal. unfold npos. rewrite Z.sub_0_r, Z.div_1_r. lia.
  - rewrite (proj2 (Z.ltb_ge _ _)) by lia. f_equal.
    rewrite mask_eq, shr_div by lia. rewrite (u8_small (k - 1)), u8_small by lia.
    replace (f - (k - 1)) with (f + 1 - k) by lia. rewrite row_bits; [done|lia|lia|].
    pose proof (pow2_pos k). split; [apply Z.div_pos; lia|].
    apply Z.div_lt_upper_bound; [lia|]. rewrite Z.mul_comm, <- pow2_split; lia.
Qed.

Lemma npos_div f r o k : valid f r o → 0 ≤ k ≤ f + 1 - r →
  npos f r o / 2 ^ k = 2 ^ (f + 1 - k) - 2 ^ (f + 1 - r - k) + o / 2 ^ k.
Proof.
  intros (? & ? & ?) ?. unfold npos.
  rewrite (pow2_split (f + 1) k), (pow2_split (f + 1 - r) k) by lia.
  replace (_ - _ + o) with (o + (2 ^ (f + 1 - k) - 2 ^ (f + 1 - r - k)) * 2 ^ k) by lia.
  pose proof (pow2_pos k). rewrite Z.div_add by lia. lia.
Qed.

Lemma valid_ancestor f r o k : valid f r o → 0 ≤ k ≤ f - r → valid f (r + k) (o / 2 ^ k).
Proof.
  intros (? & ? & ?) ?. pose proof (pow2_pos k). repeat split; try lia.
  - apply Z.div_pos; lia.
  - apply Z.div_lt_upper_bound; [lia|].
    rewrite Z.mul_comm, <- Z.pow_add_r by lia. replace (f - (r + k) + k) with (f - r) by lia. lia.
Qed.

Lemma parentMany_npos f r o k : valid f r o → 0 ≤ k ≤ f - r →
  parentMany (npos f r o) k f = Ok (npos f (r + k) (o / 2 ^ k)).
Proof.
  intros Hv Hk. pose proof (npos_range f r o Hv). pose proof Hv as (? & ? & ?).
  rewrite parentMany_eq by lia. f_equal. rewrite npos_div by (done || lia).
  unfold npos. replace (f + 1 - (r + k)) with (f + 1 - r - k) by lia. lia.
Qed.

(** ** Rows of the forest *)

Lemma treeRows_bounds n : 1 ≤ n ≤ 2 ^ 63 →
  0 ≤ treeRows n ≤ 63 ∧ n ≤ 2 ^ treeRows n ∧ (treeRows n = 0 ∨ 2 ^ (treeRows n - 1) < n).
Proof.
  intros Hn. unfold treeRows, Len64, sub64. rewrite (proj2 (Z.eqb_neq n 0)) by lia.
  rewrite u64_small by lia. destruct (Z.eqb_spec (n - 1) 0).
  { rewrite u8_small by lia. assert (n = 1) as -> by lia. simpl. lia. }
  pose proof (Z.log2_spec (n - 1)) as [Hlo Hhi]; [lia|].
  pose proof (Z.log2_nonneg (n - 1)).
  assert (Z.log2 (n - 1) < 63) by (apply Z.log2_lt_pow2; lia).
  rewrite u8_small by lia. rewrite <- Z.add_1_r in Hhi.
  replace (Z.log2 (n - 1) + 1 - 1) with (Z.log2 (n - 1)) by lia. lia.
Qed.

Lemma fits_treeRows n : 0 ≤ n ≤ 2 ^ 63 → fits n (treeRows n).
Proof.
  intros. destruct (Z.eq_dec n 0) as [->|].
  { unfold fits. change (treeRows 0) with 0. lia. }
  pose proof (treeRows_bounds n). unfold fits. lia.
Qed.

Lemma fits_le n f : fits n f → 0 ≤ n ≤ 2 ^ 63.
Proof. intros [? ?]. pose proof (pow2_le f 63). lia. Qed.

Lemma startPositionAtRow_eq r f : 0 ≤ r ≤ f → f ≤ 63 → startPositionAtRow r f = npos f r 0.
Proof.
  intros. unfold startPositionAtRow, sub64. rewrite u8_small, !shl_mul by lia.
  unfold u64. rewrite <- Zminus_mod. fold (u64 (2 * 2 ^ f - 2 * 2 ^ (f - r))).
  rewrite <- !pow2_succ by lia. unfold npos. replace (f - r + 1) with (f + 1 - r) by lia.
  pose proof (pow2_le (f + 1 - r) (f + 1)). pose proof (pow2_le (f + 1) 64).
  pose proof (pow2_pos (f + 1 - r)). rewrite u64_small; lia.
Qed.

Lemma maxPossiblePosAtRow_eq r f : 0 ≤ r ≤ f → f ≤ 63 →
  maxPossiblePosAtRow r f = npos f (r + 1) 0 - 1.
Proof.
  intros. unfold maxPossiblePosAtRow. rewrite u8_small by lia.
  rewrite mask_eq, mask_shift by lia. unfold sub64.
  pose proof (pow2_le (f - r) f). pose proof (pow2_le f 63). pose proof (pow2_succ f).
  pose proof (pow2_pos (f - r)). rewrite u64_small; [|lia].
  unfold npos. replace (f + 1 - (r + 1)) with (f - r) by lia. lia.
Qed.

Lemma maxPositionAtRow_eq r f n : fits n f → 0 ≤ r ≤ f → n / 2 ^ r + r ≠ 0 →
  maxPositionAtRow r f n = Ok (npos f r (n / 2 ^ r) - 1).
Proof.
  intros [? ?] ? Hnz. unfold maxPositionAtRow.
  pose proof (pow2_succ f). pose proof (pow2_le (f + 1) 64).
  rewrite parentMany_eq by lia. simpl. do 2 f_equal.
  pose proof (pow2_pos r). assert (0 ≤ n / 2 ^ r) by (apply Z.div_pos; lia).
  assert (n / 2 ^ r ≤ 2 ^ (f - r)).
  { apply Z.div_le_upper_bound; [lia|]. rewrite Z.mul_comm, <- pow2_split; lia. }
  pose proof (pow2_succ (f - r)). replace (f - r + 1) with (f + 1 - r) in * by lia.
  assert (0 < npos f r (n / 2 ^ r) < 2 ^ 64).
  { unfold npos. destruct (Z.eq_dec r 0) as [->|].
    - rewrite !Z.sub_0_r in *. lia.
    - pose proof (Z.pow_lt_mono_r 2 (f + 1 - r) (f + 1)). pose proof (pow2_pos (f - r)). lia. }
  rewrite (proj2 (Z.eqb_neq _ _)) by lia. simpl. unfold sub64. apply u64_small. lia.
Qed.

Lemma translatePos_npos f g r o :
  valid f r o → valid g r o → translatePos (npos f r o) f g = npos g r o.
Proof.
  intros Hf Hg. pose proof (npos_range64 g r o Hg).
  pose proof Hf as (? & ? & ?). pose proof Hg as (? & ? & ?).
  unfold translatePos. rewrite detectRow_npos by done. destruct (Z.eqb_spec r 0) as [->|].
  - unfold npos. rewrite !Z.sub_0_r. lia.
  - rewrite !startPositionAtRow_eq by lia. unfold sub64, add64.
    replace (npos f r o - npos f r 0) with o by (unfold npos; lia).
    pose proof (npos_range64 f r o Hf).
    assert (o < 2 ^ 64) by (pose proof (pow2_le (f - r) 64); lia).
    rewrite (u64_small o) by lia. rewrite u64_small; unfold npos in *; lia.
Qed.

(** ** The forest of [n] leaves *)

Lemma in_forest_div n r o : in_forest n r o ↔ 0 ≤ r ∧ 0 ≤ o < n / 2 ^ r.
Proof.
  unfold in_forest. split; intros (? & ? & ?); pose proof (pow2_pos r).
  - repeat split; try lia. enough (o + 1 ≤ n / 2 ^ r) by lia. apply Z.div_le_lower_bound; lia.
  - repeat split; try lia. pose proof (Z.mul_div_le n (2 ^ r)). nia.
Qed.

Lemma in_forest_valid n f r o : fits n f → in_forest n r o → valid f r o.
Proof.
  intros [? ?] (? & ? & Hle). pose proof (pow2_pos r).
  assert (r ≤ f).
  { destruct (Z.le_gt_cases r f); [done|].
    pose proof (Z.pow_lt_mono_r 2 f r). nia. }
  repeat split; try lia. rewrite (pow2_split f r) in * by lia. nia.
Qed.

Lemma div_pow2_succ n r : 0 ≤ r → n / 2 ^ (r + 1) = n / 2 ^ r / 2.
Proof. intros. rewrite <- (div_div_pow2 n r 1) by lia. done. Qed.

Lemma is_root_div n r o : 0 ≤ r →
  is_root n r o = Z.odd (n / 2 ^ r) && (o =? n / 2 ^ r - 1).
Proof.
  intros. unfold is_root. rewrite testbit_div, div_pow2_succ by lia.
  pose proof (Z.div2_odd (n / 2 ^ r)) as Hq. rewrite Z.div2_div in Hq.
  destruct (Z.odd (n / 2 ^ r)); [|done]. simpl in *. do 2 f_equal. lia.
Qed.

Lemma root_in_forest n r o : 0 ≤ n → 0 ≤ r → is_root n r o = true → in_forest n r o.
Proof.
  intros ? ? Hroot. rewrite is_root_div in Hroot by lia.
  apply andb_true_iff in Hroot as [Hodd ->%Z.eqb_eq]. apply in_forest_div.
  pose proof (pow2_pos r). assert (0 ≤ n / 2 ^ r) by (apply Z.div_pos; lia).
  apply Z.odd_spec in Hodd as [k Hk]. lia.
Qed.

(** A node of the forest that is not a root has its sibling and its parent in the forest. *)
Lemma non_root_family n r o : in_forest n r o → is_root n r o = false →
  in_forest n r (sibling o) ∧ in_forest n (r + 1) (o / 2).
Proof.
  rewrite !in_forest_div. intros (? & ?) Hroot.
  rewrite is_root_div in Hroot by lia. rewrite div_pow2_succ, sibling_eq by lia.
  set (m := n / 2 ^ r) in *.
  pose proof (Z.div2_odd m) as Hm. rewrite Z.div2_div in Hm.
  pose proof (Z.div2_odd o) as Ho. rewrite Z.div2_div in Ho.
  rewrite <- Z.negb_odd. unfold Z.b2z in *.
  destruct (Z.odd m), (Z.odd o); simpl in *; try apply Z.eqb_neq in Hroot; lia.
Qed.

(** The parent of a root is outside the forest. *)
Lemma root_parent_out n r o : 0 ≤ r → is_root n r o = true → ¬ in_forest n (r + 1) (o / 2).
Proof.
  intros Hr Hroot. rewrite in_forest_div, div_pow2_succ by lia.
  rewrite is_root_div in Hroot by lia. apply andb_true_iff in Hroot as [Hodd ->%Z.eqb_eq].
  set (m := n / 2 ^ r) in *. pose proof (Z.div2_odd m) as Hm.
  rewrite Z.div2_div, Hodd in Hm. simpl in Hm. intros [? ?].
  assert ((m - 1) / 2 = m / 2); [|lia]. symmetry. apply (Z.div_unique _ _ _ 0); lia.
Qed.

Lemma in_forest_top n f r o : fits n f → in_forest n r o → is_root n r o = false → r < f.
Proof.
  intros Hfit Hin Hroot. destruct (non_root_family n r o Hin Hroot) as [_ Hp].
  apply (in_forest_valid n f) in Hp as (? & ? & ?); [lia|done].
Qed.

(** ** Roots *)

Lemma land_high n f k : 0 ≤ f ≤ 63 → 0 ≤ k → 0 ≤ n < 2 ^ (f + 1) →
  n &&& ((2 ^ (f + 1) - 1) <<< k) = n / 2 ^ k * 2 ^ k.
Proof.
  intros Hf Hk Hn. rewrite shl_mul by lia. unfold u64. apply Z.bits_inj'. intros i Hi.
  rewrite Z.land_spec. rewrite <- (Z.mod_small n (2 ^ (f + 1))) at 1 by lia.
  destruct (Z.lt_ge_cases i (f + 1)) as [Hlt|Hge].
  - rewrite !Z.mod_pow2_bits_low by lia. destruct (Z.lt_ge_cases i k).
    + rewrite !Z.mul_pow2_bits_low by lia. apply andb_false_r.
    + rewrite !Z.mul_pow2_bits by lia. rewrite Z.div_pow2_bits by lia.
      replace (2 ^ (f + 1) - 1) with (Z.ones (f + 1)) by (rewrite Z.ones_equiv; lia).
      rewrite Z.ones_spec_low, andb_true_r by lia. f_equal. lia.
  - rewrite Z.mod_pow2_bits_high by lia. rewrite andb_false_l. symmetry.
    destruct (Z.lt_ge_cases i k); [by apply Z.mul_pow2_bits_low|].
    rewrite Z.mul_pow2_bits by lia. rewrite Z.div_pow2_bits by lia.
    rewrite <- (Z.mod_small n (2 ^ (f + 1))) by lia. apply Z.mod_pow2_bits_high. lia.
Qed.

Lemma rootPosition_eq n h f : fits n f → 0 ≤ h ≤ f →
  rootPosition n h f = npos f h (2 * (n / 2 ^ (h + 1))).
Proof.
  intros [? ?] ?. unfold rootPosition. pose proof (pow2_succ f). pose proof (pow2_pos f).
  rewrite (u8_small (f + 1)), !u8_small, mask_eq by lia.
  rewrite land_high, shr_div by lia.
  assert (n / 2 ^ (h + 1) * 2 ^ (h + 1) / 2 ^ h = 2 * (n / 2 ^ (h + 1))) as ->.
  { rewrite (pow2_succ h) at 2 by lia. pose proof (pow2_pos h).
    rewrite Z.mul_assoc, Z.div_mul by lia. lia. }
  rewrite row_bits; [unfold npos; lia|lia|lia|].
  pose proof (pow2_pos (h + 1)). assert (0 ≤ n / 2 ^ (h + 1)) by (apply Z.div_pos; lia).
  assert (n / 2 ^ (h + 1) < 2 ^ (f - h)).
  { apply Z.div_lt_upper_bound; [lia|]. rewrite <- Z.pow_add_r by lia.
    replace (h + 1 + (f - h)) with (f + 1) by lia. lia. }
  replace (f + 1 - h) with (f - h + 1) by lia. rewrite (pow2_succ (f - h)) by lia. lia.
Qed.

Lemma bit_set_eq n h : 0 ≤ h < 64 → negb (n &&& (1 <<< h) =? 0) = Z.testbit n h.
Proof.
  intros. rewrite shl_one, land_pow2 by lia. pose proof (pow2_pos h).
  destruct (Z.testbit n h); [|done]. rewrite (proj2 (Z.eqb_neq _ _)); [done|lia].
Qed.

Lemma rootExistsOnRow_eq n h : 0 ≤ h → rootExistsOnRow n h = Z.testbit n h.
Proof.
  intros. unfold rootExistsOnRow. rewrite shr_div, testbit_div by lia.
  change 1 with (2 ^ 0) at 1. rewrite land_pow2, Z.bit0_odd by lia.
  by destruct (Z.odd _).
Qed.

Lemma isRootPositionOnRow_npos n r o : 0 ≤ n ≤ 2 ^ 63 → valid (treeRows n) r o →
  isRootPositionOnRow (npos (treeRows n) r o) n r = is_root n r o.
Proof.
  intros Hn Hv. pose proof (fits_treeRows n Hn) as Hfit.
  pose proof Hv as (? & ? & ?). unfold isRootPositionOnRow, is_root.
  rewrite bit_set_eq, rootPosition_eq by (done || lia). f_equal.
  unfold npos. destruct (Z.eqb_spec o (2 * (n / 2 ^ (r + 1)))) as [->|];
    [apply Z.eqb_refl|apply Z.eqb_neq; lia].
Qed.

Lemma isRootPosition_npos n r o : 0 ≤ n ≤ 2 ^ 63 → valid (treeRows n) r o →
  isRootPosition (npos (treeRows n) r o) n = is_root n r o.
Proof.
  intros. unfold isRootPosition. rewrite detectRow_npos by done.
  by apply isRootPositionOnRow_npos.
Qed.

(** With more rows than the forest needs, positions are translated first. *)
Lemma isRootPositionOnRowTotalRows_npos n f r o : fits n f → in_forest n r o →
  isRootPositionOnRowTotalRows (npos f r o) n r f = is_root n r o.
Proof.
  intros Hfit Hin. pose proof (fits_le n f Hfit) as Hn.
  pose proof (fits_treeRows n Hn) as Hfit'.
  pose proof (in_forest_valid n f r o Hfit Hin) as Hv.
  pose proof (in_forest_valid n _ r o Hfit' Hin) as Hv'.
  unfold isRootPositionOnRowTotalRows. destruct (Z.eqb_spec (treeRows n) f) as [<-|]; simpl.
  - by apply isRootPositionOnRow_npos.
  - rewrite translatePos_npos by done. by apply isRootPositionOnRow_npos.
Qed.

Lemma isRootPositionTotalRows_npos n f r o : fits n f → in_forest n r o →
  isRootPositionTotalRows (npos f r o) n f = is_root n r o.
Proof.
  intros Hfit Hin. pose proof (fits_le n f Hfit) as Hn.
  pose proof (fits_treeRows n Hn) as Hfit'.
  pose proof (in_forest_valid n f r o Hfit Hin) as Hv.
  pose proof (in_forest_valid n _ r o Hfit' Hin) as Hv'.
  unfold isRootPositionTotalRows. destruct (Z.eqb_spec f (treeRows n)) as [->|]; simpl.
  - by apply isRootPosition_npos.
  - rewrite translatePos_npos by done. by apply isRootPosition_npos.
Qed.

(** ** Ancestors *)

Lemma isAncestor_npos f r o r' o' : valid f r o → valid f r' o' →
  isAncestor (npos f r' o') (npos f r o) f = (r <? r') && (o' =? o / 2 ^ (r' - r)).
Proof.
  intros Hv Hv'. pose proof Hv as (? & ? & ?). pose proof Hv' as (? & ? & ?).
  unfold isAncestor. rewrite !detectRow_npos by done.
  destruct (Z.eqb_spec (npos f r' o') (npos f r o)) as [Heq|Hne].
  { apply npos_inj in Heq as [-> ->]; [|done..]. by rewrite Z.ltb_irrefl. }
  destruct (Z.ltb_spec r' r); [by rewrite (proj2 (Z.ltb_ge _ _)) by lia|].
  rewrite u8_small, parentMany_npos by (done || lia).
  replace (r + (r' - r)) with r' by lia.
  destruct (Z.ltb_spec r r').
  - destruct (Z.eqb_spec o' (o / 2 ^ (r' - r))) as [->|]; [apply Z.eqb_refl|].
    apply Z.eqb_neq. unfold npos. lia.
  - assert (r' = r) as -> by lia. rewrite Z.sub_diag, Z.div_1_r in *.
    apply Z.eqb_neq. unfold npos in *. lia.
Qed.

(** ** Removing and adding a bit *)

Lemma maxU64_ones : maxU64 = Z.ones 64.
Proof. done. Qed.

Lemma land_clear v k : 0 ≤ v < 2 ^ 64 → 0 ≤ k ≤ 64 →
  v &&& (maxU64 ^^^ (2 ^ k - 1)) = v / 2 ^ k * 2 ^ k.
Proof.
  intros Hv Hk. replace (2 ^ k - 1) with (Z.ones k) by (rewrite Z.ones_equiv; lia).
  rewrite maxU64_ones. apply Z.bits_inj'. intros i Hi. rewrite Z.land_spec, Z.lxor_spec.
  destruct (Z.lt_ge_cases i k).
  - rewrite !Z.ones_spec_low, Z.mul_pow2_bits_low by lia. apply andb_false_r.
  - rewrite (Z.ones_spec_high k), xorb_false_r by lia.
    rewrite Z.mul_pow2_bits, Z.div_pow2_bits by lia. replace (i - k + k) with i by lia.
    destruct (Z.lt_ge_cases i 64).
    + rewrite Z.ones_spec_low by lia. apply andb_true_r.
    + rewrite <- (Z.mod_small v (2 ^ 64)) by lia. rewrite Z.mod_pow2_bits_high by lia. done.
Qed.

Lemma not64_xor m : not64 (maxU64 ^^^ m) = m.
Proof. unfold not64. rewrite (Z.lxor_comm maxU64 m), Z.lxor_assoc, Z.lxor_nilpotent.
  apply Z.lxor_0_r. Qed.

Lemma ones_mask k : 0 ≤ k < 64 → (1 <<< k) ⊟ 1 = 2 ^ k - 1.
Proof.
  intros. rewrite shl_one by lia. unfold sub64. pose proof (pow2_pos k).
  pose proof (pow2_le k 63). apply u64_small. lia.
Qed.

Lemma removeBit_eq v k : 0 ≤ v < 2 ^ 64 → 0 ≤ k < 64 →
  removeBit v k = v / 2 ^ (k + 1) * 2 ^ k + v mod 2 ^ k.
Proof.
  intros. unfold removeBit.
  rewrite mask_eq, ones_mask, not64_xor, land_clear, land_mask, shr_div by lia.
  change (2 ^ 1) with 2. rewrite (pow2_succ k) at 2 by lia.
  replace (v / 2 ^ (k + 1) * (2 * 2 ^ k)) with (v / 2 ^ (k + 1) * 2 ^ k * 2) by lia.
  rewrite Z.div_mul by lia. rewrite Z.lor_comm, lor_shift_add; [lia|lia|].
  apply Z.mod_pos_bound. auto with pos.
Qed.

Lemma addBit_eq v k b : 0 ≤ v < 2 ^ 63 → 0 ≤ k < 63 →
  addBit v k b = v / 2 ^ k * 2 ^ (k + 1) + (if b then 2 ^ k else 0) + v mod 2 ^ k.
Proof.
  intros Hv Hk. unfold addBit. pose proof (pow2_pos k).
  rewrite ones_mask, not64_xor, land_clear, land_mask, shl_mul by lia.
  pose proof (Z.mul_div_le v (2 ^ k)). assert (0 ≤ v / 2 ^ k) by (apply Z.div_pos; lia).
  rewrite u64_small by nia. rewrite shl_one by lia. rewrite (pow2_succ k) by lia.
  replace (v / 2 ^ k * 2 ^ k * 2 ^ 1) with (v / 2 ^ k * (2 * 2 ^ k)) by lia.
  pose proof (Z.mod_pos_bound v (2 ^ k)).
  assert (v / 2 ^ k * (2 * 2 ^ k) ||| v mod 2 ^ k = v mod 2 ^ k + v / 2 ^ k * 2 * 2 ^ k) as ->.
  { rewrite Z.lor_comm. replace (v / 2 ^ k * (2 * 2 ^ k)) with (v / 2 ^ k * 2 * 2 ^ k) by lia.
    apply lor_shift_add; lia. }
  destruct b; [|lia]. set (q := v / 2 ^ k) in *. set (m := v mod 2 ^ k) in *.
  assert (q * 2 * 2 ^ k ||| 2 ^ k = (q * 2 + 1) * 2 ^ k) as Hor.
  { rewrite <- (lor_one_even (q * 2)) by (rewrite Z.even_mul; apply orb_true_r).
    rewrite <- !Z.shiftl_mul_pow2, Z.shiftl_lor by lia.
    rewrite (Z.shiftl_mul_pow2 1) by lia. f_equal. lia. }
  rewrite <- (lor_shift_add m (q * 2) k), <- Z.lor_assoc, Hor by lia.
  rewrite lor_shift_add by lia. lia.
Qed.

(** ** Moving up and down when a subtree is deleted

    [rm k o] drops bit [k] of the offset [o], [ins k b o] puts it back. *)

Definition rm (k o : Z) : Z := o / 2 ^ (k + 1) * 2 ^ k + o mod 2 ^ k.
Definition ins (k : Z) (b : bool) (o : Z) : Z :=
  o / 2 ^ k * 2 ^ (k + 1) + (if b then 2 ^ k else 0) + o mod 2 ^ k.

Lemma npos_mod f r o k : valid f r o → 0 ≤ k ≤ f + 1 - r → npos f r o mod 2 ^ k = o mod 2 ^ k.
Proof.
  intros (? & ? & ?) ?. unfold npos.
  rewrite (pow2_split (f + 1) k), (pow2_split (f + 1 - r) k) by lia.
  replace (_ - _ + o) with (o + (2 ^ (f + 1 - k) - 2 ^ (f + 1 - r - k)) * 2 ^ k) by lia.
  pose proof (pow2_pos k). by rewrite Z.mod_add by lia.
Qed.

Lemma valid_rm f r o k : valid f r o → 0 ≤ k < f - r → valid f (r + 1) (rm k o).
Proof.
  intros (? & ? & ?) ?. pose proof (pow2_pos k). pose proof (pow2_pos (k + 1)).
  pose proof (Z.mod_pos_bound o (2 ^ k)). unfold rm.
  assert (0 ≤ o / 2 ^ (k + 1)) by (apply Z.div_pos; lia).
  assert (o / 2 ^ (k + 1) < 2 ^ (f - r - 1 - k)).
  { apply Z.div_lt_upper_bound; [lia|]. rewrite <- Z.pow_add_r by lia.
    replace (k + 1 + (f - r - 1 - k)) with (f - r) by lia. lia. }
  repeat split; try nia. replace (f - (r + 1)) with (f - r - 1) by lia.
  rewrite (pow2_split (f - r - 1) k) by lia. nia.
Qed.

Lemma calcNextPosition_npos f r o rd od : valid f r o → valid f rd od → r ≤ rd < f →
  calcNextPosition (npos f r o) (npos f rd od) f = Ok (npos f (r + 1) (rm (rd - r) o)).
Proof.
  intros Hv Hvd Hr. pose proof Hv as (? & ? & ?). pose proof (npos_range64 f r o Hv).
  pose proof (valid_rm f r o (rd - r) Hv) as (? & ? & ?); [lia|].
  unfold calcNextPosition. rewrite !detectRow_npos by done.
  rewrite (proj2 (Z.ltb_ge _ _)) by lia. f_equal.
  rewrite (u8_small (r + 1)), !u8_small, removeBit_eq by lia.
  set (k := rd - r) in *.
  rewrite npos_div, npos_mod by (done || lia).
  rewrite (shl_one (r + 1)), shl_mul, <- Z.pow_add_r by lia.
  replace (r + 1 + (f - (r + 1))) with f by lia.
  pose proof (pow2_le f 63). pose proof (pow2_pos f). rewrite u64_small by lia.
  set (x := _ + o mod 2 ^ k).
  assert (x = 2 ^ f - 2 ^ (f - r) + rm k o) as ->.
  { unfold x, rm. replace (f + 1 - (k + 1)) with (f - k) by lia.
    replace (f + 1 - r - (k + 1)) with (f - r - k) by lia.
    rewrite (pow2_split f k), (pow2_split (f - r) k) by lia. lia. }
  pose proof (pow2_le (f - r) f). pose proof (pow2_le (f - (r + 1)) (f - r)).
  rewrite Z.lor_comm, lor_top by lia. unfold npos. rewrite pow2_succ by lia. replace (f + 1 - (r + 1)) with (f - r) by lia. lia.
Qed.

Lemma clear_top f w : 0 ≤ f ≤ 63 → 0 ≤ w < 2 ^ f → (w + 2 ^ f) &&& not64 (2 ^ f) = w.
Proof.
  intros Hf Hw. rewrite <- lor_top by lia.
  unfold not64. rewrite maxU64_ones. apply Z.bits_inj'. intros i Hi.
  rewrite Z.land_spec, Z.lor_spec, Z.lxor_spec, Z.pow2_bits_eqb by lia.
  destruct (Z.eqb_spec f i) as [->|].
  - rewrite Z.ones_spec_low, andb_false_r by lia. symmetry.
    rewrite <- (Z.mod_small w (2 ^ i)) by lia. by apply Z.mod_pow2_bits_high.
  - rewrite orb_false_r, xorb_false_l. destruct (Z.lt_ge_cases i 64).
    + rewrite Z.ones_spec_low by lia. apply andb_true_r.
    + rewrite <- (Z.mod_small w (2 ^ f)) by lia. by rewrite Z.mod_pow2_bits_high by lia.
Qed.

Lemma calcPrevPosition_npos f r o rd od :
  valid f (r + 1) o → valid f rd od → 0 ≤ r ≤ rd → rd < f →
  calcPrevPosition (npos f (r + 1) o) (npos f rd od) f
  = npos f r (ins (rd - r) (Z.even od) o).
Proof.
  intros Hv Hvd Hr Hrd. pose proof Hv as (? & ? & ?). pose proof Hvd as (? & ? & ?).
  unfold calcPrevPosition. rewrite !detectRow_npos by done.
  rewrite isLeftNiece_even, npos_even by done.
  replace (if rd <? r + 1 then if Z.even od then true else false else Z.even od)
    with (Z.even od) by (destruct (rd <? r + 1), (Z.even od); done).
  replace (r + 1 - 1) with r by lia. rewrite (u8_small r), !u8_small by lia.
  rewrite (shl_one (r + 1)), shl_mul, <- Z.pow_add_r by lia.
  replace (r + 1 + (f - (r + 1))) with f by lia.
  pose proof (pow2_le f 63). pose proof (pow2_pos f). rewrite u64_small by lia.
  pose proof (pow2_le (f - r) f). pose proof (pow2_succ (f - (r + 1))).
  replace (f - (r + 1) + 1) with (f - r) in * by lia.
  pose proof (pow2_pos (f - (r + 1))).
  assert (npos f (r + 1) o = 2 ^ f - 2 ^ (f - r) + o + 2 ^ f) as ->.
  { unfold npos. rewrite pow2_succ by lia. replace (f + 1 - (r + 1)) with (f - r) by lia. lia. }
  rewrite clear_top by lia. set (k := rd - r). rewrite addBit_eq by lia. unfold ins.
  assert (0 ≤ k < f - r) as Hk by lia.
  assert (2 ^ f - 2 ^ (f - r) + o = o + (2 ^ (f - k) - 2 ^ (f - r - k)) * 2 ^ k) as ->.
  { rewrite (pow2_split f k), (pow2_split (f - r) k) by lia. lia. }
  pose proof (pow2_pos k). rewrite Z.div_add, Z.mod_add by lia. unfold npos.
  replace (f + 1 - r) with (f - r + 1) by lia. rewrite !pow2_succ by lia.
  rewrite (pow2_split f k), (pow2_split (f - r) k) by lia. lia.
Qed.

(** Dropping a bit and putting it back is the identity. *)
Lemma ins_rm k o : 0 ≤ k → ins k (Z.testbit o k) (rm k o) = o.
Proof.
  intros. unfold ins, rm. pose proof (pow2_pos k). pose proof (Z.mod_pos_bound o (2 ^ k)).
  rewrite (Z.add_comm (_ * _) (o mod _)), Z.div_add, Z.mod_add by lia.
  rewrite (Z.div_small (o mod 2 ^ k)), Z.mod_mod by lia.
  rewrite pow2_succ, testbit_div by lia.
  pose proof (Z.div_mod o (2 ^ k)) as Hdm. rewrite <- (pow2_succ k), div_pow2_succ by lia.
  pose proof (Z.div2_odd (o / 2 ^ k)) as Hq. rewrite Z.div2_div in Hq.
  rewrite pow2_succ by lia. destruct (Z.odd (o / 2 ^ k)); simpl in Hq; nia.
Qed.

Lemma rm_ins k b o : 0 ≤ k → rm k (ins k b o) = o.
Proof.
  intros. unfold ins, rm. pose proof (pow2_pos k). pose proof (Z.mod_pos_bound o (2 ^ k)).
  pose proof (Z.div_mod o (2 ^ k)).
  set (m := o mod 2 ^ k) in *. set (q := o / 2 ^ k) in *.
  assert (0 ≤ (if b then 2 ^ k else 0) + m < 2 ^ (k + 1)) as Hlow
    by (rewrite pow2_succ by lia; destruct b; lia).
  replace (q * 2 ^ (k + 1) + (if b then 2 ^ k else 0) + m)
    with ((if b then 2 ^ k else 0) + m + q * 2 ^ (k + 1)) by lia.
  rewrite Z.div_add, (Z.div_small (_ + m)) by lia.
  replace ((if b then 2 ^ k else 0) + m + q * 2 ^ (k + 1))
    with (m + ((if b then 1 else 0) + q * 2) * 2 ^ k)
    by (rewrite pow2_succ by lia; destruct b; lia).
  rewrite Z.mod_add, Z.mod_small by lia. lia.
Qed.

(** ** [inForest] *)

Lemma inForest_loop_npos fuel f r o :
  valid f r o → (Z.to_nat r < fuel)%nat →
  inForest_loop fuel (npos f r o) (2 ^ f) (2 ^ (f + 1) - 1) = Ok (npos f 0 ((o + 1) * 2 ^ r - 1)).
Proof.
  revert r o. induction fuel as [|fuel IH]; intros r o Hv Hfuel; [lia|].
  pose proof Hv as (? & ? & ?). cbn [inForest_loop].
  rewrite land_pow2, npos_testbit by (done || lia).
  destruct (Z.ltb_spec (f - r) f).
  - pose proof (pow2_pos f). rewrite (proj2 (Z.eqb_neq _ _)) by lia. simpl.
    rewrite <- mask_eq by lia. fold (rightChild (npos f r o) f). rewrite mask_eq by lia.
    replace r with (r - 1 + 1) in Hv by lia.
    rewrite rightChild_leftChild by lia.
    replace (npos f r o) with (npos f (r - 1 + 1) o) by (f_equal; lia).
    rewrite leftChild_npos by (done || lia).
    replace (npos f (r - 1) (2 * o) + 1) with (npos f (r - 1) (2 * o + 1)) by (unfold npos; lia).
    rewrite IH; [|apply valid_child; done || lia|lia].
    do 2 f_equal. rewrite (pow2_split r 1) by lia. lia.
  - simpl. assert (r = 0) as -> by lia. do 2 f_equal. lia.
Qed.

Lemma inForest_npos n f r o : fits n f → valid f r o →
  inForest (npos f r o) n f = Ok ((o + 1) * 2 ^ r <=? n).
Proof.
  intros [? ?] Hv. pose proof Hv as (? & ? & ?). pose proof (npos_range f r o Hv).
  unfold inForest. destruct (Z.ltb_spec (npos f r o) n).
  - f_equal. symmetry. apply Z.leb_le.
    assert (r = 0) as ->.
    { destruct (Z.eq_dec r 0); [done|]. pose proof (npos_row_mono f 1 r).
      unfold npos in *. pose proof (pow2_succ f). replace (f + 1 - 1) with f in * by lia. lia. }
    unfold npos in *. rewrite Z.sub_0_r in *. lia.
  - rewrite (shl_one f), shl_mul by lia.
    replace (u64 (2 ^ f * 2 ^ 1)) with (2 <<< f) by (rewrite shl_mul by lia; f_equal; lia).
    rewrite mask_eq by lia. rewrite (proj2 (Z.leb_gt _ _)) by lia.
    rewrite inForest_loop_npos by (done || lia). simpl. f_equal.
    unfold npos. rewrite Z.sub_0_r, Z.sub_diag, Z.add_0_l.
    destruct (Z.leb_spec ((o + 1) * 2 ^ r) n); [apply Z.ltb_lt|apply Z.ltb_ge]; lia.
Qed.

(** ** [RootPositions] and [detectOffset] *)

(** The number of trees above row [R] and up to row [R + k]. *)
Fixpoint bigger (n R : Z) (k : nat) : nat :=
  match k with
  | O => O
  | S k' => ((if Z.testbit n (R + Z.of_nat k) then 1 else 0) + bigger n R k')%nat
  end.

Lemma bigger_le n R k : (bigger n R k ≤ k)%nat.
Proof. induction k; simpl; [lia|]. destruct (Z.testbit _ _); lia. Qed.

Lemma RootPositions_loop_elem h n f p : fits n f → Z.of_nat h ≤ f →
  p ∈ RootPositions_loop h n f ↔
  ∃ r, 0 ≤ r ≤ Z.of_nat h ∧ Z.testbit n r = true ∧ p = npos f r (2 * (n / 2 ^ (r + 1))).
Proof.
  intros Hfit Hh. induction h as [|h IH].
  - cbn [RootPositions_loop]. change (Z.of_nat 0) with 0.
    rewrite rootExistsOnRow_eq, rootPosition_eq by (done || lia). split.
    + destruct (Z.testbit n 0) eqn:E; cbn [negb]; [|by intros ?%not_elem_of_nil].
      intros ->%list_elem_of_singleton. exists 0. auto with lia.
    + intros (r & ? & Hb & ->). assert (r = 0) as -> by lia. rewrite Hb. by left.
  - cbn [RootPositions_loop]. rewrite rootExistsOnRow_eq, rootPosition_eq by (done || lia).
    assert (∀ r, 0 ≤ r ≤ Z.of_nat (S h) ↔ r = Z.of_nat (S h) ∨ 0 ≤ r ≤ Z.of_nat h) as Hr by lia.
    setoid_rewrite Hr. destruct (Z.testbit n (Z.of_nat (S h))) eqn:E; simpl negb; cbv iota.
    + rewrite elem_of_cons, IH by lia. naive_solver.
    + rewrite IH by lia. naive_solver congruence.
Qed.

Lemma RootPositions_loop_sorted h n f : fits n f → Z.of_nat h ≤ f →
  StronglySorted Z.gt (RootPositions_loop h n f).
Proof.
  intros Hfit Hh. induction h as [|h IH]; cbn [RootPositions_loop].
  - destruct (negb _); repeat constructor.
  - destruct (negb _) eqn:E; [apply IH; lia|]. constructor; [apply IH; lia|].
    apply Forall_forall. intros p (r & ? & Hb & ->)%RootPositions_loop_elem; [|done|lia].
    rewrite rootExistsOnRow_eq, negb_false_iff in E by lia.
    rewrite rootPosition_eq by (done || lia). apply Z.lt_gt.
    apply npos_lt_row; [| |lia]; (eapply in_forest_valid; [done|]); destruct Hfit;
      apply root_in_forest; try lia; unfold is_root; by rewrite ?Hb, ?E, Z.eqb_refl.
Qed.

(** The root of row [R] is found after the roots of all higher rows. *)
Lemma RootPositions_loop_lookup k R n f : fits n f → 0 ≤ R → R + Z.of_nat k ≤ f →
  Z.testbit n R = true →
  RootPositions_loop (Z.to_nat (R + Z.of_nat k)) n f !! bigger n R k
  = Some (npos f R (2 * (n / 2 ^ (R + 1)))).
Proof.
  intros Hfit HR. induction k as [|k IH]; intros Hk Hb.
  - rewrite Z.add_0_r. cbn [bigger].
    assert (∀ h, Z.of_nat h = R → RootPositions_loop h n f !! 0%nat
      = Some (npos f R (2 * (n / 2 ^ (R + 1))))) as Haux; [|apply Haux; lia].
    intros h <-. destruct h; cbn [RootPositions_loop];
      rewrite rootExistsOnRow_eq, Hb, rootPosition_eq by (done || lia); done.
  - replace (Z.to_nat (R + Z.of_nat (S k))) with (S (Z.to_nat (R + Z.of_nat k))) by lia.
    cbn [RootPositions_loop bigger].
    replace (Z.of_nat (S (Z.to_nat (R + Z.of_nat k)))) with (R + Z.of_nat (S k)) by lia.
    rewrite rootExistsOnRow_eq by lia.
    destruct (Z.testbit n (R + Z.of_nat (S k))); simpl; apply IH; done || lia.
Qed.

Lemma RootPositions_loop_length h n f :
  length (RootPositions_loop h n f) =
  length (filter (λ i, Z.testbit n i = true) (seqZ 0 (Z.of_nat (S h)))).
Proof.
  assert (∀ i, negb (rootExistsOnRow n (Z.of_nat i)) = negb (Z.testbit n (Z.of_nat i))) as He
    by (intros; rewrite rootExistsOnRow_eq by lia; done).
  induction h as [|h IH].
  - cbn [RootPositions_loop]. change (seqZ 0 (Z.of_nat 1)) with [0].
    rewrite He, filter_cons, filter_nil. change (Z.of_nat 0) with 0.
    destruct (decide (Z.testbit n 0 = true)) as [E|E%not_true_is_false]; by rewrite E.
  - rewrite (Nat2Z.inj_succ (S h)), <- Z.add_1_r, seqZ_app by lia.
    rewrite filter_app, length_app, <- IH. cbn [RootPositions_loop]. rewrite He.
    change (seqZ (0 + Z.of_nat (S h)) 1) with [Z.of_nat (S h)].
    rewrite filter_cons, filter_nil.
    destruct (decide (Z.testbit n (Z.of_nat (S h)) = true)) as [E|E%not_true_is_false];
      rewrite E; cbn [negb length]; lia.
Qed.

Lemma list_eq_nil_elem {A} (l : list A) : (∀ x, x ∉ l) → l = [].
Proof. destruct l as [|x l]; [done|]. intros Hx. by destruct (Hx x); left. Qed.

Lemma RootPositions_length n f : fits n f →
  Z.of_nat (length (RootPositions n f)) = numRoots n.
Proof.
  intros [Hn Hf]. unfold RootPositions, numRoots, OnesCount64.
  rewrite RootPositions_loop_length.
  replace (Z.of_nat (S (Z.to_nat f))) with (f + 1) by lia.
  replace 64 with (f + 1 + (63 - f)) by lia. rewrite (seqZ_app 0 (f + 1) (63 - f)), filter_app by lia.
  assert (filter (λ i, Z.testbit n i = true) (seqZ (0 + (f + 1)) (63 - f)) = []) as ->.
  { apply list_eq_nil_elem. intros i [Hb Hi%elem_of_seqZ]%list_elem_of_filter.
    rewrite Z.bits_above_log2 in Hb; [done|lia|]. destruct (Z.eq_dec n 0) as [->|]; [simpl; lia|].
    apply Z.log2_lt_pow2; [lia|]. pose proof (Z.pow_lt_mono_r 2 f i). lia. }
  rewrite app_nil_r, u8_small; [done|].
  pose proof (length_filter (λ i, Z.testbit n i = true) (seqZ 0 (f + 1))) as Hl.
  rewrite length_seqZ in Hl. lia.
Qed.

(** The tree that holds the node [(r, o)] has its root on row [R]. *)
Definition root_row (n r o R : Z) : Prop := r ≤ R ∧ is_root n R (o / 2 ^ (R - r)) = true.

Lemma root_row_bits n r o R : 0 ≤ r → root_row n r o R →
  Z.testbit n R = true ∧ Z.testbit (o * 2 ^ r) R = false ∧
  ∀ t, R < t → Z.testbit (o * 2 ^ r) t = Z.testbit n t.
Proof.
  intros Hr [HR [Hb Ho%Z.eqb_eq]%andb_true_iff]. repeat split; [done| |].
  - rewrite Z.mul_pow2_bits by lia. rewrite testbit_div by lia. rewrite Ho.
    by rewrite Z.odd_mul.
  - intros t Ht. rewrite Z.mul_pow2_bits by lia.
    replace (t - r) with ((t - R - 1) + (R + 1 - r)) by lia.
    rewrite <- Z.div_pow2_bits by lia.
    replace (R + 1 - r) with (R - r + 1) by lia. rewrite div_pow2_succ, Ho by lia.
    rewrite Z.mul_comm, Z.div_mul, Z.div_pow2_bits by lia. f_equal. lia.
Qed.

Lemma mod_pow2_testbit x t : 0 ≤ t →
  x mod 2 ^ (t + 1) = (if Z.testbit x t then 2 ^ t else 0) + x mod 2 ^ t.
Proof.
  intros. rewrite testbit_div by lia. pose proof (pow2_pos t).
  rewrite pow2_succ, Z.mul_comm, Z.rem_mul_r by lia.
  rewrite Zmod_odd. destruct (Z.odd (x / 2 ^ t)); lia.
Qed.

(** Shifting a position left by its row leaves the index of its first leaf. *)
Lemma npos_shift_mod f r o t p : valid f r o → 0 ≤ t ≤ f →
  p mod 2 ^ (t + 1) = npos f r o mod 2 ^ (t + 1) →
  (p <<< r) &&& maxPosition t = (o * 2 ^ r) mod 2 ^ (t + 1).
Proof.
  intros (? & ? & ?) ? Hp. unfold maxPosition. pose proof (pow2_pos (t + 1)).
  rewrite mask_eq, land_mask, shl_mul, u64_mod_pow2 by lia.
  rewrite Z.mul_mod, Hp, <- Z.mul_mod by lia.
  replace (npos f r o * 2 ^ r) with (o * 2 ^ r + (2 ^ r - 1) * 2 ^ (f - t) * 2 ^ (t + 1)).
  - by rewrite Z.mod_add by lia.
  - unfold npos. rewrite <- Z.mul_assoc, <- Z.pow_add_r by lia.
    replace (f - t + (t + 1)) with (f + 1) by lia. rewrite (pow2_split (f + 1) r) by lia. lia.
Qed.

Lemma detectOffset_loop_npos n r o R k p b fuel :
  let f := treeRows n in
  0 ≤ n ≤ 2 ^ 63 → valid f r o → root_row n r o R → R + Z.of_nat k ≤ f →
  p mod 2 ^ (R + Z.of_nat k + 1) = npos f r o mod 2 ^ (R + Z.of_nat k + 1) →
  0 ≤ b → b + Z.of_nat k < 256 → (k < fuel)%nat →
  ∃ p', p' mod 2 ^ (R + 1) = npos f r o mod 2 ^ (R + 1) ∧
    detectOffset_loop fuel p r (R + Z.of_nat k) n b = Ok (b + Z.of_nat (bigger n R k), R, p').
Proof.
  intros f Hn Hv Hroot. pose proof Hroot as [? _].
  pose proof (fits_treeRows n Hn) as [? ?]. pose proof Hv as (? & ? & ?).
  destruct (root_row_bits n r o R) as (HbR & HoR & Habove); [lia|done|].
  revert p b fuel. induction k as [|k IH]; intros p b fuel Hk Hp Hb Hb' Hfuel;
    (destruct fuel as [|fuel]; [lia|]); cbn [detectOffset_loop].
  - rewrite Z.add_0_r in *. rewrite u8_small by lia. unfold maxLeafCount.
    rewrite (npos_shift_mod f r o) by (done || lia). rewrite Z.land_comm.
    rewrite shl_one, land_pow2, HbR, (mod_pow2_testbit (o * 2 ^ r)), HoR by lia.
    pose proof (Z.mod_pos_bound (o * 2 ^ r) (2 ^ R)). pose proof (pow2_pos R).
    rewrite (proj2 (Z.leb_gt _ _)) by lia. exists p. split; [done|]. simpl. do 3 f_equal. lia.
  - set (t := R + Z.of_nat (S k)) in *. assert (0 ≤ t ≤ f) by lia.
    rewrite u8_small by lia. unfold maxLeafCount.
    rewrite (npos_shift_mod f r o) by (done || lia). rewrite Z.land_comm.
    rewrite shl_one, land_pow2, (mod_pow2_testbit (o * 2 ^ r)), Habove by lia.
    pose proof (Z.mod_pos_bound (o * 2 ^ r) (2 ^ t)). pose proof (pow2_pos t).
    rewrite (proj2 (Z.leb_le _ _)) by lia. rewrite (proj2 (Z.ltb_ge t 0)) by lia.
    replace (t - 1) with (R + Z.of_nat k) by lia. cbn [bigger].
    change (R + Z.of_nat (S k)) with t.
    assert (∀ q, q mod 2 ^ (t + 1) = p mod 2 ^ (t + 1) ∨ q = p ⊟ 2 ^ t →
      q mod 2 ^ (R + Z.of_nat k + 1) = npos f r o mod 2 ^ (R + Z.of_nat k + 1)) as Hq.
    { replace (R + Z.of_nat k + 1) with t by lia. intros q Hq.
      assert (∀ x y, x mod 2 ^ (t + 1) = y mod 2 ^ (t + 1) → x mod 2 ^ t = y mod 2 ^ t) as Hdown.
      { intros x y Hxy. rewrite !mod_pow2_testbit in Hxy by lia.
        pose proof (Z.mod_pos_bound x (2 ^ t)). pose proof (Z.mod_pos_bound y (2 ^ t)).
        destruct (Z.testbit x t), (Z.testbit y t); lia. }
      rewrite <- (Hdown _ _ Hp). destruct Hq as [?%Hdown| ->]; [done|].
      unfold sub64. rewrite u64_mod_pow2 by lia.
      replace (p - 2 ^ t) with (p + (-1) * 2 ^ t) by lia. by rewrite Z.mod_add by lia. }
    destruct (Z.testbit n t); simpl.
    + rewrite (proj2 (Z.eqb_neq (2 ^ t) 0)) by lia. simpl. rewrite u8_small by lia.
      destruct (IH (p ⊟ 2 ^ t) (b + 1) fuel) as (p' & Hp' & ->); [lia|auto|lia..|].
      exists p'. split; [done|]. do 3 f_equal. lia.
    + destruct (IH p b fuel) as (p' & Hp' & ->); [lia|auto|lia..|].
      exists p'. split; [done|]. do 3 f_equal.
Qed.

Lemma detectOffset_npos n r o R :
  let f := treeRows n in
  0 ≤ n ≤ 2 ^ 63 → valid f r o → root_row n r o R → R ≤ f →
  ∃ bits, detectOffset (npos f r o) n
          = Ok (Z.of_nat (bigger n R (Z.to_nat (f - R))), R - r, bits) ∧
    ∀ i, 0 ≤ i < R - r → Z.testbit bits i = if i =? 0 then Z.testbit o 0 else negb (Z.testbit o i).
Proof.
  intros f Hn Hv Hroot HRf. pose proof (fits_treeRows n Hn) as [? ?].
  pose proof Hv as (? & ? & ?). pose proof Hroot as [? _]. unfold detectOffset.
  rewrite u8_small by lia. rewrite detectRow_npos by done.
  destruct (detectOffset_loop_npos n r o R (Z.to_nat (f - R)) (npos f r o) 0
    (Z.to_nat f + 2)) as (p' & Hp' & Hloop); try (done || lia).
  replace (R + Z.of_nat (Z.to_nat (f - R))) with f in Hloop by lia. fold f.
  rewrite Hloop. simpl. rewrite (u8_small R), u8_small by lia.
  eexists. split; [done|]. intros i Hi. unfold not64. rewrite maxU64_ones.
  rewrite !Z.lxor_spec, Z.ones_spec_low, xorb_true_r by lia.
  assert (Z.testbit p' i = Z.testbit o i) as ->.
  { rewrite <- (Z.mod_pow2_bits_low p' (R + 1)), Hp', Z.mod_pow2_bits_low by lia.
    rewrite <- (Z.mod_pow2_bits_low _ (f - r)), npos_mod, Z.mod_pow2_bits_low by (done || lia).
    done. }
  destruct (Z.eqb_spec i 0) as [->|].
  - rewrite (Z.bit0_odd 1). simpl. rewrite xorb_true_r, negb_involutive. done.
  - rewrite (Z.bits_above_log2 1 i) by (simpl; lia). by rewrite xorb_false_r.
Qed.

Lemma childMany_npos f r o k : valid f (r + k) o → 0 ≤ r → 0 ≤ k →
  childMany (npos f (r + k) o) k f = Ok (npos f r (o * 2 ^ k)).
Proof.
  intros Hv Hr Hk. pose proof Hv as (? & ? & ?). unfold childMany.
  destruct (Z.eqb_spec k 0) as [->|].
  { do 2 f_equal; lia. }
  rewrite (proj2 (Z.ltb_ge _ _)) by lia. f_equal.
  rewrite mask_eq, land_mask, shl_mul, u64_mod_pow2 by lia. unfold npos.
  pose proof (pow2_pos k). pose proof (pow2_pos (f + 1)).
  assert (2 ^ (f + 1 - r) = 2 ^ (f + 1 - (r + k)) * 2 ^ k) as Hs.
  { rewrite <- Z.pow_add_r by lia. f_equal. lia. }
  replace ((2 ^ (f + 1) - 2 ^ (f + 1 - (r + k)) + o) * 2 ^ k)
    with (2 ^ (f + 1) - 2 ^ (f + 1 - r) + o * 2 ^ k + (2 ^ k - 1) * 2 ^ (f + 1)) by lia.
  rewrite Z.mod_add by lia. apply Z.mod_small.
  assert (2 ^ (f - r) = 2 ^ (f - (r + k)) * 2 ^ k).
  { rewrite <- Z.pow_add_r by lia. f_equal. lia. }
  pose proof (npos_range f r (o * 2 ^ k)) as Hrange. unfold npos, valid in Hrange.
  assert (o * 2 ^ k < 2 ^ (f - r)) by nia. lia.
Qed.

(** Every node of the forest belongs to a tree. *)
Lemma root_row_exists n r o : 0 ≤ n → in_forest n r o → ∃ R, root_row n r o R.
Proof.
  intros Hn Hin. pose proof Hin as (? & ? & ?).
  assert (∃ k, Z.of_nat k = n / 2 ^ r) as [k Hk].
  { exists (Z.to_nat (n / 2 ^ r)). apply Z2Nat.id, Z.div_pos; auto with pos. }
  revert r o Hin Hk H H0 H1. induction k as [k IH] using lt_wf_ind. intros r o Hin Hk ? ? ?.
  destruct (is_root n r o) eqn:Hroot.
  { exists r. split; [lia|]. by rewrite Z.sub_diag, Z.div_1_r. }
  destruct (non_root_family n r o Hin Hroot) as [_ Hp]. pose proof Hp as (? & ? & ?).
  apply in_forest_div in Hin as [_ ?].
  pose proof (Z.div_lt (n / 2 ^ r) 2). pose proof (Z.div_pos (n / 2 ^ r) 2).
  destruct (IH (Z.to_nat (n / 2 ^ (r + 1)))) with (r := r + 1) (o := o / 2) as [R [? HR]];
    rewrite ?div_pow2_succ in * by lia; try (done || lia).
  exists R. split; [lia|]. rewrite <- (Z.pow_1_r 2), div_div_pow2 in HR by lia.
  by replace (1 + (R - (r + 1))) with (R - r) in HR by lia.
Qed.

(** The nodes below a node of the forest are in the forest. *)
Lemma in_forest_desc n r o k : 0 ≤ r → 0 ≤ o → 0 ≤ k →
  in_forest n (r + k) (o / 2 ^ k) → in_forest n r o.
Proof.
  intros ? ? ? (_ & _ & Hle). repeat split; try lia.
  rewrite Z.pow_add_r in Hle by lia. pose proof (pow2_pos k). pose proof (pow2_pos r).
  pose proof (Z.mul_succ_div_gt o (2 ^ k)). nia.
Qed.
