(* ===== verification/HashPos.v ===== *)
(** * Hashes and [hashAndPos] (polnode.go, prove.go)

    A [hashAndPos] is a pair of parallel slices, kept parallel by its callers;
    every index the source takes is checked here and panics when it is out of
    range.  The second half relates the operations, on parallel slices, to
    operations on lists of (position, hash) pairs. *)

From S2P Require Import Prelude Utils.

(** ** Hashes *)

(** A Go [Hash] is a [32]byte array; it is modelled by the 256-bit number whose
    big-endian bytes are the array.  Array equality is equality of the numbers. *)
Definition Hash : Type := Z.
Definition empty : Hash := 0.

#[global] Instance hash_eq_dec : EqDecision Hash := Z.eq_dec.
#[global] Instance hash_countable : Countable Hash := Z_countable.
#[global] Instance hash_inhabited : Inhabited Hash := populate empty.

(** The first 12 of the 32 bytes. *)
Definition mini (h : Hash) : Z := Z.shiftr h 160.

(** [parentHash] is SHA-512/256 of the two hashes; the accumulator is verified for
    any function in its place, and [Sha512_256] gives the one the code uses. *)
Class HashFn := parentHash : Hash → Hash → Hash.

(** What the code relies on: no parent hash is the all-zero "empty" hash. *)
Class HashLaws `{HashFn} : Prop := parentHash_nonempty : ∀ l r, parentHash l r ≠ empty.

Record Leaf : Type := mkLeaf { leafHash : Hash; Remember : bool }.

#[global] Instance leaf_eq_dec : EqDecision Leaf.
Proof. solve_decision. Defined.

(** ** The type and its methods *)

Record hashAndPos : Type := mkHnp { positions : list Z; hashes : list Hash }.

#[global] Instance hnp_eq_dec : EqDecision hashAndPos.
Proof. solve_decision. Defined.

Definition hnp_nil : hashAndPos := mkHnp [] [].

Definition Len (hnp : hashAndPos) : nat := length (positions hnp).

Definition Append (hnp : hashAndPos) (position : Z) (hash : Hash) : hashAndPos :=
  mkHnp (positions hnp ++ [position]) (hashes hnp ++ [hash]).

Definition AppendMany (hnp : hashAndPos) (ps : list Z) (hs : list Hash) : hashAndPos :=
  mkHnp (positions hnp ++ ps) (hashes hnp ++ hs).

(** [s[i:]] panics when [i] is past the end. *)
Definition sliceFrom {A} (l : list A) (i : nat) : res (list A) :=
  if (i <=? length l)%nat then Ok (drop i l) else Panic.

(** [append(s[:i], s[i+1:]...)]. *)
Definition removeAt {A} (l : list A) (i : nat) : res (list A) :=
  let* rest := sliceFrom l (i + 1) in Ok (take i l ++ rest).

Definition Delete (hnp : hashAndPos) (i : nat) : res hashAndPos :=
  let* ps := removeAt (positions hnp) i in
  let* hs := removeAt (hashes hnp) i in
  Ok (mkHnp ps hs).

(** Insertion of a pair behind the pairs with a position that is not greater. *)
Fixpoint insert_pair (x : Z * Hash) (l : list (Z * Hash)) : list (Z * Hash) :=
  match l with
  | [] => [x]
  | y :: l' => if x.1 <? y.1 then x :: y :: l' else y :: insert_pair x l'
  end.

Definition sort_pairs (l : list (Z * Hash)) : list (Z * Hash) :=
  foldl (λ acc x, insert_pair x acc) [] l.

Fixpoint sortedb (l : list Z) : bool :=
  match l with
  | a :: (b :: _) as t => (a <=? b) && sortedb t
  | _ => true
  end.

(** [sort.Sort(hnp)] sorts by position and swaps both slices along.  Up to twelve elements
    it is the insertion sort written here; above, Go partitions, which gives the same
    slices whenever the positions are distinct.  A position without a hash must not move,
    or [Swap] indexes past [hashes]; a surplus of hashes stays behind the sorted ones. *)
Definition sort_hnp (hnp : hashAndPos) : res hashAndPos :=
  let sorted := sort_pairs (zip (positions hnp) (hashes hnp)) in
  let ps := map fst sorted ++ drop (length (hashes hnp)) (positions hnp) in
  if sortedb ps then
    Ok (mkHnp ps (map snd sorted ++ drop (length (positions hnp)) (hashes hnp)))
  else Panic.

Definition toHashAndPos (origTargets : list Z) (origHashes : list Hash) : res hashAndPos :=
  sort_hnp (mkHnp origTargets origHashes).

(** ** Merging *)

(** [make([]Hash, n)] filled by [copy]. *)
Definition copyHashes (n : nat) (l : list Hash) : list Hash :=
  take n (l ++ replicate n empty).

(** The loop of [mergeSortedHashAndPos]: [room] is [c.Len() - j]. *)
Fixpoint merge_loop (room idxa idxb : nat) (a b c : hashAndPos) : res hashAndPos :=
  match room with
  | O => Ok c
  | S room' =>
      if (Len a <=? idxa)%nat then
        let* ps := sliceFrom (positions b) idxb in
        let* hs := sliceFrom (hashes b) idxb in
        let hs := take room hs in
        Ok (AppendMany c (take (length hs) (ps ++ replicate room 0)) hs)
      else if (Len b <=? idxb)%nat then
        let* ps := sliceFrom (positions a) idxa in
        let* hs := sliceFrom (hashes a) idxa in
        let hs := take room hs in
        Ok (AppendMany c (take (length hs) (ps ++ replicate room 0)) hs)
      else
        let* vala := index (positions a) idxa in
        let* valb := index (positions b) idxb in
        if vala <? valb then
          let* h := index (hashes a) idxa in
          merge_loop room' (S idxa) idxb a b (Append c vala h)
        else if valb <? vala then
          let* h := index (hashes b) idxb in
          merge_loop room' idxa (S idxb) a b (Append c valb h)
        else
          let* h := index (hashes a) idxa in
          merge_loop room' (S idxa) (S idxb) a b (Append c vala h)
  end.

Definition mergeSortedHashAndPos (a b : hashAndPos) : res hashAndPos :=
  let maxa := Len a in
  let maxb := Len b in
  if (maxa =? 0)%nat then Ok (mkHnp (positions b) (copyHashes maxb (hashes b)))
  else if (maxb =? 0)%nat then Ok (mkHnp (positions a) (copyHashes maxa (hashes a)))
  else merge_loop (maxa + maxb) 0 0 a b hnp_nil.

(** ** Subtracting and intersecting *)

(** Each round advances [i] or [bIdx] or shortens [a], so [len a + len b] rounds
    and one more suffice. *)
Fixpoint subtract_hnp_loop (fuel i bIdx : nat) (a : hashAndPos) (b : list Z) : res hashAndPos :=
  match fuel with
  | O => Spin
  | S fuel =>
      if (i <? Len a)%nat then
        if (length b <=? bIdx)%nat then Ok a
        else
          let* ai := index (positions a) i in
          let* bi := index b bIdx in
          let r := uint64Cmp ai bi in
          if r =? 0 then
            let* a := Delete a i in
            subtract_hnp_loop fuel i (S bIdx) a b
          else if r =? -1 then subtract_hnp_loop fuel (S i) bIdx a b
          else subtract_hnp_loop fuel i (S bIdx) a b
      else Ok a
  end.

Definition subtractSortedHashAndPos (a : hashAndPos) (b : list Z) : res hashAndPos :=
  subtract_hnp_loop (Len a + length b + 1) 0 0 a b.

Fixpoint subtract_loop (fuel i bIdx : nat) (a b : list Z) : res (list Z) :=
  match fuel with
  | O => Spin
  | S fuel =>
      if (i <? length a)%nat then
        if (length b <=? bIdx)%nat then Ok a
        else
          let* ai := index a i in
          let* bi := index b bIdx in
          let r := uint64Cmp ai bi in
          if r =? 0 then
            let* a := removeAt a i in
            subtract_loop fuel i (S bIdx) a b
          else if r =? -1 then subtract_loop fuel (S i) bIdx a b
          else subtract_loop fuel i (S bIdx) a b
      else Ok a
  end.

(** [subtractSortedSlice(a, b, uint64Cmp)]. *)
Definition subtractSortedSlice (a b : list Z) : res (list Z) :=
  subtract_loop (length a + length b + 1) 0 0 a b.

Fixpoint subset_loop (fuel i bIdx : nat) (a : hashAndPos) (b : list Z) (c : hashAndPos)
    : res hashAndPos :=
  match fuel with
  | O => Spin
  | S fuel =>
      if (i <? Len a)%nat then
        if (length b <=? bIdx)%nat then Ok c
        else
          let* ai := index (positions a) i in
          let* bi := index b bIdx in
          if ai =? bi then
            let* h := index (hashes a) i in
            subset_loop fuel (S i) (S bIdx) a b (Append c ai h)
          else if bi <? ai then subset_loop fuel i (S bIdx) a b c
          else subset_loop fuel (S i) bIdx a b c
      else Ok c
  end.

Definition getHashAndPosSubset (a : hashAndPos) (b : list Z) : res hashAndPos :=
  subset_loop (Len a + length b + 1) 0 0 a b hnp_nil.

Fixpoint hash_subset_loop (ps : list Z) (hs : list Hash) (keys : list Hash) (c : hashAndPos)
    : res hashAndPos :=
  match ps with
  | [] => Ok c
  | p :: ps =>
      match hs with
      | [] => Panic
      | h :: hs =>
          hash_subset_loop ps hs keys (if decide (h ∈ keys) then Append c p h else c)
      end
  end.

Definition getHashAndPosHashSubset (a : hashAndPos) (b : list Hash) : res hashAndPos :=
  hash_subset_loop (positions a) (hashes a) b hnp_nil.

(** ** Merging sorted slices of positions *)

Fixpoint merge_slices_loop (room idxa idxb : nat) (a b c : list Z) : res (list Z) :=
  match room with
  | O => Ok c
  | S room' =>
      if (length a <=? idxa)%nat then
        let* rest := sliceFrom b idxb in Ok (c ++ take room rest)
      else if (length b <=? idxb)%nat then
        let* rest := sliceFrom a idxa in Ok (c ++ take room rest)
      else
        let* vala := index a idxa in
        let* valb := index b idxb in
        if uint64Cmp vala valb =? -1 then
          merge_slices_loop room' (S idxa) idxb a b (c ++ [vala])
        else if uint64Cmp vala valb =? 1 then
          merge_slices_loop room' idxa (S idxb) a b (c ++ [valb])
        else merge_slices_loop room' (S idxa) (S idxb) a b (c ++ [vala])
  end.

(** [mergeSortedSlicesFunc(a, b, uint64Cmp)]. *)
Definition mergeSortedSlicesFunc (a b : list Z) : res (list Z) :=
  if (length a =? 0)%nat then Ok b
  else if (length b =? 0)%nat then Ok a
  else merge_slices_loop (length a + length b) 0 0 a b [].

(** ** De-twinning with hashes *)

Section DeTwin.
Context `{HashFn}.

Fixpoint deTwinHashAndPos_loop (fuel i : nat) (hnp : hashAndPos) (forestRows : Z)
    : res hashAndPos :=
  match fuel with
  | O => Spin
  | S fuel =>
      match positions hnp !! i with
      | None => Ok hnp
      | Some nodePos =>
          match positions hnp !! S i with
          | Some next =>
              if rightSib nodePos =? next then
                let* nodeHash := index (hashes hnp) i in
                let* sibHash := index (hashes hnp) (S i) in
                let* hnp := Delete hnp i in
                let* hnp := Delete hnp i in
                let* hnp := mergeSortedHashAndPos hnp
                  (mkHnp [parent nodePos forestRows] [parentHash nodeHash sibHash]) in
                deTwinHashAndPos_loop fuel i hnp forestRows
              else deTwinHashAndPos_loop fuel (S i) hnp forestRows
          | None => deTwinHashAndPos_loop fuel (S i) hnp forestRows
          end
      end
  end.

Definition deTwinHashAndPos (hnp : hashAndPos) (forestRows : Z) : res hashAndPos :=
  deTwinHashAndPos_loop (2 * Len hnp + 2) 0 hnp forestRows.
End DeTwin.
