(* ===== verification/Sha512_256.v ===== *)
(** * parentHash (utils.go)

    SHA-512/256 of the concatenation of two hashes, written after FIPS 180-4.  The
    source calls crypto/sha512; the rest of the development takes any hash function
    through the class [HashFn], of which this is the instance that the code uses. *)

From S2P Require Import Prelude Utils HashPos.

(** 64-bit words in [Z]. *)
Definition rotr (x n : Z) : Z := (x >>> n) ||| (x <<< (64 - n)).

Definition bsig0 (x : Z) : Z := rotr x 28 ^^^ rotr x 34 ^^^ rotr x 39.
Definition bsig1 (x : Z) : Z := rotr x 14 ^^^ rotr x 18 ^^^ rotr x 41.
Definition ssig0 (x : Z) : Z := rotr x 1 ^^^ rotr x 8 ^^^ (x >>> 7).
Definition ssig1 (x : Z) : Z := rotr x 19 ^^^ rotr x 61 ^^^ (x >>> 6).
Definition sha_ch (x y z : Z) : Z := (x &&& y) ^^^ (not64 x &&& z).
Definition sha_maj (x y z : Z) : Z := (x &&& y) ^^^ (x &&& z) ^^^ (y &&& z).

Definition sha_K : list Z := [
    0x428a2f98d728ae22; 0x7137449123ef65cd; 0xb5c0fbcfec4d3b2f; 0xe9b5dba58189dbbc;
    0x3956c25bf348b538; 0x59f111f1b605d019; 0x923f82a4af194f9b; 0xab1c5ed5da6d8118;
    0xd807aa98a3030242; 0x12835b0145706fbe; 0x243185be4ee4b28c; 0x550c7dc3d5ffb4e2;
    0x72be5d74f27b896f; 0x80deb1fe3b1696b1; 0x9bdc06a725c71235; 0xc19bf174cf692694;
    0xe49b69c19ef14ad2; 0xefbe4786384f25e3; 0x0fc19dc68b8cd5b5; 0x240ca1cc77ac9c65;
    0x2de92c6f592b0275; 0x4a7484aa6ea6e483; 0x5cb0a9dcbd41fbd4; 0x76f988da831153b5;
    0x983e5152ee66dfab; 0xa831c66d2db43210; 0xb00327c898fb213f; 0xbf597fc7beef0ee4;
    0xc6e00bf33da88fc2; 0xd5a79147930aa725; 0x06ca6351e003826f; 0x142929670a0e6e70;
    0x27b70a8546d22ffc; 0x2e1b21385c26c926; 0x4d2c6dfc5ac42aed; 0x53380d139d95b3df;
    0x650a73548baf63de; 0x766a0abb3c77b2a8; 0x81c2c92e47edaee6; 0x92722c851482353b;
    0xa2bfe8a14cf10364; 0xa81a664bbc423001; 0xc24b8b70d0f89791; 0xc76c51a30654be30;
    0xd192e819d6ef5218; 0xd69906245565a910; 0xf40e35855771202a; 0x106aa07032bbd1b8;
    0x19a4c116b8d2d0c8; 0x1e376c085141ab53; 0x2748774cdf8eeb99; 0x34b0bcb5e19b48a8;
    0x391c0cb3c5c95a63; 0x4ed8aa4ae3418acb; 0x5b9cca4f7763e373; 0x682e6ff3d6b2b8a3;
    0x748f82ee5defb2fc; 0x78a5636f43172f60; 0x84c87814a1f0ab72; 0x8cc702081a6439ec;
    0x90befffa23631e28; 0xa4506cebde82bde9; 0xbef9a3f7b2c67915; 0xc67178f2e372532b;
    0xca273eceea26619c; 0xd186b8c721c0c207; 0xeada7dd6cde0eb1e; 0xf57d4f7fee6ed178;
    0x06f067aa72176fba; 0x0a637dc5a2c898a6; 0x113f9804bef90dae; 0x1b710b35131c471b;
    0x28db77f523047d84; 0x32caab7b40c72493; 0x3c9ebe0a15c9bebc; 0x431d67c49c100d4c;
    0x4cc5d4becb3e42b6; 0x597f299cfc657e2a; 0x5fcb6fab3ad6faec; 0x6c44198c4a475817].

Definition sha_iv : list Z := [
    0x22312194fc2bf72c; 0x9f555fa3c84c64c2; 0x2393b86b6f53b151; 0x963877195940eabd;
    0x96283ee2a88effe3; 0xbe5e1e2553863992; 0x2b0199fc2c85b8aa; 0x0eb72ddc81c52ca2].

(** The message schedule, kept as the last 16 words: [w] is in reverse order. *)
Definition next_word (w : list Z) : Z :=
  match w with
  | [_; w2; _; _; _; _; w7; _; _; _; _; _; _; _; w15; w16] =>
      ssig1 w2 ⊞ w7 ⊞ ssig0 w15 ⊞ w16
  | _ => 0
  end.

Definition sha_round (v : list Z) (k w : Z) : list Z :=
  match v with
  | [a; b; c; d; e; f; g; h] =>
      let t1 := h ⊞ bsig1 e ⊞ sha_ch e f g ⊞ k ⊞ w in
      let t2 := bsig0 a ⊞ sha_maj a b c in
      [t1 ⊞ t2; a; b; c; d ⊞ t1; e; f; g]
  | _ => v
  end.

(** One round per constant; the words of the block come first, then the schedule. *)
Fixpoint sha_rounds (ks block recent v : list Z) : list Z :=
  match ks with
  | [] => v
  | k :: ks =>
      let '(w, block) :=
        match block with w :: block => (w, block) | [] => (next_word recent, []) end in
      sha_rounds ks block (w :: take 15 recent) (sha_round v k w)
  end.

Definition sha_block (v block : list Z) : list Z :=
  zip_with add64 v (sha_rounds sha_K block [] v).

(** The four 64-bit words of a hash, from the first byte on. *)
Definition hash_words (h : Hash) : list Z :=
  map (λ i, Z.land (Z.shiftr h i) maxU64) [192; 128; 64; 0].

Definition words_hash (ws : list Z) : Hash := fold_left (λ acc w, acc * 2 ^ 64 + w) ws 0.

(** The 64 bytes of two hashes fill half of one block; the padding is a set bit, zeroes
    and the length, 512 bits. *)
Definition sha_parentHash (l r : Hash) : Hash :=
  words_hash (take 4 (sha_block sha_iv
    (hash_words l ++ hash_words r ++ [2 ^ 63; 0; 0; 0; 0; 0; 0; 512]))).

(** The hash function of the program. *)
Definition program_hash : HashFn := sha_parentHash.

(** The standard's test vector: one block with the message "abc". *)
Example sha_abc :
  words_hash (take 4 (sha_block sha_iv ([0x6162638000000000] ++ replicate 14 0 ++ [24])))
  = 0x53048e2681941ef99b2e29b76b4c7dabe4c2d0c634fc6d46e0e2f13107e7af23.
Proof. by vm_compute. Qed.

(** Thirty-two bytes of 1 and thirty-two bytes of 2. *)
Example sha_parent_ex :
  sha_parentHash 0x0101010101010101010101010101010101010101010101010101010101010101
                 0x0202020202020202020202020202020202020202020202020202020202020202
  = 27778016137625043776423120838550570799958827364063754590987079015556005720499.
Proof. by vm_compute. Qed.

(** A hash is 256 bits. *)
Lemma words_hash_range ws acc : Forall (λ w, 0 ≤ w < 2 ^ 64) ws → 0 ≤ acc →
  0 ≤ fold_left (λ acc w, acc * 2 ^ 64 + w) ws acc < (acc + 1) * 2 ^ (64 * Z.of_nat (length ws)).
Proof.
  intros Hws. revert acc. induction Hws as [|w ws Hw _ IH]; intros acc Ha; cbn [fold_left length].
  { replace (64 * Z.of_nat 0) with 0 by lia. lia. }
  specialize (IH (acc * 2 ^ 64 + w)). destruct IH as [H0 H1]; [lia|]. split; [done|].
  rewrite Nat2Z.inj_succ. replace (64 * Z.succ (Z.of_nat (length ws))) with (64 + 64 * Z.of_nat (length ws)) by lia.
  rewrite Z.pow_add_r by lia. pose proof (pow2_pos (64 * Z.of_nat (length ws))). nia.
Qed.

(** Whatever the two hashes, the result is a hash: 256 bits. *)
Theorem sha_parentHash_range l r : 0 ≤ sha_parentHash l r < 2 ^ 256.
Proof.
  unfold sha_parentHash, words_hash. set (ws := take 4 _).
  assert (Forall (λ w, 0 ≤ w < 2 ^ 64) ws) as Hws.
  { apply Forall_take. unfold sha_block. generalize (sha_rounds sha_K).
    intros g. generalize (g (hash_words l ++ hash_words r ++ [2 ^ 63; 0; 0; 0; 0; 0; 0; 512]) [] sha_iv).
    generalize sha_iv. induction l0 as [|x xs IH]; intros [|y ys]; constructor; [apply u64_range|apply IH]. }
  assert (length ws ≤ 4)%nat as Hlen by (unfold ws; rewrite length_take; lia).
  destruct (words_hash_range ws 0 Hws) as [Hlo Hhi]; [lia|]. split; [done|].
  pose proof (pow2_le (64 * Z.of_nat (length ws)) 256). lia.
Qed.
