(* ===== verification/HashPosTheory.v ===== *)
(** * Theory of [hashAndPos]

    On parallel slices of the same length every operation of [HashPos] returns
    without a panic, and is an operation on lists of (position, hash) pairs. *)

From S2P Require Import Prelude Utils HashPos.

Definition of_pairs (l : list (Z * Hash)) : hashAndPos := mkHnp (map fst l) (map snd l).
Definition pairs (h : hashAndPos) : list (Z * Hash) := zip (positions h) (hashes h).

Lemma pairs_of_pairs l : pairs (of_pairs l) = l.
Proof. unfold pairs. induction l as [|[p h] l IH]; simpl; [done|]. by f_equal. Qed.

Lemma of_pairs_pairs h : length (hashes h) = length (positions h) → of_pairs (pairs h) = h.
Proof.
  destruct h as [ps hs]. unfold pairs, of_pairs. simpl. intros Hlen. f_equal.
  - apply (fst_zip ps hs). lia.
  - apply (snd_zip ps hs). lia.
Qed.

Lemma of_pairs_zip ps hs : length hs = length ps → of_pairs (zip ps hs) = mkHnp ps hs.
Proof. intros. by apply (of_pairs_pairs (mkHnp ps hs)). Qed.

Lemma index_map {A B} (g : A → B) (l : list A) i x :
  l !! i = Some x → index (map g l) i = Ok (g x).
Proof. intros Hl. unfold index. change (map g l) with (g <$> l). by rewrite list_lookup_fmap, Hl. Qed.

Lemma drop_map {A B} (g : A → B) (l : list A) i : drop i (map g l) = map g (drop i l).
Proof. symmetry. apply fmap_drop. Qed.

Lemma sliceFrom_map {A B} (g : A → B) (l : list A) i : (i ≤ length l)%nat →
  sliceFrom (map g l) i = Ok (map g (drop i l)).
Proof.
  intros. unfold sliceFrom. rewrite length_map, drop_map.
  by rewrite (proj2 (Nat.leb_le _ _)) by lia.
Qed.

Lemma AppendMany_pairs c l : AppendMany (of_pairs c) (map fst l) (map snd l) = of_pairs (c ++ l).
Proof. unfold AppendMany, of_pairs. simpl. by rewrite !map_app. Qed.

Lemma Append_pairs c x : Append (of_pairs c) x.1 x.2 = of_pairs (c ++ [x]).
Proof. unfold Append, of_pairs. simpl. by rewrite !map_app. Qed.

Lemma Len_pairs l : Len (of_pairs l) = length l.
Proof. apply length_map. Qed.

(** ** Sorting *)

Definition lt_fst (x y : Z * Hash) : Prop := x.1 < y.1.
Definition le_fst (x y : Z * Hash) : Prop := x.1 ≤ y.1.

Lemma insert_pair_perm x l : insert_pair x l ≡ₚ x :: l.
Proof.
  induction l as [|y l IH]; simpl; [done|]. destruct (x.1 <? y.1); [done|].
  rewrite IH. apply Permutation_swap.
Qed.

Lemma insert_pair_sorted x l :
  StronglySorted le_fst l → StronglySorted le_fst (insert_pair x l).
Proof.
  induction 1 as [|y l Hs IH Hall]; simpl; [repeat constructor|].
  destruct (Z.ltb_spec (x.1) (y.1)).
  - constructor; [by constructor|]. constructor; [unfold le_fst; lia|].
    eapply Forall_impl; [exact Hall|]. unfold le_fst. simpl. lia.
  - constructor; [done|]. rewrite insert_pair_perm. constructor; [unfold le_fst; lia|done].
Qed.

Lemma foldl_insert acc l :
  StronglySorted le_fst acc →
  let r := foldl (λ acc x, insert_pair x acc) acc l in
  StronglySorted le_fst r ∧ r ≡ₚ acc ++ l.
Proof.
  revert acc. induction l as [|x l IH]; intros acc Hs; simpl; [by rewrite app_nil_r|].
  destruct (IH _ (insert_pair_sorted x acc Hs)) as [? Hp]. split; [done|].
  rewrite Hp, insert_pair_perm. by rewrite <- Permutation_middle.
Qed.

Lemma sort_pairs_perm l : sort_pairs l ≡ₚ l.
Proof. apply (foldl_insert [] l). constructor. Qed.

Lemma sort_pairs_sorted l : StronglySorted le_fst (sort_pairs l).
Proof. apply (foldl_insert [] l). constructor. Qed.

Lemma map_fst_sorted l : StronglySorted le_fst l → StronglySorted Z.le (map fst l).
Proof.
  induction 1 as [|x l ? IH Hall]; simpl; constructor; [done|].
  apply Forall_forall. intros y (z & -> & Hz)%list_elem_of_fmap. rewrite Forall_forall in Hall.
  by apply Hall.
Qed.

Lemma sortedb_true l : StronglySorted Z.le l → sortedb l = true.
Proof.
  induction 1 as [|x l Hs IH Hall]; [done|]. destruct l as [|y l]; [done|].
  change (sortedb (x :: y :: l)) with ((x <=? y) && sortedb (y :: l)). rewrite IH.
  apply Forall_cons in Hall as [? _]. by rewrite (proj2 (Z.leb_le _ _)).
Qed.

Lemma sort_hnp_pairs l : sort_hnp (of_pairs l) = Ok (of_pairs (sort_pairs l)).
Proof.
  unfold sort_hnp. change (zip _ _) with (pairs (of_pairs l)). rewrite pairs_of_pairs.
  cbn [of_pairs positions hashes].
  rewrite (drop_ge (map fst l)), (drop_ge (map snd l)) by (rewrite !length_map; lia).
  rewrite !app_nil_r, sortedb_true; [done|]. apply map_fst_sorted, sort_pairs_sorted.
Qed.

Lemma toHashAndPos_pairs ps hs : length hs = length ps →
  toHashAndPos ps hs = Ok (of_pairs (sort_pairs (zip ps hs))).
Proof. intros. unfold toHashAndPos. rewrite <- of_pairs_zip by done. apply sort_hnp_pairs. Qed.

(** ** Merging *)

(** The merge of two sorted lists of pairs; the left pair wins on equal positions. *)
Fixpoint merge_pairs (l1 : list (Z * Hash)) : list (Z * Hash) → list (Z * Hash) :=
  fix go (l2 : list (Z * Hash)) :=
    match l1, l2 with
    | [], _ => l2
    | _, [] => l1
    | x :: l1', y :: l2' =>
        if x.1 <? y.1 then x :: merge_pairs l1' l2
        else if y.1 <? x.1 then y :: go l2'
        else x :: merge_pairs l1' l2'
    end.

Lemma merge_pairs_nil_l l : merge_pairs [] l = l.
Proof. by destruct l. Qed.

Lemma merge_pairs_nil_r l : merge_pairs l [] = l.
Proof. by destruct l. Qed.

Lemma merge_pairs_cons x l1 y l2 : merge_pairs (x :: l1) (y :: l2) =
  if x.1 <? y.1 then x :: merge_pairs l1 (y :: l2)
  else if y.1 <? x.1 then y :: merge_pairs (x :: l1) l2
  else x :: merge_pairs l1 l2.
Proof. done. Qed.

Lemma take_of_length {A} (l : list A) n : (length l ≤ n)%nat → take n l = l.
Proof. intros. by apply take_ge. Qed.

Lemma merge_loop_pairs room la lb ia ib c :
  (ia ≤ length la)%nat → (ib ≤ length lb)%nat →
  ((length la - ia) + (length lb - ib) ≤ room)%nat →
  merge_loop room ia ib (of_pairs la) (of_pairs lb) (of_pairs c)
  = Ok (of_pairs (c ++ merge_pairs (drop ia la) (drop ib lb))).
Proof.
  revert ia ib c. induction room as [|room IH]; intros ia ib c Hia Hib Hroom.
  { rewrite (drop_ge la), (drop_ge lb) by lia. simpl. by rewrite app_nil_r. }
  cbn [merge_loop]. rewrite !Len_pairs. cbn [of_pairs positions hashes].
  destruct (Nat.leb_spec (length la) ia).
  { rewrite !sliceFrom_map by done. cbn [bind]. rewrite (drop_ge la), merge_pairs_nil_l by lia.
    rewrite (take_of_length (map snd (drop ib lb))) by (rewrite length_map, length_drop; lia).
    rewrite take_app_length' by (rewrite !length_map; lia). f_equal. apply AppendMany_pairs. }
  destruct (Nat.leb_spec (length lb) ib).
  { rewrite !sliceFrom_map by done. cbn [bind]. rewrite (drop_ge lb) by lia.
    rewrite merge_pairs_nil_r.
    rewrite (take_of_length (map snd (drop ia la))) by (rewrite length_map, length_drop; lia).
    rewrite take_app_length' by (rewrite !length_map; lia). f_equal. apply AppendMany_pairs. }
  destruct (lookup_lt_is_Some_2 la ia) as [x Hx]; [done|].
  destruct (lookup_lt_is_Some_2 lb ib) as [y Hy]; [done|].
  rewrite (index_map fst la ia x), (index_map fst lb ib y), (index_map snd la ia x),
    (index_map snd lb ib y) by done. cbn [bind].
  rewrite (drop_S _ _ _ Hx), (drop_S _ _ _ Hy), merge_pairs_cons.
  change (mkHnp (map fst ?l) (map snd ?l)) with (of_pairs l).
  destruct (x.1 <? y.1); [|destruct (y.1 <? x.1)];
    rewrite Append_pairs, IH by lia; rewrite <- ?(drop_S _ _ _ Hx), <- ?(drop_S _ _ _ Hy),
      <- app_assoc; done.
Qed.

Lemma mergeSorted_pairs la lb :
  mergeSortedHashAndPos (of_pairs la) (of_pairs lb) = Ok (of_pairs (merge_pairs la lb)).
Proof.
  unfold mergeSortedHashAndPos, copyHashes. rewrite !Len_pairs. cbn [of_pairs positions hashes].
  destruct (Nat.eqb_spec (length la) 0).
  { destruct la; [|done]. rewrite take_app_length' by (rewrite length_map; done). by destruct lb. }
  destruct (Nat.eqb_spec (length lb) 0).
  { destruct lb; [|done]. rewrite take_app_length' by (rewrite length_map; done).
    by rewrite merge_pairs_nil_r. }
  change hnp_nil with (of_pairs []). change (mkHnp (map fst ?l) (map snd ?l)) with (of_pairs l).
  rewrite merge_loop_pairs by lia. by rewrite !drop_0.
Qed.
