(* ===== verification/SortedTheory.v ===== *)
(** * Theory of the operations on sorted slices

    Subtraction, intersection and merging of strictly sorted slices are set
    difference, intersection and union; insertion by binary search keeps a slice
    sorted. *)

From S2P Require Import Prelude Utils HashPos HashPosTheory.

(** ** Filtering against the rest of a sorted slice *)

Section Keyed.
Context {A : Type} (key : A → Z).

(** Strictly increasing keys. *)
Definition incr_keys (l : list A) : Prop := StronglySorted (λ x y, key x < key y) l.

Lemma incr_keys_map l : incr_keys l ↔ StronglySorted Z.lt (map key l).
Proof.
  unfold incr_keys. induction l as [|x l IH]; simpl; [split; constructor|].
  split; intros [Hs Hall]%StronglySorted_inv; (constructor; [by apply IH|]).
  - apply Forall_forall. intros y (z & -> & Hz)%list_elem_of_fmap. rewrite Forall_forall in Hall. auto.
  - apply Forall_forall. intros y Hy. rewrite Forall_forall in Hall. apply Hall.
    apply list_elem_of_fmap. eauto.
Qed.

Lemma incr_keys_head x l y : incr_keys (x :: l) → y ∈ l → key x < key y.
Proof. intros [_ Hall]%StronglySorted_inv Hy. rewrite Forall_forall in Hall. auto. Qed.

Lemma sorted_le_head (b : Z) bs y : StronglySorted Z.le (b :: bs) → y ∈ b :: bs → b ≤ y.
Proof.
  intros [_ Hall]%StronglySorted_inv [->|Hy]%elem_of_cons; [lia|].
  rewrite Forall_forall in Hall. auto.
Qed.

Lemma filter_ext_elem (P Q : A → Prop) `{∀ x, Decision (P x)} `{∀ x, Decision (Q x)} (l : list A) :
  (∀ x, x ∈ l → P x ↔ Q x) → filter P l = filter Q l.
Proof.
  induction l as [|x l IH]; intros Hpq; [done|]. rewrite !filter_cons.
  rewrite IH by (intros; apply Hpq; by right). specialize (Hpq x ltac:(by left)).
  destruct (decide (P x)), (decide (Q x)); tauto.
Qed.

Lemma filter_all (P : A → Prop) `{∀ x, Decision (P x)} (l : list A) :
  (∀ x, x ∈ l → P x) → filter P l = l.
Proof.
  induction l as [|x l IH]; intros Hp; [done|]. rewrite filter_cons, decide_True by (apply Hp; by left).
  f_equal. apply IH. intros. apply Hp. by right.
Qed.

Lemma filter_none (P : A → Prop) `{∀ x, Decision (P x)} (l : list A) :
  (∀ x, x ∈ l → ¬ P x) → filter P l = [].
Proof.
  induction l as [|x l IH]; intros Hp; [done|]. rewrite filter_cons, decide_False by (apply Hp; by left).
  apply IH. intros. apply Hp. by right.
Qed.

(** The three steps of walking two sorted slices. *)
Lemma filter_eq_step x l b bs : incr_keys (x :: l) → key x = b →
  filter (λ y, key y ∉ b :: bs) (x :: l) = filter (λ y, key y ∉ bs) l.
Proof.
  intros Hs Hb. rewrite filter_cons, decide_False.
  - apply filter_ext_elem. intros y Hy. pose proof (incr_keys_head _ _ _ Hs Hy).
    rewrite not_elem_of_cons. split; [tauto|]. intros. split; [lia|done].
  - intros Hn. apply Hn. rewrite Hb. by left.
Qed.

Lemma filter_lt_step x l b bs : StronglySorted Z.le (b :: bs) → key x < b →
  filter (λ y, key y ∉ b :: bs) (x :: l) = x :: filter (λ y, key y ∉ b :: bs) l.
Proof.
  intros Hs Hb. rewrite filter_cons, decide_True; [done|].
  intros Hin. pose proof (sorted_le_head _ _ _ Hs Hin). lia.
Qed.

Lemma filter_gt_step x l b bs : incr_keys (x :: l) → b < key x →
  filter (λ y, key y ∉ b :: bs) (x :: l) = filter (λ y, key y ∉ bs) (x :: l).
Proof.
  intros Hs Hb. apply filter_ext_elem. intros y Hy. rewrite not_elem_of_cons.
  assert (key y ≠ b); [|tauto]. apply elem_of_cons in Hy as [->|Hy]; [lia|].
  pose proof (incr_keys_head _ _ _ Hs Hy). lia.
Qed.

Lemma filter_in_eq_step x l b bs : incr_keys (x :: l) → key x = b →
  filter (λ y, key y ∈ b :: bs) (x :: l) = x :: filter (λ y, key y ∈ bs) l.
Proof.
  intros Hs Hb. rewrite filter_cons, decide_True by (rewrite Hb; by left). f_equal.
  apply filter_ext_elem. intros y Hy. pose proof (incr_keys_head _ _ _ Hs Hy).
  rewrite elem_of_cons. split; [intros [?|?]; [lia|done]|tauto].
Qed.

Lemma filter_in_lt_step x l b bs : StronglySorted Z.le (b :: bs) → key x < b →
  filter (λ y, key y ∈ b :: bs) (x :: l) = filter (λ y, key y ∈ b :: bs) l.
Proof.
  intros Hs Hb. rewrite filter_cons, decide_False; [done|].
  intros Hin. pose proof (sorted_le_head _ _ _ Hs Hin). lia.
Qed.

Lemma filter_in_gt_step x l b bs : incr_keys (x :: l) → b < key x →
  filter (λ y, key y ∈ b :: bs) (x :: l) = filter (λ y, key y ∈ bs) (x :: l).
Proof.
  intros Hs Hb. apply filter_ext_elem. intros y Hy. rewrite elem_of_cons.
  assert (key y ≠ b); [|tauto]. apply elem_of_cons in Hy as [->|Hy]; [lia|].
  pose proof (incr_keys_head _ _ _ Hs Hy). lia.
Qed.
End Keyed.

(** ** Subtraction *)

Lemma uint64Cmp_cases a b :
  (a < b ∧ uint64Cmp a b = -1) ∨ (a = b ∧ uint64Cmp a b = 0) ∨ (b < a ∧ uint64Cmp a b = 1).
Proof.
  unfold uint64Cmp. destruct (Z.ltb_spec a b), (Z.ltb_spec b a); auto with lia.
Qed.

Lemma removeAt_map {A B} (g : A → B) (l : list A) i : (i < length l)%nat →
  removeAt (map g l) i = Ok (map g (take i l ++ drop (S i) l)).
Proof.
  intros. unfold removeAt. rewrite sliceFrom_map by lia. simpl.
  rewrite map_app, Nat.add_1_r. do 2 f_equal. symmetry. apply fmap_take.
Qed.

Lemma Delete_pairs l i : (i < length l)%nat →
  Delete (of_pairs l) i = Ok (of_pairs (take i l ++ drop (S i) l)).
Proof. intros. unfold Delete. simpl. by rewrite !removeAt_map. Qed.

Lemma take_drop_remove {A} (l : list A) i : (i < length l)%nat →
  take i (take i l ++ drop (S i) l) = take i l ∧ drop i (take i l ++ drop (S i) l) = drop (S i) l.
Proof.
  intros. split.
  - rewrite take_app_length'; [done|]. rewrite length_take. lia.
  - rewrite drop_app_length'; [done|]. rewrite length_take. lia.
Qed.

Lemma subtract_hnp_loop_spec fuel : ∀ i bi l b,
  incr_keys fst (drop i l) → StronglySorted Z.le (drop bi b) → (i ≤ length l)%nat →
  ((length l - i) + (length b - bi) < fuel)%nat →
  subtract_hnp_loop fuel i bi (of_pairs l) b
  = Ok (of_pairs (take i l ++ filter (λ x, x.1 ∉ drop bi b) (drop i l))).
Proof.
  induction fuel as [|fuel IH]; intros i bi l b Hl Hb Hi Hf; [lia|]. cbn [subtract_hnp_loop].
  rewrite Len_pairs. destruct (Nat.ltb_spec i (length l)).
  2:{ rewrite (take_ge l i), (drop_ge l i) by lia. by rewrite filter_nil, app_nil_r. }
  destruct (Nat.leb_spec (length b) bi).
  { rewrite (drop_ge b bi) by lia. rewrite filter_all by (intros; apply not_elem_of_nil).
    by rewrite take_drop. }
  destruct (lookup_lt_is_Some_2 l i) as [x Hx]; [lia|].
  destruct (lookup_lt_is_Some_2 b bi) as [y Hy]; [lia|].
  cbn [of_pairs positions]. rewrite (index_map fst l i x Hx). unfold index at 1. rewrite Hy. cbn [bind].
  rewrite (drop_S _ _ _ Hx), (drop_S _ _ _ Hy) in *.
  assert (incr_keys fst (drop (S i) l)) by (by apply StronglySorted_inv in Hl as [? _]).
  assert (StronglySorted Z.le (drop (S bi) b)) by (by apply StronglySorted_inv in Hb as [? _]).
  destruct (uint64Cmp_cases x.1 y) as [[Hlt ->]|[[Heq ->]|[Hgt ->]]]; cbn [Z.eqb Pos.eqb].
  - rewrite IH by (done || lia || by rewrite (drop_S _ _ _ Hy)).
    rewrite (drop_S _ _ _ Hy), filter_lt_step, (take_S_r _ _ _ Hx), <- app_assoc by done. done.
  - change (mkHnp (map fst l) (map snd l)) with (of_pairs l). rewrite Delete_pairs by done. cbn [bind].
    destruct (take_drop_remove l i) as [Ht Hd]; [done|].
    rewrite IH; [|by rewrite Hd|done| |].
    + rewrite Ht, Hd, filter_eq_step by done. done.
    + rewrite length_app, length_take, length_drop. lia.
    + rewrite length_app, length_take, length_drop. lia.
  - change (mkHnp (map fst l) (map snd l)) with (of_pairs l).
    rewrite IH by (done || lia || by rewrite (drop_S _ _ _ Hx)).
    rewrite (drop_S _ _ _ Hx), filter_gt_step by done. done.
Qed.

Lemma subtract_loop_spec fuel : ∀ i bi (l b : list Z),
  incr_keys id (drop i l) → StronglySorted Z.le (drop bi b) → (i ≤ length l)%nat →
  ((length l - i) + (length b - bi) < fuel)%nat →
  subtract_loop fuel i bi l b = Ok (take i l ++ filter (λ x, id x ∉ drop bi b) (drop i l)).
Proof.
  induction fuel as [|fuel IH]; intros i bi l b Hl Hb Hi Hf; [lia|]. cbn [subtract_loop].
  destruct (Nat.ltb_spec i (length l)).
  2:{ rewrite (take_ge l i), (drop_ge l i) by lia. by rewrite filter_nil, app_nil_r. }
  destruct (Nat.leb_spec (length b) bi).
  { rewrite (drop_ge b bi) by lia. rewrite filter_all by (intros; apply not_elem_of_nil).
    by rewrite take_drop. }
  destruct (lookup_lt_is_Some_2 l i) as [x Hx]; [lia|].
  destruct (lookup_lt_is_Some_2 b bi) as [y Hy]; [lia|].
  unfold index. rewrite Hx, Hy. cbn [bind].
  rewrite (drop_S _ _ _ Hx), (drop_S _ _ _ Hy) in *.
  assert (incr_keys id (drop (S i) l)) by (by apply StronglySorted_inv in Hl as [? _]).
  assert (StronglySorted Z.le (drop (S bi) b)) by (by apply StronglySorted_inv in Hb as [? _]).
  destruct (uint64Cmp_cases x y) as [[Hlt ->]|[[Heq ->]|[Hgt ->]]]; cbn [Z.eqb Pos.eqb].
  - rewrite IH by (done || lia || by rewrite (drop_S _ _ _ Hy)).
    rewrite (drop_S _ _ _ Hy), filter_lt_step, (take_S_r _ _ _ Hx), <- app_assoc by done. done.
  - pose proof (removeAt_map id l i) as Hr. rewrite !map_id in Hr. rewrite Hr by done. cbn [bind].
    destruct (take_drop_remove l i) as [Ht Hd]; [done|].
    rewrite IH; [|by rewrite Hd|done| |].
    + rewrite Ht, Hd, filter_eq_step by done. done.
    + rewrite length_app, length_take, length_drop. lia.
    + rewrite length_app, length_take, length_drop. lia.
  - rewrite IH by (done || lia || by rewrite (drop_S _ _ _ Hx)).
    rewrite (drop_S _ _ _ Hx), filter_gt_step by done. done.
Qed.

Lemma subset_loop_spec fuel : ∀ i bi l b c,
  incr_keys fst (drop i l) → StronglySorted Z.le (drop bi b) →
  ((length l - i) + (length b - bi) < fuel)%nat →
  subset_loop fuel i bi (of_pairs l) b (of_pairs c)
  = Ok (of_pairs (c ++ filter (λ x, x.1 ∈ drop bi b) (drop i l))).
Proof.
  induction fuel as [|fuel IH]; intros i bi l b c Hl Hb Hf; [lia|]. cbn [subset_loop].
  rewrite Len_pairs. destruct (Nat.ltb_spec i (length l)).
  2:{ rewrite (drop_ge l i) by lia. by rewrite filter_nil, app_nil_r. }
  destruct (Nat.leb_spec (length b) bi).
  { rewrite (drop_ge b bi) by lia. rewrite filter_none, app_nil_r; [done|].
    intros x _. apply not_elem_of_nil. }
  destruct (lookup_lt_is_Some_2 l i) as [x Hx]; [lia|].
  destruct (lookup_lt_is_Some_2 b bi) as [y Hy]; [lia|].
  cbn [of_pairs positions hashes]. rewrite (index_map fst l i x Hx), (index_map snd l i x Hx).
  unfold index. rewrite Hy. cbn [bind].
  rewrite (drop_S _ _ _ Hx), (drop_S _ _ _ Hy) in *.
  assert (incr_keys fst (drop (S i) l)) by (by apply StronglySorted_inv in Hl as [? _]).
  assert (StronglySorted Z.le (drop (S bi) b)) by (by apply StronglySorted_inv in Hb as [? _]).
  change (mkHnp (map fst ?l) (map snd ?l)) with (of_pairs l).
  destruct (Z.eqb_spec x.1 y) as [Heq|Hne].
  - rewrite Append_pairs, IH by (done || lia). by rewrite filter_in_eq_step, <- app_assoc.
  - destruct (Z.ltb_spec y x.1).
    + rewrite IH by (done || lia || by rewrite (drop_S _ _ _ Hx)).
      by rewrite (drop_S _ _ _ Hx), filter_in_gt_step.
    + rewrite IH by (done || lia || by rewrite (drop_S _ _ _ Hy)).
      rewrite (drop_S _ _ _ Hy), filter_in_lt_step by (done || lia). done.
Qed.

Lemma subtractSortedHashAndPos_spec l b : incr_keys fst l → StronglySorted Z.le b →
  subtractSortedHashAndPos (of_pairs l) b = Ok (of_pairs (filter (λ x, x.1 ∉ b) l)).
Proof.
  intros Hl Hb. unfold subtractSortedHashAndPos. rewrite Len_pairs.
  by rewrite subtract_hnp_loop_spec by (rewrite ?drop_0; done || lia).
Qed.

Lemma subtractSortedSlice_spec l b : StronglySorted Z.lt l → StronglySorted Z.le b →
  subtractSortedSlice l b = Ok (filter (λ x, x ∉ b) l).
Proof.
  intros Hl Hb. unfold subtractSortedSlice.
  by rewrite subtract_loop_spec by (rewrite ?drop_0; done || lia).
Qed.

Lemma getHashAndPosSubset_spec l b : incr_keys fst l → StronglySorted Z.le b →
  getHashAndPosSubset (of_pairs l) b = Ok (of_pairs (filter (λ x, x.1 ∈ b) l)).
Proof.
  intros Hl Hb. unfold getHashAndPosSubset. rewrite Len_pairs. change hnp_nil with (of_pairs []).
  by rewrite subset_loop_spec by (rewrite ?drop_0; done || lia).
Qed.

(** ** Merging *)

Lemma merge_pairs_elem l1 l2 x : incr_keys fst l1 → incr_keys fst l2 →
  x ∈ merge_pairs l1 l2 ↔ x ∈ l1 ∨ (x ∈ l2 ∧ x.1 ∉ map fst l1).
Proof.
  intros H1. revert l2. induction l1 as [|y l1 IH1]; intros l2 H2.
  { rewrite merge_pairs_nil_l. simpl. pose proof (not_elem_of_nil x.1).
    pose proof (not_elem_of_nil x). tauto. }
  induction l2 as [|z l2 IH2].
  { rewrite merge_pairs_nil_r. pose proof (not_elem_of_nil x). tauto. }
  pose proof H1 as [H1' _]%StronglySorted_inv. pose proof H2 as [H2' _]%StronglySorted_inv.
  assert (∀ a, a ∈ map fst l1 → y.1 < a) as Hgt1.
  { intros a (b & -> & Hb)%list_elem_of_fmap. by eapply incr_keys_head. }
  assert (∀ a, a ∈ l2 → z.1 < a.1) as Hgt2 by (intros a Ha; by eapply incr_keys_head in H2).
  rewrite merge_pairs_cons. simpl map. rewrite not_elem_of_cons.
  destruct (Z.ltb_spec y.1 z.1) as [Hlt|Hge]; [|destruct (Z.ltb_spec z.1 y.1) as [Hlt|Hge']].
  - rewrite !elem_of_cons, IH1 by done. rewrite elem_of_cons. split.
    + intros [?|[?|[[->|Hx] ?]]]; [tauto|tauto| |].
      * right. split; [by left|]. split; [lia|done].
      * right. split; [by right|]. split; [|done]. specialize (Hgt2 x Hx). lia.
    + tauto.
  - rewrite elem_of_cons, IH2 by done. cbn [map]. rewrite not_elem_of_cons, !elem_of_cons. split.
    + intros [->|[?|?]]; [|tauto|tauto]. right. split; [by left|]. split; [lia|].
      intros Hin. specialize (Hgt1 _ Hin). lia.
    + tauto.
  - assert (y.1 = z.1) as E by lia. rewrite elem_of_cons, IH1 by done. rewrite !elem_of_cons. split.
    + intros [?|[?|[Hx ?]]]; [tauto|tauto|]. right. split; [by right|]. split; [|done].
      specialize (Hgt2 x Hx). lia.
    + intros [[?|?]|[[->|?] [? ?]]]; [tauto|tauto|congruence|tauto].
Qed.

Lemma merge_pairs_incr l1 l2 : incr_keys fst l1 → incr_keys fst l2 → incr_keys fst (merge_pairs l1 l2).
Proof.
  intros H1. revert l2. induction l1 as [|y l1 IH1]; intros l2 H2; [by rewrite merge_pairs_nil_l|].
  induction l2 as [|z l2 IH2]; [done|].
  pose proof H1 as [H1' _]%StronglySorted_inv. pose proof H2 as [H2' _]%StronglySorted_inv.
  assert (∀ a, a ∈ l1 → y.1 < a.1) as Hgt1 by (intros a Ha; by eapply incr_keys_head in H1).
  assert (∀ a, a ∈ l2 → z.1 < a.1) as Hgt2 by (intros a Ha; by eapply incr_keys_head in H2).
  rewrite merge_pairs_cons.
  destruct (Z.ltb_spec y.1 z.1) as [Hlt|Hge]; [|destruct (Z.ltb_spec z.1 y.1) as [Hlt|Hge']];
    (constructor; [by (apply IH1 || apply IH2)|]); apply Forall_forall; intros x;
    rewrite merge_pairs_elem by done; rewrite ?elem_of_cons.
  - intros [?|[[->|Hx] _]]; [auto|done|]. specialize (Hgt2 x Hx). lia.
  - intros [[->|Hx]|[? _]]; [done| |auto]. specialize (Hgt1 x Hx). lia.
  - intros [?|[Hx _]]; [auto|]. specialize (Hgt2 x Hx). lia.
Qed.

(** Slices of positions are merged like slices of pairs. *)
Definition tag (l : list Z) : list (Z * Hash) := map (λ p, (p, empty)) l.

Lemma map_fst_tag l : map fst (tag l) = l.
Proof. unfold tag. rewrite map_map. apply map_id. Qed.

Lemma merge_slices_loop_spec room a b : ∀ ia ib c,
  (ia ≤ length a)%nat → (ib ≤ length b)%nat →
  ((length a - ia) + (length b - ib) ≤ room)%nat →
  merge_slices_loop room ia ib a b c
  = Ok (c ++ map fst (merge_pairs (tag (drop ia a)) (tag (drop ib b)))).
Proof.
  induction room as [|room IH]; intros ia ib c Hia Hib Hroom.
  { rewrite (drop_ge a), (drop_ge b) by lia. simpl. by rewrite app_nil_r. }
  cbn [merge_slices_loop]. unfold sliceFrom, index.
  destruct (Nat.leb_spec (length a) ia).
  { rewrite (proj2 (Nat.leb_le _ _)) by lia. cbn [bind]. rewrite (drop_ge a ia) by lia.
    rewrite take_ge by (rewrite length_drop; lia). by rewrite merge_pairs_nil_l, map_fst_tag. }
  destruct (Nat.leb_spec (length b) ib).
  { rewrite (proj2 (Nat.leb_le ia _)) by lia. cbn [bind]. rewrite (drop_ge b ib) by lia.
    rewrite take_ge by (rewrite length_drop; lia). by rewrite merge_pairs_nil_r, map_fst_tag. }
  destruct (lookup_lt_is_Some_2 a ia) as [x Hx]; [done|].
  destruct (lookup_lt_is_Some_2 b ib) as [y Hy]; [done|]. rewrite Hx, Hy. cbn [bind].
  rewrite (drop_S _ _ _ Hx), (drop_S _ _ _ Hy).
  change (tag (?u :: ?v)) with ((u, empty) :: tag v). rewrite merge_pairs_cons. simpl fst.
  destruct (uint64Cmp_cases x y) as [[Hlt ->]|[[-> ->]|[Hgt ->]]]; cbn [Z.eqb Pos.eqb].
  - rewrite (proj2 (Z.ltb_lt _ _)), IH, (drop_S _ _ _ Hy), <- app_assoc by (done || lia). done.
  - rewrite Z.ltb_irrefl, IH, <- app_assoc by lia. done.
  - rewrite (proj2 (Z.ltb_ge _ _)), (proj2 (Z.ltb_lt _ _)), IH, (drop_S _ _ _ Hx), <- app_assoc
      by (done || lia). done.
Qed.

Lemma mergeSortedSlicesFunc_spec a b :
  mergeSortedSlicesFunc a b = Ok (map fst (merge_pairs (tag a) (tag b))).
Proof.
  unfold mergeSortedSlicesFunc. destruct (Nat.eqb_spec (length a) 0).
  { destruct a; [|done]. by rewrite merge_pairs_nil_l, map_fst_tag. }
  destruct (Nat.eqb_spec (length b) 0).
  { destruct b; [|done]. by rewrite merge_pairs_nil_r, map_fst_tag. }
  rewrite merge_slices_loop_spec by lia. by rewrite !drop_0.
Qed.

Lemma incr_tag l : StronglySorted Z.lt l → incr_keys fst (tag l).
Proof. intros Hl. apply incr_keys_map. by rewrite map_fst_tag. Qed.

Lemma elem_tag l x : x ∈ tag l ↔ x.1 ∈ l ∧ x.2 = empty.
Proof.
  unfold tag. rewrite list_elem_of_fmap. split.
  - intros (p & -> & Hp). done.
  - destruct x as [p h]. simpl. intros [Hp ->]. by exists p.
Qed.

(** The merge of two strictly sorted slices is their sorted union. *)
Lemma merged_slices a b : StronglySorted Z.lt a → StronglySorted Z.lt b →
  let c := map fst (merge_pairs (tag a) (tag b)) in
  StronglySorted Z.lt c ∧ ∀ p, p ∈ c ↔ p ∈ a ∨ p ∈ b.
Proof.
  intros Ha Hb c. split; [by apply (incr_keys_map fst), merge_pairs_incr; apply incr_tag|].
  intros p. unfold c. rewrite list_elem_of_fmap. setoid_rewrite merge_pairs_elem; [|by apply incr_tag..].
  setoid_rewrite elem_tag. rewrite map_fst_tag. split.
  - intros ([q h] & -> & Hq). simpl in *. tauto.
  - intros Hp. exists (p, empty). simpl. destruct (decide (p ∈ a)); [auto|]. split; [done|]. right.
    destruct Hp; [done|]. auto.
Qed.

(** ** Binary search and ordered insertion *)

Lemma sortSearch_loop_spec f n fuel : ∀ i j,
  (∀ a b, (a ≤ b)%nat → f a = true → f b = true) →
  (i ≤ j ≤ n)%nat → (j - i ≤ fuel)%nat →
  (∀ x, (x < i)%nat → f x = false) → (∀ x, (j ≤ x < n)%nat → f x = true) →
  let k := sortSearch_loop fuel i j f in
  (i ≤ k ≤ j)%nat ∧ (∀ x, (x < k)%nat → f x = false) ∧ (∀ x, (k ≤ x < n)%nat → f x = true).
Proof.
  induction fuel as [|fuel IH]; intros i j Hmono Hij Hf Hlo Hhi; cbn [sortSearch_loop].
  { assert (i = j) as <- by lia. auto with lia. }
  destruct (Nat.ltb_spec i j).
  2:{ assert (i = j) as <- by lia. auto with lia. }
  set (h := ((i + j) / 2)%nat).
  assert (i ≤ h < j)%nat as Hh.
  { unfold h. split; [apply Nat.div_le_lower_bound; lia|apply Nat.Div0.div_lt_upper_bound; lia]. }
  destruct (f h) eqn:E; cbn [negb].
  - destruct (IH i h) as (? & ? & ?); try done; [lia|lia| |split; [lia|done]].
    intros x Hx. destruct (decide (j ≤ x)%nat); [apply Hhi; lia|]. apply (Hmono h); [lia|done].
  - destruct (IH (h + 1)%nat j) as (? & ? & ?); try done; [lia|lia| |split; [lia|done]].
    intros x Hx. apply not_true_is_false. intros Ht. rewrite (Hmono x h) in E; [done|lia|done].
Qed.

Lemma insertInOrder_perm l x : insertInOrder l x ≡ₚ x :: l.
Proof.
  unfold insertInOrder. rewrite <- Permutation_middle. by rewrite take_drop.
Qed.

Lemma sorted_le_lookup (l : list Z) i j x y : StronglySorted Z.le l → (i ≤ j)%nat →
  l !! i = Some x → l !! j = Some y → x ≤ y.
Proof.
  intros Hs. revert i j. induction Hs as [|z l Hs IH Hall]; intros i j Hij Hi Hj; [done|].
  destruct j as [|j]; [assert (i = 0%nat) as -> by lia; simplify_eq; lia|].
  destruct i as [|i]; simpl in *; [|eapply IH; [|done..]; lia]. simplify_eq.
  rewrite Forall_forall in Hall. apply Hall. by eapply list_elem_of_lookup_2.
Qed.

Lemma sorted_app (R : relation Z) l1 l2 : StronglySorted R l1 → StronglySorted R l2 →
  (∀ x y, x ∈ l1 → y ∈ l2 → R x y) → StronglySorted R (l1 ++ l2).
Proof.
  intros H1 H2. induction H1 as [|x l1 H1 IH Hall]; intros Hxy; simpl; [done|]. constructor.
  - apply IH. intros. apply Hxy; [by right|done].
  - apply Forall_app. split; [done|]. apply Forall_forall. intros y Hy. apply Hxy; [by left|done].
Qed.

Lemma sorted_app_inv (R : relation Z) l1 l2 : StronglySorted R (l1 ++ l2) →
  ∀ x y, x ∈ l1 → y ∈ l2 → R x y.
Proof.
  induction l1 as [|z l1 IH]; simpl; intros Hs x y Hx Hy; [by apply not_elem_of_nil in Hx|].
  apply StronglySorted_inv in Hs as [Hs Hall]. apply elem_of_cons in Hx as [->|Hx]; [|by eapply IH].
  rewrite Forall_forall in Hall. apply Hall, elem_of_app. by right.
Qed.

(** The index found splits the slice. *)
Lemma insertInOrder_split l x : StronglySorted Z.le l →
  ∃ k, insertInOrder l x = take k l ++ x :: drop k l ∧
    (∀ y, y ∈ take k l → y ≤ x) ∧ (∀ y, y ∈ drop k l → x < y).
Proof.
  intros Hs. unfold insertInOrder. set (f := λ i, x <? default 0 (l !! i)).
  assert (∀ i y, l !! i = Some y → f i = (x <? y)) as Hf by (intros i y Hi; unfold f; by rewrite Hi).
  set (g := λ i, (length l <=? i)%nat || f i).
  assert (sortSearch (length l) f = sortSearch (length l) g) as Hfg.
  { unfold sortSearch. generalize (length l) at 1 3 as fuel. intros fuel.
    assert (∀ i j, (j ≤ length l)%nat → sortSearch_loop fuel i j f = sortSearch_loop fuel i j g) as Hg;
      [|by apply Hg].
    induction fuel as [|fuel IH]; intros i j Hj; [done|]. cbn [sortSearch_loop].
    destruct (Nat.ltb_spec i j); [|done].
    assert ((i + j) / 2 < j)%nat by (apply Nat.Div0.div_lt_upper_bound; lia).
    set (h := ((i + j) / 2)%nat) in *. unfold g at 1.
    rewrite (proj2 (Nat.leb_gt _ _)) by lia. cbn [orb].
    destruct (negb _); apply IH; lia. }
  rewrite Hfg. destruct (sortSearch_loop_spec g (length l) (length l) 0 (length l)) as (Hk & Hlo & Hhi);
    [|lia|lia|lia|lia|].
  { intros a b Hab [Ha|Ha]%orb_true_iff; apply orb_true_iff.
    - apply Nat.leb_le in Ha. left. apply Nat.leb_le. lia.
    - destruct (Nat.leb_spec (length l) b); [by left|]. right.
      destruct (lookup_lt_is_Some_2 l a) as [y Hy]; [lia|]. destruct (lookup_lt_is_Some_2 l b) as [z Hz]; [lia|].
      rewrite (Hf a y Hy) in Ha. rewrite (Hf b z Hz). apply Z.ltb_lt in Ha. apply Z.ltb_lt.
      pose proof (sorted_le_lookup l a b y z Hs Hab Hy Hz). lia. }
  fold (sortSearch (length l) g) in *. set (k := sortSearch (length l) g) in *.
  exists k. split; [done|]. split; intros y (i & Hi)%list_elem_of_lookup.
  - apply lookup_take_Some in Hi as [Hi Hik]. specialize (Hlo i Hik). unfold g in Hlo.
    apply orb_false_iff in Hlo as [_ Hlo]. rewrite (Hf i y Hi) in Hlo. apply Z.ltb_ge in Hlo. lia.
  - rewrite lookup_drop in Hi. pose proof (lookup_lt_Some _ _ _ Hi).
    specialize (Hhi (k + i)%nat ltac:(lia)). unfold g in Hhi. rewrite (proj2 (Nat.leb_gt _ _)) in Hhi by lia.
    simpl in Hhi. rewrite (Hf _ y Hi) in Hhi. by apply Z.ltb_lt.
Qed.

Lemma sorted_take (R : relation Z) k l : StronglySorted R l → StronglySorted R (take k l).
Proof.
  intros Hs. revert k. induction Hs as [|x l Hs IH Hall]; intros [|k]; simpl; try constructor; [done|].
  rewrite Forall_forall in *. intros y Hy. apply elem_of_take in Hy as (i & Hi & _). apply Hall. by eapply list_elem_of_lookup_2.
Qed.

Lemma sorted_drop (R : relation Z) k l : StronglySorted R l → StronglySorted R (drop k l).
Proof.
  intros Hs. revert k. induction Hs as [|x l Hs IH Hall]; intros [|k]; simpl;
    [constructor..|by constructor|apply IH].
Qed.

Lemma insertInOrder_sorted l x : StronglySorted Z.le l → StronglySorted Z.le (insertInOrder l x).
Proof.
  intros Hs. destruct (insertInOrder_split l x Hs) as (k & -> & Hlo & Hhi).
  apply sorted_app; [by apply sorted_take| |].
  - constructor; [by apply sorted_drop|]. apply Forall_forall. intros y Hy. specialize (Hhi y Hy). lia.
  - intros y z Hy [->|Hz]%elem_of_cons; [by apply Hlo|]. specialize (Hlo y Hy). specialize (Hhi z Hz). lia.
Qed.
