(* ===== verification/Traverse.v ===== *)
(** * The walk from targets to roots (prove.go, utils.go)

    [proofPositions] and [calculateHashes] visit the targets and their ancestors
    in increasing position order, merging the sorted targets with the parents
    found so far. *)

From S2P Require Import Prelude Utils.

(** ** The next position *)

Definition nextLeastSlice (slice1 slice2 : list Z) (idx1 idx2 : nat) : Z :=
  match slice1 !! idx1, slice2 !! idx2 with
  | Some a, Some b => if a <? b then 0 else 1
  | Some _, None => 0
  | None, Some _ => 1
  | None, None => -1
  end.

Definition getNextPos (slice1 slice2 : list Z) (slice1Idx slice2Idx : nat) : Z * Z * Z :=
  let idx := nextLeastSlice slice1 slice2 slice1Idx slice2Idx in
  if (idx =? 0) || (idx =? 1) then
    let pos := default 0 (if idx =? 0 then slice1 !! slice1Idx else slice2 !! slice2Idx) in
    let slice1Idx := if idx =? 0 then S slice1Idx else slice1Idx in
    let slice2Idx := if idx =? 0 then slice2Idx else S slice2Idx in
    let sibIdx := nextLeastSlice slice1 slice2 slice1Idx slice2Idx in
    let sibIdx :=
      if sibIdx =? 0 then
        (if negb (rightSib pos =? default 0 (slice1 !! slice1Idx)) then -1 else sibIdx)
      else if sibIdx =? 1 then
        (if negb (rightSib pos =? default 0 (slice2 !! slice2Idx)) then -1 else sibIdx)
      else sibIdx in
    (pos, idx, sibIdx)
  else (0, -1, -1).

(** ** [proofPositions] *)

(** [for target > maxPossiblePosAtRow(row, totalRows) && row <= totalRows { row++ }]. *)
Fixpoint advanceRow (fuel : nat) (target row totalRows : Z) : Z :=
  match fuel with
  | O => row
  | S fuel =>
      if (maxPossiblePosAtRow row totalRows <? target) && (row <=? totalRows)
      then advanceRow fuel target (u8 (row + 1)) totalRows
      else row
  end.

Fixpoint proofPositions_loop (fuel : nat) (targets nextTargets : list Z)
    (targetsIdx nextTargetsIdx : nat) (row : Z) (proofs : list Z) (numLeaves totalRows : Z)
    : res (list Z * list Z) :=
  match fuel with
  | O => Spin
  | S fuel =>
      if row <=? totalRows then
        let '(target, idx, sibIdx) := getNextPos targets nextTargets targetsIdx nextTargetsIdx in
        if idx =? -1 then Ok (proofs, nextTargets)
        else
          let targetsIdx := if idx =? 0 then S targetsIdx else targetsIdx in
          let nextTargetsIdx := if idx =? 0 then nextTargetsIdx else S nextTargetsIdx in
          let row := advanceRow 257 target row totalRows in
          if totalRows <? row then Ok (proofs, nextTargets)
          else if isRootPositionOnRowTotalRows target numLeaves row totalRows then
            proofPositions_loop fuel targets nextTargets targetsIdx nextTargetsIdx row proofs
              numLeaves totalRows
          else
            let targetsIdx := if sibIdx =? 0 then S targetsIdx else targetsIdx in
            let nextTargetsIdx := if sibIdx =? 1 then S nextTargetsIdx else nextTargetsIdx in
            let proofs := if negb (sibIdx =? -1) then proofs else proofs ++ [sibling target] in
            proofPositions_loop fuel targets (nextTargets ++ [parent target totalRows])
              targetsIdx nextTargetsIdx row proofs numLeaves totalRows
      else Ok (proofs, nextTargets)
  end.

(** Every target is followed by at most [totalRows + 1] ancestors. *)
Definition walk_fuel (targets : list Z) (totalRows : Z) : nat :=
  (length targets * (Z.to_nat totalRows + 2) + 1)%nat.

Definition proofPositions (targets : list Z) (numLeaves totalRows : Z) : res (list Z * list Z) :=
  proofPositions_loop (walk_fuel targets totalRows) targets [] 0 0 0 [] numLeaves totalRows.

Example proofPositions_ex :
  proofPositions [0; 1] 4 2 = Ok ([5], [4; 6]) ∧
  proofPositions [2; 5] 8 3 = Ok ([3; 4; 8; 11], [9; 10; 12; 13; 14]).
Proof. split; vm_compute; reflexivity. Qed.
