(* ===== verification/Calc.v ===== *)
(** * Root calculation (prove.go)

    [getNextHash] and [calculateHashes].  The loop of the source is one recursion on its
    rounds; [walk_fuel] rounds are enough on well-formed targets ([CalcTheory]). *)

From S2P Require Import Prelude Utils HashPos Traverse.

(** [Targets] are positions of leaves, [ProofHashes] the field [Proof] of the source. *)
Record Proof : Type := mkProof { Targets : list Z; ProofHashes : list Hash }.

Section Calc.
Context `{HashFn}.

Definition getNextHash (pos : Z) (hash sibHash : Hash) : Hash :=
  if decide (hash = empty) then sibHash
  else if decide (sibHash = empty) then hash
  else if isLeftNiece pos then parentHash hash sibHash else parentHash sibHash hash.

(** [for provePos > maxPos { row++; maxPos, _ = maxPositionAtRow(row, ...) }].
    The row is a [uint8]: a run of 256 rounds has tried every row and repeats. *)
Fixpoint climb (fuel : nat) (provePos row totalRows numLeaves : Z) : res Z :=
  match fuel with
  | O => Spin
  | S fuel =>
      if or_zero 0 (maxPositionAtRow row totalRows numLeaves) <? provePos
      then climb fuel provePos (u8 (row + 1)) totalRows numLeaves
      else Ok row
  end.

Fixpoint calculateHashes_loop (fuel : nat) (toProve nextProves : hashAndPos)
    (toProveIdx nextProvesIdx proofHashIdx : nat) (row : Z) (proof : list Hash)
    (rootHashes : list Hash) (numLeaves totalRows : Z) : res (hashAndPos * list Hash) :=
  match fuel with
  | O => Spin
  | S fuel =>
      if row <=? totalRows then
        let '(provePos, idx, sibIdx) :=
          getNextPos (positions toProve) (positions nextProves) toProveIdx nextProvesIdx in
        if idx =? -1 then Ok (nextProves, rootHashes)
        else
          let* proveHash :=
            (if idx =? 0 then index (hashes toProve) toProveIdx
             else index (hashes nextProves) nextProvesIdx) in
          let toProveIdx := if idx =? 0 then S toProveIdx else toProveIdx in
          let nextProvesIdx := if idx =? 0 then nextProvesIdx else S nextProvesIdx in
          let* row := climb 256 provePos row totalRows numLeaves in
          if isRootPositionOnRow provePos numLeaves row then
            calculateHashes_loop fuel toProve nextProves toProveIdx nextProvesIdx proofHashIdx
              row proof (rootHashes ++ [proveHash]) numLeaves totalRows
          else
            let* sibHash :=
              (if negb (sibIdx =? -1) then
                 (if sibIdx =? 0 then index (hashes toProve) toProveIdx
                  else index (hashes nextProves) nextProvesIdx)
               else index proof proofHashIdx) in
            let toProveIdx := if sibIdx =? 0 then S toProveIdx else toProveIdx in
            let nextProvesIdx := if sibIdx =? 1 then S nextProvesIdx else nextProvesIdx in
            let proofHashIdx := if negb (sibIdx =? -1) then proofHashIdx else S proofHashIdx in
            let nextHash := getNextHash provePos proveHash sibHash in
            calculateHashes_loop fuel toProve
              (Append nextProves (parent provePos totalRows) nextHash)
              toProveIdx nextProvesIdx proofHashIdx row proof rootHashes numLeaves totalRows
      else Ok (nextProves, rootHashes)
  end.

(** [delHashes] is [None] for Go's [nil]. *)
Definition calculateHashes (numLeaves : Z) (delHashes : option (list Hash)) (proof : Proof)
    : res (hashAndPos * list Hash) :=
  let totalRows := treeRows numLeaves in
  let delHashes :=
    match delHashes with
    | Some hs => hs
    | None => replicate (length (Targets proof)) empty
    end in
  let* toProve := toHashAndPos (Targets proof) delHashes in
  let* (nextProves, calculatedRootHashes) :=
    calculateHashes_loop (walk_fuel (Targets proof) totalRows) toProve hnp_nil 0 0 0 0
      (ProofHashes proof) [] numLeaves totalRows in
  let* nextProves := mergeSortedHashAndPos nextProves toProve in
  Ok (nextProves, calculatedRootHashes).
End Calc.
