(* ===== verification/Walk.v ===== *)
(** * Theory of the walk from targets to roots

    The two-slice loops of [Traverse] and [Calc] visit one sorted worklist of
    positions.  [walk] is that worklist algorithm as a relation that records the
    steps taken; the loops are proved to follow it, and properties are proved by
    induction on it. *)

From S2P Require Import Prelude Utils PosTheory Traverse.

(** ** Positions of the forest *)

Definition inF (n f p : Z) : Prop := ∃ r o, p = npos f r o ∧ in_forest n r o.

(** [root_at n f p]: [p] is the position of a root of the forest. *)
Definition root_at (n f p : Z) : bool := is_root n (rowOf f p) (offOf f p).

Lemma rowOf_npos f r o : valid f r o → rowOf f (npos f r o) = r.
Proof.
  intros Hv. pose proof Hv as (? & ? & ?). pose proof (npos_range f r o Hv).
  destruct (npos_decode f (npos f r o)) as [Hv' Heq]; [lia|done|].
  by destruct (npos_inj f r o _ _ Hv Hv' Heq) as [<- _].
Qed.

Lemma offOf_npos f r o : valid f r o → offOf f (npos f r o) = o.
Proof. intros Hv. unfold offOf. rewrite rowOf_npos by done. unfold npos. lia. Qed.

Lemma root_at_npos n f r o : valid f r o → root_at n f (npos f r o) = is_root n r o.
Proof. intros. unfold root_at. by rewrite rowOf_npos, offOf_npos. Qed.

(** What a non-root position of the forest gives: its coordinates and its family. *)
Lemma inF_family n f p : fits n f → inF n f p → root_at n f p = false →
  ∃ r o, p = npos f r o ∧ in_forest n r o ∧ valid f r o ∧ r < f ∧ is_root n r o = false ∧
    parent p f = npos f (r + 1) (o / 2) ∧ in_forest n (r + 1) (o / 2) ∧
    valid f (r + 1) (o / 2) ∧
    sibling p = npos f r (sibling o) ∧ in_forest n r (sibling o) ∧ Z.even p = Z.even o.
Proof.
  intros Hfit (r & o & -> & Hin) Hroot.
  pose proof (in_forest_valid n f r o Hfit Hin) as Hv.
  rewrite root_at_npos in Hroot by done.
  pose proof (in_forest_top n f r o Hfit Hin Hroot).
  destruct (non_root_family n r o Hin Hroot) as [Hs Hp].
  pose proof (parent_npos f r o Hv). pose proof (sibling_npos f r o Hv).
  pose proof (npos_even f r o Hv). pose proof (in_forest_valid n f _ _ Hfit Hp).
  exists r, o. tauto.
Qed.

Lemma parent_half n f p : fits n f → inF n f p → parent p f = p / 2 + 2 ^ f.
Proof.
  intros [? ?] (r & o & -> & Hin). pose proof (in_forest_valid n f r o ltac:(done) Hin) as Hv.
  pose proof (npos_range f r o Hv). apply parent_eq; lia.
Qed.

Lemma parent_gt n f p : fits n f → inF n f p → p < parent p f.
Proof.
  intros Hfit Hin. rewrite (parent_half n) by done. destruct Hin as (r & o & -> & Hin).
  pose proof (in_forest_valid n f r o Hfit Hin) as Hv. pose proof (npos_range f r o Hv) as Hp.
  destruct Hfit as [_ ?]. rewrite pow2_succ in Hp by lia.
  pose proof (Z.div_mod (npos f r o) 2). pose proof (Z.mod_pos_bound (npos f r o) 2). lia.
Qed.

(** Later positions have later parents, siblings aside. *)
Lemma parent_mono n f p y : fits n f → inF n f p → inF n f y → p < y → y ≠ rightSib p →
  parent p f < parent y f.
Proof.
  intros Hfit Hp Hy Hlt Hne. rewrite !(parent_half n) by done. rewrite rightSib_eq in Hne.
  pose proof (Zmod_even p). pose proof (Z.div_mod p 2). pose proof (Z.div_mod y 2).
  pose proof (Z.mod_pos_bound y 2). destruct (Z.even p); lia.
Qed.

Lemma row_mono n f p y : fits n f → inF n f p → inF n f y → p < y → rowOf f p ≤ rowOf f y.
Proof.
  intros Hfit (r & o & -> & Hin) (r' & o' & -> & Hin') Hlt.
  pose proof (in_forest_valid n f r o Hfit Hin). pose proof (in_forest_valid n f r' o' Hfit Hin').
  rewrite !rowOf_npos by done. apply npos_lt in Hlt; [lia|done..].
Qed.

(** ** The worklist *)

(** Sorted, in the forest, and without a position above another one. *)
Record pending (n f : Z) (q : list Z) : Prop := {
  pd_sorted : StronglySorted Z.lt q;
  pd_in : ∀ p, p ∈ q → inF n f p;
  pd_anti : ∀ p p', p ∈ q → p' ∈ q → isAncestor p' p f = false;
}.

Inductive step : Type :=
| SRoot (p : Z)   (* [p] is a root *)
| SPair (p : Z)   (* [p] and its right sibling are both in the worklist *)
| SSib (p : Z).   (* the sibling of [p] is needed from the proof *)

Inductive walk (n f : Z) : list Z → list step → Prop :=
| walk_nil : walk n f [] []
| walk_root p q tr :
    root_at n f p = true → walk n f q tr → walk n f (p :: q) (SRoot p :: tr)
| walk_pair p q q' tr :
    root_at n f p = false →
    StronglySorted Z.lt q' → q' ≡ₚ parent p f :: q →
    walk n f q' tr → walk n f (p :: rightSib p :: q) (SPair p :: tr)
| walk_sib p q q' tr :
    root_at n f p = false → head q ≠ Some (rightSib p) →
    StronglySorted Z.lt q' → q' ≡ₚ parent p f :: q →
    walk n f q' tr → walk n f (p :: q) (SSib p :: tr).

(** The positions the proof must provide, the parents computed, the roots reached. *)
Fixpoint sibs (tr : list step) : list Z :=
  match tr with
  | [] => []
  | SSib p :: tr => sibling p :: sibs tr
  | _ :: tr => sibs tr
  end.

Fixpoint parents (f : Z) (tr : list step) : list Z :=
  match tr with
  | [] => []
  | SRoot _ :: tr => parents f tr
  | SPair p :: tr | SSib p :: tr => parent p f :: parents f tr
  end.

Fixpoint roots_of (tr : list step) : list Z :=
  match tr with
  | [] => []
  | SRoot p :: tr => p :: roots_of tr
  | _ :: tr => roots_of tr
  end.

Lemma sorted_lt_head p q y : StronglySorted Z.lt (p :: q) → y ∈ q → p < y.
Proof. intros [_ Hall]%StronglySorted_inv ?. rewrite Forall_forall in Hall. auto. Qed.

Lemma pending_tail n f p q : pending n f (p :: q) → pending n f q.
Proof.
  intros [Hs Hin Hanti]. apply StronglySorted_inv in Hs as [? _]. split; [done| |].
  - intros. apply Hin. by right.
  - intros. apply Hanti; by right.
Qed.

(** The right sibling of the smallest position is next to it or absent. *)
Lemma sib_is_head p q : StronglySorted Z.lt (p :: q) → rightSib p ∈ q →
  head q = Some (rightSib p).
Proof.
  intros Hs Hin. destruct q as [|y q]; [by apply not_elem_of_nil in Hin|]. simpl. f_equal.
  pose proof (sorted_lt_head _ _ y Hs ltac:(by left)) as Hlt.
  rewrite rightSib_eq in *. apply elem_of_cons in Hin as [->|Hin]; [done|].
  apply StronglySorted_inv in Hs as [Hs _]. pose proof (sorted_lt_head _ _ _ Hs Hin).
  destruct (Z.even p); lia.
Qed.

(** The coordinates of a position above the smallest one of the worklist. *)
Lemma ancestor_cases f r o r' o' y :
  valid f r o → valid f r' o' → y = npos f r' o' → r < f →
  npos f r o < y →
  isAncestor (npos f (r + 1) (o / 2)) y f = true →
  r' = r ∧ o' = sibling o ∧ Z.even o = true.
Proof.
  intros Hv Hv' -> Hr Hlt Hanc. pose proof (valid_parent f r o Hv Hr) as Hvp.
  rewrite isAncestor_npos in Hanc by done. apply andb_true_iff in Hanc as [Hlt'%Z.ltb_lt Ho%Z.eqb_eq].
  apply npos_lt in Hlt as [?|[-> Hoo]]; [lia| |done..]. split; [done|].
  replace (r' + 1 - r') with 1 in Ho by lia. change (2 ^ 1) with 2 in Ho.
  rewrite sibling_eq.
  pose proof (Z.div_mod o 2). pose proof (Z.div_mod o' 2).
  pose proof (Z.mod_pos_bound o 2). pose proof (Z.mod_pos_bound o' 2).
  assert (o' = o + 1 ∧ o mod 2 = 0) as [? Hm] by lia.
  rewrite Zmod_even in Hm. destruct (Z.even o); [|lia]. split; [lia|done].
Qed.

(** Replacing the smallest position (and its right sibling) by the parent keeps the
    worklist well-formed. *)
Lemma pending_step n f p q rest q' : fits n f → pending n f (p :: q) →
  root_at n f p = false →
  (∀ y, y ∈ rest → y ∈ q ∧ y ≠ rightSib p) →
  StronglySorted Z.lt q' → q' ≡ₚ parent p f :: rest → pending n f q'.
Proof.
  intros Hfit [Hs Hin Hanti] Hroot Hrest Hs' Hperm.
  destruct (inF_family n f p) as (r & o & -> & Hino & Hv & Hrf & _ & Hpar & Hinp & Hvp & Hsib & _ & Hev);
    [done|apply Hin; by left|done|].
  assert (∀ y, y ∈ q' → y = npos f (r + 1) (o / 2) ∨ y ∈ rest) as Hq'.
  { intros y Hy. rewrite Hperm, Hpar in Hy. by apply elem_of_cons in Hy. }
  assert (∀ y, y ∈ rest → inF n f y ∧ npos f r o < y ∧
    isAncestor (npos f (r + 1) (o / 2)) y f = false ∧
    isAncestor y (npos f (r + 1) (o / 2)) f = false) as Hy.
  { intros y Hy. destruct (Hrest y Hy) as [Hyq Hne].
    assert (inF n f y) as Hiny by (apply Hin; by right).
    pose proof (sorted_lt_head _ _ _ Hs Hyq) as Hlt. repeat split; [done|done| |].
    - apply not_true_is_false. intros Hanc. destruct Hiny as (r' & o' & -> & Hin').
      pose proof (in_forest_valid n f r' o' Hfit Hin') as Hv'.
      destruct (ancestor_cases f r o r' o' _ Hv Hv' eq_refl Hrf Hlt Hanc) as (-> & -> & He).
      apply Hne. rewrite rightSib_eq, <- Hsib, sibling_eq, Hev, He. done.
    - apply not_true_is_false. intros Hanc.
      assert (isAncestor y (npos f r o) f = true) as Hbad.
      { destruct Hiny as (r' & o' & -> & Hin').
        pose proof (in_forest_valid n f r' o' Hfit Hin') as Hv'.
        rewrite isAncestor_npos in Hanc |- * by done.
        apply andb_true_iff in Hanc as [?%Z.ltb_lt Ho%Z.eqb_eq].
        apply andb_true_iff. split; [apply Z.ltb_lt; lia|]. apply Z.eqb_eq. rewrite Ho.
        change 2 with (2 ^ 1) at 1. rewrite div_div_pow2 by lia. do 2 f_equal. lia. }
      rewrite Hanti in Hbad; [done|by left|by right]. }
  split; [done| |].
  - intros y [->|?]%Hq'; [by exists (r + 1), (o / 2)|]. by apply Hy.
  - intros y y' [->|Hy1]%Hq' [->|Hy2]%Hq'.
    + unfold isAncestor. by rewrite Z.eqb_refl.
    + by apply Hy.
    + by apply Hy.
    + apply Hanti; right; by apply Hrest.
Qed.

(** The worklist after a step exists. *)
Lemma pending_next n f p q rest : fits n f → pending n f (p :: q) →
  root_at n f p = false → rest `sublist_of` q →
  ∃ q', StronglySorted Z.lt q' ∧ q' ≡ₚ parent p f :: rest.
Proof.
  intros Hfit [Hs Hin Hanti] Hroot Hsub. apply sort_nodup. constructor.
  - intros Hpar. apply (sublist_subseteq _ _ Hsub) in Hpar.
    destruct (inF_family n f p) as (r & o & -> & _ & Hv & Hrf & _ & Hpeq & _ & Hvp & _);
      [done|apply Hin; by left|done|].
    assert (isAncestor (parent (npos f r o) f) (npos f r o) f = true) as Hbad.
    { rewrite Hpeq, isAncestor_npos by done. replace (r + 1 - r) with 1 by lia.
      apply andb_true_iff. split; [apply Z.ltb_lt; lia|]. by apply Z.eqb_eq. }
    rewrite Hanti in Hbad; [done|by left|by right].
  - apply sorted_lt_nodup in Hs. apply NoDup_cons in Hs as [_ Hnd].
    by eapply sublist_NoDup.
Qed.

(** ** Termination: every step lowers the number of rows left to climb *)

Definition weight (f : Z) (q : list Z) : nat :=
  sum_list_with (λ p, Z.to_nat (f + 1 - rowOf f p)) q.

Lemma weight_cons f p q :
  weight f (p :: q) = (Z.to_nat (f + 1 - rowOf f p) + weight f q)%nat.
Proof. done. Qed.

Lemma weight_perm f q q' : q ≡ₚ q' → weight f q = weight f q'.
Proof. unfold weight. induction 1; simpl; lia. Qed.

Lemma weight_pos n f p : fits n f → inF n f p → (0 < Z.to_nat (f + 1 - rowOf f p))%nat.
Proof.
  intros Hfit (r & o & -> & Hin). pose proof (in_forest_valid n f r o Hfit Hin) as Hv.
  rewrite rowOf_npos by done. destruct Hv as (? & ? & ?). lia.
Qed.

Lemma weight_parent n f p : fits n f → inF n f p → root_at n f p = false →
  (Z.to_nat (f + 1 - rowOf f (parent p f)) < Z.to_nat (f + 1 - rowOf f p))%nat.
Proof.
  intros Hfit Hin Hroot.
  destruct (inF_family n f p) as (r & o & -> & _ & Hv & Hrf & _ & -> & _ & Hvp & _); try done.
  rewrite !rowOf_npos by done. lia.
Qed.

Lemma walk_exists n f q : fits n f → pending n f q →
  ∃ tr, walk n f q tr ∧ (length tr ≤ weight f q)%nat.
Proof.
  intros Hfit. remember (weight f q) as w eqn:Hw. revert q Hw.
  induction w as [w IH] using lt_wf_ind. intros q -> Hpd.
  destruct q as [|p q]; [exists []; split; [constructor|simpl; lia]|].
  assert (inF n f p) as Hin by (apply Hpd; by left).
  pose proof (weight_pos n f p Hfit Hin). destruct (root_at n f p) eqn:Hroot.
  { destruct (IH (weight f q)) with (q := q) as (tr & Htr & Hlen);
      [rewrite weight_cons; lia|done|by eapply pending_tail|].
    exists (SRoot p :: tr). split; [by constructor|]. rewrite weight_cons. simpl length. lia. }
  pose proof (weight_parent n f p Hfit Hin Hroot).
  destruct (decide (head q = Some (rightSib p))) as [Hhd|Hhd].
  - destruct q as [|s rest]; [done|]. simplify_eq/=.
    destruct (pending_next n f p (rightSib p :: rest) rest) as (q' & Hs' & Hperm); try done.
    { by constructor. }
    assert (weight f q' < weight f (p :: rightSib p :: rest))%nat as Hwq.
    { rewrite (weight_perm f _ _ Hperm), !weight_cons. lia. }
    destruct (IH _ Hwq q' eq_refl) as (tr & Htr & Hlen).
    { eapply (pending_step n f p _ rest); try done. intros y Hy. split; [by right|].
      destruct Hpd as [Hs _ _]. apply StronglySorted_inv in Hs as [Hs _].
      pose proof (sorted_lt_head _ _ _ Hs Hy). lia. }
    exists (SPair p :: tr). split; [by econstructor|].
    rewrite !weight_cons in Hwq. simpl length. lia.
  - destruct (pending_next n f p q q) as (q' & Hs' & Hperm); try done.
    assert (weight f q' < weight f (p :: q))%nat as Hwq.
    { rewrite (weight_perm f _ _ Hperm), !weight_cons. lia. }
    destruct (IH _ Hwq q' eq_refl) as (tr & Htr & Hlen).
    { eapply (pending_step n f p q q); try done. intros y Hy. split; [done|].
      intros ->. apply Hhd. apply sib_is_head; [apply Hpd|done]. }
    exists (SSib p :: tr). split; [by econstructor|]. simpl length. lia.
Qed.

Lemma weight_bound n f q : fits n f → (∀ p, p ∈ q → inF n f p) →
  (weight f q ≤ length q * (Z.to_nat f + 1))%nat.
Proof.
  intros Hfit Hin. induction q as [|p q IH]; [done|]. rewrite weight_cons. simpl length.
  assert (inF n f p) as (r & o & -> & Hp) by (apply Hin; by left).
  pose proof (in_forest_valid n f r o Hfit Hp) as Hv. rewrite rowOf_npos by done.
  destruct Hv as (? & ? & ?).
  assert (∀ p, p ∈ q → inF n f p) as Hq by (intros; apply Hin; by right).
  specialize (IH Hq). lia.
Qed.

(** ** The two slices of the loops and the worklist *)

(** What is left of the two slices is the worklist; the second slice, that of the
    parents, stays below the parents that are still to come. *)
Record slices (f : Z) (s1 s2 : list Z) (i1 i2 : nat) (q : list Z) : Prop := {
  sl_1 : StronglySorted Z.lt (drop i1 s1);
  sl_2 : StronglySorted Z.lt (drop i2 s2);
  sl_perm : q ≡ₚ drop i1 s1 ++ drop i2 s2;
  sl_len : (i2 ≤ length s2)%nat;
  sl_par : ∀ x y, x ∈ drop i2 s2 → y ∈ q → x < parent y f;
}.

(** The slice index Go returns: 0 for the first slice, 1 for the second. *)
Definition slice_no (b : bool) : Z := if b then 0 else 1.
Definition bump1 (b : bool) (i : nat) : nat := if b then S i else i.
Definition bump2 (b : bool) (i : nat) : nat := if b then i else S i.

Lemma nextLeastSlice_cons s1 s2 i1 i2 p q :
  StronglySorted Z.lt (drop i1 s1) → StronglySorted Z.lt (drop i2 s2) →
  StronglySorted Z.lt (p :: q) → p :: q ≡ₚ drop i1 s1 ++ drop i2 s2 →
  ∃ b, nextLeastSlice s1 s2 i1 i2 = slice_no b ∧
    (if b then s1 !! i1 else s2 !! i2) = Some p ∧
    q ≡ₚ drop (bump1 b i1) s1 ++ drop (bump2 b i2) s2.
Proof.
  intros Hs1 Hs2 Hq Hp.
  assert (Hmin : ∀ y, y ∈ drop i1 s1 ++ drop i2 s2 → p ≤ y).
  { intros y Hy. rewrite <- Hp in Hy. apply elem_of_cons in Hy as [->|Hy]; [lia|].
    pose proof (sorted_lt_head _ _ _ Hq Hy). lia. }
  assert (Hpin : p ∈ drop i1 s1 ++ drop i2 s2) by (rewrite <- Hp; by left).
  assert (Hnd : NoDup (drop i1 s1 ++ drop i2 s2)) by (rewrite <- Hp; by apply sorted_lt_nodup).
  unfold nextLeastSlice.
  destruct (s1 !! i1) as [a|] eqn:E1; destruct (s2 !! i2) as [b|] eqn:E2;
    rewrite ?(drop_S _ _ _ E1), ?(drop_S _ _ _ E2) in *;
    rewrite ?(drop_ge s1 i1), ?(drop_ge s2 i2) in * by (by apply lookup_ge_None);
    rewrite ?app_nil_r, ?app_nil_l in *.
  - assert (p ≤ a) by (apply Hmin; by left).
    assert (p ≤ b) by (apply Hmin; apply elem_of_app; right; by left).
    assert (a ≠ b).
    { intros ->. apply NoDup_app in Hnd as (_ & Hd & _). apply (Hd b); by left. }
    assert (p = a ∨ p = b) as Hpab.
    { apply elem_of_app in Hpin as [Hpin|Hpin]; apply elem_of_cons in Hpin as [->|Hpin]; auto.
      - pose proof (sorted_lt_head _ _ _ Hs1 Hpin). lia.
      - pose proof (sorted_lt_head _ _ _ Hs2 Hpin). lia. }
    destruct (Z.ltb_spec a b).
    + assert (p = a) as -> by lia. exists true. split; [done|split; [done|]]. simpl.
      rewrite (drop_S _ _ _ E2). by apply (Permutation_cons_inv (a:=a)).
    + assert (p = b) as -> by lia. exists false. split; [done|split; [done|]]. simpl.
      rewrite (drop_S _ _ _ E1). apply (Permutation_cons_inv (a:=b)).
      rewrite Hp. by rewrite <- Permutation_middle.
  - exists true. assert (p = a) as ->.
    { apply elem_of_cons in Hpin as [->|Hpin]; [done|].
      pose proof (sorted_lt_head _ _ _ Hs1 Hpin). pose proof (Hmin a ltac:(by left)). lia. }
    split; [done|split; [done|]]. simpl. rewrite (drop_ge s2 i2), app_nil_r by (by apply lookup_ge_None).
    by apply (Permutation_cons_inv (a:=a)).
  - exists false. assert (p = b) as ->.
    { apply elem_of_cons in Hpin as [->|Hpin]; [done|].
      pose proof (sorted_lt_head _ _ _ Hs2 Hpin). pose proof (Hmin b ltac:(by left)). lia. }
    split; [done|split; [done|]]. simpl. rewrite (drop_ge s1 i1) by (by apply lookup_ge_None).
    by apply (Permutation_cons_inv (a:=b)).
  - by apply not_elem_of_nil in Hpin.
Qed.

Lemma nextLeastSlice_nil s1 s2 i1 i2 : [] ≡ₚ drop i1 s1 ++ drop i2 s2 →
  nextLeastSlice s1 s2 i1 i2 = -1.
Proof.
  intros Hp%Permutation_nil_l. symmetry in Hp. apply app_nil in Hp as [H1 H2].
  unfold nextLeastSlice. destruct (s1 !! i1) eqn:E1; [by rewrite (drop_S _ _ _ E1) in H1|].
  destruct (s2 !! i2) eqn:E2; [by rewrite (drop_S _ _ _ E2) in H2|]. done.
Qed.

Lemma drop_sorted (l : list Z) i b :
  StronglySorted Z.lt (drop i l) → StronglySorted Z.lt (drop (bump1 b i) l).
Proof.
  destruct b; simpl; [|done]. intros Hs. destruct (l !! i) eqn:E.
  - rewrite (drop_S _ _ _ E) in Hs. by apply StronglySorted_inv in Hs as [? _].
  - rewrite drop_ge; [constructor|]. apply lookup_ge_None in E. lia.
Qed.

Lemma bump2_bump1 b i : bump2 b i = bump1 (negb b) i.
Proof. by destruct b. Qed.

(** What [getNextPos] returns: the least position left and where its sibling is. *)
Lemma getNextPos_cons f s1 s2 i1 i2 p q :
  slices f s1 s2 i1 i2 (p :: q) → StronglySorted Z.lt (p :: q) →
  ∃ b sibIdx, getNextPos s1 s2 i1 i2 = (p, slice_no b, sibIdx) ∧
    (if b then s1 !! i1 else s2 !! i2) = Some p ∧
    q ≡ₚ drop (bump1 b i1) s1 ++ drop (bump2 b i2) s2 ∧
    ((head q ≠ Some (rightSib p) ∧ sibIdx = -1) ∨
     ∃ rest c, q = rightSib p :: rest ∧ sibIdx = slice_no c ∧
       (if c then s1 !! bump1 b i1 else s2 !! bump2 b i2) = Some (rightSib p) ∧
       rest ≡ₚ drop (bump1 c (bump1 b i1)) s1 ++ drop (bump2 c (bump2 b i2)) s2).
Proof.
  intros [Hs1 Hs2 Hp _ _] Hq.
  destruct (nextLeastSlice_cons s1 s2 i1 i2 p q Hs1 Hs2 Hq Hp) as (b & Hb & Hl & Hp').
  unfold getNextPos. rewrite Hb.
  assert ((slice_no b =? 0) || (slice_no b =? 1) = true) as -> by by destruct b.
  assert ((slice_no b =? 0) = b) as -> by by destruct b.
  change (if b then S i1 else i1) with (bump1 b i1).
  change (if b then i2 else S i2) with (bump2 b i2).
  rewrite Hl. cbn [default from_option id]. exists b. eexists. split; [reflexivity|].
  split; [done|]. split; [done|].
  apply (drop_sorted _ _ b) in Hs1. apply (drop_sorted _ _ (negb b)) in Hs2.
  rewrite <- bump2_bump1 in Hs2.
  destruct q as [|s rest]; [left; split; [done|]; by rewrite nextLeastSlice_nil|].
  apply StronglySorted_inv in Hq as [Hq _].
  destruct (nextLeastSlice_cons _ _ _ _ s rest Hs1 Hs2 Hq Hp') as (c & -> & Hlc & Hpc).
  destruct (decide (s = rightSib p)) as [->|Hne].
  - right. exists rest, c. destruct c; simpl; rewrite Hlc; simpl; rewrite Z.eqb_refl; done.
  - left. split; [simpl; congruence|].
    destruct c; simpl; rewrite Hlc; simpl; rewrite (proj2 (Z.eqb_neq _ _)) by done; done.
Qed.

Lemma getNextPos_nil f s1 s2 i1 i2 : slices f s1 s2 i1 i2 [] →
  getNextPos s1 s2 i1 i2 = (0, -1, -1).
Proof. intros [_ _ Hp _ _]. unfold getNextPos. by rewrite nextLeastSlice_nil. Qed.

Lemma lookup_bump (s1 s2 : list Z) (i1 i2 : nat) (b : bool) p :
  (i2 ≤ length s2)%nat → (if b then s1 !! i1 else s2 !! i2) = Some p →
  (bump2 b i2 ≤ length s2)%nat.
Proof. intros ? Hl. destruct b; simpl; [done|]. apply lookup_lt_Some in Hl. lia. Qed.

Lemma elem_of_drop_bump (s : list Z) (i : nat) b x : x ∈ drop (bump2 b i) s → x ∈ drop i s.
Proof.
  destruct b; simpl; [done|]. intros Hx. replace (S i) with (i + 1)%nat in Hx by lia.
  rewrite <- drop_drop in Hx. by apply subseteq_drop in Hx.
Qed.

Lemma slices_drop f s1 s2 i1 i2 p q (b : bool) :
  slices f s1 s2 i1 i2 (p :: q) →
  (if b then s1 !! i1 else s2 !! i2) = Some p →
  q ≡ₚ drop (bump1 b i1) s1 ++ drop (bump2 b i2) s2 →
  slices f s1 s2 (bump1 b i1) (bump2 b i2) q.
Proof.
  intros [Hs1 Hs2 _ Hlen Hpar] Hl Hp. split.
  - by apply drop_sorted.
  - rewrite bump2_bump1. by apply drop_sorted.
  - done.
  - by eapply lookup_bump.
  - intros x y Hx Hy. apply Hpar; [by eapply elem_of_drop_bump|by right].
Qed.

(** Appending the parent of the position just taken keeps the relation. *)
Lemma slices_append n f s1 s2 i1 i2 p rest q' :
  fits n f → inF n f p → inF n f (parent p f) →
  (∀ x, x ∈ drop i2 s2 → x < parent p f) →
  (∀ y, y ∈ rest → inF n f y ∧ p < y ∧ y ≠ rightSib p) →
  slices f s1 s2 i1 i2 rest →
  q' ≡ₚ parent p f :: rest →
  slices f s1 (s2 ++ [parent p f]) i1 i2 q'.
Proof.
  intros Hfit Hp Hpp Hlow Hrest [Hs1 Hs2 Hperm Hlen Hpar] Hq'.
  assert (drop i2 (s2 ++ [parent p f]) = drop i2 s2 ++ [parent p f]) as Hdrop.
  { rewrite drop_app_le by done. done. }
  split; rewrite ?Hdrop; [done| | |rewrite length_app; simpl; lia|].
  - apply StronglySorted_app. repeat split; [|done|repeat constructor].
    intros x y Hx ->%list_elem_of_singleton. auto.
  - rewrite Hq', Hperm, app_assoc. by rewrite Permutation_cons_append.
  - intros x y Hx Hy. rewrite Hq' in Hy.
    apply elem_of_app in Hx as [Hx|Hx%list_elem_of_singleton];
      apply elem_of_cons in Hy as [->|Hy].
    + pose proof (parent_gt n f _ Hfit Hpp). pose proof (Hlow x Hx). lia.
    + auto.
    + subst x. by apply (parent_gt n).
    + subst x. destruct (Hrest y Hy) as (? & ? & ?). by apply (parent_mono n).
Qed.

(** One step of either loop: the state after the position [p], and its sibling if
    it was in the worklist, have been replaced by the parent. *)
Lemma slices_step n f s1 s2 i1 i2 j1 j2 p q rest q' :
  fits n f → pending n f (p :: q) → root_at n f p = false →
  rest `sublist_of` q → rightSib p ∉ rest →
  slices f s1 s2 i1 i2 (p :: q) →
  slices f s1 s2 j1 j2 rest → (∀ x, x ∈ drop j2 s2 → x ∈ drop i2 s2) →
  StronglySorted Z.lt q' → q' ≡ₚ parent p f :: rest →
  pending n f q' ∧ slices f s1 (s2 ++ [parent p f]) j1 j2 q' ∧
  (∀ y, y ∈ q' → rowOf f p ≤ rowOf f y).
Proof.
  intros Hfit Hpd Hroot Hsub Hnot Hsl Hsl' Hdrop Hs' Hq'.
  pose proof Hpd as [Hs Hin Hanti].
  assert (inF n f p) as Hp by (apply Hin; by left).
  assert (inF n f (parent p f)) as Hpp.
  { destruct (inF_family n f p) as (r & o & _ & _ & _ & _ & _ & -> & ? & _); try done.
    by eexists _, _. }
  assert (Hrest : ∀ y, y ∈ rest → y ∈ q ∧ y ≠ rightSib p).
  { intros y Hy. split; [by eapply sublist_subseteq|]. by intros ->. }
  assert (Hlt : ∀ y, y ∈ rest → inF n f y ∧ p < y ∧ y ≠ rightSib p).
  { intros y Hy. destruct (Hrest y Hy). repeat split; [apply Hin; by right| |done].
    by eapply sorted_lt_head. }
  split; [by eapply pending_step|]. split.
  { eapply slices_append; try done. intros x Hx. apply (sl_par _ _ _ _ _ _ Hsl); [auto|by left]. }
  intros y Hy. rewrite Hq' in Hy. apply (row_mono n); [done|done| |].
  - apply elem_of_cons in Hy as [->|Hy]; [done|]. by apply Hlt.
  - apply elem_of_cons in Hy as [->|Hy]; [by apply (parent_gt n)|]. by apply Hlt.
Qed.

Lemma slices_step_pair n f s1 s2 i1 i2 (b c : bool) p rest q' :
  fits n f → pending n f (p :: rightSib p :: rest) → root_at n f p = false →
  slices f s1 s2 i1 i2 (p :: rightSib p :: rest) →
  (if b then s1 !! i1 else s2 !! i2) = Some p →
  rightSib p :: rest ≡ₚ drop (bump1 b i1) s1 ++ drop (bump2 b i2) s2 →
  (if c then s1 !! bump1 b i1 else s2 !! bump2 b i2) = Some (rightSib p) →
  rest ≡ₚ drop (bump1 c (bump1 b i1)) s1 ++ drop (bump2 c (bump2 b i2)) s2 →
  StronglySorted Z.lt q' → q' ≡ₚ parent p f :: rest →
  pending n f q' ∧
  slices f s1 (s2 ++ [parent p f]) (bump1 c (bump1 b i1)) (bump2 c (bump2 b i2)) q' ∧
  (∀ y, y ∈ q' → rowOf f p ≤ rowOf f y).
Proof.
  intros Hfit Hpd Hroot Hsl Hb Hpb Hc Hpc Hs' Hq'.
  eapply (slices_step n f s1 s2 i1 i2 _ _ p (rightSib p :: rest) rest); try done.
  - by constructor.
  - destruct Hpd as [Hs _ _]. apply StronglySorted_inv in Hs as [Hs _].
    apply sorted_lt_nodup, NoDup_cons in Hs. tauto.
  - eapply slices_drop; [by eapply slices_drop|done|done].
  - intros x Hx. by do 2 eapply elem_of_drop_bump.
Qed.

Lemma slices_step_sib n f s1 s2 i1 i2 (b : bool) p q q' :
  fits n f → pending n f (p :: q) → root_at n f p = false → head q ≠ Some (rightSib p) →
  slices f s1 s2 i1 i2 (p :: q) →
  (if b then s1 !! i1 else s2 !! i2) = Some p →
  q ≡ₚ drop (bump1 b i1) s1 ++ drop (bump2 b i2) s2 →
  StronglySorted Z.lt q' → q' ≡ₚ parent p f :: q →
  pending n f q' ∧ slices f s1 (s2 ++ [parent p f]) (bump1 b i1) (bump2 b i2) q' ∧
  (∀ y, y ∈ q' → rowOf f p ≤ rowOf f y).
Proof.
  intros Hfit Hpd Hroot Hhd Hsl Hb Hpb Hs' Hq'.
  eapply (slices_step n f s1 s2 i1 i2 _ _ p q q); try done.
  - intros Hin. apply Hhd, sib_is_head; [apply Hpd|done].
  - by eapply slices_drop.
  - intros x Hx. by eapply elem_of_drop_bump.
Qed.

(** [advanceRow] stops on the row of the position. *)
Lemma advanceRow_npos fuel f r o row : valid f r o → 0 ≤ row ≤ r →
  (Z.to_nat (r - row) < fuel)%nat → advanceRow fuel (npos f r o) row f = r.
Proof.
  intros Hv. pose proof Hv as (? & ? & ?). revert row.
  induction fuel as [|fuel IH]; intros row Hrow Hfuel; [lia|]. cbn [advanceRow].
  rewrite maxPossiblePosAtRow_eq, (proj2 (Z.leb_le row f)), andb_true_r by lia.
  destruct (Z.eq_dec row r) as [->|].
  - rewrite (proj2 (Z.ltb_ge _ _)); [done|]. rewrite npos_row_succ by lia. unfold npos. lia.
  - pose proof (npos_row_mono f (row + 1) r).
    rewrite (proj2 (Z.ltb_lt _ _)) by (unfold npos in *; lia).
    rewrite u8_small by lia. apply IH; lia.
Qed.

(** ** [proofPositions] follows the walk *)

Lemma proofPositions_loop_walk n f q tr : fits n f → walk n f q tr → pending n f q →
  ∀ fuel s1 s2 i1 i2 row proofs,
  slices f s1 s2 i1 i2 q → 0 ≤ row ≤ f → (∀ p, p ∈ q → row ≤ rowOf f p) →
  (length tr < fuel)%nat →
  proofPositions_loop fuel s1 s2 i1 i2 row proofs n f = Ok (proofs ++ sibs tr, s2 ++ parents f tr).
Proof.
  intros Hfit Hw. induction Hw as [|p q tr Hroot Hw IH|p q q' tr Hroot Hs' Hq' Hw IH
    |p q q' tr Hroot Hhd Hs' Hq' Hw IH];
    intros Hpd fuel s1 s2 i1 i2 row proofs Hsl Hrow Hlow Hfuel;
    (destruct fuel as [|fuel]; [simpl in Hfuel; lia|]); cbn [proofPositions_loop];
    rewrite (proj2 (Z.leb_le row f)) by lia.
  { rewrite (getNextPos_nil f) by done. by rewrite !app_nil_r. }
  all: pose proof Hpd as [Hsort Hin Hanti];
    destruct (getNextPos_cons f s1 s2 i1 i2 _ _ Hsl Hsort)
      as (b & sibIdx & -> & Hl & Hperm & Hsib);
    assert ((slice_no b =? -1) = false) as -> by (by destruct b);
    assert ((slice_no b =? 0) = b) as -> by (by destruct b);
    change (if b then S i1 else i1) with (bump1 b i1);
    change (if b then i2 else S i2) with (bump2 b i2);
    assert (inF n f p) as Hp by (apply Hin; by left);
    pose proof Hp as (r & o & Heq & Hino);
    pose proof (in_forest_valid n f r o Hfit Hino) as Hv; pose proof Hv as (? & ? & ?);
    assert (row ≤ r) by (specialize (Hlow p ltac:(by left)); by rewrite Heq, rowOf_npos in Hlow);
    assert (advanceRow 257 p row f = r) as -> by (rewrite Heq; apply advanceRow_npos; done || lia);
    rewrite (proj2 (Z.ltb_ge f r)) by lia;
    replace (isRootPositionOnRowTotalRows p n r f) with (root_at n f p)
      by (rewrite Heq, isRootPositionOnRowTotalRows_npos by done; by rewrite root_at_npos);
    rewrite Hroot.
  - apply IH; [by eapply pending_tail|by eapply slices_drop|lia| |simpl in Hfuel; lia].
    intros y Hy. rewrite <- (rowOf_npos f r o Hv), <- Heq.
    apply (row_mono n); try done; [apply Hin; by right|by eapply sorted_lt_head].
  - destruct Hsib as [[Hne _]|(rest & c & [= <-] & -> & Hc & Hpc)]; [done|].
    destruct (slices_step_pair n f s1 s2 i1 i2 b c p q q') as (? & ? & Hrows); try done.
    rewrite Heq, rowOf_npos in Hrows by done.
    assert ((slice_no c =? 0) = c) as -> by (by destruct c).
    assert ((slice_no c =? -1) = false) as -> by (by destruct c).
    replace (if slice_no c =? 1 then S (bump2 b i2) else bump2 b i2)
      with (bump2 c (bump2 b i2)) by (by destruct c).
    change (if c then S (bump1 b i1) else bump1 b i1) with (bump1 c (bump1 b i1)).
    rewrite IH; try (done || lia); [|simpl in Hfuel; lia].
    simpl. by rewrite <- app_assoc.
  - destruct Hsib as [[_ ->]|(rest & c & -> & _)]; [|done].
    destruct (slices_step_sib n f s1 s2 i1 i2 b p q q') as (? & ? & Hrows); try done.
    rewrite Heq, rowOf_npos in Hrows by done. cbn [Z.eqb Pos.eqb negb].
    rewrite IH; try (done || lia); [|simpl in Hfuel; lia].
    simpl. by rewrite <- !app_assoc.
Qed.

Lemma slices_init f targets : StronglySorted Z.lt targets → slices f targets [] 0 0 targets.
Proof.
  intros Hs. split; simpl; rewrite ?drop_0, ?app_nil_r; [done|constructor|done|lia|].
  intros x y Hx. by apply not_elem_of_nil in Hx.
Qed.

Lemma rowOf_nonneg n f p : fits n f → inF n f p → 0 ≤ rowOf f p.
Proof.
  intros Hfit (r & o & -> & Hin). pose proof (in_forest_valid n f r o Hfit Hin) as Hv.
  rewrite rowOf_npos by done. destruct Hv as (? & ? & ?). lia.
Qed.

(** Enough fuel for the walk of a worklist. *)
Lemma walk_fuel_enough n f q (tr : list step) : fits n f → pending n f q →
  (length tr ≤ weight f q)%nat → (length tr < walk_fuel q f)%nat.
Proof.
  intros Hfit Hpd Hlen. pose proof (weight_bound n f q Hfit (pd_in _ _ _ Hpd)).
  unfold walk_fuel. destruct Hfit as [_ ?]. nia.
Qed.

Lemma proofPositions_walk n f targets : fits n f → pending n f targets →
  ∃ tr, walk n f targets tr ∧ (length tr < walk_fuel targets f)%nat ∧
    proofPositions targets n f = Ok (sibs tr, parents f tr).
Proof.
  intros Hfit Hpd. destruct (walk_exists n f targets Hfit Hpd) as (tr & Hw & Hlen).
  pose proof (walk_fuel_enough n f targets tr Hfit Hpd Hlen).
  exists tr. split; [done|]. split; [done|]. unfold proofPositions.
  rewrite (proofPositions_loop_walk n f targets tr); try done.
  - apply slices_init, Hpd.
  - destruct Hfit. lia.
  - intros p Hp. eapply rowOf_nonneg; [done|]. by apply Hpd.
Qed.

(** The walk of a worklist is unique. *)
Lemma walk_det n f q tr tr' : walk n f q tr → walk n f q tr' → tr = tr'.
Proof.
  intros Hw. revert tr'. induction Hw as [|p q tr Hroot Hw IH|p q q' tr Hroot Hs Hq' Hw IH
    |p q q' tr Hroot Hhd Hs Hq' Hw IH]; intros tr' Hw'; inversion Hw'; subst; try done;
    try congruence; f_equal; auto.
  - apply IH. assert (q' = q'0) as ->; [|done].
    apply sorted_lt_unique; [done|done|]. by etrans; [|symmetry].
  - apply IH. assert (q' = q'0) as ->; [|done].
    apply sorted_lt_unique; [done|done|]. by etrans; [|symmetry].
Qed.

(** ** What the walk visits *)

(** [x] is one of the targets [T] or above one of them. *)
Definition onpath (f : Z) (T : list Z) (x : Z) : Prop :=
  ∃ t, t ∈ T ∧ (x = t ∨ isAncestor x t f = true).

Lemma onpath_cons f p T x :
  onpath f (p :: T) x ↔ (x = p ∨ isAncestor x p f = true) ∨ onpath f T x.
Proof.
  unfold onpath. setoid_rewrite elem_of_cons. split.
  - intros (t & [->|?] & ?); [by left|]. right. eauto.
  - intros [?|(t & ? & ?)]; eauto.
Qed.

Lemma onpath_perm f T T' x : T ≡ₚ T' → onpath f T x ↔ onpath f T' x.
Proof. intros Hp. unfold onpath. by setoid_rewrite Hp. Qed.

Lemma anc_lt n f x t : fits n f → inF n f x → inF n f t → isAncestor x t f = true →
  t < x ∧ rowOf f t < rowOf f x.
Proof.
  intros Hfit (r & o & -> & Hin) (r' & o' & -> & Hin').
  pose proof (in_forest_valid n f r o Hfit Hin). pose proof (in_forest_valid n f r' o' Hfit Hin').
  rewrite isAncestor_npos, !rowOf_npos by done. intros [?%Z.ltb_lt _]%andb_true_iff.
  split; [by apply npos_lt_row|done].
Qed.

Lemma anc_parent n f x p : fits n f → inF n f x → inF n f p → root_at n f p = false →
  isAncestor x p f = true ↔ x = parent p f ∨ isAncestor x (parent p f) f = true.
Proof.
  intros Hfit (rx & ox & -> & Hinx) Hp Hroot.
  pose proof (in_forest_valid n f rx ox Hfit Hinx) as Hvx.
  destruct (inF_family n f p) as (r & o & -> & _ & Hv & Hrf & _ & -> & _ & Hvp & _); try done.
  rewrite !isAncestor_npos by done. rewrite !andb_true_iff, !Z.ltb_lt, !Z.eqb_eq.
  change (o / 2) with (o / 2 ^ 1). split.
  - intros [Hr ->]. destruct (Z.eq_dec rx (r + 1)) as [->|].
    + left. by replace (r + 1 - r) with 1 by lia.
    + right. split; [lia|]. rewrite div_div_pow2 by lia. do 2 f_equal. lia.
  - intros [Heq|[? ->]].
    + apply npos_inj in Heq as [-> ->]; [|done..]. split; [lia|].
      by replace (r + 1 - r) with 1 by lia.
    + split; [lia|]. rewrite div_div_pow2 by lia. do 2 f_equal. lia.
Qed.

Lemma anc_trans n f x y z : fits n f → inF n f x → inF n f y → inF n f z →
  isAncestor x y f = true → isAncestor y z f = true → isAncestor x z f = true.
Proof.
  intros Hfit (rx & ox & -> & Hx) (ry & oy & -> & Hy) (rz & oz & -> & Hz).
  pose proof (in_forest_valid n f _ _ Hfit Hx). pose proof (in_forest_valid n f _ _ Hfit Hy).
  pose proof (in_forest_valid n f _ _ Hfit Hz).
  rewrite !isAncestor_npos by done. rewrite !andb_true_iff, !Z.ltb_lt, !Z.eqb_eq.
  intros [? ->] [? ->]. split; [lia|]. rewrite div_div_pow2 by lia. do 2 f_equal. lia.
Qed.

Lemma anc_root n f x p : fits n f → inF n f x → inF n f p → root_at n f p = true →
  isAncestor x p f = false.
Proof.
  intros Hfit (rx & ox & -> & Hinx) (r & o & -> & Hin) Hroot.
  pose proof (in_forest_valid n f rx ox Hfit Hinx). pose proof (in_forest_valid n f r o Hfit Hin) as Hv.
  rewrite root_at_npos in Hroot by done. rewrite isAncestor_npos by done.
  apply not_true_is_false. rewrite andb_true_iff, Z.ltb_lt, Z.eqb_eq. intros [Hr ->].
  destruct Hv as (? & ? & ?).
  apply (root_parent_out n r o); [lia|done|].
  apply (in_forest_desc n _ _ (rx - (r + 1))); [lia|apply Z.div_pos; lia|lia|].
  change (o / 2) with (o / 2 ^ 1). rewrite div_div_pow2 by lia.
  replace (1 + (rx - (r + 1))) with (rx - r) by lia. by replace (r + 1 + (rx - (r + 1))) with rx by lia.
Qed.

(** A position that is not larger than everything in the list is above nothing in it. *)
Lemma not_anc_later n f p x y : fits n f → inF n f p → inF n f x → inF n f y →
  rowOf f x = rowOf f p → p < y → isAncestor x y f = false.
Proof.
  intros Hfit Hp Hx Hy Hrow Hlt. apply not_true_is_false. intros Hanc.
  destruct (anc_lt n f x y) as [_ ?]; try done.
  pose proof (row_mono n f p y Hfit Hp Hy Hlt). lia.
Qed.

Lemma sibling_invol p : sibling (sibling p) = p.
Proof. unfold sibling. by rewrite Z.lxor_assoc, Z.lxor_nilpotent, Z.lxor_0_r. Qed.

Lemma sibling_rightSib p : Z.even p = true → sibling p = rightSib p.
Proof. intros He. by rewrite sibling_eq, rightSib_eq, He. Qed.

(** The family of a non-root position, at the level of positions. *)
Lemma sibling_props n f p : fits n f → inF n f p → root_at n f p = false →
  inF n f (sibling p) ∧ inF n f (parent p f) ∧ rowOf f (sibling p) = rowOf f p ∧
  root_at n f (sibling p) = false ∧ parent (sibling p) f = parent p f.
Proof.
  intros Hfit Hp Hroot.
  destruct (inF_family n f p) as (r & o & -> & Hin & Hv & Hrf & Hr & Hpar & Hinp & Hvp & Hsib & Hins & _);
    try done.
  pose proof (in_forest_valid n f _ _ Hfit Hins) as Hvs.
  assert (sibling o / 2 = o / 2) as Hhalf.
  { rewrite sibling_eq. pose proof (Zmod_even o). pose proof (Z.div_mod o 2).
    symmetry. destruct (Z.even o).
    - apply (Z.div_unique _ _ _ 1); lia.
    - apply (Z.div_unique _ _ _ 0); lia. }
  rewrite Hsib. repeat split.
  - by eexists _, _.
  - rewrite Hpar. by eexists _, _.
  - by rewrite !rowOf_npos.
  - rewrite root_at_npos by done. apply not_true_is_false. intros Hroots.
    apply (root_parent_out n r (sibling o)); [by destruct Hin|done|]. by rewrite Hhalf.
  - by rewrite !parent_npos, Hhalf by done.
Qed.

(** ** The path of one step *)

Section Path.
Context (n f : Z) (Hfit : fits n f).

(** Strictly above one of the targets [T]. *)
Definition above (T : list Z) (x : Z) : Prop := ∃ t, t ∈ T ∧ isAncestor x t f = true.

(** A position whose hash the targets [T] do not determine, next to one that they do. *)
Definition needed (T : list Z) (x : Z) : Prop :=
  inF n f x ∧ root_at n f x = false ∧ onpath f T (sibling x) ∧ ¬ onpath f T x.

Lemma above_cons p T x : above (p :: T) x ↔ isAncestor x p f = true ∨ above T x.
Proof.
  unfold above. setoid_rewrite elem_of_cons. split.
  - intros (t & [->|?] & ?); [by left|]. right. eauto.
  - intros [?|(t & ? & ?)]; eauto.
Qed.

Lemma above_perm T T' x : T ≡ₚ T' → above T x ↔ above T' x.
Proof. intros Hp. unfold above. by setoid_rewrite Hp. Qed.

Lemma onpath_root p q x : inF n f x → inF n f p → root_at n f p = true →
  onpath f (p :: q) x ↔ x = p ∨ onpath f q x.
Proof.
  intros Hx Hp Hroot. rewrite onpath_cons, (anc_root n f x p) by done. split; [|tauto].
  intros [[?|?]|?]; tauto || done.
Qed.

Lemma onpath_step p q q' x : inF n f x → inF n f p → root_at n f p = false →
  q' ≡ₚ parent p f :: q → onpath f (p :: q) x ↔ x = p ∨ onpath f q' x.
Proof.
  intros Hx Hp Hroot Hperm. rewrite (onpath_perm f _ _ x Hperm), !onpath_cons.
  rewrite (anc_parent n f x p) by done. tauto.
Qed.

Lemma rightSib_family p : root_at n f p = false → inF n f p → p < rightSib p →
  rightSib p = sibling p ∧ inF n f (rightSib p) ∧ root_at n f (rightSib p) = false ∧
  parent (rightSib p) f = parent p f.
Proof.
  intros Hroot Hp Hlt. destruct (sibling_props n f p) as (? & _ & _ & ? & ?); try done.
  rewrite rightSib_eq in Hlt. rewrite <- sibling_rightSib; [done|].
  destruct (Z.even p); [done|lia].
Qed.

Lemma onpath_pair p q q' x : inF n f x → inF n f p → root_at n f p = false → p < rightSib p →
  q' ≡ₚ parent p f :: q →
  onpath f (p :: rightSib p :: q) x ↔ x = p ∨ x = sibling p ∨ onpath f q' x.
Proof.
  intros Hx Hp Hroot Hlt Hperm.
  destruct (rightSib_family p) as (Heq & Hins & Hroots & Hpar); try done.
  rewrite (onpath_perm f _ _ x Hperm), !onpath_cons.
  rewrite (anc_parent n f x p), (anc_parent n f x (rightSib p)), Hpar, Heq by done. tauto.
Qed.

(** After the step neither the position nor its sibling is on the path any more. *)
Lemma not_onpath_next p q rest q' y : pending n f (p :: q) → root_at n f p = false →
  rest ⊆ q → q' ≡ₚ parent p f :: rest → y = p ∨ y = sibling p → y ∉ rest →
  ¬ onpath f q' y.
Proof.
  intros [Hs Hin _] Hroot Hsub Hperm Hy Hnot.
  assert (inF n f p) as Hp by (apply Hin; by left).
  destruct (sibling_props n f p) as (? & Hpp & Hrow & _); try done.
  assert (inF n f y ∧ rowOf f y = rowOf f p) as [Hiny Hrowy] by (by destruct Hy as [-> | ->]).
  assert (rowOf f p < rowOf f (parent p f)).
  { destruct (inF_family n f p) as (r & o & -> & _ & ? & _ & _ & -> & _ & ? & _); try done.
    rewrite !rowOf_npos by done. lia. }
  rewrite (onpath_perm f _ _ y Hperm), onpath_cons. intros [[->|Hanc]|(t & Ht & [->|Hanc])].
  - lia.
  - apply (anc_lt n) in Hanc; [lia|done..].
  - done.
  - assert (t ∈ q) as Htq by (by apply Hsub).
    rewrite (not_anc_later n f p y t) in Hanc; try done; [apply Hin; by right|].
    by eapply sorted_lt_head.
Qed.

(** A position on the path of the rest lies past the family of [p], as does its sibling. *)
Lemma later_sibling p w : inF n f p → root_at n f p = false → inF n f w →
  root_at n f w = false → p < w → w ≠ rightSib p → sibling p < sibling w.
Proof.
  intros Hp Hroot Hw Hrootw Hlt Hne. pose proof (parent_mono n f p w Hfit Hp Hw Hlt Hne) as Hpar.
  destruct (sibling_props n f p) as (Hsp & _ & _ & _ & Hpsp); try done.
  destruct (sibling_props n f w) as (Hsw & _ & _ & _ & Hpsw); try done.
  rewrite <- Hpsp, <- Hpsw in Hpar. rewrite !(parent_half n) in Hpar by done.
  destruct (Z.lt_ge_cases (sibling p) (sibling w)) as [|Hge]; [done|].
  pose proof (Z.div_le_mono _ _ 2 ltac:(lia) Hge). lia.
Qed.

Lemma onpath_ge q x : inF n f x → (∀ y, y ∈ q → inF n f y) → onpath f q x →
  ∃ t, t ∈ q ∧ t ≤ x.
Proof.
  intros Hx Hin (t & Ht & [->|Hanc]); [by exists t|]. exists t. split; [done|].
  apply (anc_lt n) in Hanc; [lia|done|done|auto].
Qed.

(** The two shapes of the worklist after a step, for inductions on the walk. *)
Lemma pending_pair p q q' : pending n f (p :: rightSib p :: q) → root_at n f p = false →
  StronglySorted Z.lt q' → q' ≡ₚ parent p f :: q →
  pending n f q' ∧ p < rightSib p ∧ (p ∉ q) ∧ (rightSib p ∉ q).
Proof.
  intros Hpd Hroot Hs' Hperm. pose proof (pd_sorted _ _ _ Hpd) as Hs.
  pose proof (sorted_lt_head _ _ (rightSib p) Hs ltac:(by left)).
  apply sorted_lt_nodup, NoDup_cons in Hs as [Hp Hs]. apply NoDup_cons in Hs as [Hr _].
  split; [|apply not_elem_of_cons in Hp as [_ ?]; by repeat split].
  eapply (pending_step n f p _ q); try done. intros y Hy. split; [by right|]. by intros ->.
Qed.

Lemma pending_sib p q q' : pending n f (p :: q) → root_at n f p = false →
  head q ≠ Some (rightSib p) → StronglySorted Z.lt q' → q' ≡ₚ parent p f :: q →
  pending n f q' ∧ (p ∉ q) ∧ (rightSib p ∉ q) ∧ (sibling p ∉ q).
Proof.
  intros Hpd Hroot Hhd Hs' Hperm. pose proof (pd_sorted _ _ _ Hpd) as Hs.
  assert (p ∉ q) by (by apply sorted_lt_nodup, NoDup_cons in Hs as [? _]).
  assert (rightSib p ∉ q) by (intros ?; apply Hhd; by apply sib_is_head).
  split; [|split; [done|split; [done|]]].
  - eapply (pending_step n f p _ q); try done. intros y Hy. split; [done|]. by intros ->.
  - intros Hsib. pose proof (sorted_lt_head _ _ _ Hs Hsib) as Hlt.
    rewrite sibling_eq in Hlt. destruct (Z.even p) eqn:He; [|lia].
    by rewrite sibling_rightSib in Hsib by done.
Qed.

(** The parents computed are the positions strictly above the targets. *)
Lemma parents_above q tr x : walk n f q tr → pending n f q →
  x ∈ parents f tr ↔ inF n f x ∧ above q x.
Proof.
  induction 1 as [|p q tr Hroot Hw IH|p q q' tr Hroot Hs' Hq' Hw IH
    |p q q' tr Hroot Hhd Hs' Hq' Hw IH]; intros Hpd; simpl.
  - split; [by intros ?%not_elem_of_nil|]. intros (_ & t & ?%not_elem_of_nil & _). done.
  - rewrite IH by (by eapply pending_tail).
    assert (inF n f p) by (apply Hpd; by left). rewrite above_cons. split; [tauto|].
    intros [Hx [Hanc|?]]; [|done]. by rewrite (anc_root n f x p) in Hanc.
  - destruct (pending_pair p q q') as (Hpd' & Hlt & _); try done.
    assert (inF n f p) as Hp by (apply Hpd; by left).
    destruct (rightSib_family p) as (Heq & Hins & Hroots & Hpar); try done.
    destruct (sibling_props n f p) as (_ & Hinp & _); try done.
    rewrite elem_of_cons, IH, (above_perm _ _ x Hq'), !above_cons by done. split.
    + intros [->|[Hx Ha]]; (split; [done|]).
      * left. apply (anc_parent n); try done. by left.
      * destruct Ha as [Ha|Ha]; [|tauto]. left. apply (anc_parent n); try done. by right.
    + intros [Hx Ha]. rewrite (anc_parent n f x p), (anc_parent n f x (rightSib p)), Hpar in Ha by done.
      tauto.
  - destruct (pending_sib p q q') as (Hpd' & _); try done.
    assert (inF n f p) as Hp by (apply Hpd; by left).
    destruct (sibling_props n f p) as (_ & Hinp & _); try done.
    rewrite elem_of_cons, IH, (above_perm _ _ x Hq'), !above_cons by done. split.
    + intros [->|[Hx Ha]]; (split; [done|]).
      * left. apply (anc_parent n); try done. by left.
      * destruct Ha as [Ha|Ha]; [|tauto]. left. apply (anc_parent n); try done. by right.
    + intros [Hx Ha]. rewrite (anc_parent n f x p) in Ha by done. tauto.
Qed.

(** The positions the walk asks the proof for are the needed ones. *)
Lemma sibs_needed q tr x : walk n f q tr → pending n f q →
  x ∈ sibs tr ↔ needed q x.
Proof.
  unfold needed. induction 1 as [|p q tr Hroot Hw IH|p q q' tr Hroot Hs' Hq' Hw IH
    |p q q' tr Hroot Hhd Hs' Hq' Hw IH]; intros Hpd; simpl.
  - split; [by intros ?%not_elem_of_nil|]. intros (_ & _ & (t & ?%not_elem_of_nil & _) & _). done.
  - rewrite IH by (by eapply pending_tail). assert (inF n f p) by (apply Hpd; by left).
    split; intros (Hx & Hrx & Hon & Hoff);
      (destruct (sibling_props n f x) as (Hsx & _ & _ & Hrsx & _); [done..|]);
      rewrite !onpath_root in * by done; repeat split; try done.
    + by right.
    + intros [->|?]; congruence || done.
    + destruct Hon as [Hon|?]; [|done]. congruence.
    + tauto.
  - destruct (pending_pair p q q') as (Hpd' & Hlt & Hnp & Hnr); try done. rewrite IH by done.
    assert (inF n f p) as Hp by (apply Hpd; by left).
    destruct (rightSib_family p) as (Heq & _); try done.
    assert (∀ y, y = p ∨ y = sibling p → ¬ onpath f q' y) as Hnot.
    { intros y Hy. eapply (not_onpath_next p _ q); try done; [by right|].
      by destruct Hy as [-> | ->]; rewrite ?Heq in *. }
    split; intros (Hx & Hrx & Hon & Hoff);
      (destruct (sibling_props n f x) as (Hsx & _ & _ & Hrsx & _); [done..|]);
      rewrite !(onpath_pair p q q') in * by done; repeat split; try done.
    + tauto.
    + intros [-> |[-> |?]]; [| |done]; (eapply Hnot; [|exact Hon]).
      * by right.
      * left. apply sibling_invol.
    + destruct Hon as [Hon|[Hon|?]]; [exfalso..|done]; apply Hoff.
      * right; left. by rewrite <- Hon, sibling_invol.
      * left. by rewrite <- (sibling_invol x), Hon, sibling_invol.
    + tauto.
  - destruct (pending_sib p q q') as (Hpd' & Hnp & Hnr & Hns); try done.
    rewrite elem_of_cons, IH by done.
    assert (inF n f p) as Hp by (apply Hpd; by left).
    destruct (sibling_props n f p) as (Hinp & _ & _ & Hrp & _); try done.
    assert (∀ y, y = p ∨ y = sibling p → ¬ onpath f q' y) as Hnot.
    { intros y Hy. eapply (not_onpath_next p _ q); try done. by destruct Hy as [-> | ->]. }
    split.
    + intros [->|(Hx & Hrx & Hon & Hoff)].
      * repeat split; try done; rewrite !(onpath_step p q q') by (by rewrite ?sibling_invol).
        -- left. apply sibling_invol.
        -- intros [Hbad|?]; [|by eapply Hnot; [right|]].
           rewrite sibling_eq in Hbad. destruct (Z.even p); lia.
      * destruct (sibling_props n f x) as (Hsx & _ & _ & Hrsx & _); [done..|].
        rewrite !(onpath_step p q q') by done. repeat split; [done|done|by right|].
        intros [->|?]; [|done]. by apply (Hnot (sibling p)); [right|].
    + intros (Hx & Hrx & Hon & Hoff).
      destruct (sibling_props n f x) as (Hsx & _ & _ & Hrsx & _); [done..|].
      rewrite !(onpath_step p q q') in * by done. destruct Hon as [Hon|Hon]; [left|right; tauto].
      by rewrite <- Hon, sibling_invol.
Qed.

Lemma above_ge p q x : inF n f p → inF n f x → (∀ y, y ∈ q → inF n f y ∧ p < y ∧ y ≠ rightSib p) →
  above q x → parent p f < x.
Proof.
  intros Hp Hx Hq (y & Hy & Hanc). destruct (Hq y Hy) as (Hin & Hlt & Hne).
  pose proof (parent_mono n f p y Hfit Hp Hin Hlt Hne).
  destruct (root_at n f y) eqn:Hroot; [by rewrite (anc_root n f x y) in Hanc|].
  apply (anc_parent n) in Hanc as [->|Hanc]; try done.
  destruct (sibling_props n f y) as (_ & ? & _); try done.
  apply (anc_lt n) in Hanc; [lia|done..].
Qed.

Lemma later_needed p q q' x : inF n f p → root_at n f p = false →
  (∀ y, y ∈ q → inF n f y ∧ p < y) → q' ≡ₚ parent p f :: q →
  (∀ y, y = p ∨ y = sibling p → ¬ onpath f q' y) →
  needed q' x → sibling p < x.
Proof.
  intros Hp Hroot Hq Hperm Hnot (Hx & Hrx & Hon & Hoff).
  destruct (sibling_props n f x) as (Hsx & _ & _ & Hrsx & _); try done.
  destruct (sibling_props n f p) as (_ & Hpp & _); try done.
  pose proof (parent_gt n f p Hfit Hp).
  destruct (onpath_ge q' (sibling x)) as (t & Ht & Hle); [done| |done|].
  { intros y Hy. rewrite Hperm in Hy. apply elem_of_cons in Hy as [->|?]; [done|]. by apply Hq. }
  assert (p < t).
  { rewrite Hperm in Ht. apply elem_of_cons in Ht as [->|Ht]; [done|]. by apply Hq. }
  rewrite <- (sibling_invol x). apply later_sibling; try done; [lia|].
  intros Heq. rewrite rightSib_eq in Heq. apply (Hnot (sibling x)); [|done].
  rewrite (sibling_eq p), Heq. destruct (Z.even p); auto.
Qed.

Lemma pending_rest p q y : pending n f (p :: q) → y ∈ q → inF n f y ∧ p < y.
Proof.
  intros [Hs Hin _] Hy. split; [apply Hin; by right|]. by eapply sorted_lt_head.
Qed.

(** Both lists come out strictly sorted. *)
Lemma walk_sorted q tr : walk n f q tr → pending n f q →
  StronglySorted Z.lt (parents f tr) ∧ StronglySorted Z.lt (sibs tr).
Proof.
  induction 1 as [|p q tr Hroot Hw IH|p q q' tr Hroot Hs' Hq' Hw IH
    |p q q' tr Hroot Hhd Hs' Hq' Hw IH]; intros Hpd; simpl.
  - split; constructor.
  - by apply IH; eapply pending_tail.
  - destruct (pending_pair p q q') as (Hpd' & Hlt & Hnp & Hnr); try done.
    assert (inF n f p) as Hp by (apply Hpd; by left). destruct (IH Hpd') as [Hsp Hss].
    split; [|done]. constructor; [done|]. apply Forall_forall. intros x.
    rewrite (parents_above _ _ x Hw Hpd'), (above_perm _ _ x Hq'), above_cons.
    intros [Hx [Hanc|Ha]].
    + apply (anc_lt n) in Hanc; [lia|done|done|]. by apply (sibling_props n f p).
    + apply (above_ge p q); try done. intros y Hy.
      destruct (pending_rest p (rightSib p :: q) y Hpd); [by right|].
      split; [done|]. split; [done|]. by intros ->.
  - destruct (pending_sib p q q') as (Hpd' & Hnp & Hnr & Hns); try done.
    assert (inF n f p) as Hp by (apply Hpd; by left). destruct (IH Hpd') as [Hsp Hss].
    split; (constructor; [done|]); apply Forall_forall; intros x.
    + rewrite (parents_above _ _ x Hw Hpd'), (above_perm _ _ x Hq'), above_cons.
      intros [Hx [Hanc|Ha]].
      * apply (anc_lt n) in Hanc; [lia|done|done|]. by apply (sibling_props n f p).
      * apply (above_ge p q); try done. intros y Hy.
        destruct (pending_rest p q y Hpd Hy). split; [done|]. split; [done|]. by intros ->.
    + rewrite (sibs_needed _ _ x Hw Hpd'). apply (later_needed p q); try done.
      * intros y Hy. by eapply pending_rest.
      * intros y Hy. eapply (not_onpath_next p q q); try done. by destruct Hy as [-> | ->].
Qed.

(** The roots reached are the roots on the path, in order. *)
Lemma roots_of_elem q tr x : walk n f q tr → pending n f q →
  x ∈ roots_of tr ↔ inF n f x ∧ root_at n f x = true ∧ onpath f q x.
Proof.
  induction 1 as [|p q tr Hroot Hw IH|p q q' tr Hroot Hs' Hq' Hw IH
    |p q q' tr Hroot Hhd Hs' Hq' Hw IH]; intros Hpd; simpl;
    try (assert (inF n f p) as Hp by (apply Hpd; by left)).
  - split; [by intros ?%not_elem_of_nil|]. intros (_ & _ & t & ?%not_elem_of_nil & _). done.
  - rewrite elem_of_cons, IH by (by eapply pending_tail). split.
    + intros [->|(Hx & Hrx & Hon)]; (split; [done|split; [done|]]); apply onpath_cons; tauto.
    + intros (Hx & Hrx & Hon). rewrite onpath_root in Hon by done. tauto.
  - destruct (pending_pair p q q') as (Hpd' & Hlt & _); try done. rewrite IH by done.
    split; intros (Hx & Hrx & Hon); (split; [done|split; [done|]]);
      rewrite (onpath_pair p q q') in * by done; [tauto|].
    destruct Hon as [->|[->|?]]; [congruence| |done].
    destruct (sibling_props n f p) as (_ & _ & _ & ? & _); try done. congruence.
  - destruct (pending_sib p q q') as (Hpd' & _); try done. rewrite IH by done.
    split; intros (Hx & Hrx & Hon); (split; [done|split; [done|]]);
      rewrite (onpath_step p q q') in * by done; [tauto|].
    destruct Hon as [->|?]; [congruence|done].
Qed.

Lemma roots_of_sorted q tr : walk n f q tr → pending n f q → StronglySorted Z.lt (roots_of tr).
Proof.
  induction 1 as [|p q tr Hroot Hw IH|p q q' tr Hroot Hs' Hq' Hw IH
    |p q q' tr Hroot Hhd Hs' Hq' Hw IH]; intros Hpd; simpl.
  - constructor.
  - pose proof (pending_tail _ _ _ _ Hpd) as Hpd'. constructor; [by apply IH|].
    apply Forall_forall. intros x (Hx & _ & Hon)%(roots_of_elem q); [|done..].
    apply onpath_ge in Hon as (t & Ht & ?); [|done|apply Hpd'].
    destruct (pending_rest p q t Hpd Ht). lia.
  - apply IH. by eapply (pending_pair p q q').
  - apply IH. by eapply (pending_sib p q q').
Qed.
End Path.
