(* ===== verification/DeTwinTheory.v ===== *)
(** * De-twinning and the proof of a single target

    [deTwin] merges sibling targets into their parents until no siblings are left;
    [proofPosition] is [proofPositions] for one target. *)

From S2P Require Import Prelude Utils PosTheory Traverse Walk HashPos HashPosTheory SortedTheory.

Section DeTwin.
Context (n f : Z) (Hfit : fits n f).

(** No two neighbours of the slice up to index [i] are left and right sibling. *)
Definition no_twins_upto (i : nat) (l : list Z) : Prop :=
  ∀ j x y, (j < i)%nat → l !! j = Some x → l !! S j = Some y → rightSib x ≠ y.
Definition no_twins (l : list Z) : Prop :=
  ∀ j x y, l !! j = Some x → l !! S j = Some y → rightSib x ≠ y.

(** [x] lies at or below one of the positions [l]. *)
Definition covered (l : list Z) (x : Z) : Prop := ∃ d, d ∈ l ∧ (x = d ∨ isAncestor d x f = true).

Lemma covered_perm l l' x : l ≡ₚ l' → covered l x ↔ covered l' x.
Proof. intros Hp. unfold covered. by setoid_rewrite Hp. Qed.

Lemma covered_cons d l x : covered (d :: l) x ↔ (x = d ∨ isAncestor d x f = true) ∨ covered l x.
Proof.
  unfold covered. setoid_rewrite elem_of_cons. split.
  - intros (y & [->|?] & ?); eauto.
  - intros [?|(y & ? & ?)]; eauto.
Qed.

(** A pair of twins in the forest is not a pair of roots. *)
Lemma twin_not_root p : inF n f p → inF n f (rightSib p) → p < rightSib p → root_at n f p = false.
Proof.
  intros (r & o & -> & Hin) (r' & o' & Heq & Hin') Hlt.
  pose proof (in_forest_valid n f r o Hfit Hin) as Hv.
  pose proof (in_forest_valid n f r' o' Hfit Hin') as Hv'.
  rewrite root_at_npos by done. apply not_true_is_false. intros Hroot.
  rewrite rightSib_eq in Heq, Hlt. destruct (Z.even (npos f r o)) eqn:He; [|lia].
  pose proof Hv as (? & ? & ?). destruct (Z.eq_dec r f) as [->|].
  - assert (2 ^ (f - f) = 1) by (by rewrite Z.sub_diag). assert (o = 0) as -> by lia.
    pose proof (npos_range f r' o' Hv'). unfold npos in *. replace (f + 1 - f) with 1 in * by lia.
    change (2 ^ 1) with 2 in *. lia.
  - rewrite npos_even in He by (done || lia).
    assert (valid f r (o + 1)) as Hv1.
    { replace (o + 1) with (sibling o) by (by rewrite sibling_eq, He). apply valid_sibling; [done|lia]. }
    replace (npos f r o + 1) with (npos f r (o + 1)) in Heq by (unfold npos; lia).
    apply npos_inj in Heq as [<- <-]; [|done..].
    rewrite is_root_div in Hroot by lia. apply andb_true_iff in Hroot as [_ ->%Z.eqb_eq].
    apply in_forest_div in Hin' as [_ ?]. lia.
Qed.

(** At or below the parent of twins, in no higher row: at or below one of the twins. *)
Lemma covered_parent p x : inF n f p → root_at n f p = false → inF n f x →
  rowOf f x ≤ rowOf f p →
  (x = parent p f ∨ isAncestor (parent p f) x f = true) ↔
  (x = p ∨ isAncestor p x f = true) ∨ (x = sibling p ∨ isAncestor (sibling p) x f = true).
Proof.
  intros Hp Hroot (r & o & -> & Hin) Hrow. pose proof (in_forest_valid n f r o Hfit Hin) as Hv.
  rewrite rowOf_npos in Hrow by done.
  destruct (inF_family n f p) as (rp & op & -> & Hinp & Hvp & Hrf & _ & -> & _ & Hvpar & -> & Hins & _);
    try done.
  pose proof (in_forest_valid n f _ _ Hfit Hins) as Hvs. rewrite rowOf_npos in Hrow by done.
  assert (∀ R O, r ≤ R → valid f R O →
    (npos f r o = npos f R O ∨ isAncestor (npos f R O) (npos f r o) f = true) ↔ O = o / 2 ^ (R - r)) as Hcov.
  { intros R O HR HvR. rewrite isAncestor_npos, andb_true_iff, Z.ltb_lt, Z.eqb_eq by done. split.
    - intros [Heq|[_ ?]]; [|done]. apply npos_inj in Heq as [<- <-]; [|done..].
      by rewrite Z.sub_diag, Z.pow_0_r, Z.div_1_r.
    - intros ->. destruct (Z.eq_dec R r) as [->|]; [left; by rewrite Z.sub_diag, Z.pow_0_r, Z.div_1_r|right].
      split; [lia|done]. }
  rewrite !Hcov by (done || lia). replace (rp + 1 - r) with (rp - r + 1) by lia.
  rewrite div_pow2_succ, sibling_eq by lia.
  set (m := o / 2 ^ (rp - r)). pose proof (Z.div_mod op 2). pose proof (Zmod_even op).
  pose proof (Z.div_mod m 2). pose proof (Z.mod_pos_bound m 2).
  destruct (Z.even op); lia.
Qed.

(** Replacing twins anywhere in the slice by their parent. *)
Lemma pending_twins l p rest l' : pending n f l → l ≡ₚ p :: sibling p :: rest →
  root_at n f p = false → StronglySorted Z.le l' → l' ≡ₚ parent p f :: rest → pending n f l'.
Proof.
  intros [Hs Hin Hanti] Hl Hroot Hs' Hl'.
  assert (∀ y, y ∈ rest → y ∈ l) as Hrest by (intros y Hy; rewrite Hl; by do 2 right).
  assert (p ∈ l) as Hpl by (rewrite Hl; by left).
  assert (sibling p ∈ l) as Hsl by (rewrite Hl; right; by left).
  assert (inF n f p) as Hp by auto.
  destruct (sibling_props n f p) as (Hsin & Hpin & _); try done.
  assert (∀ y, y ∈ rest → y ≠ p ∧ y ≠ sibling p) as Hne.
  { apply sorted_lt_nodup in Hs. rewrite Hl in Hs. apply NoDup_cons in Hs as [H1 H2].
    apply NoDup_cons in H2 as [H2 _]. rewrite not_elem_of_cons in H1.
    intros y Hy. split; intros ->; tauto. }
  assert (∀ y, y ∈ rest → y ≠ parent p f ∧ isAncestor y (parent p f) f = false ∧
    isAncestor (parent p f) y f = false) as Hy.
  { intros y Hy. pose proof (Hrest y Hy) as Hyl. pose proof (Hin y Hyl) as Hyin.
    assert (isAncestor y p f = false) as Hyp by auto.
    pose proof (anc_parent n f y p Hfit Hyin Hp Hroot) as Hap.
    split; [intros Heq; by rewrite (proj2 Hap) in Hyp; [|left]|].
    split; apply not_true_is_false; intros Hanc; [by rewrite (proj2 Hap) in Hyp; [|right]|].
    assert (rowOf f y ≤ rowOf f p) as Hrow.
    { apply (anc_lt n) in Hanc as [_ Hlt]; [|done..].
      destruct (inF_family n f p) as (r & o & E & _ & Hv & _ & _ & Epar & _ & Hvp & _); try done.
      rewrite Epar, rowOf_npos in Hlt by done. rewrite E, rowOf_npos by done. lia. }
    destruct (Hne y Hy). apply (covered_parent p y) in Hrow as [Hc _]; try done.
    destruct Hc as [[?|Hc]|[?|Hc]]; [by right|done| |done|]; rewrite Hanti in Hc; done. }
  split.
  - apply sorted_le_nodup_lt; [done|]. rewrite Hl'. constructor; [intros Hbad; by apply Hy in Hbad as [? _]|].
    apply sorted_lt_nodup in Hs. rewrite Hl in Hs. apply NoDup_cons in Hs as [_ Hs].
    by apply NoDup_cons in Hs as [_ Hs].
  - intros y Hyl. rewrite Hl' in Hyl. apply elem_of_cons in Hyl as [->|?]; auto.
  - intros y y' H1 H2. rewrite Hl' in H1, H2.
    apply elem_of_cons in H1 as [->|H1], H2 as [->|H2].
    + unfold isAncestor. by rewrite Z.eqb_refl.
    + by apply Hy.
    + by apply Hy.
    + auto.
Qed.

(** Inserting past position [p] keeps the slice up to [p] and its lack of twins. *)
Lemma no_twins_insert pre post p x : StronglySorted Z.le (pre ++ post) → NoDup (x :: pre ++ post) →
  (∀ y, y ∈ pre → y < p) → (∀ y, y ∈ post → p < y) → p < x →
  no_twins_upto (length pre) (pre ++ p :: post) → no_twins_upto (length pre) (insertInOrder (pre ++ post) x).
Proof.
  intros Hrest Hnd Hpre Hpost Hx Htw.
  destruct (insertInOrder_split (pre ++ post) x Hrest) as (k & Hk & _ & Hhi). rewrite Hk.
  assert (length pre ≤ k)%nat as Hik.
  { destruct (decide (length pre ≤ k)%nat) as [|Hki]; [done|exfalso].
    destruct (lookup_lt_is_Some_2 pre k) as [y Hy]; [lia|].
    pose proof (Hpre y ltac:(by eapply list_elem_of_lookup_2)).
    assert (x < y); [|lia]. apply Hhi. apply list_elem_of_lookup. exists 0%nat.
    rewrite lookup_drop, Nat.add_0_r, lookup_app_l by lia. done. }
  rewrite take_app_ge, drop_app_ge by lia. set (k' := (k - length pre)%nat).
  rewrite <- app_assoc. set (tail := take k' post ++ x :: drop k' post).
  assert (∀ y, y ∈ tail → p < y) as Htail.
  { intros y. unfold tail. rewrite elem_of_app, elem_of_cons.
    intros [(i & Hi & _)%elem_of_take|[->|(i & Hi)%list_elem_of_lookup]]; [|done|].
    - apply Hpost. by eapply list_elem_of_lookup_2.
    - rewrite lookup_drop in Hi. apply Hpost. by eapply list_elem_of_lookup_2. }
  intros j y z Hj Hy Hz. rewrite lookup_app_l in Hy by done.
  destruct (decide (S j < length pre)%nat) as [Hj'|Hj'].
  - rewrite lookup_app_l in Hz by done. apply (Htw j y z Hj); by rewrite lookup_app_l.
  - rewrite lookup_app_r in Hz by lia. apply list_elem_of_lookup_2 in Hy, Hz.
    specialize (Hpre y Hy). specialize (Htail z Hz). rewrite rightSib_eq. destruct (Z.even y); lia.
Qed.

(** One merge of twins, on the slice around them. *)
Lemma merge_step i l p : pending n f l → no_twins_upto i l →
  l !! i = Some p → l !! S i = Some (rightSib p) →
  let l' := insertInOrder (take i l ++ drop (i + 2) l) (parent p f) in
  pending n f l' ∧ no_twins_upto i l' ∧ length l = S (length l') ∧
  ∀ x, inF n f x → rowOf f x = 0 → covered l' x ↔ covered l x.
Proof.
  intros Hpd Htw Hi Hsi l'. pose proof Hpd as [Hs Hin Hanti].
  set (pre := take i l) in *. set (post := drop (i + 2) l) in *.
  assert (drop i l = p :: rightSib p :: post) as Hd.
  { rewrite (drop_S _ _ _ Hi), (drop_S _ _ _ Hsi). unfold post. do 3 f_equal. lia. }
  assert (l = pre ++ p :: rightSib p :: post) as Hl
    by (rewrite <- Hd; unfold pre; by rewrite take_drop).
  assert (inF n f p) as Hp by (apply Hin; by eapply list_elem_of_lookup_2).
  assert (inF n f (rightSib p)) as Hr by (apply Hin; by eapply list_elem_of_lookup_2).
  assert (StronglySorted Z.lt (p :: rightSib p :: post)) as Hsd by (rewrite <- Hd; by apply sorted_drop).
  pose proof (sorted_lt_head _ _ (rightSib p) Hsd ltac:(by left)) as Hlt.
  pose proof (twin_not_root p Hp Hr Hlt) as Hroot.
  destruct (rightSib_family n f Hfit p) as (Hsib & _); try done.
  assert (∀ y, y ∈ pre → y < p) as Hpre.
  { intros y Hy. rewrite Hl in Hs. apply (sorted_app_inv _ _ _ Hs y p Hy). by left. }
  assert (StronglySorted Z.le (pre ++ post)) as Hrest.
  { apply sorted_lt_le. apply sorted_app; [by apply sorted_take|by apply sorted_drop|].
    intros y z Hy Hz. rewrite Hl in Hs. apply (sorted_app_inv _ _ _ Hs y z Hy). by do 2 right. }
  assert (l ≡ₚ p :: sibling p :: pre ++ post) as Hperm.
  { rewrite Hl, <- Hsib. rewrite <- !Permutation_middle. done. }
  pose proof (insertInOrder_perm (pre ++ post) (parent p f)) as Hperm'. fold l' in Hperm'.
  assert (pending n f l') as Hpd'
    by (apply (pending_twins l p (pre ++ post)); try done; by apply insertInOrder_sorted).
  split_and!; [done| | |].
  - assert (length pre = i) as Hlen.
    { unfold pre. rewrite length_take. pose proof (lookup_lt_Some _ _ _ Hi). lia. }
    rewrite <- Hlen in Htw |- *. apply (no_twins_insert pre post p); try done.
    + rewrite <- Hperm'. by apply sorted_lt_nodup, Hpd'.
    + intros y Hy. apply (sorted_lt_head _ _ y) in Hsd; [done|]. by right.
    + by apply (parent_gt n).
    + intros j x y Hj Hx Hy. apply (Htw j x y Hj).
      * rewrite Hl. by rewrite lookup_app_l in Hx |- * by done.
      * rewrite Hl. destruct (decide (S j < length pre)%nat).
        -- by rewrite lookup_app_l in Hy |- * by done.
        -- assert (S j = length pre) as E by lia. rewrite E in Hy |- *.
           by rewrite lookup_app_r, Nat.sub_diag in Hy |- * by done.
  - rewrite (Permutation_length Hperm), (Permutation_length Hperm'). done.
  - intros x Hx Hrow. rewrite (covered_perm _ _ x Hperm), (covered_perm _ _ x Hperm').
    rewrite !covered_cons, (covered_parent p x) by (try done; rewrite Hrow; by eapply rowOf_nonneg). tauto.
Qed.

(** The loop: every round merges twins or moves on, until no twins are left. *)
Lemma deTwin_loop_spec fuel : ∀ i l, pending n f l → no_twins_upto i l →
  (i ≤ length l)%nat → (2 * length l - i < fuel)%nat →
  let l' := deTwin_loop fuel i l f in
  pending n f l' ∧ no_twins l' ∧ ∀ x, inF n f x → rowOf f x = 0 → covered l' x ↔ covered l x.
Proof.
  induction fuel as [|fuel IH]; intros i l Hpd Htw Hi Hf; [lia|]. cbn [deTwin_loop].
  destruct (l !! i) as [p|] eqn:Ep.
  2:{ split; [done|]. split; [|done]. intros j x y Hx Hy. apply lookup_ge_None in Ep.
      apply (Htw j x y); [|done..]. apply lookup_lt_Some in Hx. lia. }
  pose proof (lookup_lt_Some _ _ _ Ep). destruct (l !! S i) as [q|] eqn:Eq.
  - destruct (Z.eqb_spec (rightSib p) q) as [<-|Hne].
    + destruct (merge_step i l p) as (Hpd' & Htw' & Hlen & Hcov); try done.
      pose proof (lookup_lt_Some _ _ _ Eq).
      destruct (IH i _ Hpd' Htw') as (? & ? & Hcov'); [lia|lia|]. split; [done|]. split; [done|].
      intros x Hx Hrow. by rewrite Hcov', Hcov.
    + apply IH; [done| |lia|lia]. intros j x y Hj Hx Hy.
      destruct (decide (j = i)) as [->|]; [congruence|]. apply (Htw j); [lia|done..].
  - apply IH; [done| |lia|lia]. intros j x y Hj Hx Hy.
    destruct (decide (j = i)) as [->|]; [congruence|]. apply (Htw j); [lia|done..].
Qed.

Lemma deTwin_spec l : pending n f l →
  pending n f (deTwin l f) ∧ no_twins (deTwin l f) ∧
  ∀ x, inF n f x → rowOf f x = 0 → covered (deTwin l f) x ↔ covered l x.
Proof. intros Hpd. apply deTwin_loop_spec; [done|by intros ? ? ? ?%Nat.nlt_0_r|lia|lia]. Qed.
End DeTwin.

(** ** The proof positions of one target *)

Lemma proofPosition_loop_walk n f q tr : fits n f → walk n f q tr → pending n f q →
  ∀ p fuel, q = [p] → (Z.to_nat (f + 1 - rowOf f p) < fuel)%nat →
  proofPosition_loop fuel (rowOf f p) p n f = sibs tr.
Proof.
  intros Hfit Hw. induction Hw as [|p q tr Hroot Hw IH|p q q' tr Hroot Hs' Hq' Hw IH
    |p q q' tr Hroot Hhd Hs' Hq' Hw IH]; intros Hpd x fuel Heq Hf; try done.
  all: simplify_eq; assert (inF n f x) as Hx by (apply Hpd; by left);
    destruct fuel as [|fuel]; [lia|]; cbn [proofPosition_loop];
    pose proof Hx as (r & o & E & Hin); pose proof (in_forest_valid n f r o Hfit Hin) as Hv;
    pose proof Hv as (? & ? & ?);
    assert (rowOf f x = r) as Hr by (by rewrite E, rowOf_npos); rewrite Hr;
    rewrite (proj2 (Z.leb_le r f)) by lia;
    assert (isRootPositionTotalRows x n f = root_at n f x) as ->
      by (rewrite E, root_at_npos by done; by apply isRootPositionTotalRows_npos);
    rewrite Hroot.
  - by inversion Hw.
  - simpl sibs. f_equal. apply Permutation_singleton_r in Hq' as ->.
    assert (rowOf f (parent x f) = r + 1) as Hrp.
    { destruct (inF_family n f x) as (r' & o' & E' & _ & Hv' & _ & _ & -> & _ & Hvp & _); try done.
      rewrite rowOf_npos by done. by rewrite E', rowOf_npos in Hr by done; subst. }
    pose proof (weight_parent n f x Hfit Hx Hroot) as Hwt.
    rewrite u8_small, <- Hrp by lia. apply IH; [|done|lia].
    by eapply pending_sib.
Qed.

(** A single target is a worklist. *)
Lemma pending_single n f t : inF n f t → pending n f [t].
Proof.
  intros Hin. split.
  - repeat constructor.
  - by intros p ->%list_elem_of_singleton.
  - intros p p' ->%list_elem_of_singleton ->%list_elem_of_singleton. unfold isAncestor. by rewrite Z.eqb_refl.
Qed.

Lemma proofPosition_eq n f t : fits n f → inF n f t →
  ∃ cp, proofPositions [t] n f = Ok (proofPosition t n f, cp).
Proof.
  intros Hfit Hin. pose proof (pending_single n f t Hin) as Hpd.
  destruct (proofPositions_walk n f [t] Hfit Hpd) as (tr & Hw & _ & ->).
  exists (parents f tr). do 2 f_equal. symmetry. unfold proofPosition.
  pose proof Hin as (r & o & E & Hino).
  pose proof (in_forest_valid n f r o Hfit Hino) as Hv. pose proof Hv as (? & ? & ?).
  assert (detectRow t f = rowOf f t) as -> by (by rewrite E, detectRow_npos, rowOf_npos).
  eapply proofPosition_loop_walk; try done. rewrite E, rowOf_npos by done. lia.
Qed.
