(* ===== verification/CalcTheory.v ===== *)
(** * Theory of [calculateHashes]

    On a well-formed set of targets the loop of [calculateHashes] evaluates the
    walk of [Walk]: positions are handled by the walk and hashes by [eval]. *)

From S2P Require Import Prelude Utils PosTheory HashPos HashPosTheory Traverse Calc Walk.

Lemma climb_npos fuel n f r o row : fits n f → in_forest n r o → 0 ≤ row ≤ r →
  (Z.to_nat (r - row) < fuel)%nat → climb fuel (npos f r o) row f n = Ok r.
Proof.
  intros Hfit Hin. pose proof (in_forest_valid n f r o Hfit Hin) as Hv.
  pose proof Hv as (? & ? & ?). pose proof Hfit as [? ?].
  pose proof (proj1 (in_forest_div n r o) Hin) as [? ?].
  assert (0 < n) by (destruct Hin as (_ & _ & ?); pose proof (pow2_pos r); nia).
  revert row. induction fuel as [|fuel IH]; intros row Hrow Hfuel; [lia|]. cbn [climb].
  pose proof (pow2_pos row). assert (0 ≤ n / 2 ^ row) by (apply Z.div_pos; lia).
  rewrite maxPositionAtRow_eq; [|done|lia|].
  2:{ destruct (Z.eq_dec row 0) as [->|]; [rewrite Z.div_1_r; lia|lia]. }
  simpl or_zero. destruct (Z.eq_dec row r) as [->|].
  - rewrite (proj2 (Z.ltb_ge _ _)); [done|]. unfold npos. lia.
  - assert (n / 2 ^ row ≤ 2 ^ (f - row)).
    { apply Z.div_le_upper_bound; [lia|]. rewrite Z.mul_comm, <- pow2_split by lia. lia. }
    pose proof (npos_row_mono f (row + 1) r). pose proof (npos_row_succ f row).
    rewrite (proj2 (Z.ltb_lt _ _)) by (unfold npos in *; lia).
    rewrite u8_small by lia. apply IH; lia.
Qed.

Section Eval.
Context `{HashFn}.

Definition upd (val : Z → Hash) (p : Z) (h : Hash) : Z → Hash :=
  λ x, if decide (x = p) then h else val x.

(** The hashes of the parents and of the roots, in the order of the walk. *)
Fixpoint eval (f : Z) (tr : list step) (val : Z → Hash) (proof : list Hash)
    : res (list Hash * list Hash) :=
  match tr with
  | [] => Ok ([], [])
  | SRoot p :: tr =>
      let* (ps, rs) := eval f tr val proof in Ok (ps, val p :: rs)
  | SPair p :: tr =>
      let h := getNextHash p (val p) (val (rightSib p)) in
      let* (ps, rs) := eval f tr (upd val (parent p f) h) proof in Ok (h :: ps, rs)
  | SSib p :: tr =>
      match proof with
      | [] => Panic
      | s :: proof =>
          let h := getNextHash p (val p) s in
          let* (ps, rs) := eval f tr (upd val (parent p f) h) proof in Ok (h :: ps, rs)
      end
  end.

Definition agrees (val : Z → Hash) (hnp : hashAndPos) (i : nat) : Prop :=
  drop i (hashes hnp) = map val (drop i (positions hnp)).

Lemma agrees_lookup val hnp i p : agrees val hnp i → positions hnp !! i = Some p →
  index (hashes hnp) i = Ok (val p) ∧ agrees val hnp (S i).
Proof.
  unfold agrees, index. intros Ha Hl. rewrite (drop_S _ _ _ Hl) in Ha. simpl in Ha.
  destruct (hashes hnp !! i) as [h|] eqn:E.
  - rewrite (drop_S _ _ _ E) in Ha. by injection Ha as -> ->.
  - apply lookup_ge_None in E. by rewrite drop_ge in Ha.
Qed.

Lemma agrees_bump val hnp (b : bool) i p : agrees val hnp i →
  (b = true → positions hnp !! i = Some p) → agrees val hnp (bump1 b i).
Proof. intros Ha Hb. destruct b; [|done]. eapply agrees_lookup; eauto. Qed.

Lemma agrees_upd val hnp i p h : agrees val hnp i → p ∉ drop i (positions hnp) →
  agrees (upd val p h) hnp i.
Proof.
  unfold agrees. intros -> Hnot. apply map_ext_in. intros x Hx. unfold upd.
  rewrite decide_False; [done|]. intros ->. by apply Hnot, list_elem_of_In.
Qed.

Lemma agrees_append val hnp i p h : agrees val hnp i → p ∉ drop i (positions hnp) →
  (i ≤ length (positions hnp))%nat → (i ≤ length (hashes hnp))%nat →
  agrees (upd val p h) (Append hnp p h) i.
Proof.
  intros Ha Hnot Hlen Hlen'. apply (agrees_upd _ _ _ p h) in Ha; [|done].
  unfold agrees in *. simpl. rewrite !drop_app_le, map_app by done. rewrite Ha. simpl.
  unfold upd. by rewrite decide_True.
Qed.

(** Taking the next hash from whichever slice holds the next position. *)
Lemma index_slices val hnp1 hnp2 i1 i2 (b : bool) p :
  agrees val hnp1 i1 → agrees val hnp2 i2 →
  (if b then positions hnp1 !! i1 else positions hnp2 !! i2) = Some p →
  (if b then index (hashes hnp1) i1 else index (hashes hnp2) i2) = Ok (val p) ∧
  agrees val hnp1 (bump1 b i1) ∧ agrees val hnp2 (bump2 b i2).
Proof.
  intros H1 H2 Hl. destruct b; simpl.
  - by destruct (agrees_lookup _ _ _ _ H1 Hl).
  - by destruct (agrees_lookup _ _ _ _ H2 Hl).
Qed.

(** The state of the loop for the worklist [q]. *)
Record calc_inv (f : Z) (val : Z → Hash) (hnp1 hnp2 : hashAndPos) (i1 i2 : nat) (q : list Z)
    : Prop := {
  ci_slices : slices f (positions hnp1) (positions hnp2) i1 i2 q;
  ci_1 : agrees val hnp1 i1;
  ci_2 : agrees val hnp2 i2;
  ci_par : length (hashes hnp2) = length (positions hnp2);
}.

Definition sib_of (hnp1 hnp2 : hashAndPos) (i1 i2 pidx : nat) (proof : list Hash) (sibIdx : Z)
    : res Hash :=
  if negb (sibIdx =? -1) then
    (if sibIdx =? 0 then index (hashes hnp1) i1 else index (hashes hnp2) i2)
  else index proof pidx.

(** The part of a round that does not depend on what the sibling is. *)
Lemma calc_round n hnp1 hnp2 i1 i2 val p q fuel pidx row proof roots :
  let f := treeRows n in
  fits n f → pending n f (p :: q) → calc_inv f val hnp1 hnp2 i1 i2 (p :: q) →
  0 ≤ row ≤ rowOf f p →
  ∃ (b : bool) (sibIdx : Z),
    (if b then positions hnp1 !! i1 else positions hnp2 !! i2) = Some p ∧
    q ≡ₚ drop (bump1 b i1) (positions hnp1) ++ drop (bump2 b i2) (positions hnp2) ∧
    ((head q ≠ Some (rightSib p) ∧ sibIdx = -1) ∨
     ∃ rest (c : bool), q = rightSib p :: rest ∧ sibIdx = slice_no c ∧
       (if c then positions hnp1 !! bump1 b i1 else positions hnp2 !! bump2 b i2)
         = Some (rightSib p) ∧
       rest ≡ₚ drop (bump1 c (bump1 b i1)) (positions hnp1)
              ++ drop (bump2 c (bump2 b i2)) (positions hnp2)) ∧
    agrees val hnp1 (bump1 b i1) ∧ agrees val hnp2 (bump2 b i2) ∧
    calculateHashes_loop (S fuel) hnp1 hnp2 i1 i2 pidx row proof roots n f
    = if root_at n f p then
        calculateHashes_loop fuel hnp1 hnp2 (bump1 b i1) (bump2 b i2) pidx (rowOf f p) proof
          (roots ++ [val p]) n f
      else
        let* sibHash := sib_of hnp1 hnp2 (bump1 b i1) (bump2 b i2) pidx proof sibIdx in
        calculateHashes_loop fuel hnp1
          (Append hnp2 (parent p f) (getNextHash p (val p) sibHash))
          (if sibIdx =? 0 then S (bump1 b i1) else bump1 b i1)
          (if sibIdx =? 1 then S (bump2 b i2) else bump2 b i2)
          (if negb (sibIdx =? -1) then pidx else S pidx) (rowOf f p) proof roots n f.
Proof.
  intros f Hfit Hpd [Hsl Ha1 Ha2 _] Hrow. pose proof Hpd as [Hsort Hin _].
  destruct (getNextPos_cons f _ _ i1 i2 _ _ Hsl Hsort) as (b & sibIdx & Hnext & Hl & Hperm & Hsib).
  destruct (index_slices val hnp1 hnp2 i1 i2 b p Ha1 Ha2 Hl) as (Hidx & Hb1 & Hb2).
  exists b, sibIdx. do 5 (split; [done|]).
  cbn [calculateHashes_loop]. rewrite Hnext.
  assert (inF n f p) as Hp by (apply Hin; by left). pose proof Hp as (r & o & Heq & Hino).
  pose proof (in_forest_valid n f r o Hfit Hino) as Hv. pose proof Hv as (? & ? & ?).
  assert (rowOf f p = r) as Hr by (by rewrite Heq, rowOf_npos). rewrite Hr in *.
  rewrite (proj2 (Z.leb_le row f)) by lia.
  assert ((slice_no b =? -1) = false) as -> by (by destruct b).
  assert ((slice_no b =? 0) = b) as -> by (by destruct b).
  change (if b then S i1 else i1) with (bump1 b i1).
  change (if b then i2 else S i2) with (bump2 b i2). rewrite Hidx. cbn [bind].
  assert (climb 256 p row f n = Ok r) as -> by (rewrite Heq; apply climb_npos; done || lia).
  cbn [bind].
  replace (isRootPositionOnRow p n r) with (root_at n f p); [done|].
  rewrite Heq, root_at_npos by done. symmetry.
  apply isRootPositionOnRow_npos; [by apply (fits_le n f)|done].
Qed.

Lemma next_notin f p q q' : StronglySorted Z.lt q' → q' ≡ₚ parent p f :: q → parent p f ∉ q.
Proof.
  intros Hs' Hq'. pose proof (sorted_lt_nodup _ Hs') as Hnd. rewrite Hq' in Hnd.
  by apply NoDup_cons in Hnd as [? _].
Qed.

Lemma calc_inv_append f val hnp1 hnp2 j1 j2 p h q q' :
  slices f (positions hnp1) (positions hnp2 ++ [p]) j1 j2 q' →
  q ≡ₚ drop j1 (positions hnp1) ++ drop j2 (positions hnp2) →
  agrees val hnp1 j1 → agrees val hnp2 j2 → p ∉ q →
  (j2 ≤ length (positions hnp2))%nat → length (hashes hnp2) = length (positions hnp2) →
  calc_inv f (upd val p h) hnp1 (Append hnp2 p h) j1 j2 q'.
Proof.
  intros Hsl Hq Ha1 Ha2 Hnot Hlen Hpar. rewrite Hq in Hnot.
  apply not_elem_of_app in Hnot as [Hnot1 Hnot2]. split; [done| | |].
  - by apply agrees_upd.
  - apply agrees_append; try done. by rewrite Hpar.
  - simpl. rewrite !length_app. simpl. lia.
Qed.

Lemma calc_pair n hnp1 hnp2 i1 i2 val p q q' fuel pidx row proof roots :
  let f := treeRows n in
  let h := getNextHash p (val p) (val (rightSib p)) in
  fits n f → pending n f (p :: rightSib p :: q) → root_at n f p = false →
  StronglySorted Z.lt q' → q' ≡ₚ parent p f :: q →
  calc_inv f val hnp1 hnp2 i1 i2 (p :: rightSib p :: q) → 0 ≤ row ≤ rowOf f p →
  ∃ j1 j2, pending n f q' ∧ (∀ y, y ∈ q' → rowOf f p ≤ rowOf f y) ∧
    calc_inv f (upd val (parent p f) h) hnp1 (Append hnp2 (parent p f) h) j1 j2 q' ∧
    calculateHashes_loop (S fuel) hnp1 hnp2 i1 i2 pidx row proof roots n f
    = calculateHashes_loop fuel hnp1 (Append hnp2 (parent p f) h) j1 j2 pidx (rowOf f p) proof
        roots n f.
Proof.
  intros f h Hfit Hpd Hroot Hs' Hq' Hinv Hrow.
  destruct (calc_round n hnp1 hnp2 i1 i2 val p (rightSib p :: q) fuel pidx row proof roots)
    as (b & sibIdx & Hl & Hperm & Hsib & Hb1 & Hb2 & Hloop); try done.
  fold f in Hloop. rewrite Hroot in Hloop.
  destruct Hsib as [[Hne _]|(rest & c & [= <-] & -> & Hc & Hpc)]; [done|].
  destruct Hinv as [Hsl _ _ Hpar].
  destruct (slices_step_pair n f _ _ i1 i2 b c p q q' Hfit Hpd Hroot Hsl Hl Hperm Hc Hpc Hs' Hq')
    as (Hpd' & Hsl' & Hrows).
  destruct (index_slices val hnp1 hnp2 _ _ c _ Hb1 Hb2 Hc) as (Hidx & Hc1 & Hc2).
  exists (bump1 c (bump1 b i1)), (bump2 c (bump2 b i2)). split; [done|]. split; [done|]. split.
  - eapply calc_inv_append; try done; [by eapply next_notin|].
    eapply lookup_bump; [|exact Hc]. eapply lookup_bump; [|exact Hl]. by eapply sl_len.
  - rewrite Hloop. unfold sib_of. destruct c; cbn in Hidx |- *; by rewrite Hidx.
Qed.

Lemma calc_sib n hnp1 hnp2 i1 i2 val p q q' fuel pidx row proof roots :
  let f := treeRows n in
  let h s := getNextHash p (val p) s in
  fits n f → pending n f (p :: q) → root_at n f p = false → head q ≠ Some (rightSib p) →
  StronglySorted Z.lt q' → q' ≡ₚ parent p f :: q →
  calc_inv f val hnp1 hnp2 i1 i2 (p :: q) → 0 ≤ row ≤ rowOf f p →
  ∃ j1 j2, pending n f q' ∧ (∀ y, y ∈ q' → rowOf f p ≤ rowOf f y) ∧
    (∀ s, calc_inv f (upd val (parent p f) (h s)) hnp1 (Append hnp2 (parent p f) (h s)) j1 j2 q') ∧
    calculateHashes_loop (S fuel) hnp1 hnp2 i1 i2 pidx row proof roots n f
    = let* s := index proof pidx in
      calculateHashes_loop fuel hnp1 (Append hnp2 (parent p f) (h s)) j1 j2 (S pidx) (rowOf f p)
        proof roots n f.
Proof.
  intros f h Hfit Hpd Hroot Hhd Hs' Hq' Hinv Hrow.
  destruct (calc_round n hnp1 hnp2 i1 i2 val p q fuel pidx row proof roots)
    as (b & sibIdx & Hl & Hperm & Hsib & Hb1 & Hb2 & Hloop); try done.
  fold f in Hloop. rewrite Hroot in Hloop.
  destruct Hsib as [[_ ->]|(rest & c & -> & _)]; [|done].
  destruct Hinv as [Hsl _ _ Hpar].
  destruct (slices_step_sib n f _ _ i1 i2 b p q q' Hfit Hpd Hroot Hhd Hsl Hl Hperm Hs' Hq')
    as (Hpd' & Hsl' & Hrows).
  exists (bump1 b i1), (bump2 b i2). do 2 (split; [done|]). split; [|by rewrite Hloop].
  intros s. eapply calc_inv_append; try done; [by eapply next_notin|].
  eapply lookup_bump; [|exact Hl]. by eapply sl_len.
Qed.

Lemma index_drop (proof : list Hash) pidx :
  match drop pidx proof with
  | [] => index proof pidx = Panic
  | s :: rest => index proof pidx = Ok s ∧ drop (S pidx) proof = rest
  end.
Proof.
  unfold index. destruct (proof !! pidx) eqn:E.
  - by rewrite (drop_S _ _ _ E).
  - rewrite drop_ge; [done|]. by apply lookup_ge_None.
Qed.

(** The loop evaluates the walk of its worklist. *)
Lemma calculateHashes_loop_walk n q tr :
  let f := treeRows n in
  fits n f → walk n f q tr → pending n f q →
  ∀ fuel hnp1 hnp2 i1 i2 pidx row proof roots val,
  calc_inv f val hnp1 hnp2 i1 i2 q →
  0 ≤ row ≤ f → (∀ p, p ∈ q → row ≤ rowOf f p) → (length tr < fuel)%nat →
  calculateHashes_loop fuel hnp1 hnp2 i1 i2 pidx row proof roots n f
  = let* (ps, rs) := eval f tr val (drop pidx proof) in
    Ok (AppendMany hnp2 (parents f tr) ps, roots ++ rs).
Proof.
  intros f Hfit Hw. induction Hw as [|p q tr Hroot Hw IH|p q q' tr Hroot Hs' Hq' Hw IH
    |p q q' tr Hroot Hhd Hs' Hq' Hw IH];
    intros Hpd fuel hnp1 hnp2 i1 i2 pidx row proof roots val Hinv Hrow Hlow Hfuel;
    simpl in Hfuel; (destruct fuel as [|fuel]; [lia|]).
  { cbn [calculateHashes_loop eval]. rewrite (proj2 (Z.leb_le row f)) by lia.
    rewrite (getNextPos_nil f) by apply Hinv. simpl. unfold AppendMany. destruct hnp2.
    by rewrite !app_nil_r. }
  all: assert (0 ≤ row ≤ rowOf f p) by (split; [lia|]; apply Hlow; by left);
    assert (0 ≤ rowOf f p ≤ f) by
      (destruct (pd_in _ _ _ Hpd p ltac:(by left)) as (r & o & -> & Hin);
       pose proof (in_forest_valid n f r o Hfit Hin) as Hv; rewrite rowOf_npos by done;
       by destruct Hv); cbn [eval parents].
  - destruct (calc_round n hnp1 hnp2 i1 i2 val p q fuel pidx row proof roots)
      as (b & sibIdx & Hl & Hperm & _ & Hb1 & Hb2 & Hloop); try done.
    fold f in Hloop. rewrite Hloop, Hroot.
    rewrite (IH ltac:(by eapply pending_tail)) with (val := val); try (done || lia).
    + destruct (eval f tr val (drop pidx proof)) as [[ps rs]| | |]; try done.
      simpl. by rewrite <- app_assoc.
    + destruct Hinv as [Hsl _ _ Hpar]. split; try done. by eapply slices_drop.
    + intros y Hy. destruct Hpd as [Hs Hin _].
      apply (row_mono n); try done; [apply Hin; by left|apply Hin; by right|].
      by eapply sorted_lt_head.
  - edestruct (calc_pair n hnp1 hnp2 i1 i2 val p q q') as (j1 & j2 & Hpd' & Hrows & Hinv' & Hloop);
      try done. fold f in Hinv', Hloop. rewrite Hloop. rewrite (IH Hpd') with (1 := Hinv') by (done || lia).
    destruct (eval f tr _ _) as [[ps rs]| | |]; try done. simpl. unfold AppendMany. simpl.
    by rewrite <- !app_assoc.
  - edestruct (calc_sib n hnp1 hnp2 i1 i2 val p q q') as (j1 & j2 & Hpd' & Hrows & Hinv' & Hloop);
      try done. fold f in Hinv', Hloop. rewrite Hloop. pose proof (index_drop proof pidx) as Hidx.
    destruct (drop pidx proof) as [|s prf]; [by rewrite Hidx|]. destruct Hidx as [-> Hprf].
    cbn [bind]. rewrite (IH Hpd') with (1 := Hinv' s), Hprf by (done || lia).
    destruct (eval f tr _ _) as [[ps rs]| | |]; try done. simpl. unfold AppendMany. simpl.
    by rewrite <- !app_assoc.
Qed.
End Eval.

(** ** Targets with their hashes *)

(** The hash paired with a position; positions are unique where this is used. *)
Fixpoint assoc (l : list (Z * Hash)) (p : Z) : Hash :=
  match l with
  | [] => empty
  | (x, h) :: l => if decide (p = x) then h else assoc l p
  end.

Lemma assoc_in l p h : NoDup (map fst l) → (p, h) ∈ l → assoc l p = h.
Proof.
  induction l as [|[x k] l IH]; simpl; intros Hnd Hin; [by apply not_elem_of_nil in Hin|].
  apply NoDup_cons in Hnd as [Hx Hnd]. apply elem_of_cons in Hin as [[= -> ->]|Hin].
  - by rewrite decide_True.
  - rewrite decide_False; [by apply IH|]. intros ->. apply Hx. apply list_elem_of_fmap. by exists (x, h).
Qed.

Lemma assoc_map l : NoDup (map fst l) → map (assoc l) (map fst l) = map snd l.
Proof.
  intros Hnd. rewrite map_map. apply map_ext_in. intros [p h] Hin%list_elem_of_In. by apply assoc_in.
Qed.

Lemma assoc_perm l l' p : NoDup (map fst l) → l ≡ₚ l' → assoc l p = assoc l' p.
Proof.
  intros Hnd Hp. induction Hp as [|[x h] l l' Hp IH|[x h] [y k] l|l l' l'' Hp1 IH1 Hp2 IH2]; simpl.
  - done.
  - simpl in Hnd. apply NoDup_cons in Hnd as [_ Hnd]. by rewrite IH.
  - simpl in Hnd. apply NoDup_cons in Hnd as [Hx _]. apply not_elem_of_cons in Hx as [Hx _].
    destruct (decide (p = x)), (decide (p = y)); congruence.
  - rewrite IH1 by done. apply IH2. by rewrite <- Hp1.
Qed.

Lemma map_fst_zip (ts : list Z) (hs : list Hash) : length hs = length ts → map fst (zip ts hs) = ts.
Proof. intros. apply (fst_zip ts hs). lia. Qed.

Lemma assoc_lookup ts hs i t h : NoDup ts → length hs = length ts →
  ts !! i = Some t → hs !! i = Some h → assoc (zip ts hs) t = h.
Proof.
  intros Hnd Hlen Ht Hh. apply assoc_in; [by rewrite map_fst_zip|].
  apply list_elem_of_lookup. exists i. apply lookup_zip_Some. done.
Qed.

Section CalcEval.
Context `{HashFn}.

(** On distinct targets of the forest, none above another one, [calculateHashes]
    evaluates the walk of the sorted targets. *)
Lemma calculateHashes_eval n ts hs prf q tr :
  let f := treeRows n in
  fits n f → pending n f q → q ≡ₚ ts → walk n f q tr → (length tr ≤ weight f q)%nat →
  length hs = length ts →
  calculateHashes n (Some hs) (mkProof ts prf)
  = let* (ps, rs) := eval f tr (assoc (zip ts hs)) prf in
    let* out := mergeSortedHashAndPos (mkHnp (parents f tr) ps)
                  (of_pairs (sort_pairs (zip ts hs))) in
    Ok (out, rs).
Proof.
  intros f Hfit Hpd Hq Hw Hlen Hhs. unfold calculateHashes. cbn [Targets ProofHashes]. fold f.
  assert (NoDup ts) as Hnd by (rewrite <- Hq; apply sorted_lt_nodup, Hpd).
  rewrite toHashAndPos_pairs by done. cbn [bind].
  set (l := zip ts hs). set (l' := sort_pairs l).
  assert (l' ≡ₚ l) as Hl by apply sort_pairs_perm.
  assert (map fst l = ts) as Hfst by (by apply map_fst_zip).
  assert (map fst l' = q) as Hfst'.
  { apply sorted_lt_unique; [|apply Hpd|].
    - apply sorted_le_nodup_lt; [apply map_fst_sorted, sort_pairs_sorted|].
      by rewrite Hl, Hfst.
    - by rewrite Hl, Hfst, Hq. }
  rewrite (calculateHashes_loop_walk n q tr) with (val := assoc l); try done.
  - rewrite drop_0. fold f. by destruct (eval f tr (assoc l) prf) as [[ps rs]| | |].
  - fold f. assert (positions (of_pairs l') = q) as Hpos by done. split; rewrite ?Hpos.
    + apply slices_init, Hpd.
    + unfold agrees. rewrite !drop_0, Hpos, <- Hfst'. cbn [of_pairs hashes].
      rewrite <- (assoc_map l') by (by rewrite Hl, Hfst). apply map_ext_in. intros p _.
      symmetry. apply assoc_perm; [by rewrite Hfst|done].
    + done.
    + done.
  - fold f. destruct Hfit. lia.
  - intros p Hp. eapply rowOf_nonneg; [done|]. by apply Hpd.
  - unfold walk_fuel. pose proof (walk_fuel_enough n f q tr Hfit Hpd Hlen) as Hf. unfold walk_fuel in Hf.
    by rewrite (Permutation_length Hq) in Hf.
Qed.

(** With [nil] for the hashes, every target is hashed as the empty hash. *)
Lemma calculateHashes_nil n prf :
  calculateHashes n None prf
  = calculateHashes n (Some (replicate (length (Targets prf)) empty)) prf.
Proof. done. Qed.
End CalcEval.
