(* ===== verification/Forest.v ===== *)
(** * The abstract accumulator: a forest of binary trees

    What a stump, a pollard and a map pollard all represent: for every set bit of
    the number of leaves ever added, one binary tree, or nothing when every leaf of
    that tree has been deleted.  A deleted leaf is replaced by its sibling subtree,
    so trees get ragged.  [incr] adds a leaf like a binary counter, [del] deletes a
    set of positions, [node] reads the subtree at a position. *)

From S2P Require Import Prelude Utils PosTheory HashPos Walk.

Inductive tree : Type :=
| Lf (h : Hash)
| Nd (l r : tree).

Fixpoint height (t : tree) : Z :=
  match t with
  | Lf _ => 0
  | Nd l r => 1 + Z.max (height l) (height r)
  end.

Fixpoint leaves (t : tree) : list Hash :=
  match t with
  | Lf h => [h]
  | Nd l r => leaves l ++ leaves r
  end.

Definition oleaves (t : option tree) : list Hash :=
  match t with Some t => leaves t | None => [] end.

Definition child (right : bool) (t : tree) : option tree :=
  match t with
  | Lf _ => None
  | Nd l r => Some (if right then r else l)
  end.

(** Two subtrees under a common parent; an emptied one lets the other move up. *)
Definition join (l r : option tree) : option tree :=
  match l, r with
  | None, _ => r
  | _, None => l
  | Some l, Some r => Some (Nd l r)
  end.

Lemma height_nonneg t : 0 ≤ height t.
Proof. induction t; simpl; lia. Qed.

Lemma oleaves_join a b : oleaves (join a b) = oleaves a ++ oleaves b.
Proof. destruct a, b; simpl; by rewrite ?app_nil_r. Qed.

(** ** Root hashes *)

Section Hashes.
Context `{HashFn}.

Fixpoint thash (t : tree) : Hash :=
  match t with
  | Lf h => h
  | Nd l r => parentHash (thash l) (thash r)
  end.

(** The root of an emptied tree is the empty hash. *)
Definition ohash (t : option tree) : Hash :=
  match t with Some t => thash t | None => empty end.

Definition live (t : tree) : Prop := empty ∉ leaves t.

Lemma thash_nonempty `{!HashLaws} t : live t → thash t ≠ empty.
Proof.
  destruct t as [h|l r]; [|intros _; apply parentHash_nonempty].
  unfold live. simpl. intros Hin Heq. apply Hin. rewrite Heq. by left.
Qed.

Lemma live_nd l r : live (Nd l r) ↔ live l ∧ live r.
Proof. unfold live. simpl. rewrite elem_of_app. tauto. Qed.

(** Every subtree of a tree, itself included. *)
Fixpoint subtrees (t : tree) : list tree :=
  t :: match t with Lf _ => [] | Nd l r => subtrees l ++ subtrees r end.
End Hashes.

(** ** The forest *)

(** One slot per row, row 0 first: [None] where the row has no tree, [Some None]
    where it has an emptied one. *)
Notation forest := (list (option (option tree))).

Fixpoint nl (s : forest) : Z :=
  match s with
  | [] => 0
  | x :: s => (if x then 1 else 0) + 2 * nl s
  end.

(** The trees, that of the highest row first, as [Roots] lists them. *)
Fixpoint trees (s : forest) : list (option tree) :=
  match s with
  | [] => []
  | None :: s => trees s
  | Some t :: s => trees s ++ [t]
  end.

Definition slot (s : forest) (r : Z) : option tree :=
  match s !! Z.to_nat r with Some (Some t) => t | _ => None end.

(** Adding a tree to the slot of a row, with the carries of a binary counter. *)
Fixpoint incr (s : forest) (t : tree) : forest :=
  match s with
  | [] => [Some (Some t)]
  | None :: s => Some (Some t) :: s
  | Some x :: s =>
      None :: incr s (match x with Some l => Nd l t | None => t end)
  end.

Definition add_leaves (s : forest) (hs : list Hash) : forest :=
  foldl (λ s h, incr s (Lf h)) s hs.

Definition forest_leaves (s : forest) : list Hash := mjoin (oleaves <$> trees s).

(** A tree of row [r] has at most [r] levels, and no leaf is the empty hash. *)
Definition wf_from (k : Z) (s : forest) : Prop :=
  ∀ i t, s !! i = Some (Some (Some t)) → height t ≤ k + Z.of_nat i ∧ live t.
Definition wf (s : forest) : Prop := wf_from 0 s.

Lemma nl_nonneg s : 0 ≤ nl s.
Proof. induction s as [|[x|] s IH]; simpl; lia. Qed.

Lemma nl_incr s t : nl (incr s t) = nl s + 1.
Proof. revert t. induction s as [|[x|] s IH]; intros t; simpl; rewrite ?IH; lia. Qed.

Lemma nl_add_leaves s hs : nl (add_leaves s hs) = nl s + Z.of_nat (length hs).
Proof.
  unfold add_leaves. revert s. induction hs as [|h hs IH]; intros s; simpl; [lia|].
  rewrite IH, nl_incr. lia.
Qed.

Lemma nl_testbit s r : 0 ≤ r →
  Z.testbit (nl s) r = match s !! Z.to_nat r with Some (Some _) => true | _ => false end.
Proof.
  revert r. induction s as [|x s IH]; intros r Hr; cbn [nl].
  - by rewrite Z.bits_0.
  - rewrite Z.add_comm. replace (if x then 1 else 0) with (Z.b2z (bool_decide (is_Some x)))
      by (by destruct x).
    destruct (Z.eq_dec r 0) as [->|].
    + rewrite Z.testbit_0_r. by destruct x.
    + replace r with (Z.succ (r - 1)) by lia. rewrite Z.testbit_succ_r, IH by lia.
      by replace (Z.to_nat (Z.succ (r - 1))) with (S (Z.to_nat (r - 1))) by lia.
Qed.

(** Adding keeps the leaves and puts the new ones last. *)
Lemma forest_leaves_incr s t : forest_leaves (incr s t) = forest_leaves s ++ leaves t.
Proof.
  unfold forest_leaves. revert t. induction s as [|[x|] s IH]; intros t; simpl.
  - by rewrite app_nil_r.
  - rewrite IH, fmap_app, join_app. simpl. rewrite app_nil_r, <- app_assoc. f_equal. by destruct x.
  - rewrite fmap_app, join_app. simpl. by rewrite app_nil_r.
Qed.

Lemma forest_leaves_add s hs : forest_leaves (add_leaves s hs) = forest_leaves s ++ hs.
Proof.
  unfold add_leaves. revert s. induction hs as [|h hs IH]; intros s; simpl; [by rewrite app_nil_r|].
  rewrite IH, forest_leaves_incr. simpl. by rewrite <- app_assoc.
Qed.

Lemma wf_from_cons k x s : wf_from k (x :: s) ↔
  (∀ t, x = Some (Some t) → height t ≤ k ∧ live t) ∧ wf_from (k + 1) s.
Proof.
  unfold wf_from. split.
  - intros Hwf. split.
    + intros t ->. destruct (Hwf 0%nat t) as [? ?]; [done|]. split; [lia|done].
    + intros i t Hi. destruct (Hwf (S i) t) as [? ?]; [done|]. split; [lia|done].
  - intros [Hx Hs] [|i] t Hi; simpl in Hi.
    + simplify_eq. destruct (Hx t) as [? ?]; [done|]. split; [lia|done].
    + destruct (Hs i t Hi) as [? ?]. split; [lia|done].
Qed.

Lemma wf_incr k s t : 0 ≤ k → wf_from k s → height t ≤ k → live t → wf_from k (incr s t).
Proof.
  revert k t. induction s as [|[x|] s IH]; intros k t Hk Hwf Ht Hl; simpl.
  - apply wf_from_cons. split; [by intros ? [= <-]|]. intros [|i] ? Hi; discriminate Hi.
  - apply wf_from_cons in Hwf as [Hx Hs]. apply wf_from_cons. split; [done|].
    apply IH; [lia|done| |]; destruct x as [l|]; simpl; try lia; try done.
    + destruct (Hx l) as [? _]; [done|]. lia.
    + apply live_nd. split; [|done]. by apply Hx.
  - apply wf_from_cons in Hwf as [_ Hs]. apply wf_from_cons. split; [|done]. by intros ? [= <-].
Qed.

Lemma wf_add_leaves s hs : wf s → empty ∉ hs → wf (add_leaves s hs).
Proof.
  unfold add_leaves. revert s. induction hs as [|h hs IH]; intros s Hwf Hne; simpl; [done|].
  apply not_elem_of_cons in Hne as [? ?]. apply IH; [|done]. apply wf_incr; try done.
  unfold live. simpl. by rewrite list_elem_of_singleton.
Qed.

(** ** Reading a position *)

(** The subtree at row [r], offset [o]: the tree of the row when that is a root,
    else a child of the node above.  Rows are below 64, so 64 levels suffice. *)
Fixpoint node_up (s : forest) (k : nat) (r o : Z) : option tree :=
  if is_root (nl s) r o then slot s r
  else match k with
       | O => None
       | S k => node_up s k (r + 1) (o / 2) ≫= child (Z.odd o)
       end.

Definition node (s : forest) (f p : Z) : option tree :=
  node_up s (Z.to_nat (64 - rowOf f p)) (rowOf f p) (offOf f p).

(** ** Deleting positions *)

(** [prune f D r o t] is what is left of the subtree [t] of position [(r, o)] when
    the positions [D] are deleted. *)
Fixpoint prune (f : Z) (D : list Z) (r o : Z) (t : tree) : option tree :=
  if decide (npos f r o ∈ D) then None
  else match t with
       | Lf _ => Some t
       | Nd a b => join (prune f D (r - 1) (2 * o) a) (prune f D (r - 1) (2 * o + 1) b)
       end.

Definition pruned (s : forest) (f : Z) (D : list Z) (p : Z) : option tree :=
  node s f p ≫= prune f D (rowOf f p) (offOf f p).

(** Deleting the positions [D] from a forest. *)
Definition del (f : Z) (D : list Z) (s : forest) : forest :=
  imap (λ i x, (λ t, t ≫= prune f D (Z.of_nat i) (2 * (nl s / 2 ^ (Z.of_nat i + 1)))) <$> x) s.

Lemma prune_nil f r o t : prune f [] r o t = Some t.
Proof.
  revert r o. induction t as [h|a IHa b IHb]; intros r o; simpl; [done|]. by rewrite IHa, IHb.
Qed.

(** A subtree without a deleted position is kept. *)
Lemma prune_keep f D r o t : height t ≤ r →
  (∀ k o', 0 ≤ k ≤ r → o' / 2 ^ k = o → npos f (r - k) o' ∉ D) →
  prune f D r o t = Some t.
Proof.
  revert r o. induction t as [h|a IHa b IHb]; intros r o Hh Hout;
    pose proof (Hout 0 o) as H0; rewrite Z.sub_0_r, Z.pow_0_r, Z.div_1_r in H0; cbn [prune].
  - rewrite decide_False; [done|]. apply H0; [simpl in Hh; lia|done].
  - simpl in Hh. pose proof (height_nonneg a). pose proof (height_nonneg b).
    rewrite decide_False by (apply H0; [lia|done]).
    assert (∀ c, 0 ≤ c ≤ 1 → ∀ k o', 0 ≤ k ≤ r - 1 → o' / 2 ^ k = 2 * o + c →
      npos f (r - 1 - k) o' ∉ D) as Hc.
    { intros c Hc k o' Hk Ho. replace (r - 1 - k) with (r - (k + 1)) by lia. apply Hout; [lia|].
      rewrite div_pow2_succ, Ho by lia. symmetry. apply (Z.div_unique _ _ _ c); lia. }
    rewrite IHa, IHb; [done|lia| |lia|].
    + by apply Hc.
    + intros k o' Hk Ho. apply (Hc 0); [lia|done|]. by rewrite Z.add_0_r.
Qed.

Lemma node_up_step s k r o : 0 ≤ r < 64 → is_root (nl s) r o = false → k = Z.to_nat (64 - r) →
  node_up s k r o = node_up s (Z.to_nat (64 - (r + 1))) (r + 1) (o / 2) ≫= child (Z.odd o).
Proof.
  intros Hr Hroot ->. replace (Z.to_nat (64 - r)) with (S (Z.to_nat (64 - (r + 1)))) by lia.
  cbn [node_up]. by rewrite Hroot.
Qed.

Section Node.
Context (s : forest) (f : Z) (Hfit : fits (nl s) f).
Notation n := (nl s).
Notation node := (node s f).
Notation pruned := (pruned s f).

Lemma node_npos r o : valid f r o → node (npos f r o) = node_up s (Z.to_nat (64 - r)) r o.
Proof. intros Hv. unfold Forest.node. by rewrite rowOf_npos, offOf_npos. Qed.

Lemma node_root r : 0 ≤ r ≤ f → Z.testbit n r = true →
  node (npos f r (2 * (n / 2 ^ (r + 1)))) = slot s r.
Proof.
  intros Hr Hb. assert (is_root n r (2 * (n / 2 ^ (r + 1))) = true) as Hroot
    by (unfold is_root; by rewrite Hb, Z.eqb_refl).
  assert (valid f r (2 * (n / 2 ^ (r + 1)))).
  { apply (in_forest_valid n); [done|]. apply root_in_forest; [apply nl_nonneg|lia|done]. }
  rewrite node_npos by done. destruct (Z.to_nat (64 - r)); cbn [node_up]; by rewrite Hroot.
Qed.

Lemma node_child p : inF n f p → root_at n f p = false →
  node p = node (parent p f) ≫= child (Z.odd p).
Proof.
  intros Hp Hroot.
  destruct (inF_family n f p) as (r & o & -> & Hin & Hv & Hrf & Hr & -> & _ & Hvp & _ & _ & He);
    try done.
  destruct Hv as (? & ? & ?). rewrite !node_npos by done. rewrite (node_up_step s) by (done || lia).
  by rewrite <- (Z.negb_even (npos f r o)), He, Z.negb_even.
Qed.

(** A node that is not a root has a parent and a sibling. *)
Lemma node_family p t : inF n f p → root_at n f p = false → node p = Some t →
  ∃ t', node (sibling p) = Some t' ∧
    node (parent p f) = Some (if Z.even p then Nd t t' else Nd t' t).
Proof.
  intros Hp Hroot Ht. destruct (sibling_props n f p) as (Hs & _ & _ & Hroots & Hpar); try done.
  rewrite (node_child p) in Ht by done. rewrite (node_child (sibling p)), Hpar by done.
  destruct (node (parent p f)) as [[h|a b]|]; simpl in Ht; try done.
  assert (Z.odd (sibling p) = negb (Z.odd p)) as ->.
  { rewrite sibling_eq, <- (Z.negb_even p).
    destruct (Z.even p) eqn:E; rewrite ?Z.odd_add, ?Z.odd_sub, <- Z.negb_even, E; done. }
  rewrite <- Z.negb_even in *. destruct (Z.even p); simpl in *; simplify_eq; eauto.
Qed.

(** The coordinates of a node give the trees below it. *)
Lemma node_height p t : wf s → inF n f p → node p = Some t → height t ≤ rowOf f p ∧ live t.
Proof.
  intros Hwf (r & o & -> & Hin). pose proof (in_forest_valid n f r o Hfit Hin) as Hv.
  rewrite rowOf_npos, node_npos by done. assert (0 ≤ r) as Hr by (by destruct Hin).
  clear Hin Hv. generalize (Z.to_nat (64 - r)). intros k. revert r o t Hr.
  induction k as [|k IH]; intros r o t Hr; cbn [node_up]; destruct (is_root n r o).
  1,3: unfold slot; destruct (s !! Z.to_nat r) as [[x|]|] eqn:E; try done; intros ->;
    destruct (Hwf _ _ E) as [? ?]; split; [lia|done].
  - done.
  - destruct (node_up s k (r + 1) (o / 2)) as [[h|a b]|] eqn:E; try done.
    apply IH in E as [Hh Hl]; [|lia]. simpl in Hh. apply live_nd in Hl.
    intros [= <-]. destruct (Z.odd o); split; tauto || lia.
Qed.

(** A position that is not above a deleted one keeps its subtree. *)
Lemma pruned_keep D p t : wf s → inF n f p → node p = Some t → ¬ onpath f D p →
  pruned D p = Some t.
Proof.
  intros Hwf Hp Ht Hoff. unfold Forest.pruned. rewrite Ht. simpl.
  destruct (node_height p t) as [Hh _]; try done. apply prune_keep; [done|].
  destruct Hp as (r & o & -> & Hin). pose proof (in_forest_valid n f r o Hfit Hin) as Hv.
  rewrite rowOf_npos, offOf_npos in * by done. intros k o' Hk Ho Hd. apply Hoff.
  eexists. split; [exact Hd|].
  assert (0 ≤ o') as Ho'.
  { destruct Hin as (_ & ? & _). pose proof (pow2_pos k).
    destruct (Z.lt_ge_cases o' 0) as [Hneg|]; [|done].
    pose proof (Z.div_lt_upper_bound o' (2 ^ k) 0). lia. }
  assert (valid f (r - k) o') as Hv'.
  { apply (in_forest_valid n); [done|]. apply (in_forest_desc n _ _ k); try lia.
    rewrite Ho. by replace (r - k + k) with r by lia. }
  destruct (Z.eq_dec k 0) as [->|].
  - left. rewrite Z.pow_0_r, Z.div_1_r in Ho. by rewrite Z.sub_0_r, Ho.
  - right. rewrite isAncestor_npos by done. apply andb_true_iff. split; [apply Z.ltb_lt; lia|].
    apply Z.eqb_eq. by replace (r - (r - k)) with k by lia.
Qed.

(** Deletion commutes with going up. *)
Lemma pruned_parent D p t : inF n f p → root_at n f p = false → node p = Some t →
  parent p f ∉ D →
  pruned D (parent p f) = if Z.even p then join (pruned D p) (pruned D (sibling p))
                          else join (pruned D (sibling p)) (pruned D p).
Proof.
  intros Hp Hroot Ht Hnot. destruct (node_family p t) as (t' & Ht' & Hpt); try done.
  unfold Forest.pruned. rewrite Ht, Ht', Hpt. simpl.
  destruct (inF_family n f p) as (r & o & -> & Hin & Hv & Hrf & Hr & Hpar & _ & Hvp & Hsib & Hins & He);
    try done.
  pose proof (in_forest_valid n f _ _ Hfit Hins) as Hvs.
  rewrite Hpar in *. rewrite Hsib, He, !rowOf_npos, !offOf_npos by done.
  pose proof (Zmod_even o) as Hm. pose proof (Z.div_mod o 2).
  destruct (Z.even o) eqn:E; cbn [prune]; rewrite decide_False by done;
    replace (r + 1 - 1) with r by lia; rewrite sibling_eq, E; repeat f_equal; lia.
Qed.

Lemma pruned_deleted D p : inF n f p → p ∈ D → pruned D p = None.
Proof.
  intros (r & o & -> & Hin) Hd. pose proof (in_forest_valid n f r o Hfit Hin) as Hv.
  unfold Forest.pruned. destruct (node _) as [t|]; simpl; [|done].
  rewrite rowOf_npos, offOf_npos by done. destruct t; cbn [prune]; by rewrite decide_True.
Qed.

Lemma pruned_nil p : pruned [] p = node p.
Proof.
  unfold Forest.pruned. destruct (node p) as [t|]; simpl; [|done]. apply prune_nil.
Qed.
End Node.
