(* ===== verification/EvalTheory.v ===== *)
(** * What the evaluation of a walk computes

    [eval_lab]: honest inputs give honest parents and roots, for any labelling of
    the positions that follows [getNextHash].  [eval_sound] and [eval_member]:
    what the roots say about the inputs, short of a break of the hash function. *)

From S2P Require Import Prelude Utils PosTheory HashPos Traverse Calc Walk CalcTheory Forest.

Section EvalTheory.
Context `{HashFn}.

Lemma upd_same val p h : upd val p h p = h.
Proof. unfold upd. by rewrite decide_True. Qed.

Lemma upd_other val p h x : x ≠ p → upd val p h x = val x.
Proof. intros. unfold upd. by rewrite decide_False. Qed.

(** Honest inputs. *)
Lemma eval_lab n f q tr (L : Z → Hash) val extra : fits n f →
  walk n f q tr → pending n f q → (∀ p, p ∈ q → val p = L p) →
  (∀ p, inF n f p → root_at n f p = false → onpath f q p →
     L (parent p f) = getNextHash p (L p) (L (sibling p))) →
  eval f tr val (map L (sibs tr) ++ extra) = Ok (map L (parents f tr), map L (roots_of tr)).
Proof.
  intros Hfit Hw. revert val. induction Hw as [|p q tr Hroot Hw IH|p q q' tr Hroot Hs' Hq' Hw IH
    |p q q' tr Hroot Hhd Hs' Hq' Hw IH]; intros val Hpd Hval HL; cbn [eval sibs parents roots_of].
  - done.
  - rewrite IH; [by rewrite Hval by (by left)|by eapply pending_tail| |].
    + intros. apply Hval. by right.
    + intros x ? ? Hon. apply HL; [done..|]. apply onpath_cons. by right.
  - destruct (pending_pair n f Hfit p q q') as (Hpd' & Hlt & _); try done.
    assert (inF n f p) as Hp by (apply Hpd; by left).
    destruct (rightSib_family n f Hfit p) as (Heq & _); try done.
    assert (getNextHash p (val p) (val (rightSib p)) = L (parent p f)) as Hpar.
    { rewrite !Hval, Heq by (by repeat constructor). symmetry. apply HL; [done..|].
      apply onpath_cons. by left; left. }
    rewrite Hpar, IH; [done|done| |].
    + intros x Hx. unfold upd. destruct (decide _) as [->|Hne]; [done|]. apply Hval.
      rewrite Hq' in Hx. apply elem_of_cons in Hx as [?|?]; [done|]. by do 2 right.
    + intros x ? ? Hon. apply HL; [done..|]. apply (onpath_pair n f Hfit p q q'); tauto.
  - destruct (pending_sib n f Hfit p q q') as (Hpd' & _); try done.
    assert (inF n f p) as Hp by (apply Hpd; by left). cbn [map app].
    assert (getNextHash p (val p) (L (sibling p)) = L (parent p f)) as Hpar.
    { rewrite Hval by (by left). symmetry. apply HL; [done..|]. apply onpath_cons. by left; left. }
    rewrite Hpar, IH; [done|done| |].
    + intros x Hx. unfold upd. destruct (decide _) as [->|Hne]; [done|]. apply Hval.
      rewrite Hq' in Hx. apply elem_of_cons in Hx as [?|?]; [done|]. by right.
    + intros x ? ? Hon. apply HL; [done..|]. apply (onpath_step n f Hfit p q q'); tauto.
Qed.

(** The pairs of hashes that the evaluation hashes together. *)
Definition pair_at (p : Z) (h sib : Hash) : Hash * Hash :=
  if isLeftNiece p then (h, sib) else (sib, h).

Fixpoint eval_inputs (f : Z) (tr : list step) (val : Z → Hash) (proof : list Hash)
    : list (Hash * Hash) :=
  match tr with
  | [] => []
  | SRoot p :: tr => eval_inputs f tr val proof
  | SPair p :: tr =>
      let h := getNextHash p (val p) (val (rightSib p)) in
      pair_at p (val p) (val (rightSib p)) :: eval_inputs f tr (upd val (parent p f) h) proof
  | SSib p :: tr =>
      match proof with
      | [] => []
      | s :: proof =>
          let h := getNextHash p (val p) s in
          pair_at p (val p) s :: eval_inputs f tr (upd val (parent p f) h) proof
      end
  end.

Lemma getNextHash_pair p h s : h ≠ empty → s ≠ empty →
  getNextHash p h s = parentHash (pair_at p h s).1 (pair_at p h s).2.
Proof.
  intros. unfold getNextHash, pair_at. rewrite !decide_False by done. by destruct (isLeftNiece p).
Qed.

(** All subtrees of the forest. *)
Definition nodes (s : forest) : list tree :=
  mjoin ((λ t, match t with Some t => subtrees t | None => [] end) <$> trees s).

(** A break of the hash function among the pairs [I] hashed by a verifier and the
    hashes of the forest: a collision of two different pairs, or the hash of a pair
    that is one of the leaves. *)
Definition hash_break (s : forest) (I : list (Hash * Hash)) : Prop :=
  ∃ a b, (a, b) ∈ I ∧
    ((∃ l r, Nd l r ∈ nodes s ∧ (thash l, thash r) ≠ (a, b) ∧
        parentHash (thash l) (thash r) = parentHash a b) ∨
     (∃ h, Lf h ∈ nodes s ∧ h = parentHash a b)).

Lemma hash_break_mono s I I' : I ⊆ I' → hash_break s I → hash_break s I'.
Proof. intros Hsub (a & b & Hin & Hb). exists a, b. split; [by apply Hsub|done]. Qed.

(** A hash computed from a pair and found in the forest is that of an inner node
    with these children. *)
Lemma invert_hash s t p h k : t ∈ nodes s → h ≠ empty → k ≠ empty →
  thash t = getNextHash p h k →
  (∃ l r, t = Nd l r ∧ pair_at p h k = (thash l, thash r)) ∨ hash_break s [pair_at p h k].
Proof.
  intros Ht Hh Hk Heq. rewrite getNextHash_pair in Heq by done.
  destruct (pair_at p h k) as [a b] eqn:Hab. simpl in Heq. destruct t as [x|l r]; simpl in Heq.
  - right. exists a, b. split; [by left|]. right. by exists x.
  - destruct (decide ((thash l, thash r) = (a, b))) as [E|E]; [left; by exists l, r|].
    right. exists a, b. split; [by left|]. left. by exists l, r.
Qed.

Lemma subtrees_self t : t ∈ subtrees t.
Proof. destruct t; by left. Qed.

Lemma subtrees_child t l r : Nd l r ∈ subtrees t → l ∈ subtrees t ∧ r ∈ subtrees t.
Proof.
  induction t as [h|a IHa b IHb]; simpl.
  - intros [?|?%not_elem_of_nil]%elem_of_cons; done.
  - rewrite !elem_of_cons, !elem_of_app.
    intros [[= -> ->]|[Hin|Hin]].
    + pose proof (subtrees_self a). pose proof (subtrees_self b). tauto.
    + apply IHa in Hin. tauto.
    + apply IHb in Hin. tauto.
Qed.

Lemma nodes_elem s t : t ∈ nodes s ↔ ∃ u, Some u ∈ trees s ∧ t ∈ subtrees u.
Proof.
  unfold nodes. rewrite list_elem_of_join. split.
  - intros (l & Hin & (x & -> & Hx)%list_elem_of_fmap).
    destruct x as [u|]; [eauto|by apply not_elem_of_nil in Hin].
  - intros (u & Hu & Hin). exists (subtrees u). split; [done|].
    apply list_elem_of_fmap. by exists (Some u).
Qed.

Lemma nodes_child s l r : Nd l r ∈ nodes s → l ∈ nodes s ∧ r ∈ nodes s.
Proof.
  rewrite !nodes_elem. intros (u & Hu & [? ?]%subtrees_child). split; eauto.
Qed.

Lemma slot_trees s r t : slot s r = Some t → Some t ∈ trees s.
Proof.
  unfold slot. generalize (Z.to_nat r). intros i. clear r. revert i.
  induction s as [|x s IH]; intros [|i]; simpl; try done.
  - destruct x as [x|]; [|done]. intros ->. apply elem_of_app. right. by left.
  - intros Hi. apply IH in Hi. destruct x; [apply elem_of_app; by left|done].
Qed.

Lemma node_nodes s f p t : node s f p = Some t → t ∈ nodes s.
Proof.
  unfold node. generalize (rowOf f p), (offOf f p). intros r o.
  generalize (Z.to_nat (64 - r)). intros k. revert r o t. induction k as [|k IH];
    intros r o t; cbn [node_up]; destruct (is_root (nl s) r o); try done.
  1,2: intros Ht%slot_trees; apply nodes_elem; exists t; split; [done|apply subtrees_self].
  destruct (node_up s k (r + 1) (o / 2)) as [[h|a b]|] eqn:E; try done. simpl.
  apply IH, nodes_child in E as [? ?]. intros [= <-]. by destruct (Z.odd o).
Qed.

(** The label of a position: the hash of the subtree there. *)
Definition label (s : forest) (f p : Z) : Hash := ohash (node s f p).

(** Nonempty children of an inner node determine the labels of a family. *)
Lemma label_family s f p l r h k : fits (nl s) f → inF (nl s) f p → root_at (nl s) f p = false →
  node s f (parent p f) = Some (Nd l r) → pair_at p h k = (thash l, thash r) →
  h = label s f p ∧ k = label s f (sibling p).
Proof.
  intros Hfit Hp Hroot Hn Hpair. unfold label.
  assert (node s f p = Some (if Z.even p then l else r)) as Ht.
  { rewrite node_child, Hn by done. simpl. rewrite <- Z.negb_even. by destruct (Z.even p). }
  destruct (node_family s f Hfit p _ Hp Hroot Ht) as (t' & Ht' & Hn').
  rewrite Hn in Hn'. rewrite Ht, Ht'. unfold pair_at in Hpair. rewrite isLeftNiece_even in Hpair.
  destruct (Z.even p); simplify_eq; done.
Qed.

(** One level of the soundness arguments. *)
Lemma parent_label s f p h k : fits (nl s) f → inF (nl s) f p → root_at (nl s) f p = false →
  h ≠ empty → k ≠ empty → getNextHash p h k ≠ empty →
  getNextHash p h k = label s f (parent p f) →
  (h = label s f p ∧ k = label s f (sibling p)) ∨ hash_break s [pair_at p h k].
Proof.
  intros Hfit Hp Hroot Hh Hk Hne Heq. unfold label in Heq.
  destruct (node s f (parent p f)) as [t|] eqn:Hn; [|done].
  destruct (invert_hash s t p h k) as [(l & r & -> & Hpair)|]; try done.
  - by eapply node_nodes.
  - left. by eapply label_family.
  - by right.
Qed.

Lemma eval_ok_sib f p tr val prf ps rs :
  eval f (SSib p :: tr) val prf = Ok (ps, rs) →
  ∃ k prf' ps', prf = k :: prf' ∧
    eval f tr (upd val (parent p f) (getNextHash p (val p) k)) prf' = Ok (ps', rs).
Proof.
  cbn [eval]. destruct prf as [|k prf']; [done|]. intros He. exists k, prf'.
  destruct (eval f tr _ prf') as [[ps' rs']| | |]; try done. injection He as _ ->. by exists ps'.
Qed.

Lemma eval_ok_pair f p tr val prf ps rs :
  eval f (SPair p :: tr) val prf = Ok (ps, rs) →
  ∃ ps', eval f tr (upd val (parent p f) (getNextHash p (val p) (val (rightSib p)))) prf
         = Ok (ps', rs).
Proof.
  cbn [eval]. intros He. destruct (eval f tr _ prf) as [[ps' rs']| | |]; try done.
  injection He as _ ->. by exists ps'.
Qed.

Lemma eval_ok_root f p tr val prf ps rs :
  eval f (SRoot p :: tr) val prf = Ok (ps, rs) →
  ∃ rs', rs = val p :: rs' ∧ eval f tr val prf = Ok (ps, rs').
Proof.
  cbn [eval]. intros He. destruct (eval f tr val prf) as [[ps' rs']| | |]; try done.
  injection He as <- <-. by exists rs'.
Qed.

Lemma getNextHash_nonempty `{!HashLaws} p h k : h ≠ empty → getNextHash p h k ≠ empty.
Proof.
  intros Hh. unfold getNextHash. rewrite decide_False by done.
  destruct (decide (k = empty)); [done|]. destruct (isLeftNiece p); apply parentHash_nonempty.
Qed.

Lemma upd_nonempty f p q q' val h : q' ≡ₚ parent p f :: q →
  (∀ x, x ∈ q → val x ≠ empty) → h ≠ empty →
  ∀ x, x ∈ q' → upd val (parent p f) h x ≠ empty.
Proof.
  intros Hq' Hv Hh x Hx. unfold upd. destruct (decide _); [done|]. apply Hv.
  rewrite Hq' in Hx. by apply elem_of_cons in Hx as [?|?].
Qed.

(** [h] is the hash of a subtree of the forest. *)
Definition member (s : forest) (h : Hash) : Prop := ∃ t, t ∈ nodes s ∧ thash t = h.

Lemma member_pair s p h k : h ≠ empty → k ≠ empty → member s (getNextHash p h k) →
  (member s h ∧ member s k) ∨ hash_break s [pair_at p h k].
Proof.
  intros Hh Hk (t & Ht & Heq). destruct (invert_hash s t p h k) as [(l & r & -> & Hpair)|]; try done.
  - left. apply nodes_child in Ht as [? ?]. unfold pair_at in Hpair.
    destruct (isLeftNiece p); simplify_eq; split; eexists; eauto.
  - by right.
Qed.

Lemma Q_other (Q : Z → Hash → Prop) f p q q' val h x :
  StronglySorted Z.lt q' → q' ≡ₚ parent p f :: q →
  (∀ y, y ∈ q' → Q y (upd val (parent p f) h y)) → x ∈ q → Q x (val x).
Proof.
  intros Hs' Hq' HQ Hx. assert (x ∈ q') as Hin by (rewrite Hq'; by right).
  specialize (HQ x Hin). rewrite upd_other in HQ; [done|]. intros ->. by eapply (next_notin f p q).
Qed.

Lemma eval_lengths f tr val prf ps rs : eval f tr val prf = Ok (ps, rs) →
  length ps = length (parents f tr) ∧ length rs = length (roots_of tr).
Proof.
  revert val prf ps rs. induction tr as [|[p|p|p] tr IH]; intros val prf ps rs He.
  - by injection He as <- <-.
  - apply eval_ok_root in He as (rs' & -> & He). simpl. apply IH in He as [? ?]. auto.
  - cbn [eval] in He. destruct (eval f tr _ prf) as [[ps' rs']| | |] eqn:E; try done.
    injection He as <- <-. apply IH in E as [? ?]. simpl. auto.
  - cbn [eval] in He. destruct prf as [|k prf]; [done|].
    destruct (eval f tr _ prf) as [[ps' rs']| | |] eqn:E; try done.
    injection He as <- <-. apply IH in E as [? ?]. simpl. auto.
Qed.

(** Arguing backwards from the roots.  [Q p h] says what a hash [h] at position [p]
    should be; if it can be pulled down from a parent to both children, it holds of
    every hash of the worklist and of every proof hash used, or the hash function is
    broken. *)
Lemma eval_back `{!HashLaws} s f (Q : Z → Hash → Prop) q tr val prf ps rs : let n := nl s in
  fits n f →
  (∀ p h k, inF n f p → root_at n f p = false → h ≠ empty → k ≠ empty →
     Q (parent p f) (getNextHash p h k) →
     (Q p h ∧ Q (sibling p) k) ∨ hash_break s [pair_at p h k]) →
  walk n f q tr → pending n f q →
  eval f tr val prf = Ok (ps, rs) → Forall2 Q (roots_of tr) rs →
  (∀ p, p ∈ q → val p ≠ empty) → (∀ h, h ∈ take (length (sibs tr)) prf → h ≠ empty) →
  ((∀ p, p ∈ q → Q p (val p)) ∧ Forall2 Q (sibs tr) (take (length (sibs tr)) prf)) ∨
  hash_break s (eval_inputs f tr val prf).
Proof.
  intros n Hfit HQ Hw. revert val prf ps rs.
  induction Hw as [|p q tr Hroot Hw IH|p q q' tr Hroot Hs' Hq' Hw IH
    |p q q' tr Hroot Hhd Hs' Hq' Hw IH]; intros val prf ps rs Hpd He Hrs Hv Hprf;
    cbn [sibs eval_inputs length take].
  - left. split; [|constructor]. by intros p ?%not_elem_of_nil.
  - apply eval_ok_root in He as (rs' & -> & He). apply Forall2_cons in Hrs as [Hp Hrs].
    destruct (IH val prf ps rs') as [[Hq Hsib]|]; try done; [by eapply pending_tail| |left|by right].
    + intros. apply Hv. by right.
    + split; [|done]. intros x [->|?]%elem_of_cons; auto.
  - apply eval_ok_pair in He as (ps' & He).
    destruct (pending_pair n f Hfit p q q') as (Hpd' & Hlt & _); try done.
    assert (inF n f p) as Hp by (apply Hpd; by left).
    destruct (rightSib_family n f Hfit p) as (Heq & _); try done.
    assert (val p ≠ empty) as Hvp by (apply Hv; by left).
    assert (val (rightSib p) ≠ empty) as Hvs by (apply Hv; right; by left).
    destruct (IH _ prf ps' rs Hpd' He Hrs) as [[Hq Hsib]|Hb]; try done.
    { eapply upd_nonempty; [done| |by apply getNextHash_nonempty]. intros. apply Hv. by do 2 right. }
    2:{ right. eapply hash_break_mono; [|exact Hb]. by right. }
    destruct (HQ p (val p) (val (rightSib p))) as [[? ?]|Hb]; try done.
    + rewrite <- (upd_same val (parent p f) (getNextHash _ _ _)). apply Hq. rewrite Hq'. by left.
    + left. split; [|done]. rewrite Heq in *. intros x [->|[->|Hx]%elem_of_cons]%elem_of_cons; try done.
      by eapply Q_other.
    + right. eapply hash_break_mono; [|exact Hb]. intros x ->%list_elem_of_singleton. by left.
  - apply eval_ok_sib in He as (k & prf' & ps' & -> & He).
    destruct (pending_sib n f Hfit p q q') as (Hpd' & _); try done.
    assert (inF n f p) as Hp by (apply Hpd; by left).
    assert (val p ≠ empty) as Hvp by (apply Hv; by left).
    simpl in Hprf. assert (k ≠ empty) as Hk by (apply Hprf; by left).
    destruct (IH _ prf' ps' rs Hpd' He Hrs) as [[Hq Hsib]|Hb].
    { eapply upd_nonempty; [done| |by apply getNextHash_nonempty]. intros. apply Hv. by right. }
    { intros. apply Hprf. by right. }
    2:{ right. eapply hash_break_mono; [|exact Hb]. by right. }
    destruct (HQ p (val p) k) as [[? ?]|Hb]; try done.
    + rewrite <- (upd_same val (parent p f) (getNextHash _ _ _)). apply Hq. rewrite Hq'. by left.
    + left. split; [|by constructor]. intros x [->|Hx]%elem_of_cons; try done.
      by eapply Q_other.
    + right. eapply hash_break_mono; [|exact Hb]. intros x ->%list_elem_of_singleton. by left.
Qed.

(** Roots that are those of the forest force every input to be the one of the forest. *)
Lemma eval_sound `{!HashLaws} s f q tr val prf ps rs : let n := nl s in
  fits n f → walk n f q tr → pending n f q →
  eval f tr val prf = Ok (ps, rs) → rs = map (label s f) (roots_of tr) →
  (∀ p, p ∈ q → val p ≠ empty) → (∀ h, h ∈ take (length (sibs tr)) prf → h ≠ empty) →
  ((∀ p, p ∈ q → val p = label s f p) ∧
   take (length (sibs tr)) prf = map (label s f) (sibs tr)) ∨
  hash_break s (eval_inputs f tr val prf).
Proof.
  intros n Hfit Hw Hpd He -> Hv Hprf.
  destruct (eval_back s f (λ p h, h = label s f p) q tr val prf ps (map (label s f) (roots_of tr)))
    as [[Hq Hsib]|]; try done.
  - intros p h k Hp Hroot Hh Hk Heq. apply parent_label; try done. by apply getNextHash_nonempty.
  - clear. induction (roots_of tr); constructor; done.
  - left. split; [done|]. clear -Hsib. revert Hsib. generalize (take (length (sibs tr)) prf).
    induction 1; simpl; congruence.
  - by right.
Qed.

(** Roots that are hashes of the forest, wherever they are, force every input to be one. *)
Lemma eval_member `{!HashLaws} s f q tr val prf ps rs : let n := nl s in
  fits n f → walk n f q tr → pending n f q →
  eval f tr val prf = Ok (ps, rs) → (∀ h, h ∈ rs → member s h) →
  (∀ p, p ∈ q → val p ≠ empty) → (∀ h, h ∈ take (length (sibs tr)) prf → h ≠ empty) →
  (∀ p, p ∈ q → member s (val p)) ∨ hash_break s (eval_inputs f tr val prf).
Proof.
  intros n Hfit Hw Hpd He Hrs Hv Hprf.
  destruct (eval_back s f (λ _ h, member s h) q tr val prf ps rs) as [[Hq _]|]; try done; auto.
  - intros p h k _ _. apply member_pair.
  - apply eval_lengths in He as [_ He]. revert He Hrs. generalize (roots_of tr). clear.
    induction rs as [|r rs IH]; intros [|x l] He Hrs; try done; constructor.
    + apply Hrs. by left.
    + apply IH; [by injection He|]. intros. apply Hrs. by right.
Qed.
End EvalTheory.
