(* ===== verification/Stump.v ===== *)
(** * The stump (stump.go)

    The verifier's state: the roots and the number of leaves.  A method with a
    pointer receiver that can fail returns the receiver next to its outcome, so that
    what an error leaves behind is visible. *)

From S2P Require Import Prelude Utils HashPos Traverse Calc.

Record Stump : Type := mkStump { Roots : list Hash; NumLeaves : Z }.

Record UpdateData : Type := mkUpdateData {
  ToDestroy : list Z;
  PrevNumLeaves : Z;
  NewDelHash : list Hash;
  NewDelPos : list Z;
  NewAddHash : list Hash;
  NewAddPos : list Z;
}.

(** [roots[len(roots)-1]] and [roots[:len(roots)-1]]. *)
Definition popLast (roots : list Hash) : res (Hash * list Hash) :=
  match last roots with
  | Some root => Ok (root, take (length roots - 1) roots)
  | None => Panic
  end.

(** [(numLeaves >> h) & 1 == 1]. *)
Definition bitSet (numLeaves h : Z) : bool := (numLeaves >>> h) &&& 1 =? 1.

(** The loops over the set low bits of a [uint64] stop at the latest at bit 64. *)
Definition bit_fuel : nat := 65.

(** ** rootsToDestory *)

Fixpoint rootsToDestory_row (fuel : nat) (h numLeaves totalRows : Z) (roots : list Hash)
    (deleted : list Z) : res (list Hash * list Z) :=
  match fuel with
  | O => Spin
  | S fuel =>
      if bitSet numLeaves h then
        let* (root, roots) := popLast roots in
        let deleted :=
          if decide (root = empty) then deleted ++ [rootPosition numLeaves h totalRows]
          else deleted in
        rootsToDestory_row fuel (u8 (h + 1)) numLeaves totalRows roots deleted
      else Ok (roots, deleted)
  end.

(** [Hash{1}]: the first of the 32 bytes is 1. *)
Definition hash1 : Hash := 2 ^ 248.

(** [left] is [numAdds - i]. *)
Fixpoint rootsToDestory_loop (left : nat) (numLeaves : Z) (roots : list Hash) (deleted : list Z)
    : res (list Z) :=
  match left with
  | O => Ok deleted
  | S left' =>
      let* (roots, deleted) :=
        rootsToDestory_row bit_fuel 0 numLeaves (treeRows (numLeaves ⊞ Z.of_nat left))
          roots deleted in
      rootsToDestory_loop left' (numLeaves ⊞ 1) (roots ++ [hash1]) deleted
  end.

Definition rootsToDestory (numAdds : nat) (numLeaves : Z) (origRoots : list Hash)
    : res (list Z) :=
  rootsToDestory_loop numAdds numLeaves origRoots [].

Section Stump.
Context `{HashFn}.

(** ** Verify *)

(** The loop over the roots from the last one: [k] is [len(stump.Roots) - i]. *)
Fixpoint match_loop (k : nat) (roots cands : list Hash) (rootIndexes : list nat) : list nat :=
  match k with
  | O => rootIndexes
  | S k =>
      let hit :=
        match roots !! k, cands !! length rootIndexes with
        | Some r, Some c => bool_decide (r = c)
        | _, _ => false
        end in
      match_loop k roots cands (if hit then rootIndexes ++ [k] else rootIndexes)
  end.

Definition Verify (stump : Stump) (delHashes : list Hash) (proof : Proof) : res (list nat) :=
  if negb (length delHashes =? length (Targets proof))%nat then Err ErrTargetCount
  else
    let* (_, rootCandidates) := calculateHashes (NumLeaves stump) (Some delHashes) proof in
    let rootIndexes := match_loop (length (Roots stump)) (Roots stump) rootCandidates [] in
    if negb (length rootCandidates =? length rootIndexes)%nat then Err ErrInvalidProof
    else Ok rootIndexes.

(** ** del *)

(** [for i, index := range rootIndexes { s.Roots[index] = modifiedRoots[i] }]. *)
Fixpoint setRoots (roots : list Hash) (rootIndexes : list nat) (modifiedRoots : list Hash)
    : list Hash :=
  match rootIndexes, modifiedRoots with
  | i :: rest, m :: ms => setRoots (<[i := m]> roots) rest ms
  | _, _ => roots
  end.

Definition del_roots (s : Stump) (delHashes : list Hash) (proof : Proof)
    : res (list Hash * hashAndPos) :=
  let* rootIndexes := Verify s delHashes proof in
  let* (intermediate, modifiedRoots) := calculateHashes (NumLeaves s) None proof in
  if negb (length modifiedRoots =? length rootIndexes)%nat then Err ErrModifiedRoots
  else Ok (setRoots (Roots s) rootIndexes modifiedRoots, intermediate).

Definition del (s : Stump) (delHashes : list Hash) (proof : Proof)
    : Stump * res (list Hash * list Z) :=
  match del_roots s delHashes proof with
  | Ok (roots, intermediate) =>
      (mkStump roots (NumLeaves s), Ok (hashes intermediate, positions intermediate))
  | Err e => (s, Err e)
  | Panic => (s, Panic)
  | Spin => (s, Spin)
  end.

(** ** add *)

(** Moving the position of the new leaf up past the empty roots it overwrites. *)
Definition moveUp (deleted : list Z) (afterRows pos : Z) : Z :=
  foldl (λ pos del,
    if isAncestor (parent del afterRows) pos afterRows
    then or_zero 0 (calcNextPosition pos del afterRows) else pos) pos deleted.

Fixpoint add_row (fuel : nat) (h numLeaves afterRows : Z) (roots : list Hash) (pos : Z)
    (newRoot : Hash) (subTreeUpdated : hashAndPos) : res (list Hash * Z * Hash * hashAndPos) :=
  match fuel with
  | O => Spin
  | S fuel =>
      if bitSet numLeaves h then
        let* (root, roots) := popLast roots in
        if decide (root ≠ empty) then
          let sub := Append (Append subTreeUpdated (leftSib pos) root) pos newRoot in
          add_row fuel (u8 (h + 1)) numLeaves afterRows roots (parent pos afterRows)
            (parentHash root newRoot) sub
        else add_row fuel (u8 (h + 1)) numLeaves afterRows roots pos newRoot subTreeUpdated
      else Ok (roots, pos, newRoot, subTreeUpdated)
  end.

(** The loop over the leaves to add; returns the new state and the sub trees. *)
Fixpoint add_loop (adds : list Hash) (s : Stump) (afterRows : Z) (subTrees : list hashAndPos)
    : res (Stump * list hashAndPos) :=
  match adds with
  | [] => Ok (s, subTrees)
  | a :: adds' =>
      let* deleted := rootsToDestory (length adds) (NumLeaves s) (Roots s) in
      let pos := moveUp deleted afterRows (NumLeaves s) in
      let* (roots, pos, newRoot, sub) :=
        add_row bit_fuel 0 (NumLeaves s) afterRows (Roots s) pos a hnp_nil in
      let sub := Append sub pos newRoot in
      add_loop adds' (mkStump (roots ++ [newRoot]) (NumLeaves s ⊞ 1)) afterRows
        (subTrees ++ [sub])
  end.

(** Merging the sub trees, but for those whose nodes recur in the next one. *)
Fixpoint mergeSubTrees (subTrees : list hashAndPos) (updated : hashAndPos) : res hashAndPos :=
  match subTrees with
  | [] => Ok updated
  | subTree :: rest =>
      let* skip :=
        match rest with
        | next :: _ =>
            let* duplicates := getHashAndPosHashSubset subTree (hashes next) in
            Ok (0 <? Len duplicates)%nat
        | [] => Ok false
        end in
      if (skip : bool) then mergeSubTrees rest updated
      else let* updated := mergeSortedHashAndPos updated subTree in mergeSubTrees rest updated
  end.

Definition add (s : Stump) (adds : list Hash)
    : res (Stump * (list Hash * list Z * list Z)) :=
  let afterRows := treeRows (NumLeaves s ⊞ Z.of_nat (length adds)) in
  let* allDeleted := rootsToDestory (length adds) (NumLeaves s) (Roots s) in
  let* (s, subTrees) := add_loop adds s afterRows [] in
  let* updated := mergeSubTrees subTrees hnp_nil in
  Ok (s, (hashes updated, positions updated, allDeleted)).

(** ** Update *)

Definition Update (s : Stump) (delHashes addHashes : list Hash) (proof : Proof)
    : Stump * res UpdateData :=
  match del s delHashes proof with
  | (s1, Ok (delHash, delPos)) =>
      match add s1 addHashes with
      | Ok (s2, (addHash, addPos, toDestroy)) =>
          (s2, Ok (mkUpdateData toDestroy (NumLeaves s1) delHash delPos addHash addPos))
      | Err e => (s1, Err e)
      | Panic => (s1, Panic)
      | Spin => (s1, Spin)
      end
  | (s1, Err e) => (s1, Err e)
  | (s1, Panic) => (s1, Panic)
  | (s1, Spin) => (s1, Spin)
  end.
End Stump.
