(* ===== verification/ProofUpdate.v ===== *)
(** * Combining, trimming and updating proofs (prove.go)

    [AddProof], [GetMissingPositions] and [GetProofSubset], and the update and undo of
    a cached proof.  A method on [*Proof] that returns the cached hashes is a function
    from the old proof to the new proof and these hashes.  Where the source mutates a
    slice while it ranges over it, the state of the loop keeps the slice that is
    ranged over and the slice that is written apart. *)

From S2P Require Import Prelude Utils HashPos Traverse Calc Stump.

(** [v, _ := f()] where [v] is [z] next to an error; panics and endless loops stay. *)
Definition ignore_err {A} (z : A) (m : res A) : res A :=
  match m with Err _ => Ok z | _ => m end.

(** [subtree, _, _, _ := detectOffset(pos, numLeaves)]. *)
Definition subtreeOf (position numLeaves : Z) : res Z :=
  let* (subtree, _, _) := ignore_err (0, 0, 0) (detectOffset position numLeaves) in Ok subtree.

(** [for idx < len(l) && l[idx] < pos { idx++ }]. *)
Fixpoint skipLess (fuel idx : nat) (l : list Z) (pos : Z) : nat :=
  match fuel with
  | O => idx
  | S fuel =>
      match l !! idx with
      | Some x => if x <? pos then skipLess fuel (S idx) l pos else idx
      | None => idx
      end
  end.

(** ** Combining proofs *)

(** Both arguments are sorted; the source sorts [desiredTargets] in place. *)
Definition GetMissingPositions (numLeaves : Z) (proofTargets desiredTargets : list Z)
    : res (list Z) :=
  let forestRows := treeRows numLeaves in
  let targets := copySortedFunc proofTargets in
  let desiredTargets := copySortedFunc desiredTargets in
  let* desiredTargets := subtractSortedSlice desiredTargets targets in
  if (length desiredTargets <=? 0)%nat then Ok []
  else
    let* (desiredPositions, _) := proofPositions desiredTargets numLeaves forestRows in
    let* (havePositions, computablePos) := proofPositions targets numLeaves forestRows in
    let havePositions := copySortedFunc (havePositions ++ targets ++ computablePos) in
    subtractSortedSlice desiredPositions havePositions.

Section ProofUpdate.
Context `{HashFn}.

Definition AddProof (proofA proofB : Proof) (targetHashesA targetHashesB : list Hash)
    (numLeaves : Z) : res (list Hash * Proof) :=
  let totalRows := treeRows numLeaves in
  let targetsA := copySortedFunc (Targets proofA) in
  let* (proofPosA, calculateableA) := proofPositions targetsA numLeaves totalRows in
  let proofAndPosA := mkHnp proofPosA (ProofHashes proofA) in
  let targetsB := copySortedFunc (Targets proofB) in
  let* (proofPosB, calculateableB) := proofPositions targetsB numLeaves totalRows in
  let proofAndPosB := mkHnp proofPosB (ProofHashes proofB) in
  let* proofAndPosC := mergeSortedHashAndPos proofAndPosA proofAndPosB in
  let* calculateableC := mergeSortedSlicesFunc calculateableA calculateableB in
  let* proofAndPosC := subtractSortedHashAndPos proofAndPosC calculateableC in
  let* targetsC := mergeSortedSlicesFunc targetsA targetsB in
  let* proofAndPosC := subtractSortedHashAndPos proofAndPosC targetsC in
  let retProof := mkProof targetsC (hashes proofAndPosC) in
  let* cachedDelHashAndPosA := toHashAndPos (Targets proofA) targetHashesA in
  let* cachedDelHashAndPosB := toHashAndPos (Targets proofB) targetHashesB in
  let* cachedDelHashAndPosC := mergeSortedHashAndPos cachedDelHashAndPosA cachedDelHashAndPosB in
  Ok (hashes cachedDelHashAndPosC, retProof).

(** [slices.Index] is -1 for a value that is not there, which then panics. *)
Fixpoint wantHashes (hnp : hashAndPos) (wants : list Z) : res (list Hash) :=
  match wants with
  | [] => Ok []
  | want :: wants =>
      let* h :=
        match list_find (λ p, p = want) (positions hnp) with
        | Some (idx, _) => index (hashes hnp) idx
        | None => Panic
        end in
      let* hs := wantHashes hnp wants in
      Ok (h :: hs)
  end.

Definition GetProofSubset (proof : Proof) (hs : list Hash) (wants : list Z) (numLeaves : Z)
    : res (list Hash * Proof) :=
  let proofTargetsCopy := copySortedFunc (Targets proof) in
  let* expectedEmpty := subtractSortedSlice (copySortedFunc wants) proofTargetsCopy in
  if (0 <? length expectedEmpty)%nat then Err ErrMissing
  else
    let* targetHashesWithPos := toHashAndPos proofTargetsCopy hs in
    let* (posAndHashes, _) := calculateHashes numLeaves (Some hs) proof in
    let* posAndHashes := sort_hnp posAndHashes in
    let* (ps, _) := proofPositions proofTargetsCopy numLeaves (treeRows numLeaves) in
    let* proofPos := toHashAndPos ps (ProofHashes proof) in
    let* posAndHashes := mergeSortedHashAndPos posAndHashes proofPos in
    let sortedWants := copySortedFunc wants in
    let* targetHashesWithPos := getHashAndPosSubset targetHashesWithPos sortedWants in
    let* (wantProofPos, _) :=
      proofPositions (positions targetHashesWithPos) numLeaves (treeRows numLeaves) in
    let* posAndHashes := getHashAndPosSubset posAndHashes wantProofPos in
    if negb (Len posAndHashes =? length wantProofPos)%nat then Err ErrProofCount
    else
      let* retHashes := wantHashes targetHashesWithPos wants in
      Ok (retHashes, mkProof wants (hashes posAndHashes)).

(** ** Moving positions after a deletion *)

(** [for pos > maxPossiblePosAtRow(row, totalRows) && row <= totalRows { row++ }]. *)
Fixpoint advancePossible (fuel : nat) (pos row totalRows : Z) : res Z :=
  match fuel with
  | O => Spin
  | S fuel =>
      if (maxPossiblePosAtRow row totalRows <? pos) && (row <=? totalRows)
      then advancePossible fuel pos (u8 (row + 1)) totalRows
      else Ok row
  end.

(** The loop over the block targets for one position; [row] is not updated when the
    position moves up. *)
Fixpoint nextPosition (blockTargets : list Z) (nextPos numLeaves row totalRows : Z) : res Z :=
  match blockTargets with
  | [] => Ok nextPos
  | target :: blockTargets =>
      if isRootPositionOnRow nextPos numLeaves row then Ok nextPos
      else
        let* subtree := subtreeOf target numLeaves in
        let* subtree1 := subtreeOf nextPos numLeaves in
        if negb (subtree =? subtree1)
        then nextPosition blockTargets nextPos numLeaves row totalRows
        else if isAncestor (parent target totalRows) nextPos totalRows
        then nextPosition blockTargets (or_zero 0 (calcNextPosition nextPos target totalRows))
               numLeaves row totalRows
        else nextPosition blockTargets nextPos numLeaves row totalRows
  end.

Fixpoint getNewPositions_loop (ps : list Z) (i : nat) (slice : hashAndPos) (row : Z)
    (blockTargets : list Z) (numLeaves totalRows : Z) (appendRoots : bool)
    (newSlice : hashAndPos) : res hashAndPos :=
  match ps with
  | [] => Ok newSlice
  | pos :: ps =>
      let* hash := index (hashes slice) i in
      if decide (hash = empty) then
        getNewPositions_loop ps (S i) slice row blockTargets numLeaves totalRows appendRoots newSlice
      else
        let* row := advancePossible 256 pos row totalRows in
        if totalRows <? row then Ok newSlice
        else
          let* nextPos := nextPosition blockTargets pos numLeaves row totalRows in
          let newSlice :=
            if appendRoots || negb (isRootPositionOnRow nextPos numLeaves row)
            then Append newSlice nextPos hash else newSlice in
          getNewPositions_loop ps (S i) slice row blockTargets numLeaves totalRows appendRoots newSlice
  end.

Definition getNewPositions (blockTargets : list Z) (slice : hashAndPos) (numLeaves : Z)
    (appendRoots : bool) : res hashAndPos :=
  let totalRows := treeRows numLeaves in
  let* newSlice := getNewPositions_loop (positions slice) 0 slice 0 blockTargets numLeaves
                     totalRows appendRoots hnp_nil in
  sort_hnp newSlice.

(** ** Update: deletions *)

(** The old proof hashes that are still needed, with their new values. *)
Fixpoint keepProofs (ps : list Z) (i : nat) (oldProofs : hashAndPos) (extraPos : list Z)
    (extraIdx : nat) (updated : hashAndPos) (idx : nat) (newProofs : hashAndPos)
    : res hashAndPos :=
  match ps with
  | [] => Ok newProofs
  | pos :: ps =>
      let extraIdx := skipLess (length extraPos) extraIdx extraPos pos in
      if bool_decide (extraPos !! extraIdx = Some pos)
      then keepProofs ps (S i) oldProofs extraPos extraIdx updated idx newProofs
      else
        let idx := skipLess (Len updated) idx (positions updated) pos in
        if bool_decide (positions updated !! idx = Some pos) then
          let* h := index (hashes updated) idx in
          let newProofs := if decide (h ≠ empty) then Append newProofs pos h else newProofs in
          keepProofs ps (S i) oldProofs extraPos extraIdx updated idx newProofs
        else
          let* h := index (hashes oldProofs) i in
          keepProofs ps (S i) oldProofs extraPos extraIdx updated idx (Append newProofs pos h)
  end.

(** The newly needed proof hashes that the update data provides. *)
Fixpoint addMissing (missingPos : list Z) (updated : hashAndPos) (idx : nat)
    (newProofs : hashAndPos) : res hashAndPos :=
  match missingPos with
  | [] => Ok newProofs
  | missing :: missingPos =>
      let idx := skipLess (Len updated) idx (positions updated) missing in
      if bool_decide (positions updated !! idx = Some missing) then
        let* h := index (hashes updated) idx in
        addMissing missingPos updated idx (Append newProofs missing h)
      else addMissing missingPos updated idx newProofs
  end.

Definition updateProofRemove (p : Proof) (blockTargets : list Z) (cachedHashes : list Hash)
    (updated : hashAndPos) (numLeaves : Z) : res (Proof * list Hash) :=
  let totalRows := treeRows numLeaves in
  let sortedBlockTargets := copySortedFunc blockTargets in
  let* targetsWithHash := toHashAndPos (Targets p) cachedHashes in
  let* targetsWithHash := subtractSortedHashAndPos targetsWithHash sortedBlockTargets in
  let sortedCachedTargets := copySortedFunc (Targets p) in
  let* (proofPos, _) := proofPositions sortedCachedTargets numLeaves totalRows in
  let* oldProofs := toHashAndPos proofPos (ProofHashes p) in
  let* (neededPos, _) := proofPositions (positions targetsWithHash) numLeaves totalRows in
  let extraPos := copySortedFunc (positions oldProofs) in
  let* extraPos := subtractSortedSlice extraPos neededPos in
  let* newProofs := keepProofs (positions oldProofs) 0 oldProofs extraPos 0 updated 0 hnp_nil in
  let missingPos := copySortedFunc neededPos in
  let* missingPos := subtractSortedSlice missingPos (positions oldProofs) in
  let* missingPos := subtractSortedSlice missingPos sortedBlockTargets in
  let* newProofs := addMissing missingPos updated 0 newProofs in
  let sortedBlockTargets := deTwin sortedBlockTargets totalRows in
  let* targetsWithHash := getNewPositions sortedBlockTargets targetsWithHash numLeaves true in
  let* newProofs := getNewPositions sortedBlockTargets newProofs numLeaves false in
  Ok (mkProof (positions targetsWithHash) (hashes newProofs), hashes targetsWithHash).

(** ** Update: additions *)

(** A position keeps its row and offset when the forest gets more rows. *)
Definition remap (numLeaves fromRows toRows pos : Z) : Z :=
  let row := detectRow pos (treeRows numLeaves) in
  let offset := pos ⊟ startPositionAtRow row fromRows in
  offset ⊞ startPositionAtRow row toRows.

Definition maybeRemap (numLeaves numAdds : Z) (hnp : hashAndPos) : hashAndPos :=
  let newForestRows := treeRows (numLeaves ⊞ numAdds) in
  let oldForestRows := treeRows numLeaves in
  if oldForestRows <? newForestRows
  then mkHnp (map (remap numLeaves oldForestRows newForestRows) (positions hnp)) (hashes hnp)
  else hnp.

(** The added leaves whose index is in [remembers]; each round advances one of the two. *)
Fixpoint rememberedAdds (fuel i remembersIdx : nat) (adds : list Hash) (remembers : list Z)
    (addHashes : list Hash) : res (list Hash) :=
  match fuel with
  | O => Spin
  | S fuel =>
      match adds !! i with
      | None => Ok addHashes
      | Some add =>
          match remembers !! remembersIdx with
          | None => Ok addHashes
          | Some r =>
              if u32 (Z.of_nat i) =? r
              then rememberedAdds fuel (S i) (S remembersIdx) adds remembers (addHashes ++ [add])
              else if r <? u32 (Z.of_nat i)
              then rememberedAdds fuel i (S remembersIdx) adds remembers addHashes
              else rememberedAdds fuel (S i) remembersIdx adds remembers addHashes
          end
      end
  end.

(** [for _, del := range toDestroy { hnp = getNewPositions([]uint64{del}, hnp, n, true) }]. *)
Fixpoint moveUpAll (toDestroy : list Z) (hnp : hashAndPos) (numLeaves : Z) : res hashAndPos :=
  match toDestroy with
  | [] => Ok hnp
  | del :: toDestroy =>
      let* hnp := getNewPositions [del] hnp numLeaves true in moveUpAll toDestroy hnp numLeaves
  end.

Definition updateProofAdd (p : Proof) (adds cachedDelHashes : list Hash) (remembers : list Z)
    (newNodes : hashAndPos) (beforeNumLeaves : Z) (toDestroy : list Z)
    : res (Proof * list Hash) :=
  let numAdds := Z.of_nat (length adds) in
  let numLeaves := beforeNumLeaves ⊞ numAdds in
  let* origTargetsWithHash := toHashAndPos (Targets p) cachedDelHashes in
  let* (proofPos, _) :=
    proofPositions (positions origTargetsWithHash) beforeNumLeaves (treeRows beforeNumLeaves) in
  let* proofWithPos := toHashAndPos proofPos (ProofHashes p) in
  let origTargetsWithHash := maybeRemap beforeNumLeaves numAdds origTargetsWithHash in
  let proofWithPos := maybeRemap beforeNumLeaves numAdds proofWithPos in
  let* origTargetsWithHash := moveUpAll toDestroy origTargetsWithHash numLeaves in
  let* proofWithPos := moveUpAll toDestroy proofWithPos numLeaves in
  let* newNodes := mergeSortedHashAndPos newNodes proofWithPos in
  let* addHashes :=
    rememberedAdds (length adds + length remembers + 1) 0 0 adds remembers [] in
  let* remembersWithHash := getHashAndPosHashSubset newNodes addHashes in
  let* origTargetsWithHash := mergeSortedHashAndPos remembersWithHash origTargetsWithHash in
  let* (neededProofPositions, _) :=
    proofPositions (positions origTargetsWithHash) numLeaves (treeRows numLeaves) in
  let* newProofWithPos := addMissing neededProofPositions newNodes 0 hnp_nil in
  let* newProofWithPos := sort_hnp newProofWithPos in
  Ok (mkProof (positions origTargetsWithHash) (hashes newProofWithPos), hashes origTargetsWithHash).

(** [Proof.Update]. *)
Definition updateProof (p : Proof) (cachedHashes addHashes : list Hash) (blockTargets : list Z)
    (remembers : list Z) (updateData : UpdateData) : res (Proof * list Hash) :=
  let* (p, cachedHashes) :=
    updateProofRemove p blockTargets cachedHashes
      (mkHnp (NewDelPos updateData) (NewDelHash updateData)) (PrevNumLeaves updateData) in
  updateProofAdd p addHashes cachedHashes remembers
    (mkHnp (NewAddPos updateData) (NewAddHash updateData)) (PrevNumLeaves updateData)
    (ToDestroy updateData).
End ProofUpdate.
