(* ===== verification/ProofUndo.v ===== *)
(** * Undoing the update of a proof (prove.go)

    [pruneEdges], [undoAdd], [undoDel] and [Proof.Undo]. *)

From S2P Require Import Prelude Utils HashPos Traverse Calc Stump ProofUpdate.

(** ** Undoing additions *)

Fixpoint pruneEdges_loop (ps : list Z) (i : nat) (hnp : hashAndPos) (numAdds numLeaves : Z)
    (forestRows prevForestRows : Z) (acc : hashAndPos) : res hashAndPos :=
  match ps with
  | [] => Ok acc
  | target :: ps =>
      let row := detectRow target forestRows in
      if prevForestRows <? row then
        pruneEdges_loop ps (S i) hnp numAdds numLeaves forestRows prevForestRows acc
      else
        let currentStartPos := startPositionAtRow row forestRows in
        let prevStartPos := startPositionAtRow row prevForestRows in
        let offset := target ⊟ currentStartPos in
        let* maxPos := maxPositionAtRow row prevForestRows (numLeaves ⊟ numAdds) in
        if prevStartPos ⊞ offset <=? maxPos then
          let* h := index (hashes hnp) i in
          pruneEdges_loop ps (S i) hnp numAdds numLeaves forestRows prevForestRows
            (Append acc target h)
        else pruneEdges_loop ps (S i) hnp numAdds numLeaves forestRows prevForestRows acc
  end.

Definition pruneEdges (hnp : hashAndPos) (numAdds numLeaves forestRows prevForestRows : Z)
    : res hashAndPos :=
  pruneEdges_loop (positions hnp) 0 hnp numAdds numLeaves forestRows prevForestRows hnp_nil.

(** One position moved down below an empty root that was written over. *)
Definition undestroy (destroyed numAdds numLeaves forestRows target : Z) : res Z :=
  if destroyed <=? target then Ok target
  else
    let* subtree := subtreeOf target numLeaves in
    let* subtree1 := subtreeOf destroyed (numLeaves ⊟ numAdds) in
    if negb (subtree =? subtree1) then Ok target
    else if isAncestor (parent destroyed forestRows) target forestRows
    then Ok (calcPrevPosition target destroyed forestRows)
    else Ok target.

Fixpoint mapRes {A B} (g : A → res B) (l : list A) : res (list B) :=
  match l with
  | [] => Ok []
  | x :: l => let* y := g x in let* ys := mapRes g l in Ok (y :: ys)
  end.

Fixpoint undestroyAll (toDestroy : list Z) (numAdds numLeaves forestRows : Z)
    (targets proofs : hashAndPos) : res (hashAndPos * hashAndPos) :=
  match toDestroy with
  | [] => Ok (targets, proofs)
  | destroyed :: toDestroy =>
      let* ts := mapRes (undestroy destroyed numAdds numLeaves forestRows) (positions targets) in
      let* ps := mapRes (undestroy destroyed numAdds numLeaves forestRows) (positions proofs) in
      undestroyAll toDestroy numAdds numLeaves forestRows (mkHnp ts (hashes targets))
        (mkHnp ps (hashes proofs))
  end.

(** [for i := 0; i < hnp.Len(); i++ { ... hnp.Delete(i) }]: the element behind a deleted
    one is skipped. *)
Fixpoint deleteUnder (fuel i : nat) (destroyed numLeaves : Z) (hnp : hashAndPos) : res hashAndPos :=
  match fuel with
  | O => Spin
  | S fuel =>
      match positions hnp !! i with
      | None => Ok hnp
      | Some target =>
          let* subtree := subtreeOf destroyed numLeaves in
          let* subtree1 := subtreeOf target numLeaves in
          if (subtree =? subtree1) || (target =? destroyed)
          then let* hnp := Delete hnp i in deleteUnder fuel (S i) destroyed numLeaves hnp
          else deleteUnder fuel (S i) destroyed numLeaves hnp
      end
  end.

Fixpoint deleteUnderAll (toDestroy : list Z) (numLeaves : Z) (targets proofs : hashAndPos)
    : res (hashAndPos * hashAndPos) :=
  match toDestroy with
  | [] => Ok (targets, proofs)
  | destroyed :: toDestroy =>
      let* proofs := deleteUnder (Len proofs + 1) 0 destroyed numLeaves proofs in
      let* targets := deleteUnder (Len targets + 1) 0 destroyed numLeaves targets in
      deleteUnderAll toDestroy numLeaves targets proofs
  end.

(** [for row := 0; row <= int(prevForestRows); row++]: the body does not use the row. *)
Fixpoint deleteUnderRows (rounds : nat) (toDestroy : list Z) (numLeaves : Z)
    (targets proofs : hashAndPos) : res (hashAndPos * hashAndPos) :=
  match rounds with
  | O => Ok (targets, proofs)
  | S rounds =>
      let* (targets, proofs) := deleteUnderAll toDestroy numLeaves targets proofs in
      deleteUnderRows rounds toDestroy numLeaves targets proofs
  end.

Definition undoAdd (p : Proof) (numAdds numLeaves : Z) (cachedHashes : list Hash)
    (toDestroy : list Z) : res (Proof * list Hash) :=
  let* targetsWithHash := toHashAndPos (Targets p) cachedHashes in
  let* (proofPos, _) := proofPositions (positions targetsWithHash) numLeaves (treeRows numLeaves) in
  let* proofWithPos := toHashAndPos proofPos (ProofHashes p) in
  let forestRows := treeRows numLeaves in
  let prevForestRows := treeRows (numLeaves ⊟ numAdds) in
  let* (targetsWithHash, proofWithPos) :=
    undestroyAll toDestroy numAdds numLeaves forestRows targetsWithHash proofWithPos in
  let* targetsWithHash := pruneEdges targetsWithHash numAdds numLeaves forestRows prevForestRows in
  let* proofWithPos := pruneEdges proofWithPos numAdds numLeaves forestRows prevForestRows in
  let* (targetsWithHash, proofWithPos) :=
    deleteUnderRows (Z.to_nat prevForestRows + 1) toDestroy numLeaves targetsWithHash proofWithPos in
  let back hnp :=
    if prevForestRows <? forestRows
    then mkHnp (map (remap numLeaves forestRows prevForestRows) (positions hnp)) (hashes hnp)
    else hnp in
  let targetsWithHash := back targetsWithHash in
  let proofWithPos := back proofWithPos in
  let* (neededProofPos, _) :=
    proofPositions (positions targetsWithHash) (numLeaves ⊟ numAdds) prevForestRows in
  let* proofWithPos := getHashAndPosSubset proofWithPos neededProofPos in
  Ok (mkProof (positions targetsWithHash) (hashes proofWithPos), hashes targetsWithHash).

(** ** Undoing deletions *)

(** [s[i] = v]: out of range panics. *)
Definition setIndex {A} (l : list A) (i : nat) (v : A) : res (list A) :=
  if (i <? length l)%nat then Ok (<[i := v]> l) else Panic.

(** Whether [target] is the sibling of the deleted node that has moved to [sibPos], or
    below it. *)
Definition underSibling (blockTarget sibPos target numLeaves totalRows : Z) : res bool :=
  let* subtree := subtreeOf target numLeaves in
  let* subtree1 := subtreeOf blockTarget numLeaves in
  if negb (subtree =? subtree1) then Ok false
  else Ok (isAncestor sibPos target totalRows || (sibPos =? target)).

Section UndoDel.
Context `{HashFn}.

(** The loop over the cached targets: it ranges over the slice that it writes to and
    sorts, so each round reads what earlier rounds left at its index. *)
Fixpoint undoTargets (todo i : nat) (blockTarget : Z) (blockHash : Hash)
    (numLeaves totalRows : Z) (targets newProofs : hashAndPos) : res (hashAndPos * hashAndPos) :=
  match todo with
  | O => Ok (targets, newProofs)
  | S todo =>
      let sibPos := parent blockTarget totalRows in
      let* target := index (positions targets) i in
      let* hit := underSibling blockTarget sibPos target numLeaves totalRows in
      if hit then
        let* ps := setIndex (positions targets) i (calcPrevPosition target blockTarget totalRows) in
        let* newProofs := sort_hnp (Append newProofs blockTarget blockHash) in
        let* targets := sort_hnp (mkHnp ps (hashes targets)) in
        undoTargets todo (S i) blockTarget blockHash numLeaves totalRows targets newProofs
      else undoTargets todo (S i) blockTarget blockHash numLeaves totalRows targets newProofs
  end.

(** The loop over the proof positions.  It ranges over the positions as they were
    before the first merge, which replaces [proofWithPos] by a fresh slice: [ranged]
    is the slice ranged over, [aliased] whether [proofWithPos] still shares it. *)
Fixpoint undoProofs (todo i : nat) (blockTarget : Z) (blockHash : Hash)
    (numLeaves totalRows : Z) (ranged : list Z) (aliased : bool) (proofWithPos : hashAndPos)
    : res hashAndPos :=
  match todo with
  | O => Ok proofWithPos
  | S todo =>
      let sibPos := parent blockTarget totalRows in
      let* target := index (if aliased then positions proofWithPos else ranged) i in
      let* hit := underSibling blockTarget sibPos target numLeaves totalRows in
      if hit then
        let* ps := setIndex (positions proofWithPos) i
                     (calcPrevPosition target blockTarget totalRows) in
        let* sibHash := index (hashes proofWithPos) i in
        let* proofWithPos := sort_hnp (mkHnp ps (hashes proofWithPos)) in
        let ranged := if aliased then positions proofWithPos else ranged in
        let parentH :=
          if isLeftNiece blockTarget then parentHash blockHash sibHash
          else parentHash sibHash blockHash in
        let* proofWithPos := mergeSortedHashAndPos proofWithPos (mkHnp [sibPos] [parentH]) in
        undoProofs todo (S i) blockTarget blockHash numLeaves totalRows ranged false proofWithPos
      else undoProofs todo (S i) blockTarget blockHash numLeaves totalRows ranged aliased proofWithPos
  end.

(** The block targets from the last one. *)
Fixpoint undoBlock (blockTargets : list (Z * Hash)) (numLeaves totalRows : Z)
    (targets proofWithPos newProofs : hashAndPos) : res (hashAndPos * hashAndPos * hashAndPos) :=
  match blockTargets with
  | [] => Ok (targets, proofWithPos, newProofs)
  | (blockTarget, blockHash) :: blockTargets =>
      let* (targets, newProofs) :=
        undoTargets (Len targets) 0 blockTarget blockHash numLeaves totalRows targets newProofs in
      let* proofWithPos :=
        undoProofs (Len proofWithPos) 0 blockTarget blockHash numLeaves totalRows
          (positions proofWithPos) true proofWithPos in
      undoBlock blockTargets numLeaves totalRows targets proofWithPos newProofs
  end.

(** The proof hashes replaced by those from before the deletion. *)
Fixpoint replaceBefore (ps : list Z) (i : nat) (before : hashAndPos) (beforeIdx : nat)
    (hs : list Hash) : res (list Hash) :=
  match ps with
  | [] => Ok hs
  | pos :: ps =>
      let beforeIdx := skipLess (Len before) beforeIdx (positions before) pos in
      if bool_decide (positions before !! beforeIdx = Some pos) then
        let* h := index (hashes before) beforeIdx in
        let* hs := setIndex hs i h in
        replaceBefore ps (S i) before beforeIdx hs
      else replaceBefore ps (S i) before beforeIdx hs
  end.

Definition undoDel (p : Proof) (blockTargets : list Z) (blockHashes cachedHashes : list Hash)
    (blockProof : Proof) (numLeaves : Z) : res (Proof * list Hash) :=
  let totalRows := treeRows numLeaves in
  if (length blockTargets =? 0)%nat then Ok (p, cachedHashes)
  else
    let* targetsWithHashes := toHashAndPos (Targets p) cachedHashes in
    let* (proofPos, _) := proofPositions (positions targetsWithHashes) numLeaves totalRows in
    let* proofWithPos := toHashAndPos proofPos (ProofHashes p) in
    let* blockTargetsWithHash := toHashAndPos blockTargets blockHashes in
    let* blockTargetsWithHash := deTwinHashAndPos blockTargetsWithHash totalRows in
    if (length (hashes blockTargetsWithHash) <? Len blockTargetsWithHash)%nat then Panic
    else
      let* (targetsWithHashes, proofWithPos, newProofs) :=
        undoBlock (reverse (zip (positions blockTargetsWithHash) (hashes blockTargetsWithHash)))
          numLeaves totalRows targetsWithHashes proofWithPos hnp_nil in
      let* proofWithPos := mergeSortedHashAndPos proofWithPos newProofs in
      let* (before, _) := calculateHashes numLeaves (Some blockHashes) blockProof in
      let* hs := replaceBefore (positions proofWithPos) 0 before 0 (hashes proofWithPos) in
      let* proofWithPos := mergeSortedHashAndPos (mkHnp (positions proofWithPos) hs) before in
      let* (neededProofPos, _) :=
        proofPositions (positions targetsWithHashes) numLeaves totalRows in
      let* proofWithPos := getHashAndPosSubset proofWithPos neededProofPos in
      Ok (mkProof (positions targetsWithHashes) (hashes proofWithPos), hashes targetsWithHashes).

(** [Proof.Undo]. *)
Definition Undo (p : Proof) (numAdds numLeaves : Z) (dels : list Z)
    (delHashes cachedHashes : list Hash) (toDestroy : list Z) (proof : Proof)
    : res (Proof * list Hash) :=
  let* (p, cachedHashes) := undoAdd p numAdds numLeaves cachedHashes toDestroy in
  undoDel p dels delHashes cachedHashes proof (numLeaves ⊟ numAdds).
End UndoDel.
