(* ===== verification/PolNode.v ===== *)
(** * Nodes of a pollard (polnode.go)

    Nodes are linked by Go pointers and written through them, so they live in a heap: a
    finite map from addresses to nodes.  A pointer is an address or [None] for [nil], and
    reading a field through [nil] panics.  The heap is part of the state of a pollard;
    functions on nodes change nothing else. *)

From S2P Require Import Prelude State Utils HashPos.

Notation addr := positive.
Notation ptr := (option addr).

Record polNode : Type := mkNode {
  lNiece : ptr;
  rNiece : ptr;
  aunt : ptr;
  data : Hash;
  remember : bool;
}.

(** The keys of [NodeMap] are the short hashes. *)
Record Pollard : Type := mkPollard {
  NodeMap : gmap Z addr;
  Roots : list addr;
  NumLeaves : Z;
  NumDels : Z;
  Full : bool;
  heap : gmap addr polNode;
}.

Definition setHeap (h : gmap addr polNode) (p : Pollard) : Pollard :=
  mkPollard (NodeMap p) (Roots p) (NumLeaves p) (NumDels p) (Full p) h.

Definition setLNiece (l : ptr) (n : polNode) : polNode :=
  mkNode l (rNiece n) (aunt n) (data n) (remember n).
Definition setRNiece (r : ptr) (n : polNode) : polNode :=
  mkNode (lNiece n) r (aunt n) (data n) (remember n).
Definition setAunt (a : ptr) (n : polNode) : polNode :=
  mkNode (lNiece n) (rNiece n) a (data n) (remember n).
Definition setData (h : Hash) (n : polNode) : polNode :=
  mkNode (lNiece n) (rNiece n) (aunt n) h (remember n).

(** [&polNode{...}]. *)
Definition new (n : polNode) : st Pollard ptr := λ p,
  let a := fresh (dom (heap p)) in (setHeap (<[a := n]> (heap p)) p, Ok (Some a)).

(** [n.field]. *)
Definition rd {A} (field : polNode → A) (n : ptr) : st Pollard A := λ p,
  match n ≫= λ a, heap p !! a with
  | Some nd => (p, Ok (field nd))
  | None => (p, Panic)
  end.

(** [n.field = ...]. *)
Definition wr (upd : polNode → polNode) (n : ptr) : st Pollard unit := λ p,
  match n with
  | Some a =>
      match heap p !! a with
      | Some nd => (setHeap (<[a := upd nd]> (heap p)) p, Ok tt)
      | None => (p, Panic)
      end
  | None => (p, Panic)
  end.

(** A walk that meets more nodes than there are in the heap goes round in circles. *)
Definition heap_fuel (p : Pollard) : nat := S (size (heap p)).

(** ** Relatives *)

Definition getSibling (n : ptr) : st Pollard ptr :=
  a ← rd aunt n;
  if decide (a = None) then mret None
  else
    l ← rd lNiece a;
    r ← rd rNiece a;
    if decide (n = l) then mret r
    else if decide (n = r) then mret l
    else fail ErrAunt.

Definition getParent (n : ptr) : st Pollard ptr :=
  a ← rd aunt n;
  if decide (a = None) then mret None
  else
    aa ← rd aunt a;
    if decide (aa = None) then mret a
    else
      l ← rd lNiece aa;
      r ← rd rNiece aa;
      if decide (l = a) then mret r
      else if decide (r = a) then mret l
      else fail ErrAunt.

Definition getChildren (n : ptr) : st Pollard (ptr * ptr) :=
  a ← rd aunt n;
  if decide (a = None) then
    l ← rd lNiece n;
    r ← rd rNiece n;
    mret (l, r)
  else
    sibling ← getSibling n;
    if decide (sibling = None) then fail ErrNoSibling
    else
      l ← rd lNiece sibling;
      r ← rd rNiece sibling;
      mret (l, r).

(** [for h := int(branchLen) - 1; h >= 0; h--]. *)
Fixpoint getNode_loop (h : nat) (bits : Z) (n sibling parent : ptr) : st Pollard (ptr * ptr * ptr) :=
  match h with
  | O => mret (n, sibling, parent)
  | S h =>
      let parent := sibling in
      let niecePos := u8 (bits >>> Z.of_nat h) &&& 1 in
      l ← rd lNiece n;
      r ← rd rNiece n;
      let '(n, sibling) := if isLeftNiece niecePos then (l, r) else (r, l) in
      if decide (n = None) then mret (None, None, None)
      else getNode_loop h bits n sibling parent
  end.

(** The node at a position, its sibling and its parent. *)
Definition getNode (pos : Z) : st Pollard (ptr * ptr * ptr) :=
  numLeaves ← gets NumLeaves;
  if maxPosition (treeRows numLeaves) <=? pos then fail ErrNoPosition
  else
    '(tree, branchLen, bits) ← lift (detectOffset pos numLeaves);
    roots ← gets Roots;
    if u8 (Z.of_nat (length roots)) <=? tree then fail ErrRootIndex
    else
      root ← lift (index roots (Z.to_nat tree));
      getNode_loop (Z.to_nat branchLen) bits (Some root) (Some root) None.

(** [err != nil || n == nil]: an error is the empty hash as well. *)
Definition getHash (pos : Z) : st Pollard Hash := λ p,
  match getNode pos p with
  | (p, Ok (n, _, _)) => (if decide (n = None) then mret empty else rd data n) p
  | (p, Err _) => (p, Ok empty)
  | (p, Panic) => (p, Panic)
  | (p, Spin) => (p, Spin)
  end.

Definition GetHash (pos : Z) : st Pollard Hash := getHash pos.

(** [for polNode.aunt != nil]. *)
Fixpoint calculatePosition_up (fuel : nat) (n : ptr) (leftRightIndicator rowsToTop : Z)
    : st Pollard (ptr * Z * Z) :=
  match fuel with
  | O => lift Spin
  | S fuel =>
      a ← rd aunt n;
      if decide (a = None) then mret (n, leftRightIndicator, rowsToTop)
      else
        l ← rd lNiece a;
        let leftRightIndicator :=
          if decide (l = n) then leftRightIndicator <<< 1
          else (leftRightIndicator <<< 1) ||| 1 in
        let leftRightIndicator :=
          if rowsToTop =? 0 then leftRightIndicator ^^^ 1 else leftRightIndicator in
        calculatePosition_up fuel a leftRightIndicator (rowsToTop + 1)
  end.

(** [for h := 0; h <= int(forestRows); h++], with [count] rounds left; [rootIdx] is one less
    than [roots]. *)
Fixpoint rootRow_loop (count : nat) (h : Z) (roots : nat) (hash : Hash) : st Pollard Z :=
  match count with
  | O => mret (-1)
  | S count =>
      numLeaves ← gets NumLeaves;
      if (numLeaves >>> h) &&& 1 =? 1 then
        match roots with
        | O => lift Panic
        | S roots =>
            all ← gets Roots;
            root ← lift (index all roots);
            d ← rd data (Some root);
            if decide (d = hash) then mret h
            else rootRow_loop count (h + 1) roots hash
        end
      else rootRow_loop count (h + 1) roots hash
  end.

Definition calculatePosition_down (rowsToTop leftRightIndicator retPos forestRows : Z) : Z :=
  foldl (λ retPos i,
    let isRight := 1 <<< i in
    if leftRightIndicator &&& isRight =? isRight
    then sibling (rightChild retPos forestRows)
    else sibling (leftChild retPos forestRows)) retPos (seqZ 0 rowsToTop).

Definition calculatePosition (node : ptr) : st Pollard Z :=
  fuel ← gets heap_fuel;
  '(polNode, leftRightIndicator, rowsToTop) ← calculatePosition_up fuel node 0 0;
  numLeaves ← gets NumLeaves;
  let forestRows := treeRows numLeaves in
  hash ← rd data polNode;
  roots ← gets (λ p, length (Roots p));
  rootRow ← rootRow_loop (Z.to_nat forestRows + 1) 0 roots hash;
  let retPos := rootPosition numLeaves (u8 rootRow) forestRows in
  mret (calculatePosition_down rowsToTop leftRightIndicator retPos forestRows).

(** ** Changing pointers *)

Definition deadEnd (n : ptr) : st Pollard bool :=
  l ← rd lNiece n;
  r ← rd rNiece n;
  mret (bool_decide (l = None ∧ r = None)).

Definition delNode (node : ptr) : st Pollard unit :=
  if decide (node = None) then mret tt
  else
    a ← rd aunt node;
    (if decide (a = None) then mret tt
     else
       r ← rd rNiece a;
       l ← rd lNiece a;
       if decide (r = node) then wr (setRNiece None) a
       else if decide (l = node) then wr (setLNiece None) a
       else mret tt);;
    wr (setAunt None) node;;
    l ← rd lNiece node;
    (if decide (l = None) then mret tt else wr (setAunt None) l);;
    wr (setLNiece None) node;;
    r ← rd rNiece node;
    (if decide (r = None) then mret tt else wr (setAunt None) r);;
    wr (setRNiece None) node.

Definition prune (n : ptr) : st Pollard unit :=
  l ← rd lNiece n;
  r ← rd rNiece n;
  lRemember ← rd remember l;
  remember ← (if (lRemember : bool) then mret true else rd remember r);
  lDead ← deadEnd l;
  (if lDead && negb remember then delNode l;; wr (setLNiece None) n else mret tt);;
  r ← rd rNiece n;
  rDead ← deadEnd r;
  (if rDead && negb remember then delNode r;; wr (setRNiece None) n else mret tt).

Definition chop (n : ptr) : st Pollard unit :=
  l ← rd lNiece n;
  delNode l;;
  r ← rd rNiece n;
  delNode r;;
  wr (setLNiece None) n;;
  wr (setRNiece None) n.

(** The recursion goes down the nieces and stops at one that has the right aunt. *)
Fixpoint updateAunt_loop (fuel : nat) (n : ptr) : st Pollard unit :=
  match fuel with
  | O => lift Spin
  | S fuel =>
      l ← rd lNiece n;
      lAunt ← (if decide (l = None) then mret None else rd aunt l);
      if decide (l ≠ None ∧ lAunt = n) then mret tt
      else
        (if decide (l = None) then mret tt
         else wr (setAunt n) l;; updateAunt_loop fuel l);;
        r ← rd rNiece n;
        if decide (r = None) then mret tt
        else
          rAunt ← rd aunt r;
          if decide (rAunt = n) then mret tt
          else wr (setAunt n) r;; updateAunt_loop fuel r
  end.

Definition updateAunt (n : ptr) : st Pollard unit :=
  fuel ← gets heap_fuel;
  updateAunt_loop fuel n.

Definition swapNieces (a b : ptr) : st Pollard unit :=
  bl ← rd lNiece b;
  br ← rd rNiece b;
  al ← rd lNiece a;
  ar ← rd rNiece a;
  wr (setLNiece bl) a;;
  wr (setRNiece br) a;;
  wr (setLNiece al) b;;
  wr (setRNiece ar) b;;
  updateAunt a;;
  updateAunt b.

Definition transferNiece (a b : ptr) : st Pollard unit :=
  l ← rd lNiece b;
  r ← rd rNiece b;
  wr (setLNiece l) a;;
  wr (setRNiece r) a;;
  wr (setLNiece None) b;;
  wr (setRNiece None) b;;
  updateAunt a.

(** [if n.aunt != nil]: its aunt's pointer to [n] becomes [to]. *)
Definition redirectAunt (n to : ptr) : st Pollard unit :=
  a ← rd aunt n;
  if decide (a = None) then mret tt
  else
    l ← rd lNiece a;
    r ← rd rNiece a;
    if decide (l = n) then wr (setLNiece to) a
    else if decide (r = n) then wr (setRNiece to) a
    else fail ErrAunt.

Definition transferAunt (a b : ptr) : st Pollard unit :=
  redirectAunt a None;;
  redirectAunt b a;;
  bAunt ← rd aunt b;
  wr (setAunt bAunt) a;;
  if decide (bAunt = None) then mret tt else updateAunt bAunt.

(** [sort.Search] for the first node past the position. *)
Definition nodeAndPos : Type := ptr * Z.

Definition insertSortNodeAndPos (nodes : list nodeAndPos) (el : nodeAndPos) : list nodeAndPos :=
  let index := sortSearch (length nodes) (λ i, el.2 <? (default (None, 0) (nodes !! i)).2) in
  take index nodes ++ el :: drop index nodes.

Section Hash.
Context `{HashFn}.

(** [for node != nil]: each round rehashes a node, from its children, and goes on to the
    parent. *)
Fixpoint hashToRoot_loop (fuel : nat) (node : ptr) : st Pollard unit :=
  match fuel with
  | O => lift Spin
  | S fuel =>
      if decide (node = None) then mret tt
      else
        '(leftChild, rightChild) ← getChildren node;
        l ← rd data leftChild;
        r ← rd data rightChild;
        wr (setData (parentHash l r)) node;;
        node ← getParent node;
        hashToRoot_loop fuel node
  end.

Definition hashToRoot (node : ptr) : st Pollard unit :=
  fuel ← gets heap_fuel;
  hashToRoot_loop fuel node.

Definition calculateParentHash (nodePos : Z) (node sibling : ptr) : st Pollard Hash :=
  n ← rd data node;
  s ← rd data sibling;
  mret (if isLeftNiece nodePos then parentHash n s else parentHash s n).

(** As in [deTwin], [i] is unchanged after a merge. *)
Fixpoint deTwinPolNode_loop (fuel : nat) (i : nat) (polNodes : list nodeAndPos) (forestRows : Z)
    : st Pollard (list nodeAndPos) :=
  match fuel with
  | O => mret polNodes
  | S fuel =>
      match polNodes !! i with
      | None => mret polNodes
      | Some pn =>
          match polNodes !! S i with
          | Some next =>
              if rightSib pn.2 =? next.2 then
                swapNieces pn.1 next.1;;
                l ← rd data pn.1;
                r ← rd data next.1;
                parentNode ← new (mkNode None None None (parentHash l r) false);
                wr (setLNiece pn.1) parentNode;;
                wr (setRNiece next.1) parentNode;;
                updateAunt parentNode;;
                deTwinPolNode_loop fuel i
                  (insertSortNodeAndPos (take i polNodes ++ drop (i + 2) polNodes)
                     (parentNode, parent pn.2 forestRows)) forestRows
              else deTwinPolNode_loop fuel (S i) polNodes forestRows
          | None => deTwinPolNode_loop fuel (S i) polNodes forestRows
          end
      end
  end.

Definition deTwinPolNode (polNodes : list nodeAndPos) (forestRows : Z)
    : st Pollard (list nodeAndPos) :=
  deTwinPolNode_loop (2 * length polNodes + 1) 0 polNodes forestRows.
End Hash.

(** The number of nodes below a node, and itself. *)
Fixpoint getCount_loop (fuel : nat) (n : ptr) : st Pollard Z :=
  match fuel with
  | O => lift Spin
  | S fuel =>
      if decide (n = None) then mret 0
      else
        l ← rd lNiece n;
        cl ← getCount_loop fuel l;
        r ← rd rNiece n;
        cr ← getCount_loop fuel r;
        mret (cl + 1 + cr)
  end.

Definition getCount (n : ptr) : st Pollard Z :=
  fuel ← gets heap_fuel;
  getCount_loop (S fuel) n.
