(* ===== verification/Pollard.v ===== *)
(** * The pointer pollard (pollard.go, prove.go)

    [Modify], [Undo], [Prove] and [Verify] on the heap of [PolNode]. *)

From S2P Require Import Prelude State Utils HashPos Traverse Calc Stump PolNode.

Notation Pollard := PolNode.Pollard.
Notation NumLeaves := PolNode.NumLeaves.
Notation Roots := PolNode.Roots.

Definition NewAccumulator (full : bool) : Pollard := mkPollard ∅ [] 0 0 full ∅.

Definition setNodeMap (m : gmap Z addr) (p : Pollard) : Pollard :=
  mkPollard m (Roots p) (NumLeaves p) (NumDels p) (Full p) (heap p).
Definition setRootList (rs : list addr) (p : Pollard) : Pollard :=
  mkPollard (NodeMap p) rs (NumLeaves p) (NumDels p) (Full p) (heap p).
Definition setNumLeaves (n : Z) (p : Pollard) : Pollard :=
  mkPollard (NodeMap p) (Roots p) n (NumDels p) (Full p) (heap p).
Definition setNumDels (n : Z) (p : Pollard) : Pollard :=
  mkPollard (NodeMap p) (Roots p) (NumLeaves p) n (Full p) (heap p).

(** [p.NodeMap[h.mini()] = n], [delete(p.NodeMap, h.mini())]. *)
Definition putMap (h : Hash) (n : addr) (p : Pollard) : Pollard :=
  setNodeMap (<[mini h := n]> (NodeMap p)) p.
Definition deleteMap (h : Hash) (p : Pollard) : Pollard :=
  setNodeMap (delete (mini h) (NodeMap p)) p.

(** A pointer that is not [nil]. *)
Definition deref (n : ptr) : st Pollard addr :=
  match n with Some a => mret a | None => lift Panic end.

Definition GetNumLeaves (p : Pollard) : Z := NumLeaves p.
Definition GetTreeRows (p : Pollard) : Z := treeRows (NumLeaves p).

(** The node at a root and the other roots. *)
Definition popRoot : st Pollard addr :=
  roots ← gets Roots;
  match last roots with
  | Some root => modify (setRootList (take (length roots - 1) roots));; mret root
  | None => lift Panic
  end.

Definition pushRoot (n : ptr) : st Pollard unit :=
  a ← deref n;
  modify (λ p, setRootList (Roots p ++ [a]) p).

(** The index of the root of a position that is a root. *)
Definition rootIndex (pos : Z) : st Pollard Z :=
  numLeaves ← gets NumLeaves;
  '(tree, _, _) ← lift (detectOffset pos numLeaves);
  mret tree.

Fixpoint rootHashes (roots : list addr) : st Pollard (list Hash) :=
  match roots with
  | [] => mret []
  | root :: roots => d ← rd data (Some root); ds ← rootHashes roots; mret (d :: ds)
  end.

Definition GetRoots : st Pollard (list Hash) :=
  roots ← gets Roots;
  rootHashes roots.

Section Pollard.
Context `{HashFn}.

(** ** Adding *)

(** [for h := uint8(0); (p.NumLeaves>>h)&1 == 1; h++]. *)
Fixpoint calculateNewRoot_loop (fuel : nat) (h : Z) (node : ptr) : st Pollard ptr :=
  match fuel with
  | O => lift Spin
  | S fuel =>
      numLeaves ← gets NumLeaves;
      if bitSet numLeaves h then
        root ← popRoot;
        d ← rd data (Some root);
        if decide (d = empty) then calculateNewRoot_loop fuel (u8 (h + 1)) node
        else
          swapNieces (Some root) node;;
          l ← rd data (Some root);
          r ← rd data node;
          full ← gets Full;
          newRoot ← new (mkNode (Some root) node None (parentHash l r) full);
          updateAunt newRoot;;
          prune newRoot;;
          calculateNewRoot_loop fuel (u8 (h + 1)) newRoot
      else mret node
  end.

Definition calculateNewRoot (node : ptr) : st Pollard ptr :=
  calculateNewRoot_loop bit_fuel 0 node.

Definition add (adds : list Leaf) : st Pollard unit :=
  for_each adds (λ add,
    full ← gets Full;
    let remember := if (full : bool) then true else Remember add in
    node ← new (mkNode None None None (leafHash add) remember);
    (if (remember : bool) then a ← deref node; modify (putMap (leafHash add) a) else mret tt);;
    newRoot ← calculateNewRoot node;
    pushRoot newRoot;;
    modify (λ p, setNumLeaves (NumLeaves p ⊞ 1) p)).

(** ** Deleting *)

Definition deleteRoot (del : Z) : st Pollard unit :=
  tree ← rootIndex del;
  roots ← gets Roots;
  if u8 (Z.of_nat (length roots) - 1) <? tree then fail ErrRootIndex
  else
    root ← lift (index roots (Z.to_nat tree));
    d ← rd data (Some root);
    modify (deleteMap d);;
    l ← rd lNiece (Some root);
    (if decide (l = None) then mret tt else wr (setAunt None) l);;
    r ← rd rNiece (Some root);
    (if decide (r = None) then mret tt else wr (setAunt None) r);;
    chop (Some root);;
    wr (setAunt None) (Some root);;
    wr (setData empty) (Some root).

Definition deleteSingle (del : Z) : st Pollard unit :=
  let from := sibling del in
  '(fromNode, fromNodeSib, _) ← getNode from;
  toNode ← getParent fromNodeSib;
  toSib ← rd aunt fromNodeSib;
  toAunt ← rd aunt toNode;
  (if decide (toAunt ≠ None) then
     dropError (transferAunt fromNode toNode);;
     transferNiece fromNode toNode;;
     transferNiece toSib fromNodeSib;;
     a ← rd aunt toNode;
     updateAunt a
   else
     nd ← rd id fromNode;
     wr (λ _, nd) toNode;;
     transferNiece toNode fromNodeSib;;
     updateAunt toNode;;
     delNode fromNode;;
     d ← rd data toNode;
     found ← gets (λ p, NodeMap p !! mini d);
     match found with
     | Some _ => a ← deref toNode; modify (putMap d a)
     | None => mret tt
     end);;
  d ← rd data fromNodeSib;
  modify (deleteMap d);;
  delNode fromNodeSib;;
  numLeaves ← gets NumLeaves;
  let to := parent del (treeRows numLeaves) in
  if isRootPosition to numLeaves then wr (setAunt None) toNode
  else
    parentNode ← getParent toNode;
    sib ← orElse (getSibling parentNode) (wr (setAunt None) toNode);
    wr (setAunt sib) toNode;;
    a ← rd aunt toNode;
    (if decide (a = None) then wr (setAunt parentNode) toNode else mret tt);;
    hashToRoot parentNode.

Definition remove (dels : list Z) : st Pollard unit :=
  let dels := copySortedFunc dels in
  numLeaves ← gets NumLeaves;
  let dels := deTwin dels (treeRows numLeaves) in
  for_each dels (λ del,
    isRoot ← gets (λ p, isRootPosition del (NumLeaves p));
    if (isRoot : bool) then deleteRoot del else deleteSingle del).

Definition deleteFromMap (delHashes : list Hash) (p : Pollard) : Pollard :=
  foldl (λ p del, deleteMap del p) p delHashes.

Definition Modify (adds : list Leaf) (delHashes : list Hash) (proof : Proof) : st Pollard unit :=
  modify (deleteFromMap delHashes);;
  remove (Targets proof);;
  modify (λ p, setNumDels (NumDels p ⊞ Z.of_nat (length (Targets proof))) p);;
  add adds.

(** ** Undoing *)

(** [for row := int(lowestRootRow); row >= 0; row--]; without nieces it ends at once. *)
Fixpoint undoSingleAdd_loop (row : nat) : st Pollard unit :=
  root ← popRoot;
  let lowestRoot := Some root in
  l ← rd lNiece lowestRoot;
  r ← rd rNiece lowestRoot;
  (if decide (l ≠ None) then
     swapNieces l r;;
     wr (setAunt None) l;;
     wr (setAunt None) r;;
     pushRoot l;;
     pushRoot r
   else mret tt);;
  d ← rd data lowestRoot;
  modify (deleteMap d);;
  delNode lowestRoot;;
  match row with
  | O => mret tt
  | S row => if decide (l ≠ None) then undoSingleAdd_loop row else mret tt
  end.

Definition undoSingleAdd : st Pollard unit :=
  numLeaves ← gets NumLeaves;
  lowestRootRow ← lift (getLowestRoot numLeaves (treeRows numLeaves));
  undoSingleAdd_loop (Z.to_nat lowestRootRow);;
  modify (λ p, setNumLeaves (NumLeaves p ⊟ 1) p).

(** The roots that the deletions emptied. *)
Fixpoint emptied (dels : list Z) (copyRoots : list Hash) : st Pollard (list Hash) :=
  match dels with
  | [] => mret copyRoots
  | del :: dels =>
      isRoot ← gets (λ p, isRootPosition del (NumLeaves p));
      if (isRoot : bool) then
        tree ← rootIndex del;
        _ ← lift (index copyRoots (Z.to_nat tree));
        emptied dels (<[Z.to_nat tree := empty]> copyRoots)
      else emptied dels copyRoots
  end.

(** [for i >= len(p.Roots) { p.Roots = append(p.Roots, &polNode{...}) }]. *)
Fixpoint appendEmpty (count : nat) : st Pollard unit :=
  match count with
  | O => mret tt
  | S count =>
      full ← gets Full;
      n ← new (mkNode None None None empty full);
      pushRoot n;;
      appendEmpty count
  end.

Fixpoint placeEmpty (copyRoots : list Hash) (i : nat) : st Pollard unit :=
  match copyRoots with
  | [] => mret tt
  | prevRoot :: copyRoots =>
      (if decide (prevRoot = empty) then
         len ← gets (λ p, length (Roots p));
         appendEmpty (S i - len);;
         roots ← gets Roots;
         root ← lift (index roots i);
         d ← rd data (Some root);
         if decide (d ≠ empty) then
           full ← gets Full;
           n ← new (mkNode None None None prevRoot full);
           a ← deref n;
           modify (setRootList (take i roots ++ a :: drop i roots))
         else mret tt
       else mret tt);;
      placeEmpty copyRoots (S i)
  end.

Definition undoEmptyRoots (numAdds : Z) (origDels : list Z) (prevRoots : list Hash)
    : st Pollard unit :=
  numLeaves ← gets NumLeaves;
  len ← gets (λ p, length (Roots p));
  if numRoots numLeaves <=? Z.of_nat len then mret tt
  else
    let dels := deTwin (copySortedFunc origDels) (treeRows numLeaves) in
    copyRoots ← emptied dels prevRoots;
    placeEmpty copyRoots 0.

(** One node for each deleted hash. *)
Fixpoint newNodes (dels : list Z) (delHashes : list Hash) : st Pollard (list nodeAndPos) :=
  match dels, delHashes with
  | del :: dels, h :: delHashes =>
      full ← gets Full;
      pn ← new (mkNode None None None h full);
      a ← deref pn;
      modify (putMap h a);;
      pnps ← newNodes dels delHashes;
      mret ((pn, del) :: pnps)
  | _, _ => mret []
  end.

(** [sort.Slice] by position.  Positions are distinct when the deletions are. *)
Definition pos_le (a b : nodeAndPos) : Prop := a.2 ≤ b.2.
#[local] Instance pos_le_dec a b : Decision (pos_le a b).
Proof. unfold pos_le. apply _. Defined.

Definition sortPolNodes (pnps : list nodeAndPos) : list nodeAndPos := merge_sort pos_le pnps.

Definition undoSingleDel (node : ptr) (pos : Z) : st Pollard unit :=
  numLeaves ← gets NumLeaves;
  full ← gets Full;
  let siblingPos := parent pos (treeRows numLeaves) in
  '(sibling, aunt', _) ← getNode siblingPos;
  pHash ← calculateParentHash pos node sibling;
  parent ← new (mkNode None None None pHash full);
  sAunt ← rd aunt sibling;
  if decide (sAunt ≠ None) then
    dropError (transferAunt parent sibling);;
    transferNiece parent sibling;;
    updateAunt parent;;
    auntLNiece ← rd lNiece aunt';
    auntRNiece ← rd rNiece aunt';
    (if isLeftNiece pos then
       wr (setLNiece node) aunt';; wr (setRNiece sibling) aunt'
     else
       wr (setLNiece sibling) aunt';; wr (setRNiece node) aunt');;
    updateAunt aunt';;
    transferNiece sibling node;;
    wr (setLNiece auntLNiece) node;;
    wr (setRNiece auntRNiece) node;;
    updateAunt node;;
    hashToRoot parent
  else
    s ← rd id sibling;
    p ← rd id parent;
    wr (λ _, p) sibling;;
    wr (λ _, s) parent;;
    let '(sibling, parent) := (parent, sibling) in
    (if isLeftNiece pos then
       wr (setLNiece node) parent;; wr (setRNiece sibling) parent
     else
       wr (setLNiece sibling) parent;; wr (setRNiece node) parent);;
    updateAunt parent;;
    updateAunt sibling;;
    l ← rd lNiece parent;
    r ← rd rNiece parent;
    swapNieces l r;;
    d ← rd data sibling;
    found ← gets (λ p, NodeMap p !! mini d);
    match found with
    | Some _ => a ← deref sibling; modify (putMap d a)
    | None => mret tt
    end.

(** [p.Roots[tree] = node]. *)
Definition putRoot (tree : Z) (node : ptr) : st Pollard unit :=
  roots ← gets Roots;
  _ ← lift (index roots (Z.to_nat tree));
  a ← deref node;
  modify (setRootList (<[Z.to_nat tree := a]> roots)).

Definition undoDels (dels : list Z) (delHashes : list Hash) : st Pollard unit :=
  if negb (length dels =? length delHashes)%nat then fail ErrTargetCount
  else
    pnps ← newNodes dels delHashes;
    numLeaves ← gets NumLeaves;
    pnps ← deTwinPolNode (sortPolNodes pnps) (treeRows numLeaves);
    for_each (reverse pnps) (λ pnp,
      isRoot ← gets (λ p, isRootPosition pnp.2 (NumLeaves p));
      if (isRoot : bool) then
        tree ← rootIndex pnp.2;
        putRoot tree pnp.1
      else undoSingleDel pnp.1 pnp.2);;
    modify (λ p, setNumDels (NumDels p ⊟ Z.of_nat (length delHashes)) p).

(** [for i := 0; i < int(numAdds); i++]. *)
Fixpoint undoAdds (numAdds : nat) : st Pollard unit :=
  match numAdds with
  | O => mret tt
  | S numAdds => undoSingleAdd;; undoAdds numAdds
  end.

Definition Undo (numAdds : Z) (proof : Proof) (delHashes prevRoots : list Hash)
    : st Pollard unit :=
  undoAdds (Z.to_nat numAdds);;
  undoEmptyRoots numAdds (Targets proof) prevRoots;;
  undoDels (Targets proof) delHashes.

(** ** Proving and verifying *)

(** The positions of the hashes that are to be proven. *)
Fixpoint provePositions (hs : list Hash) : st Pollard (list Z) :=
  match hs with
  | [] => mret []
  | wanted :: hs =>
      found ← gets (λ p, NodeMap p !! mini wanted);
      match found with
      | None => fail ErrNotFound
      | Some node =>
          pos ← calculatePosition (Some node);
          rest ← provePositions hs;
          mret (pos :: rest)
      end
  end.

Fixpoint fetchProof (proofPositions : list Z) : st Pollard (list Hash) :=
  match proofPositions with
  | [] => mret []
  | proofPos :: rest =>
      hash ← getHash proofPos;
      if decide (hash = empty) then fail ErrUnreadable
      else
        hs ← fetchProof rest;
        mret (hash :: hs)
  end.

Definition Prove (hs : list Hash) : st Pollard Proof :=
  numLeaves ← gets NumLeaves;
  if (length hs =? 0)%nat || (numLeaves =? 0) then mret (mkProof [] [])
  else if numLeaves =? 1 then mret (mkProof [0] [])
  else
    targets ← provePositions hs;
    '(positions, _) ← lift (proofPositions (copySortedFunc targets) numLeaves (treeRows numLeaves));
    proof ← fetchProof positions;
    mret (mkProof targets proof).

(** [rootMatches], counted over the roots from the last one. *)
Fixpoint rootMatches_loop (k : nat) (roots cands : list Hash) (rootMatches : nat) : nat :=
  match k with
  | O => rootMatches
  | S k =>
      let hit :=
        match roots !! k, cands !! rootMatches with
        | Some r, Some c => bool_decide (r = c)
        | _, _ => false
        end in
      rootMatches_loop k roots cands (if hit then S rootMatches else rootMatches)
  end.

(** [remember] is not used. *)
Definition Verify (delHashes : list Hash) (proof : Proof) (remember : bool) : st Pollard unit :=
  if (length delHashes =? 0)%nat then mret tt
  else if negb (length delHashes =? length (Targets proof))%nat then fail ErrTargetCount
  else
    numLeaves ← gets NumLeaves;
    '(_, rootCandidates) ← lift (calculateHashes numLeaves (Some delHashes) proof);
    if (length rootCandidates =? 0)%nat then fail ErrNoRoots
    else
      roots ← GetRoots;
      let rootMatches := rootMatches_loop (length roots) roots rootCandidates 0 in
      if negb (length rootCandidates =? rootMatches)%nat then fail ErrInvalidProof
      else mret tt.
End Pollard.

(** ** Size *)

Fixpoint totalCount (roots : list addr) (size : Z) : st Pollard Z :=
  match roots with
  | [] => mret size
  | root :: roots => c ← getCount (Some root); totalCount roots (size + c)
  end.

Definition GetTotalCount : st Pollard Z :=
  roots ← gets Roots;
  totalCount roots 0.

Definition SerializeSize : st Pollard Z :=
  count ← GetTotalCount;
  mret (count * 32 + 16 + count * 2).
