(* ===== verification/MapPollard.v ===== *)
(** * The map-based pollard (mappollard.go)

    The state keeps the cached leaves, by hash, and the nodes, by position; both are Go
    maps.  A method that cannot fail is a function from states to states, the others are
    computations of [State].  Serialization is in [MapPollardIO]. *)

From S2P Require Import Prelude State Utils HashPos Traverse Calc Stump.

Record MapPollard : Type := mkMapPollard {
  CachedLeaves : gmap Hash Z;
  Nodes : gmap Z Leaf;
  NumLeaves : Z;
  TotalRows : Z;
}.

Definition NewMapPollard : MapPollard := mkMapPollard ∅ ∅ 0 50.

Definition setCached (c : gmap Hash Z) (m : MapPollard) : MapPollard :=
  mkMapPollard c (Nodes m) (NumLeaves m) (TotalRows m).
Definition setNodes (ns : gmap Z Leaf) (m : MapPollard) : MapPollard :=
  mkMapPollard (CachedLeaves m) ns (NumLeaves m) (TotalRows m).
Definition setNumLeaves (n : Z) (m : MapPollard) : MapPollard :=
  mkMapPollard (CachedLeaves m) (Nodes m) n (TotalRows m).
Definition setTotalRows (rows : Z) (m : MapPollard) : MapPollard :=
  mkMapPollard (CachedLeaves m) (Nodes m) (NumLeaves m) rows.

(** [m.Nodes[pos] = leaf], [delete(m.Nodes, pos)] and their like for the cached leaves. *)
Definition putNode (pos : Z) (leaf : Leaf) (m : MapPollard) : MapPollard :=
  setNodes (<[pos := leaf]> (Nodes m)) m.
Definition deleteNode (pos : Z) (m : MapPollard) : MapPollard :=
  setNodes (delete pos (Nodes m)) m.
Definition putCached (h : Hash) (pos : Z) (m : MapPollard) : MapPollard :=
  setCached (<[h := pos]> (CachedLeaves m)) m.
Definition deleteCached (h : Hash) (m : MapPollard) : MapPollard :=
  setCached (delete h (CachedLeaves m)) m.

(** [m.Nodes[pos]]: the zero [Leaf] when there is none. *)
Definition nodeAt (m : MapPollard) (pos : Z) : Leaf :=
  default (mkLeaf empty false) (Nodes m !! pos).

Definition hasNode (m : MapPollard) (pos : Z) : bool := bool_decide (is_Some (Nodes m !! pos)).

(** [if _, exists := m.CachedLeaves[hash]; exists { m.CachedLeaves[hash] = pos }]. *)
Definition recache (h : Hash) (pos : Z) (m : MapPollard) : MapPollard :=
  if CachedLeaves m !! h then putCached h pos m else m.

(** ** Pruning *)

Definition niecesPresent (m : MapPollard) (pos : Z) : bool :=
  if detectRow pos (TotalRows m) =? 0 then false
  else
    let lNiecePos := leftChild (sibling pos) (TotalRows m) in
    let rNiecePos := rightChild (sibling pos) (TotalRows m) in
    hasNode m lNiecePos || hasNode m rNiecePos.

Definition prunePosition (pos : Z) (m : MapPollard) : MapPollard :=
  let node := nodeAt m pos in
  let sibNode := nodeAt m (sibling pos) in
  if negb (Remember node) && negb (Remember sibNode) then
    let m := if negb (niecesPresent m (sibling pos)) then deleteNode (sibling pos) m else m in
    if negb (niecesPresent m pos) then deleteNode pos m else m
  else m.

Definition pruneNieces (pos : Z) (m : MapPollard) : MapPollard :=
  if detectRow pos (TotalRows m) =? 0 then m
  else prunePosition (leftChild pos (TotalRows m)) m.

(** [for row := ...; row <= m.TotalRows; row++]: every loop of this shape has at most
    [TotalRows + 1] rounds, unless [TotalRows] is 255 and the [uint8] row wraps. *)
Definition row_fuel (totalRows : Z) : nat := Z.to_nat totalRows + 2.

Fixpoint forgetUnneededDel_loop (fuel : nat) (row parentPos : Z) : st MapPollard unit :=
  match fuel with
  | O => lift Spin
  | S fuel => λ m,
      if row <=? TotalRows m then
        let parentPos := parent parentPos (TotalRows m) in
        if isRootPositionTotalRows parentPos (NumLeaves m) (TotalRows m) then (m, Ok tt)
        else forgetUnneededDel_loop fuel (u8 (row + 1)) parentPos (prunePosition parentPos m)
      else (m, Ok tt)
  end.

Definition forgetUnneededDel (del : Z) : st MapPollard unit := λ m,
  if isRootPositionTotalRows del (NumLeaves m) (TotalRows m) then (m, Ok tt)
  else forgetUnneededDel_loop (row_fuel (TotalRows m)) (detectRow del (TotalRows m)) del m.

(** ** Moving nodes up *)

Definition moveUpChild (position delPos numLeaves : Z) (child : Z → Z → Z)
    : st MapPollard (list Z) := λ m,
  let c := child (sibling position) (TotalRows m) in
  match calcNextPosition c delPos (TotalRows m) with
  | Ok nextPos =>
      match Nodes m !! c with
      | Some lVal =>
          (recache (leafHash lVal) nextPos (putNode nextPos lVal (deleteNode c m)), Ok [c])
      | None => (m, Ok [c])
      end
  | Err e => (m, Err e)
  | Panic => (m, Panic)
  | Spin => (m, Spin)
  end.

Definition moveUpNieces (position delPos numLeaves : Z) : st MapPollard (list Z) :=
  row ← gets (λ m, detectRow position (TotalRows m));
  if decide (row = 0) then mret []
  else
    l ← moveUpChild (sibling position) delPos numLeaves leftChild;
    r ← moveUpChild (sibling position) delPos numLeaves rightChild;
    mret (l ++ r).

(** [for i := range toMoveUp { ...; next = mergeSortedSlicesFunc(next, nextChildren) }]. *)
Fixpoint moveUpRow (toMoveUp : list Z) (delPos numLeaves : Z) (next : list Z)
    : st MapPollard (list Z) :=
  match toMoveUp with
  | [] => mret next
  | pos :: toMoveUp =>
      nextChildren ← moveUpNieces pos delPos numLeaves;
      next ← lift (mergeSortedSlicesFunc next nextChildren);
      moveUpRow toMoveUp delPos numLeaves next
  end.

(** [for h := row; h >= 0; h--]. *)
Fixpoint moveUpDescendants_loop (h : nat) (toMoveUp : list Z) (delPos numLeaves : Z)
    : st MapPollard unit :=
  next ← moveUpRow toMoveUp delPos numLeaves [];
  match h with
  | O => mret tt
  | S h => moveUpDescendants_loop h next delPos numLeaves
  end.

Definition moveUpDescendants (position delPos numLeaves : Z) : st MapPollard unit :=
  row ← gets (λ m, detectRow position (TotalRows m));
  if decide (row = 0) then mret tt
  else moveUpDescendants_loop (Z.to_nat row) (copySortedFunc [position; sibling position])
         delPos numLeaves.

(** ** Growing *)

(** One row of [remap]: the nodes from [startPos] on go to the positions from [j] on. *)
Fixpoint remap_row (olds : list Z) (j : Z) (m : MapPollard) : MapPollard :=
  match olds with
  | [] => m
  | i :: olds =>
      let m :=
        match Nodes m !! i with
        | Some node => putNode j node (deleteNode i m)
        | None => m
        end in
      remap_row olds (j ⊞ 1) m
  end.

(** Here [TotalRows] is below [nextRows], which is at most 64. *)
Definition remap : st MapPollard Z :=
  nextRows ← gets (λ m, treeRows (NumLeaves m ⊞ 1));
  rows ← gets TotalRows;
  if nextRows <=? rows then mret rows
  else
    for_each (seqZ 1 rows) (λ h,
      let startPos := startPositionAtRow h rows in
      numLeaves ← gets NumLeaves;
      maxPos ← lift (maxPositionAtRow h rows numLeaves);
      modify (remap_row (seqZ startPos (maxPos - startPos + 1)) (startPositionAtRow h nextRows)));;
    modify (λ m, setCached ((λ v, translatePos v rows nextRows) <$> CachedLeaves m) m);;
    modify (setTotalRows nextRows);;
    mret nextRows.

(** ** Cached leaves *)

Definition uncacheLeaves (dels : list Hash) (m : MapPollard) : MapPollard :=
  foldl (λ m del, deleteCached del m) m dels.

Definition cached (m : MapPollard) (hs : list Hash) : bool :=
  forallb (λ h, bool_decide (is_Some (CachedLeaves m !! h))) hs.

(** A child is one row lower than its parent, and rows are at most 64. *)
Fixpoint forgetBelow_loop (fuel : nat) (position : Z) : st MapPollard unit :=
  match fuel with
  | O => lift Spin
  | S fuel =>
      row ← gets (λ m, detectRow position (TotalRows m));
      if decide (row = 0) then mret tt
      else
        l ← gets (λ m, leftChild position (TotalRows m));
        let r := sibling l in
        modify (deleteNode l);;
        modify (deleteNode r);;
        forgetBelow_loop fuel l;;
        forgetBelow_loop fuel r
  end.

Definition forgetBelow (position : Z) : st MapPollard unit := forgetBelow_loop 66 position.

(** ** Roots *)

Definition getRoots (m : MapPollard) : list Hash * list Z :=
  let rootPositions := RootPositions (NumLeaves m) (TotalRows m) in
  (map (λ rootPosition, leafHash (nodeAt m rootPosition)) rootPositions, rootPositions).

Definition GetRoots (m : MapPollard) : list Hash := (getRoots m).1.

Definition GetHash (m : MapPollard) (pos : Z) : Hash := leafHash (nodeAt m pos).

Definition GetNumLeaves (m : MapPollard) : Z := NumLeaves m.

Definition GetTreeRows (m : MapPollard) : Z := TotalRows m.

Definition GetStump (m : MapPollard) : Stump := mkStump (GetRoots m) (NumLeaves m).

Definition highestPos (m : MapPollard) : Z :=
  let totalRows := treeRows (NumLeaves m) in
  let pos := rootPosition (NumLeaves m) totalRows totalRows in
  translatePos pos totalRows (TotalRows m).

Section MapPollard.
Context `{HashFn}.

(** ** Adding *)

(** [for h := uint8(0); (m.NumLeaves>>h)&1 == 1; h++]. *)
Fixpoint addSingle_loop (fuel : nat) (h position : Z) (pNode add : Leaf) (totalRows : Z)
    : st MapPollard unit :=
  match fuel with
  | O => lift Spin
  | S fuel =>
      numLeaves ← gets NumLeaves;
      if bitSet numLeaves h then
        let rootPos := rootPosition numLeaves h totalRows in
        found ← gets (λ m, Nodes m !! rootPos);
        match found with
        | None => fail ErrAddRoot
        | Some node =>
            pNode ←
              (if decide (leafHash node = empty) then
                 modify (deleteNode position);;
                 modify (if Remember add && bool_decide (leafHash pNode = leafHash add)
                         then recache (leafHash add) (parent position totalRows) else id);;
                 moveUpDescendants position rootPos (numLeaves ⊞ 1);;
                 mret pNode
               else mret (mkLeaf (parentHash (leafHash node) (leafHash pNode)) false));
            let position := parent position totalRows in
            modify (putNode position pNode);;
            modify (pruneNieces position);;
            addSingle_loop fuel (u8 (h + 1)) position pNode add totalRows
        end
      else mret tt
  end.

Definition addSingle (add : Leaf) : st MapPollard unit :=
  totalRows ← remap;
  position ← gets NumLeaves;
  modify (putNode position (mkLeaf (leafHash add) (Remember add)));;
  modify (if Remember add then putCached (leafHash add) position else id);;
  addSingle_loop bit_fuel 0 position add add totalRows.

Definition add (adds : list Leaf) : st MapPollard unit :=
  for_each adds (λ add, addSingle add;; modify (λ m, setNumLeaves (NumLeaves m ⊞ 1) m)).

(** ** Deleting *)

(** [for row := detectRow(pos, m.TotalRows); row <= m.TotalRows; row++]. *)
Fixpoint updateHashes_loop (fuel : nat) (row pos : Z) (hash : Hash) : st MapPollard unit :=
  match fuel with
  | O => lift Spin
  | S fuel => λ m,
      if row <=? TotalRows m then
        let sibNode := nodeAt m (sibling pos) in
        let hash := if isLeftNiece pos then parentHash hash (leafHash sibNode)
                    else parentHash (leafHash sibNode) hash in
        let pos := parent pos (TotalRows m) in
        let m := if hasNode m pos then putNode pos (mkLeaf hash false) m else m in
        if isRootPositionTotalRows pos (NumLeaves m) (TotalRows m) then (m, Ok tt)
        else updateHashes_loop fuel (u8 (row + 1)) pos hash m
      else (m, Ok tt)
  end.

Definition updateHashes (position : Z) (hash : Hash) : st MapPollard unit := λ m,
  let pos := parent position (TotalRows m) in
  updateHashes_loop (row_fuel (TotalRows m)) (detectRow pos (TotalRows m)) pos hash m.

Definition removeSingle (del : Z) : st MapPollard unit :=
  forgetBelow del;;
  isRoot ← gets (λ m, isRootPositionTotalRows del (NumLeaves m) (TotalRows m));
  if (isRoot : bool) then modify (putNode del (mkLeaf empty false))
  else
    modify (deleteNode del);;
    rows ← gets TotalRows;
    found ← gets (λ m, Nodes m !! sibling del);
    hash ←
      (match found with
       | Some node =>
           modify (deleteNode (sibling del));;
           modify (putNode (parent del rows) node);;
           isCached ← gets (λ m, bool_decide (is_Some (CachedLeaves m !! leafHash node)));
           (if (isCached : bool) then
              newPos ← lift (calcNextPosition (sibling del) del rows);
              modify (putCached (leafHash node) newPos)
            else mret tt);;
           numLeaves ← gets NumLeaves;
           moveUpDescendants (sibling del) del numLeaves;;
           mret (leafHash node)
       | None => mret empty
       end);
    updateHashes del hash;;
    dropError (forgetUnneededDel del).

(** The errors of [removeSingle] are not looked at. *)
Definition remove (proof : Proof) (delHashes : list Hash) : st MapPollard unit :=
  isCached ← gets (λ m, cached m delHashes);
  if negb isCached then fail ErrNotCached
  else
    modify (uncacheLeaves delHashes);;
    rows ← gets TotalRows;
    numLeaves ← gets NumLeaves;
    let detwinedDels := copySortedFunc (Targets proof) in
    let detwinedDels :=
      if negb (rows =? treeRows numLeaves)
      then translatePositions detwinedDels (treeRows numLeaves) rows else detwinedDels in
    let detwinedDels := deTwin detwinedDels rows in
    for_each detwinedDels (λ del, dropError (removeSingle del)).

Definition Modify (adds : list Leaf) (delHashes : list Hash) (proof : Proof)
    : st MapPollard unit :=
  remove proof delHashes;;
  add adds.

(** ** Undoing additions *)

(** The positions below [sib], from row 0 up: [for h := row; h > 0; h--] and, in each
    row, [for i := 0; i < 1<<h; i++]. *)
Fixpoint placeEmptyRoot_loop (h : nat) (sib prevRootPos : Z) : st MapPollard unit :=
  match h with
  | O => mret tt
  | S h' =>
      rows ← gets TotalRows;
      child ← lift (childMany sib (Z.of_nat h) rows);
      for_each (seqZ 0 (2 ^ Z.of_nat h)) (λ i,
        let pos := i ⊞ child in
        curPos ← lift (calcNextPosition pos prevRootPos rows);
        modify (λ m,
          match Nodes m !! curPos with
          | Some v =>
              if decide (leafHash v ≠ empty) then
                let m := deleteNode curPos m in
                match CachedLeaves m !! leafHash v with
                | Some _ => putNode pos (mkLeaf (leafHash v) true) (putCached (leafHash v) pos m)
                | None => putNode pos v m
                end
              else m
          | None => m
          end));;
      placeEmptyRoot_loop h' sib prevRootPos
  end.

Definition placeEmptyRoot (prevRootPos : Z) : st MapPollard unit :=
  let sib := sibling prevRootPos in
  row ← gets (λ m, detectRow sib (TotalRows m));
  placeEmptyRoot_loop (Z.to_nat row) sib prevRootPos.

(** [for h := int(row); h >= 0; h--]. *)
Fixpoint undoSingleAdd_loop (h : nat) (pos lChild : Z) (emptyRootPositions : list Z)
    : st MapPollard (list Z) :=
  modify (λ m,
    match Nodes m !! pos with
    | Some leaf => deleteCached (leafHash leaf) (deleteNode pos m)
    | None => m
    end);;
  match h with
  | O => mret emptyRootPositions
  | S h' =>
      rows ← gets TotalRows;
      emptyRootPositions ←
        (match emptyRootPositions with
         | p :: rest =>
             if p =? lChild then
               placeEmptyRoot lChild;;
               modify (putNode lChild (mkLeaf empty true));;
               mret rest
             else mret emptyRootPositions
         | [] => mret []
         end);
      let pos := rightChild pos rows in
      undoSingleAdd_loop h' pos (leftChild pos rows) emptyRootPositions
  end.

Definition undoSingleAdd (emptyRootPositions : list Z) : st MapPollard (list Z) :=
  rows ← gets TotalRows;
  numLeaves ← gets NumLeaves;
  row ← lift (getLowestRoot numLeaves rows);
  let pos := rootPosition (numLeaves ⊟ 1) row rows in
  rest ← undoSingleAdd_loop (Z.to_nat row) pos (leftChild pos rows) emptyRootPositions;
  modify (λ m, setNumLeaves (NumLeaves m ⊟ 1) m);;
  mret rest.

(** [prevRoots[j] = empty] for every deleted root; [j] may be past the roots given. *)
Fixpoint clearRoots (detwined : list Z) (prevRootPos : list Z) (j : nat) (prevRoots : list Hash)
    : res (list Hash) :=
  match prevRootPos with
  | [] => Ok prevRoots
  | p :: rest =>
      if decide (p ∈ detwined) then
        let* _ := index prevRoots j in clearRoots detwined rest (S j) (<[j := empty]> prevRoots)
      else clearRoots detwined rest (S j) prevRoots
  end.

Definition getRootsAfterDel (m : MapPollard) (numAdds : Z) (targets prevRootPos : list Z)
    (origPrevRoots : list Hash) : res (list Hash) :=
  let detwined :=
    deTwin (translatePositions (copySortedFunc targets) (treeRows (NumLeaves m ⊟ numAdds))
              (TotalRows m)) (TotalRows m) in
  clearRoots detwined prevRootPos 0 origPrevRoots.

(** [prevEmptyRootPos] collects the position of an empty root once for each time that it
    occurs in [destroyedPositions]. *)
Fixpoint writtenOver (prevRoots : list Hash) (i : nat) (prevRootPos destroyed : list Z)
    : res (list Z) :=
  match prevRoots with
  | [] => Ok []
  | root :: rest =>
      let* here :=
        (if decide (root = empty ∧ destroyed ≠ []) then
           let* p := index prevRootPos i in Ok (filter (λ d, d = p) destroyed)
         else Ok []) in
      let* more := writtenOver rest (S i) prevRootPos destroyed in
      Ok (here ++ more)
  end.

Definition getWrittenOverEmptyRoots (m : MapPollard) (numAdds : Z) (origTargets : list Z)
    (origPrevRoots : list Hash) : res (list Z) :=
  let prevRootPos := RootPositions (NumLeaves m ⊟ numAdds) (TotalRows m) in
  let* prevRoots := getRootsAfterDel m numAdds origTargets prevRootPos origPrevRoots in
  let* destroyed := rootsToDestory (Z.to_nat numAdds) (NumLeaves m ⊟ numAdds) prevRoots in
  let destroyed :=
    if negb (treeRows (NumLeaves m) =? TotalRows m)
    then translatePositions destroyed (treeRows (NumLeaves m)) (TotalRows m) else destroyed in
  writtenOver prevRoots 0 prevRootPos destroyed.

(** [for i := 0; i < int(numAdds); i++]. *)
Fixpoint undoAdds (numAdds : nat) (prevEmptyRootPos : list Z) : st MapPollard unit :=
  match numAdds with
  | O => mret tt
  | S numAdds =>
      prevEmptyRootPos ← undoSingleAdd prevEmptyRootPos;
      undoAdds numAdds prevEmptyRootPos
  end.

Definition undoAdd (numAdds : Z) (origTargets : list Z) (origPrevRoots : list Hash)
    : st MapPollard unit := λ m,
  (prevEmptyRootPos ← lift (getWrittenOverEmptyRoots m numAdds origTargets origPrevRoots);
   undoAdds (Z.to_nat numAdds) prevEmptyRootPos) m.

(** ** Undoing deletions *)

(** The given proof positions are sorted; the source cuts at the first one that is not
    in the forest. *)
Fixpoint trimProofPos (proofPos : list Z) (numLeaves : Z) : res (list Z) :=
  match proofPos with
  | [] => Ok []
  | p :: rest =>
      let* isIn := inForest p numLeaves (treeRows numLeaves) in
      if (isIn : bool) then let* rest := trimProofPos rest numLeaves in Ok (p :: rest) else Ok []
  end.

(** [for i := range proofPos]: [proof.Proof[i]] is read for the missing nodes only. *)
Fixpoint placeProof (proofPos : list Z) (i : nat) (proof : list Hash) : st MapPollard unit :=
  match proofPos with
  | [] => mret tt
  | pos :: rest =>
      found ← gets (λ m, hasNode m pos);
      (if (found : bool) then mret tt
       else
         h ← lift (index proof i);
         modify (putNode pos (mkLeaf h false)));;
      placeProof rest (S i) proof
  end.

(** Placing the calculated hashes; the targets are remembered and cached. *)
Fixpoint placeHashes (ps : list Z) (hs : list Hash) (remember : Z → bool) : st MapPollard unit :=
  match ps with
  | [] => mret tt
  | pos :: ps =>
      match hs with
      | [] => lift Panic
      | h :: hs =>
          modify (putNode pos (mkLeaf h (remember pos)));;
          modify (if remember pos then putCached h pos else id);;
          placeHashes ps hs remember
      end
  end.

(** Translation of the positions of a [hashAndPos], which are then sorted again. *)
Definition translateHnp (hnp : hashAndPos) (from to : Z) : res hashAndPos :=
  if negb (from =? to)
  then sort_hnp (mkHnp (translatePositions (positions hnp) from to) (hashes hnp))
  else Ok hnp.

(** Moving the former sibling of a deleted target back down. *)
Definition undoTarget (target : Z) : st MapPollard unit :=
  rows ← gets TotalRows;
  numLeaves ← gets NumLeaves;
  isIn ← lift (inForest (sibling target) numLeaves rows);
  (if (isIn : bool) then placeEmptyRoot target else mret tt);;
  let sib := parent target rows in
  let prevPos := calcPrevPosition sib target rows in
  modify (λ m,
    match Nodes m !! sib with
    | Some v =>
        match CachedLeaves m !! leafHash v with
        | Some _ =>
            putNode prevPos (mkLeaf (leafHash v) true)
              (deleteNode sib (putCached (leafHash v) prevPos m))
        | None => putNode prevPos v (deleteNode sib m)
        end
    | None => m
    end).

Definition undoDeletion (proof : Proof) (hs : list Hash) : st MapPollard unit :=
  rows ← gets TotalRows;
  numLeaves ← gets NumLeaves;
  let treeRows := treeRows numLeaves in
  hnp ← lift (toHashAndPos (Targets proof) hs);
  hnp ← lift (translateHnp hnp treeRows rows);
  let deTwinedTargets := deTwin (positions hnp) rows in
  for_each (reverse deTwinedTargets) undoTarget;;
  let sortedTargets := copySortedFunc (Targets proof) in
  '(proofPos, _) ← lift (proofPositions sortedTargets numLeaves treeRows);
  proofPos ← lift (if negb (treeRows =? rows) then
                     let* proofPos := trimProofPos proofPos numLeaves in
                     Ok (translatePositions proofPos treeRows rows)
                   else Ok proofPos);
  placeProof proofPos 0 (ProofHashes proof);;
  '(newhnp, _) ← lift (calculateHashes numLeaves (Some hs) proof);
  newhnp ← lift (translateHnp newhnp treeRows rows);
  let remember pos :=
    existsb (λ target,
      if negb (treeRows =? rows) then pos =? translatePos target treeRows rows
      else pos =? target) (Targets proof) in
  placeHashes (positions newhnp) (hashes newhnp) remember.

(** [for i := range rootPos { ... origPrevRoots[i] ... }]. *)
Fixpoint placeRoots (rootPos : list Z) (i : nat) (origPrevRoots : list Hash)
    : st MapPollard unit :=
  match rootPos with
  | [] => mret tt
  | pos :: rest =>
      h ← lift (index origPrevRoots i);
      remember ← gets (λ m, bool_decide (is_Some (CachedLeaves m !! h)));
      modify (putNode pos (mkLeaf h remember));;
      placeRoots rest (S i) origPrevRoots
  end.

Definition Undo (numAdds : Z) (proof : Proof) (hs origPrevRoots : list Hash)
    : st MapPollard unit :=
  undoAdd numAdds (Targets proof) origPrevRoots;;
  undoDeletion proof hs;;
  rootPos ← gets (λ m, (getRoots m).2);
  placeRoots rootPos 0 origPrevRoots.

(** ** Proving *)

(** The hashes at the needed positions. *)
Fixpoint grabHashes (m : MapPollard) (proofPos : list Z) : res (list Hash) :=
  match proofPos with
  | [] => Ok []
  | pos :: rest =>
      match Nodes m !! pos with
      | None => Err ErrProofPosition
      | Some node => let* hs := grabHashes m rest in Ok (leafHash node :: hs)
      end
  end.

Definition Prove (m : MapPollard) (proveHashes : list Hash) : res Proof :=
  if negb (cached m proveHashes) then Err ErrNotCached
  else
    let origTargets := map (λ h, default 0 (CachedLeaves m !! h)) proveHashes in
    let targets := copySortedFunc origTargets in
    let* (proofPos, _) := proofPositions targets (NumLeaves m) (TotalRows m) in
    let* hs := grabHashes m proofPos in
    let origTargets :=
      if negb (TotalRows m =? treeRows (NumLeaves m))
      then map (λ p, translatePos p (TotalRows m) (treeRows (NumLeaves m))) origTargets
      else origTargets in
    Ok (mkProof origTargets hs).

Definition Ingest (delHashes : list Hash) (proof : Proof) : st MapPollard unit :=
  rows ← gets TotalRows;
  numLeaves ← gets NumLeaves;
  let treeRows := treeRows numLeaves in
  hnp ← lift (toHashAndPos (Targets proof) delHashes);
  hnp ← lift (translateHnp hnp treeRows rows);
  '(proofPos, _) ← lift (proofPositions (positions hnp) numLeaves rows);
  proofPos ← lift (if rows <? treeRows then trimProofPos proofPos numLeaves else Ok proofPos);
  placeProof proofPos 0 (ProofHashes proof);;
  '(intermediate, _) ← lift (calculateHashes numLeaves (Some delHashes) proof);
  intermediate ← lift (translateHnp intermediate treeRows rows);
  placeHashes (positions intermediate) (hashes intermediate)
    (λ pos, existsb (λ p, p =? pos) (positions hnp)).

Definition Verify (delHashes : list Hash) (proof : Proof) (remember : bool)
    : st MapPollard unit :=
  rows ← gets TotalRows;
  numLeaves ← gets NumLeaves;
  let proof :=
    if negb (treeRows numLeaves =? rows)
    then mkProof (translatePositions (Targets proof) rows (treeRows numLeaves)) (ProofHashes proof)
    else proof in
  s ← gets GetStump;
  _ ← lift (Stump.Verify s delHashes proof);
  if remember then Ingest delHashes proof else mret tt.
End MapPollard.
