(* ===== verification/IO.v ===== *)
(** * Bytes, writers and readers

    What the serialization of both pollards uses of Go's [encoding/binary] and [io]. *)

From S2P Require Import Prelude State Utils HashPos.

(** ** Bytes *)

(** [binary.LittleEndian.PutUint64] and [Uint64]. *)
Fixpoint putBytes (k : nat) (v : Z) : list Z :=
  match k with
  | O => []
  | S k => v mod 256 :: putBytes k (v / 256)
  end.

Fixpoint getBytes (bs : list Z) : Z :=
  match bs with
  | [] => 0
  | b :: bs => b + 256 * getBytes bs
  end.

Definition PutUint64 (v : Z) : list Z := putBytes 8 v.
Definition Uint64 (bs : list Z) : Z := getBytes bs.

(** [hash[:]]: the 32 bytes, the highest first. *)
Definition hashBytes (h : Hash) : list Z := reverse (putBytes 32 h).
Definition bytesHash (bs : list Z) : Hash := getBytes (reverse bs).

(** [int(x)] for a [uint64] [x]. *)
Definition toInt (x : Z) : Z := if x <? 2 ^ 63 then x else x - 2 ^ 64.

(** ** Writers and readers *)

(** [w.Write(p)] returns the number of bytes written. *)
Class Writer (W : Type) := write : list Z → st W Z.

(** [r.Read(p)] reads at most [len(p)] bytes. *)
Class Reader (R : Type) := read : nat → st R (list Z).

(** [bytes.Buffer]: it writes everything and reads what is there, [io.EOF] when there is
    nothing. *)
#[export] Instance buffer_writer : Writer (list Z) := λ p w, (w ++ p, Ok (Z.of_nat (length p))).
#[export] Instance buffer_reader : Reader (list Z) := λ k r,
  match k, r with
  | S _, [] => ([], Err ErrEOF)
  | _, _ => (drop k r, Ok (take k r))
  end.

Section Read.
Context {R P : Type} `{!Reader R}.

(** [r.Read(buf)] overwrites as many bytes of [buf] as it reads and returns their number;
    the code only adds the numbers up. *)
Definition readInto (buf : list Z) : st (R * P) (list Z * Z) := λ '(r, m),
  match read (length buf) r with
  | (r', Ok bs) => ((r', m), Ok (bs ++ drop (length bs) buf, Z.of_nat (length bs)))
  | (r', Err e) => ((r', m), Err e)
  | (r', Panic) => ((r', m), Panic)
  | (r', Spin) => ((r', m), Spin)
  end.
End Read.
