(* ===== verification/PollardIO.v ===== *)
(** * Writing and reading a pointer pollard (pollard.go)

    [WriteTo] and [RestorePollardFrom] on any writer and reader.  The count that is
    returned next to an error is not modelled. *)

From S2P Require Import Prelude State Utils HashPos Traverse Calc Stump PolNode Pollard IO.

(** A computation on the pollard next to a writer or a reader, and the other way round. *)
Definition onPollard {W A} (m : st Pollard A) : st (W * Pollard) A := λ '(w, p),
  let '(p, r) := m p in ((w, p), r).
Definition onWriter {W A} (m : st W A) : st (W * Pollard) A := λ '(w, p),
  let '(w, r) := m w in ((w, p), r).

Section Write.
Context {W : Type} `{!Writer W}.

Fixpoint writeOne_loop (fuel : nat) (n : ptr) : st (W * Pollard) Z :=
  match fuel with
  | O => lift Spin
  | S fuel =>
      if decide (n = None) then mret 0
      else
        d ← onPollard (rd data n);
        b1 ← onWriter (write (hashBytes d));
        '(lChild, rChild) ← onPollard (getChildren n);
        b2 ← onWriter (write [if decide (lChild = None ∧ rChild = None) then 1 else 0]);
        l ← onPollard (rd lNiece n);
        r ← onPollard (rd rNiece n);
        if decide (l ≠ None ∧ r ≠ None) then
          b3 ← onWriter (write [1]);
          leftBytes ← writeOne_loop fuel l;
          r ← onPollard (rd rNiece n);
          rightBytes ← writeOne_loop fuel r;
          mret (b1 + b2 + b3 + leftBytes + rightBytes)
        else
          b3 ← onWriter (write [0]);
          mret (b1 + b2 + b3)
  end.

Definition writeOne (n : ptr) : st (W * Pollard) Z :=
  fuel ← onPollard (gets heap_fuel);
  writeOne_loop (S fuel) n.

Fixpoint writeRoots (roots : list addr) (totalBytes : Z) : st (W * Pollard) Z :=
  match roots with
  | [] => mret totalBytes
  | root :: roots =>
      bytes ← writeOne (Some root);
      writeRoots roots (totalBytes + bytes)
  end.

Definition WriteTo : st (W * Pollard) Z :=
  numLeaves ← onPollard (gets NumLeaves);
  b1 ← onWriter (write (PutUint64 numLeaves));
  numDels ← onPollard (gets NumDels);
  b2 ← onWriter (write (PutUint64 numDels));
  roots ← onPollard (gets Roots);
  writeRoots roots (b1 + b2).
End Write.

Section Read.
Context {R : Type} `{!Reader R}.

(** [if err == io.EOF { return nil }]. *)
Definition orEOF {S A} (m : st S (A * Z)) : st S (option A * Z) := λ s,
  match m s with
  | (s', Ok (a, n)) => (s', Ok (Some a, n))
  | (s', Err ErrEOF) => (s', Ok (None, 0))
  | (s', Err e) => (s', Err e)
  | (s', Panic) => (s', Panic)
  | (s', Spin) => (s', Spin)
  end.

(** [fuel] bounds the depth of the recursion, which the source does not. *)
Fixpoint readOne (fuel : nat) (n : ptr) : st (R * Pollard) Z :=
  match fuel with
  | O => lift Spin
  | S fuel =>
      d ← onPollard (rd data n);
      '(d, b1) ← orEOF (readInto (hashBytes d));
      match d with
      | None => mret 0
      | Some d =>
          onPollard (wr (setData (bytesHash d)) n);;
          '(buf, b2) ← readInto [0];
          (if decide (buf = [1] ∧ bytesHash d ≠ empty) then
             onPollard (a ← deref n; modify (putMap (bytesHash d) a))
           else mret tt);;
          '(buf, b3) ← readInto buf;
          if decide (buf = [1]) then
            l ← onPollard (new (mkNode None None n empty false));
            onPollard (wr (setLNiece l) n);;
            leftBytes ← readOne fuel l;
            r ← onPollard (new (mkNode None None n empty false));
            onPollard (wr (setRNiece r) n);;
            rightBytes ← readOne fuel r;
            mret (b1 + b2 + b3 + leftBytes + rightBytes)
          else mret (b1 + b2 + b3)
      end
  end.

Fixpoint readRoots (fuel count : nat) (totalBytes : Z) : st (R * Pollard) Z :=
  match count with
  | O => mret totalBytes
  | S count =>
      root ← onPollard (new (mkNode None None None empty false));
      onPollard (pushRoot root);;
      bytes ← readOne fuel root;
      readRoots fuel count (totalBytes + bytes)
  end.

Definition readPollard (fuel : nat) : st (R * Pollard) Z :=
  let buf := replicate 8 0 in
  '(buf, b1) ← readInto buf;
  onPollard (modify (setNumLeaves (Uint64 buf)));;
  '(buf, b2) ← readInto buf;
  onPollard (modify (setNumDels (Uint64 buf)));;
  numLeaves ← onPollard (gets NumLeaves);
  totalBytes ← readRoots fuel (Z.to_nat (numRoots numLeaves)) (b1 + b2);
  p ← onPollard (gets id);
  if negb (Z.of_nat (size (NodeMap p)) =? toInt (NumLeaves p ⊟ NumDels p)) then fail ErrRestore
  else mret totalBytes.

(** The pollard is returned unless there is an error. *)
Definition RestorePollardFrom (fuel : nat) : st R (Z * Pollard) := λ r,
  match readPollard fuel (r, NewAccumulator true) with
  | ((r', p), Ok totalBytes) => (r', Ok (totalBytes, p))
  | ((r', _), Err e) => (r', Err e)
  | ((r', _), Panic) => (r', Panic)
  | ((r', _), Spin) => (r', Spin)
  end.
End Read.
