(* ===== verification/MapPollardIO.v ===== *)
(** * Writing and reading a map pollard (mappollard.go)

    [Write] and [Read] on any writer and reader.  Go ranges over a map in any order, so
    [Write] takes the order of the two maps; the theorems hold for every order.  The
    count that is returned next to an error is not modelled. *)

From S2P Require Import Prelude State Utils HashPos Traverse Calc Stump MapPollard IO.

Section Write.
Context {W : Type} `{!Writer W}.

Fixpoint writeCached (cs : list (Hash * Z)) (totalBytes : Z) : st W Z :=
  match cs with
  | [] => mret totalBytes
  | (k, v) :: cs =>
      written ← write (hashBytes k);
      bytes ← write (PutUint64 v);
      writeCached cs (totalBytes + written + bytes)
  end.

(** [leafBuf] is declared before the loop: its last byte is set and never cleared. *)
Fixpoint writeNodes (ns : list (Z * Leaf)) (leafBuf : list Z) (totalBytes : Z) : st W Z :=
  match ns with
  | [] => mret totalBytes
  | (k, v) :: ns =>
      bytes ← write (PutUint64 k);
      let leafBuf := hashBytes (leafHash v) ++ drop 32 leafBuf in
      let leafBuf := if Remember v then <[32%nat := 1]> leafBuf else leafBuf in
      bytes' ← write leafBuf;
      writeNodes ns leafBuf (totalBytes + bytes + bytes')
  end.

Definition Write (m : MapPollard) (cs : list (Hash * Z)) (ns : list (Z * Leaf)) : st W Z :=
  b1 ← write [TotalRows m];
  b2 ← write (PutUint64 (NumLeaves m));
  b3 ← write (PutUint64 (Z.of_nat (size (CachedLeaves m))));
  totalBytes ← writeCached cs (b1 + b2 + b3);
  b4 ← write (PutUint64 (Z.of_nat (size (Nodes m))));
  writeNodes ns (replicate 33 0) (totalBytes + b4).
End Write.

Section Read.
Context {R : Type} `{!Reader R}.

Definition setPollard (f : MapPollard → MapPollard) : st (R * MapPollard) unit :=
  modify (λ '(r, m), (r, f m)).

Fixpoint readCached (count : nat) (buf hash : list Z) (totalBytes : Z)
    : st (R * MapPollard) (list Z * Z) :=
  match count with
  | O => mret (buf, totalBytes)
  | S count =>
      '(hash, n) ← readInto hash;
      '(buf, bytes) ← readInto buf;
      setPollard (putCached (bytesHash hash) (Uint64 buf));;
      readCached count buf hash (totalBytes + n + bytes)
  end.

Fixpoint readNodes (count : nat) (buf leafBuf : list Z) (totalBytes : Z)
    : st (R * MapPollard) Z :=
  match count with
  | O => mret totalBytes
  | S count =>
      '(buf, bytes) ← readInto buf;
      let position := Uint64 buf in
      '(leafBuf, n) ← readInto leafBuf;
      let leaf := mkLeaf (bytesHash (take 32 leafBuf))
                         (bool_decide (leafBuf !! 32%nat = Some 1)) in
      setPollard (putNode position leaf);;
      readNodes count buf leafBuf (totalBytes + bytes + n)
  end.

(** The sanity check at the end of [Read]. *)
Definition cachedPresent (m : MapPollard) : Prop :=
  map_Forall (λ k v, leafHash <$> Nodes m !! v = Some k) (CachedLeaves m).

#[export] Instance cachedPresent_dec m : Decision (cachedPresent m).
Proof. unfold cachedPresent. apply _. Defined.

Definition Read : st (R * MapPollard) Z :=
  let buf := replicate 8 0 in
  '(b, n1) ← readInto (take 1 buf);
  let buf := b ++ drop 1 buf in
  setPollard (setTotalRows (default 0 (buf !! 0%nat)));;
  '(buf, n2) ← readInto buf;
  setPollard (setNumLeaves (Uint64 buf));;
  '(buf, n3) ← readInto buf;
  let numCachedLeaves := Uint64 buf in
  setPollard (setCached ∅);;
  '(buf, totalBytes) ←
    readCached (Z.to_nat (toInt numCachedLeaves)) buf (replicate 32 0) (n1 + n2 + n3);
  '(buf, n4) ← readInto buf;
  let nodeCount := Uint64 buf in
  setPollard (setNodes ∅);;
  totalBytes ←
    readNodes (Z.to_nat (toInt nodeCount)) buf (replicate 33 0) (totalBytes + n4);
  m ← gets snd;
  if decide (cachedPresent m) then mret totalBytes else fail ErrCorrupt.
End Read.
