(* ===== verification/MapPollardIOProps.v ===== *)
(** * Writing and reading back a map pollard

    What [Read] makes of the bytes that [Write] produced, on byte buffers. *)

From S2P Require Import Prelude State Utils HashPos Traverse Calc Stump MapPollard IO MapPollardIO.

(** ** Bytes *)

Lemma length_putBytes k v : length (putBytes k v) = k.
Proof. revert v. induction k as [|k IH]; intros v; simpl; [done|]. by rewrite IH. Qed.

Lemma getBytes_putBytes k v : 0 ≤ v < 256 ^ Z.of_nat k → getBytes (putBytes k v) = v.
Proof.
  revert v. induction k as [|k IH]; intros v Hv; cbn [putBytes getBytes]; [simpl in Hv; lia|].
  assert (256 ^ Z.of_nat (S k) = 256 * 256 ^ Z.of_nat k) as He.
  { rewrite Nat2Z.inj_succ, Z.pow_succ_r by lia. done. }
  pose proof (Z.div_mod v 256). rewrite IH; [lia|].
  split; [apply Z.div_pos; lia|]. apply Z.div_lt_upper_bound; lia.
Qed.

Lemma Uint64_PutUint64 v : 0 ≤ v < 2 ^ 64 → Uint64 (PutUint64 v) = v.
Proof. intros. by apply getBytes_putBytes. Qed.

Lemma bytesHash_hashBytes h : 0 ≤ h < 2 ^ 256 → bytesHash (hashBytes h) = h.
Proof. intros. unfold bytesHash, hashBytes. rewrite reverse_involutive. by apply getBytes_putBytes. Qed.

Lemma length_PutUint64 v : length (PutUint64 v) = 8%nat.
Proof. apply length_putBytes. Qed.

Lemma length_hashBytes h : length (hashBytes h) = 32%nat.
Proof. unfold hashBytes. by rewrite length_reverse, length_putBytes. Qed.

Create Rewrite HintDb bytes.
#[export] Hint Rewrite length_PutUint64 length_hashBytes @length_app @length_cons @length_nil @length_replicate
  : bytes.

(** ** Steps on buffers *)

Lemma write_app {B} (p : list Z) (k : Z → st (list Z) B) w :
  (write p ≫= k) w = k (Z.of_nat (length p)) (w ++ p).
Proof. done. Qed.

Lemma read_app (bs rest : list Z) : bs ≠ [] → read (length bs) (bs ++ rest) = (rest, Ok bs).
Proof.
  intros Hne. destruct bs as [|b bs]; [done|].
  change (read _ _) with (drop (length (b :: bs)) ((b :: bs) ++ rest),
                          Ok (take (length (b :: bs)) ((b :: bs) ++ rest))).
  by rewrite take_app_length, drop_app_length.
Qed.

Lemma readInto_all {P} (bs buf rest : list Z) (m : P) :
  bs ≠ [] → length bs = length buf →
  readInto buf (bs ++ rest, m) = ((rest, m), Ok (bs, Z.of_nat (length bs))).
Proof.
  intros Hne Hlen. unfold readInto. rewrite <- Hlen, read_app by done.
  rewrite drop_ge by lia. by rewrite app_nil_r.
Qed.

(** ** The format *)

Definition flag (b : bool) : Z := if b then 1 else 0.

Definition leafBytes (l : Leaf) : list Z := hashBytes (leafHash l) ++ [flag (Remember l)].

Fixpoint encCached (cs : list (Hash * Z)) : list Z :=
  match cs with
  | [] => []
  | (k, v) :: cs => (hashBytes k ++ PutUint64 v) ++ encCached cs
  end.

Fixpoint encNodes (ns : list (Z * Leaf)) : list Z :=
  match ns with
  | [] => []
  | (k, v) :: ns => (PutUint64 k ++ leafBytes v) ++ encNodes ns
  end.

(** The nodes that [Write] really writes: those behind a remembered one are remembered. *)
Fixpoint smear (b : bool) (ns : list (Z * Leaf)) : list (Z * Leaf) :=
  match ns with
  | [] => []
  | (k, v) :: ns =>
      let b := b || Remember v in (k, mkLeaf (leafHash v) b) :: smear b ns
  end.

Lemma smear_fst b ns : (smear b ns).*1 = ns.*1.
Proof. revert b. induction ns as [|[k v] ns IH]; intros b; simpl; [done|]. by rewrite IH. Qed.

Lemma length_smear b ns : length (smear b ns) = length ns.
Proof. rewrite <- (length_fmap fst), smear_fst. apply length_fmap. Qed.

Lemma smear_hashes b ns : prod_map id leafHash <$> smear b ns = prod_map id leafHash <$> ns.
Proof. revert b. induction ns as [|[k v] ns IH]; intros b; simpl; [done|]. by rewrite IH. Qed.

Lemma smear_app b ns ns' : smear b (ns ++ ns') =
  smear b ns ++ smear (b || existsb (λ x, Remember x.2) ns) ns'.
Proof.
  revert b. induction ns as [|[k v] ns IH]; intros b; simpl; [by rewrite orb_false_r|].
  by rewrite IH, orb_assoc.
Qed.

Lemma smear_true ns : Forall (λ x, Remember x.2 = true) (smear true ns).
Proof. induction ns as [|[k v] ns IH]; simpl; constructor; done. Qed.

Lemma smear_id ns : Forall (λ x, Remember x.2 = false) ns → smear false ns = ns.
Proof.
  induction 1 as [|[k [h r]] ns Hx _ IH]; simpl; [done|]. simpl in Hx. by rewrite Hx, IH.
Qed.

Lemma length_leafBytes l : length (leafBytes l) = 33%nat.
Proof. unfold leafBytes. by autorewrite with bytes. Qed.

#[export] Hint Rewrite length_leafBytes : bytes.

Lemma length_encCached cs : length (encCached cs) = (40 * length cs)%nat.
Proof.
  induction cs as [|[k v] cs IH]; [done|]. cbn [encCached]. autorewrite with bytes. lia.
Qed.

Lemma length_encNodes ns : length (encNodes ns) = (41 * length ns)%nat.
Proof.
  induction ns as [|[k v] ns IH]; [done|]. cbn [encNodes]. autorewrite with bytes. lia.
Qed.

(** ** Write *)

Lemma writeCached_eq cs total w :
  writeCached cs total w = (w ++ encCached cs, Ok (total + 40 * Z.of_nat (length cs))).
Proof.
  revert total w. induction cs as [|[k v] cs IH]; intros total w; simpl.
  - unfold mret, st_ret. rewrite app_nil_r. do 2 f_equal. lia.
  - rewrite !write_app, IH. autorewrite with bytes. rewrite <- !app_assoc. do 2 f_equal. lia.
Qed.

Lemma writeNodes_eq ns hb b total w : length hb = 32%nat →
  writeNodes ns (hb ++ [flag b]) total w
  = (w ++ encNodes (smear b ns), Ok (total + 41 * Z.of_nat (length ns))).
Proof.
  revert hb b total w. induction ns as [|[k v] ns IH]; intros hb b total w Hb; cbn [writeNodes smear].
  - unfold mret, st_ret. simpl. rewrite app_nil_r. do 2 f_equal. lia.
  - rewrite write_app, drop_app_length' by done.
    assert ((if Remember v then <[32%nat:=1]> (hashBytes (leafHash v) ++ [flag b])
             else hashBytes (leafHash v) ++ [flag b])
            = hashBytes (leafHash v) ++ [flag (b || Remember v)]) as ->.
    { destruct (Remember v); [|by rewrite orb_false_r]. rewrite orb_true_r.
      rewrite insert_app_r_alt by (rewrite length_hashBytes; lia). by rewrite length_hashBytes. }
    rewrite write_app, IH by apply length_hashBytes. cbn [encNodes].
    unfold leafBytes at 1. cbn [leafHash Remember]. autorewrite with bytes. rewrite <- !app_assoc.
    do 2 f_equal. lia.
Qed.

Definition encPollard (m : MapPollard) (cs : list (Hash * Z)) (ns : list (Z * Leaf)) : list Z :=
  [TotalRows m] ++ PutUint64 (NumLeaves m) ++ PutUint64 (Z.of_nat (size (CachedLeaves m))) ++
  encCached cs ++ PutUint64 (Z.of_nat (size (Nodes m))) ++ encNodes ns.

Lemma Write_eq m cs ns w :
  Write m cs ns w =
  (w ++ encPollard m cs (smear false ns),
   Ok (25 + 40 * Z.of_nat (length cs) + 41 * Z.of_nat (length ns))).
Proof.
  unfold Write. rewrite !write_app.
  rewrite (st_bind_ok _ _ _ _ _ (writeCached_eq cs _ _)), write_app.
  change (replicate 33 0) with (replicate 32 0 ++ [flag false]). rewrite writeNodes_eq by done.
  unfold encPollard. autorewrite with bytes. rewrite <- !app_assoc. do 2 f_equal. lia.
Qed.

(** ** Read *)

Definition fill `{Countable K} {V} (M : gmap K V) (l : list (K * V)) : gmap K V :=
  foldl (λ M x, <[x.1 := x.2]> M) M l.

Lemma fill_empty `{Countable K} {V} (l : list (K * V)) : NoDup l.*1 → fill ∅ l = list_to_map l.
Proof.
  enough (∀ M : gmap K V, NoDup l.*1 → fill M l = list_to_map l ∪ M) as He.
  { intros Hnd. by rewrite He, (right_id_L ∅ (∪)). }
  induction l as [|[k v] l IH]; intros M Hnd; cbn in Hnd;
    [by rewrite list_to_map_nil, (left_id_L ∅ (∪))|].
  apply NoDup_cons in Hnd as [Hk Hnd]. rewrite list_to_map_cons.
  change (fill M ((k, v) :: l)) with (fill (<[k := v]> M) l). rewrite IH by done.
  rewrite <- insert_union_r by (by apply not_elem_of_list_to_map_1). by rewrite insert_union_l.
Qed.

Definition in_range (x : Hash * Z) : Prop := 0 ≤ x.1 < 2 ^ 256 ∧ 0 ≤ x.2 < 2 ^ 64.
Definition node_in_range (x : Z * Leaf) : Prop :=
  0 ≤ x.1 < 2 ^ 64 ∧ 0 ≤ leafHash x.2 < 2 ^ 256.

Lemma bytes_not_nil {A} (l : list A) k : length l = S k → l ≠ [].
Proof. by destruct l. Qed.

Lemma PutUint64_not_nil v : PutUint64 v ≠ [].
Proof. apply (bytes_not_nil _ 7), length_PutUint64. Qed.

Lemma hashBytes_not_nil h : hashBytes h ≠ [].
Proof. apply (bytes_not_nil _ 31), length_hashBytes. Qed.

Lemma leafBytes_not_nil l : leafBytes l ≠ [].
Proof. apply (bytes_not_nil _ 32), length_leafBytes. Qed.

(** At the end of the input, what is left is read. *)
Lemma readInto_short {P} (bs buf : list Z) (m : P) :
  bs ≠ [] → (length bs ≤ length buf)%nat →
  readInto buf (bs, m) = (([], m), Ok (bs ++ drop (length bs) buf, Z.of_nat (length bs))).
Proof.
  intros Hne Hlen. unfold readInto. destruct (length buf) as [|n]; [destruct bs; simpl in *; (done || lia)|].
  destruct bs as [|b bs]; [done|].
  change (read (S n) (b :: bs)) with (drop (S n) (b :: bs), Ok (take (S n) (b :: bs))).
  by rewrite drop_ge, take_ge by lia.
Qed.

(** Reading a field that is there. *)
Lemma readInto_field {B} (bs buf rest : list Z) m (k : list Z * Z → st (list Z * MapPollard) B) :
  bs ≠ [] → length bs = length buf →
  (readInto buf ≫= k) (bs ++ rest, m) = k (bs, Z.of_nat (length buf)) (rest, m).
Proof.
  intros Hne Hlen. rewrite (st_bind_ok _ _ _ _ _ (readInto_all _ _ _ _ Hne Hlen)). by rewrite Hlen.
Qed.

Lemma readCached_eq cs buf hash total rest m :
  length buf = 8%nat → length hash = 32%nat → Forall in_range cs →
  ∃ buf', length buf' = 8%nat ∧
    readCached (length cs) buf hash total (encCached cs ++ rest, m) =
    ((rest, setCached (fill (CachedLeaves m) cs) m),
     Ok (buf', total + 40 * Z.of_nat (length cs))).
Proof.
  intros Hbuf Hhash Hcs. revert buf hash total m Hbuf Hhash.
  induction Hcs as [|[k v] cs [Hk Hv] _ IH]; intros buf hash total m Hbuf Hhash.
  { exists buf. split; [done|]. destruct m. cbn. unfold mret, st_ret. do 3 f_equal. lia. }
  cbn [length readCached encCached]. rewrite <- !app_assoc.
  rewrite readInto_field by (apply hashBytes_not_nil || by rewrite length_hashBytes).
  rewrite readInto_field by (apply PutUint64_not_nil || by rewrite length_PutUint64).
  destruct (IH (PutUint64 v) (hashBytes k) (total + Z.of_nat (length hash) + Z.of_nat (length buf))
    (putCached k v m)) as (buf' & Hbuf' & E);
    [apply length_PutUint64|apply length_hashBytes|]. cbn [fst snd] in *.
  exists buf'. split; [done|]. unfold setPollard.
  change ((modify ?f;; ?k) ?s) with (k (f s)). cbn beta iota.
  rewrite bytesHash_hashBytes, Uint64_PutUint64, E by done. cbn. rewrite Hbuf, Hhash. do 3 f_equal. lia.
Qed.

Lemma readNodes_app ns k buf lb total rest m :
  length buf = 8%nat → length lb = 33%nat → Forall node_in_range ns →
  ∃ buf' lb', length buf' = 8%nat ∧ length lb' = 33%nat ∧
    readNodes (length ns + k) buf lb total (encNodes ns ++ rest, m) =
    readNodes k buf' lb' (total + 41 * Z.of_nat (length ns))
      (rest, setNodes (fill (Nodes m) ns) m).
Proof.
  intros Hbuf Hlb Hns. revert buf lb total m Hbuf Hlb.
  induction Hns as [|[p l] ns [Hp Hl] _ IH]; intros buf lb total m Hbuf Hlb.
  { exists buf, lb. split_and!; [done..|]. destruct m. cbn. f_equal. lia. }
  cbn [length readNodes encNodes Nat.add]. rewrite <- !app_assoc.
  rewrite readInto_field by (apply PutUint64_not_nil || by rewrite length_PutUint64).
  rewrite readInto_field by (apply leafBytes_not_nil || by rewrite length_leafBytes).
  destruct (IH (PutUint64 p) (leafBytes l) (total + Z.of_nat (length buf) + Z.of_nat (length lb))
    (putNode p l m)) as (buf' & lb' & Hbuf' & Hlb' & E);
    [apply length_PutUint64|apply length_leafBytes|]. cbn [fst snd] in *.
  exists buf', lb'. split_and!; [done..|]. unfold setPollard.
  change ((modify ?f;; ?k) ?s) with (k (f s)). cbn beta iota.
  assert (mkLeaf (bytesHash (take 32 (leafBytes l)))
            (bool_decide (leafBytes l !! 32%nat = Some 1)) = l) as ->.
  { destruct l as [h b]. unfold leafBytes. cbn [leafHash Remember] in *.
    rewrite take_app_length' by (by rewrite length_hashBytes). rewrite bytesHash_hashBytes by done.
    rewrite lookup_app_r by (rewrite length_hashBytes; lia). rewrite length_hashBytes. by destruct b. }
  rewrite Uint64_PutUint64, E by done. cbn. rewrite Hbuf, Hlb. f_equal. lia.
Qed.

Lemma smear_in_range b ns : Forall node_in_range ns → Forall node_in_range (smear b ns).
Proof.
  intros Hin. revert b. induction Hin as [|[p l] ns [? ?] _ IH]; intros b; simpl; constructor; done.
Qed.

(** What a state needs for its numbers to fit their fields. *)
Record encodable (m : MapPollard) : Prop := {
  enc_rows : 0 ≤ TotalRows m < 256;
  enc_leaves : 0 ≤ NumLeaves m < 2 ^ 64;
  enc_cached : map_Forall (λ h p, in_range (h, p)) (CachedLeaves m);
  enc_nodes : map_Forall (λ p l, node_in_range (p, l)) (Nodes m);
  enc_ncached : Z.of_nat (size (CachedLeaves m)) < 2 ^ 63;
  enc_nnodes : Z.of_nat (size (Nodes m)) < 2 ^ 63;
}.

(** The end of [Read]: the nodes and the sanity check. *)
Definition readRest (count : nat) (buf : list Z) (totalBytes : Z)
    : st (list Z * MapPollard) Z :=
  totalBytes ← readNodes count buf (replicate 33 0) totalBytes;
  m ← gets snd;
  if decide (cachedPresent m) then mret totalBytes else fail ErrCorrupt.

Lemma toInt_small x : 0 ≤ x < 2 ^ 63 → toInt x = x.
Proof. intros [_ Hx%Z.ltb_lt]. unfold toInt. by rewrite Hx. Qed.

Section Header.
Context (m : MapPollard) (cs : list (Hash * Z)) (ns : list (Z * Leaf)).
Context (Hm : encodable m) (Hcs : cs ≡ₚ map_to_list (CachedLeaves m))
  (Hns : ns ≡ₚ map_to_list (Nodes m)).

Lemma cached_in_range : Forall in_range cs.
Proof.
  rewrite Hcs. apply Forall_forall. intros [h p] Hin%elem_of_map_to_list.
  by apply (enc_cached m Hm).
Qed.

Lemma nodes_in_range : Forall node_in_range ns.
Proof.
  rewrite Hns. apply Forall_forall. intros [p l] Hin%elem_of_map_to_list.
  by apply (enc_nodes m Hm).
Qed.

Lemma cached_length : length cs = size (CachedLeaves m).
Proof. by rewrite Hcs, length_map_to_list. Qed.

Lemma nodes_length : length ns = size (Nodes m).
Proof. by rewrite Hns, length_map_to_list. Qed.

Lemma fill_cached : fill ∅ cs = CachedLeaves m.
Proof.
  rewrite fill_empty.
  - rewrite <- (list_to_map_to_list (CachedLeaves m)). apply list_to_map_proper; [|done].
    rewrite Hcs. apply NoDup_fst_map_to_list.
  - rewrite Hcs. apply NoDup_fst_map_to_list.
Qed.

Lemma smear_nodup b : NoDup (smear b ns).*1.
Proof. rewrite smear_fst, Hns. apply NoDup_fst_map_to_list. Qed.

(** The hashes come back, whatever the flags. *)
Lemma fill_hashes b : leafHash <$> fill ∅ (smear b ns) = leafHash <$> Nodes m.
Proof.
  rewrite fill_empty by apply smear_nodup.
  rewrite <- list_to_map_fmap, smear_hashes, list_to_map_fmap. f_equal.
  rewrite <- (list_to_map_to_list (Nodes m)). apply list_to_map_proper; [|done].
  rewrite Hns. apply NoDup_fst_map_to_list.
Qed.

Lemma Read_header tail m0 : ∃ buf, length buf = 8%nat ∧
  Read ([TotalRows m] ++ PutUint64 (NumLeaves m) ++ PutUint64 (Z.of_nat (size (CachedLeaves m))) ++
        encCached cs ++ PutUint64 (Z.of_nat (size (Nodes m))) ++ tail, m0) =
  readRest (length ns) buf (25 + 40 * Z.of_nat (length cs))
    (tail, mkMapPollard (CachedLeaves m) ∅ (NumLeaves m) (TotalRows m)).
Proof.
  destruct Hm as [Hrows Hleaves _ _ Hnc Hnn]. unfold Read.
  rewrite readInto_field by done. unfold setPollard.
  change ((modify ?f;; ?k) ?s) with (k (f s)). cbn beta iota.
  rewrite readInto_field by (apply PutUint64_not_nil || by rewrite length_PutUint64).
  change ((modify ?f;; ?k) ?s) with (k (f s)). cbn beta iota.
  rewrite readInto_field by (apply PutUint64_not_nil || by rewrite !length_PutUint64).
  change ((modify ?f;; ?k) ?s) with (k (f s)). cbn beta iota.
  rewrite !Uint64_PutUint64, toInt_small, Nat2Z.id by lia. rewrite <- cached_length.
  edestruct (readCached_eq cs (PutUint64 (Z.of_nat (length cs))) (replicate 32 0)) as (buf' & Hbuf' & E);
    [apply length_PutUint64|done|apply cached_in_range|].
  rewrite (st_bind_ok _ _ _ _ _ E). cbn beta iota.
  rewrite readInto_field by (apply PutUint64_not_nil || by rewrite length_PutUint64).
  change ((modify ?f;; ?k) ?s) with (k (f s)). cbn beta iota.
  rewrite !Uint64_PutUint64, toInt_small, Nat2Z.id by lia. rewrite <- nodes_length.
  exists (PutUint64 (Z.of_nat (length ns))). split; [apply length_PutUint64|].
  rewrite Hbuf', ?length_PutUint64. unfold readRest, setCached, setNumLeaves, setTotalRows, setNodes.
  cbn [CachedLeaves Nodes NumLeaves TotalRows]. rewrite fill_cached.
  match goal with |- (readNodes _ _ _ ?a ≫= _) _ = (readNodes _ _ _ ?b ≫= _) _ =>
    replace a with b by (cbn; lia) end.
  done.
Qed.
End Header.

(** ** States that differ in their flags only *)

Record same_hashes (m m' : MapPollard) : Prop := {
  same_cached : CachedLeaves m = CachedLeaves m';
  same_nodes : leafHash <$> Nodes m = leafHash <$> Nodes m';
  same_leaves : NumLeaves m = NumLeaves m';
  same_rows : TotalRows m = TotalRows m';
}.

#[export] Instance same_hashes_equiv : Equivalence same_hashes.
Proof.
  split.
  - done.
  - by intros m m' [].
  - intros m1 m2 m3 [] []. split; congruence.
Qed.

Lemma same_lookup m m' p : same_hashes m m' →
  leafHash <$> Nodes m !! p = leafHash <$> Nodes m' !! p.
Proof. intros [_ Hn _ _]. by rewrite <- !lookup_fmap, Hn. Qed.

#[export] Instance GetHash_proper : Proper (same_hashes ==> eq ==> eq) GetHash.
Proof.
  intros m m' Hm p _ <-. pose proof (same_lookup m m' p Hm) as Hp. unfold GetHash, nodeAt.
  by destruct (Nodes m !! p), (Nodes m' !! p); simplify_eq/=.
Qed.

#[export] Instance GetStump_proper : Proper (same_hashes ==> eq) GetStump.
Proof.
  intros m m' Hm. pose proof Hm as [_ _ Hl Hr]. unfold GetStump, GetRoots, getRoots. cbn [fst].
  rewrite Hl, Hr. f_equal. apply map_ext. intros p. by apply (GetHash_proper m m').
Qed.

#[export] Instance grabHashes_proper : Proper (same_hashes ==> eq ==> eq) grabHashes.
Proof.
  intros m m' Hm ps _ <-. induction ps as [|p ps IH]; [done|]. cbn [grabHashes]. rewrite IH.
  pose proof (same_lookup m m' p Hm) as Hp.
  by destruct (Nodes m !! p), (Nodes m' !! p); try done; injection Hp as ->.
Qed.

#[export] Instance Prove_proper : Proper (same_hashes ==> eq ==> eq) Prove.
Proof.
  intros m m' Hm hs _ <-. pose proof Hm as [Hc _ Hl Hr]. unfold Prove, cached.
  rewrite Hc, Hl, Hr. destruct (negb _); [done|].
  destruct (proofPositions _ _ _) as [[ps ?]|e| |]; cbn; try done. by rewrite Hm.
Qed.

#[export] Instance cachedPresent_proper : Proper (same_hashes ==> iff) cachedPresent.
Proof.
  intros m m' Hm. unfold cachedPresent. rewrite (same_cached _ _ Hm).
  split; intros Hall k v Hk; [rewrite <- (same_lookup m m' v Hm)|rewrite (same_lookup m m' v Hm)];
    by apply Hall.
Qed.

(** ** The round trip *)

(** What [Read] makes of the output of [Write]. *)
Definition restored (m : MapPollard) (ns : list (Z * Leaf)) : MapPollard :=
  mkMapPollard (CachedLeaves m) (list_to_map (smear false ns)) (NumLeaves m) (TotalRows m).

Section RoundTrip.
Context (m : MapPollard) (cs : list (Hash * Z)) (ns : list (Z * Leaf)).
Context (Hm : encodable m) (Hcs : cs ≡ₚ map_to_list (CachedLeaves m))
  (Hns : ns ≡ₚ map_to_list (Nodes m)).

Lemma restored_same : same_hashes (restored m ns) m.
Proof.
  split; try done. cbn [Nodes restored].
  rewrite <- fill_empty by (by apply smear_nodup with m). by apply fill_hashes.
Qed.

Lemma Read_Write rest m0 : cachedPresent m →
  Read (encPollard m cs (smear false ns) ++ rest, m0)
  = ((rest, restored m ns), Ok (25 + 40 * Z.of_nat (length cs) + 41 * Z.of_nat (length ns))).
Proof.
  intros Hc. unfold encPollard. rewrite <- !app_assoc.
  destruct (Read_header m cs ns Hm Hcs Hns (encNodes (smear false ns) ++ rest) m0)
    as (buf & Hbuf & ->).
  destruct (readNodes_app (smear false ns) 0 buf (replicate 33 0)
    (25 + 40 * Z.of_nat (length cs)) rest
    (mkMapPollard (CachedLeaves m) ∅ (NumLeaves m) (TotalRows m)))
    as (buf' & lb' & _ & _ & E); try done; [by apply smear_in_range, (nodes_in_range m)|].
  rewrite length_smear, Nat.add_0_r in E. cbn [readNodes] in E. unfold readRest.
  rewrite (st_bind_ok _ _ _ _ _ E).
  unfold setNodes. cbn [Nodes CachedLeaves NumLeaves TotalRows].
  rewrite fill_empty by (by apply smear_nodup with m). fold (restored m ns).
  change ((gets ?f ≫= ?k) ?s) with (k (f s) s). cbn beta iota.
  rewrite decide_True; [done|]. cbn [snd]. by rewrite restored_same.
Qed.
End RoundTrip.

Lemma encNodes_app ns ns' : encNodes (ns ++ ns') = encNodes ns ++ encNodes ns'.
Proof.
  induction ns as [|[p l] ns IH]; [done|]. cbn [app encNodes]. by rewrite IH, <- !app_assoc.
Qed.

Lemma fill_app `{Countable K} {V} (M : gmap K V) l l' : fill M (l ++ l') = fill (fill M l) l'.
Proof. apply foldl_app. Qed.

Lemma length_encPollard m cs ns : Z.of_nat (length (encPollard m cs ns))
  = 25 + 40 * Z.of_nat (length cs) + 41 * Z.of_nat (length ns).
Proof.
  unfold encPollard. autorewrite with bytes. rewrite length_encCached, length_encNodes. lia.
Qed.

Lemma Write_encPollard m cs ns w : Write m cs ns w =
  (w ++ encPollard m cs (smear false ns),
   Ok (Z.of_nat (length (encPollard m cs (smear false ns))))).
Proof. by rewrite Write_eq, length_encPollard, length_smear. Qed.

(** C21.  When every cached leaf of a map pollard has a node at its position with its hash (as
    in every state of C9; [Read] checks it) and hashes, positions and counts fit their
    words, what [Write] writes into a buffer is read back by [Read] to the last byte, and
    nothing behind it is touched: the rows, the number of leaves, the cached
    leaves and the position and hash of every node are restored, for any order in which
    Go ranges over the maps; the flags come back as [smear] says. *)
Theorem Write_Read_roundtrip m cs ns w rest m0 :
  encodable m → cachedPresent m →
  cs ≡ₚ map_to_list (CachedLeaves m) → ns ≡ₚ map_to_list (Nodes m) →
  ∃ bytes, Write m cs ns w = (w ++ bytes, Ok (Z.of_nat (length bytes))) ∧
    Read (bytes ++ rest, m0) = ((rest, restored m ns), Ok (Z.of_nat (length bytes))) ∧
    same_hashes (restored m ns) m.
Proof.
  intros Hm Hc Hcs Hns. exists (encPollard m cs (smear false ns)).
  split_and!; [apply Write_encPollard| |by apply restored_same].
  by rewrite length_encPollard, length_smear, Read_Write.
Qed.

(** A map pollard that is written and read back has the same stump, returns the same
    hashes and makes the same proofs as before. *)
Theorem Write_Read_observers m cs ns m0 :
  encodable m → cachedPresent m →
  cs ≡ₚ map_to_list (CachedLeaves m) → ns ≡ₚ map_to_list (Nodes m) →
  ∃ bytes m', Write m cs ns [] = (bytes, Ok (Z.of_nat (length bytes))) ∧
    Read (bytes, m0) = (([], m'), Ok (Z.of_nat (length bytes))) ∧
    GetStump m' = GetStump m ∧ (∀ p, GetHash m' p = GetHash m p) ∧
    (∀ hs, Prove m' hs = Prove m hs).
Proof.
  intros Hm Hc Hcs Hns.
  destruct (Write_Read_roundtrip m cs ns [] [] m0) as (bytes & HW & HR & Hs); try done.
  exists bytes, (restored m ns). rewrite app_nil_r in HR. split_and!; [done|done|by rewrite Hs|..].
  - intros p. by rewrite Hs.
  - intros hs. by rewrite Hs.
Qed.

(** C22.  [Write] does not clear the flag byte between nodes: when the node that Go happens
    to visit first is remembered, every node is remembered after reading back, whatever
    its flag was. *)
Theorem Write_flag_sticks m cs p l ns m0 :
  encodable m → cachedPresent m →
  cs ≡ₚ map_to_list (CachedLeaves m) → (p, l) :: ns ≡ₚ map_to_list (Nodes m) →
  Remember l = true →
  ∃ bytes m', Write m cs ((p, l) :: ns) [] = (bytes, Ok (Z.of_nat (length bytes))) ∧
    Read (bytes, m0) = (([], m'), Ok (Z.of_nat (length bytes))) ∧
    ∀ q l', Nodes m !! q = Some l' → Nodes m' !! q = Some (mkLeaf (leafHash l') true).
Proof.
  intros Hm Hc Hcs Hns Hl.
  destruct (Write_Read_roundtrip m cs ((p, l) :: ns) [] [] m0) as (bytes & HW & HR & Hs); try done.
  exists bytes, (restored m ((p, l) :: ns)). rewrite app_nil_r in HR. split_and!; [done|done|].
  intros q l' Hq. pose proof (same_lookup _ _ q Hs) as Hh. rewrite Hq in Hh.
  destruct (Nodes (restored m ((p, l) :: ns)) !! q) as [l1|] eqn:E; [|done].
  injection Hh as <-. f_equal. cbn [restored Nodes smear orb] in E. rewrite Hl in E.
  apply elem_of_list_to_map_2, elem_of_cons in E as [[= -> ->]|E]; [done|].
  pose proof (smear_true ns) as Hall. rewrite Forall_forall in Hall. apply Hall in E.
  destruct l1. simpl in E. by subst.
Qed.

(** The bytes of a last record that lost its end, and what it overwrites. *)
Section Truncated.
Context (m : MapPollard) (cs : list (Hash * Z)) (ns : list (Z * Leaf)) (p : Z) (l : Leaf).
Context (Hm : encodable m) (Hcs : cs ≡ₚ map_to_list (CachedLeaves m))
  (Hns : ns ++ [(p, l)] ≡ₚ map_to_list (Nodes m)).

Lemma encPollard_cut k : (k ≤ 33)%nat → ∃ cut, length cut = (33 - k)%nat ∧
  take (length (encPollard m cs (smear false (ns ++ [(p, l)]))) - k)
    (encPollard m cs (smear false (ns ++ [(p, l)])))
  = [TotalRows m] ++ PutUint64 (NumLeaves m) ++ PutUint64 (Z.of_nat (size (CachedLeaves m))) ++
    encCached cs ++ PutUint64 (Z.of_nat (size (Nodes m))) ++
    (encNodes (smear false ns) ++ PutUint64 p ++ cut).
Proof.
  intros Hk. set (lb := leafBytes (mkLeaf (leafHash l)
    (false || existsb (λ x, Remember x.2) ns || Remember l))).
  exists (take (33 - k) lb). assert (length lb = 33%nat) as Hlb by apply length_leafBytes.
  split; [rewrite length_take; lia|].
  assert (encPollard m cs (smear false (ns ++ [(p, l)])) =
    ([TotalRows m] ++ PutUint64 (NumLeaves m) ++ PutUint64 (Z.of_nat (size (CachedLeaves m))) ++
      encCached cs ++ PutUint64 (Z.of_nat (size (Nodes m))) ++
      (encNodes (smear false ns) ++ PutUint64 p ++ take (33 - k) lb)) ++ drop (33 - k) lb) as ->.
  { unfold encPollard. rewrite smear_app, encNodes_app. cbn [smear encNodes].
    rewrite app_nil_r, <- !app_assoc. fold lb. by rewrite take_drop. }
  rewrite length_app. apply take_app_length'. rewrite length_drop. lia.
Qed.

Lemma restored_snoc l' :
  putNode p l' (setNodes (fill ∅ (smear false ns))
    (mkMapPollard (CachedLeaves m) ∅ (NumLeaves m) (TotalRows m)))
  = putNode p l' (restored m (ns ++ [(p, l)])).
Proof.
  unfold putNode, restored, setNodes. cbn [Nodes CachedLeaves NumLeaves TotalRows]. f_equal.
  rewrite <- fill_empty by (by apply smear_nodup with m).
  rewrite smear_app, fill_app. cbn [smear fill foldl fst snd]. by rewrite insert_insert_eq.
Qed.

Lemma readRest_cut buf cut total : length buf = 8%nat → (0 < length cut ≤ 33)%nat →
  ∃ l', let m' := putNode p l' (restored m (ns ++ [(p, l)])) in
    readRest (length ns + 1) buf total
      (encNodes (smear false ns) ++ PutUint64 p ++ cut,
       mkMapPollard (CachedLeaves m) ∅ (NumLeaves m) (TotalRows m))
    = (([], m'), if decide (cachedPresent m')
         then Ok (total + 41 * Z.of_nat (length ns) + 8 + Z.of_nat (length cut))
         else Err ErrCorrupt).
Proof.
  intros Hbuf Hcut. pose proof (nodes_in_range m _ Hm Hns) as Hall.
  apply Forall_app in Hall as [Hns' [[Hp _] _]%Forall_cons].
  destruct (readNodes_app (smear false ns) 1 buf (replicate 33 0) total (PutUint64 p ++ cut)
    (mkMapPollard (CachedLeaves m) ∅ (NumLeaves m) (TotalRows m)))
    as (buf' & lb' & Hbuf' & Hlb' & E); try done; [by apply smear_in_range|].
  rewrite length_smear in E. cbn [readNodes Nodes] in E.
  rewrite readInto_field in E by (apply PutUint64_not_nil || by rewrite length_PutUint64).
  rewrite (st_bind_ok _ _ _ _ _ (readInto_short cut lb' _
    ltac:(destruct cut; simpl in *; [lia|done]) ltac:(lia))) in E. cbn beta iota in E.
  unfold setPollard in E. change ((modify ?f;; ?k) ?s) with (k (f s)) in E. cbn beta iota in E.
  rewrite Uint64_PutUint64, restored_snoc, Hbuf' in E by done.
  exists (mkLeaf (bytesHash (take 32 (cut ++ drop (length cut) lb')))
            (bool_decide ((cut ++ drop (length cut) lb') !! 32%nat = Some 1))).
  unfold readRest. cbv zeta.
  rewrite (st_bind_ok _ _ _ _ _ E).
  change ((gets ?f ≫= ?k) ?s) with (k (f s) s). cbn beta iota. cbn [snd].
  by destruct (decide (cachedPresent _)).
Qed.
End Truncated.

(** C23.  [Read] does not notice that the last record is cut short: with up to 32 bytes of
    the output missing it still ends normally, unless the node with the damaged hash is
    one of the cached leaves. *)
Theorem Read_truncated m cs p l ns k m0 :
  encodable m → cachedPresent m →
  cs ≡ₚ map_to_list (CachedLeaves m) → ns ++ [(p, l)] ≡ₚ map_to_list (Nodes m) →
  (1 ≤ k ≤ 32)%nat →
  ∃ bytes l', Write m cs (ns ++ [(p, l)]) [] = (bytes, Ok (Z.of_nat (length bytes))) ∧
    let m' := putNode p l' (restored m (ns ++ [(p, l)])) in
    Read (take (length bytes - k) bytes, m0)
    = (([], m'), if decide (cachedPresent m') then Ok (Z.of_nat (length bytes - k))
                 else Err ErrCorrupt).
Proof.
  intros Hm Hc Hcs Hns Hk.
  destruct (encPollard_cut m cs ns p l k) as (cut & Hcut & E); [lia|].
  destruct (Read_header m cs _ Hm Hcs Hns (encNodes (smear false ns) ++ PutUint64 p ++ cut) m0)
    as (buf & Hbuf & ER).
  destruct (readRest_cut m ns p l Hm Hns buf cut (25 + 40 * Z.of_nat (length cs))) as (l' & EN);
    [done|lia|].
  exists (encPollard m cs (smear false (ns ++ [(p, l)]))), l'. split; [apply Write_encPollard|].
  cbv zeta in *. rewrite E, ER, length_app. cbn [length]. rewrite EN.
  pose proof (length_encPollard m cs (smear false (ns ++ [(p, l)]))) as Hlen.
  rewrite length_smear, length_app in Hlen. cbn [length] in Hlen.
  match goal with |- (_, if _ then Ok ?a else _) = (_, if _ then Ok ?b else _) =>
    replace a with b by lia end.
  done.
Qed.

(** ** Witnesses *)

#[export] Instance in_range_dec x : Decision (in_range x).
Proof. unfold in_range. apply _. Defined.
#[export] Instance node_in_range_dec x : Decision (node_in_range x).
Proof. unfold node_in_range. apply _. Defined.

(** Two leaves, one of them cached, in one row below the root. *)
Definition small_pollard : MapPollard :=
  mkMapPollard {[ 11 := 0 ]}
    (<[0 := mkLeaf 11 true]> (<[1 := mkLeaf 12 false]> {[ 2 := mkLeaf 77 false ]})) 2 1.

Lemma small_encodable : encodable small_pollard.
Proof. split; apply (bool_decide_unpack _); vm_compute; reflexivity. Qed.

Lemma small_present : cachedPresent small_pollard.
Proof. apply (bool_decide_unpack _). vm_compute. reflexivity. Qed.

Lemma small_cached : [(11, 0)] ≡ₚ map_to_list (CachedLeaves small_pollard).
Proof. reflexivity. Qed.

(** Go may visit the nodes of [small_pollard] in the order 0, 1, 2 or 2, 1, 0. *)
Lemma small_nodes : [(0, mkLeaf 11 true); (1, mkLeaf 12 false); (2, mkLeaf 77 false)]
  ≡ₚ map_to_list (Nodes small_pollard).
Proof. unfold small_pollard. cbn [Nodes]. by rewrite !map_to_list_insert, map_to_list_singleton. Qed.

Lemma Write_Read_roundtrip_witness : ∃ bytes,
  Write small_pollard [(11, 0)]
    [(0, mkLeaf 11 true); (1, mkLeaf 12 false); (2, mkLeaf 77 false)] [7]
  = ([7] ++ bytes, Ok (Z.of_nat (length bytes))) ∧ length bytes = 188%nat.
Proof.
  destruct (Write_Read_roundtrip small_pollard _ _ [7] [] NewMapPollard small_encodable
    small_present small_cached small_nodes) as (bytes & HW & _).
  exists bytes. split; [exact HW|]. assert (Some (Z.of_nat (length bytes)) = Some 188) as E.
  { transitivity (match snd (Write small_pollard [(11, 0)]
      [(0, mkLeaf 11 true); (1, mkLeaf 12 false); (2, mkLeaf 77 false)] [7]) with
      Ok n => Some n | _ => None end); [by rewrite HW|vm_compute; reflexivity]. }
  injection E. lia.
Defined.

Lemma Write_Read_observers_witness : ∃ bytes m',
  Read (bytes, NewMapPollard) = (([], m'), Ok (Z.of_nat (length bytes))) ∧
  GetStump m' = mkStump [77] 2.
Proof.
  destruct (Write_Read_observers small_pollard _ _ NewMapPollard small_encodable
    small_present small_cached small_nodes) as (bytes & m' & _ & HR & HS & _).
  exists bytes, m'. split; [exact HR|]. rewrite HS. vm_compute. reflexivity.
Defined.

(** Node 1 was not remembered before. *)
Lemma Write_flag_sticks_witness : ∃ bytes m',
  Read (bytes, NewMapPollard) = (([], m'), Ok (Z.of_nat (length bytes))) ∧
  Nodes m' !! 1 = Some (mkLeaf 12 true) ∧
  Nodes small_pollard !! 1 = Some (mkLeaf 12 false).
Proof.
  destruct (Write_flag_sticks small_pollard _ 0 _ _ NewMapPollard small_encodable
    small_present small_cached small_nodes eq_refl) as (bytes & m' & _ & HR & Hall).
  exists bytes, m'. split; [exact HR|]. split; [|reflexivity]. by apply (Hall 1 (mkLeaf 12 false)).
Defined.

Lemma Read_truncated_witness : ∃ bytes m',
  Read (bytes, NewMapPollard) = (([], m'), Ok 156) ∧ length bytes = 156%nat.
Proof.
  destruct (Read_truncated small_pollard [(11, 0)] 2 (mkLeaf 77 false)
    [(0, mkLeaf 11 true); (1, mkLeaf 12 false)] 32 NewMapPollard small_encodable
    small_present small_cached small_nodes ltac:(lia)) as (bytes & l' & HW & HR).
  assert (length bytes = 188%nat) as Hlen.
  { enough (Some (Z.of_nat (length bytes)) = Some 188) as [= ?] by lia.
    transitivity (match snd (Write small_pollard [(11, 0)]
      ([(0, mkLeaf 11 true); (1, mkLeaf 12 false)] ++ [(2, mkLeaf 77 false)]) []) with
      Ok n => Some n | _ => None end); [by rewrite HW|vm_compute; reflexivity]. }
  rewrite Hlen in HR.
  exists (take (188 - 32) bytes). eexists. split; [|rewrite length_take, Hlen; reflexivity].
  cbv zeta in HR. rewrite decide_True in HR; [exact HR|].
  intros h q Hq. cbn [CachedLeaves putNode setNodes restored small_pollard] in Hq.
  apply lookup_singleton_Some in Hq as [<- <-]. vm_compute. reflexivity.
Defined.
