(* ===== verification/StumpTheory.v ===== *)
(** * Theory of the stump: additions

    A stump represents a forest when it holds the number of leaves and the root hashes
    of the forest.  [add] refines [add_leaves], and [rootsToDestory] finds the empty
    roots that the carry of the counter runs over; deletions are in [StumpVerify]. *)

From S2P Require Import Prelude Utils PosTheory HashPos HashPosTheory Traverse Calc Walk.
From S2P Require Import CalcTheory Forest EvalTheory Stump.

Section Represents.
Context `{HashFn}.

Record represents (s : forest) (st : Stump) : Prop := {
  rep_leaves : NumLeaves st = nl s;
  rep_roots : Roots st = map ohash (trees s);
}.
End Represents.

(** ** Small loops *)

Lemma popLast_app roots root : popLast (roots ++ [root]) = Ok (root, roots).
Proof.
  unfold popLast. rewrite last_snoc, length_app. simpl.
  replace (length roots + 1 - 1)%nat with (length roots) by lia. by rewrite take_app_length.
Qed.

Lemma bitSet_testbit n h : 0 ≤ h → bitSet n h = Z.testbit n h.
Proof.
  intros Hh. unfold bitSet, shr64. change 1 with (Z.ones 1) at 1.
  rewrite Z.land_ones, Z.shiftr_div_pow2, testbit_div by lia. change (2 ^ 1) with 2.
  rewrite Zmod_odd. by destruct (Z.odd _).
Qed.

(** The rows from [h] on of a forest of [n] leaves. *)
Definition rows_from (n h : Z) (s : forest) : Prop :=
  ∀ i, Z.testbit n (h + Z.of_nat i) = match s !! i with Some (Some _) => true | _ => false end.

Lemma rows_from_nl s : rows_from (nl s) 0 s.
Proof. intros i. rewrite Z.add_0_l, nl_testbit, Nat2Z.id by lia. done. Qed.

Lemma rows_from_cons n h x s : rows_from n h (x :: s) →
  Z.testbit n h = bool_decide (is_Some x) ∧ rows_from n (h + 1) s.
Proof.
  intros Hr. split.
  - specialize (Hr 0%nat). rewrite Z.add_0_r in Hr. rewrite Hr. by destruct x.
  - intros i. replace (h + 1 + Z.of_nat i) with (h + Z.of_nat (S i)) by lia. apply (Hr (S i)).
Qed.

Lemma rows_from_nil n h : rows_from n h [] → Z.testbit n h = false.
Proof. intros Hr. specialize (Hr 0%nat). by rewrite Z.add_0_r in Hr. Qed.

Lemma testbit_below n h : 0 ≤ n < 2 ^ 64 → 0 ≤ h → Z.testbit n h = true → h < 64.
Proof.
  intros Hn Hh Hb. destruct (Z.lt_ge_cases h 64); [done|]. exfalso.
  rewrite Z.bits_above_log2 in Hb; [done|lia|].
  destruct (Z.eq_dec n 0) as [->|]; [simpl; lia|].
  assert (Z.log2 n < 64) by (apply Z.log2_lt_pow2; lia). lia.
Qed.

(** ** The empty roots that additions write over *)

(** The empty rows that the carry of one addition runs through. *)
Fixpoint holes (h : Z) (s : forest) : list Z :=
  match s with
  | Some x :: s => (if x then [] else [h]) ++ holes (h + 1) s
  | _ => []
  end.

(** The positions, in a forest of [f] rows, of the empty roots of a forest of [n]
    leaves whose row is overflown by [k] more leaves; [h] is the row of the first slot. *)
Fixpoint doomed (f n k h : Z) (s : forest) : list Z :=
  match s with
  | [] => []
  | x :: s =>
      match x with
      | Some None =>
          if n / 2 ^ (h + 1) <? (n + k) / 2 ^ (h + 1)
          then [npos f h (2 * (n / 2 ^ (h + 1)))] else []
      | _ => []
      end ++ doomed f n k (h + 1) s
  end.

(** The roots passed around by [rootsToDestory] are empty where the forest is. *)
Definition shape (roots : list Hash) (s : forest) : Prop :=
  Forall2 (λ r t, r = empty ↔ t = None) roots (trees s).

Lemma rootsToDestory_row_spec n f s : 0 ≤ n < 2 ^ 64 →
  ∀ fuel h roots deleted, 0 ≤ h ≤ 64 → fuel = Z.to_nat (65 - h) → rows_from n h s →
  shape roots s →
  ∃ roots',
    rootsToDestory_row fuel h n f roots deleted
      = Ok (roots', deleted ++ map (λ h, rootPosition n h f) (holes h s)) ∧
    ∀ x t, x ≠ empty → shape (roots' ++ [x]) (incr s t).
Proof.
  intros Hn. induction s as [|x s IH]; intros fuel h roots deleted Hh -> Hrows Hsh;
    replace (Z.to_nat (65 - h)) with (S (Z.to_nat (64 - h))) by lia; cbn [rootsToDestory_row];
    rewrite bitSet_testbit by lia.
  - rewrite (rows_from_nil _ _ Hrows). exists roots. rewrite app_nil_r. split; [done|].
    intros y t Hy. apply Forall2_nil_inv_r in Hsh as ->. by repeat constructor.
  - apply rows_from_cons in Hrows as [Hbit Hrows]. destruct x as [x|].
    2:{ rewrite Hbit. exists roots. simpl. rewrite app_nil_r. split; [done|]. intros y t Hy.
        unfold shape. simpl. apply Forall2_app; [done|]. by repeat constructor. }
    rewrite bool_decide_true in Hbit by eauto. pose proof (testbit_below n h Hn ltac:(lia) Hbit).
    rewrite Hbit. unfold shape in Hsh. simpl in Hsh.
    apply Forall2_app_inv_r in Hsh as (roots1 & last & Hsh & Hlast & ->).
    apply Forall2_cons_inv_r in Hlast as (r & l & Hr & Hl & ->). apply Forall2_nil_inv_r in Hl as ->.
    rewrite popLast_app. cbn [bind]. rewrite u8_small by lia. cbn [holes incr].
    edestruct (IH (Z.to_nat (64 - h)) (h + 1) roots1) as (roots' & He & Hsh'); [lia|lia|done|done|].
    exists roots'. split; [|intros; by apply Hsh']. rewrite He. f_equal. f_equal. destruct x as [u|].
    + rewrite decide_False; [done|]. intros E. by apply Hr in E.
    + rewrite decide_True by (by apply Hr). by rewrite <- app_assoc.
Qed.

Lemma doomed_shift f n k h s : 0 ≤ h → n / 2 ^ h = (n + 1) / 2 ^ h →
  doomed f n (k + 1) h s = doomed f (n + 1) k h s.
Proof.
  revert h. induction s as [|x s IH]; intros h Hh Hn; [done|]. cbn [doomed].
  assert (n / 2 ^ (h + 1) = (n + 1) / 2 ^ (h + 1)) as Hn'
    by (rewrite !div_pow2_succ by lia; by rewrite Hn).
  rewrite IH, Hn' by (done || lia). by replace (n + (k + 1)) with (n + 1 + k) by lia.
Qed.

(** The carry in arithmetic. *)
Lemma carry_div n h : 0 ≤ h → n mod 2 ^ h = 2 ^ h - 1 →
  if Z.testbit n h then n mod 2 ^ (h + 1) = 2 ^ (h + 1) - 1 ∧ (n + 1) / 2 ^ (h + 1) = n / 2 ^ (h + 1) + 1
  else (n + 1) / 2 ^ (h + 1) = n / 2 ^ (h + 1).
Proof.
  intros Hh Hm. pose proof (pow2_pos h Hh). pose proof (pow2_succ h Hh).
  pose proof (Z.div_mod n (2 ^ h)). pose proof (Z.div_mod n (2 ^ (h + 1))).
  pose proof (Z.div2_odd (n / 2 ^ h)) as Ho. rewrite Z.div2_div, <- div_pow2_succ in Ho by lia.
  rewrite testbit_div by lia. destruct (Z.odd (n / 2 ^ h)); simpl in Ho.
  - split; [nia|]. symmetry. apply (Z.div_unique _ _ _ 0); nia.
  - symmetry. apply (Z.div_unique _ _ _ (2 ^ h)); nia.
Qed.

Lemma doomed_step f n k s : fits n f → 0 ≤ k → ∀ h t, 0 ≤ h → n mod 2 ^ h = 2 ^ h - 1 →
  rows_from n h s →
  doomed f n (k + 1) h s
  = map (λ h, npos f h (2 * (n / 2 ^ (h + 1)))) (holes h s) ++ doomed f (n + 1) k h (incr s t).
Proof.
  intros Hfit Hk. induction s as [|x s IH]; intros h t Hh Hm Hrows; cbn [doomed holes incr].
  - done.
  - apply rows_from_cons in Hrows as [Hbit Hrows]. pose proof (carry_div n h Hh Hm) as Hc.
    destruct x as [x|]; rewrite Hbit in Hc; cbn [map doomed app].
    + rewrite bool_decide_true in Hc by eauto. destruct Hc as [Hm' Hc].
      rewrite (IH (h + 1) (match x with Some l => Nd l t | None => t end)) by (done || lia).
      rewrite map_app, <- app_assoc. f_equal.
      assert ((n + 1) / 2 ^ (h + 1) ≤ (n + (k + 1)) / 2 ^ (h + 1))
        by (apply Z.div_le_mono; [apply pow2_pos|]; lia).
      by rewrite (proj2 (Z.ltb_lt _ _)) by lia; destruct x.
    + rewrite bool_decide_false in Hc by (by intros [? ?]).
      apply doomed_shift; [lia|done].
Qed.

Lemma holes_rows n h s r : rows_from n h s → r ∈ holes h s → h ≤ r ∧ Z.testbit n r = true.
Proof.
  revert h. induction s as [|[x|] s IH]; intros h Hrows Hin; simpl in Hin;
    try by apply not_elem_of_nil in Hin.
  apply rows_from_cons in Hrows as [Hb Hrows].
  rewrite bool_decide_true in Hb by eauto. apply elem_of_app in Hin as [Hin|Hin].
  - destruct x; [by apply not_elem_of_nil in Hin|]. apply list_elem_of_singleton in Hin as ->.
    split; [lia|done].
  - apply IH in Hin as [? ?]; [|done]. split; [lia|done].
Qed.

Lemma testbit_le_rows n f r : fits n f → 0 ≤ r → Z.testbit n r = true → r ≤ f.
Proof.
  intros [Hn Hf] Hr Hb. destruct (Z.le_gt_cases r f); [done|]. exfalso.
  pose proof (Z.pow_lt_mono_r 2 f r). rewrite Z.bits_above_log2 in Hb; [done|lia|].
  destruct (Z.eq_dec n 0) as [->|]; [simpl; lia|]. apply Z.log2_lt_pow2; lia.
Qed.

Lemma doomed_zero f n h s : doomed f n 0 h s = [].
Proof.
  revert h. induction s as [|[[x|]|] s IH]; intros h; simpl; auto.
  rewrite Z.add_0_r, Z.ltb_irrefl. simpl. auto.
Qed.

Lemma root_valid n f r : fits n f → 0 ≤ r → Z.testbit n r = true →
  is_root n r (2 * (n / 2 ^ (r + 1))) = true ∧ in_forest n r (2 * (n / 2 ^ (r + 1))) ∧
  valid f r (2 * (n / 2 ^ (r + 1))).
Proof.
  intros Hfit Hr Hb. assert (is_root n r (2 * (n / 2 ^ (r + 1))) = true) as Hroot
    by (unfold is_root; by rewrite Hb, Z.eqb_refl).
  assert (in_forest n r (2 * (n / 2 ^ (r + 1)))) as Hin
    by (apply root_in_forest; [destruct Hfit; lia|done..]).
  split; [done|]. split; [done|]. by apply (in_forest_valid n).
Qed.

Lemma doomed_elem f n k h s p : 0 ≤ h →
  p ∈ doomed f n k h s ↔
  ∃ i, s !! i = Some (Some None) ∧
    n / 2 ^ (h + Z.of_nat i + 1) < (n + k) / 2 ^ (h + Z.of_nat i + 1) ∧
    p = npos f (h + Z.of_nat i) (2 * (n / 2 ^ (h + Z.of_nat i + 1))).
Proof.
  revert h. induction s as [|x s IH]; intros h Hh; cbn [doomed].
  { split; [by intros ?%not_elem_of_nil|]. intros (i & Hi & _). by rewrite lookup_nil in Hi. }
  rewrite elem_of_app, IH by lia. split.
  - intros [Hp|(i & Hi & Hlt & ->)].
    + exists 0%nat. rewrite Z.add_0_r. destruct x as [[x|]|]; try by apply not_elem_of_nil in Hp.
      destruct (Z.ltb_spec (n / 2 ^ (h + 1)) ((n + k) / 2 ^ (h + 1))); [|by apply not_elem_of_nil in Hp].
      by apply list_elem_of_singleton in Hp as ->.
    + exists (S i). replace (h + Z.of_nat (S i)) with (h + 1 + Z.of_nat i) by lia. done.
  - intros ([|i] & Hi & Hlt & ->); simpl in Hi.
    + left. rewrite Z.add_0_r in *. injection Hi as ->. rewrite (proj2 (Z.ltb_lt _ _)) by done. by left.
    + right. exists i. replace (h + 1 + Z.of_nat i) with (h + Z.of_nat (S i)) by lia. done.
Qed.

Lemma fits_after n k : 0 ≤ n → 0 ≤ k → n + k ≤ 2 ^ 63 → fits n (treeRows (n + k)).
Proof.
  intros. assert (fits (n + k) (treeRows (n + k))) as [? ?] by (apply fits_treeRows; lia). split; lia.
Qed.

Lemma doomed_sorted f n k h s : fits n f → 0 ≤ h → rows_from n h s →
  StronglySorted Z.lt (doomed f n k h s).
Proof.
  intros Hfit. revert h. induction s as [|x s IH]; intros h Hh Hrows; cbn [doomed]; [constructor|].
  pose proof Hrows as [Hb Hrows']%rows_from_cons. specialize (IH (h + 1) ltac:(lia) Hrows').
  destruct x as [[x|]|]; try done. destruct (_ <? _); [|done]. simpl. constructor; [done|].
  apply Forall_forall. intros p (i & Hi & _ & ->)%doomed_elem; [|lia].
  assert (Z.testbit n (h + 1 + Z.of_nat i) = true) as Hb' by (rewrite (Hrows' i), Hi; done).
  rewrite bool_decide_true in Hb by eauto.
  apply npos_lt_row; [apply (root_valid n)|apply (root_valid n)|lia]; done || lia.
Qed.

Lemma rootsToDestory_loop_spec k : ∀ s roots deleted,
  nl s + Z.of_nat k ≤ 2 ^ 63 → shape roots s →
  rootsToDestory_loop k (nl s) roots deleted
  = Ok (deleted ++ doomed (treeRows (nl s + Z.of_nat k)) (nl s) (Z.of_nat k) 0 s).
Proof.
  induction k as [|k IH]; intros s roots deleted Hlen Hsh; cbn [rootsToDestory_loop].
  - f_equal. change (Z.of_nat 0) with 0. rewrite Z.add_0_r. symmetry.
    by rewrite doomed_zero, app_nil_r.
  - pose proof (nl_nonneg s). set (F := treeRows (nl s + Z.of_nat (S k))) in *.
    assert (nl s ⊞ Z.of_nat (S k) = nl s + Z.of_nat (S k)) as -> by (apply u64_small; lia).
    assert (nl s ⊞ 1 = nl (incr s (Lf hash1))) as -> by (rewrite nl_incr; apply u64_small; lia).
    destruct (rootsToDestory_row_spec (nl s) F s ltac:(lia) bit_fuel 0 roots deleted)
      as (roots' & He & Hsh'); [lia|done|apply rows_from_nl|done|].
    fold F. rewrite He. cbn [bind]. rewrite IH; [|rewrite nl_incr; lia|by apply Hsh'].
    rewrite nl_incr. replace (nl s + 1 + Z.of_nat k) with (nl s + Z.of_nat (S k)) by lia. fold F.
    assert (fits (nl s) F) as Hfit by (apply fits_after; lia).
    replace (Z.of_nat (S k)) with (Z.of_nat k + 1) by lia.
    rewrite (doomed_step F (nl s) (Z.of_nat k) s Hfit) with (t := Lf hash1);
      [|lia|lia|by rewrite Z.mod_1_r|apply rows_from_nl].
    rewrite <- app_assoc. do 3 f_equal. apply map_ext_in. intros h Hh%list_elem_of_In.
    apply (holes_rows (nl s)) in Hh as [? Hb]; [|apply rows_from_nl].
    apply rootPosition_eq; [done|]. split; [done|]. by eapply testbit_le_rows.
Qed.

Section Add.
Context `{HashLaws}.

(** Climbing the set low bits is the carry of [incr]. *)
Lemma add_row_incr n afterRows s : 0 ≤ n < 2 ^ 64 →
  ∀ fuel h pos t l, 0 ≤ h ≤ 64 → fuel = Z.to_nat (65 - h) → rows_from n h s →
  wf_from h s →
  ∃ roots' pos' newRoot l',
    add_row fuel h n afterRows (map ohash (trees s)) pos (thash t) (of_pairs l)
      = Ok (roots', pos', newRoot, of_pairs l') ∧
    roots' ++ [newRoot] = map ohash (trees (incr s t)).
Proof.
  intros Hn. induction s as [|x s IH]; intros fuel h pos t l Hh -> Hrows Hwf;
    replace (Z.to_nat (65 - h)) with (S (Z.to_nat (64 - h))) by lia; cbn [add_row];
    rewrite bitSet_testbit by lia.
  - rewrite (rows_from_nil _ _ Hrows). by eexists _, _, _, _.
  - apply rows_from_cons in Hrows as [Hbit Hrows]. apply wf_from_cons in Hwf as [Hx Hwf].
    destruct x as [x|]; cbn [trees incr].
    2:{ rewrite Hbit. eexists _, _, _, _. split; [done|]. by rewrite map_app. }
    rewrite bool_decide_true in Hbit by eauto. pose proof (testbit_below n h Hn ltac:(lia) Hbit).
    rewrite Hbit, map_app. cbn [map]. rewrite popLast_app. cbn [bind].
    rewrite u8_small by lia. destruct x as [u|]; simpl ohash.
    + rewrite decide_True by (apply thash_nonempty, Hx; done).
      destruct (IH (Z.to_nat (64 - h)) (h + 1) (parent pos afterRows) (Nd u t)
        (l ++ [(leftSib pos, thash u); (pos, thash t)])) as (r' & p' & nr & l' & He & Hr);
        [lia|lia|done|done|].
      exists r', p', nr, l'. split; [|done]. rewrite <- He. f_equal.
      unfold Append, of_pairs. simpl. rewrite !map_app, <- !app_assoc. done.
    + rewrite decide_False by (by intros ?).
      apply IH; [lia|lia|done|done].
Qed.

Lemma trees_lookup s t : Some t ∈ trees s → ∃ i, s !! i = Some (Some (Some t)).
Proof.
  induction s as [|[x|] s IH]; simpl.
  - by intros ?%not_elem_of_nil.
  - intros [Hin| ->%list_elem_of_singleton]%elem_of_app.
    + destruct (IH Hin) as [i ?]. by exists (S i).
    + by exists 0%nat.
  - intros Hin. destruct (IH Hin) as [i ?]. by exists (S i).
Qed.

Lemma shape_roots s : wf s → shape (map ohash (trees s)) s.
Proof.
  intros Hwf. unfold shape. assert (∀ t, Some t ∈ trees s → thash t ≠ empty) as Hne.
  { intros t (i & Hi)%trees_lookup. apply thash_nonempty. by apply (Hwf i t). }
  induction (trees s) as [|x l IH]; simpl; constructor.
  - destruct x as [t|]; simpl; [|done]. split; [|done]. intros E.
    exfalso. eapply Hne; [by left|done].
  - apply IH. intros t Ht. apply Hne. by right.
Qed.

Lemma rootsToDestory_spec s k : wf s → nl s + Z.of_nat k ≤ 2 ^ 63 →
  rootsToDestory k (nl s) (map ohash (trees s))
  = Ok (doomed (treeRows (nl s + Z.of_nat k)) (nl s) (Z.of_nat k) 0 s).
Proof.
  intros Hwf Hlen. unfold rootsToDestory. by rewrite rootsToDestory_loop_spec by auto using shape_roots.
Qed.

Lemma add_loop_spec afterRows hs : ∀ s st subs,
  wf s → represents s st → empty ∉ hs → nl s + Z.of_nat (length hs) ≤ 2 ^ 63 →
  ∃ st' subs', add_loop hs st afterRows (of_pairs <$> subs) = Ok (st', of_pairs <$> subs') ∧
    represents (add_leaves s hs) st'.
Proof.
  induction hs as [|h hs IH]; intros s st subs Hwf [Hn Hr] Hne Hlen; cbn [add_loop].
  - by exists st, subs.
  - apply not_elem_of_cons in Hne as [Hh Hne]. simpl length in Hlen. pose proof (nl_nonneg s).
    rewrite Hn, Hr, rootsToDestory_spec by (simpl length; done || lia). cbn [bind].
    edestruct (add_row_incr (nl s) afterRows s ltac:(lia) bit_fuel 0) with (t := Lf h) (l := @nil (Z * Hash))
      as (roots' & pos' & nr & l' & He & Hroots); [lia|done|apply rows_from_nl|done|].
    change hnp_nil with (of_pairs []). change h with (thash (Lf h)) at 1. rewrite He. cbn [bind].
    change (Append (of_pairs l') pos' nr) with (Append (of_pairs l') (pos', nr).1 (pos', nr).2).
    rewrite Append_pairs.
    change [of_pairs (l' ++ [(pos', nr)])] with (of_pairs <$> [l' ++ [(pos', nr)]]).
    rewrite <- fmap_app. apply (IH (incr s (Lf h))).
    + apply wf_incr; try done. unfold live. simpl. by rewrite list_elem_of_singleton.
    + split; cbn [NumLeaves Roots]; [|done]. rewrite nl_incr. apply u64_small. lia.
    + done.
    + rewrite nl_incr. lia.
Qed.

Lemma hash_subset_pairs l keys c : ∃ l',
  hash_subset_loop (map fst l) (map snd l) keys (of_pairs c) = Ok (of_pairs l').
Proof.
  revert c. induction l as [|[p h] l IH]; intros c; simpl; [by exists c|].
  destruct (decide (h ∈ keys)); [|apply IH].
  change (Append (of_pairs c) p h) with (Append (of_pairs c) (p, h).1 (p, h).2).
  rewrite Append_pairs. apply IH.
Qed.

Lemma mergeSubTrees_total subs u : ∃ u',
  mergeSubTrees (of_pairs <$> subs) (of_pairs u) = Ok (of_pairs u').
Proof.
  revert u. induction subs as [|x subs IH]; intros u; cbn [fmap list_fmap mergeSubTrees]; [by exists u|].
  destruct subs as [|y subs].
  - cbn [bind fmap list_fmap]. rewrite mergeSorted_pairs. cbn [bind]. apply IH.
  - cbn [bind fmap list_fmap]. unfold getHashAndPosHashSubset. change hnp_nil with (of_pairs []).
    edestruct (hash_subset_pairs x) as (l' & ->). cbn [bind].
    destruct (0 <? Len (of_pairs l'))%nat; [apply IH|].
    rewrite mergeSorted_pairs. cbn [bind]. apply IH.
Qed.

(** Adding leaves to a stump adds them to the forest it represents. *)
Lemma add_spec s st hs : wf s → represents s st → empty ∉ hs →
  nl s + Z.of_nat (length hs) ≤ 2 ^ 63 →
  ∃ st' ah ap,
    add st hs = Ok (st', (ah, ap, doomed (treeRows (nl s + Z.of_nat (length hs))) (nl s)
                                   (Z.of_nat (length hs)) 0 s)) ∧
    represents (add_leaves s hs) st' ∧ length ah = length ap.
Proof.
  intros Hwf Hrep Hne Hlen. pose proof Hrep as [Hn Hr]. pose proof (nl_nonneg s).
  unfold add. rewrite Hn, Hr, rootsToDestory_spec by done. cbn [bind].
  edestruct (add_loop_spec (treeRows (nl s ⊞ Z.of_nat (length hs))) hs s st [])
    as (st' & subs & He & Hrep'); try done.
  simpl in He. rewrite He. cbn [bind]. change hnp_nil with (of_pairs []).
  destruct (mergeSubTrees_total subs []) as (u & ->). cbn [bind].
  eexists _, _, _. split; [done|]. split; [done|]. simpl. by rewrite !length_map.
Qed.
End Add.
