(* ===== verification/StumpVerify.v ===== *)
(** * Verification and deletion by a stump

    The roots of a stump against the root positions of the forest, the matching of
    root candidates with roots, and from these what [Verify] and [del] do. *)

From S2P Require Import Prelude Utils PosTheory HashPos HashPosTheory Traverse Calc Walk.
From S2P Require Import CalcTheory Forest EvalTheory Stump StumpTheory.

(** ** Roots and root positions *)

Lemma trees_app s s' : trees (s ++ s') = trees s' ++ trees s.
Proof.
  induction s as [|[x|] s IH]; simpl; [by rewrite app_nil_r| |done]. by rewrite IH, app_assoc.
Qed.

Lemma trees_none s : (∀ x, Some x ∉ s) → trees s = [].
Proof.
  induction s as [|[x|] s IH]; simpl; intros Hn; [done| |].
  - exfalso. apply (Hn x). by left.
  - apply IH. intros x Hx. apply (Hn x). by right.
Qed.

Lemma RootPositions_elem_gen n f : fits n f →
  ∀ p, p ∈ RootPositions n f ↔ inF n f p ∧ root_at n f p = true.
Proof.
  intros Hfit p. pose proof Hfit as [? ?]. unfold RootPositions.
  rewrite RootPositions_loop_elem by (done || lia). split.
  - intros (r & Hr & Hb & ->). destruct (root_valid n f r) as (Hroot & Hin & Hv); [done|lia|done|].
    split; [by eexists _, _|]. by rewrite root_at_npos.
  - intros [(r & o & -> & Hin) Hroot]. pose proof (in_forest_valid n f r o Hfit Hin) as Hv.
    rewrite root_at_npos in Hroot by done. apply andb_true_iff in Hroot as [Hb ->%Z.eqb_eq].
    exists r. destruct Hv as (? & ? & ?). split; [lia|done].
Qed.

Section Roots.
Context (s : forest) (f : Z) (Hfit : fits (nl s) f).
Notation n := (nl s).

Lemma RootPositions_trees_loop h : Z.of_nat h ≤ f →
  map (node s f) (RootPositions_loop h n f) = trees (take (S h) s).
Proof.
  intros Hh. assert (∀ h, Z.of_nat h ≤ f → trees (take (S h) s) =
    (if Z.testbit n (Z.of_nat h) then [slot s (Z.of_nat h)] else []) ++ trees (take h s)) as Hstep.
  { clear h Hh. intros h Hh. rewrite nl_testbit by lia. unfold slot. rewrite Nat2Z.id.
    destruct (s !! h) as [x|] eqn:E.
    - rewrite (take_S_r _ _ _ E), trees_app. by destruct x as [x|].
    - apply lookup_ge_None in E. by rewrite !take_ge by lia. }
  induction h as [|h IH]; rewrite Hstep by done; cbn [RootPositions_loop];
    rewrite rootExistsOnRow_eq by lia.
  - destruct (Z.testbit n (Z.of_nat 0)) eqn:E; [|done]. simpl map.
    rewrite rootPosition_eq, node_root by (done || lia). done.
  - destruct (Z.testbit n (Z.of_nat (S h))) eqn:E; cbn [negb map].
    + rewrite rootPosition_eq, node_root, IH by (done || lia). done.
    + apply IH. lia.
Qed.

(** The trees of a forest are the subtrees at its root positions. *)
Lemma RootPositions_trees : map (node s f) (RootPositions n f) = trees s.
Proof.
  destruct Hfit as [? ?]. unfold RootPositions. rewrite RootPositions_trees_loop by lia.
  rewrite <- (take_drop (S (Z.to_nat f)) s) at 2. rewrite trees_app, (trees_none (drop _ s)); [done|].
  intros x (i & Hi)%list_elem_of_lookup. rewrite lookup_drop in Hi.
  set (j := (S (Z.to_nat f) + i)%nat) in *.
  assert (Z.testbit n (Z.of_nat j) = true) as Hb by (rewrite nl_testbit, Nat2Z.id, Hi by lia; done).
  apply (testbit_le_rows n f) in Hb; [lia|done|lia].
Qed.

Lemma RootPositions_elem p : p ∈ RootPositions n f ↔ inF n f p ∧ root_at n f p = true.
Proof. by apply RootPositions_elem_gen. Qed.

Lemma RootPositions_sorted : StronglySorted Z.gt (RootPositions n f).
Proof. destruct Hfit as [? ?]. apply RootPositions_loop_sorted; [done|lia]. Qed.
End Roots.

(** ** Matching candidates with roots *)

(** Every index matched points at the candidate's hash. *)
Lemma match_loop_sound k roots cands : ∀ idxs, ∃ new,
  match_loop k roots cands idxs = idxs ++ new ∧
  ∀ i j, new !! i = Some j → ∃ c, roots !! j = Some c ∧ cands !! (length idxs + i)%nat = Some c.
Proof.
  induction k as [|k IH]; intros idxs; cbn [match_loop].
  - exists []. rewrite app_nil_r. split; [done|]. intros i j Hi. by rewrite lookup_nil in Hi.
  - destruct (roots !! k) as [r|] eqn:Er; [|apply IH].
    destruct (cands !! length idxs) as [c|] eqn:Ec; [|apply IH].
    destruct (bool_decide_reflect (r = c)) as [->|]; [|apply IH].
    destruct (IH (idxs ++ [k])) as (new & -> & Hnew). exists (k :: new). rewrite <- app_assoc.
    split; [done|]. intros [|i] j Hi; simpl in Hi.
    + injection Hi as <-. exists c. by rewrite Nat.add_0_r.
    + destruct (Hnew i j Hi) as (c' & ? & Hc'). exists c'. split; [done|].
      rewrite <- Hc', length_app. simpl. f_equal. lia.
Qed.

Definition points_at (roots : list Hash) (j : nat) (c : Hash) : Prop := roots !! j = Some c.

Lemma sorted_gt_head (j : nat) js x : StronglySorted gt (j :: js) → x ∈ js → (x < j)%nat.
Proof. intros [_ Hall]%StronglySorted_inv Hx. rewrite Forall_forall in Hall. by apply Hall. Qed.

Lemma drop_nil_lookup {A} (l : list A) i : drop i l = [] → l !! i = None.
Proof.
  intros Hd. apply lookup_ge_None. apply (f_equal length) in Hd. rewrite length_drop in Hd. simpl in Hd. lia.
Qed.

Lemma drop_cons_lookup {A} (l : list A) i x xs : drop i l = x :: xs → l !! i = Some x.
Proof. intros Hd. by rewrite <- (Nat.add_0_r i), <- lookup_drop, Hd. Qed.

Lemma match_loop_step k roots cands idxs c cs :
  drop (length idxs) cands = c :: cs → roots !! k = Some c →
  match_loop (S k) roots cands idxs = match_loop k roots cands (idxs ++ [k]) ∧
  drop (length (idxs ++ [k])) cands = cs.
Proof.
  intros Hd Hk. cbn [match_loop].
  rewrite Hk, (drop_cons_lookup _ _ _ _ Hd), bool_decide_true by done. split; [done|].
  by rewrite length_app, <- drop_drop, Hd.
Qed.

Lemma match_loop_skip k roots cands idxs :
  (∀ c, roots !! k = Some c → cands !! length idxs ≠ Some c) →
  match_loop (S k) roots cands idxs = match_loop k roots cands idxs.
Proof.
  intros Hne. cbn [match_loop]. destruct (roots !! k) as [r|]; [|done].
  destruct (cands !! length idxs) as [c|]; [|done].
  rewrite bool_decide_false; [done|]. intros ->. by apply (Hne c).
Qed.

(** Candidates that are roots, in the order of the loop, are all matched. *)
Lemma match_loop_complete roots cands k : ∀ js idxs,
  (length idxs ≤ length cands)%nat → StronglySorted gt js → (∀ j, j ∈ js → (j < k)%nat) →
  Forall2 (points_at roots) js (drop (length idxs) cands) →
  length (match_loop k roots cands idxs) = length cands.
Proof.
  induction k as [|k IH]; intros js idxs Hlen Hs Hlt Hp.
  - destruct js as [|j js]; [|exfalso; pose proof (Hlt j ltac:(by left)); lia].
    apply Forall2_nil_inv_l in Hp. apply (f_equal length) in Hp. rewrite length_drop in Hp.
    simpl in *. lia.
  - destruct (drop (length idxs) cands) as [|c cs] eqn:Hd.
    { apply Forall2_nil_inv_r in Hp as ->. rewrite match_loop_skip.
      - apply (IH []); rewrite ?Hd; [done|constructor|by intros ? ?%not_elem_of_nil|constructor].
      - intros c _. by rewrite drop_nil_lookup. }
    apply Forall2_cons_inv_r in Hp as (j & js' & Hj & Hp & ->).
    destruct (decide (roots !! k = Some c)) as [Hk|Hk].
    + destruct (match_loop_step k roots cands idxs c cs Hd Hk) as (-> & Hd').
      apply (IH js').
      * rewrite length_app. apply (f_equal length) in Hd. rewrite length_drop in Hd. simpl in *. lia.
      * by apply StronglySorted_inv in Hs as [? _].
      * intros x Hx. pose proof (sorted_gt_head _ _ x Hs Hx). pose proof (Hlt j ltac:(by left)). lia.
      * by rewrite Hd'.
    + rewrite match_loop_skip.
      * apply (IH (j :: js')); try done; [|rewrite Hd; by constructor].
        intros x [->|Hx]%elem_of_cons.
        -- pose proof (Hlt j ltac:(by left)). assert (j ≠ k) by congruence. lia.
        -- pose proof (sorted_gt_head _ _ x Hs Hx). pose proof (Hlt j ltac:(by left)). lia.
      * intros c' Hc'. rewrite (drop_cons_lookup _ _ _ _ Hd). congruence.
Qed.

(** When no other root has the hash of a candidate, the match is the intended one. *)
Lemma match_loop_exact roots cands k : ∀ js idxs,
  StronglySorted gt js → (∀ j, j ∈ js → (j < k)%nat) →
  Forall2 (points_at roots) js (drop (length idxs) cands) →
  (∀ j j' c, j ∈ js → roots !! j = Some c → roots !! j' = Some c → j' = j) →
  match_loop k roots cands idxs = idxs ++ js.
Proof.
  induction k as [|k IH]; intros js idxs Hs Hlt Hp Hu.
  - destruct js as [|j js]; [by rewrite app_nil_r|]. exfalso. pose proof (Hlt j ltac:(by left)). lia.
  - destruct js as [|j js].
    { apply Forall2_nil_inv_l in Hp. rewrite match_loop_skip.
      - apply (IH []); rewrite ?Hp; [constructor|by intros ? ?%not_elem_of_nil|constructor|].
        by intros ? ? ? ?%not_elem_of_nil.
      - intros c _. by rewrite drop_nil_lookup. }
    apply Forall2_cons_inv_l in Hp as (c & cs & Hj & Hp & Hd). unfold points_at in Hj.
    destruct (decide (j = k)) as [->|Hne].
    + destruct (match_loop_step k roots cands idxs c cs Hd Hj) as (-> & Hd').
      rewrite (IH js), <- app_assoc; [done|by apply StronglySorted_inv in Hs as [? _]| |by rewrite Hd'|].
      * intros x Hx. by eapply sorted_gt_head.
      * intros x j' c' Hx. apply Hu. by right.
    + rewrite match_loop_skip.
      * apply (IH (j :: js)); try done; [|rewrite Hd; by constructor].
        intros x [->|Hx]%elem_of_cons.
        -- pose proof (Hlt j ltac:(by left)). lia.
        -- pose proof (sorted_gt_head _ _ x Hs Hx). pose proof (Hlt j ltac:(by left)). lia.
      * intros c' Hc'. rewrite (drop_cons_lookup _ _ _ _ Hd). intros [= ->].
        apply Hne. symmetry. by apply (Hu j k c' ltac:(by left)).
Qed.

(** ** The roots above the targets *)

Definition onpathb (f : Z) (T : list Z) (x : Z) : bool :=
  existsb (λ t, (x =? t) || isAncestor x t f) T.

(** The root positions with a target in their tree, lowest row first. *)
Definition tops (n f : Z) (T : list Z) : list Z :=
  filter (λ p, onpathb f T p = true) (reverse (RootPositions n f)).

Lemma onpathb_spec f T x : onpathb f T x = true ↔ onpath f T x.
Proof.
  unfold onpathb, onpath. rewrite existsb_exists. setoid_rewrite orb_true_iff.
  setoid_rewrite Z.eqb_eq. by setoid_rewrite <- list_elem_of_In.
Qed.

Lemma sorted_snoc {A} (R : relation A) l x :
  StronglySorted R l → (∀ y, y ∈ l → R y x) → StronglySorted R (l ++ [x]).
Proof.
  induction 1 as [|y l Hs IH Hall]; simpl; intros Hx; [repeat constructor|].
  constructor; [apply IH; intros; apply Hx; by right|]. apply Forall_app. split; [done|].
  constructor; [|done]. apply Hx. by left.
Qed.

Lemma sorted_reverse l : StronglySorted Z.gt l → StronglySorted Z.lt (reverse l).
Proof.
  induction 1 as [|x l Hs IH Hall]; [constructor|]. rewrite reverse_cons.
  apply sorted_snoc; [done|]. intros y Hy. rewrite elem_of_reverse in Hy.
  rewrite Forall_forall in Hall. specialize (Hall y Hy). lia.
Qed.

Lemma sorted_filter {A} (R : relation A) (P : A → Prop) `{∀ x, Decision (P x)} l :
  StronglySorted R l → StronglySorted R (filter P l).
Proof.
  induction 1 as [|x l Hs IH Hall]; [constructor|]. rewrite filter_cons.
  destruct (decide (P x)); [|done]. constructor; [done|]. rewrite Forall_forall in *.
  intros y [_ Hy]%list_elem_of_filter. auto.
Qed.

Section Tops.
Context (s : forest) (f : Z) (Hfit : fits (nl s) f).
Notation n := (nl s).

Lemma tops_elem T x : x ∈ tops n f T ↔ inF n f x ∧ root_at n f x = true ∧ onpath f T x.
Proof.
  unfold tops. rewrite list_elem_of_filter, elem_of_reverse, RootPositions_elem by done.
  rewrite onpathb_spec. tauto.
Qed.

Lemma tops_sorted T : StronglySorted Z.lt (tops n f T).
Proof. apply sorted_filter, sorted_reverse, RootPositions_sorted, Hfit. Qed.

Lemma sorted_ext l l' : StronglySorted Z.lt l → StronglySorted Z.lt l' →
  (∀ x, x ∈ l ↔ x ∈ l') → l = l'.
Proof.
  intros Hs Hs' He. apply sorted_lt_unique; [done|done|].
  apply NoDup_Permutation; [by apply sorted_lt_nodup..|done].
Qed.

Lemma roots_of_tops q tr T : walk n f q tr → pending n f q → q ≡ₚ T → roots_of tr = tops n f T.
Proof.
  intros Hw Hpd Hq. apply sorted_ext; [by eapply roots_of_sorted|apply tops_sorted|].
  intros x. rewrite (roots_of_elem n f Hfit q tr) by done. rewrite tops_elem.
  by rewrite (onpath_perm f q T x Hq).
Qed.
End Tops.

(** The indexes at which a descending list holds the elements of an ascending one. *)
Lemma indexes_exist (P : list Z) l : StronglySorted Z.gt P → StronglySorted Z.lt l → l ⊆ P →
  ∃ js, Forall2 (λ j p, P !! j = Some p) js l ∧ StronglySorted gt js.
Proof.
  intros HP Hl Hsub. induction Hl as [|x l Hl IH Hall]; [by exists []; repeat constructor|].
  destruct IH as (js & Hjs & Hs); [intros y Hy; apply Hsub; by right|].
  assert (x ∈ P) as (j & Hj)%list_elem_of_lookup by (apply Hsub; by left).
  exists (j :: js). split; [by constructor|]. constructor; [done|]. apply Forall_forall.
  intros j' Hj'. apply list_elem_of_lookup in Hj' as (i & Hi).
  destruct (Forall2_lookup_l _ _ _ _ _ Hjs Hi) as (y & Hy & Hpy).
  apply list_elem_of_lookup_2 in Hy. rewrite Forall_forall in Hall. specialize (Hall y Hy).
  destruct (Nat.lt_trichotomy j j') as [Hlt|[->|?]]; [|simplify_eq; lia|lia].
  exfalso. clear -HP Hlt Hj Hpy Hall. revert j j' Hj Hpy Hlt.
  induction HP as [|z P HP IH HallP]; intros j j' Hj Hpy Hlt; [done|].
  destruct j' as [|j']; [lia|]. destruct j as [|j]; simpl in *.
  - simplify_eq. apply list_elem_of_lookup_2 in Hpy. rewrite Forall_forall in HallP.
    specialize (HallP y Hpy). lia.
  - eapply IH; [done|done|lia].
Qed.

(** ** Writing the modified roots back *)

Lemma insert_map (L : Z → Hash) (P : list Z) j p v : NoDup P → P !! j = Some p →
  <[j := v]> (map L P) = map (λ x, if decide (x = p) then v else L x) P.
Proof.
  intros Hnd Hj. apply list_eq. intros i. change (map ?g ?l) with (g <$> l).
  rewrite list_lookup_fmap. destruct (decide (i = j)) as [->|Hne].
  - rewrite list_lookup_insert_eq, Hj; [simpl; by rewrite decide_True|].
    rewrite length_fmap. by eapply lookup_lt_Some.
  - rewrite list_lookup_insert_ne, list_lookup_fmap by done.
    destruct (P !! i) as [x|] eqn:Hi; [|done]. simpl. rewrite decide_False; [done|].
    intros ->. apply Hne. by eapply NoDup_lookup.
Qed.

Lemma setRoots_map (L L' : Z → Hash) (P : list Z) js l : NoDup P →
  Forall2 (λ j p, P !! j = Some p) js l →
  setRoots (map L P) js (map L' l) = map (λ p, if decide (p ∈ l) then L' p else L p) P.
Proof.
  intros Hnd Hjs. revert L. induction Hjs as [|j p js l Hj Hjs IH]; intros L; cbn [setRoots map].
  - apply map_ext. intros p. by rewrite decide_False by apply not_elem_of_nil.
  - rewrite (insert_map L P j p) by done. rewrite IH. apply map_ext. intros x.
    destruct (decide (x ∈ l)), (decide (x ∈ p :: l)) as [Hin|Hin]; try done.
    + exfalso. apply Hin. by right.
    + apply elem_of_cons in Hin as [->|?]; [|done]. by rewrite decide_True.
    + rewrite decide_False; [done|]. intros ->. apply Hin. by left.
Qed.

(** ** Labels after deletion *)

Section Labels.
Context `{HashLaws} (s : forest) (f : Z) (Hfit : fits (nl s) f) (Hwf : wf s).
Notation n := (nl s).

(** A node on the path of an existing node exists. *)
Lemma node_above p t u : inF n f p → inF n f t → isAncestor p t f = true →
  node s f t = Some u → ∃ l r, node s f p = Some (Nd l r).
Proof.
  intros Hp Ht Hanc. remember (Z.to_nat (64 - rowOf f t)) as k eqn:Hk.
  revert t u Hk Ht Hanc. induction k as [k IH] using lt_wf_ind. intros t u -> Ht Hanc Hn.
  destruct (root_at n f t) eqn:Hroot; [by rewrite (anc_root n f p t) in Hanc|].
  destruct (node_family s f Hfit t u Ht Hroot Hn) as (t' & _ & Hpar).
  destruct (sibling_props n f t) as (_ & Hinp & _); try done.
  apply (anc_parent n f p t) in Hanc as [->|Hanc]; try done.
  - destruct (Z.even t); eauto.
  - eapply (IH (Z.to_nat (64 - rowOf f (parent t f)))); try done.
    pose proof (weight_parent n f t Hfit Ht Hroot). destruct Hfit as [_ ?]. lia.
Qed.

Lemma node_onpath T p : (∀ t, t ∈ T → inF n f t ∧ is_Some (node s f t)) → inF n f p →
  onpath f T p → is_Some (node s f p).
Proof.
  intros HT Hp (t & Ht & [->|Hanc]); [by apply HT|]. destruct (HT t Ht) as [Hin [u Hu]].
  destruct (node_above p t u) as (l & r & ->); eauto.
Qed.

Lemma prune_leaves D r o t : oleaves (prune f D r o t) `sublist_of` leaves t.
Proof.
  revert r o. induction t as [h|a IHa b IHb]; intros r o; cbn [prune];
    (destruct (decide _); [apply sublist_nil_l|]); [done|].
  rewrite oleaves_join. simpl. by apply sublist_app.
Qed.

Lemma pruned_nonempty D p t : inF n f p → pruned s f D p = Some t → thash t ≠ empty.
Proof.
  intros Hp Ht. apply thash_nonempty. unfold live. unfold pruned in Ht.
  destruct (node s f p) as [u|] eqn:Hu; [|done]. simpl in Ht.
  destruct (node_height s f Hfit p u) as [_ Hl]; try done.
  intros Hin. apply Hl. pose proof (prune_leaves D (rowOf f p) (offOf f p) u) as Hsub.
  rewrite Ht in Hsub. simpl in Hsub. by apply (sublist_subseteq _ _ Hsub).
Qed.

Lemma ohash_join p a b : (∀ t, a = Some t → thash t ≠ empty) → (∀ t, b = Some t → thash t ≠ empty) →
  ohash (if Z.even p then join a b else join b a) = getNextHash p (ohash a) (ohash b).
Proof.
  intros Ha Hb. unfold getNextHash. rewrite isLeftNiece_even.
  destruct a as [t|]; simpl; [rewrite (decide_False (P := thash t = empty)) by (by apply Ha)|].
  - destruct b as [t'|]; simpl; [|by destruct (Z.even p)].
    rewrite decide_False by (by apply Hb). by destruct (Z.even p).
  - by destruct b, (Z.even p).
Qed.

(** The hash of a position once [D] is deleted. *)
Definition plabel (D : list Z) (p : Z) : Hash := ohash (pruned s f D p).

Lemma plabel_nil p : plabel [] p = label s f p.
Proof. unfold plabel, label. by rewrite pruned_nil. Qed.

Lemma plabel_parent D p : inF n f p → root_at n f p = false → is_Some (node s f p) →
  parent p f ∉ D → plabel D (parent p f) = getNextHash p (plabel D p) (plabel D (sibling p)).
Proof.
  intros Hp Hroot [t Ht] Hnot. unfold plabel. rewrite (pruned_parent s f Hfit D p t) by done.
  apply ohash_join; intros u Hu; eapply pruned_nonempty; [done|exact Hu|..|exact Hu].
  by destruct (sibling_props n f p).
Qed.

(** Nothing above a pending target is a target. *)
Lemma pending_parent q p : pending n f q → inF n f p → root_at n f p = false → onpath f q p →
  parent p f ∉ q.
Proof.
  intros [_ Hin Hanti] Hp Hroot (t & Ht & Hor) Hbad.
  destruct (sibling_props n f p) as (_ & Hinp & _); try done.
  assert (isAncestor (parent p f) t f = true) as Hanc; [|by rewrite Hanti in Hanc].
  destruct Hor as [->|Hanc]; [apply (anc_parent n); auto|].
  eapply anc_trans; [done|exact Hinp|exact Hp|by apply Hin|apply (anc_parent n); auto|done].
Qed.
End Labels.

(** ** The sets of targets that a proof is for *)

(** Distinct positions with a node, none above another one. *)
Record targets_ok (s : forest) (f : Z) (ts : list Z) : Prop := {
  to_nodup : NoDup ts;
  to_node : ∀ t, t ∈ ts → inF (nl s) f t ∧ is_Some (node s f t);
  to_anti : ∀ t t', t ∈ ts → t' ∈ ts → isAncestor t' t f = false;
}.

Lemma copySorted_perm ts : copySortedFunc ts ≡ₚ ts.
Proof. apply merge_sort_Permutation. Qed.

Lemma copySorted_sorted ts : NoDup ts → StronglySorted Z.lt (copySortedFunc ts).
Proof.
  intros Hnd. apply sorted_le_nodup_lt; [|by rewrite copySorted_perm].
  apply (StronglySorted_merge_sort Z.le).
Qed.

Lemma targets_pending s f ts : targets_ok s f ts → pending (nl s) f (copySortedFunc ts).
Proof.
  intros [Hnd Hnode Hanti]. split; [by apply copySorted_sorted| |].
  - intros p Hp. rewrite copySorted_perm in Hp. by apply Hnode.
  - intros p p' Hp Hp'. rewrite copySorted_perm in Hp, Hp'. auto.
Qed.

(** A leaf of the forest. *)
Definition leaf_at (s : forest) (f t : Z) (h : Hash) : Prop :=
  inF (nl s) f t ∧ node s f t = Some (Lf h).

(** Distinct leaves are such a set. *)
Lemma leaves_ok s f ts hs : fits (nl s) f → NoDup ts → Forall2 (leaf_at s f) ts hs → targets_ok s f ts.
Proof.
  intros Hfit Hnd Hall. assert (∀ t, t ∈ ts → ∃ h, leaf_at s f t h) as Hl.
  { intros t (i & Hi)%list_elem_of_lookup.
    destruct (Forall2_lookup_l _ _ _ _ _ Hall Hi) as (h & _ & ?). by exists h. }
  split; [done| |].
  - intros t Ht. destruct (Hl t Ht) as (h & ? & ->). eauto.
  - intros t t' Ht Ht'. destruct (Hl t Ht) as (h & Hin & Hn). destruct (Hl t' Ht') as (h' & Hin' & Hn').
    apply not_true_is_false. intros Hanc.
    destruct (node_above s f Hfit t' t (Lf h)) as (l & r & Heq); try done. congruence.
Qed.

Lemma RootPositions_nodup n f : fits n f → NoDup (RootPositions n f).
Proof.
  intros [? ?]. rewrite <- (reverse_Permutation (RootPositions n f)).
  apply sorted_lt_nodup, sorted_reverse. apply RootPositions_loop_sorted; [done|lia].
Qed.

(** A root hash computed from nonempty hashes is not empty. *)
Lemma eval_nonempty `{HashLaws} n f q tr val prf ps rs : fits n f → walk n f q tr → pending n f q →
  eval f tr val prf = Ok (ps, rs) → (∀ p, p ∈ q → val p ≠ empty) → ∀ h, h ∈ rs → h ≠ empty.
Proof.
  intros Hfit Hw. revert val prf ps rs.
  induction Hw as [|p q tr Hroot Hw IH|p q q' tr Hroot Hs' Hq' Hw IH
    |p q q' tr Hroot Hhd Hs' Hq' Hw IH]; intros val prf ps rs Hpd He Hv h Hh.
  - injection He as <- <-. by apply not_elem_of_nil in Hh.
  - apply eval_ok_root in He as (rs' & -> & He). apply elem_of_cons in Hh as [->|Hh].
    + apply Hv. by left.
    + eapply IH; [by eapply pending_tail|done| |done]. intros. apply Hv. by right.
  - apply eval_ok_pair in He as (ps' & He). destruct (pending_pair n f Hfit p q q') as (? & _); try done.
    eapply IH; [done|done| |done]. eapply upd_nonempty; [done| |].
    + intros. apply Hv. by do 2 right.
    + apply getNextHash_nonempty, Hv. by left.
  - apply eval_ok_sib in He as (k & prf' & ps' & -> & He).
    destruct (pending_sib n f Hfit p q q') as (? & _); try done.
    eapply IH; [done|done| |done]. eapply upd_nonempty; [done| |].
    + intros. apply Hv. by right.
    + apply getNextHash_nonempty, Hv. by left.
Qed.

(** ** The forest after a deletion *)

Lemma nl_del f D s : nl (Forest.del f D s) = nl s.
Proof.
  unfold Forest.del. generalize (nl s) at 1. intros n.
  assert (∀ g : nat → option (option tree) → option (option tree),
    (∀ i x, is_Some (g i x) ↔ is_Some x) → nl (imap g s) = nl s) as Hg; [|apply Hg].
  - induction s as [|x s IH]; intros g Hg; [done|]. simpl. rewrite IH by (intros; apply Hg).
    f_equal. specialize (Hg 0%nat x). destruct (g 0%nat x), x; try done; destruct Hg as [H1 H2];
      [destruct H1; eauto; done|destruct H2; eauto; done].
  - intros i [x|]; simpl; by rewrite ?is_Some_alt.
Qed.

Lemma slot_del f D s r : 0 ≤ r →
  slot (Forest.del f D s) r = slot s r ≫= prune f D r (2 * (nl s / 2 ^ (r + 1))).
Proof.
  intros Hr. unfold slot, Forest.del. rewrite list_lookup_imap.
  destruct (s !! Z.to_nat r) as [[x|]|]; simpl; [|done|done]. by rewrite Z2Nat.id.
Qed.

Lemma trees_del s : let f := treeRows (nl s) in ∀ D, nl s ≤ 2 ^ 63 →
  trees (Forest.del f D s) = map (pruned s f D) (RootPositions (nl s) f).
Proof.
  intros f D Hmax. assert (fits (nl s) f) as Hfit.
  { apply fits_treeRows. pose proof (nl_nonneg s). lia. }
  rewrite <- (RootPositions_trees (Forest.del f D s) f) by (by rewrite nl_del). rewrite nl_del.
  apply map_ext_in. intros p Hp%list_elem_of_In. destruct Hfit as [? ?]. unfold RootPositions in Hp.
  apply RootPositions_loop_elem in Hp as (r & Hr & Hb & ->); [|done|lia].
  destruct (root_valid (nl s) f r) as (_ & _ & Hv); [done|lia|done|].
  unfold pruned. rewrite (node_root s f) by (done || lia).
  rewrite rowOf_npos, offOf_npos by done. rewrite <- slot_del by lia.
  rewrite <- (nl_del f D s). apply node_root; rewrite ?nl_del; [done|lia|done].
Qed.

Section Ops.
Context `{HashLaws} (s : forest) (st : Stump).
Context (Hwf : wf s) (Hrep : represents s st) (Hmax : nl s ≤ 2 ^ 63).
Notation n := (nl s).
Notation f := (treeRows (nl s)).
Notation L := (label s f).

Lemma Hfit : fits n f.
Proof. apply fits_treeRows. pose proof (nl_nonneg s). lia. Qed.

Lemma roots_label : Roots st = map L (RootPositions n f).
Proof.
  destruct Hrep as [_ ->]. rewrite <- (RootPositions_trees s f Hfit). by rewrite map_map.
Qed.

Section Targets.
Context (ts : list Z) (Hts : targets_ok s f ts) (tr : list step).
Context (Hw : walk n f (copySortedFunc ts) tr).
Context (Hlen : (length tr ≤ weight f (copySortedFunc ts))%nat).
Notation q := (copySortedFunc ts).

Lemma Hpd : pending n f q.
Proof. by apply targets_pending. Qed.

Lemma calculateHashes_ok hs prf ps rs : length hs = length ts →
  eval f tr (assoc (zip ts hs)) prf = Ok (ps, rs) →
  calculateHashes n (Some hs) (mkProof ts prf)
  = Ok (of_pairs (merge_pairs (zip (parents f tr) ps) (sort_pairs (zip ts hs))), rs).
Proof.
  intros Hhs He. rewrite (calculateHashes_eval n ts hs prf q tr Hfit Hpd (copySorted_perm ts)) by done.
  rewrite He. cbn [bind]. apply eval_lengths in He as [He _].
  rewrite <- (of_pairs_zip (parents f tr) ps) by done. by rewrite mergeSorted_pairs.
Qed.

Lemma Verify_eval hs prf : length hs = length ts →
  Verify st hs (mkProof ts prf)
  = let* (_, rs) := eval f tr (assoc (zip ts hs)) prf in
    let idxs := match_loop (length (Roots st)) (Roots st) rs [] in
    if negb (length rs =? length idxs)%nat then Err ErrInvalidProof else Ok idxs.
Proof.
  intros Hhs. unfold Verify. cbn [Targets]. rewrite Hhs, Nat.eqb_refl. cbn [negb].
  rewrite (rep_leaves _ _ Hrep).
  destruct (eval f tr (assoc (zip ts hs)) prf) as [[ps rs]| | |] eqn:He.
  { by rewrite (calculateHashes_ok hs prf ps rs). }
  all: rewrite (calculateHashes_eval n ts hs prf q tr Hfit Hpd (copySorted_perm ts)) by done;
    by rewrite He.
Qed.

(** What an accepted proof says about its evaluation. *)
Lemma Verify_inv hs prf idxs : Verify st hs (mkProof ts prf) = Ok idxs →
  length hs = length ts ∧
  ∃ ps rs, eval f tr (assoc (zip ts hs)) prf = Ok (ps, rs) ∧
    Forall2 (points_at (Roots st)) idxs rs.
Proof.
  intros Hv. assert (length hs = length ts) as Hhs.
  { unfold Verify in Hv. cbn [Targets] in Hv.
    destruct (Nat.eqb_spec (length hs) (length ts)); [done|]. by cbn in Hv. }
  split; [done|]. rewrite (Verify_eval hs prf Hhs) in Hv.
  destruct (eval f tr _ prf) as [[ps rs]| | |]; try done. exists ps, rs. split; [done|].
  cbn [bind] in Hv. destruct (Nat.eqb_spec (length rs)
    (length (match_loop (length (Roots st)) (Roots st) rs []))) as [El|El]; [|done].
  injection Hv as <-. destruct (match_loop_sound (length (Roots st)) (Roots st) rs [])
    as (new & Hm & Hnew). rewrite Hm in *. simpl in *.
  apply Forall2_same_length_lookup. split; [done|]. intros i j c Hi Hc.
  destruct (Hnew i j Hi) as (c' & Hr & Hc'). unfold points_at. congruence.
Qed.

Lemma onpath_targets p : onpath f q p ↔ onpath f ts p.
Proof. apply onpath_perm, copySorted_perm. Qed.

Lemma onpath_node p : inF n f p → onpath f q p → is_Some (node s f p).
Proof. intros Hp Hon%onpath_targets. eapply node_onpath; [apply Hfit|apply Hts|done|done]. Qed.

(** A position the proof provides is not affected by the deletion. *)
Lemma sibs_plabel : map (plabel s f ts) (sibs tr) = map L (sibs tr).
Proof.
  apply map_ext_in. intros x Hx%list_elem_of_In.
  apply (sibs_needed n f Hfit q tr x Hw Hpd) in Hx as (Hin & Hroot & Hon & Hoff).
  destruct (sibling_props n f x) as (Hs & _ & _ & Hroots & _); try done; [apply Hfit|].
  destruct (onpath_node (sibling x) Hs Hon) as [u Hu].
  destruct (node_family s f Hfit (sibling x) u) as (t & Ht & _); try done.
  rewrite sibling_invol in Ht. unfold plabel, label.
  rewrite (pruned_keep s f Hfit ts x t), Ht; try done. by rewrite <- onpath_targets.
Qed.

Lemma eval_plabel D val extra : (∀ p, p ∈ q → val p = plabel s f D p) →
  (∀ p, inF n f p → root_at n f p = false → onpath f q p → parent p f ∉ D) →
  map (plabel s f D) (sibs tr) = map L (sibs tr) →
  eval f tr val (map L (sibs tr) ++ extra)
  = Ok (map (plabel s f D) (parents f tr), map (plabel s f D) (tops n f ts)).
Proof.
  intros Hval Hnot <-. rewrite (eval_lab n f q tr (plabel s f D)); try done.
  - by rewrite (roots_of_tops s f Hfit q tr ts Hw Hpd (copySorted_perm ts)).
  - apply Hfit.
  - apply Hpd.
  - intros p Hp Hroot Hon. apply plabel_parent; [apply Hfit|done|done|done| |by apply Hnot].
    by apply onpath_node.
Qed.

Lemma eval_honest hs extra : hs = map L ts →
  eval f tr (assoc (zip ts hs)) (map L (sibs tr) ++ extra)
  = Ok (map L (parents f tr), map L (tops n f ts)).
Proof.
  intros ->. assert (∀ l, map (plabel s f []) l = map L l) as Hnil
    by (intros l; apply map_ext; intros; apply plabel_nil).
  rewrite <- !Hnil, (Hnil (sibs tr)), (Hnil ts). apply eval_plabel; [|by intros; apply not_elem_of_nil|done].
  intros p Hp. rewrite copySorted_perm in Hp. rewrite plabel_nil.
  apply list_elem_of_lookup in Hp as (i & Hi).
  eapply assoc_lookup; [apply Hts|by rewrite length_map|done|].
  change (map L ts) with (L <$> ts). by rewrite list_lookup_fmap, Hi.
Qed.

Lemma eval_deleted extra :
  eval f tr (assoc (zip ts (replicate (length ts) empty))) (map L (sibs tr) ++ extra)
  = Ok (map (plabel s f ts) (parents f tr), map (plabel s f ts) (tops n f ts)).
Proof.
  apply eval_plabel; [| |apply sibs_plabel].
  - intros p Hp. unfold plabel. rewrite (pruned_deleted s f Hfit); [|by apply Hpd|by rewrite copySorted_perm in Hp].
    rewrite copySorted_perm in Hp. apply list_elem_of_lookup in Hp as (i & Hi). simpl.
    eapply assoc_lookup; [apply Hts|by rewrite length_replicate|done|].
    apply lookup_replicate_2. by eapply lookup_lt_Some.
  - intros p Hp Hroot Hon. rewrite <- (copySorted_perm ts).
    eapply pending_parent; [apply Hfit|apply Hpd|done..].
Qed.

Lemma tops_subset : tops n f ts ⊆ RootPositions n f.
Proof. intros p (Hin & Hroot & _)%(tops_elem s f Hfit). by apply (RootPositions_elem s f Hfit). Qed.

Lemma tops_indexes : ∃ js,
  Forall2 (λ j p, RootPositions n f !! j = Some p) js (tops n f ts) ∧ StronglySorted gt js.
Proof.
  apply indexes_exist; [apply RootPositions_sorted, Hfit|apply tops_sorted, Hfit|].
  apply tops_subset.
Qed.

Lemma indexes_points js : Forall2 (λ j p, RootPositions n f !! j = Some p) js (tops n f ts) →
  Forall2 (points_at (Roots st)) js (map L (tops n f ts)) ∧
  (∀ j, j ∈ js → (j < length (Roots st))%nat).
Proof.
  rewrite roots_label. induction 1 as [|j p js l Hj Hjs [IH1 IH2]]; simpl.
  - split; [constructor|]. by intros ? ?%not_elem_of_nil.
  - split.
    + constructor; [|done]. unfold points_at. change (map L ?l) with (L <$> l).
      by rewrite list_lookup_fmap, Hj.
    + intros x [->|Hx]%elem_of_cons; [|auto]. rewrite length_map. by eapply lookup_lt_Some.
Qed.

(** An honest proof is accepted. *)
Lemma Verify_honest extra : ∃ idxs,
  Verify st (map L ts) (mkProof ts (map L (sibs tr) ++ extra)) = Ok idxs ∧
  length idxs = length (tops n f ts).
Proof.
  rewrite Verify_eval, eval_honest by (by rewrite ?length_map). cbn [bind].
  destruct tops_indexes as (js & Hjs & Hsort). destruct (indexes_points js Hjs) as [Hp Hlt].
  pose proof (match_loop_complete (Roots st) (map L (tops n f ts)) (length (Roots st)) js [])
    as Hm. rewrite Hm; [|simpl; lia|done|done|done]. rewrite Nat.eqb_refl. eexists.
  split; [done|]. by rewrite Hm, length_map by (simpl; done || lia).
Qed.

(** Its indexes are those of the trees of the targets, when no two trees have the
    same root hash. *)
Lemma Verify_honest_exact extra :
  (∀ i j c, c ≠ empty → Roots st !! i = Some c → Roots st !! j = Some c → i = j) →
  ∃ idxs, Verify st (map L ts) (mkProof ts (map L (sibs tr) ++ extra)) = Ok idxs ∧
    Forall2 (λ j p, RootPositions n f !! j = Some p) idxs (tops n f ts).
Proof.
  intros Hu. rewrite Verify_eval, eval_honest by (by rewrite ?length_map). cbn [bind].
  destruct tops_indexes as (js & Hjs & Hsort). destruct (indexes_points js Hjs) as [Hp Hlt].
  rewrite (match_loop_exact (Roots st) (map L (tops n f ts)) _ js []); [|done|done|done|].
  - simpl. exists js. split; [|done]. by rewrite <- (Forall2_length _ _ _ Hp), Nat.eqb_refl.
  - intros j j' c Hj Hc Hc'. apply (Hu j' j c); try done.
    apply list_elem_of_lookup in Hj as (i & Hi).
    destruct (Forall2_lookup_l _ _ _ _ _ Hjs Hi) as (p & Hptop & HP).
    apply list_elem_of_lookup_2 in Hptop. apply (tops_elem s f Hfit) in Hptop as (Hinp & _ & Hon).
    apply onpath_targets in Hon. destruct (onpath_node p Hinp Hon) as [u Hu'].
    assert (c = L p) as ->.
    { rewrite roots_label in Hc. change (map L ?l) with (L <$> l) in Hc.
      rewrite list_lookup_fmap, HP in Hc. by injection Hc. }
    unfold label. rewrite Hu'. simpl. apply thash_nonempty.
    by apply (node_height s f Hfit p u Hwf Hinp).
Qed.

Notation inputs hs prf := (eval_inputs f tr (assoc (zip ts hs)) prf).

Lemma assoc_nonempty hs p : length hs = length ts → empty ∉ hs → p ∈ q →
  assoc (zip ts hs) p ≠ empty.
Proof.
  intros Hhs Hne Hp Heq. rewrite copySorted_perm in Hp. apply list_elem_of_lookup in Hp as (i & Hi).
  destruct (lookup_lt_is_Some_2 hs i) as [h Hh]; [rewrite Hhs; by eapply lookup_lt_Some|].
  rewrite (assoc_lookup ts hs i p h) in Heq by (done || apply Hts). subst h.
  apply Hne. by eapply list_elem_of_lookup_2.
Qed.

Lemma nonempty_take hs k : empty ∉ hs → ∀ h, h ∈ take k hs → h ≠ (empty : Hash).
Proof.
  intros Hne h Hin ->. apply Hne. rewrite <- (take_drop k hs). apply elem_of_app. by left.
Qed.

(** An accepted proof matched against the roots of its targets has the hashes of the
    forest, at the targets and in the part of the proof that is used. *)
Lemma Verify_sound hs prf idxs : Verify st hs (mkProof ts prf) = Ok idxs →
  Forall2 (λ j p, RootPositions n f !! j = Some p) idxs (tops n f ts) →
  empty ∉ hs → empty ∉ prf →
  (hs = map L ts ∧ ∃ extra, prf = map L (sibs tr) ++ extra) ∨ hash_break s (inputs hs prf).
Proof.
  intros Hv Hidx Hne Hnep. destruct (Verify_inv hs prf idxs Hv) as (Hhs & ps & rs & He & Hp).
  destruct (indexes_points idxs Hidx) as [Hp' _].
  assert (rs = map L (tops n f ts)) as ->.
  { clear -Hp Hp'. revert Hp Hp'. generalize (map L (tops n f ts)).
    intros l Hp. revert l. induction Hp as [|j c js cs Hj Hjs IH]; intros l Hl;
      [by apply Forall2_nil_inv_l in Hl as ->|].
    apply Forall2_cons_inv_l in Hl as (c' & l' & Hc' & Hl & ->). unfold points_at in *.
    f_equal; [congruence|by apply IH]. }
  destruct (eval_sound s f q tr (assoc (zip ts hs)) prf ps (map L (tops n f ts)))
    as [[Hq Hsib]|]; try done; [apply Hfit|apply Hpd| | | |left|by right].
  - by rewrite (roots_of_tops s f Hfit q tr ts Hw Hpd (copySorted_perm ts)).
  - intros p Hpq. by apply assoc_nonempty.
  - by apply nonempty_take.
  - split.
    + apply list_eq. intros i. change (map L ?l) with (L <$> l). rewrite list_lookup_fmap.
      destruct (ts !! i) as [t|] eqn:Ht; simpl.
      * destruct (lookup_lt_is_Some_2 hs i) as [h Hh]; [rewrite Hhs; by eapply lookup_lt_Some|].
        rewrite Hh. f_equal. rewrite <- Hq.
        -- symmetry. apply (assoc_lookup ts hs i); try done. apply Hts.
        -- rewrite copySorted_perm. by eapply list_elem_of_lookup_2.
      * apply lookup_ge_None. rewrite Hhs. by apply lookup_ge_None.
    + exists (drop (length (sibs tr)) prf). by rewrite <- Hsib, take_drop.
Qed.

(** Whatever roots it matched, an accepted proof has hashes of the forest only. *)
Lemma Verify_member hs prf idxs : Verify st hs (mkProof ts prf) = Ok idxs →
  empty ∉ hs → empty ∉ prf →
  (∀ h, h ∈ hs → member s h) ∨ hash_break s (inputs hs prf).
Proof.
  intros Hv Hne Hnep. destruct (Verify_inv hs prf idxs Hv) as (Hhs & ps & rs & He & Hp).
  destruct (eval_lengths _ _ _ _ _ _ He) as [_ Hrl].
  assert (∀ h, h ∈ rs → h ∈ Roots st) as Hroots.
  { intros h (i & Hi)%list_elem_of_lookup. destruct (Forall2_lookup_r _ _ _ _ _ Hp Hi) as (j & _ & Hj).
    by eapply list_elem_of_lookup_2. }
  assert (∀ h, h ∈ Roots st → h ≠ empty → member s h) as Hmem.
  { intros h Hh Hnz. rewrite (rep_roots _ _ Hrep) in Hh.
    apply list_elem_of_fmap in Hh as (t & -> & Ht). destruct t as [t|]; [|done].
    exists t. split; [|done]. apply nodes_elem. exists t. split; [done|apply subtrees_self]. }
  destruct (eval_member s f q tr (assoc (zip ts hs)) prf ps rs) as [Hq|]; try done;
    [apply Hfit|apply Hpd| | | |left|by right].
  - intros h Hh. apply Hmem; [by apply Hroots|].
    eapply (eval_nonempty n); [apply Hfit|exact Hw|apply Hpd|exact He| |exact Hh].
    intros p Hpq. by apply assoc_nonempty.
  - intros p Hpq. by apply assoc_nonempty.
  - by apply nonempty_take.
  - intros h (i & Hi)%list_elem_of_lookup.
    destruct (lookup_lt_is_Some_2 ts i) as [t Ht]; [rewrite <- Hhs; by eapply lookup_lt_Some|].
    rewrite <- (assoc_lookup ts hs i t h) by (done || apply Hts). apply Hq.
    rewrite copySorted_perm. by eapply list_elem_of_lookup_2.
Qed.

(** A root above no target keeps its hash. *)
Lemma root_plabel p : p ∈ RootPositions n f →
  (if decide (p ∈ tops n f ts) then plabel s f ts p else L p) = ohash (pruned s f ts p).
Proof.
  intros Hp. destruct (decide (p ∈ tops n f ts)) as [|Hnot]; [done|].
  apply (RootPositions_elem s f Hfit) in Hp as [Hin Hroot]. unfold label.
  destruct (node s f p) as [t|] eqn:Ht.
  - rewrite (pruned_keep s f Hfit ts p t); try done. intros Hon. apply Hnot.
    apply (tops_elem s f Hfit). auto.
  - unfold pruned. by rewrite Ht.
Qed.

(** Deleting through matched roots is deleting from the forest. *)
Lemma del_matched hs extra idxs :
  Verify st hs (mkProof ts (map L (sibs tr) ++ extra)) = Ok idxs →
  Forall2 (λ j p, RootPositions n f !! j = Some p) idxs (tops n f ts) →
  del_roots st hs (mkProof ts (map L (sibs tr) ++ extra))
  = Ok (map ohash (trees (Forest.del f ts s)),
        of_pairs (merge_pairs (map (λ p, (p, plabel s f ts p)) (parents f tr))
                    (sort_pairs (map (λ t, (t, empty)) ts)))).
Proof.
  intros Hv Hidx. unfold del_roots. rewrite Hv. cbn [bind].
  rewrite (rep_leaves _ _ Hrep), calculateHashes_nil. cbn [Targets].
  erewrite calculateHashes_ok; [|apply length_replicate|apply eval_deleted]. cbn [bind].
  rewrite length_map, <- (Forall2_length _ _ _ Hidx), Nat.eqb_refl. cbn [negb].
  rewrite roots_label, (setRoots_map L (plabel s f ts)) by (done || apply RootPositions_nodup, Hfit).
  rewrite trees_del by done. f_equal. f_equal; [|f_equal; f_equal].
  - rewrite map_map. apply map_ext_in. intros p Hp%list_elem_of_In. by apply root_plabel.
  - clear. induction (parents f tr); simpl; congruence.
  - clear. f_equal. induction ts; simpl; congruence.
Qed.
End Targets.
End Ops.
