(* ===== verification/ForestLeaves.v ===== *)
(** * The leaves of a forest and their positions

    Deleting leaf positions removes exactly the leaves at these positions. *)

From S2P Require Import Prelude Utils PosTheory HashPos Walk.
From S2P Require Import Forest CalcTheory EvalTheory Stump StumpTheory StumpVerify.

(** The leaves of the subtree [t] of row [r] and offset [o] with their positions. *)
Fixpoint pleaves (f r o : Z) (t : tree) : list (Z * Hash) :=
  match t with
  | Lf h => [(npos f r o, h)]
  | Nd a b => pleaves f (r - 1) (2 * o) a ++ pleaves f (r - 1) (2 * o + 1) b
  end.

Definition pleaves_at (s : forest) (f p : Z) : list (Z * Hash) :=
  match node s f p with
  | Some t => pleaves f (rowOf f p) (offOf f p) t
  | None => []
  end.

Definition forest_pleaves (s : forest) (f : Z) : list (Z * Hash) :=
  mjoin (pleaves_at s f <$> RootPositions (nl s) f).

Lemma pleaves_snd f r o t : map snd (pleaves f r o t) = leaves t.
Proof.
  revert r o. induction t as [h|a IHa b IHb]; intros r o; simpl; [done|].
  by rewrite map_app, IHa, IHb.
Qed.

(** Where these positions are. *)
Lemma pleaves_pos f r o t p h : height t ≤ r → (p, h) ∈ pleaves f r o t →
  ∃ k o', 0 ≤ k ≤ r ∧ o' / 2 ^ k = o ∧ p = npos f (r - k) o'.
Proof.
  revert r o. induction t as [x|a IHa b IHb]; intros r o Hh Hin; simpl in *.
  - apply list_elem_of_singleton in Hin as [= -> ->]. exists 0, o.
    rewrite Z.pow_0_r, Z.div_1_r, Z.sub_0_r. split; [lia|done].
  - pose proof (height_nonneg a). pose proof (height_nonneg b).
    assert (∀ c k o', 0 ≤ c ≤ 1 → 0 ≤ k → o' / 2 ^ k = 2 * o + c → o' / 2 ^ (k + 1) = o) as Hc.
    { intros c k o' ? ? Ho. rewrite div_pow2_succ, Ho by lia. symmetry.
      apply (Z.div_unique _ _ _ c); lia. }
    apply elem_of_app in Hin as [Hin|Hin].
    + apply IHa in Hin as (k & o' & ? & Ho & ->); [|lia]. exists (k + 1), o'.
      split; [lia|]. split; [apply (Hc 0); lia|]. f_equal. lia.
    + apply IHb in Hin as (k & o' & ? & Ho & ->); [|lia]. exists (k + 1), o'.
      split; [lia|]. split; [apply (Hc 1); lia|]. f_equal. lia.
Qed.

Section Leaves.
Context (s : forest) (f : Z) (Hfit : fits (nl s) f) (Hwf : wf s).
Notation n := (nl s).

Lemma below_valid r o k o' : in_forest n r o → 0 ≤ k ≤ r → o' / 2 ^ k = o →
  in_forest n (r - k) o' ∧ valid f (r - k) o'.
Proof.
  intros Hin Hk Ho. assert (in_forest n (r - k) o') as Hin'; [|split; [done|by apply (in_forest_valid n)]].
  apply (in_forest_desc n _ _ k); try lia.
  - destruct Hin as (_ & ? & _). pose proof (pow2_pos k).
    destruct (Z.lt_ge_cases o' 0); [|done]. pose proof (Z.div_lt_upper_bound o' (2 ^ k) 0). lia.
  - rewrite Ho. by replace (r - k + k) with r by lia.
Qed.

(** The children of an inner node. *)
Lemma node_children r o a b : in_forest n r o → height (Nd a b) ≤ r →
  node s f (npos f r o) = Some (Nd a b) →
  (in_forest n (r - 1) (2 * o) ∧ node s f (npos f (r - 1) (2 * o)) = Some a) ∧
  (in_forest n (r - 1) (2 * o + 1) ∧ node s f (npos f (r - 1) (2 * o + 1)) = Some b).
Proof.
  intros Hin Hh Hn. simpl in Hh. pose proof (height_nonneg a). pose proof (height_nonneg b).
  assert (∀ c, 0 ≤ c ≤ 1 → in_forest n (r - 1) (2 * o + c) ∧
    node s f (npos f (r - 1) (2 * o + c)) = child (Z.odd (2 * o + c)) (Nd a b)) as Hc.
  { intros c Hc. assert ((2 * o + c) / 2 = o) as Ho by (symmetry; apply (Z.div_unique _ _ _ c); lia).
    destruct (below_valid r o 1 (2 * o + c)) as [Hin' Hv']; [done|lia|done|]. split; [done|].
    assert (is_root n (r - 1) (2 * o + c) = false) as Hroot.
    { apply not_true_is_false. intros Hroot. apply (root_parent_out n (r - 1) (2 * o + c)); [lia|done|].
      rewrite Ho. by replace (r - 1 + 1) with r by lia. }
    assert (inF n f (npos f (r - 1) (2 * o + c))) as HF by (by eexists _, _).
    rewrite node_child; [|done|done|by rewrite root_at_npos].
    rewrite parent_npos, Ho by done. replace (r - 1 + 1) with r by lia. rewrite Hn. simpl.
    assert (r - 1 < f) by (destruct Hv' as (? & ? & ?);
      pose proof (in_forest_valid n f r o Hfit Hin) as (? & _ & _); lia).
    by rewrite <- !Z.negb_even, npos_even. }
  destruct (Hc 0) as [Hl Hl']; [lia|]. destruct (Hc 1) as [Hr Hr']; [lia|].
  rewrite Z.add_0_r in Hl, Hl'. rewrite Hl', Hr'. simpl.
  rewrite !Z.odd_add, !Z.odd_mul. simpl. done.
Qed.

Lemma pleaves_leaf r o t p h : in_forest n r o → height t ≤ r → node s f (npos f r o) = Some t →
  (p, h) ∈ pleaves f r o t → leaf_at s f p h.
Proof.
  revert r o. induction t as [x|a IHa b IHb]; intros r o Hin Hh Hn Hp; cbn [pleaves] in Hp.
  - apply list_elem_of_singleton in Hp as [= -> ->]. split; [by eexists _, _|done].
  - destruct (node_children r o a b) as [[? ?] [? ?]]; try done. simpl in Hh.
    apply elem_of_app in Hp as [Hp|Hp]; [eapply IHa|eapply IHb]; try exact Hp; try done; lia.
Qed.

(** Deleting leaf positions only filters the leaves. *)
Lemma prune_filter D r o t : (∀ d, d ∈ D → ∃ h, node s f d = Some (Lf h)) →
  in_forest n r o → height t ≤ r → node s f (npos f r o) = Some t →
  oleaves (prune f D r o t) = map snd (filter (λ x, x.1 ∉ D) (pleaves f r o t)).
Proof.
  intros HD. revert r o. induction t as [x|a IHa b IHb]; intros r o Hin Hh Hn; cbn [prune pleaves].
  - rewrite filter_cons. simpl. destruct (decide (npos f r o ∈ D)) as [Hd|Hd].
    + rewrite decide_False by (intros Hn'; done). done.
    + by rewrite decide_True.
  - destruct (node_children r o a b) as [[? ?] [? ?]]; try done. simpl in Hh.
    rewrite decide_False; [|intros Hd; destruct (HD _ Hd); congruence].
    rewrite oleaves_join, filter_app, map_app, IHa, IHb by (done || lia). done.
Qed.

Lemma pleaves_nodup r o t : in_forest n r o → height t ≤ r → NoDup (map fst (pleaves f r o t)).
Proof.
  revert r o. induction t as [x|a IHa b IHb]; intros r o Hin Hh; cbn [pleaves map].
  - simpl. apply NoDup_singleton.
  - simpl in Hh. pose proof (height_nonneg a). pose proof (height_nonneg b).
    destruct (below_valid r o 1 (2 * o)) as [Hl _]; [done|lia|symmetry; apply (Z.div_unique _ _ _ 0); lia|].
    destruct (below_valid r o 1 (2 * o + 1)) as [Hr _]; [done|lia|symmetry; apply (Z.div_unique _ _ _ 1); lia|].
    rewrite map_app. apply NoDup_app. split; [apply IHa; done || lia|]. split; [|apply IHb; done || lia].
    intros p ([p1 h1] & -> & H1)%list_elem_of_fmap ([p2 h2] & Heq & H2)%list_elem_of_fmap. simpl in Heq.
    apply pleaves_pos in H1 as (k1 & o1 & Hk1 & Ho1 & ->); [|lia].
    apply pleaves_pos in H2 as (k2 & o2 & Hk2 & Ho2 & ->); [|lia].
    destruct (below_valid _ _ k1 o1 Hl Hk1 Ho1) as [_ Hv1].
    destruct (below_valid _ _ k2 o2 Hr Hk2 Ho2) as [_ Hv2].
    apply npos_inj in Heq as [? ->]; [|done..]. assert (k1 = k2) as -> by lia. lia.
Qed.

Lemma pleaves_at_npos r o : valid f r o →
  pleaves_at s f (npos f r o)
  = match node s f (npos f r o) with Some t => pleaves f r o t | None => [] end.
Proof. intros Hv. unfold pleaves_at. by rewrite rowOf_npos, offOf_npos. Qed.

(** The leaves below a node are leaves below its parent. *)
Lemma pleaves_up p x : inF n f p → root_at n f p = false →
  x ∈ pleaves_at s f p → x ∈ pleaves_at s f (parent p f).
Proof.
  intros Hp Hroot. destruct (node s f p) as [t|] eqn:Hn;
    [|unfold pleaves_at; rewrite Hn; by intros ?%not_elem_of_nil].
  destruct (node_family s f Hfit p t Hp Hroot Hn) as (t' & Hs & Hpar).
  destruct (inF_family n f p) as (r & o & -> & Hin & Hv & Hrf & Hr & Hpe & _ & Hvp & Hsib & Hins & He);
    try done.
  rewrite Hpe in *. rewrite !pleaves_at_npos, Hn, Hpar by done. rewrite He.
  pose proof (Zmod_even o) as Hm. pose proof (Z.div_mod o 2).
  destruct (Z.even o); cbn [pleaves]; rewrite elem_of_app; replace (r + 1 - 1) with r by lia;
    intros Hx; [left|right].
  - by replace (2 * (o / 2)) with o by lia.
  - by replace (2 * (o / 2) + 1) with o by lia.
Qed.

Lemma pleaves_forest p x : inF n f p → x ∈ pleaves_at s f p → x ∈ forest_pleaves s f.
Proof.
  remember (Z.to_nat (f + 1 - rowOf f p)) as k eqn:Hk. revert p Hk.
  induction k as [k IH] using lt_wf_ind. intros p -> Hp Hx.
  destruct (root_at n f p) eqn:Hroot.
  - unfold forest_pleaves. apply list_elem_of_join. exists (pleaves_at s f p). split; [done|].
    apply list_elem_of_fmap. exists p. split; [done|]. by apply (RootPositions_elem s f Hfit).
  - eapply (IH (Z.to_nat (f + 1 - rowOf f (parent p f)))); [|done| |by apply pleaves_up].
    + by apply (weight_parent n).
    + by destruct (sibling_props n f p) as (_ & ? & _).
Qed.

(** A leaf of the forest is listed, and only these are. *)
Lemma leaf_at_pleaves t h : leaf_at s f t h ↔ (t, h) ∈ forest_pleaves s f.
Proof.
  split.
  - intros [Hin Hn]. apply (pleaves_forest t); [done|]. unfold pleaves_at. rewrite Hn. simpl.
    destruct Hin as (r & o & -> & Hin). pose proof (in_forest_valid n f r o Hfit Hin).
    rewrite rowOf_npos, offOf_npos by done. by left.
  - intros (l & Hl & (p & -> & Hp)%list_elem_of_fmap)%list_elem_of_join.
    apply (RootPositions_elem s f Hfit) in Hp as [Hp _]. unfold pleaves_at in Hl.
    destruct (node s f p) as [u|] eqn:Hn; [|by apply not_elem_of_nil in Hl].
    destruct (node_height s f Hfit p u) as [Hh _]; try done.
    destruct Hp as (r & o & -> & Hin). pose proof (in_forest_valid n f r o Hfit Hin).
    rewrite rowOf_npos, offOf_npos in * by done. by eapply pleaves_leaf.
Qed.

(** The tree a position lies in is unique. *)
Lemma below_root_unique R1 R2 k1 k2 o1 o2 :
  is_root n R1 (o1 / 2 ^ k1) = true → is_root n R2 (o2 / 2 ^ k2) = true →
  0 ≤ k1 ≤ R1 → 0 ≤ k2 ≤ R2 → R1 - k1 = R2 - k2 → o1 = o2 → R1 = R2.
Proof.
  intros H1 H2 Hk1 Hk2 Hrow <-.
  destruct (root_row_bits n (R1 - k1) o1 R1) as (Hb1 & Hz1 & Hhi1); [lia| |].
  { split; [lia|]. by replace (R1 - (R1 - k1)) with k1 by lia. }
  destruct (root_row_bits n (R1 - k1) o1 R2) as (Hb2 & Hz2 & Hhi2); [lia| |].
  { split; [lia|]. by replace (R2 - (R1 - k1)) with k2 by lia. }
  destruct (Z.lt_trichotomy R1 R2) as [Hlt|[?|Hlt]]; [|done|].
  - rewrite Hhi1 in Hz2 by done. congruence.
  - rewrite Hhi2 in Hz1 by done. congruence.
Qed.

Lemma forest_pleaves_nodup : NoDup (map fst (forest_pleaves s f)).
Proof.
  unfold forest_pleaves. pose proof (RootPositions_nodup n f Hfit) as Hnd.
  assert (∀ p, p ∈ RootPositions n f → inF n f p ∧ root_at n f p = true) as Hroots
    by (intros p Hp; by apply (RootPositions_elem s f Hfit)).
  assert (∀ p, inF n f p → root_at n f p = true → ∀ x, x ∈ map fst (pleaves_at s f p) →
    ∃ r k o', 0 ≤ k ≤ r ∧ is_root n r (o' / 2 ^ k) = true ∧ valid f (r - k) o' ∧
      x = npos f (r - k) o' ∧ p = npos f r (o' / 2 ^ k)) as Hpos.
  { intros p Hp Hroot x ([x' h] & -> & Hx)%list_elem_of_fmap. simpl. unfold pleaves_at in Hx.
    destruct (node s f p) as [u|] eqn:Hn; [|by apply not_elem_of_nil in Hx].
    destruct (node_height s f Hfit p u) as [Hh _]; try done.
    destruct Hp as (r & o & -> & Hin). pose proof (in_forest_valid n f r o Hfit Hin).
    rewrite root_at_npos in Hroot by done.
    rewrite rowOf_npos, offOf_npos in * by done.
    apply pleaves_pos in Hx as (k & o' & Hk & Ho & ->); [|done]. exists r, k, o'. rewrite Ho.
    destruct (below_valid r o k o') as [_ ?]; try done. }
  induction (RootPositions n f) as [|p l IH]; simpl; [constructor|].
  apply NoDup_cons in Hnd as [Hpl Hnd]. rewrite map_app. apply NoDup_app. split.
  - destruct (Hroots p ltac:(by left)) as [Hp _]. unfold pleaves_at.
    destruct (node s f p) as [u|] eqn:Hn; [|constructor].
    destruct (node_height s f Hfit p u) as [Hh _]; try done.
    destruct Hp as (r & o & -> & Hin). pose proof (in_forest_valid n f r o Hfit Hin).
    rewrite rowOf_npos, offOf_npos in * by done. by apply pleaves_nodup.
  - split; [|apply IH; [done|intros; apply Hroots; by right]].
    intros x Hx Hy. apply list_elem_of_fmap in Hy as (y & -> & Hy).
    apply list_elem_of_join in Hy as (l' & Hy & (p' & -> & Hp')%list_elem_of_fmap).
    destruct (Hroots p ltac:(by left)) as [Hp Hrp]. destruct (Hroots p' ltac:(by right)) as [Hp2 Hrp2].
    destruct (Hpos p Hp Hrp _ Hx) as (r1 & k1 & o1 & ? & Hr1 & Hv1 & E1 & ->).
    destruct (Hpos p' Hp2 Hrp2 y.1) as (r2 & k2 & o2 & ? & Hr2 & Hv2 & E2 & ->);
      [apply list_elem_of_fmap; by exists y|].
    rewrite E1 in E2. apply npos_inj in E2 as [Hrow ->]; [|done..].
    assert (r1 = r2) as -> by (by eapply below_root_unique).
    assert (k1 = k2) as -> by lia. done.
Qed.
End Leaves.

Lemma forest_leaves_pleaves s f : fits (nl s) f → forest_leaves s = map snd (forest_pleaves s f).
Proof.
  intros Hfit. unfold forest_leaves, forest_pleaves.
  rewrite <- (RootPositions_trees s f Hfit). induction (RootPositions (nl s) f) as [|p l IH]; [done|].
  simpl. rewrite map_app. f_equal; [|apply IH]. unfold pleaves_at.
  destruct (node s f p); [by rewrite pleaves_snd|done].
Qed.

(** Deleting leaves removes them from the leaves, and nothing else. *)
Lemma del_leaves s ts hs : wf s → nl s ≤ 2 ^ 63 → let f := treeRows (nl s) in
  NoDup ts → Forall2 (leaf_at s f) ts hs →
  forest_leaves s ≡ₚ hs ++ forest_leaves (Forest.del f ts s).
Proof.
  intros Hwf Hmax f Hnd Hall. assert (fits (nl s) f) as Hfit by (by apply Hfit).
  assert (forest_leaves (Forest.del f ts s)
    = map snd (filter (λ x, x.1 ∉ ts) (forest_pleaves s f))) as ->.
  { unfold forest_leaves, forest_pleaves. unfold f. rewrite trees_del by done. fold f.
    assert (∀ p, p ∈ RootPositions (nl s) f → inF (nl s) f p) as Hin
      by (intros p Hp; by apply (RootPositions_elem s f Hfit)).
    induction (RootPositions (nl s) f) as [|p l IH]; [done|]. simpl.
    rewrite filter_app, map_app. f_equal; [|apply IH; intros; apply Hin; by right].
    specialize (Hin p ltac:(by left)). unfold pruned, pleaves_at.
    destruct (node s f p) as [u|] eqn:Hn; [|done]. simpl.
    destruct (node_height s f Hfit p u) as [Hh _]; try done.
    destruct Hin as (r & o & -> & Hin). pose proof (in_forest_valid (nl s) f r o Hfit Hin).
    rewrite rowOf_npos, offOf_npos in * by done. apply (prune_filter s f Hfit); try done.
    intros d (i & Hi)%list_elem_of_lookup.
    destruct (Forall2_lookup_l _ _ _ _ _ Hall Hi) as (h & _ & _ & ?). eauto. }
  rewrite (forest_leaves_pleaves s f Hfit).
  rewrite <- (filter_app_complement (λ x : Z * Hash, x.1 ∉ ts) (forest_pleaves s f)) at 1.
  rewrite map_app, Permutation_app_comm. apply Permutation_app_tail.
  assert (hs = map snd (zip ts hs)) as Hhs.
  { symmetry. apply (snd_zip ts hs). by rewrite (Forall2_length _ _ _ Hall). }
  rewrite Hhs at 1. apply Permutation_map.
  pose proof (forest_pleaves_nodup s f Hfit Hwf) as Hnd'. apply NoDup_fmap_1 in Hnd'.
  apply NoDup_Permutation.
  - by apply NoDup_filter.
  - apply (NoDup_fmap_1 fst). change (fst <$> zip ts hs) with (map fst (zip ts hs)).
    by rewrite map_fst_zip by (symmetry; by eapply Forall2_length).
  - intros [t h]. rewrite list_elem_of_filter, <- (leaf_at_pleaves s f Hfit Hwf). simpl. split.
    + intros [Hin Hl]. apply dec_stable in Hin. apply list_elem_of_lookup in Hin as (i & Hi).
      destruct (Forall2_lookup_l _ _ _ _ _ Hall Hi) as (h' & Hh' & Hl').
      apply list_elem_of_lookup. exists i. apply lookup_zip_Some. split; [done|].
      destruct Hl as [_ Hl], Hl' as [_ Hl']. congruence.
    + intros (i & Hi)%list_elem_of_lookup. apply lookup_zip_Some in Hi as [Ht Hh].
      destruct (Forall2_lookup_lr _ _ _ _ _ _ Hall Ht Hh). split; [|done].
      intros Hn. apply Hn. by eapply list_elem_of_lookup_2.
Qed.
