(* ===== verification/StumpSpec.v ===== *)
(** * The stump as an implementation of the forest

    Whole updates and runs of updates, on top of [StumpTheory] and [StumpVerify]. *)

From S2P Require Import Prelude Utils PosTheory HashPos HashPosTheory Traverse Calc Walk.
From S2P Require Import CalcTheory Forest EvalTheory Stump StumpTheory StumpVerify.

Lemma height_join a b k : (∀ t, a = Some t → height t ≤ k - 1) → (∀ t, b = Some t → height t ≤ k - 1) →
  ∀ t, join a b = Some t → height t ≤ k.
Proof.
  intros Ha Hb t Ht. destruct a as [x|], b as [y|]; simplify_eq/=.
  - pose proof (Ha x eq_refl). pose proof (Hb y eq_refl). lia.
  - pose proof (Ha t eq_refl). lia.
  - pose proof (Hb t eq_refl). lia.
Qed.

Lemma prune_height f D r o t t' : prune f D r o t = Some t' → height t' ≤ height t.
Proof.
  revert r o t'. induction t as [h|a IHa b IHb]; intros r o t'; cbn [prune];
    (destruct (decide _); [done|]); [by intros [= <-]|].
  apply height_join; intros u Hu; cbn [height]; [apply IHa in Hu|apply IHb in Hu]; lia.
Qed.

Lemma wf_del f D s : wf s → wf (Forest.del f D s).
Proof.
  intros Hwf i t. unfold Forest.del. rewrite list_lookup_imap.
  destruct (s !! i) as [[[u|]|]|] eqn:Hi; simpl; try done. intros [= Ht].
  destruct (Hwf i u Hi) as [Hh Hl]. split; [apply prune_height in Ht; lia|].
  intros Hin. apply Hl. pose proof (prune_leaves f D (Z.of_nat i) (2 * (nl s / 2 ^ (Z.of_nat i + 1))) u) as Hs.
  rewrite Ht in Hs. by apply (sublist_subseteq _ _ Hs).
Qed.

(** No two trees of the forest have the same root hash. *)
Definition distinct_roots `{HashFn} (s : forest) : Prop :=
  NoDup (filter (λ c, c ≠ empty) (map ohash (trees s))).

Lemma nodup_filter_lookup {A} (P : A → Prop) `{∀ x, Decision (P x)} (l : list A) i j c :
  NoDup (filter P l) → P c → l !! i = Some c → l !! j = Some c → i = j.
Proof.
  revert i j. induction l as [|x l IH]; intros i j Hnd Hc Hi Hj; [done|].
  assert (NoDup (filter P l)) as Hnd'.
  { rewrite filter_cons in Hnd. destruct (decide (P x)); [by apply NoDup_cons in Hnd as [_ ?]|done]. }
  assert (∀ k, x = c → l !! k = Some c → False) as Hno.
  { intros k -> Hk. rewrite filter_cons, decide_True in Hnd by done.
    apply NoDup_cons in Hnd as [Hnot _]. apply Hnot. apply list_elem_of_filter.
    split; [done|]. by eapply list_elem_of_lookup_2. }
  destruct i as [|i], j as [|j]; simpl in Hi, Hj; simplify_eq; try done.
  - exfalso. by eapply Hno.
  - exfalso. by eapply Hno.
  - f_equal. by eapply IH.
Qed.

(** The proof that a prover with the whole forest gives for the targets. *)
Definition prover_proof `{HashFn} (s : forest) (ts : list Z) (prf : list Hash) : Prop :=
  let f := treeRows (nl s) in
  ∃ pp cp, proofPositions (copySortedFunc ts) (nl s) f = Ok (pp, cp) ∧ prf = map (label s f) pp.

(** One block: delete the targets, then add the leaves. *)
Definition apply_block (s : forest) (ts : list Z) (adds : list Hash) : forest :=
  add_leaves (Forest.del (treeRows (nl s)) ts s) adds.

Section Spec.
Context `{HashLaws} (s : forest) (st : Stump).
Context (Hwf : wf s) (Hrep : represents s st) (Hmax : nl s ≤ 2 ^ 63).
Notation n := (nl s).
Notation f := (treeRows (nl s)).

Lemma distinct_roots_stump : distinct_roots s →
  ∀ i j c, c ≠ empty → Roots st !! i = Some c → Roots st !! j = Some c → i = j.
Proof.
  intros Hd i j c Hc. rewrite (rep_roots _ _ Hrep). intros Hi Hj.
  by eapply (nodup_filter_lookup (λ c, c ≠ empty)).
Qed.

Lemma targets_walk ts : targets_ok s f ts →
  ∃ tr, walk n f (copySortedFunc ts) tr ∧ (length tr ≤ weight f (copySortedFunc ts))%nat ∧
    proofPositions (copySortedFunc ts) n f = Ok (sibs tr, parents f tr).
Proof.
  intros Hts. pose proof (targets_pending s f ts Hts) as Hpd.
  pose proof (Hfit s Hmax) as Hfit. destruct (walk_exists n f _ Hfit Hpd) as (tr & Hw & Hlen).
  exists tr. split; [done|]. split; [done|].
  destruct (proofPositions_walk n f _ Hfit Hpd) as (tr' & Hw' & _ & ->).
  by rewrite (walk_det n f _ tr tr' Hw Hw').
Qed.

Lemma leaf_labels ts hs : Forall2 (leaf_at s f) ts hs → hs = map (label s f) ts.
Proof.
  induction 1 as [|t h ts hs [_ Ht] _ IH]; simpl; [done|].
  f_equal; [unfold label; by rewrite Ht|done].
Qed.

(** [del] on a proof that was matched with the right roots. *)
Lemma del_sound ts hs prf idxs : targets_ok s f ts →
  Verify st hs (mkProof ts prf) = Ok idxs →
  Forall2 (λ j p, RootPositions n f !! j = Some p) idxs (tops n f ts) →
  empty ∉ hs → empty ∉ prf →
  (∃ st1 inter, del st hs (mkProof ts prf) = (st1, Ok inter) ∧
     represents (Forest.del f ts s) st1 ∧ length inter.1 = length inter.2) ∨
  ∃ tr, walk n f (copySortedFunc ts) tr ∧
    hash_break s (eval_inputs f tr (assoc (zip ts hs)) prf).
Proof.
  intros Hts Hv Hidx Hne Hnep. destruct (targets_walk ts Hts) as (tr & Hw & Hlen & _).
  destruct (Verify_sound s st Hrep Hmax ts Hts tr Hw Hlen hs prf idxs)
    as [[-> (extra & ->)]|Hb]; try done; [left|right; by exists tr].
  unfold del. rewrite (del_matched s st Hwf Hrep Hmax ts Hts tr Hw Hlen _ extra idxs) by done.
  eexists _, _. split; [done|]. split; [split; cbn [NumLeaves Roots]; [|done]|].
  - rewrite nl_del. apply Hrep.
  - simpl. by rewrite !length_map.
Qed.

Lemma del_honest ts hs prf : targets_ok s f ts → hs = map (label s f) ts → prover_proof s ts prf →
  distinct_roots s →
  ∃ st1 inter, del st hs (mkProof ts prf) = (st1, Ok inter) ∧
    represents (Forest.del f ts s) st1.
Proof.
  intros Hts -> (pp & cp & Hpp & ->) Hd. destruct (targets_walk ts Hts) as (tr & Hw & Hlen & Hp).
  rewrite Hp in Hpp. injection Hpp as <- <-.
  destruct (Verify_honest_exact s st Hwf Hrep Hmax ts Hts tr Hw Hlen [])
    as (idxs & Hv & Hidx); [by apply distinct_roots_stump|].
  rewrite <- (app_nil_r (map (label s f) (sibs tr))).
  unfold del. rewrite (del_matched s st Hwf Hrep Hmax ts Hts tr Hw Hlen _ [] idxs) by done.
  eexists _, _. split; [done|]. split; cbn [NumLeaves Roots]; [|done]. rewrite nl_del. apply Hrep.
Qed.

(** The proof of a prover is accepted. *)
Lemma Verify_prover ts hs prf : NoDup ts → Forall2 (leaf_at s f) ts hs → prover_proof s ts prf →
  ∃ idxs, Verify st hs (mkProof ts prf) = Ok idxs ∧ length idxs = length (tops n f ts).
Proof.
  intros Hnd Hl (pp & cp & Hpp & ->).
  pose proof (leaves_ok s _ ts hs (Hfit s Hmax) Hnd Hl) as Hts. rewrite (leaf_labels ts hs Hl).
  destruct (targets_walk ts Hts) as (tr & Hw & Hlen & Hp). rewrite Hp in Hpp.
  injection Hpp as <- <-. rewrite <- (app_nil_r (map _ (sibs tr))).
  by apply (Verify_honest s st Hwf Hrep Hmax ts Hts tr Hw Hlen).
Qed.

(** An update from an accepted deletion. *)
Lemma Update_del ts hs prf adds st1 inter : empty ∉ adds →
  n + Z.of_nat (length adds) ≤ 2 ^ 63 →
  del st hs (mkProof ts prf) = (st1, Ok inter) → represents (Forest.del f ts s) st1 →
  ∃ st' ud, Update st hs adds (mkProof ts prf) = (st', Ok ud) ∧
    represents (apply_block s ts adds) st' ∧ PrevNumLeaves ud = n ∧
    ToDestroy ud = doomed (treeRows (n + Z.of_nat (length adds))) n (Z.of_nat (length adds)) 0
                     (Forest.del f ts s).
Proof.
  intros Hne Hlen Hd Hr. unfold Update. rewrite Hd. destruct inter as [dh dp].
  destruct (add_spec (Forest.del f ts s) st1 adds) as (st' & ah & ap & He & Hrep' & _);
    [by apply wf_del|done|done|by rewrite nl_del|].
  rewrite He, nl_del. eexists _, _. split; [done|]. split; [done|]. simpl.
  split; [|done]. rewrite (rep_leaves _ _ Hr). apply nl_del.
Qed.
End Spec.

(** [add] and [rootsToDestory] report no error. *)
Definition no_err {A} (m : res A) : Prop := ∀ e, m ≠ Err e.

Lemma bind_no_err {A B} (m : res A) (k : A → res B) :
  no_err m → (∀ a, no_err (k a)) → no_err (bind m k).
Proof. intros Hm Hk e. destruct m as [a|e0| |]; simpl; try done; [apply Hk|by destruct (Hm e0)]. Qed.

Create HintDb noerr discriminated.
#[export] Hint Resolve bind_no_err : noerr.
#[export] Hint Extern 1 (no_err _) => (intros ?; done) : noerr.

Lemma popLast_no_err roots : no_err (popLast roots).
Proof. unfold popLast. destruct (last roots); auto with noerr. Qed.

Lemma index_no_err {A} (l : list A) i : no_err (index l i).
Proof. unfold index. destruct (l !! i); auto with noerr. Qed.

Lemma sliceFrom_no_err {A} (l : list A) i : no_err (sliceFrom l i).
Proof. unfold sliceFrom. destruct (_ <=? _)%nat; auto with noerr. Qed.

#[export] Hint Resolve popLast_no_err index_no_err sliceFrom_no_err : noerr.

Lemma rootsToDestory_row_no_err fuel h n f roots dl : no_err (rootsToDestory_row fuel h n f roots dl).
Proof.
  revert h roots dl. induction fuel as [|fuel IH]; intros h roots dl; cbn [rootsToDestory_row];
    [auto with noerr|]. destruct (bitSet n h); [|auto with noerr].
  apply bind_no_err; [auto with noerr|]. intros [? ?]. apply IH.
Qed.

Lemma rootsToDestory_no_err k n roots : no_err (rootsToDestory k n roots).
Proof.
  unfold rootsToDestory. generalize (@nil Z). revert n roots.
  induction k as [|k IH]; intros n roots dl; cbn [rootsToDestory_loop]; [auto with noerr|].
  apply bind_no_err; [apply rootsToDestory_row_no_err|]. intros [? ?]. apply IH.
Qed.

Lemma merge_loop_no_err room ia ib a b c : no_err (merge_loop room ia ib a b c).
Proof.
  revert ia ib c. induction room as [|room IH]; intros ia ib c; cbn [merge_loop]; [auto with noerr|].
  destruct (Len a <=? ia)%nat; [auto 6 with noerr|]. destruct (Len b <=? ib)%nat; [auto 6 with noerr|].
  apply bind_no_err; [auto with noerr|]. intros va. apply bind_no_err; [auto with noerr|]. intros vb.
  destruct (va <? vb); [|destruct (vb <? va)]; (apply bind_no_err; [auto with noerr|]); intros; apply IH.
Qed.

Lemma mergeSorted_no_err a b : no_err (mergeSortedHashAndPos a b).
Proof.
  unfold mergeSortedHashAndPos. destruct (Len a =? 0)%nat; [auto with noerr|].
  destruct (Len b =? 0)%nat; [auto with noerr|]. apply merge_loop_no_err.
Qed.

Section NoErr.
Context `{HashFn}.

Lemma add_row_no_err fuel h n f roots pos nr sub : no_err (add_row fuel h n f roots pos nr sub).
Proof.
  revert h roots pos nr sub. induction fuel as [|fuel IH]; intros h roots pos nr sub;
    cbn [add_row]; [auto with noerr|]. destruct (bitSet n h); [|auto with noerr].
  apply bind_no_err; [auto with noerr|]. intros [root roots']. destruct (decide _); apply IH.
Qed.

Lemma add_loop_no_err hs st f subs : no_err (add_loop hs st f subs).
Proof.
  revert st subs. induction hs as [|h hs IH]; intros st subs; cbn [add_loop]; [auto with noerr|].
  apply bind_no_err; [apply rootsToDestory_no_err|]. intros dl.
  apply bind_no_err; [apply add_row_no_err|]. intros [[[? ?] ?] ?]. apply IH.
Qed.

Lemma hash_subset_no_err ps hs keys c : no_err (hash_subset_loop ps hs keys c).
Proof.
  revert hs c. induction ps as [|p ps IH]; intros [|h hs] c; simpl; auto with noerr.
Qed.

Lemma mergeSubTrees_no_err subs u : no_err (mergeSubTrees subs u).
Proof.
  revert u. induction subs as [|x subs IH]; intros u; cbn [mergeSubTrees]; [auto with noerr|].
  apply bind_no_err.
  - destruct subs; [auto with noerr|]. apply bind_no_err; [apply hash_subset_no_err|auto with noerr].
  - intros [|]; [apply IH|]. apply bind_no_err; [apply mergeSorted_no_err|]. intros; apply IH.
Qed.

Lemma climb_no_err fuel p row f n : no_err (climb fuel p row f n).
Proof.
  revert row. induction fuel as [|fuel IH]; intros row; cbn [climb]; [auto with noerr|].
  destruct (_ <? _); [apply IH|auto with noerr].
Qed.

Lemma calculateHashes_loop_no_err fuel a b i j k row prf rs n f :
  no_err (calculateHashes_loop fuel a b i j k row prf rs n f).
Proof.
  revert b i j k row rs. induction fuel as [|fuel IH]; intros b i j k row rs;
    cbn [calculateHashes_loop]; [auto with noerr|].
  destruct (row <=? f); [|auto with noerr].
  destruct (getNextPos _ _ _ _) as [[p idx] sibIdx]. destruct (idx =? -1); [auto with noerr|].
  apply bind_no_err; [destruct (idx =? 0); auto with noerr|]. intros h.
  apply bind_no_err; [apply climb_no_err|]. intros row'.
  destruct (isRootPositionOnRow _ _ _); [apply IH|]. apply bind_no_err; [|intros; apply IH].
  destruct (negb _); [destruct (sibIdx =? 0)|]; auto with noerr.
Qed.

Lemma calculateHashes_no_err n hs prf : no_err (calculateHashes n hs prf).
Proof.
  unfold calculateHashes. apply bind_no_err.
  { unfold toHashAndPos, sort_hnp. destruct (sortedb _); auto with noerr. }
  intros hnp. apply bind_no_err; [apply calculateHashes_loop_no_err|]. intros [np rs].
  apply bind_no_err; [apply mergeSorted_no_err|auto with noerr].
Qed.

(** The reasons for which a deletion is rejected. *)
Lemma del_roots_err st hs prf e : del_roots st hs prf = Err e →
  (e = ErrTargetCount ∧ length hs ≠ length (Targets prf)) ∨
  (length hs = length (Targets prf) ∧ (e = ErrInvalidProof ∨ e = ErrModifiedRoots)).
Proof.
  unfold del_roots, Verify. destruct (Nat.eqb_spec (length hs) (length (Targets prf))) as [El|El];
    cbn [negb bind]; [|intros [= <-]; by left]. intros He. right. split; [done|].
  pose proof (calculateHashes_no_err (NumLeaves st) (Some hs) prf) as H1.
  pose proof (calculateHashes_no_err (NumLeaves st) None prf) as H2.
  destruct (calculateHashes (NumLeaves st) (Some hs) prf) as [[? rs]|e1| |]; cbn [bind] in He; try done;
    [|by destruct (H1 e1)].
  destruct (negb _); cbn [bind] in He; [left; congruence|].
  destruct (calculateHashes (NumLeaves st) None prf) as [[? ms]|e2| |]; cbn [bind] in He; try done;
    [|by destruct (H2 e2)].
  destruct (negb _); [right; congruence|done].
Qed.

Lemma add_no_err st hs : no_err (add st hs).
Proof.
  unfold add. apply bind_no_err; [apply rootsToDestory_no_err|]. intros dl.
  apply bind_no_err; [apply add_loop_no_err|]. intros [? ?].
  apply bind_no_err; [apply mergeSubTrees_no_err|]. auto with noerr.
Qed.
End NoErr.

(** ** Runs of updates *)

(** Targets, their hashes, the proof hashes, the leaves to add. *)
Notation block := (list Z * list Hash * list Hash * list Hash)%type.

Section Run.
Context `{HashFn}.

(** Updates one after the other, stopping at the first that does not succeed. *)
Fixpoint run_stump (st : Stump) (blocks : list block) : res Stump :=
  match blocks with
  | [] => Ok st
  | (ts, hs, prf, adds) :: blocks =>
      match Update st hs adds (mkProof ts prf) with
      | (st', Ok _) => run_stump st' blocks
      | (_, Err e) => Err e
      | (_, Panic) => Panic
      | (_, Spin) => Spin
      end
  end.

(** A block whose targets are leaves of the forest, with the prover's proof. *)
Record honest_block (s : forest) (ts : list Z) (hs prf adds : list Hash) : Prop := {
  hb_max : nl s + Z.of_nat (length adds) ≤ 2 ^ 63;
  hb_nodup : NoDup ts;
  hb_leaves : Forall2 (leaf_at s (treeRows (nl s))) ts hs;
  hb_proof : prover_proof s ts prf;
  hb_roots : distinct_roots s;
  hb_adds : empty ∉ adds;
}.

Inductive honest_run : forest → list block → forest → Prop :=
| run_nil s : honest_run s [] s
| run_cons s ts hs prf adds blocks s' :
    honest_block s ts hs prf adds → honest_run (apply_block s ts adds) blocks s' →
    honest_run s ((ts, hs, prf, adds) :: blocks) s'.
End Run.
