(* ===== verification/Moves.v ===== *)
(** * Positions that move when a node is deleted

    Deleting the node at a position lets its sibling subtree move up one row.  [mv] is
    the move of one position, [prv] its inverse; the subtree that a forest has at the
    new position is what the deletion leaves of the old one. *)

From S2P Require Import Prelude Utils PosTheory HashPos Traverse Calc Walk.
From S2P Require Import DeTwinTheory CalcTheory Forest EvalTheory Stump StumpTheory StumpVerify StumpSpec.

(** [x] is [q] or below it. *)
Definition under (f q x : Z) : Prop := x = q ∨ isAncestor q x f = true.

#[global] Instance under_dec f q x : Decision (under f q x).
Proof. unfold under. apply _. Defined.

Lemma under_npos f r o R O : valid f r o → valid f R O →
  under f (npos f R O) (npos f r o) ↔ r ≤ R ∧ O = o / 2 ^ (R - r).
Proof.
  intros Hv HvR. unfold under. rewrite isAncestor_npos, andb_true_iff, Z.ltb_lt, Z.eqb_eq by done. split.
  - intros [Heq|[? ?]]; [|split; [lia|done]]. apply npos_inj in Heq as [<- <-]; [|done..].
    by rewrite Z.sub_diag, Z.pow_0_r, Z.div_1_r.
  - intros [? ->]. destruct (Z.eq_dec R r) as [->|].
    + left. by rewrite Z.sub_diag, Z.pow_0_r, Z.div_1_r.
    + right. split; [lia|done].
Qed.

Lemma under_refl f q : under f q q.
Proof. by left. Qed.

(** The new position of [x] when [d] is deleted, and the old position of [y]. *)
Definition mv (f d x : Z) : Z :=
  if decide (isAncestor (parent d f) x f = true) then or_zero 0 (calcNextPosition x d f) else x.
Definition prv (f d y : Z) : Z :=
  if decide (under f (parent d f) y) then calcPrevPosition y d f else y.

(** Dropping a bit above the last one keeps the last one. *)
Lemma rm_succ j o : 0 ≤ j → rm (j + 1) o = 2 * rm j (o / 2) + o mod 2.
Proof.
  intros Hj. unfold rm. pose proof (pow2_pos j Hj).
  assert (o / 2 / 2 ^ (j + 1) = o / 2 ^ (j + 1 + 1)) as ->.
  { change (o / 2) with (o / 2 ^ 1). rewrite div_div_pow2 by lia. do 2 f_equal. lia. }
  assert (o mod 2 ^ (j + 1) = 2 * ((o / 2) mod 2 ^ j) + o mod 2) as ->.
  { rewrite (Z.mod_eq o (2 ^ (j + 1))), (Z.mod_eq (o / 2) (2 ^ j)), pow2_succ by lia.
    rewrite <- Z.div_div by lia. pose proof (Z.div_mod o 2). lia. }
  rewrite (pow2_succ j) by lia. lia.
Qed.

Lemma half_double a b : 0 ≤ b < 2 → (2 * a + b) / 2 = a.
Proof. intros. symmetry. apply (Z.div_unique _ _ _ b); lia. Qed.

Lemma rm_div i k o : 0 ≤ i ≤ k → rm k o / 2 ^ i = rm (k - i) (o / 2 ^ i).
Proof.
  intros [Hi Hk]. revert i Hi k o Hk. apply (natlike_ind (λ i, ∀ k o, i ≤ k → rm k o / 2 ^ i = rm (k - i) (o / 2 ^ i))).
  - intros k o _. by rewrite !Z.div_1_r, Z.sub_0_r.
  - intros i Hi IH k o Hk. replace (Z.succ i) with (1 + i) in * by lia.
    rewrite <- (div_div_pow2 (rm k o) 1 i), <- (div_div_pow2 o 1 i) by lia.
    replace k with (k - 1 + 1) at 1 by lia. change (2 ^ 1) with 2. rewrite rm_succ by lia.
    rewrite half_double by (apply Z.mod_pos_bound; lia). rewrite IH by lia. f_equal. lia.
Qed.

(** [rm] loses only the bit that it drops. *)
Lemma rm_inj k o o' : 0 ≤ k → o / 2 ^ k = o' / 2 ^ k → rm k o = rm k o' → o = o'.
Proof.
  intros Hk Hq Hr. rewrite <- (ins_rm k o), <- (ins_rm k o') by done. rewrite Hr. f_equal.
  by rewrite !testbit_div, Hq by done.
Qed.

Section Moves.
Context (n f : Z) (Hfit : fits n f).

Lemma under_trans x y z : inF n f x → inF n f y → inF n f z → under f x y → under f y z → under f x z.
Proof. intros Hx Hy Hz [->|H1] [->|H2]; unfold under; auto. right. by apply (anc_trans n f x y z). Qed.

(** Two positions above the same one are comparable. *)
Lemma under_comparable x y z : inF n f x → inF n f y → inF n f z → under f x z → under f y z →
  rowOf f x ≤ rowOf f y → under f y x.
Proof.
  intros (rx & ox & -> & Hx) (ry & oy & -> & Hy) (rz & oz & -> & Hz).
  pose proof (in_forest_valid n f _ _ Hfit Hx). pose proof (in_forest_valid n f _ _ Hfit Hy).
  pose proof (in_forest_valid n f _ _ Hfit Hz). rewrite !under_npos, !rowOf_npos by done.
  intros [? ->] [? ->] ?. split; [done|]. pose proof (proj1 Hz).
  rewrite div_div_pow2 by lia. do 2 f_equal. lia.
Qed.

Lemma under_row x y : inF n f x → inF n f y → under f x y → rowOf f y ≤ rowOf f x.
Proof. intros Hx Hy [->|Hanc]; [done|]. apply (anc_lt n) in Hanc; [lia|done..]. Qed.

Lemma under_antisym x y : inF n f x → inF n f y → under f x y → under f y x → x = y.
Proof.
  intros Hx Hy [->|H1] [?|H2]; try done. apply (anc_lt n) in H1, H2; try done. lia.
Qed.

Lemma under_parent x p : inF n f x → inF n f p → root_at n f p = false → x ≠ p →
  under f x p ↔ under f x (parent p f).
Proof.
  intros Hx Hp Hroot Hne. unfold under. rewrite (anc_parent n f x p) by done.
  split; [intros [?|[?|?]]; [by subst|by left|by right]|intros [?|?]; auto].
Qed.

Section Deleted.
Context (d : Z) (Hd : inF n f d) (Hroot : root_at n f d = false).
Notation P := (parent d f).
Notation S := (sibling d).

(** Below the parent: the parent itself, below [d], or below the sibling of [d]. *)
Lemma under_split x : inF n f x → under f P x ↔ x = P ∨ under f d x ∨ under f S x.
Proof.
  intros Hx. destruct (sibling_props n f d) as (HS & HP & Hrow & _ & HpS); try done.
  split.
  - intros [->|Hanc]; [by left|]. right.
    assert (rowOf f x ≤ rowOf f d) as Hr.
    { apply (anc_lt n) in Hanc as [_ Hlt]; [|done..].
      destruct (inF_family n f d) as (r & o & E & _ & Hv & _ & _ & Epar & _ & Hvp & _); try done.
      rewrite Epar, rowOf_npos in Hlt by done. rewrite E, rowOf_npos by done. lia. }
    apply (covered_parent n f Hfit d x); try done. by right.
  - intros [->|[Hu|Hu]]; [apply under_refl| |].
    + apply (under_trans _ d); try done. right. apply (anc_parent n f); auto.
    + apply (under_trans _ S); try done. right. apply (anc_parent n f); try done; [|by left].
      by destruct (sibling_props n f d) as (_ & _ & _ & ? & _).
Qed.

(** The coordinates of a position below the sibling of [d] and of its image. *)
Lemma mv_coords x : inF n f x → under f S x →
  ∃ r o rd od, x = npos f r o ∧ valid f r o ∧ d = npos f rd od ∧ valid f rd od ∧ r ≤ rd < f ∧
    sibling od = o / 2 ^ (rd - r) ∧ mv f d x = npos f (r + 1) (rm (rd - r) o) ∧ valid f (r + 1) (rm (rd - r) o) ∧
    rm (rd - r) o / 2 ^ (rd - r) = od / 2 ∧ inF n f (mv f d x).
Proof.
  intros Hx Hu.
  destruct (inF_family n f d) as (rd & od & E & Hind & Hvd & Hrf & Hisr & Epar & HinP & HvP & Esib & HinS & _);
    try done.
  pose proof (in_forest_valid n f _ _ Hfit HinS) as HvS.
  destruct Hx as (r & o & -> & Hin). pose proof (in_forest_valid n f r o Hfit Hin) as Hv.
  rewrite Esib in Hu. apply under_npos in Hu as [Hr Ho]; [|done..].
  exists r, o, rd, od. pose proof Hv as (? & ? & ?).
  pose proof (valid_rm f r o (rd - r) Hv ltac:(lia)) as Hvr.
  assert (rm (rd - r) o / 2 ^ (rd - r) = od / 2) as Hrm.
  { unfold rm. pose proof (pow2_pos (rd - r)). rewrite Z.add_comm, Z.div_add by lia.
    rewrite (Z.div_small (o mod _)) by (apply Z.mod_pos_bound; lia).
    rewrite div_pow2_succ, <- Ho by lia. rewrite sibling_eq. symmetry.
    pose proof (Z.div_mod od 2). pose proof (Zmod_even od).
    destruct (Z.even od); [apply (Z.div_unique _ _ _ 1)|apply (Z.div_unique _ _ _ 0)]; lia. }
  assert (mv f d (npos f r o) = npos f (r + 1) (rm (rd - r) o)) as Hmv.
  { unfold mv. rewrite decide_True; [by rewrite E, calcNextPosition_npos by (done || lia)|].
    rewrite Epar, isAncestor_npos by done. apply andb_true_iff. split; [apply Z.ltb_lt; lia|].
    apply Z.eqb_eq. replace (rd + 1 - r) with (rd - r + 1) by lia. rewrite div_pow2_succ, <- Ho by lia.
    symmetry. change (2 ^ 1) with 2. rewrite sibling_eq. symmetry.
    pose proof (Z.div_mod od 2). pose proof (Zmod_even od).
    destruct (Z.even od); [apply (Z.div_unique _ _ _ 1)|apply (Z.div_unique _ _ _ 0)]; lia. }
  split_and!; try done. rewrite Hmv. eexists _, _. split; [done|].
  apply (in_forest_desc n _ _ (rd - r)); [lia|by destruct Hvr as (_ & _ & ? & _)|lia|].
  rewrite Hrm. by replace (r + 1 + (rd - r)) with (rd + 1) by lia.
Qed.

Lemma mv_outside x : inF n f x → ¬ under f P x → mv f d x = x.
Proof. intros Hx Hn. unfold mv. rewrite decide_False; [done|]. intros Ha. apply Hn. by right. Qed.

Lemma mv_parent : mv f d P = P.
Proof. unfold mv. rewrite decide_False; [done|]. unfold isAncestor. by rewrite Z.eqb_refl. Qed.

Lemma prv_outside y : ¬ under f P y → prv f d y = y.
Proof. intros Hn. unfold prv. by rewrite decide_False. Qed.

(** Below the sibling, [mv] goes below the parent and [prv] back. *)
Lemma mv_under x : inF n f x → under f S x → under f P (mv f d x) ∧ prv f d (mv f d x) = x.
Proof.
  intros Hx Hu.
  destruct (mv_coords x Hx Hu) as (r & o & rd & od & -> & Hv & E & Hvd & Hr & Ho & -> & Hvm & Hrm & _).
  assert (under f P (npos f (r + 1) (rm (rd - r) o))) as HuP.
  { rewrite E, parent_npos by (done || lia). apply under_npos; [done| |].
    - apply valid_parent; [done|lia].
    - split; [lia|]. rewrite <- Hrm. do 2 f_equal. lia. }
  split; [done|]. unfold prv. rewrite decide_True by done.
  destruct Hv as (? & ? & ?). rewrite E, calcPrevPosition_npos by (done || lia). f_equal.
  rewrite <- (ins_rm (rd - r) o) by lia. f_equal.
  - rewrite testbit_div, <- Ho by lia. rewrite sibling_eq, <- Z.negb_even.
    destruct (Z.even od) eqn:Ev; rewrite ?Z.even_add, ?Z.even_sub, Ev; done.
  - by rewrite ins_rm by lia.
Qed.

(** Strictly below the sibling of [d], a family moves together. *)
Lemma mv_family x : inF n f x → under f S x → x ≠ S →
  root_at n f x = false ∧ under f S (parent x f) ∧ under f S (sibling x) ∧
  root_at n f (mv f d x) = false ∧ parent (mv f d x) f = mv f d (parent x f) ∧
  sibling (mv f d x) = mv f d (sibling x) ∧ Z.odd (mv f d x) = Z.odd x.
Proof.
  intros Hx Hu Hne. destruct (sibling_props n f d) as (HS & HP & _ & HrS & HpS); try done.
  assert (root_at n f x = false) as Hrx.
  { apply not_true_is_false. intros Hr. destruct Hu as [|Hu]; [done|]. by rewrite (anc_root n f S x) in Hu. }
  assert (under f S (parent x f)) as Hup by (apply (under_parent S x); congruence || done).
  destruct (sibling_props n f x) as (Hsx & Hpx & _ & Hrsx & Hpsx); try done.
  assert (under f S (sibling x)) as Hus.
  { destruct (decide (sibling x = S)) as [->|]; [apply under_refl|]. apply (under_parent S (sibling x)); [congruence || done..|].
    by rewrite Hpsx. }
  destruct (mv_coords x Hx Hu) as (r & o & rd & od & E & Hv & Ed & Hvd & Hr & Ho & Em & Hvm & Hrm & HinM).
  destruct (mv_coords (parent x f) Hpx Hup) as (r1 & o1 & rd1 & od1 & E1 & Hv1 & Ed1 & Hvd1 & Hr1 & _ & Em1 & Hvm1 & _).
  destruct (mv_coords (sibling x) Hsx Hus) as (r2 & o2 & rd2 & od2 & E2 & Hv2 & Ed2 & Hvd2 & _ & _ & Em2 & Hvm2 & _).
  rewrite Ed in Ed1, Ed2. apply npos_inj in Ed1 as [<- <-], Ed2 as [<- <-]; [|done..].
  pose proof Hv as (? & ? & ?).
  assert (r < f) as Hrf by lia. pose proof (valid_parent f r o Hv Hrf) as Hvp.
  pose proof (valid_sibling f r o Hv Hrf) as Hvs.
  rewrite E, parent_npos in E1 by done. apply npos_inj in E1 as [<- <-]; [|done..].
  rewrite E, sibling_npos in E2 by done. apply npos_inj in E2 as [<- <-]; [|done..].
  replace (rd - r) with (rd - (r + 1) + 1) in * by lia. rewrite rm_succ in Em, Em2, Hvm, Hvm2, Hrm by lia.
  set (a := rm (rd - (r + 1)) (o / 2)) in *.
  pose proof (Z.mod_pos_bound o 2 ltac:(lia)) as Hm.
  assert (sibling o / 2 = o / 2 ∧ sibling o mod 2 = 1 - o mod 2) as [Hs1 Hs2].
  { rewrite sibling_eq. pose proof (Z.div_mod o 2). pose proof (Zmod_even o) as Hme.
    destruct (Z.even o); rewrite Hme in *.
    - split; symmetry; [apply (Z.div_unique _ _ _ 1)|apply (Z.mod_unique _ _ (o / 2))]; lia.
    - split; symmetry; [apply (Z.div_unique _ _ _ 0)|apply (Z.mod_unique _ _ (o / 2))]; lia. }
  rewrite Hs1, Hs2 in Em2. fold a in Em2. split_and!; try done.
  - apply not_true_is_false. intros Hroot'. destruct (mv_under x Hx Hu) as [[Heq|Ha] _].
    + rewrite Heq in Em. rewrite Ed, parent_npos in Em by (done || lia).
      apply npos_inj in Em as [? _]; [lia|apply valid_parent; [done|lia]|done].
    + by rewrite (anc_root n f P) in Ha.
  - rewrite Em, Em1, parent_npos by done. by rewrite half_double.
  - rewrite Em, Em2, sibling_npos by (done || lia). f_equal. rewrite sibling_eq.
    assert (Z.even (2 * a + o mod 2) = Z.even o) as ->.
    { rewrite Z.even_add, Z.even_mul. simpl. rewrite Zmod_even. by destruct (Z.even o). }
    rewrite Zmod_even. destruct (Z.even o); lia.
  - rewrite Em, E, <- !Z.negb_even. rewrite !npos_even by (done || lia).
    rewrite Z.even_add, Z.even_mul. simpl. rewrite Zmod_even. by destruct (Z.even o).
Qed.

(** Every position below the parent that is not in the lowest row is the image of one. *)
Lemma mv_onto y : inF n f y → under f P y → 1 ≤ rowOf f y → ∃ x, inF n f x ∧ under f S x ∧ y = mv f d x.
Proof.
  intros (r & o & -> & Hin) Hu Hrow. pose proof (in_forest_valid n f r o Hfit Hin) as Hv.
  rewrite rowOf_npos in Hrow by done.
  destruct (inF_family n f d) as (rd & od & E & Hind & Hvd & Hrf & _ & Epar & HinP & HvP & Esib & HinS & _);
    try done.
  pose proof (in_forest_valid n f _ _ Hfit HinS) as HvS.
  rewrite Epar in Hu. apply under_npos in Hu as [Hr Ho]; [|done..].
  set (k := rd + 1 - r) in *. set (x := ins k (Z.even od) o).
  assert (x / 2 ^ k = sibling od) as Hx.
  { unfold x, ins. pose proof (pow2_pos k ltac:(lia)). rewrite pow2_succ by lia.
    pose proof (Z.mod_pos_bound o (2 ^ k)). rewrite <- Ho, sibling_eq. symmetry.
    apply (Z.div_unique _ _ _ (o mod 2 ^ k)); [lia|].
    pose proof (Z.div_mod od 2). pose proof (Zmod_even od). destruct (Z.even od); nia. }
  destruct Hv as (? & ? & ? & ?).
  assert (in_forest n (r - 1) x) as Hinx.
  { apply (in_forest_desc n _ _ k); [lia| |lia|].
    - unfold x, ins. pose proof (pow2_pos k ltac:(lia)). pose proof (pow2_pos (k + 1) ltac:(lia)).
      pose proof (Z.mod_pos_bound o (2 ^ k)). assert (0 ≤ o / 2 ^ k) by (apply Z.div_pos; lia).
      destruct (Z.even od); nia.
    - rewrite Hx. by replace (r - 1 + k) with rd by lia. }
  pose proof (in_forest_valid n f _ _ Hfit Hinx) as Hvx.
  exists (npos f (r - 1) x). split; [by eexists _, _|].
  assert (under f S (npos f (r - 1) x)) as HuS.
  { rewrite Esib. apply under_npos; [done..|]. split; [lia|]. by replace (rd - (r - 1)) with k by lia. }
  split; [done|].
  destruct (mv_coords (npos f (r - 1) x)) as (r' & o' & rd' & od' & E' & Hv' & Ed' & Hvd' & _ & _ & -> & _);
    [by eexists _, _|done|].
  rewrite E in Ed'. apply npos_inj in Ed' as [<- <-]; [|done..].
  apply npos_inj in E' as [<- <-]; [|done..].
  replace (rd - (r - 1)) with k by lia. unfold x. rewrite rm_ins by lia. f_equal. lia.
Qed.

(** Targets that survive the deletion of [d]: not below it and not above it. *)
Definition survives (T : list Z) : Prop :=
  ∀ t, t ∈ T → inF n f t ∧ ¬ under f d t ∧ ¬ under f t d.

Lemma onpath_under T x : onpath f T x ↔ ∃ t, t ∈ T ∧ under f x t.
Proof.
  unfold onpath, under. split; intros (t & Ht & [?|?]); exists t; split; auto; by left.
Qed.

(** The family of [d] is on the path of the survivors at [P] exactly when at [S]. *)
Lemma survivors_parent T : survives T → onpath f T P ↔ onpath f T S.
Proof.
  intros HT. destruct (sibling_props n f d) as (HS & HP & _ & HrS & HpS); try done.
  rewrite !onpath_under. split; intros (t & Ht & Hu); exists t; (split; [done|]); destruct (HT t Ht) as (Hin & H1 & H2).
  - apply under_split in Hu as [->|[?|?]]; try done. exfalso. apply H2. right. apply (anc_parent n f); auto.
  - apply under_split; auto.
Qed.

(** A move keeps what is below what. *)
Lemma under_mv x t : inF n f x → under f S x → inF n f t → under f S t →
  under f (mv f d x) (mv f d t) ↔ under f x t.
Proof.
  intros Hx Hu Ht Hut.
  destruct (mv_coords x Hx Hu) as (r & o & rd & od & E & Hv & Ed & Hvd & Hr & Ho & Em & Hvm & _).
  destruct (mv_coords t Ht Hut) as (r' & o' & rd' & od' & E' & Hv' & Ed' & Hvd' & Hr' & Ho' & Em' & Hvm' & _).
  rewrite Ed in Ed'. apply npos_inj in Ed' as [<- <-]; [|done..].
  rewrite Em, Em', E, E', !under_npos by done.
  split; intros [? Heq]; (split; [lia|]); replace (r + 1 - (r' + 1)) with (r - r') in * by lia.
  - rewrite rm_div in Heq by lia. replace (rd - r' - (r - r')) with (rd - r) in Heq by lia.
    apply (rm_inj (rd - r)); [lia| |done]. rewrite <- Ho, Ho', div_div_pow2 by lia. do 2 f_equal. lia.
  - rewrite Heq, rm_div by lia. f_equal. lia.
Qed.

(** Which paths a move changes. *)
Lemma onpath_mv T x : survives T → inF n f x → under f S x →
  onpath f (map (mv f d) T) (mv f d x) ↔ onpath f T x.
Proof.
  intros HT Hx Hu. destruct (sibling_props n f d) as (HS & HP & _); try done.
  destruct (mv_under x Hx Hu) as [HuP _].
  destruct (mv_coords x Hx Hu) as (_ & _ & _ & _ & _ & _ & _ & _ & _ & _ & _ & _ & _ & Hinm).
  rewrite !onpath_under. split.
  - intros (t' & (t & -> & Ht)%list_elem_of_fmap & Hut). destruct (HT t Ht) as (Hin & H1 & H2).
    exists t. split; [done|]. destruct (decide (under f S t)) as [HuS|HuS].
    { by apply (under_mv x t). }
    exfalso. assert (t ≠ P) as HtP.
    { intros ->. apply H2. right. apply (anc_parent n f); auto. }
    assert (¬ under f P t) as HnP by (rewrite under_split by done; tauto).
    rewrite (mv_outside t) in Hut by done. apply HnP. by apply (under_trans _ (mv f d x)).
  - intros (t & Ht & Hut). destruct (HT t Ht) as (Hin & _).
    exists (mv f d t). split; [apply list_elem_of_fmap; eauto|].
    apply under_mv; try done. by apply (under_trans _ x).
Qed.

Lemma onpath_mv_outside T y : survives T → inF n f y → ¬ under f P y →
  onpath f (map (mv f d) T) y ↔ onpath f T y.
Proof.
  intros HT Hy HnP. destruct (sibling_props n f d) as (HS & HP & _ & HrS & HpS); try done.
  rewrite !onpath_under.
  assert (∀ t, inF n f t → t ∈ T → under f y (mv f d t) ↔ under f y t) as Hboth.
  { intros t Hin Ht. destruct (HT t Ht) as (_ & H1 & H2).
    destruct (decide (under f P t)) as [HuP|HuP]; [|by rewrite mv_outside].
    apply under_split in HuP as Hc; [|done]. destruct Hc as [->|[?|HuS]]; [by rewrite mv_parent|done|].
    destruct (mv_under t Hin HuS) as [HmP _].
    destruct (mv_coords t Hin HuS) as (_ & _ & _ & _ & _ & _ & _ & _ & _ & _ & _ & _ & _ & Hinm).
    assert (∀ z, inF n f z → under f P z → under f y z ↔ under f y P) as Hz; [|by rewrite (Hz t), (Hz (mv f d t)) by done].
    intros z Hz HzP. split; [|intros; by apply (under_trans _ P)]. intros Hyz.
    destruct (decide (rowOf f y ≤ rowOf f P)).
    - exfalso. apply HnP. by apply (under_comparable y P z).
    - apply (under_comparable P y z); try done. lia. }
  split.
  - intros (t' & (t & -> & Ht)%list_elem_of_fmap & Hut). exists t. split; [done|].
    apply Hboth; [by apply HT|done|done].
  - intros (t & Ht & Hut). exists (mv f d t). split; [apply list_elem_of_fmap; eauto|].
    apply Hboth; [by apply HT|done|done].
Qed.

(** A moved target below the parent comes from below the sibling. *)
Lemma mv_target T t : survives T → t ∈ T → under f P (mv f d t) →
  under f S t ∧ 1 ≤ rowOf f (mv f d t).
Proof.
  intros HT Ht HuP. destruct (HT t Ht) as (Hin & H1 & H2).
  destruct (sibling_props n f d) as (HS & HP & _ & HrS & HpS); try done.
  assert (under f S t) as Hu.
  { destruct (decide (under f P t)) as [Hu|Hu].
    - apply under_split in Hu as [->|[?|?]]; try done. exfalso. apply H2. right. apply (anc_parent n f); auto.
    - by rewrite mv_outside in HuP. }
  split; [done|].
  destruct (mv_coords t Hin Hu) as (r & o & rd & od & _ & Hv & _ & _ & _ & _ & -> & Hvm & _).
  rewrite rowOf_npos by done. destruct Hv as (? & _). lia.
Qed.

(** Strictly below [q], the sibling is below [q] as well. *)
Lemma sibling_under q y : inF n f q → inF n f y → root_at n f y = false → y ≠ q →
  under f q y → under f q (sibling y).
Proof.
  intros Hq Hy Hry Hne Hu. destruct (sibling_props n f y) as (Hsy & _ & _ & Hrsy & Hpsy); try done.
  destruct (decide (sibling y = q)) as [->|]; [apply under_refl|].
  apply (under_parent q (sibling y)); [congruence || done..|]. rewrite Hpsy.
  apply (under_parent q y); congruence || done.
Qed.

Lemma not_under_sibling y : inF n f y → root_at n f y = false → ¬ under f y (sibling y).
Proof.
  intros Hy Hry. destruct (sibling_props n f y) as (Hsy & _ & Hrow & _); try done. intros [Heq|Hanc].
  - rewrite sibling_eq in Heq. destruct (Z.even y); lia.
  - apply (anc_lt n) in Hanc as [_ ?]; [lia|done..].
Qed.

Lemma mv_sibling : mv f d S = P.
Proof.
  destruct (sibling_props n f d) as (HS & HP & _); try done.
  destruct (mv_coords S HS (under_refl f S)) as (r & o & rd & od & E & Hv & Ed & Hvd & Hr & Ho & Em & Hvm & Hrm & _).
  rewrite Em. rewrite Ed, sibling_npos in E by (done || lia).
  apply npos_inj in E as [<- <-]; [|apply valid_sibling; done || lia|done].
  rewrite Z.sub_diag, Z.pow_0_r, Z.div_1_r in Hrm. rewrite Ed, parent_npos by (done || lia).
  by rewrite Z.sub_diag, Hrm.
Qed.

Lemma onpath_mv_parent T : survives T → onpath f (map (mv f d) T) P ↔ onpath f T P.
Proof.
  intros HT. destruct (sibling_props n f d) as (HS & _); try done.
  by rewrite (survivors_parent T HT), <- (onpath_mv T S), mv_sibling by (done || apply under_refl).
Qed.

(** Away from what is strictly below [P] the needed positions stay. *)
Lemma needed_mv_stay T y : survives T → inF n f y → (under f P y → y = P) →
  needed n f (map (mv f d) T) y ↔ needed n f T y.
Proof.
  intros HT Hy HyP. destruct (sibling_props n f d) as (HS & HP & _); try done.
  unfold needed. destruct (root_at n f y) eqn:Hry.
  { split; intros (_ & Hbad & _); done. }
  destruct (sibling_props n f y) as (Hsy & _ & _ & Hrsy & _); try done.
  assert (∀ z, inF n f z → (under f P z → z = P) → onpath f (map (mv f d) T) z ↔ onpath f T z) as Hz.
  { intros z Hz Hu. destruct (decide (under f P z)) as [->%Hu|]; [by apply onpath_mv_parent|].
    by apply onpath_mv_outside. }
  rewrite (Hz y), (Hz (sibling y)); [done|done| |done|done]. intros Hu.
  destruct (decide (sibling y = P)) as [|Hne]; [done|exfalso].
  pose proof Hu as Hu'. apply (sibling_under P (sibling y)) in Hu'; try done. rewrite sibling_invol in Hu'.
  apply HyP in Hu' as ->. by apply (not_under_sibling P).
Qed.

(** The positions needed after the move: those needed before, but for [d], moved. *)
Lemma needed_mv T y : survives T →
  needed n f (map (mv f d) T) y ↔ ∃ x, needed n f T x ∧ x ≠ d ∧ y = mv f d x.
Proof.
  intros HT. destruct (sibling_props n f d) as (HS & HP & _ & HrS & HpS); try done.
  assert (¬ onpath f T d) as Hnd.
  { rewrite onpath_under. intros (t & Ht & Hu). by destruct (HT t Ht) as (_ & ? & _). }
  split.
  - intros Hy. pose proof Hy as (Hin & Hry & Hon & Hoff).
    destruct (decide (under f P y)) as [Hu|Hu]; [destruct (decide (y = P)) as [->|Hne]|].
    + exists P. rewrite mv_parent. split; [by apply (needed_mv_stay T P)|]. split; [|done].
      intros Heq. pose proof (parent_gt n f d Hfit Hd). lia.
    + assert (under f P (sibling y)) as Hus by (by apply sibling_under).
      destruct (sibling_props n f y) as (Hsy & _ & Hrow & _); try done.
      assert (1 ≤ rowOf f y) as Hr.
      { rewrite onpath_under in Hon. destruct Hon as (t' & (t & -> & Ht)%list_elem_of_fmap & Hut).
        pose proof (HT t Ht) as (Hint & _).
        assert (inF n f (mv f d t)) as Hinm.
        { destruct (decide (under f S t)) as [HuS|HuS].
          - destruct (mv_coords t Hint HuS) as (_ & _ & _ & _ & _ & _ & _ & _ & _ & _ & _ & _ & _ & ?). done.
          - destruct (decide (under f P t)) as [HuP|HuP]; [|by rewrite mv_outside].
            apply under_split in HuP as [->|[?|?]]; try done; [by rewrite mv_parent|].
            by apply (HT t) in Ht as (_ & ? & _). }
        destruct (mv_target T t HT Ht) as [_ Hr]; [by apply (under_trans _ (sibling y))|].
        apply under_row in Hut; try done. lia. }
      destruct (mv_onto y Hin Hu Hr) as (x & Hx & HuS & ->).
      assert (x ≠ S) as HxS by (intros ->; by rewrite mv_sibling in Hne).
      destruct (mv_family x Hx HuS HxS) as (Hrx & _ & HuSs & _ & _ & Hsm & _).
      destruct (sibling_props n f x) as (Hsx & _); try done.
      exists x. rewrite Hsm, onpath_mv in Hon by done. rewrite onpath_mv in Hoff by done.
      split; [done|]. split; [|done]. intros ->.
      apply (not_under_sibling S); try done. by rewrite sibling_invol.
    + exists y. rewrite mv_outside by done. split; [apply (needed_mv_stay T y); done|]. split; [|done].
      intros ->. apply Hu. by apply under_split; auto using under_refl.
  - intros (x & Hx & Hne & ->). pose proof Hx as (Hin & Hrx & Hon & Hoff).
    destruct (sibling_props n f x) as (Hsx & _ & _ & Hrsx & _); try done.
    destruct (decide (under f P x)) as [Hu|Hu]; [|rewrite mv_outside by done; by apply needed_mv_stay].
    apply under_split in Hu as [->|[Hu|Hu]]; [| | |done].
    + rewrite mv_parent. by apply needed_mv_stay.
    + exfalso. apply sibling_under in Hu; try done. rewrite onpath_under in Hon.
      destruct Hon as (t & Ht & Hut). destruct (HT t Ht) as (Hint & Hnu & _). apply Hnu.
      by apply (under_trans _ (sibling x)).
    + destruct (decide (x = S)) as [->|HxS].
      { exfalso. apply Hnd. by rewrite sibling_invol in Hon. }
      destruct (mv_family x Hin Hu HxS) as (_ & _ & HuSs & Hrm & _ & Hsm & _).
      destruct (mv_coords x Hin Hu) as (_ & _ & _ & _ & _ & _ & _ & _ & _ & _ & _ & _ & _ & Hinm).
      split_and!; [done|done| |].
      * by rewrite Hsm, onpath_mv.
      * by rewrite onpath_mv.
Qed.
End Deleted.
End Moves.

(** ** The subtrees after a deletion *)

Lemma prune_none f d r o t : prune f [d] r o t = None → npos f r o = d.
Proof.
  revert r o. induction t as [h|a IHa b IHb]; intros r o; cbn [prune];
    (destruct (decide _) as [Hd|_]; [by apply list_elem_of_singleton in Hd|]); [done|].
  destruct (prune f [d] (r - 1) (2 * o) a) eqn:Ea, (prune f [d] (r - 1) (2 * o + 1) b) eqn:Eb; try done.
  apply IHa in Ea. apply IHb in Eb. unfold npos in *. lia.
Qed.

Section Nodes.
Context `{HashFn} (s : forest) (f : Z) (Hwf : wf s) (Hfit : fits (nl s) f).
Notation n := (nl s).

Section Single.
Context (d : Z) (Hd : inF n f d).
Notation s' := (Forest.del f [d] s).

Lemma pruned_some x t : inF n f x → x ≠ d → node s f x = Some t → is_Some (pruned s f [d] x).
Proof.
  intros (r & o & -> & Hin) Hne Ht. pose proof (in_forest_valid n f r o Hfit Hin) as Hv.
  unfold pruned. rewrite Ht. simpl. rewrite rowOf_npos, offOf_npos by done.
  destruct (prune f [d] r o t) eqn:E; [eauto|]. by apply prune_none in E.
Qed.

(** Reading a child commutes with a deletion elsewhere. *)
Lemma pruned_child y : inF n f y → root_at n f y = false → y ≠ d → sibling y ≠ d → parent y f ≠ d →
  pruned s f [d] (parent y f) ≫= child (Z.odd y) = pruned s f [d] y.
Proof.
  intros Hy Hry H1 H2 H3. destruct (sibling_props n f y) as (Hsy & Hpy & _); try done.
  destruct (node s f y) as [t|] eqn:Ht.
  - rewrite (pruned_parent s f Hfit [d] y t); try done; [|by rewrite list_elem_of_singleton].
    destruct (node_family s f Hfit y t) as (t' & Ht' & _); try done.
    destruct (pruned_some y t) as [u Hu]; try done. destruct (pruned_some (sibling y) t') as [u' Hu']; try done.
    rewrite Hu, Hu', <- Z.negb_even. destruct (Z.even y); done.
  - unfold pruned at 2. rewrite Ht. rewrite (node_child s f Hfit y) in Ht by done.
    unfold pruned. destruct (node s f (parent y f)) as [u|]; [|done]. cbn [mbind option_bind] in *.
    destruct u as [h|a b]; [|done]. cbn [prune]. by destruct (decide _).
Qed.

Section NonRoot.
Context (Hroot : root_at n f d = false) (Hnode : is_Some (node s f d)).
Notation P := (parent d f).
Notation S := (sibling d).

(** What moves up to the parent. *)
Lemma pruned_lift : pruned s f [d] P = pruned s f [d] S.
Proof.
  destruct Hnode as [t Ht]. rewrite (pruned_parent s f Hfit [d] d t); try done.
  - rewrite (pruned_deleted s f Hfit [d] d) by (done || by apply list_elem_of_singleton).
    destruct (pruned s f [d] S), (Z.even d); done.
  - rewrite list_elem_of_singleton. pose proof (parent_gt n f d Hfit Hd). lia.
Qed.

Lemma pruned_below x t : inF n f x → under f S x → node s f x = Some t → pruned s f [d] x = Some t.
Proof.
  intros Hx Hu Ht. apply pruned_keep; try done. rewrite onpath_under.
  intros (t' & ->%list_elem_of_singleton & Hbad).
  destruct (sibling_props n f d) as (HS & _ & _ & HrS & _); try done.
  apply (not_under_sibling n f Hfit S); try done. rewrite sibling_invol.
  by apply (under_trans n f Hfit S x d).
Qed.

Lemma pruned_below_eq x : inF n f x → under f S x → pruned s f [d] x = node s f x.
Proof.
  intros Hx Hu. destruct (node s f x) as [t|] eqn:Ht; [by apply pruned_below|]. unfold pruned. by rewrite Ht.
Qed.

Lemma row_parent y : inF n f y → root_at n f y = false → rowOf f (parent y f) = rowOf f y + 1 ∧ rowOf f y < f.
Proof.
  intros Hy Hry. destruct (inF_family n f y) as (r & o & E & _ & Hv & Hr & _ & Epar & _ & Hvp & _); try done.
  by rewrite Epar, E, !rowOf_npos.
Qed.

Lemma node_del_root y : inF n f y → root_at n f y = true → node s' f y = pruned s f [d] y.
Proof.
  intros (r & o & -> & Hin) Hry. pose proof (in_forest_valid n f r o Hfit Hin) as Hv.
  rewrite root_at_npos in Hry by done. destruct Hv as (? & Hv'). pose proof Hry as Hb.
  apply andb_true_iff in Hb as [Hb ->%Z.eqb_eq].
  pose proof (node_root s f Hfit r ltac:(lia) Hb) as E1.
  pose proof (node_root s' f ltac:(by rewrite nl_del) r ltac:(lia) ltac:(by rewrite nl_del)) as E2.
  rewrite nl_del in E2. rewrite E2. unfold pruned. rewrite E1, slot_del, rowOf_npos, offOf_npos by (done || lia).
  done.
Qed.

(** Outside of what is below the parent, deletion prunes in place. *)
Lemma node_out y : inF n f y → (under f P y → y = P) → node s' f y = pruned s f [d] y.
Proof.
  destruct (sibling_props n f d) as (HS & HP & _ & HrS & HpS); try done.
  remember (Z.to_nat (f - rowOf f y)) as k eqn:Hk. revert y Hk.
  induction k as [k IH] using lt_wf_ind. intros y -> Hy HyP.
  destruct (root_at n f y) eqn:Hry; [by apply node_del_root|].
  destruct (sibling_props n f y) as (Hsy & Hpy & _); try done.
  destruct (row_parent y Hy Hry) as [Hrow Hlt].
  assert (under f P d ∧ under f P S) as [HPd HPS]
    by (split; apply (under_split n f Hfit d Hd Hroot); auto using under_refl).
  assert (¬ under f P (parent y f)) as Hnp.
  { intros Hu. assert (under f P y) as Hu'.
    { apply (under_trans n f Hfit P (parent y f)); try done. right. by apply (anc_parent n f); auto. }
    apply HyP in Hu' as ->. apply (under_antisym n f Hfit P) in Hu; try done.
    - pose proof (parent_gt n f P Hfit HP). lia.
    - right. by apply (anc_parent n f); auto. }
  rewrite (node_child s' f) by (by rewrite nl_del). rewrite (IH (Z.to_nat (f - rowOf f (parent y f))) ltac:(lia) (parent y f) eq_refl); try done.
  apply pruned_child; try done.
  - intros ->. apply HyP in HPd as Heq. pose proof (parent_gt n f d Hfit Hd). lia.
  - intros Heq. assert (y = S) as -> by (by rewrite <- Heq, sibling_invol).
    apply HyP in HPS. pose proof (parent_gt n f S Hfit HS). lia.
  - intros Heq. by rewrite Heq in Hnp.
Qed.

(** The subtree at the new position is what is left of the old one. *)
Lemma node_mv x : inF n f x → ¬ under f d x → node s' f (mv f d x) = pruned s f [d] x.
Proof.
  destruct (sibling_props n f d) as (HS & HP & _ & HrS & HpS); try done.
  remember (Z.to_nat (f - rowOf f x)) as k eqn:Hk. revert x Hk.
  induction k as [k IH] using lt_wf_ind. intros x -> Hx Hnd.
  destruct (decide (under f P x)) as [Hu|Hu].
  2:{ rewrite (mv_outside n f d x) by done. by apply node_out. }
  apply (proj1 (under_split n f Hfit d Hd Hroot x Hx)) in Hu as [->|[?|Hu]]; [|done|].
  { rewrite mv_parent. by apply node_out. }
  destruct (decide (x = S)) as [->|HxS].
  { rewrite (mv_sibling n f Hfit d Hd Hroot), <- pruned_lift. by apply node_out. }
  destruct (mv_family n f Hfit d Hd Hroot x Hx Hu HxS) as (Hrx & Hup & _ & Hrm & Hpm & _ & Hodd).
  destruct (mv_coords n f Hfit d Hd Hroot x Hx Hu) as (_ & _ & _ & _ & _ & _ & _ & _ & _ & _ & _ & _ & _ & Hinm).
  destruct (sibling_props n f x) as (_ & Hpx & _); try done. destruct (row_parent x Hx Hrx) as [Hrow Hlt].
  rewrite (node_child s' f) by (by rewrite nl_del).
  rewrite Hpm, Hodd, (IH (Z.to_nat (f - rowOf f (parent x f))) ltac:(lia) (parent x f) eq_refl); try done.
  - rewrite !pruned_below_eq by done. by rewrite (node_child s f Hfit x).
  - intros Hbad. apply Hnd. apply (under_trans n f Hfit d (parent x f)); try done.
    right. by apply (anc_parent n f); auto.
Qed.
End NonRoot.

(** Deleting a root does not move anything. *)
Lemma node_del_other x : root_at n f d = true → inF n f x → ¬ under f d x →
  node s' f x = pruned s f [d] x.
Proof.
  intros Hroot. remember (Z.to_nat (f - rowOf f x)) as k eqn:Hk. revert x Hk.
  induction k as [k IH] using lt_wf_ind. intros x -> Hx Hnd.
  destruct (root_at n f x) eqn:Hrx; [by apply node_del_root|].
  destruct (sibling_props n f x) as (Hsx & Hpx & _ & Hrs & _); try done.
  destruct (row_parent x Hx Hrx) as [Hrow Hlt].
  assert (¬ under f d (parent x f)) as Hnp.
  { intros Hu. apply Hnd. apply (under_trans n f Hfit d (parent x f)); try done.
    right. by apply (anc_parent n f); auto. }
  rewrite (node_child s' f) by (by rewrite nl_del). rewrite (IH (Z.to_nat (f - rowOf f (parent x f))) ltac:(lia) (parent x f) eq_refl); try done.
  apply pruned_child; try done; intros Heq.
  - congruence.
  - by rewrite Heq, Hroot in Hrs.
  - apply Hnp. rewrite Heq. apply under_refl.
Qed.
End Single.
End Nodes.
