(* ===== verification/Deletions.v ===== *)
(** * Deleting positions one after the other

    The deletion of a list of positions, no two of them twins and in ascending order, is
    the deletion of one after the other, each at its old position; [moveAll] is where a
    position goes.  The twin-free list comes from [deTwin]. *)

From S2P Require Import Prelude Utils PosTheory HashPos Traverse Calc Walk.
From S2P Require Import DeTwinTheory CalcTheory Forest EvalTheory Stump StumpTheory StumpVerify StumpSpec Moves.

(** [prune] looks only at the positions of the subtree. *)
Lemma prune_ext f D D' r o t : height t ≤ r →
  (∀ k o', 0 ≤ k ≤ r → o' / 2 ^ k = o → npos f (r - k) o' ∈ D ↔ npos f (r - k) o' ∈ D') →
  prune f D r o t = prune f D' r o t.
Proof.
  revert r o. induction t as [h|a IHa b IHb]; intros r o Hh Hext;
    pose proof (Hext 0 o) as H0; rewrite Z.sub_0_r, Z.pow_0_r, Z.div_1_r in H0; cbn [prune].
  - simpl in Hh. specialize (H0 ltac:(lia) eq_refl). destruct (decide (_ ∈ D)), (decide (_ ∈ D')); tauto.
  - simpl in Hh. pose proof (height_nonneg a). pose proof (height_nonneg b).
    specialize (H0 ltac:(lia) eq_refl).
    assert (∀ c, 0 ≤ c ≤ 1 → ∀ k o', 0 ≤ k ≤ r - 1 → o' / 2 ^ k = 2 * o + c →
      npos f (r - 1 - k) o' ∈ D ↔ npos f (r - 1 - k) o' ∈ D') as Hc.
    { intros c Hc k o' Hk Ho. replace (r - 1 - k) with (r - (k + 1)) by lia. apply Hext; [lia|].
      rewrite div_pow2_succ, Ho by lia. symmetry. apply (Z.div_unique _ _ _ c); lia. }
    rewrite (IHa (r - 1) (2 * o)), (IHb (r - 1) (2 * o + 1)); [|lia| |lia|].
    + destruct (decide (_ ∈ D)), (decide (_ ∈ D')); tauto.
    + by apply Hc.
    + intros k o' Hk Ho. apply (Hc 0); [lia|done|]. by rewrite Z.add_0_r.
Qed.

(** Deleting [d] first, when nothing else is deleted below its parent. *)
Lemma prune_cons f d D r o t : height t ≤ r →
  (∀ R O c, 1 ≤ R ≤ r → 0 ≤ c ≤ 1 → d = npos f (R - 1) (2 * O + c) → o = O / 2 ^ (r - R) →
     ∀ k o', 0 ≤ k ≤ R → o' / 2 ^ k = O → npos f (R - k) o' ∉ D) →
  prune f [d] r o t ≫= prune f D r o = prune f (d :: D) r o t.
Proof.
  revert r o. induction t as [h|a IHa b IHb]; intros r o Hh HD; cbn [prune].
  all: destruct (decide (npos f r o ∈ [d])) as [Hd|Hd]; rewrite list_elem_of_singleton in Hd.
  1,3: by rewrite decide_True by (rewrite Hd; left).
  - cbn [mbind option_bind prune]. 
    destruct (decide (npos f r o ∈ D)) as [HiD|HiD], (decide (npos f r o ∈ d :: D)) as [Hc|Hc]; try done;
      rewrite elem_of_cons in Hc; tauto.
  - simpl in Hh. pose proof (height_nonneg a). pose proof (height_nonneg b).
    destruct (decide (npos f r o ∈ D)) as [HiD|HiD].
    { rewrite (decide_True (P := npos f r o ∈ d :: D)) by (by right).
      destruct (join _ _) as [u|]; [|done]. destruct u; cbn [mbind option_bind prune]; by rewrite decide_True. }
    rewrite (decide_False (P := npos f r o ∈ d :: D)) by (rewrite elem_of_cons; tauto).
    assert (∀ c, 0 ≤ c ≤ 1 → ∀ R O c', 1 ≤ R ≤ r - 1 → 0 ≤ c' ≤ 1 → d = npos f (R - 1) (2 * O + c') →
      2 * o + c = O / 2 ^ (r - 1 - R) → ∀ k o', 0 ≤ k ≤ R → o' / 2 ^ k = O → npos f (R - k) o' ∉ D) as HDc.
    { intros c Hc R O c' HR Hc' Hd' HO. apply (HD R O c'); [lia|done|done|].
      replace (r - R) with (r - 1 - R + 1) by lia. rewrite div_pow2_succ, <- HO by lia.
      apply (Z.div_unique _ _ _ c); lia. }
    rewrite <- (IHa (r - 1) (2 * o)), <- (IHb (r - 1) (2 * o + 1)); [|lia|by apply HDc|lia|].
    2:{ intros R O c' ? ? ? HO. apply (HDc 0 ltac:(lia) R O c'); try done. by rewrite Z.add_0_r. }
    set (pa := prune f [d] (r - 1) (2 * o) a). set (pb := prune f [d] (r - 1) (2 * o + 1) b).
    assert (∀ c u, 0 ≤ c ≤ 1 → d = npos f (r - 1) (2 * o + (1 - c)) → height u ≤ r - 1 →
      prune f D r o u = Some u ∧ prune f D (r - 1) (2 * o + c) u = Some u) as Hkeep.
    { intros c u Hc Hd' Hu. specialize (HD r o (1 - c) ltac:(lia) ltac:(lia) Hd').
      rewrite Z.sub_diag, Z.pow_0_r, Z.div_1_r in HD. specialize (HD eq_refl).
      split; apply prune_keep; [lia|done|lia|]. intros k o' Hk Ho.
      replace (r - 1 - k) with (r - (k + 1)) by lia. apply HD; [lia|].
      rewrite div_pow2_succ, Ho by lia. symmetry. apply (Z.div_unique _ _ _ c); lia. }
    destruct pa as [ua|] eqn:Ea, pb as [ub|] eqn:Eb; cbn [join mbind option_bind].
    + cbn [prune]. by rewrite decide_False.
    + apply prune_none in Eb. apply prune_height in Ea.
      destruct (Hkeep 0 ua) as [H1 H2]; [lia|by rewrite <- Eb|lia|].
      rewrite Z.add_0_r in H2. by rewrite H1, H2.
    + apply prune_none in Ea. apply prune_height in Eb.
      destruct (Hkeep 1 ub) as [H1 H2]; [lia|by rewrite <- Ea, Z.add_0_r|lia|].
      by rewrite H1, H2.
    + apply prune_none in Ea, Eb. unfold npos in *. lia.
Qed.

(** ** One deletion *)

Definition move (n f d x : Z) : Z := if root_at n f d then x else mv f d x.
Definition moveAll (n f : Z) (D : list Z) (x : Z) : Z := foldl (λ x d, move n f d x) x D.

(** Positions that can be deleted one after the other: none is above or below another
    one, and none is below the parent of an earlier one. *)
Inductive ready (n f : Z) : list Z → Prop :=
| ready_nil : ready n f []
| ready_cons d D : inF n f d →
    (∀ e, e ∈ D → inF n f e ∧ ¬ under f d e ∧ ¬ under f e d ∧
                  (root_at n f d = false → ¬ under f (parent d f) e)) →
    ready n f D → ready n f (d :: D).

Lemma move_inF n f d x : fits n f → inF n f d → inF n f x → ¬ under f d x → inF n f (move n f d x).
Proof.
  intros Hfit Hd Hx Hnd. unfold move. destruct (root_at n f d) eqn:Hroot; [done|].
  destruct (decide (under f (parent d f) x)) as [Hu|Hu]; [|by rewrite (mv_outside n)].
  apply (proj1 (under_split n f Hfit d Hd Hroot x Hx)) in Hu as [->|[?|Hu]]; [by rewrite mv_parent|done|].
  by destruct (mv_coords n f Hfit d Hd Hroot x Hx Hu) as (_ & _ & _ & _ & _ & _ & _ & _ & _ & _ & _ & _ & _ & ?).
Qed.

Lemma in_forest_child n r o c : 1 ≤ r → 0 ≤ c ≤ 1 → in_forest n r o → in_forest n (r - 1) (2 * o + c).
Proof.
  intros Hr Hc Hin. pose proof Hin as (_ & ? & _). apply (in_forest_desc n _ _ 1); [lia|lia|lia|].
  replace (r - 1 + 1) with r by lia. change (2 ^ 1) with 2. by rewrite half_double by lia.
Qed.

Lemma in_forest_below n R O r o : 0 ≤ R ≤ r → o = O / 2 ^ (r - R) → in_forest n r o → in_forest n R O.
Proof.
  intros HR -> Hin. apply (in_forest_desc n _ _ (r - R)); [lia| |lia|by replace (R + (r - R)) with r by lia].
  destruct Hin as (_ & Ho & _). pose proof (pow2_pos (r - R) ltac:(lia)).
  destruct (Z.lt_ge_cases O 0) as [Hneg|]; [|done].
  pose proof (Z.div_lt_upper_bound O (2 ^ (r - R)) 0). lia.
Qed.

Section Single.
Context `{HashFn} (s : forest) (f : Z) (Hwf : wf s) (Hfit : fits (nl s) f).
Notation n := (nl s).
Context (d : Z) (D : list Z) (Hd : inF n f d) (Hnode : is_Some (node s f d)).
Context (HD : ∀ e, e ∈ D → inF n f e ∧ ¬ under f d e ∧ ¬ under f e d ∧
                           (root_at n f d = false → ¬ under f (parent d f) e)).
Notation s' := (Forest.del f [d] s).

(** Where the coordinates do not change, the deletions compose. *)
Lemma prune_in_place x t : inF n f x → node s f x = Some t → root_at n f d = false →
  prune f [d] (rowOf f x) (offOf f x) t ≫= prune f D (rowOf f x) (offOf f x)
  = prune f (d :: D) (rowOf f x) (offOf f x) t.
Proof.
  intros Hx Ht Hroot. destruct (node_height s f Hfit x t Hwf Hx Ht) as [Hh _].
  destruct Hx as (r & o & -> & Hin). pose proof (in_forest_valid n f r o Hfit Hin) as Hv.
  rewrite rowOf_npos, offOf_npos in * by done. apply prune_cons; [done|].
  intros R O c HR Hc Hd' Ho k o' Hk Ho' Hbad.
  assert (in_forest n R O) as HinR by (by apply (in_forest_below n R O r o); [lia|..]).
  pose proof (in_forest_valid n f R O Hfit HinR) as HvR.
  pose proof (in_forest_child n R O c ltac:(lia) Hc HinR) as Hinc.
  pose proof (in_forest_valid n f _ _ Hfit Hinc) as Hvc.
  assert (in_forest n (R - k) o') as Hink.
  { apply (in_forest_below n _ _ R O); [lia| |done]. by replace (R - (R - k)) with k by lia. }
  pose proof (in_forest_valid n f _ _ Hfit Hink) as Hvk.
  apply HD in Hbad as (_ & _ & _ & Hnp). apply Hnp; [done|].
  destruct HvR as (? & ? & ?).
  assert (parent d f = npos f R O) as ->.
  { rewrite Hd', parent_npos by (done || lia). rewrite half_double by lia. f_equal. lia. }
  apply under_npos; [done|by apply (in_forest_valid n)|]. split; [lia|].
  by replace (R - (R - k)) with k by lia.
Qed.

Lemma pruned_move x : inF n f x → ¬ under f d x →
  pruned s' f D (move n f d x) = pruned s f (d :: D) x.
Proof.
  intros Hx Hnd. unfold move.
  assert (root_at n f d = true ∨ root_at n f d = false) as [Hroot|Hroot]
    by (destruct (root_at n f d); auto); rewrite Hroot.
  - assert (¬ under f x d) as Hnx.
    { intros [->|Ha]; [by apply Hnd, under_refl|]. by rewrite (anc_root n) in Ha. }
    unfold pruned at 1. rewrite (node_del_other s f Hfit d Hd x) by done.
    destruct (node s f x) as [t|] eqn:Ht; [|unfold pruned; by rewrite Ht].
    rewrite (pruned_keep s f Hfit [d] x t); try done.
    2:{ rewrite onpath_under. by intros (t' & ->%list_elem_of_singleton & ?). }
    unfold pruned. rewrite Ht. simpl. apply prune_ext; [by apply (node_height s f Hfit x t)|].
    destruct Hx as (r & o & -> & Hin). pose proof (in_forest_valid n f r o Hfit Hin) as Hv.
    rewrite rowOf_npos, offOf_npos by done. intros k o' Hk Ho. rewrite elem_of_cons.
    split; [auto|]. intros [Heq|?]; [|done]. exfalso. apply Hnx. rewrite <- Heq.
    assert (in_forest n (r - k) o') as Hink.
    { apply (in_forest_below n _ _ r o); [lia| |done]. by replace (r - (r - k)) with k by lia. }
    apply under_npos; [by apply (in_forest_valid n)|done|]. split; [lia|]. by replace (r - (r - k)) with k by lia.
  - pose proof (node_mv s f Hwf Hfit d Hd Hroot Hnode x Hx Hnd) as Hn.
    destruct (sibling_props n f d) as (HS & HP & _ & HrS & _); try done.
    assert (mv f d x = x → pruned s' f D (mv f d x) = pruned s f (d :: D) x) as Hin_place.
    { intros E. unfold pruned at 1. rewrite Hn. rewrite E. unfold pruned.
      destruct (node s f x) as [t|] eqn:Ht; [|done]. cbn [mbind option_bind]. by apply prune_in_place. }
    destruct (decide (under f (parent d f) x)) as [Hu|Hu]; [|by apply Hin_place, (mv_outside n)].
    apply (proj1 (under_split n f Hfit d Hd Hroot x Hx)) in Hu as [->|[?|Hu]];
      [by apply Hin_place, mv_parent|done|].
    rewrite (pruned_below_eq s f Hwf Hfit d Hd Hroot x Hx Hu) in Hn.
    destruct (mv_under n f Hfit d Hd Hroot x Hx Hu) as [HuP _].
    pose proof (move_inF n f d x Hfit Hd Hx Hnd) as Him. unfold move in Him. rewrite Hroot in Him.
    destruct (node s f x) as [t|] eqn:Ht; [|unfold pruned; by rewrite Hn, Ht].
    rewrite (pruned_keep s' f) with (t := t); try done; [|by rewrite nl_del|by apply wf_del|by rewrite nl_del|].
    2:{ rewrite onpath_under. intros (e & He & Hue). destruct (HD e He) as (Hine & _ & _ & Hnp).
        apply Hnp; [done|]. by apply (under_trans n f Hfit _ (mv f d x)). }
    symmetry. apply pruned_keep; try done. rewrite onpath_under.
    intros (e & [->|He]%elem_of_cons & Hue).
    + apply (not_under_sibling n f Hfit (sibling d)); try done. rewrite sibling_invol.
      by apply (under_trans n f Hfit _ x).
    + destruct (HD e He) as (Hine & _ & _ & Hnp). apply Hnp; [done|].
      apply (under_trans n f Hfit _ x); try done. apply (under_split n f Hfit d Hd Hroot); auto.
Qed.
End Single.

(** ** Equality of forests after deletions *)

Section Equal.
Context `{HashFn} (s : forest) (f : Z) (Hwf : wf s) (Hfit : fits (nl s) f).
Notation n := (nl s).

Lemma del_nil : Forest.del f [] s = s.
Proof.
  apply list_eq. intros i. unfold Forest.del. rewrite list_lookup_imap.
  destruct (s !! i) as [[[t|]|]|]; simpl; by rewrite ?prune_nil.
Qed.

(** Deletions that agree at the roots agree. *)
Lemma del_eq E D D' :
  (∀ y, inF n f y → root_at n f y = true → pruned (Forest.del f E s) f D y = pruned s f D' y) →
  Forest.del f D (Forest.del f E s) = Forest.del f D' s.
Proof.
  intros Heq. apply list_eq. intros i. unfold Forest.del at 1 3. rewrite !list_lookup_imap, nl_del.
  unfold Forest.del. rewrite list_lookup_imap.
  destruct (s !! i) as [[t|]|] eqn:Hi; [|done|done]. simpl. do 2 f_equal.
  set (r := Z.of_nat i). assert (Z.to_nat r = i) as Hr by (unfold r; lia).
  assert (Z.testbit n r = true) as Hb by (rewrite nl_testbit, Hr, Hi by lia; done).
  destruct (root_valid n f r) as (Hroot & Hin & Hv); [done|lia|done|].
  pose proof Hv as (? & ? & ?).
  pose proof (node_root s f Hfit r ltac:(lia) Hb) as E1.
  pose proof (node_root (Forest.del f E s) f ltac:(by rewrite nl_del) r ltac:(lia) ltac:(by rewrite nl_del)) as E2.
  rewrite nl_del in E2. specialize (Heq (npos f r (2 * (n / 2 ^ (r + 1))))). unfold pruned in Heq.
  rewrite E1, E2, slot_del, !rowOf_npos, !offOf_npos in Heq by (done || lia).
  unfold slot in Heq. rewrite Hr, Hi in Heq. apply Heq; [by eexists _, _|].
  by rewrite root_at_npos.
Qed.
End Equal.

Lemma root_under n f d y : fits n f → inF n f d → inF n f y → root_at n f y = true → under f d y → y = d.
Proof. intros Hfit Hd Hy Hr [?|Ha]; [done|]. by rewrite (anc_root n f d y) in Ha. Qed.

(** What a move can do to a position: nothing, or bring it below the parent. *)
Lemma move_cases n f d x : fits n f → inF n f d → inF n f x → ¬ under f d x →
  move n f d x = x ∨
  (root_at n f d = false ∧ under f (sibling d) x ∧ under f (parent d f) (move n f d x)).
Proof.
  intros Hfit Hd Hx Hnd. unfold move. destruct (root_at n f d) eqn:Hroot; [by left|].
  destruct (decide (under f (parent d f) x)) as [Hu|Hu]; [|left; by apply (mv_outside n)].
  apply (proj1 (under_split n f Hfit d Hd Hroot x Hx)) in Hu as [->|[?|Hu]];
    [left; by apply mv_parent|done|].
  right. split_and!; [done|done|]. by apply (mv_under n f Hfit d Hd Hroot).
Qed.

Section Cons.
Context (n f : Z) (Hfit : fits n f) (d : Z) (D : list Z) (Hd : inF n f d).
Context (HD : ∀ e, e ∈ D → inF n f e ∧ ¬ under f d e ∧ ¬ under f e d ∧
                           (root_at n f d = false → ¬ under f (parent d f) e)).

Lemma move_other e : e ∈ D → move n f d e = e.
Proof.
  intros He. destruct (HD e He) as (Hine & H1 & _ & H2).
  destruct (move_cases n f d e) as [?|(Hr & HuS & _)]; try done.
  exfalso. apply H2; [done|]. apply (under_split n f Hfit d Hd Hr); auto.
Qed.

Lemma not_under_move e x : e ∈ D → inF n f x → ¬ under f d x → ¬ under f e x → ¬ under f e (move n f d x).
Proof.
  intros He Hx Hnd Hne Hbad. destruct (HD e He) as (Hine & H1 & H2 & H3).
  pose proof (move_inF n f d x Hfit Hd Hx Hnd) as Him.
  destruct (move_cases n f d x) as [E|(Hr & HuS & HuP)]; try done; [by rewrite E in Hbad|].
  destruct (sibling_props n f d) as (HS & HP & _); try done. specialize (H3 Hr).
  destruct (decide (rowOf f e ≤ rowOf f (parent d f))) as [Hrow|Hrow].
  - apply H3. by apply (under_comparable n f Hfit e (parent d f) (move n f d x)).
  - apply H2. apply (under_trans n f Hfit e (parent d f)); try done.
    + apply (under_comparable n f Hfit (parent d f) e (move n f d x)); try done. lia.
    + apply (under_split n f Hfit d Hd Hr); auto using under_refl.
Qed.

(** Targets that survive the deletion of [d] survive the others after the move. *)
Lemma not_above_move e t : e ∈ D → inF n f t → ¬ under f d t → ¬ under f t e → ¬ under f (move n f d t) e.
Proof.
  intros He Ht Hnd Hne Hbad. destruct (HD e He) as (Hine & H1 & H2 & H3).
  pose proof (move_inF n f d t Hfit Hd Ht Hnd) as Him.
  destruct (move_cases n f d t) as [E|(Hr & HuS & HuP)]; try done; [by rewrite E in Hbad|].
  destruct (sibling_props n f d) as (HS & HP & _); try done.
  apply (H3 Hr). by apply (under_trans n f Hfit _ (move n f d t)).
Qed.

Lemma move_inv x e : inF n f x → ¬ under f d x → e ∈ D → move n f d x = e → x = e.
Proof.
  intros Hx Hnd He Hm. destruct (HD e He) as (Hine & H1 & H2 & H3).
  destruct (move_cases n f d x) as [E|(Hr & HuS & HuP)]; try done; [congruence|].
  exfalso. apply (H3 Hr). by rewrite Hm in HuP.
Qed.
End Cons.

Section Sequence.
Context `{HashFn} (f : Z).

Lemma del_cons s d D : let n := nl s in
  wf s → fits n f → inF n f d → is_Some (node s f d) →
  (∀ e, e ∈ D → inF n f e ∧ ¬ under f d e ∧ ¬ under f e d ∧
                (root_at n f d = false → ¬ under f (parent d f) e)) →
  Forest.del f D (Forest.del f [d] s) = Forest.del f (d :: D) s.
Proof.
  intros n Hwf Hfit Hd Hnode HD. apply del_eq; [done|]. intros y Hy Hr.
  destruct (decide (under f d y)) as [Hu|Hu].
  - apply (root_under n f d y Hfit Hd Hy Hr) in Hu as ->.
    rewrite (pruned_deleted s f Hfit (d :: D) d) by (done || by left).
    unfold pruned. rewrite (node_del_root s f Hfit d d), (pruned_deleted s f Hfit [d] d); try done. by left.
  - rewrite <- (pruned_move s f Hwf Hfit d D Hd Hnode HD y Hy Hu). f_equal.
    destruct (move_cases n f d y) as [E|(Hrd & HuS & HuP)]; try done.
    destruct (sibling_props n f d) as (HS & HP & _ & HrS & _); try done.
    apply (root_under n f _ y Hfit HS Hy Hr) in HuS. fold n in Hr. congruence.
Qed.

(** The other deleted positions keep their subtrees. *)
Lemma node_del_kept s d e : let n := nl s in wf s → fits n f → inF n f d → is_Some (node s f d) →
  inF n f e → ¬ under f d e → ¬ under f e d → (root_at n f d = false → ¬ under f (parent d f) e) →
  node (Forest.del f [d] s) f e = node s f e.
Proof.
  intros n Hwf Hfit Hd Hnode He H1 H2 H3.
  assert (move n f d e = e) as Hm.
  { destruct (move_cases n f d e) as [?|(Hr & HuS & _)]; try done.
    exfalso. apply H3; [done|]. apply (under_split n f Hfit d Hd Hr); auto. }
  rewrite <- (pruned_nil (Forest.del f [d] s) f).
  rewrite <- Hm at 1. rewrite (pruned_move s f Hwf Hfit d [] Hd Hnode); try done; [|by intros ? ?%elem_of_nil].
  destruct (node s f e) as [t|] eqn:Ht; [|unfold pruned; by rewrite Ht].
  apply pruned_keep; try done. rewrite onpath_under. by intros (t' & ->%list_elem_of_singleton & ?).
Qed.

(** Where every position goes, and what is there afterwards. *)
Lemma node_moveAll D : ∀ s, let n := nl s in
  wf s → fits n f → ready n f D → (∀ d, d ∈ D → is_Some (node s f d)) →
  ∀ x, inF n f x → (∀ d, d ∈ D → ¬ under f d x) →
  inF n f (moveAll n f D x) ∧ node (Forest.del f D s) f (moveAll n f D x) = pruned s f D x.
Proof.
  induction D as [|d D IH]; intros s n Hwf Hfit Hrd Hnodes x Hx Hout.
  { cbn. rewrite del_nil, pruned_nil. done. }
  inversion_clear Hrd as [|? ? Hd HD Hrd'].
  assert (is_Some (node s f d)) as Hnode by (apply Hnodes; by left).
  assert (¬ under f d x) as Hnd by (apply Hout; by left).
  rewrite <- (del_cons s d D) by done. rewrite <- (pruned_move s f Hwf Hfit d D Hd Hnode HD x Hx Hnd).
  assert (nl (Forest.del f [d] s) = n) as Hn by apply nl_del.
  specialize (IH (Forest.del f [d] s)). cbv zeta in IH. rewrite Hn in IH.
  change (moveAll n f (d :: D) x) with (moveAll n f D (move n f d x)). apply IH; try done.
  - by apply wf_del.
  - intros e He. destruct (HD e He) as (? & ? & ? & ?). rewrite node_del_kept by done.
    apply Hnodes. by right.
  - by apply move_inF.
  - intros e He. apply (not_under_move n f Hfit d D Hd HD e x); try done. apply Hout. by right.
Qed.
End Sequence.

(** The positions that moved targets need. *)
Lemma needed_moveAll n f D : fits n f → ready n f D →
  ∀ T, (∀ t, t ∈ T → inF n f t ∧ ∀ d, d ∈ D → ¬ under f d t ∧ ¬ under f t d) →
  ∀ y, needed n f (map (moveAll n f D) T) y ↔ ∃ x, needed n f T x ∧ x ∉ D ∧ y = moveAll n f D x.
Proof.
  intros Hfit. induction D as [|d D IH]; intros Hrd T HT y.
  { rewrite map_id. split; [intros ?; exists y; split_and!; [done|apply not_elem_of_nil|done]|by intros (? & ? & _ & ->)]. }
  inversion_clear Hrd as [|? ? Hd HD Hrd'].
  assert (map (moveAll n f (d :: D)) T = map (moveAll n f D) (map (move n f d) T)) as -> by by rewrite map_map.
  assert (∀ t, t ∈ T → inF n f t ∧ ¬ under f d t ∧ ¬ under f t d) as Hsv.
  { intros t Ht. destruct (HT t Ht) as [? Hall]. destruct (Hall d ltac:(by left)). done. }
  assert (∀ x, needed n f T x → ¬ under f d x ∨ x = d) as Hnu.
  { intros x (Hin & Hrx & Hon & Hoff). destruct (decide (x = d)) as [|Hne]; [by right|left]. intros Hu.
    apply (sibling_under n f Hfit d x Hd Hin Hrx Hne) in Hu. rewrite onpath_under in Hon.
    destruct Hon as (t & Ht & Hut). destruct (Hsv t Ht) as (Hint & Hnd & _). apply Hnd.
    destruct (sibling_props n f x) as (Hsx & _); try done. by apply (under_trans n f Hfit d (sibling x)). }
  rewrite IH; [|done|].
  2:{ intros t1 (t & -> & Ht)%list_elem_of_fmap. destruct (HT t Ht) as [Hint Hall].
      destruct (Hsv t Ht) as (_ & Hnd & _). split; [by apply move_inF|]. intros e He.
      destruct (Hall e ltac:(by right)).
      split; [by apply (not_under_move n f Hfit d D Hd HD)|by apply (not_above_move n f Hfit d D Hd HD)]. }
  assert (∀ x1, needed n f (map (move n f d) T) x1 ↔ ∃ x, needed n f T x ∧ x ≠ d ∧ x1 = move n f d x) as Hstep.
  { intros x1. assert (root_at n f d = true ∨ root_at n f d = false) as [Hr|Hr] by (destruct (root_at n f d); auto).
    - assert (map (move n f d) T = T) as ->.
      { rewrite <- (map_id T) at 2. apply map_ext. intros. unfold move. by rewrite Hr. }
      unfold move. rewrite Hr. split; [|by intros (? & ? & _ & ->)]. intros Hx1. exists x1.
      split_and!; [done| |done]. intros ->. destruct Hx1 as (_ & Hbad & _). congruence.
    - unfold move. rewrite Hr. by apply (needed_mv n f Hfit d Hd Hr). }
  setoid_rewrite Hstep. split.
  - intros (x1 & (x & Hx & Hne & ->) & Hnd & ->). exists x. split_and!; [done| |done].
    apply not_elem_of_cons. split; [done|]. intros He. apply Hnd.
    by rewrite (move_other n f Hfit d D Hd HD x He).
  - intros (x & Hx & [Hne HnD]%not_elem_of_cons & ->). exists (move n f d x).
    split; [eauto|]. split; [|done]. intros He. apply HnD.
    destruct (Hnu x Hx) as [Hu|]; [|done]. pose proof Hx as (Hin & _).
    by rewrite (move_inv n f Hfit d D Hd HD x _ Hin Hu He eq_refl).
Qed.
