(* ===== verification/MapPollardMoves.v ===== *)
(** * Moving subtrees up in a map pollard

    [moveUpDescendants] takes the nodes below the sibling of a deleted position one row
    up, row by row from above, so that a node never lands on one that has still to move. *)

From S2P Require Import Prelude State Utils PosTheory HashPos HashPosTheory SortedTheory Traverse Calc Walk.
From S2P Require Import Forest Stump Moves MapPollard.

(** One node, on its own. *)
Definition moveChild (f d c : Z) (m : MapPollard) : MapPollard :=
  match Nodes m !! c with
  | Some l => recache (leafHash l) (mv f d c) (putNode (mv f d c) l (deleteNode c m))
  | None => m
  end.

Definition moveChildren (f d : Z) (cs : list Z) (m : MapPollard) : MapPollard :=
  foldl (λ m c, moveChild f d c m) m cs.

Definition kids (f p : Z) : list Z :=
  if rowOf f p =? 0 then [] else [leftChild p f; rightChild p f].

Lemma recache_fields h p m : Nodes (recache h p m) = Nodes m ∧ NumLeaves (recache h p m) = NumLeaves m ∧
  TotalRows (recache h p m) = TotalRows m.
Proof. unfold recache. by destruct (CachedLeaves m !! h). Qed.

Lemma moveChild_fields f d c m : TotalRows (moveChild f d c m) = TotalRows m ∧
  NumLeaves (moveChild f d c m) = NumLeaves m.
Proof.
  unfold moveChild. destruct (Nodes m !! c); [|done].
  by destruct (recache_fields (leafHash l) (mv f d c) (putNode (mv f d c) l (deleteNode c m)))
    as (_ & -> & ->).
Qed.

Lemma moveChildren_fields f d cs m : TotalRows (moveChildren f d cs m) = TotalRows m ∧
  NumLeaves (moveChildren f d cs m) = NumLeaves m.
Proof.
  revert m. induction cs as [|c cs IH]; intros m; [done|]. simpl.
  destruct (IH (moveChild f d c m)) as [-> ->]. apply moveChild_fields.
Qed.

Section Moves.
Context (n f : Z) (Hfit : fits n f) (d : Z) (Hd : inF n f d) (Hroot : root_at n f d = false).
Notation P := (parent d f).
Notation S := (sibling d).

(** Strictly below the siblings [d] and [S]. *)
Definition lower (x : Z) : Prop := inF n f x ∧ under f P x ∧ rowOf f x < rowOf f d.

Lemma lower_family : inF n f S ∧ inF n f P ∧ rowOf f S = rowOf f d ∧ rowOf f P = rowOf f d + 1 ∧
  root_at n f S = false ∧ parent S f = P ∧ rowOf f d < f.
Proof.
  destruct (sibling_props n f d) as (? & ? & ? & ? & ?); try done.
  destruct (inF_family n f d) as (r & o & -> & Hin & Hv & Hrf & _ & Hp & _ & Hvp & _); try done.
  split_and!; try done; rewrite ?Hp, !rowOf_npos by done; lia.
Qed.

Lemma lower_split x : lower x → (under f d x ∨ under f S x) ∧ x ≠ S ∧ x ≠ d ∧ x ≠ P.
Proof.
  intros (Hx & Hu & Hr). destruct lower_family as (? & ? & HrS & HrP & _).
  apply (under_split n f Hfit d Hd Hroot x Hx) in Hu. destruct Hu as [->|Hu]; [lia|].
  split; [done|]. split_and!; intros ->; lia.
Qed.

Lemma calcNext_under x : inF n f x → under f P x → rowOf f x ≤ rowOf f d →
  calcNextPosition x d f = Ok (mv f d x).
Proof.
  intros Hx Hu Hr. destruct lower_family as (_ & HP & _ & HrP & _ & _ & Hf).
  unfold mv. rewrite decide_True.
  - destruct Hx as (r & o & -> & Hin). destruct Hd as (rd & od & -> & Hind).
    pose proof (in_forest_valid n f _ _ Hfit Hin). pose proof (in_forest_valid n f _ _ Hfit Hind).
    rewrite !rowOf_npos in * by done. by rewrite calcNextPosition_npos by (done || lia).
  - destruct Hu as [->|]; [lia|done].
Qed.

Lemma calcNext_lower x : lower x → calcNextPosition x d f = Ok (mv f d x).
Proof. intros (? & ? & ?). apply calcNext_under; (done || lia). Qed.

Lemma mv_row x : inF n f x → under f S x → rowOf f (mv f d x) = rowOf f x + 1 ∧ inF n f (mv f d x).
Proof.
  intros Hx Hu. destruct (mv_coords n f Hfit d Hd Hroot x Hx Hu)
    as (r & o & rd & od & -> & Hv & _ & _ & _ & _ & -> & Hvm & _ & HinM).
  by rewrite !rowOf_npos.
Qed.

Lemma mv_eq x y : inF n f x → under f S x → inF n f y → under f S y → mv f d x = mv f d y → x = y.
Proof.
  intros Hx Hux Hy Huy E. destruct (mv_under n f Hfit d Hd Hroot x Hx Hux) as [_ <-].
  destruct (mv_under n f Hfit d Hd Hroot y Hy Huy) as [_ <-]. by rewrite E.
Qed.

(** Where a lower node lands: strictly below, or on one of the two deleted places. *)
Lemma mv_lands x : lower x → under f S x → lower (mv f d x) ∨ mv f d x = d ∨ mv f d x = S.
Proof.
  intros (Hx & _ & Hr) Hu. destruct (mv_row x Hx Hu) as [Hrow Hin].
  destruct (mv_under n f Hfit d Hd Hroot x Hx Hu) as [HuP _].
  destruct lower_family as (HS & HP & HrS & HrP & _).
  destruct (Z.eq_dec (rowOf f x + 1) (rowOf f d)) as [E|]; [|left; split_and!; try done; lia].
  right. apply (under_split n f Hfit d Hd Hroot _ Hin) in HuP as [E'|[Hu'|Hu']].
  - rewrite E' in Hrow. lia.
  - left. destruct Hu' as [|Ha]; [done|]. apply (anc_lt n) in Ha as [_ ?]; try done. lia.
  - right. destruct Hu' as [|Ha]; [done|]. apply (anc_lt n) in Ha as [_ ?]; try done. lia.
Qed.

Lemma kids_elem p x : inF n f p →
  x ∈ kids f p ↔ inF n f x ∧ root_at n f x = false ∧ parent x f = p.
Proof.
  intros (r & o & -> & Hin). pose proof (in_forest_valid n f r o Hfit Hin) as Hv.
  unfold kids. rewrite rowOf_npos by done. pose proof Hin as (? & ? & ?).
  destruct (Z.eqb_spec r 0) as [->|Hr].
  - split; [by intros ?%elem_of_nil|]. intros (Hx & Hrx & E).
    destruct (inF_family n f x) as (r' & o' & -> & (? & _) & Hv' & _ & _ & Hp & _ & Hvp & _); try done.
    rewrite Hp in E. apply npos_inj in E as [? _]; [lia|done|done].
  - assert (leftChild (npos f r o) f = npos f (r - 1) (2 * o)) as El.
    { replace r with (r - 1 + 1) at 1 by lia. apply leftChild_npos; [|lia].
      by replace (r - 1 + 1) with r by lia. }
    pose proof Hv as (? & ? & ?). rewrite rightChild_leftChild, El by lia.
    replace (npos f (r - 1) (2 * o) + 1) with (npos f (r - 1) (2 * o + 1)) by (unfold npos; lia).
    assert (∀ c, 0 ≤ c ≤ 1 → in_forest n (r - 1) (2 * o + c) ∧ (2 * o + c) / 2 = o) as Hchild.
    { intros c Hc. assert ((2 * o + c) / 2 = o) as E
        by (symmetry; apply (Z.div_unique _ _ _ c); lia).
      split; [|done]. apply (in_forest_desc n _ _ 1); try lia. change (2 ^ 1) with 2. rewrite E.
      by replace (r - 1 + 1) with r by lia. }
    split.
    + intros Hx. assert (∃ c, 0 ≤ c ≤ 1 ∧ x = npos f (r - 1) (2 * o + c)) as (c & Hc & ->).
      { apply elem_of_cons in Hx as [->|Hx%list_elem_of_singleton].
        - exists 0. split; [lia|]. by rewrite Z.add_0_r.
        - exists 1. split; [lia|done]. }
      destruct (Hchild c Hc) as [Hi E]. pose proof (in_forest_valid n f _ _ Hfit Hi) as Hvc.
      split_and!; [by eexists _, _| |].
      * rewrite root_at_npos by done. destruct (is_root _ _ _) eqn:Er; [|done]. exfalso.
        apply (root_parent_out n (r - 1) (2 * o + c)); [lia|done|]. rewrite E.
        by replace (r - 1 + 1) with r by lia.
      * rewrite parent_npos, E by done. f_equal. lia.
    + intros (Hx & Hrx & E).
      destruct (inF_family n f x) as (r' & o' & -> & Hi' & Hv' & _ & _ & Hp & _ & Hvp & _); try done.
      rewrite Hp in E. apply npos_inj in E as [E1 E2]; [|done..].
      replace (r - 1) with r' by lia. pose proof (Z.div_mod o' 2). pose proof (Z.mod_pos_bound o' 2).
      rewrite !elem_of_cons, elem_of_nil.
      destruct (Z.eq_dec (o' mod 2) 0); [left|right; left]; f_equal; lia.
Qed.

Lemma kids_lower p x : inF n f p → under f P p → rowOf f p ≤ rowOf f d → x ∈ kids f p →
  lower x ∧ rowOf f x = rowOf f p - 1.
Proof.
  intros Hp Hu Hrow Hx. apply (kids_elem p x Hp) in Hx as (Hx & Hrx & E).
  destruct lower_family as (_ & HP & _ & HrP & _).
  assert (rowOf f (parent x f) = rowOf f x + 1) as Hr.
  { destruct (inF_family n f x) as (r & o & -> & _ & Hv & _ & _ & -> & _ & Hvp & _); try done.
    by rewrite !rowOf_npos. }
  rewrite E in Hr. split; [|lia]. split_and!; [done| |lia].
  apply (under_trans n f Hfit P p); try done. right. apply (anc_parent n f); try done. by left.
Qed.

(** The children of all positions of a row below the parent are those of the next row. *)
Lemma kids_row ps k x : 0 ≤ k < rowOf f d →
  (∀ p, p ∈ ps ↔ inF n f p ∧ under f P p ∧ rowOf f p = k + 1) →
  x ∈ mjoin (map (kids f) ps) ↔ inF n f x ∧ under f P x ∧ rowOf f x = k.
Proof.
  intros Hk Hps. destruct lower_family as (_ & HP & _ & HrP & _).
  rewrite list_elem_of_join. setoid_rewrite list_elem_of_fmap. split.
  - intros (l & Hx & p & -> & Hp). apply Hps in Hp as (Hp & Hu & Hr).
    destruct (kids_lower p x Hp Hu ltac:(lia) Hx) as [(? & ? & _) ?]. split_and!; [done|done|lia].
  - intros (Hx & Hu & Hr). assert (x ≠ P) as Hne by (intros ->; lia).
    assert (root_at n f x = false) as Hrx.
    { destruct Hu as [?|Ha]; [done|]. destruct (root_at n f x) eqn:Er; [|done].
      by rewrite (anc_root n f P x) in Ha. }
    destruct (sibling_props n f x) as (_ & Hpx & _); try done.
    exists (kids f (parent x f)). rewrite (kids_elem _ _ Hpx). split; [done|].
    exists (parent x f). rewrite Hps. split_and!; try done.
    + by apply (under_parent n f Hfit P x).
    + destruct (inF_family n f x) as (r & o & -> & _ & Hv & _ & _ & -> & _ & Hvp & _); try done.
      rewrite !rowOf_npos in * by done. lia.
Qed.

Lemma kids_bottom ps : (∀ p, p ∈ ps → rowOf f p = 0) → mjoin (map (kids f) ps) = [].
Proof.
  induction ps as [|p ps IH]; intros Hps; [done|]. cbn. unfold kids at 1.
  rewrite (Hps p) by (by left). simpl. apply IH. intros. apply Hps. by right.
Qed.

(** ** The effect *)

Section Effect.
Context (m0 : MapPollard).
Context (H0d : ∀ x, lower x → under f d x → Nodes m0 !! x = None).

(** What is left at the two siblings when nothing lands there. *)
Definition base (y : Z) : option Leaf :=
  if decide (y = d ∨ y = S) then Nodes m0 !! y else None.

Lemma base_lower y : lower y → base y = None.
Proof. intros Hy. destruct (lower_split y Hy) as (_ & ? & ? & _). unfold base. by rewrite decide_False by tauto. Qed.

(** Cached leaves have their node, and the hash of a lower node is cached for its place
    or not at all. *)
Context (Hnode : ∀ h p, CachedLeaves m0 !! h = Some p → lower p →
  ∃ l, Nodes m0 !! p = Some l ∧ leafHash l = h).
Context (Hplace : ∀ p l q, lower p → Nodes m0 !! p = Some l →
  CachedLeaves m0 !! leafHash l = Some q → q = p).

Record moved (D : list Z) (m : MapPollard) : Prop := {
  mo_in x : x ∈ D → lower x;
  mo_up x : x ∈ D → under f S x → Nodes m !! mv f d x = Nodes m0 !! x ∪ base (mv f d x);
  mo_none y : y ∈ D ∨ y = d ∨ y = S → (∀ x, x ∈ D → under f S x → y ≠ mv f d x) → Nodes m !! y = base y;
  mo_rest y : y ∉ D → y ≠ d → y ≠ S → Nodes m !! y = Nodes m0 !! y;
  mo_cached h : CachedLeaves m !! h =
    (λ p, if decide (p ∈ D ∧ under f S p) then mv f d p else p) <$> CachedLeaves m0 !! h;
}.

Lemma moved_ext D D' m : (∀ x, x ∈ D ↔ x ∈ D') → moved D m → moved D' m.
Proof.
  intros HD [H1 H2 H3 H4 H5]. split.
  - intros x. rewrite <- HD. auto.
  - intros x. rewrite <- HD. auto.
  - intros y Hy Hall. apply H3; [by rewrite HD|]. intros x. rewrite HD. auto.
  - intros y. rewrite <- HD. auto.
  - intros h. rewrite H5. destruct (CachedLeaves m0 !! h) as [p|]; [|done]. simpl. f_equal.
    apply decide_ext. by rewrite HD.
Qed.

Lemma moved_start : moved [] m0.
Proof.
  split; try (by intros ? ?%elem_of_nil).
  - intros y [?%elem_of_nil|Hy] _; [done|]. unfold base. by rewrite decide_True.
  - intros y _ _ _. done.
  - intros h. by destruct (CachedLeaves m0 !! h).
Qed.

Section Step.
Context (D : list Z) (m : MapPollard) (Hm : moved D m) (c : Z) (Hc : lower c).
Context (Hafter : ∀ x, x ∈ D → rowOf f c ≤ rowOf f x).
Context (Hall : ∀ y, lower y → rowOf f c < rowOf f y → y ∈ D).

Lemma step_not_image x : x ∈ D → under f S x → c ≠ mv f d x.
Proof.
  intros Hx Hu ->. destruct (mo_in D m Hm x Hx) as (Hin & _). destruct (mv_row x Hin Hu) as [Hr _].
  specialize (Hafter x Hx). lia.
Qed.

Lemma step_image_fresh x : x ∈ D → x ≠ c → under f S x → under f S c → mv f d x ≠ mv f d c.
Proof.
  intros Hx Hne Hu Huc E. apply Hne. apply mv_eq; try done; [|by destruct Hc].
  by destruct (mo_in D m Hm x Hx).
Qed.

Lemma step_lands : under f S c → mv f d c ∈ D ∨ mv f d c = d ∨ mv f d c = S.
Proof.
  intros Hu. destruct (mv_lands c Hc Hu) as [Hl|?]; [left|by right].
  apply Hall; [done|]. destruct Hc as (Hin & _). destruct (mv_row c Hin Hu). lia.
Qed.

Lemma step_absent : c ∉ D → Nodes m0 !! c = None → moved (c :: D) m.
Proof.
  intros HcD Hnone. destruct Hm as [H1 H2 H3 H4 H5]. destruct (lower_split c Hc) as (_ & HcS & Hcd & _).
  split.
  - intros x [->|?]%elem_of_cons; auto.
  - intros x [->|?]%elem_of_cons Hu; [|auto].
    rewrite Hnone, (left_id_L None (∪)). apply H3; [by apply step_lands|].
    intros x Hx Hux E. destruct (decide (x = c)) as [->|Hne]; [done|].
    by apply (step_image_fresh x).
  - intros y Hy Himg. destruct (decide (y = c)) as [->|Hne].
    + by rewrite H4, base_lower by done.
    + apply H3; [|intros x Hx; apply Himg; by right]. destruct Hy as [[?|?]%elem_of_cons|?]; [done|auto|auto].
  - intros y [? ?]%not_elem_of_cons ? ?. auto.
  - intros h. rewrite H5. destruct (CachedLeaves m0 !! h) as [p|] eqn:E; [|done]. simpl. f_equal.
    apply decide_ext. rewrite elem_of_cons. split; [intros [? ?]; auto|].
    intros [[->|?] ?]; [|done]. destruct (Hnode h c E Hc) as (l & Hl & _). congruence.
Qed.

Lemma step_present l : c ∉ D → Nodes m0 !! c = Some l → under f S c →
  moved (c :: D) (recache (leafHash l) (mv f d c) (putNode (mv f d c) l (deleteNode c m))).
Proof.
  intros HcD Hl Hu. pose proof Hm as [H1 H2 H3 H4 H5]. destruct (lower_split c Hc) as (_ & HcS & Hcd & _).
  destruct (recache_fields (leafHash l) (mv f d c) (putNode (mv f d c) l (deleteNode c m)))
    as (HN & _ & _).
  assert (∀ y, y ≠ mv f d c → y ≠ c → (<[mv f d c := l]> (delete c (Nodes m)) : gmap Z Leaf) !! y = Nodes m !! y)
    as Hother by (intros y ? ?; by rewrite lookup_insert_ne, lookup_delete_ne).
  split; rewrite ?HN; cbn [Nodes putNode deleteNode setNodes].
  - intros x [->|?]%elem_of_cons; auto.
  - intros x Hx Hux. destruct (decide (x = c)) as [->|Hne]; [rewrite lookup_insert_eq, Hl; by destruct (base _)|].
    apply elem_of_cons in Hx as [?|Hx]; [done|].
    rewrite Hother; [auto|by apply step_image_fresh|]. intros E. by apply (step_not_image x).
  - intros y Hy Himg. assert (y ≠ mv f d c) as Hym by (apply Himg; [by left|done]).
    destruct (decide (y = c)) as [->|Hne]; [by rewrite lookup_insert_ne, lookup_delete_eq, base_lower|].
    rewrite Hother by done. apply H3; [|intros x Hx; apply Himg; by right].
    destruct Hy as [[?|?]%elem_of_cons|?]; [done|auto|auto].
  - intros y [? ?]%not_elem_of_cons ? ?. rewrite Hother; [by apply H4| |done].
    intros ->. by destruct (step_lands Hu) as [?|[?|?]].
  - intros h. unfold recache. cbn [CachedLeaves putNode deleteNode setNodes].
    assert (∀ q, CachedLeaves m0 !! leafHash l = Some q → q = c) as Hq
      by (intros q; by apply (Hplace c l q)).
    destruct (CachedLeaves m !! leafHash l) as [q|] eqn:Eq.
    + rewrite H5 in Eq. apply fmap_Some in Eq as (q' & Eq' & _).
      pose proof (Hq q' Eq') as ->. cbn [CachedLeaves putCached setCached].
      destruct (decide (h = leafHash l)) as [->|Hne].
      * rewrite lookup_insert_eq, Eq'. simpl. rewrite decide_True; [done|]. split; [by left|done].
      * rewrite lookup_insert_ne, H5 by done. destruct (CachedLeaves m0 !! h) as [p|] eqn:E; [|done].
        simpl. f_equal. apply decide_ext. rewrite elem_of_cons. split; [intros [? ?]; auto|].
        intros [[->|?] ?]; [|done]. destruct (Hnode h c E Hc) as (l' & Hl' & <-). congruence.
    + cbn [CachedLeaves putNode deleteNode setNodes]. rewrite H5.
      rewrite H5 in Eq. apply fmap_None in Eq.
      destruct (CachedLeaves m0 !! h) as [p|] eqn:E; [|done]. simpl. f_equal. apply decide_ext.
      rewrite elem_of_cons. split; [intros [? ?]; auto|]. intros [[->|?] ?]; [|done].
      destruct (Hnode h c E Hc) as (l' & Hl' & <-). congruence.
Qed.

Lemma moved_step : moved (c :: D) (moveChild f d c m).
Proof.
  destruct (lower_split c Hc) as (Hu & HcS & Hcd & _). unfold moveChild.
  destruct (decide (c ∈ D)) as [HcD|HcD].
  - rewrite (mo_none D m Hm c), base_lower; [|done|by left|intros x; apply step_not_image].
    apply (moved_ext D); [|done]. intros x. rewrite elem_of_cons. split; [auto|]. by intros [->|].
  - pose proof (mo_rest D m Hm c HcD Hcd HcS) as ->.
    destruct (Nodes m0 !! c) as [l|] eqn:Hl; [|by apply step_absent].
    apply step_present; try done. destruct Hu as [Hu|]; [|done].
    rewrite H0d in Hl by done. done.
Qed.
End Step.

Lemma moved_level cs k : ∀ D m, moved D m → (∀ c, c ∈ cs → lower c ∧ rowOf f c = k) →
  (∀ x, x ∈ D → k ≤ rowOf f x) → (∀ y, lower y → k < rowOf f y → y ∈ D) →
  moved (reverse cs ++ D) (moveChildren f d cs m).
Proof.
  induction cs as [|c cs IH]; intros D m Hm Hcs Hafter Hall; [done|].
  destruct (Hcs c ltac:(by left)) as [Hc Hk].
  apply (moved_ext (reverse cs ++ c :: D)).
  { intros x. rewrite reverse_cons, <- app_assoc. done. }
  cbn [moveChildren foldl]. apply IH.
  - apply moved_step; try done; rewrite Hk; done.
  - intros. apply Hcs. by right.
  - intros x [->|?]%elem_of_cons; [lia|auto].
  - intros y Hy Hlt. right. auto.
Qed.

(** ** The loops *)

Variable numLeaves : Z.

Lemma moveUpChild_eq x child m : TotalRows m = f → lower (child x f) →
  moveUpChild (sibling x) d numLeaves child m = (moveChild f d (child x f) m, Ok [child x f]).
Proof.
  intros Hrows Hc. unfold moveUpChild. rewrite Hrows, sibling_invol, calcNext_lower by done.
  unfold moveChild. by destruct (Nodes m !! child x f).
Qed.

Lemma moveUpNieces_eq p m : TotalRows m = f → inF n f p → under f P p → rowOf f p ≤ rowOf f d →
  moveUpNieces p d numLeaves m = (moveChildren f d (kids f p) m, Ok (kids f p)) ∧
  StronglySorted Z.lt (kids f p).
Proof.
  intros Hrows Hp Hu Hr. pose proof (kids_lower p) as Hk. unfold moveUpNieces. st_run.
  assert (detectRow p (TotalRows m) = rowOf f p) as ->.
  { rewrite Hrows. destruct Hp as (r & o & -> & Hin).
    pose proof (in_forest_valid n f r o Hfit Hin). by rewrite detectRow_npos, rowOf_npos. }
  unfold kids in *. destruct (Z.eqb_spec (rowOf f p) 0) as [E|E].
  { rewrite decide_True by done. split; [done|constructor]. }
  rewrite decide_False by done.
  destruct (Hk (leftChild p f)) as [Hl _]; try done; [by left|].
  destruct (Hk (rightChild p f)) as [Hrt _]; try done; [by right; left|].
  rewrite (st_bind_ok _ _ _ _ _ (moveUpChild_eq p leftChild m Hrows Hl)).
  destruct (moveChild_fields f d (leftChild p f) m) as [Hrows' _]. rewrite Hrows in Hrows'.
  rewrite (st_bind_ok _ _ _ _ _ (moveUpChild_eq p rightChild _ Hrows' Hrt)). split; [done|].
  pose proof Hfit as [_ ?]. rewrite rightChild_leftChild by lia.
  repeat constructor. lia.
Qed.

Lemma moveUpRow_eq ps : ∀ nx m, TotalRows m = f → StronglySorted Z.lt nx →
  (∀ p, p ∈ ps → inF n f p ∧ under f P p ∧ rowOf f p ≤ rowOf f d) →
  ∃ nx', moveUpRow ps d numLeaves nx m = (moveChildren f d (mjoin (map (kids f) ps)) m, Ok nx') ∧
    StronglySorted Z.lt nx' ∧ ∀ x, x ∈ nx' ↔ x ∈ nx ∨ ∃ p, p ∈ ps ∧ x ∈ kids f p.
Proof.
  induction ps as [|p ps IH]; intros nx m Hrows Hnx Hps.
  { exists nx. split; [done|]. split; [done|]. intros x. split; [auto|].
    by intros [?|(? & ?%elem_of_nil & _)]. }
  destruct (Hps p ltac:(by left)) as (Hp & Hu & Hr).
  destruct (moveUpNieces_eq p m Hrows Hp Hu Hr) as [E Hkids].
  cbn [moveUpRow]. rewrite (st_bind_ok _ _ _ _ _ E).
  rewrite (st_lift_ok _ _ _ _ (mergeSortedSlicesFunc_spec _ _)).
  destruct (merged_slices nx (kids f p) Hnx Hkids) as [Hs Hel].
  destruct (moveChildren_fields f d (kids f p) m) as [Hrows' _]. rewrite Hrows in Hrows'.
  destruct (IH _ _ Hrows' Hs) as (nx' & E' & Hs' & Hel'); [intros; apply Hps; by right|].
  exists nx'. split; [|split; [done|]].
  - rewrite E'. cbn [map mjoin list_join]. unfold moveChildren. by rewrite foldl_app.
  - intros x. rewrite Hel', Hel. setoid_rewrite elem_of_cons. naive_solver.
Qed.

Lemma moveUpDescendants_loop_moved h : ∀ ps D m, TotalRows m = f → moved D m →
  Z.of_nat h ≤ rowOf f d →
  (∀ p, p ∈ ps ↔ inF n f p ∧ under f P p ∧ rowOf f p = Z.of_nat h) →
  (∀ x, x ∈ D → Z.of_nat h ≤ rowOf f x) → (∀ y, lower y → Z.of_nat h ≤ rowOf f y → y ∈ D) →
  ∃ D' m', moveUpDescendants_loop h ps d numLeaves m = (m', Ok tt) ∧ moved D' m' ∧
    (∀ y, lower y → y ∈ D') ∧ NumLeaves m' = NumLeaves m ∧ TotalRows m' = TotalRows m.
Proof.
  destruct lower_family as (_ & HP & _ & HrP & _).
  induction h as [|h IH]; intros ps D m Hrows Hm Hh Hps Hafter Hall;
    (destruct (moveUpRow_eq ps [] m Hrows (SSorted_nil _)) as (nx & E & _ & Hnx);
      [intros p Hp; apply Hps in Hp as (? & ? & ?); split_and!; [done|done|lia]|]);
    pose proof (moveChildren_fields f d (mjoin (map (kids f) ps)) m) as [Hrows' Hnl'];
    cbn [moveUpDescendants_loop]; rewrite (st_bind_ok _ _ _ _ _ E).
  - rewrite kids_bottom by (intros p Hp; by apply Hps in Hp as (_ & _ & ?)).
    exists D, m. split; [done|]. split; [done|]. split; [|done].
    intros y Hy. apply Hall; [done|]. destruct Hy as (Hy & _). by apply (rowOf_nonneg n).
  - assert (∀ c, c ∈ mjoin (map (kids f) ps) ↔ inF n f c ∧ under f P c ∧ rowOf f c = Z.of_nat h) as Hjoin.
    { intros c. apply kids_row; [lia|]. intros p. rewrite Hps. by rewrite Nat2Z.inj_succ. }
    assert (moved (reverse (mjoin (map (kids f) ps)) ++ D)
              (moveChildren f d (mjoin (map (kids f) ps)) m)) as Hm'.
    { apply (moved_level _ (Z.of_nat h)); [done| | |].
      - intros c (? & ? & ?)%Hjoin. split; [split_and!; [done|done|lia]|done].
      - intros x Hx%Hafter. lia.
      - intros y Hy Hlt. apply Hall; [done|lia]. }
    destruct (IH nx _ _ ltac:(by rewrite Hrows') Hm') as (D' & m' & El & HD' & Hcov & Hl & Hr).
    + lia.
    + intros p. rewrite <- Hjoin, Hnx, list_elem_of_join. setoid_rewrite list_elem_of_fmap.
      setoid_rewrite elem_of_nil. naive_solver.
    + intros x. rewrite elem_of_app, elem_of_reverse, Hjoin. intros [(_ & _ & ->)|Hx%Hafter]; lia.
    + intros y Hy Hr. rewrite elem_of_app, elem_of_reverse, Hjoin.
      destruct (Z.eq_dec (rowOf f y) (Z.of_nat h)); [left; by destruct Hy as (? & ? & _)|].
      right. apply Hall; [done|lia].
    + exists D', m'. split_and!; try done; congruence.
Qed.

Lemma moveUpDescendants_moved : TotalRows m0 = f → ∃ D m',
  moveUpDescendants S d numLeaves m0 = (m', Ok tt) ∧ moved D m' ∧ (∀ y, y ∈ D ↔ lower y) ∧
  NumLeaves m' = NumLeaves m0 ∧ TotalRows m' = TotalRows m0.
Proof.
  intros Hrows. destruct lower_family as (HS & HP & HrS & HrP & _).
  assert (∀ D m, moved D m → (∀ y, lower y → y ∈ D) → ∀ y, y ∈ D ↔ lower y) as Hiff.
  { intros D m Hm Hall y. split; [apply (mo_in D m Hm)|auto]. }
  unfold moveUpDescendants. st_run.
  assert (detectRow S (TotalRows m0) = rowOf f d) as ->.
  { rewrite Hrows, <- HrS. destruct HS as (r & o & -> & Hin).
    pose proof (in_forest_valid n f r o Hfit Hin). by rewrite detectRow_npos, rowOf_npos. }
  pose proof (rowOf_nonneg n f d Hfit Hd) as Hpos. rewrite sibling_invol.
  destruct (decide (rowOf f d = 0)) as [E|E].
  - exists [], m0. split_and!; try done; [apply moved_start|]. apply (Hiff [] m0); [apply moved_start|].
    intros y (Hy & _ & Hlt). pose proof (rowOf_nonneg n f y Hfit Hy). lia.
  - destruct (moveUpDescendants_loop_moved (Z.to_nat (rowOf f d)) (copySortedFunc [S; d]) [] m0 Hrows moved_start)
      as (D & m' & El & Hm & Hall & Hl & Hr); try lia.
    + intros p. unfold copySortedFunc. rewrite merge_sort_Permutation, !elem_of_cons, elem_of_nil.
      rewrite Z2Nat.id by lia. split.
      * intros [->|[->|[]]]; split_and!; try done.
        1: apply (under_split n f Hfit d Hd Hroot); [done|right; right; apply under_refl].
        apply (under_split n f Hfit d Hd Hroot); [done|right; left; apply under_refl].
      * intros (Hp & Hu & Hr). apply (under_split n f Hfit d Hd Hroot p Hp) in Hu.
        destruct Hu as [->|[[->|Ha]|[->|Ha]]]; [lia|auto| |auto|];
          apply (anc_lt n) in Ha as [_ ?]; try done; lia.
    + by intros x ?%elem_of_nil.
    + intros y (_ & _ & Hlt) Hge. lia.
    + exists D, m'. split_and!; try done. by apply (Hiff D m').
Qed.
End Effect.
End Moves.
