(* ===== verification/Translate.v ===== *)
(** * The same node in forests of different heights

    A map pollard numbers its nodes as if the forest had [TotalRows] rows; proofs use the
    rows that the forest needs.  [translatePos] keeps the row and the offset, and with them
    everything that a forest says about a position. *)

From S2P Require Import Prelude Utils PosTheory HashPos Traverse Walk.
From S2P Require Import Forest EvalTheory StumpVerify Moves.

Section Translate.
Context (n f g : Z) (Hf : fits n f) (Hg : fits n g).
Notation tr x := (translatePos x f g).

Lemma tr_coords x : inF n f x → ∃ r o, in_forest n r o ∧ valid f r o ∧ valid g r o ∧
  x = npos f r o ∧ tr x = npos g r o.
Proof.
  intros (r & o & -> & Hin). pose proof (in_forest_valid n f r o Hf Hin).
  pose proof (in_forest_valid n g r o Hg Hin). exists r, o. split_and!; try done.
  by apply translatePos_npos.
Qed.

Lemma tr_inF x : inF n f x → inF n g (tr x).
Proof. intros Hx. destruct (tr_coords x Hx) as (r & o & ? & _ & _ & _ & ->). by exists r, o. Qed.

Lemma tr_rowOf x : inF n f x → rowOf g (tr x) = rowOf f x ∧ offOf g (tr x) = offOf f x.
Proof.
  intros Hx. destruct (tr_coords x Hx) as (r & o & ? & ? & ? & -> & ->).
  by rewrite !rowOf_npos, !offOf_npos.
Qed.

Lemma tr_root_at x : inF n f x → root_at n g (tr x) = root_at n f x.
Proof. intros Hx. unfold root_at. by destruct (tr_rowOf x Hx) as [-> ->]. Qed.

Lemma tr_node s x : inF n f x → node s g (tr x) = node s f x.
Proof. intros Hx. unfold node. by destruct (tr_rowOf x Hx) as [-> ->]. Qed.

Lemma tr_lt x y : inF n f x → inF n f y → tr x < tr y ↔ x < y.
Proof.
  intros Hx Hy. destruct (tr_coords x Hx) as (r & o & ? & ? & ? & -> & ->).
  destruct (tr_coords y Hy) as (r' & o' & ? & ? & ? & -> & ->). by rewrite !npos_lt.
Qed.

Lemma tr_inj x y : inF n f x → inF n f y → tr x = tr y → x = y.
Proof.
  intros Hx Hy E. pose proof (tr_lt x y Hx Hy). pose proof (tr_lt y x Hy Hx). lia.
Qed.

Lemma tr_parent x : inF n f x → root_at n f x = false → tr (parent x f) = parent (tr x) g.
Proof.
  intros Hx Hr. destruct (inF_family n f x) as (r & o & -> & Hin & Hv & Hrf & _ & -> & Hinp & Hvp & _); try done.
  pose proof (in_forest_valid n g _ _ Hg Hin). pose proof (in_forest_valid n g _ _ Hg Hinp).
  rewrite !translatePos_npos by done. by rewrite parent_npos.
Qed.

Lemma tr_sibling x : inF n f x → root_at n f x = false → tr (sibling x) = sibling (tr x).
Proof.
  intros Hx Hr.
  destruct (inF_family n f x) as (r & o & -> & Hin & Hv & Hrf & Hr0 & _ & _ & _ & -> & Hins & _); try done.
  pose proof (in_forest_valid n g _ _ Hg Hin) as Hvg. pose proof (in_forest_valid n g _ _ Hg Hins).
  pose proof (in_forest_valid n f _ _ Hf Hins). pose proof (in_forest_top n g r o Hg Hin Hr0).
  rewrite !translatePos_npos by done. by rewrite sibling_npos.
Qed.

Lemma tr_isAncestor x y : inF n f x → inF n f y →
  isAncestor (tr x) (tr y) g = isAncestor x y f.
Proof.
  intros Hx Hy. destruct (tr_coords x Hx) as (r & o & ? & ? & ? & -> & ->).
  destruct (tr_coords y Hy) as (r' & o' & ? & ? & ? & -> & ->). by rewrite !isAncestor_npos.
Qed.

Lemma tr_onpath T x : (∀ t, t ∈ T → inF n f t) → inF n f x →
  onpath g (map (λ t, tr t) T) (tr x) ↔ onpath f T x.
Proof.
  intros HT Hx. unfold onpath. split.
  - intros (u & (t & -> & Ht)%list_elem_of_fmap & Hu). exists t. split; [done|].
    rewrite tr_isAncestor in Hu by auto. destruct Hu as [E|?]; [|by right].
    left. by apply tr_inj; auto.
  - intros (t & Ht & Hu). exists (tr t). split; [apply list_elem_of_fmap; by exists t|].
    rewrite tr_isAncestor by auto. destruct Hu as [->|?]; auto.
Qed.
End Translate.

Lemma tr_back n f g x : fits n f → fits n g → inF n f x →
  translatePos (translatePos x f g) g f = x.
Proof.
  intros Hf Hg Hx. destruct (tr_coords n f g Hf Hg x Hx) as (r & o & ? & ? & ? & -> & ->).
  by apply translatePos_npos.
Qed.

(** Translating or not, when there is nothing to translate. *)
Lemma tr_maybe n f g l : fits n f → fits n g → (∀ x, x ∈ l → inF n g x) →
  (if negb (f =? g) then translatePositions l g f else l) = map (λ t, translatePos t g f) l.
Proof.
  intros Hf Hg Hl. destruct (Z.eqb_spec f g) as [->|]; [|done]. simpl.
  rewrite <- (map_id l) at 1. apply map_ext_in. intros x (r & o & -> & Hin)%list_elem_of_In%Hl.
  pose proof (in_forest_valid n g r o Hg Hin). by rewrite translatePos_npos.
Qed.

Section Targets.
Context (n f g : Z) (Hf : fits n f) (Hg : fits n g).
Notation tr x := (translatePos x f g).
Context (T : list Z) (HT : ∀ t, t ∈ T → inF n f t).
Notation T' := (map (λ t, tr t) T).

Lemma tr_targets_in : ∀ t, t ∈ T' → inF n g t.
Proof. intros t (x & -> & Hx)%list_elem_of_fmap. apply tr_inF; auto. Qed.

Lemma tr_nodup : NoDup T → NoDup T'.
Proof.
  intros Hnd. apply NoDup_fmap_2_strong; [|done]. intros x y Hx Hy. apply (tr_inj n); auto.
Qed.

Lemma tr_needed y : needed n g T' y ↔ ∃ x, needed n f T x ∧ y = tr x.
Proof.
  split.
  - intros (Hy & Hr & Hon & Hoff). exists (translatePos y g f).
    assert (y = tr (translatePos y g f)) as Ey by (symmetry; by apply (tr_back n)).
    pose proof (tr_inF n g f Hg Hf y Hy) as Hx. split; [|done]. rewrite Ey in Hr, Hon, Hoff.
    rewrite (tr_root_at n) in Hr by done. rewrite <- (tr_sibling n) in Hon by done.
    destruct (sibling_props n f _ Hf Hx Hr) as (Hs & _).
    rewrite (tr_onpath n) in Hon by done. rewrite (tr_onpath n) in Hoff by done. done.
  - intros (x & (Hx & Hr & Hon & Hoff) & ->). destruct (sibling_props n f x Hf Hx Hr) as (Hs & _).
    unfold needed. rewrite (tr_root_at n), <- (tr_sibling n), !(tr_onpath n) by done.
    split_and!; try done. by apply tr_inF.
Qed.

Lemma tr_sorted l : (∀ x, x ∈ l → inF n f x) → StronglySorted Z.lt l →
  StronglySorted Z.lt (map (λ t, tr t) l).
Proof.
  intros Hin. induction 1 as [|x l Hl IH Hall]; simpl; constructor.
  - apply IH. intros y Hy. apply Hin. by right.
  - rewrite Forall_forall in *. intros y (z & -> & Hz)%list_elem_of_fmap.
    apply (tr_lt n f g Hf Hg); [apply Hin; by left|apply Hin; by right|auto].
Qed.
End Targets.
