(* ===== verification/Batch.v ===== *)
(** * Deleting a batch of targets

    The targets of a block are merged by [deTwin] before they are deleted.  The forest
    that is left is the same, the merged positions cover the same leaves, and they can
    be deleted one after the other. *)

From S2P Require Import Prelude Utils PosTheory HashPos Traverse Calc Walk SortedTheory.
From S2P Require Import DeTwinTheory CalcTheory Forest EvalTheory Stump StumpTheory StumpVerify StumpSpec.
From S2P Require Import ForestLeaves Moves Deletions Translate.

Section Batch.
Context `{HashFn} (s : forest) (f : Z) (Hwf : wf s) (Hfit : fits (nl s) f).
Notation n := (nl s).

(** Deletions that agree below every root. *)
Lemma del_agree f' D D' :
  (∀ r o t, in_forest n r o → is_root n r o = true → height t ≤ r →
     node s f (npos f r o) = Some t → prune f D r o t = prune f' D' r o t) →
  Forest.del f D s = Forest.del f' D' s.
Proof.
  intros Heq. apply list_eq. intros i. unfold Forest.del. rewrite !list_lookup_imap.
  destruct (s !! i) as [[[t|]|]|] eqn:Hi; [|done..]. simpl. do 2 f_equal.
  set (r := Z.of_nat i). assert (Z.to_nat r = i) as Hr by (unfold r; lia).
  assert (Z.testbit n r = true) as Hb by (rewrite nl_testbit, Hr, Hi by lia; done).
  destruct (root_valid n f r) as (Hroot & Hin & Hv); [done|lia|done|]. pose proof Hv as (? & ? & ?).
  destruct (Hwf i t Hi) as [Hh _]. apply Heq; try done.
  rewrite (node_root s f Hfit r ltac:(lia) Hb). unfold slot. by rewrite Hr, Hi.
Qed.

(** ** Other numbers of rows *)

Lemma prune_translate f' D D' r o t : in_forest n r o → height t ≤ r →
  node s f (npos f r o) = Some t →
  (∀ r' o', in_forest n r' o' → npos f r' o' ∈ D ↔ npos f' r' o' ∈ D') →
  prune f D r o t = prune f' D' r o t.
Proof.
  intros Hin Hh Hn Hiff. revert r o Hin Hh Hn. induction t as [h|a IHa b IHb]; intros r o Hin Hh Hn; cbn [prune].
  - specialize (Hiff r o Hin). destruct (decide (_ ∈ D)), (decide (_ ∈ D')); tauto.
  - destruct (node_children s f Hfit r o a b) as [[? ?] [? ?]]; try done. simpl in Hh.
    rewrite IHa, IHb by (done || lia). specialize (Hiff r o Hin).
    destruct (decide (_ ∈ D)), (decide (_ ∈ D')); tauto.
Qed.

Lemma del_translate g T : fits n g → (∀ t, t ∈ T → inF n g t) →
  Forest.del f (map (λ t, translatePos t g f) T) s = Forest.del g T s.
Proof.
  intros Hg HT. apply del_agree. intros r o t Hin _ Hh Hn. apply prune_translate; try done.
  intros r' o' Hin'. pose proof (in_forest_valid n f _ _ Hfit Hin').
  pose proof (in_forest_valid n g _ _ Hg Hin').
  assert (translatePos (npos g r' o') g f = npos f r' o') as <- by (by apply translatePos_npos).
  rewrite list_elem_of_fmap. split.
  - intros (t' & E & Ht'). rewrite (tr_inj n g f Hg Hfit _ t'); try done; [by eexists _, _|auto].
  - intros Ht'. eauto.
Qed.

(** ** Twins *)

Section Twins.
Context (p : Z) (Hp : inF n f p) (Hroot : root_at n f p = false) (Hn : is_Some (node s f p)).
Context (D D' : list Z) (HpD : p ∈ D) (HsD : sibling p ∈ D) (HPD : parent p f ∉ D) (HPD' : parent p f ∈ D').
Context (Hrest : ∀ x, x ≠ p → x ≠ sibling p → x ≠ parent p f → x ∈ D ↔ x ∈ D').

Lemma prune_twins r o t : in_forest n r o → height t ≤ r → node s f (npos f r o) = Some t →
  isAncestor (parent p f) (npos f r o) f = false → prune f D r o t = prune f D' r o t.
Proof.
  destruct (sibling_props n f p) as (Hs & HP & _ & Hrs & HpS); try done.
  assert (isAncestor (parent p f) p f = true ∧ isAncestor (parent p f) (sibling p) f = true) as [Hap Has].
  { split; apply (anc_parent n f); auto. }
  revert r o. induction t as [h|a IHa b IHb]; intros r o Hin Hh Ht Hanc;
    pose proof (in_forest_valid n f r o Hfit Hin) as Hv; pose proof Hv as (? & ? & ?);
    destruct (decide (npos f r o = parent p f)) as [E|E].
  1,3: rewrite E in Ht; destruct Hn as [tp Htp];
    pose proof (pruned_parent s f Hfit D p tp Hp Hroot Htp HPD) as Hpr;
    rewrite (pruned_deleted s f Hfit D p), (pruned_deleted s f Hfit D (sibling p)) in Hpr by done;
    pose proof (pruned_deleted s f Hfit D' _ HP HPD') as Hpr';
    unfold pruned in Hpr, Hpr'; rewrite Ht in Hpr, Hpr'; cbn [mbind option_bind] in Hpr, Hpr';
    rewrite <- E, rowOf_npos, offOf_npos in Hpr, Hpr' by done; rewrite Hpr', Hpr; by destruct (Z.even p).
  all: assert (npos f r o ∈ D ↔ npos f r o ∈ D') as Hiff by (apply Hrest; congruence); cbn [prune].
  - destruct (decide (_ ∈ D)), (decide (_ ∈ D')); tauto.
  - destruct (node_children s f Hfit r o a b) as [[HinA HnA] [HinB HnB]]; try done.
    simpl in Hh. pose proof (height_nonneg a). pose proof (height_nonneg b).
    assert (∀ c, 0 ≤ c ≤ 1 → in_forest n (r - 1) (2 * o + c) →
      isAncestor (parent p f) (npos f (r - 1) (2 * o + c)) f = false) as Hc.
    { intros c Hc Hinc. pose proof (in_forest_valid n f _ _ Hfit Hinc) as Hvc.
      assert (parent (npos f (r - 1) (2 * o + c)) f = npos f r o) as Epar.
      { rewrite parent_npos, half_double by (done || lia). f_equal. lia. }
      assert (root_at n f (npos f (r - 1) (2 * o + c)) = false) as Hrc.
      { rewrite root_at_npos by done. apply not_true_is_false. intros Hroot'.
        apply (root_parent_out n (r - 1) (2 * o + c)); [lia|done|]. rewrite half_double by lia.
        by replace (r - 1 + 1) with r by lia. }
      apply not_true_is_false. intros Ha. apply (anc_parent n f) in Ha; [|done|done|by eexists _, _|done].
      rewrite Epar in Ha. destruct Ha as [?|?]; congruence. }
    pose proof (Hc 0 ltac:(lia)) as Hc0. rewrite Z.add_0_r in Hc0. specialize (Hc0 HinA).
    pose proof (Hc 1 ltac:(lia) HinB) as Hc1.
    rewrite (IHa _ _ HinA ltac:(lia) HnA Hc0), (IHb _ _ HinB ltac:(lia) HnB Hc1).
    destruct (decide (npos f r o ∈ D)), (decide (npos f r o ∈ D')); tauto.
Qed.

Lemma del_twins : Forest.del f D s = Forest.del f D' s.
Proof.
  apply del_agree. intros r o t Hin Hr Hh Ht. apply prune_twins; try done.
  pose proof (in_forest_valid n f r o Hfit Hin) as Hv.
  destruct (sibling_props n f p) as (_ & HP & _); try done.
  apply not_true_is_false. intros Ha. rewrite (anc_root n f) in Ha; try done; [by eexists _, _|].
  by rewrite root_at_npos.
Qed.
End Twins.

(** ** The merged positions *)

(** A batch that stands for the targets [T]: the same leaves are covered, every position
    has a target below it, and deleting it leaves the same forest. *)
Record stands_for (T l : list Z) : Prop := {
  sf_node d : d ∈ l → is_Some (node s f d);
  sf_leaf x h : inF n f x → node s f x = Some (Lf h) → covered f l x → covered f T x;
  sf_target d : d ∈ l → ∃ t, t ∈ T ∧ under f d t;
  sf_del : Forest.del f l s = Forest.del f T s;
}.

Lemma stands_for_refl T : (∀ d, d ∈ T → is_Some (node s f d)) → stands_for T T.
Proof. intros HT. split; try done. intros d Hd. exists d. split; [done|apply under_refl]. Qed.

(** Twins in the slice, and what is left without them. *)
Lemma twins_split l i p : pending n f l → l !! i = Some p → l !! S i = Some (rightSib p) →
  inF n f p ∧ root_at n f p = false ∧ l ≡ₚ p :: sibling p :: take i l ++ drop (i + 2) l.
Proof.
  intros Hpd Hi Hsi. pose proof Hpd as [Hs Hin _].
  assert (drop i l = p :: rightSib p :: drop (i + 2) l) as Hd.
  { rewrite (drop_S _ _ _ Hi), (drop_S _ _ _ Hsi). do 3 f_equal. lia. }
  assert (inF n f p ∧ inF n f (rightSib p)) as [Hp Hr]
    by (split; apply Hin; by eapply list_elem_of_lookup_2).
  assert (p < rightSib p) as Hlt.
  { apply (sorted_lt_head p (rightSib p :: drop (i + 2) l)); [|by left].
    rewrite <- Hd. by apply sorted_drop. }
  pose proof (twin_not_root n f Hfit p Hp Hr Hlt) as Hroot.
  destruct (rightSib_family n f Hfit p) as (Hsib & _); try done.
  split_and!; try done. rewrite <- (take_drop i l) at 1.
  rewrite Hd, Hsib. by rewrite <- !Permutation_middle.
Qed.

Lemma stands_for_merge T l i p : pending n f l → l !! i = Some p → l !! S i = Some (rightSib p) →
  stands_for T l → (∀ t, t ∈ T → inF n f t) →
  stands_for T (insertInOrder (take i l ++ drop (i + 2) l) (parent p f)).
Proof.
  intros Hpd Hi Hsi [Hnode Hleaf Htarget Hdel] HT. pose proof Hpd as [Hs Hin Hanti].
  destruct (twins_split l i p Hpd Hi Hsi) as (Hp & Hroot & Hl).
  set (rest := take i l ++ drop (i + 2) l) in *.
  pose proof (insertInOrder_perm rest (parent p f)) as Hl'.
  set (l' := insertInOrder rest (parent p f)) in *.
  destruct (sibling_props n f p Hfit Hp Hroot) as (Hsp & HP & _ & Hrs & HpS).
  assert (p ∈ l ∧ sibling p ∈ l) as [Hpl Hsl] by (rewrite Hl; split; [left|right; by left]).
  assert (∀ y, y ∈ rest → y ∈ l) as Hrest by (intros y Hy; rewrite Hl; by do 2 right).
  assert (isAncestor (parent p f) p f = true) as Hap by (apply (anc_parent n f); auto).
  destruct (Hnode p Hpl) as [tp Htp].
  destruct (node_family s f Hfit p tp Hp Hroot Htp) as (tp' & _ & HnP).
  assert (∃ a b, node s f (parent p f) = Some (Nd a b)) as (a & b & HP') by (destruct (Z.even p); eauto).
  split.
  - intros d. rewrite Hl'. intros [->|Hd]%elem_of_cons; [eauto|auto].
  - intros x h Hx Hn (d & Hd & Hu). apply (Hleaf x h Hx Hn). rewrite Hl' in Hd.
    apply elem_of_cons in Hd as [->|Hd]; [|exists d; auto].
    apply (under_split n f Hfit p Hp Hroot x Hx) in Hu as [->|[Hu|Hu]]; [congruence|by exists p|].
    by exists (sibling p).
  - intros d. rewrite Hl'. intros [->|Hd]%elem_of_cons; [|auto].
    destruct (Htarget p Hpl) as (t & Ht & Hu). exists t. split; [done|].
    assert (under f (parent p f) p) as HuP by (by right).
    apply (under_trans n f Hfit (parent p f) p t); auto.
  - rewrite <- Hdel. symmetry. apply (del_twins p); try done; [eauto|..].
    + intros HPl. by rewrite (Hanti p (parent p f)) in Hap.
    + rewrite Hl'. by left.
    + intros x H1 H2 H3. rewrite Hl, Hl', !elem_of_cons. tauto.
Qed.

Lemma deTwin_loop_stands_for fuel T : (∀ t, t ∈ T → inF n f t) →
  ∀ i l, pending n f l → no_twins_upto i l → stands_for T l →
  stands_for T (deTwin_loop fuel i l f).
Proof.
  intros HT. induction fuel as [|fuel IH]; intros i l Hpd Htw Hsf; [done|]. cbn [deTwin_loop].
  destruct (l !! i) as [p|] eqn:Ep; [|done].
  assert (∀ q, l !! S i = q → q ≠ Some (rightSib p) → no_twins_upto (S i) l) as Hnext.
  { intros q Eq Hne j x y Hj Hx Hy. destruct (decide (j = i)) as [->|]; [congruence|].
    apply (Htw j); [lia|done..]. }
  destruct (l !! S i) as [q|] eqn:Eq.
  - destruct (Z.eqb_spec (rightSib p) q) as [<-|Hne].
    + destruct (merge_step n f Hfit i l p) as (? & ? & _); try done.
      apply IH; try done. by apply stands_for_merge.
    + apply IH; try done. apply (Hnext (Some q)); congruence.
  - apply IH; try done. by apply (Hnext None).
Qed.

(** The merged positions can be deleted one after the other. *)
Lemma pending_ready l : pending n f l → no_twins l → ready n f l.
Proof.
  induction l as [|d l IH]; intros Hpd Htw; constructor.
  - apply Hpd. by left.
  - destruct Hpd as [Hs Hin Hanti]. intros e He.
    assert (inF n f d ∧ inF n f e) as [Hd Hine] by (split; apply Hin; [by left|by right]).
    assert (d < e) as Hlt by (by apply (sorted_lt_head d l)).
    assert (isAncestor d e f = false ∧ isAncestor e d f = false) as [Hde Hed]
      by (split; apply Hanti; (by left) || (by right)).
    split_and!; [done|intros [?|?]; [lia|congruence]|intros [?|?]; [lia|congruence]|].
    intros Hr Hu. apply (under_split n f Hfit d Hd Hr e Hine) in Hu as Hc.
    destruct (sibling_props n f d Hfit Hd Hr) as (HS & HP & _ & HrS & HpS).
    destruct Hc as [->|[[?|?]|[E|Ha]]]; [|lia|congruence|..].
    + rewrite (proj2 (anc_parent n f (parent d f) d Hfit HP Hd Hr)) in Hed; [done|by left].
    + assert (rightSib d = e) as Hrs by (rewrite E, sibling_eq, rightSib_eq in *; destruct (Z.even d); lia).
      destruct l as [|x l]; [by apply elem_of_nil in He|].
      apply (Htw 0%nat d x eq_refl eq_refl). rewrite Hrs.
      assert (d < x) by (apply (sorted_lt_head d (x :: l)); [done|by left]).
      rewrite rightSib_eq in Hrs. apply elem_of_cons in He as [|He]; [done|].
      apply StronglySorted_inv in Hs as [Hs _].
      pose proof (sorted_lt_head x l e Hs He). destruct (Z.even d); lia.
    + apply (anc_lt n f) in Ha as [Ha _]; try done. rewrite sibling_eq in Ha. destruct (Z.even d); lia.
  - apply IH; [by eapply pending_tail|]. intros j x y Hx Hy. by apply (Htw (S j)).
Qed.
End Batch.
