(* ===== verification/MapPollardInv.v ===== *)
(** * What a map pollard keeps

    [holds] says which nodes of a forest a map pollard has.  It speaks about a [part] of
    the forest, given by its positions, its roots and the subtrees at its positions:
    between two rows of [addSingle] the state does not belong to a whole forest. *)

From S2P Require Import Prelude State Utils PosTheory HashPos Traverse Calc Walk.
From S2P Require Import Forest EvalTheory Stump StumpTheory StumpVerify ForestLeaves StumpSpec.
From S2P Require Import Moves MapPollard.

(** ** Parts of a forest *)

Record part (n f : Z) (reg : Z → Prop) (root : Z → bool) (N : Z → option tree) : Prop := {
  pt_in p : reg p → inF n f p;
  pt_down q x : reg q → inF n f x → under f q x → reg x;
  pt_below q x : reg q → inF n f x → under f q x → x ≠ q → root x = false;
  pt_family p : reg p → root p = false →
    reg (parent p f) ∧ reg (sibling p) ∧ root (sibling p) = false;
  pt_top p : reg p → root p = false → root_at n f p = false;
  pt_child p : reg p → root p = false → N p = N (parent p f) ≫= child (Z.odd p);
}.

(** A leaf hash occurs at one position only. *)
Definition one_place (reg : Z → Prop) (N : Z → option tree) : Prop :=
  ∀ p q h, reg p → reg q → N p = Some (Lf h) → N q = Some (Lf h) → p = q.

Lemma forest_part s f : let n := nl s in fits n f → part n f (inF n f) (root_at n f) (node s f).
Proof.
  intros n Hfit. split; try done.
  - intros q x Hq Hx [?|Ha] Hne; [done|]. destruct (root_at n f x) eqn:E; [|done].
    by rewrite (anc_root n f q x) in Ha.
  - intros p Hp Hr. destruct (sibling_props n f p) as (? & ? & _ & ? & _); done.
  - intros p Hp Hr. by apply node_child.
Qed.

Lemma nodup_snd_inj {A B} (l : list (A * B)) p q h :
  NoDup (map snd l) → (p, h) ∈ l → (q, h) ∈ l → p = q.
Proof.
  intros Hnd [i Hi]%list_elem_of_lookup [j Hj]%list_elem_of_lookup.
  assert (i = j) as ->; [|congruence].
  apply (NoDup_lookup _ _ _ h Hnd); change (map snd l) with (snd <$> l);
    rewrite list_lookup_fmap; by rewrite ?Hi, ?Hj.
Qed.

Lemma forest_one_place s f : fits (nl s) f → wf s → NoDup (forest_leaves s) →
  one_place (inF (nl s) f) (node s f).
Proof.
  intros Hfit Hwf Hnd p q h Hp Hq Hnp Hnq. rewrite (forest_leaves_pleaves s f Hfit) in Hnd.
  apply (nodup_snd_inj _ p q h Hnd); by apply leaf_at_pleaves.
Qed.

(** The child of a position on the way to one below it. *)
Lemma under_child n f q x : fits n f → inF n f q → inF n f x → under f q x → x ≠ q →
  ∃ c, inF n f c ∧ root_at n f c = false ∧ parent c f = q ∧
    under f c x ∧ under f q c.
Proof.
  intros Hfit (R & O & -> & HinO) (r & o & -> & Hin) Hu Hne.
  pose proof (in_forest_valid n f _ _ Hfit HinO) as HvO.
  pose proof (in_forest_valid n f _ _ Hfit Hin) as Hv.
  apply under_npos in Hu as [HrR HO]; try done. pose proof HvO as (? & ? & ?). destruct Hin as (? & ? & ?).
  assert (r ≠ R) as HneR.
  { intros ->. apply Hne. rewrite Z.sub_diag, Z.pow_0_r, Z.div_1_r in HO. by subst. }
  assert (in_forest n (R - 1) (o / 2 ^ (R - 1 - r))) as Hinc.
  { apply (in_forest_desc n _ _ 1); [lia|apply Z.div_pos; [lia|apply pow2_pos; lia]|lia|].
    replace (R - 1 + 1) with R by lia. rewrite div_div_pow2 by lia.
    replace (R - 1 - r + 1) with (R - r) by lia. by rewrite <- HO. }
  pose proof (in_forest_valid n f _ _ Hfit Hinc) as Hvc.
  assert (parent (npos f (R - 1) (o / 2 ^ (R - 1 - r))) f = npos f R O) as Hpar.
  { rewrite parent_npos by done. replace (R - 1 + 1) with R by lia. f_equal.
    rewrite <- (Z.pow_1_r 2) at 2. rewrite div_div_pow2 by lia.
    by replace (R - 1 - r + 1) with (R - r) by lia. }
  exists (npos f (R - 1) (o / 2 ^ (R - 1 - r))). split_and!; [by eexists _, _| |done|..].
  - rewrite root_at_npos by done. destruct (is_root _ _ _) eqn:E; [|done]. exfalso.
    apply (root_parent_out n (R - 1) (o / 2 ^ (R - 1 - r))); [lia|done|].
    replace (R - 1 + 1) with R by lia. rewrite <- (Z.pow_1_r 2) at 2. rewrite div_div_pow2 by lia.
    replace (R - 1 - r + 1) with (R - r) by lia. by rewrite <- HO.
  - apply under_npos; try done. split; [lia|done].
  - right. rewrite isAncestor_npos by done. apply andb_true_iff. split; [apply Z.ltb_lt; lia|].
    apply Z.eqb_eq. rewrite HO, div_div_pow2 by lia. do 2 f_equal. lia.
Qed.

Section Holds.
Context `{HashFn} (n f : Z) (reg : Z → Prop) (root : Z → bool) (N : Z → option tree).

Record holds (m : MapPollard) : Prop := {
  hd_rows : TotalRows m = f;
  hd_nodes p l : Nodes m !! p = Some l →
    reg p ∧ leafHash l = ohash (N p) ∧ (root p = false → is_Some (N p));
  hd_roots p : reg p → root p = true → is_Some (Nodes m !! p);
  hd_flag p l : Nodes m !! p = Some l → Remember l = true → ∃ h, N p = Some (Lf h);
  hd_need p l q : Nodes m !! p = Some l → Remember l = true → reg q → under f q p →
    root q = false → is_Some (Nodes m !! sibling q);
  hd_up q : reg q → root q = false → root (parent q f) = false →
    is_Some (Nodes m !! q) → is_Some (Nodes m !! sibling (parent q f));
  hd_cached h p : CachedLeaves m !! h = Some p →
    N p = Some (Lf h) ∧ (∀ a b, parentHash a b ≠ h) ∧
    ∃ l, Nodes m !! p = Some l ∧ Remember l = true;
}.

Context (Hfit : fits n f) (Hpart : part n f reg root N).

Lemma reg_sibling p : reg p → root p = false →
  reg (sibling p) ∧ root (sibling p) = false ∧ parent (sibling p) f = parent p f ∧ reg (parent p f).
Proof.
  intros Hp Hr. destruct (pt_family _ _ _ _ _ Hpart p Hp Hr) as (? & ? & ?).
  destruct (sibling_props n f p) as (_ & _ & _ & _ & ?); try done.
  - by apply (pt_in _ _ _ _ _ Hpart).
  - by apply (pt_top _ _ _ _ _ Hpart).
Qed.

(** The nieces of [y] are the children of its sibling. *)
Lemma nieces_absent m y q : TotalRows m = f → reg y → root y = false →
  niecesPresent m y = false → reg q → root q = false → parent q f = sibling y → Nodes m !! q = None.
Proof.
  intros Hrows Hy Hry Hnp Hq Hrq Hpar.
  destruct (reg_sibling y Hy Hry) as (Hsy & _ & _ & _).
  destruct (inF_family n f q) as (r & o & -> & Hin & Hv & Hrf & Hr0 & Hpq & Hinp & Hvp & _); try done.
  { by apply (pt_in _ _ _ _ _ Hpart). }
  { by apply (pt_top _ _ _ _ _ Hpart). }
  destruct (inF_family n f y) as (ry & oy & -> & Hiny & Hvy & Hryf & _ & _ & _ & _ & Hs & Hins & _); try done.
  { by apply (pt_in _ _ _ _ _ Hpart). }
  { by apply (pt_top _ _ _ _ _ Hpart). }
  rewrite Hpq, Hs in Hpar. apply npos_inj in Hpar as [<- Ho]; [|done|by apply (in_forest_valid n)].
  unfold niecesPresent in Hnp. rewrite Hrows, detectRow_npos in Hnp by done.
  destruct Hv as (? & ? & ?). rewrite (proj2 (Z.eqb_neq _ _)) in Hnp by lia.
  rewrite Hs, <- Ho, rightChild_leftChild, leftChild_npos in Hnp by (done || lia).
  apply orb_false_iff in Hnp as [Hl Hrt]. unfold hasNode in *.
  apply bool_decide_eq_false, eq_None_not_Some in Hl, Hrt.
  pose proof (Z.div_mod o 2 ltac:(lia)) as Hdm. pose proof (Z.mod_pos_bound o 2 ltac:(lia)).
  destruct (Z.eq_dec (o mod 2) 0) as [E|E].
  - replace o with (2 * (o / 2)) by lia. done.
  - replace (npos f r o) with (npos f r (2 * (o / 2)) + 1) by (unfold npos; lia). done.
Qed.

(** Nodes that no remembered leaf needs may go. *)
Lemma holds_shrink m m' :
  holds m → CachedLeaves m' = CachedLeaves m → TotalRows m' = TotalRows m →
  (∀ y, Nodes m' !! y = Nodes m !! y ∨
        Nodes m' !! y = None ∧ reg y ∧ root y = false ∧ Remember (nodeAt m y) = false ∧
        Remember (nodeAt m (sibling y)) = false ∧ niecesPresent m y = false) →
  holds m'.
Proof.
  intros [Hrows Hnodes Hroots Hflag Hneed Hup Hcached] HC HT HN.
  assert (∀ p l, Nodes m' !! p = Some l → Nodes m !! p = Some l) as Hsub.
  { intros p l Hp. destruct (HN p) as [<-|[E _]]; [done|]. by rewrite E in Hp. }
  split.
  - by rewrite HT.
  - intros p l Hp. apply Hnodes. auto.
  - intros p Hp Hr. destruct (HN p) as [->|(_ & _ & E & _)]; [by apply Hroots|]. by rewrite E in Hr.
  - intros p l Hp. apply Hflag. auto.
  - intros p l q Hp%Hsub Hl Hq Hu Hr.
    destruct (HN (sibling q)) as [->|(_ & _ & _ & _ & Hfs & Hnp)]; [by eapply Hneed|].
    exfalso. rewrite sibling_invol in Hfs.
    assert (p ≠ q) as Hne by (intros ->; unfold nodeAt in Hfs; rewrite Hp in Hfs; simpl in Hfs; congruence).
    assert (reg p) as Hregp by (by eapply Hnodes).
    destruct (under_child n f q p Hfit) as (c & Hc & _ & Hcq & Hcp & Huc); try done.
    1,2: by apply (pt_in _ _ _ _ _ Hpart).
    assert (c ≠ q) as Hcne.
    { intros ->. pose proof (parent_gt n f q Hfit Hc). lia. }
    assert (reg c) as Hregc by (by apply (pt_down _ _ _ _ _ Hpart q)).
    assert (root c = false) as Hrc by (by apply (pt_below _ _ _ _ _ Hpart q)).
    destruct (reg_sibling c Hregc Hrc) as (Hsc & Hrsc & Hpsc & _).
    destruct (reg_sibling q Hq Hr) as (Hsq & Hrsq & _).
    destruct (Hneed p l c) as [? Hsome]; try done.
    rewrite (nieces_absent m (sibling q) (sibling c)) in Hsome; try done.
    by rewrite sibling_invol, Hpsc.
  - intros q Hq Hr Hrp [l Hl%Hsub].
    destruct (reg_sibling q Hq Hr) as (_ & _ & _ & Hpq).
    destruct (HN (sibling (parent q f))) as [->|(_ & _ & _ & _ & _ & Hnp)]; [apply Hup; eauto|].
    exfalso. destruct (reg_sibling (parent q f) Hpq Hrp) as (Hsp & Hrsp & _).
    rewrite (nieces_absent m (sibling (parent q f)) q) in Hl; try done. by rewrite sibling_invol.
  - intros h p Hp. rewrite HC in Hp. destruct (Hcached h p Hp) as (HNp & Hleaf & l & Hl & Hrem).
    split_and!; try done. exists l. split; [|done].
    destruct (HN p) as [->|(_ & _ & _ & E & _)]; [done|]. unfold nodeAt in E. rewrite Hl in E.
    simpl in E. congruence.
Qed.
(** ** Pruning *)

Lemma nodeAt_delete m y z : nodeAt (deleteNode y m) z =
  if decide (z = y) then mkLeaf empty false else nodeAt m z.
Proof.
  unfold nodeAt, deleteNode, setNodes. cbn [Nodes].
  destruct (decide (z = y)) as [->|]; by rewrite ?lookup_delete_eq, ?lookup_delete_ne by done.
Qed.

Lemma holds_delete m y : holds m → reg y → root y = false →
  Remember (nodeAt m y) = false → Remember (nodeAt m (sibling y)) = false →
  niecesPresent m y = false → holds (deleteNode y m).
Proof.
  intros Hm Hy Hr H1 H2 H3. apply (holds_shrink m); try done. intros z.
  cbn [Nodes deleteNode setNodes]. destruct (decide (z = y)) as [->|].
  - right. by rewrite lookup_delete_eq.
  - left. by rewrite lookup_delete_ne.
Qed.

(** What pruning leaves alone: the other fields and the remembered leaves. *)
Definition same_fields (m m' : MapPollard) : Prop :=
  CachedLeaves m' = CachedLeaves m ∧ NumLeaves m' = NumLeaves m ∧ TotalRows m' = TotalRows m ∧
  ∀ x l, Nodes m !! x = Some l → Remember l = true → Nodes m' !! x = Some l.

Lemma same_fields_refl m : same_fields m m.
Proof. by split_and!. Qed.

Lemma same_fields_trans m m' m'' : same_fields m m' → same_fields m' m'' → same_fields m m''.
Proof. intros (? & ? & ? & ?) (? & ? & ? & ?). split_and!; [congruence..|auto]. Qed.

Lemma same_fields_delete m y : Remember (nodeAt m y) = false → same_fields m (deleteNode y m).
Proof.
  intros Hy. split_and!; try done. intros x l Hx Hl. cbn [Nodes deleteNode setNodes].
  rewrite lookup_delete_ne; [done|]. intros ->. unfold nodeAt in Hy. rewrite Hx in Hy. simpl in Hy.
  congruence.
Qed.

Lemma holds_prune m p : holds m → reg p → root p = false →
  holds (prunePosition p m) ∧ same_fields m (prunePosition p m).
Proof.
  intros Hm Hp Hr. destruct (reg_sibling p Hp Hr) as (Hs & Hrs & _).
  unfold prunePosition. destruct (negb (Remember (nodeAt m p)) && _) eqn:Hflags;
    [|split; [done|apply same_fields_refl]].
  apply andb_true_iff in Hflags as [Hf1%negb_true_iff Hf2%negb_true_iff].
  set (m1 := if negb (niecesPresent m (sibling p)) then deleteNode (sibling p) m else m).
  assert (holds m1 ∧ same_fields m m1) as [Hm1 Hs1].
  { unfold m1. destruct (negb _) eqn:E; [|split; [done|apply same_fields_refl]].
    apply negb_true_iff in E. split; [|by apply same_fields_delete].
    apply holds_delete; try done. by rewrite sibling_invol. }
  assert (∀ z, Remember (nodeAt m z) = false → Remember (nodeAt m1 z) = false) as Hflag.
  { intros z Hz. unfold m1. destruct (negb _); [|done]. rewrite nodeAt_delete. by case_decide. }
  destruct (negb (niecesPresent m1 p)) eqn:E; [|done]. apply negb_true_iff in E.
  split; [apply holds_delete; auto|].
  eapply same_fields_trans; [done|]. apply same_fields_delete. auto.
Qed.

Lemma leftChild_family p : reg p → 1 ≤ rowOf f p → reg (leftChild p f) ∧ root (leftChild p f) = false.
Proof.
  intros Hp Hrow. pose proof (pt_in _ _ _ _ _ Hpart p Hp) as (r & o & -> & Hin).
  pose proof (in_forest_valid n f r o Hfit Hin) as Hv. rewrite rowOf_npos in Hrow by done.
  destruct Hin as (? & ? & ?).
  assert (leftChild (npos f r o) f = npos f (r - 1) (2 * o)) as ->.
  { replace r with (r - 1 + 1) at 1 by lia. apply leftChild_npos; [|lia].
    by replace (r - 1 + 1) with r by lia. }
  assert (in_forest n (r - 1) (2 * o)) as Hinc.
  { apply (in_forest_desc n _ _ 1); try lia. rewrite Z.pow_1_r, Z.mul_comm, Z.div_mul by lia.
    by replace (r - 1 + 1) with r by lia. }
  pose proof (in_forest_valid n f _ _ Hfit Hinc) as Hvc.
  assert (under f (npos f r o) (npos f (r - 1) (2 * o))) as Hu.
  { apply under_npos; try done. split; [lia|]. replace (r - (r - 1)) with 1 by lia.
    by rewrite Z.pow_1_r, Z.mul_comm, Z.div_mul by lia. }
  assert (inF n f (npos f (r - 1) (2 * o))) by (by eexists _, _).
  split; [by apply (pt_down _ _ _ _ _ Hpart (npos f r o))|].
  apply (pt_below _ _ _ _ _ Hpart (npos f r o)); try done.
  intros E. apply npos_inj in E as [? _]; try done. lia.
Qed.

Lemma holds_pruneNieces m p : holds m → reg p →
  holds (pruneNieces p m) ∧ same_fields m (pruneNieces p m).
Proof.
  intros Hm Hp. unfold pruneNieces. rewrite (hd_rows m Hm).
  pose proof (pt_in _ _ _ _ _ Hpart p Hp) as (r & o & -> & Hin).
  pose proof (in_forest_valid n f r o Hfit Hin) as Hv. rewrite detectRow_npos by done.
  destruct (Z.eqb_spec r 0); [split; [done|apply same_fields_refl]|].
  destruct (leftChild_family (npos f r o)) as [? ?]; [done| |].
  - rewrite rowOf_npos by done. destruct Hin. lia.
  - by apply holds_prune.
Qed.
End Holds.

(** ** Whole forests *)

Section Forest.
Context `{HashFn} (s : forest) (f : Z).
Notation n := (nl s).

(** The state of a map pollard that follows the forest [s]. *)
Definition tracks (m : MapPollard) : Prop :=
  NumLeaves m = n ∧ fits n f ∧ holds f (inF n f) (root_at n f) (node s f) m.

Lemma isRoot_root_at m p : NumLeaves m = n → fits n f → inF n f p →
  isRootPositionTotalRows p (NumLeaves m) f = root_at n f p.
Proof.
  intros -> Hfit (r & o & -> & Hin). rewrite isRootPositionTotalRows_npos by done.
  symmetry. apply root_at_npos. by apply (in_forest_valid n).
Qed.

Lemma forgetUnneededDel_loop_tracks fuel : ∀ p m, tracks m → inF n f p → root_at n f p = false →
  (Z.to_nat (f - rowOf f p) < fuel)%nat →
  wp (forgetUnneededDel_loop fuel (rowOf f p) p) (λ _ m', tracks m' ∧ same_fields m m') m.
Proof.
  induction fuel as [|fuel IH]; intros p m Hm Hp Hr Hfuel; [lia|].
  destruct Hm as (Hn & Hfit & Hm). pose proof (hd_rows _ _ _ _ _ Hm) as Hrows.
  destruct (sibling_props n f p) as (_ & Hpar & _); try done.
  destruct (row_parent s f Hfit p) as [Hrp Hlt]; try done.
  unfold wp. cbn [forgetUnneededDel_loop].
  assert ((rowOf f p <=? TotalRows m) = true) as -> by (apply Z.leb_le; lia).
  rewrite Hrows, isRoot_root_at by done.
  destruct (root_at n f (parent p f)) eqn:Hroot; [split; [done|apply same_fields_refl]|].
  destruct (holds_prune n f (inF n f) (root_at n f) (node s f) Hfit (forest_part s f Hfit) m
    (parent p f)) as (Hm' & Hs); try done. pose proof Hs as (Hc & Hl & Hrw & _).
  pose proof Hfit as [_ [_ Hf]].
  replace (u8 (rowOf f p + 1)) with (rowOf f (parent p f)).
  2:{ rewrite Hrp, u8_small; [done|]. pose proof (rowOf_nonneg n f p Hfit Hp). lia. }
  eapply wp_mono; [apply IH; try done|].
  - split_and!; [by rewrite Hl|done|done].
  - lia.
  - intros [] m'' (Ht & Hs'). split; [done|]. by eapply same_fields_trans.
Qed.

Lemma forgetUnneededDel_tracks p m : tracks m → inF n f p →
  wp (forgetUnneededDel p) (λ _ m', tracks m' ∧ same_fields m m') m.
Proof.
  intros Hm Hp. pose proof Hm as (Hn & Hfit & Hh). pose proof (hd_rows _ _ _ _ _ Hh) as Hrows.
  unfold wp, forgetUnneededDel. rewrite !Hrows, isRoot_root_at by done.
  destruct (root_at n f p) eqn:Hroot; [split; [done|apply same_fields_refl]|].
  assert (detectRow p f = rowOf f p) as ->.
  { pose proof Hp as (r & o & -> & Hin).
    pose proof (in_forest_valid n f r o Hfit Hin). by rewrite detectRow_npos, rowOf_npos. }
  apply forgetUnneededDel_loop_tracks; try done. unfold row_fuel.
  pose proof (rowOf_nonneg n f p Hfit Hp). lia.
Qed.
End Forest.
