(* ===== verification/MapPollardObs.v ===== *)
(** * Roots, proofs and verification of a map pollard

    What a state that follows a forest answers: its stump is the forest's, its proofs are
    those of a prover who has the whole forest, and it accepts what its stump accepts. *)

From S2P Require Import Prelude State Utils PosTheory HashPos Traverse Calc Walk.
From S2P Require Import Forest EvalTheory Stump StumpTheory StumpVerify StumpSpec ForestLeaves.
From S2P Require Import Moves MapPollard Translate MapPollardInv.

Lemma treeRows_le n f : fits n f → 0 ≤ treeRows n ≤ f.
Proof.
  intros Hfit. pose proof Hfit as [[? ?] ?]. destruct (Z.eq_dec n 0) as [->|].
  { change (treeRows 0) with 0. lia. }
  destruct (treeRows_bounds n) as (Hb & _ & Hmin); [pose proof (fits_le n f Hfit); lia|].
  destruct Hmin as [->|Hmin]; [lia|]. split; [lia|].
  destruct (Z.le_gt_cases (treeRows n) f); [done|]. pose proof (pow2_le f (treeRows n - 1)). lia.
Qed.

(** Targets given in the rows of the forest are not changed by a translation from more
    rows: there they are positions of row 0. *)
Lemma translatePos_low n f p : fits n f → inF n (treeRows n) p → treeRows n ≠ f →
  translatePos p f (treeRows n) = p.
Proof.
  intros Hfit Hp Hne. pose proof (treeRows_le n f Hfit) as Hle.
  pose proof (fits_treeRows n ltac:(pose proof (fits_le n f Hfit); lia)) as Hft.
  destruct Hp as (r & o & -> & Hin). pose proof (in_forest_valid n _ r o Hft Hin) as Hv.
  pose proof (npos_range _ r o Hv) as Hrange. pose proof (pow2_le (treeRows n + 1) f).
  pose proof Hfit as [_ [_ ?]].
  set (p := npos (treeRows n) r o) in *.
  assert (valid f 0 p) as Hv0 by (split_and!; [lia|lia|done|lia|rewrite Z.sub_0_r; lia]).
  assert (p = npos f 0 p) as E by (unfold npos; rewrite Z.sub_0_r; lia).
  unfold translatePos. rewrite E, detectRow_npos by done. simpl. by rewrite <- E.
Qed.

(** Sorted enumerations of the needed positions, for any number of rows. *)
Lemma needed_positions s k T : fits (nl s) k → targets_ok s k T → ∃ pp cp,
  proofPositions (copySortedFunc T) (nl s) k = Ok (pp, cp) ∧ StronglySorted Z.lt pp ∧
  ∀ x, x ∈ pp ↔ needed (nl s) k T x.
Proof.
  intros Hk HT. pose proof (targets_pending s k T HT) as Hpd.
  destruct (proofPositions_walk (nl s) k _ Hk Hpd) as (tr & Hw & _ & He).
  exists (sibs tr), (parents k tr). split; [done|].
  split; [by apply (walk_sorted (nl s) k Hk (copySortedFunc T) tr)|].
  intros x. rewrite (sibs_needed (nl s) k Hk _ tr x Hw Hpd). unfold needed.
  by rewrite !(onpath_perm k _ _ _ (copySorted_perm T)).
Qed.

(** Targets stay targets in other rows. *)
Lemma tr_targets_ok s f g T : fits (nl s) f → fits (nl s) g → targets_ok s f T →
  targets_ok s g (map (λ p, translatePos p f g) T).
Proof.
  intros Hf Hg [Hnd Hnode Hanti].
  assert (∀ t, t ∈ T → inF (nl s) f t) as Hin by (intros t Ht; by apply Hnode).
  split.
  - by apply (tr_nodup (nl s)).
  - intros t (x & -> & Hx)%list_elem_of_fmap. split; [by apply tr_inF; auto|].
    rewrite (tr_node (nl s)) by auto. by apply Hnode.
  - intros t t' (x & -> & Hx)%list_elem_of_fmap (x' & -> & Hx')%list_elem_of_fmap.
    rewrite (tr_isAncestor (nl s)) by auto. auto.
Qed.

Section Observers.
Context `{HashFn} (s : forest) (f : Z) (m : MapPollard) (Hm : tracks s f m).
Notation n := (nl s).
Notation g := (treeRows n).

Lemma tracks_fits : fits n f.
Proof. apply Hm. Qed.

Lemma tracks_max : n ≤ 2 ^ 63.
Proof. apply (fits_le n f), Hm. Qed.

Lemma tracks_fits_rows : fits n g.
Proof. apply fits_treeRows. pose proof (nl_nonneg s). pose proof tracks_max. lia. Qed.

Lemma tracks_rows : TotalRows m = f.
Proof. apply (hd_rows _ _ _ _ _ (proj2 (proj2 Hm))). Qed.

Lemma tracks_leaves : NumLeaves m = n.
Proof. apply Hm. Qed.

Lemma tracks_node p l : Nodes m !! p = Some l → inF n f p ∧ leafHash l = label s f p.
Proof.
  intros Hp. destruct Hm as (_ & _ & Hh). destruct (hd_nodes _ _ _ _ _ Hh p l Hp) as (? & ? & _). done.
Qed.

(** ** The stump *)

Lemma GetStump_represents : represents s (GetStump m).
Proof.
  split; [apply tracks_leaves|]. unfold GetStump, GetRoots, getRoots. cbn [Roots fst].
  rewrite tracks_leaves, tracks_rows, <- (RootPositions_trees s f tracks_fits), map_map.
  apply map_ext_in. intros p Hp%list_elem_of_In.
  apply (RootPositions_elem s f tracks_fits) in Hp as [Hin Hr]. pose proof Hm as (_ & _ & Hh).
  destruct (hd_roots _ _ _ _ _ Hh p Hin Hr) as [l Hl]. unfold nodeAt. rewrite Hl. cbn.
  by destruct (tracks_node p l Hl) as [_ ->].
Qed.

(** ** Proofs *)

Section Prove.
Context (hs : list Hash) (Hhs : ∀ h, h ∈ hs → is_Some (CachedLeaves m !! h)) (Hnd : NoDup hs).

Notation origTargets := (map (λ h, default 0 (CachedLeaves m !! h)) hs).

Lemma cached_all : cached m hs = true.
Proof.
  apply forallb_forall. intros h Hh%list_elem_of_In. by apply bool_decide_eq_true, Hhs.
Qed.

Lemma cached_leaf h : h ∈ hs → ∃ p, CachedLeaves m !! h = Some p ∧ leaf_at s f p h ∧
  ∃ l, Nodes m !! p = Some l ∧ Remember l = true.
Proof.
  intros Hh. destruct (Hhs h Hh) as [p Hp]. exists p. split; [done|].
  destruct Hm as (_ & _ & Hd). destruct (hd_cached _ _ _ _ _ Hd h p Hp) as (Hn & _ & l & Hl & Hrem).
  split; [|by exists l]. split; [|done]. by apply (tracks_node p l).
Qed.

Lemma cached_targets : Forall2 (leaf_at s f) origTargets hs.
Proof.
  assert (∀ h, h ∈ hs → leaf_at s f (default 0 (CachedLeaves m !! h)) h) as Hall.
  { intros h Hh. destruct (cached_leaf h Hh) as (p & -> & ? & _). done. }
  clear Hhs Hnd. induction hs as [|h l IH]; simpl; constructor.
  - apply Hall. by left.
  - apply IH. intros. apply Hall. by right.
Qed.

Lemma cached_nodup : NoDup origTargets.
Proof.
  apply NoDup_fmap_2_strong; [|done]. intros h h' Hh Hh' E.
  destruct (cached_leaf h Hh) as (p & Hp & [_ Hn] & _).
  destruct (cached_leaf h' Hh') as (p' & Hp' & [_ Hn'] & _).
  rewrite Hp, Hp' in E. simpl in E. subst p'. congruence.
Qed.

Lemma cached_ok : targets_ok s f origTargets.
Proof. apply (leaves_ok _ _ _ hs); [apply tracks_fits|apply cached_nodup|apply cached_targets]. Qed.

(** A needed position is the sibling of one on the path of a cached leaf. *)
Lemma cached_needed x : needed n f origTargets x → is_Some (Nodes m !! x).
Proof.
  intros (Hx & Hr & Hon & _). pose proof tracks_fits as Hfit.
  destruct (sibling_props n f x Hfit Hx Hr) as (Hs & _ & _ & Hrs & _).
  apply onpath_under in Hon as (t & (h & -> & Hh)%list_elem_of_fmap & Hu).
  destruct (cached_leaf h Hh) as (p & Hp & _ & l & Hl & Hrem). rewrite Hp in Hu. simpl in Hu.
  destruct Hm as (_ & _ & Hd). rewrite <- (sibling_invol x).
  by apply (hd_need _ _ _ _ _ Hd p l).
Qed.

Lemma grabHashes_label ps : (∀ x, x ∈ ps → is_Some (Nodes m !! x)) →
  grabHashes m ps = Ok (map (label s f) ps).
Proof.
  induction ps as [|p ps IH]; intros Hps; [done|]. cbn [grabHashes map].
  destruct (Hps p ltac:(by left)) as [l Hl]. rewrite Hl. rewrite IH by (intros; apply Hps; by right).
  simpl. by destruct (tracks_node p l Hl) as [_ ->].
Qed.

(** Sorted enumerations of the needed positions for both numbers of rows. *)
Lemma prove_positions : ∃ pp cp pp' cp',
  proofPositions (copySortedFunc origTargets) n f = Ok (pp, cp) ∧
  (∀ x, x ∈ pp → needed n f origTargets x) ∧
  proofPositions (copySortedFunc (map (λ p, translatePos p f g) origTargets)) n g = Ok (pp', cp') ∧
  map (label s g) pp' = map (label s f) pp.
Proof.
  pose proof tracks_fits as Hf. pose proof tracks_fits_rows as Hg.
  assert (∀ t, t ∈ origTargets → inF n f t) as Hin by (intros t Ht; by apply (to_node _ _ _ cached_ok)).
  destruct (needed_positions s f _ Hf cached_ok) as (pp & cp & He & Hs & Hel).
  destruct (needed_positions s g _ Hg (tr_targets_ok s f g _ Hf Hg cached_ok)) as (pp' & cp' & He' & Hs' & Hel').
  exists pp, cp, pp', cp'. split_and!; try done; [by intros x; rewrite Hel|].
  assert (∀ x, x ∈ pp → inF n f x) as Hinp by (intros x; rewrite Hel; by intros []).
  assert (pp' = map (λ p, translatePos p f g) pp) as ->.
  { apply sorted_ext; [done|by apply (tr_sorted n)|]. intros y. rewrite Hel', (tr_needed n) by done.
    rewrite list_elem_of_fmap. setoid_rewrite Hel. naive_solver. }
  rewrite map_map. apply map_ext_in. intros x Hx%list_elem_of_In. unfold label.
  by rewrite (tr_node n) by auto.
Qed.

Lemma Prove_tracks : ∃ ts prf, Prove m hs = Ok (mkProof ts prf) ∧ NoDup ts ∧
  Forall2 (leaf_at s g) ts hs ∧ prover_proof s ts prf.
Proof.
  pose proof tracks_fits as Hf. pose proof tracks_fits_rows as Hg.
  destruct prove_positions as (pp & cp & pp' & cp' & He & Hin & He' & Hlab).
  exists (map (λ p, translatePos p f g) origTargets), (map (label s f) pp). split_and!.
  - unfold Prove. rewrite cached_all, tracks_leaves, tracks_rows. cbn [negb].
    rewrite He. cbn [bind]. rewrite grabHashes_label by (intros; apply cached_needed; auto).
    cbn [bind]. destruct (negb (f =? g)) eqn:E; [done|].
    apply negb_false_iff, Z.eqb_eq in E. rewrite <- E. do 2 f_equal. symmetry.
    rewrite <- (map_id origTargets) at 2. apply map_ext_in. intros t Ht%list_elem_of_In.
    destruct (to_node _ _ _ cached_ok t Ht) as [(r & o & -> & Hi) _].
    apply translatePos_npos; by apply (in_forest_valid n).
  - apply (tr_nodup n); [done|done| |apply cached_nodup].
    intros t Ht. by apply (to_node _ _ _ cached_ok).
  - apply Forall2_fmap_l. eapply Forall2_impl; [apply cached_targets|]. intros p h [Hp Hn].
    split; [by apply (tr_inF n)|]. by rewrite (tr_node n).
  - exists pp', cp'. split; [done|]. by rewrite Hlab.
Qed.
End Prove.

(** ** Verification *)

Lemma Verify_run hs ts prf remember : (∀ t, t ∈ ts → inF n g t) →
  Verify hs (mkProof ts prf) remember m =
  match Stump.Verify (GetStump m) hs (mkProof ts prf) with
  | Ok _ => if remember then Ingest hs (mkProof ts prf) m else (m, Ok tt)
  | Err e => (m, Err e)
  | Panic => (m, Panic)
  | Spin => (m, Spin)
  end.
Proof.
  intros Hts. unfold Verify. st_run.
  rewrite tracks_leaves, tracks_rows. cbn [Targets ProofHashes].
  assert ((if negb (g =? f) then mkProof (translatePositions ts f g) prf else mkProof ts prf)
          = mkProof ts prf) as ->.
  { destruct (Z.eqb_spec g f) as [|Hgf]; [done|]. cbn [negb]. f_equal. unfold translatePositions.
    rewrite <- (map_id ts) at 2. apply map_ext_in. intros t Ht%list_elem_of_In.
    apply (translatePos_low n f t); [apply tracks_fits|auto|done]. }
  unfold mbind, st_bind, lift. destruct (Stump.Verify _ _ _); [by destruct remember|done..].
Qed.
End Observers.
