(* ===== verification/MapPollardHashes.v ===== *)
(** * Updating the hashes above a position of a map pollard

    [updateHashes] walks from a position to its root, with the hash of the position, and
    writes the hash of every node that it meets and that the state keeps.  From a root it
    walks out of the forest and finds nothing. *)

From S2P Require Import Prelude State Utils PosTheory HashPos Traverse Calc Walk.
From S2P Require Import Forest EvalTheory Stump StumpTheory StumpVerify Moves MapPollard MapPollardInv.

Section Hashes.
Context `{HashFn} (s : forest) (f : Z) (Hfit : fits (nl s) f).
Notation n := (nl s).
Notation L := (label s f).

Lemma parent_hash q t : inF n f q → root_at n f q = false → node s f q = Some t →
  L (parent q f) = (if isLeftNiece q then parentHash (L q) (L (sibling q))
                    else parentHash (L (sibling q)) (L q)) ∧
  is_Some (node s f (parent q f)).
Proof.
  intros Hq Hr Ht. destruct (node_family s f Hfit q t Hq Hr Ht) as (t' & Ht' & Hp).
  unfold label. rewrite Ht, Ht', Hp, isLeftNiece_even. by destruct (Z.even q).
Qed.

Record rehashed (q : Z) (m m' : MapPollard) : Prop := {
  rh_cached : CachedLeaves m' = CachedLeaves m;
  rh_leaves : NumLeaves m' = NumLeaves m;
  rh_rows : TotalRows m' = TotalRows m;
  rh_above y : inF n f y → isAncestor y q f = true →
    Nodes m' !! y = (λ _, mkLeaf (L y) false) <$> Nodes m !! y;
  rh_rest y : ¬ (inF n f y ∧ isAncestor y q f = true) → Nodes m' !! y = Nodes m !! y;
}.

(** Writing the hash of one node if it is there. *)
Lemma rehash_one m p h : let m1 := if hasNode m p then putNode p (mkLeaf h false) m else m in
  CachedLeaves m1 = CachedLeaves m ∧ NumLeaves m1 = NumLeaves m ∧ TotalRows m1 = TotalRows m ∧
  Nodes m1 !! p = (λ _, mkLeaf h false) <$> Nodes m !! p ∧
  ∀ y, y ≠ p → Nodes m1 !! y = Nodes m !! y.
Proof.
  unfold hasNode. destruct (Nodes m !! p) as [l|] eqn:E; simpl.
  - split_and!; try done; cbn [Nodes putNode setNodes]; [by rewrite lookup_insert_eq|].
    intros y Hy. by rewrite lookup_insert_ne.
  - by split_and!; rewrite ?E.
Qed.

(** The siblings on the way to the root. *)
Definition siblings_known (q : Z) (m : MapPollard) : Prop :=
  ∀ y, inF n f y → under f y q → root_at n f y = false →
    ∃ l, Nodes m !! sibling y = Some l ∧ leafHash l = L (sibling y).

Lemma updateHashes_loop_live fuel : ∀ q m, TotalRows m = f → NumLeaves m = n →
  inF n f q → root_at n f q = false → is_Some (node s f q) → siblings_known q m →
  (Z.to_nat (f - rowOf f q) < fuel)%nat →
  ∃ m', updateHashes_loop fuel (rowOf f q) q (L q) m = (m', Ok tt) ∧ rehashed q m m'.
Proof.
  induction fuel as [|fuel IH]; intros q m Hrows Hn Hq Hr [t Ht] Hsib Hfuel; [lia|].
  destruct (sibling_props n f q Hfit Hq Hr) as (_ & Hp & _).
  destruct (row_parent s f Hfit q Hq Hr) as [Hrp Hlt]. pose proof (rowOf_nonneg n f q Hfit Hq).
  pose proof Hfit as [_ [_ Hf]].
  cbn [updateHashes_loop]. assert ((rowOf f q <=? TotalRows m) = true) as -> by (apply Z.leb_le; lia).
  destruct (Hsib q Hq (under_refl f q) Hr) as (l & Hl & Hlab).
  assert (nodeAt m (sibling q) = l) as -> by (unfold nodeAt; by rewrite Hl).
  destruct (parent_hash q t Hq Hr Ht) as [HL Hpn]. rewrite Hlab, <- HL, Hrows.
  set (p := parent q f) in *.
  pose proof (rehash_one m p (L p)) as Hone. cbv zeta in Hone.
  set (m1 := if hasNode m p then _ else m) in *. destruct Hone as (HC1 & HN1 & HT1 & Hp1 & Ho1).
  rewrite HT1, Hrows, HN1, (isRoot_root_at s f m) by done.
  assert (∀ y, inF n f y → isAncestor y q f = true ↔ y = p ∨ isAncestor y p f = true) as Hanc
    by (intros y Hy; by apply (anc_parent n f)).
  destruct (root_at n f p) eqn:Hrootp.
  - exists m1. split; [done|]. split; try done.
    + intros y Hy [->|Ha]%Hanc; [done| |done]. by rewrite (anc_root n f y p) in Ha.
    + intros y Hy. apply Ho1. intros ->. apply Hy. split; [done|]. apply Hanc; auto.
  - replace (u8 (rowOf f q + 1)) with (rowOf f p) by (rewrite Hrp, u8_small; lia).
    destruct (IH p m1) as (m' & E & [HC HN HT Ha Hre]); try done; try congruence; [|lia|].
    + intros y Hy Hu Hry. destruct (Hsib y Hy) as (l' & Hl' & ?); [|done|].
      { apply (under_trans n f Hfit y p q); try done. right. apply Hanc; auto. }
      exists l'. split; [|done]. rewrite Ho1; [done|]. intros Ep.
      apply (not_under_sibling n f Hfit y Hy Hry). by rewrite Ep.
    + exists m'. split; [done|]. split; try congruence.
      * intros y Hy [->|Hy']%Hanc; [|by rewrite Ha, Ho1 by (done || intros ->;
          unfold isAncestor in Hy'; by rewrite Z.eqb_refl in Hy')|done].
        rewrite Hre; [done|]. intros [_ Ha']. unfold isAncestor in Ha'. by rewrite Z.eqb_refl in Ha'.
      * intros y Hy. rewrite Hre, Ho1; [done|..].
        -- intros ->. apply Hy. split; [done|]. apply Hanc; auto.
        -- intros [Hy' Ha']. apply Hy. split; [done|]. apply Hanc; auto.
Qed.

(** Past a root no position is in the forest. *)
Lemma updateHashes_loop_dead fuel : ∀ r o hash m, TotalRows m = f →
  (∀ y l, Nodes m !! y = Some l → inF n f y) → valid f r o → ¬ in_forest n (r + 1) (o / 2) →
  (Z.to_nat (f - r) < fuel)%nat →
  updateHashes_loop (S fuel) r (npos f r o) hash m = (m, Ok tt).
Proof.
  induction fuel as [|fuel IH]; intros r o hash m Hrows Hnodes Hv Hout Hfuel; [lia|].
  pose proof Hv as (? & ? & ?).
  remember (S fuel) as fuel' eqn:Hfuel'. cbn [updateHashes_loop].
  assert ((r <=? TotalRows m) = true) as -> by (apply Z.leb_le; lia).
  rewrite Hrows, parent_npos by done.
  assert (hasNode m (npos f (r + 1) (o / 2)) = false) as ->.
  { apply bool_decide_eq_false. intros [l Hl]. apply Hnodes in Hl as (r' & o' & E & Hin).
    pose proof (in_forest_valid n f r' o' Hfit Hin) as Hv'.
    destruct (Z.eq_dec r f) as [->|Hne].
    - pose proof (npos_range f r' o' Hv'). rewrite <- E in *. unfold npos in *.
      replace (f + 1 - (f + 1)) with 0 in * by lia.
      assert (0 ≤ o / 2) by (apply Z.div_pos; lia). lia.
    - apply npos_inj in E as [<- <-]; [done|apply valid_parent; [done|lia]|done]. }
  destruct (isRootPositionTotalRows _ _ _); [done|].
  rewrite u8_small by lia. subst fuel'.
  destruct (Z.eq_dec r f) as [->|Hne].
  - cbn [updateHashes_loop]. by assert ((f + 1 <=? TotalRows m) = false) as -> by (apply Z.leb_gt; lia).
  - apply IH; try done; [apply valid_parent; [done|lia]| |lia].
    intros (? & ? & Hin). apply Hout. split_and!; [lia|apply Z.div_pos; lia|].
    pose proof (pow2_succ (r + 1) ltac:(lia)). pose proof (pow2_pos (r + 1) ltac:(lia)).
    pose proof (Z.div_mod (o / 2) 2 ltac:(lia)). pose proof (Z.mod_pos_bound (o / 2) 2 ltac:(lia)). nia.
Qed.

(** [updateHashes] for the node that took the place of the parent of [d]. *)
Lemma updateHashes_rehashed d m : TotalRows m = f → NumLeaves m = n →
  (∀ y l, Nodes m !! y = Some l → inF n f y) →
  inF n f d → root_at n f d = false → is_Some (node s f (parent d f)) →
  siblings_known (parent d f) m →
  ∃ m', updateHashes d (L (parent d f)) m = (m', Ok tt) ∧ rehashed (parent d f) m m'.
Proof.
  intros Hrows Hn Hnodes Hd Hr Hp Hsib. unfold updateHashes. rewrite Hrows.
  destruct (sibling_props n f d Hfit Hd Hr) as (_ & HP & _). set (p := parent d f) in *.
  pose proof (rowOf_nonneg n f p Hfit HP) as Hpos. pose proof Hfit as [_ [Hf0 Hf]].
  assert (detectRow p f = rowOf f p) as ->.
  { destruct HP as (r & o & -> & Hin). pose proof (in_forest_valid n f r o Hfit Hin).
    by rewrite detectRow_npos, rowOf_npos. }
  destruct (root_at n f p) eqn:Hroot; [|apply updateHashes_loop_live; try done; unfold row_fuel; lia].
  exists m. split.
  - destruct HP as (r & o & E & Hin). pose proof (in_forest_valid n f r o Hfit Hin) as Hv.
    rewrite E in *. rewrite rowOf_npos by done. rewrite root_at_npos in Hroot by done.
    assert (row_fuel f = S (Z.to_nat f + 1)) as -> by (unfold row_fuel; lia).
    destruct Hin as (? & ? & ?).
    apply updateHashes_loop_dead; try done; [by apply root_parent_out|lia].
  - split; try done. intros y Hy Ha. by rewrite (anc_root n f y p) in Ha.
Qed.
End Hashes.
