(* ===== verification/MapPollardRemove.v ===== *)
(** * Deleting from a map pollard

    [removeSingle] on a state that follows a forest leaves a state that follows the forest
    without the deleted position: the nodes below it go, its sibling's subtree moves up,
    the hashes above are recomputed and the nodes that nobody needs are pruned. *)

From S2P Require Import Prelude State Utils PosTheory HashPos Traverse Calc Walk.
From S2P Require Import Forest EvalTheory Stump StumpTheory StumpVerify ForestLeaves StumpSpec.
From S2P Require Import Moves Deletions MapPollard MapPollardMoves Translate MapPollardInv MapPollardObs.
From S2P Require Import MapPollardHashes.

(** ** Forgetting what is below a position *)

Section Below.
Context (n f : Z) (Hfit : fits n f).

(** Strictly below [p]. *)
Definition beneath (p y : Z) : Prop := inF n f y ∧ isAncestor p y f = true.

Lemma beneath_kids p y : inF n f p → rowOf f p ≠ 0 →
  let l := leftChild p f in inF n f l ∧ inF n f (sibling l) ∧
  rowOf f l = rowOf f p - 1 ∧ rowOf f (sibling l) = rowOf f p - 1 ∧
  (beneath p y ↔ y = l ∨ y = sibling l ∨ beneath l y ∨ beneath (sibling l) y).
Proof.
  intros Hp Hrow l. assert (l ∈ kids f p) as Hl.
  { unfold kids. rewrite (proj2 (Z.eqb_neq _ _)) by done. by left. }
  apply (kids_elem n f Hfit p l Hp) in Hl as (Hl & Hrl & Hpl).
  destruct (sibling_props n f l) as (Hs & _ & Hrs & _); try done.
  assert (rowOf f l = rowOf f p - 1) as Hr.
  { destruct (inF_family n f l) as (r & o & E & _ & Hv & _ & _ & Hpar & _ & Hvp & _); try done.
    rewrite <- Hpl, Hpar, E, !rowOf_npos by done. lia. }
  split_and!; try done; [lia|].
  assert (∀ q, inF n f q → rowOf f q = rowOf f p - 1 → q ≠ p) as Hne by (intros q _ ? ->; lia).
  split.
  - intros [Hy Ha]. assert (under f p y) as Hu by (by right). rewrite <- Hpl in Hu.
    apply (under_split n f Hfit l Hl Hrl y Hy) in Hu as [->|[[?|?]|[?|?]]]; auto.
    + rewrite Hpl in Ha. unfold isAncestor in Ha. by rewrite Z.eqb_refl in Ha.
    + right; right; left. by split.
    + right; right; right. by split.
  - intros Hy. assert (inF n f y ∧ (under f l y ∨ under f (sibling l) y)) as [Hin Hu].
    { destruct Hy as [->|[->|[[? ?]|[? ?]]]]; (split; [done|]); [left|right|left|right];
        try apply under_refl; by right. }
    split; [done|]. destruct (under_split n f Hfit l Hl Hrl y Hin) as [_ Hb].
    destruct Hb as [->|Ha]; [tauto| |by rewrite <- Hpl].
    exfalso. destruct Hu as [Hu|Hu]; apply (under_row n f Hfit) in Hu; try done; rewrite Hpl in Hu; lia.
Qed.

Lemma forgetBelow_loop_spec fuel : ∀ p m, TotalRows m = f → inF n f p →
  (Z.to_nat (rowOf f p) < fuel)%nat → ∃ m', forgetBelow_loop fuel p m = (m', Ok tt) ∧
    CachedLeaves m' = CachedLeaves m ∧ NumLeaves m' = NumLeaves m ∧ TotalRows m' = TotalRows m ∧
    (∀ y, beneath p y → Nodes m' !! y = None) ∧ (∀ y, ¬ beneath p y → Nodes m' !! y = Nodes m !! y).
Proof.
  induction fuel as [|fuel IH]; intros p m Hrows Hp Hfuel; [lia|].
  pose proof (rowOf_nonneg n f p Hfit Hp) as Hpos. cbn [forgetBelow_loop]. st_run.
  assert (detectRow p (TotalRows m) = rowOf f p) as ->.
  { rewrite Hrows. destruct Hp as (r & o & -> & Hin).
    pose proof (in_forest_valid n f r o Hfit Hin). by rewrite detectRow_npos, rowOf_npos. }
  destruct (decide (rowOf f p = 0)) as [E|E].
  { exists m. split_and!; try done. intros y [Hy Ha]. apply (anc_lt n) in Ha as [_ Hlt]; try done.
    pose proof (rowOf_nonneg n f y Hfit Hy). lia. }
  st_run. rewrite Hrows. destruct (beneath_kids p 0 Hp E) as (Hl & Hs & Hrl & Hrs & _).
  set (l := leftChild p f) in *. set (m1 := deleteNode (sibling l) (deleteNode l m)).
  destruct (IH l m1) as (m2 & E2 & HC2 & HN2 & HT2 & Hin2 & Hout2); try done; [lia|].
  rewrite (st_bind_ok _ _ _ _ _ E2).
  destruct (IH (sibling l) m2) as (m3 & E3 & HC3 & HN3 & HT3 & Hin3 & Hout3); try done; [by rewrite HT2|lia|].
  exists m3. rewrite E3. split_and!; [done|by rewrite HC3, HC2|by rewrite HN3, HN2|by rewrite HT3, HT2|..].
  - intros y Hy. destruct (beneath_kids p y Hp E) as (_ & _ & _ & _ & Hiff). fold l in Hiff.
    pose proof Hy as [Hin _]. apply Hiff in Hy.
    destruct (decide (isAncestor (sibling l) y f = true)) as [?|Hn]; [by apply Hin3|].
    rewrite Hout3 by (by intros [_ ?]).
    destruct (decide (isAncestor l y f = true)) as [?|Hn']; [by apply Hin2|].
    rewrite Hout2 by (by intros [_ ?]). unfold m1. cbn [Nodes deleteNode setNodes].
    destruct Hy as [->|[->|[[_ ?]|[_ ?]]]]; try done; [|apply lookup_delete_eq].
    destruct (decide (l = sibling l)) as [<-|]; [apply lookup_delete_eq|].
    rewrite lookup_delete_ne by done. apply lookup_delete_eq.
  - intros y Hy. destruct (beneath_kids p y Hp E) as (_ & _ & _ & _ & Hiff). fold l in Hiff.
    rewrite Hout3, Hout2 by tauto. unfold m1. cbn [Nodes deleteNode setNodes].
    rewrite !lookup_delete_ne; [done|intros <-; tauto|intros <-; tauto].
Qed.

Lemma forgetBelow_spec p m : TotalRows m = f → inF n f p → ∃ m', forgetBelow p m = (m', Ok tt) ∧
  CachedLeaves m' = CachedLeaves m ∧ NumLeaves m' = NumLeaves m ∧ TotalRows m' = TotalRows m ∧
  (∀ y, beneath p y → Nodes m' !! y = None) ∧ (∀ y, ¬ beneath p y → Nodes m' !! y = Nodes m !! y).
Proof.
  intros Hrows Hp. apply forgetBelow_loop_spec; try done.
  destruct Hp as (r & o & -> & Hin). pose proof (in_forest_valid n f r o Hfit Hin) as Hv.
  rewrite rowOf_npos by done. destruct Hv as (? & ? & _). lia.
Qed.
End Below.

(** ** Moving the sibling up *)

Section Remove.
Context `{HashFn} (s : forest) (f : Z) (Hwf : wf s).
Notation n := (nl s).

(** The hash of a node is cached for its own position or not at all. *)
Lemma cached_place m p l q : tracks s f m → one_place (inF n f) (node s f) →
  Nodes m !! p = Some l → CachedLeaves m !! leafHash l = Some q → q = p.
Proof.
  intros (_ & Hfit & Hh) Hone Hp Hq. destruct (hd_nodes _ _ _ _ _ Hh p l Hp) as (Hinp & Hlab & _).
  destruct (hd_cached _ _ _ _ _ Hh _ q Hq) as (Hnq & Hleafy & l' & Hq' & _).
  destruct (hd_nodes _ _ _ _ _ Hh q l' Hq') as (Hinq & _ & _).
  destruct (node s f p) as [[h|a b]|] eqn:Hnp; simpl in Hlab.
  - apply (Hone q p (leafHash l)); try done. by rewrite Hlab.
  - by destruct (Hleafy (thash a) (thash b)).
  - destruct (node_height s f Hfit q (Lf (leafHash l)) Hwf Hinq Hnq) as [_ Hlive].
    rewrite Hlab in Hlive. unfold live in Hlive. simpl in Hlive. by destruct Hlive; left.
Qed.

Section Single.
Context (m : MapPollard) (Hm : tracks s f m) (Hone : one_place (inF n f) (node s f)).
Context (d : Z) (Hd : inF n f d) (Hroot : root_at n f d = false).
Context (Hclean : ∀ h p, CachedLeaves m !! h = Some p → ¬ under f d p).
Notation P := (parent d f).
Notation S := (sibling d).
Context (lS : Leaf) (HlS : Nodes m !! S = Some lS).

Let Hfit : fits n f := proj1 (proj2 Hm).
Let Hh := proj2 (proj2 Hm).

Record relocated (m3 : MapPollard) : Prop := {
  rl_leaves : NumLeaves m3 = NumLeaves m;
  rl_rows : TotalRows m3 = TotalRows m;
  rl_node x : inF n f x → ¬ under f d x → x ≠ P → Nodes m3 !! mv f d x = Nodes m !! x;
  rl_back y l : Nodes m3 !! y = Some l →
    ∃ x, inF n f x ∧ ¬ under f d x ∧ x ≠ P ∧ y = mv f d x ∧ Nodes m !! x = Some l;
  rl_cached h : CachedLeaves m3 !! h = mv f d <$> CachedLeaves m !! h;
}.

Lemma sibling_node : ∃ t, node s f S = Some t ∧ leafHash lS = thash t.
Proof.
  destruct (lower_family n f Hfit d Hd Hroot) as (HS & _ & _ & _ & HrS & _).
  destruct (hd_nodes _ _ _ _ _ Hh S lS HlS) as (_ & Hlab & [t Ht]); [done|].
  exists t. split; [done|]. by rewrite Hlab, Ht.
Qed.

Lemma parent_node : ∃ a b, node s f P = Some (Nd a b).
Proof.
  destruct sibling_node as (t & Ht & _).
  destruct (lower_family n f Hfit d Hd Hroot) as (HS & HP & _ & _ & HrS & HpS & _).
  destruct (node_family s f Hfit S t) as (t' & _ & Hp); try done. rewrite HpS in Hp.
  destruct (Z.even S); eauto.
Qed.

(** A cached leaf is not at the parent. *)
Lemma cached_pos h p : CachedLeaves m !! h = Some p →
  inF n f p ∧ ¬ under f d p ∧ p ≠ P ∧ node s f p = Some (Lf h) ∧
  ∃ l, Nodes m !! p = Some l ∧ Remember l = true ∧ leafHash l = h.
Proof.
  intros Hp. destruct (hd_cached _ _ _ _ _ Hh h p Hp) as (Hn & _ & l & Hl & Hrem).
  destruct (hd_nodes _ _ _ _ _ Hh p l Hl) as (Hin & Hlab & _). rewrite Hn in Hlab.
  split_and!; try done; [by apply (Hclean h)| |by exists l].
  intros ->. destruct parent_node as (a & b & HP). congruence.
Qed.

(** The state before [moveUpDescendants]. *)
Notation lifted m1 :=
  (recache (leafHash lS) P (putNode P lS (deleteNode S (deleteNode d m1)))).

Section Lifted.
Context (m1 : MapPollard) (HC1 : CachedLeaves m1 = CachedLeaves m).
Context (Hin1 : ∀ y, beneath n f d y → Nodes m1 !! y = None).
Context (Hout1 : ∀ y, ¬ beneath n f d y → Nodes m1 !! y = Nodes m !! y).

Lemma lifted_nodes : Nodes (lifted m1) = <[P := lS]> (delete S (delete d (Nodes m1))).
Proof. by destruct (recache_fields (leafHash lS) P (putNode P lS (deleteNode S (deleteNode d m1)))) as (-> & _). Qed.

Lemma lifted_other y : y ≠ P → y ≠ S → y ≠ d → ¬ beneath n f d y →
  Nodes (lifted m1) !! y = Nodes m !! y.
Proof.
  intros HyP HyS Hyd Hb. rewrite lifted_nodes, lookup_insert_ne, !lookup_delete_ne by done. auto.
Qed.

Lemma lifted_base y : base d (lifted m1) y = None.
Proof.
  destruct (lower_family n f Hfit d Hd Hroot) as (_ & _ & HrS & HrP & _).
  unfold base. case_decide as Hy; [|done]. rewrite lifted_nodes. destruct Hy as [->| ->].
  - rewrite lookup_insert_ne by (intros E; rewrite E in HrP; lia).
    destruct (decide (S = d)) as [->|]; [apply lookup_delete_eq|].
    rewrite lookup_delete_ne by done. apply lookup_delete_eq.
  - rewrite lookup_insert_ne by (intros E; rewrite E in HrP; lia). apply lookup_delete_eq.
Qed.

Lemma lifted_cached h : CachedLeaves (lifted m1) !! h =
  (λ p, if decide (p = S) then P else p) <$> CachedLeaves m !! h.
Proof.
  unfold recache. cbn [CachedLeaves putNode deleteNode setNodes]. rewrite HC1.
  assert (∀ q, CachedLeaves m !! leafHash lS = Some q → q = S) as Hq
    by (intros q Hq; by apply (cached_place m S lS)).
  assert (∀ h', CachedLeaves m !! h' = Some S → h' = leafHash lS) as Hback.
  { intros h' Hh'. destruct (cached_pos h' S Hh') as (_ & _ & _ & _ & l & Hl & _ & <-). congruence. }
  destruct (CachedLeaves m !! leafHash lS) as [q|] eqn:Eq.
  - rewrite (Hq q eq_refl) in Eq. cbn [CachedLeaves putCached setCached putNode deleteNode setNodes].
    rewrite HC1. destruct (decide (h = leafHash lS)) as [->|Hne].
    + rewrite lookup_insert_eq, Eq. simpl. by rewrite decide_True.
    + rewrite lookup_insert_ne by done. destruct (CachedLeaves m !! h) as [p|] eqn:E; [|done].
      simpl. rewrite decide_False; [done|]. intros ->. auto.
  - cbn [CachedLeaves putNode deleteNode setNodes]. rewrite HC1.
    destruct (CachedLeaves m !! h) as [p|] eqn:E; [|done]. simpl. rewrite decide_False; [done|].
    intros ->. rewrite (Hback h E) in E. congruence.
Qed.

Lemma lower_other y : lower n f d y → ¬ under f d y →
  Nodes (lifted m1) !! y = Nodes m !! y.
Proof.
  intros Hy Hn. destruct (lower_split n f Hfit d Hd Hroot y Hy) as (_ & ? & ? & ?).
  apply lifted_other; try done. intros [_ ?]. apply Hn. by right.
Qed.

Lemma mvS : mv f d S = P.
Proof. by apply (mv_sibling n f Hfit d Hd Hroot). Qed.

Lemma under_parent_self : under f P d ∧ under f P S.
Proof.
  destruct (lower_family n f Hfit d Hd Hroot) as (HS & _).
  split; apply (under_split n f Hfit d Hd Hroot); try done; [right; left|right; right]; apply under_refl.
Qed.

(** The subtrees of [d] and of its sibling are disjoint. *)
Lemma siblings_apart x : inF n f x → under f S x → ¬ under f d x.
Proof.
  intros Hx HuS Hud. destruct (lower_family n f Hfit d Hd Hroot) as (HS & _ & HrS & _ & HrootS & _).
  pose proof (under_comparable n f Hfit S d x HS Hd Hx HuS Hud ltac:(lia)) as Hu.
  by apply (not_under_sibling n f Hfit d Hd Hroot).
Qed.

Lemma survivor_cases x : inF n f x → ¬ under f d x → x ≠ P →
  x = S ∨ (lower n f d x ∧ under f S x) ∨ (¬ under f P x ∧ mv f d x = x).
Proof.
  intros Hx Hnd HxP. destruct (decide (under f P x)) as [Hu|Hu].
  - destruct (decide (x = S)) as [|HxS]; [by left|right; left].
    pose proof Hu as Hu'. apply (under_split n f Hfit d Hd Hroot x Hx) in Hu as [?|[?|Hu]]; try done.
    split; [|done]. split_and!; [done..|].
    destruct (lower_family n f Hfit d Hd Hroot) as (HS & _ & HrS & _).
    destruct Hu as [?|Ha]; [done|]. apply (anc_lt n) in Ha as [_ ?]; try done. lia.
  - right; right. split; [done|]. by apply (mv_outside n).
Qed.

Section Relocated.
Context (D : list Z) (m3 : MapPollard).
Context (Hmv : moved n f d (lifted m1) D m3) (HD : ∀ y, y ∈ D ↔ lower n f d y).

Lemma relocated_parent : Nodes m3 !! P = Some lS.
Proof.
  destruct (lower_family n f Hfit d Hd Hroot) as (_ & _ & HrS & HrP & _).
  rewrite (mo_rest _ _ _ _ _ _ Hmv), lifted_nodes, lookup_insert_eq;
    [done|rewrite HD; intros (_ & _ & ?); lia|intros E; rewrite E in HrP; lia..].
Qed.

Lemma relocated_lower x : lower n f d x → under f S x → Nodes m3 !! mv f d x = Nodes m !! x.
Proof.
  intros Hx Hu. rewrite (mo_up _ _ _ _ _ _ Hmv), lifted_base, (right_id_L None (∪)) by (done || by apply HD).
  apply lower_other; [done|]. apply siblings_apart; [by destruct Hx|done].
Qed.

Lemma relocated_node x : inF n f x → ¬ under f d x → x ≠ P → Nodes m3 !! mv f d x = Nodes m !! x.
Proof.
  intros Hx Hnd HxP. destruct (survivor_cases x Hx Hnd HxP) as [->|[[Hl Hu]|[Hu E]]].
  - by rewrite mvS, relocated_parent.
  - by apply relocated_lower.
  - assert (∀ z, under f P z → x ≠ z) as Hne by (intros z Hz ->; done).
    destruct under_parent_self as [HuPd HuPS].
    rewrite E, (mo_rest _ _ _ _ _ _ Hmv); [|rewrite HD; by intros (_ & ? & _)|by apply Hne..].
    apply lifted_other; [done|by apply Hne..|]. intros [_ ?]. apply Hnd. by right.
Qed.

Lemma relocated_back y l : Nodes m3 !! y = Some l →
  ∃ x, inF n f x ∧ ¬ under f d x ∧ x ≠ P ∧ y = mv f d x ∧ Nodes m !! x = Some l.
Proof.
  destruct (lower_family n f Hfit d Hd Hroot) as (HS & HP & HrS & HrP & _).
  intros Hy. destruct (decide (y = P)) as [->|HyP].
  { exists S. rewrite mvS. rewrite relocated_parent in Hy. simplify_eq.
    split_and!; try done; [|intros E; rewrite E in HrS; lia].
    by apply (not_under_sibling n f Hfit d Hd Hroot). }
  destruct (decide (Exists (λ x, under f S x ∧ y = mv f d x) D)) as [Hex|Hnex].
  { apply Exists_exists in Hex as (x & Hx%HD & HuS & ->). rewrite relocated_lower in Hy by done.
    destruct (lower_split n f Hfit d Hd Hroot x Hx) as (_ & _ & _ & HxP).
    exists x. split_and!; try done; [by destruct Hx|]. apply siblings_apart; [by destruct Hx|done]. }
  rewrite Exists_exists in Hnex. destruct (decide (y ∈ D ∨ y = d ∨ y = S)) as [Hy'|Hy'].
  { rewrite (mo_none _ _ _ _ _ _ Hmv), lifted_base in Hy; [done|done|].
    intros x Hx Hu E. apply Hnex. by exists x. }
  rewrite (mo_rest _ _ _ _ _ _ Hmv) in Hy by tauto.
  assert (¬ beneath n f d y) as Hb.
  { intros Hb. rewrite lifted_nodes, lookup_insert_ne, !lookup_delete_ne, Hin1 in Hy
      by (done || intros <-; tauto). done. }
  rewrite lifted_other in Hy by tauto.
  destruct (hd_nodes _ _ _ _ _ Hh y l Hy) as (Hiny & _).
  assert (¬ under f d y) as Hnd by (intros [?|?]; [tauto|by apply Hb]).
  exists y. split_and!; try done.
  destruct (survivor_cases y Hiny Hnd HyP) as [?|[[Hl _]|[_ E]]]; [tauto| |done].
  apply HD in Hl. tauto.
Qed.

Lemma relocated_cached h : CachedLeaves m3 !! h = mv f d <$> CachedLeaves m !! h.
Proof.
  rewrite (mo_cached _ _ _ _ _ _ Hmv), lifted_cached.
  destruct (CachedLeaves m !! h) as [p|] eqn:E; [|done].
  simpl. f_equal. destruct (cached_pos h p E) as (Hin & Hnd & HpP & _).
  destruct (lower_family n f Hfit d Hd Hroot) as (_ & _ & HrS & HrP & _).
  destruct (survivor_cases p Hin Hnd HpP) as [->|[[Hl Hu]|[Hu Ep]]].
  - rewrite (decide_True (P := S = S)) by done. rewrite decide_False; [by rewrite mvS|].
    rewrite HD. intros [(_ & _ & ?) _]. lia.
  - destruct (lower_split n f Hfit d Hd Hroot p Hl) as (_ & HpS & _).
    rewrite (decide_False (P := p = S)), decide_True by (done || by rewrite HD). done.
  - destruct under_parent_self as [_ HuPS].
    assert (p ≠ S) by (intros ->; done). rewrite (decide_False (P := p = S)) by done.
    by rewrite decide_False by (rewrite HD; by intros [(_ & ? & _) _]).
Qed.
End Relocated.
(** The conditions of [moveUpDescendants_moved]. *)
Lemma lifted_below x : lower n f d x → under f d x → Nodes (lifted m1) !! x = None.
Proof.
  intros Hx Hu. destruct (lower_split n f Hfit d Hd Hroot x Hx) as (_ & HxS & Hxd & HxP).
  rewrite lifted_nodes, lookup_insert_ne, !lookup_delete_ne by done. apply Hin1.
  destruct Hx as (Hx & _). destruct Hu; [done|]. by split.
Qed.

Lemma lifted_cached_lower h p : CachedLeaves (lifted m1) !! h = Some p → lower n f d p →
  CachedLeaves m !! h = Some p ∧ ¬ under f d p.
Proof.
  rewrite lifted_cached. intros (q & Hq & Ep)%fmap_Some Hp.
  destruct (lower_split n f Hfit d Hd Hroot p Hp) as (_ & _ & _ & HpP).
  assert (q = p) as ->; [case_decide; congruence|]. split; [done|]. by apply (cached_pos h p).
Qed.

Lemma lifted_has h p : CachedLeaves (lifted m1) !! h = Some p → lower n f d p →
  ∃ l, Nodes (lifted m1) !! p = Some l ∧ leafHash l = h.
Proof.
  intros Hp Hl. destruct (lifted_cached_lower h p Hp Hl) as [Hc Hnd].
  destruct (cached_pos h p Hc) as (_ & _ & _ & _ & l & Hn & _ & Hh').
  exists l. split; [by rewrite lower_other|done].
Qed.

Lemma lifted_place p l q : lower n f d p → Nodes (lifted m1) !! p = Some l →
  CachedLeaves (lifted m1) !! leafHash l = Some q → q = p.
Proof.
  intros Hp Hl Hq.
  assert (¬ under f d p) as Hnd by (intros Hu; by rewrite lifted_below in Hl).
  rewrite lower_other in Hl by done. rewrite lifted_cached in Hq.
  apply fmap_Some in Hq as (q' & Hq' & ->).
  pose proof (cached_place m p l q' Hm Hone Hl Hq') as ->.
  destruct (lower_split n f Hfit d Hd Hroot p Hp) as (_ & HpS & _). by rewrite decide_False.
Qed.
End Lifted.

(** The run of [removeSingle] up to the update of the hashes. *)
Lemma recache_step m' h : TotalRows m' = f →
  (if bool_decide (is_Some (CachedLeaves m' !! h)) then
     newPos ← lift (calcNextPosition S d f);
     modify (putCached h newPos)
   else mret tt) m' = (recache h P m', Ok tt).
Proof.
  intros Hrows. destruct (lower_family n f Hfit d Hd Hroot) as (HS & _ & HrS & _).
  destruct under_parent_self as [_ HuS]. unfold recache.
  destruct (CachedLeaves m' !! h) as [q|] eqn:E; [|done].
  rewrite bool_decide_eq_true_2 by eauto.
  rewrite (st_lift_ok _ _ _ P); [done|].
  rewrite (calcNext_under n f Hfit d Hd Hroot) by (done || lia). by rewrite mvS.
Qed.

Lemma removeSingle_relocate : ∃ m3, relocated m3 ∧
  removeSingle d m = (updateHashes d (leafHash lS);; dropError (forgetUnneededDel d)) m3.
Proof.
  pose proof (hd_rows _ _ _ _ _ Hh) as Hrows. pose proof Hm as (Hn & _ & _).
  destruct (lower_family n f Hfit d Hd Hroot) as (HS & HP & HrS & HrP & _).
  destruct (forgetBelow_spec n f Hfit d m Hrows Hd) as (m1 & E1 & HC1 & HN1 & HT1 & Hin1 & Hout1).
  assert (TotalRows m1 = f) as Hrows1 by congruence.
  unfold removeSingle. rewrite (st_bind_ok _ _ _ _ _ E1). st_run.
  rewrite Hrows1, (isRoot_root_at s f m1), Hroot by (done || congruence). cbn iota. st_run.
  assert (Nodes (deleteNode d m1) !! S = Some lS) as ->.
  { cbn [Nodes deleteNode setNodes]. rewrite lookup_delete_ne.
    - rewrite Hout1; [done|]. intros [_ Ha]. apply (anc_lt n) in Ha as [_ ?]; try done. lia.
    - intros E. apply (not_under_sibling n f Hfit d Hd Hroot). by left. }
  change (TotalRows (deleteNode d m1)) with (TotalRows m1). rewrite Hrows1. cbn iota.
  rewrite !st_assoc. st_run. rewrite !st_assoc. st_run.
  set (m' := putNode P lS (deleteNode S (deleteNode d m1))).
  rewrite st_assoc. st_run. rewrite st_assoc, (st_bind_ok _ _ _ _ _ (recache_step m' _ Hrows1)).
  rewrite st_assoc. st_run. rewrite st_assoc. unfold m'.
  destruct (moveUpDescendants_moved n f Hfit d Hd Hroot (lifted m1)
    (lifted_below m1 Hin1) (lifted_has m1 HC1 Hout1) (lifted_place m1 HC1 Hin1 Hout1)
    (NumLeaves (lifted m1))) as (D & m3 & E3 & Hmv & HD & HL3 & HR3).
  { by destruct (recache_fields (leafHash lS) P (putNode P lS (deleteNode S (deleteNode d m1))))
      as (_ & _ & ->). }
  destruct (recache_fields (leafHash lS) P (putNode P lS (deleteNode S (deleteNode d m1))))
    as (_ & HLl & HRl).
  exists m3. split.
  - split; [rewrite HL3, HLl; exact HN1|rewrite HR3, HRl; exact HT1|..].
    + intros. by eapply relocated_node; eauto.
    + intros. by eapply relocated_back; eauto.
    + intros. by eapply relocated_cached; eauto.
  - by rewrite (st_bind_ok _ _ _ _ _ E3).
Qed.

(** ** The new forest *)

Context (Hdn : is_Some (node s f d)).
Context (Hpath : ∀ y, inF n f y → under f y d → root_at n f y = false → is_Some (Nodes m !! sibling y)).
Notation s' := (Forest.del f [d] s).

(** Away from the path of [d] subtrees do not change, they only move. *)
Lemma survivor_node x : inF n f x → ¬ under f d x → ¬ under f x d →
  node s' f (mv f d x) = node s f x.
Proof.
  intros Hx Hnd Hnx. rewrite (node_mv s f Hwf Hfit d Hd Hroot Hdn x Hx Hnd).
  destruct (node s f x) as [t|] eqn:E; [|unfold pruned; by rewrite E].
  apply pruned_keep; try done. rewrite onpath_under.
  by intros (z & ->%list_elem_of_singleton & Hu).
Qed.

(** On the path, above the parent, positions stay and keep a node. *)
Lemma path_node x : inF n f x → ¬ under f d x → x ≠ P → under f x d →
  isAncestor x P f = true ∧ mv f d x = x ∧ is_Some (node s' f x) ∧ ∃ a b, node s f x = Some (Nd a b).
Proof.
  intros Hx Hnd HxP Hu. destruct (lower_family n f Hfit d Hd Hroot) as (_ & HP & _).
  assert (x ≠ d) as Hxd by (intros ->; apply Hnd, under_refl).
  assert (isAncestor x P f = true) as Ha.
  { destruct Hu as [?|Ha]; [done|]. apply (anc_parent n f) in Ha as [?|?]; done. }
  assert (¬ under f P x) as HnP.
  { intros HuP. apply HxP. apply (under_antisym n f Hfit); try done. by right. }
  assert (mv f d x = x) as Emv by (by apply (mv_outside n)).
  destruct Hdn as [t Ht]. assert (isAncestor x d f = true) as Had by (by destruct Hu).
  destruct (node_above s f Hfit x d t Hx Hd Had Ht) as (a & b & Hxn).
  split_and!; try done; [|by exists a, b]. rewrite <- Emv.
  rewrite (node_mv s f Hwf Hfit d Hd Hroot Hdn x Hx Hnd). by apply (pruned_some s f Hfit d x (Nd a b)).
Qed.

(** The new position is in the forest, and strictly above the parent only for a position
    that was there. *)
Lemma survivor_inF x : inF n f x → ¬ under f d x → x ≠ P → inF n f (mv f d x) ∧
  (isAncestor (mv f d x) P f = true → under f x d) ∧ (root_at n f x = true → mv f d x = x).
Proof.
  intros Hx Hnd HxP. destruct (lower_family n f Hfit d Hd Hroot) as (HS & HP & HrS & HrP & HrootS & _).
  destruct under_parent_self as [HuPd _].
  assert (∀ z, under f S z → inF n f z → inF n f (mv f d z) ∧
    (isAncestor (mv f d z) P f = true → under f z d) ∧ (root_at n f z = true → mv f d z = z)) as Hbelow.
  { intros z Hz Hin. destruct (mv_row n f Hfit d Hd Hroot z Hin Hz) as [_ HinM].
    destruct (mv_under n f Hfit d Hd Hroot z Hin Hz) as [HuM _]. split_and!; [done|..].
    - intros Ha. apply (anc_lt n) in Ha as [_ Hlt]; try done.
      apply (under_row n f Hfit) in HuM; try done. lia.
    - intros Hr. destruct Hz as [->|Hz]; [congruence|]. by rewrite (anc_root n f S z) in Hz. }
  destruct (survivor_cases x Hx Hnd HxP) as [->|[[_ Hu]|[Hu E]]]; [apply Hbelow; try done; apply under_refl|by apply Hbelow|].
  rewrite E. split_and!; try done. intros Ha. apply (under_trans n f Hfit x P d); try done. by right.
Qed.

Section Rehashed.
Context (m3 m4 : MapPollard) (Hrl : relocated m3) (Hrh : rehashed s' f P m3 m4).

Lemma result_stays x : inF n f x → ¬ under f d x → x ≠ P → ¬ under f x d →
  Nodes m4 !! mv f d x = Nodes m !! x.
Proof.
  intros Hx Hnd HxP Hnx. rewrite (rh_rest _ _ _ _ _ Hrh); [by apply rl_node|].
  intros [_ Ha]. by apply survivor_inF in Ha.
Qed.

Lemma result_path x : inF n f x → ¬ under f d x → x ≠ P → under f x d →
  Nodes m4 !! mv f d x = (λ _, mkLeaf (label s' f x) false) <$> Nodes m !! x.
Proof.
  intros Hx Hnd HxP Hu. destruct (path_node x Hx Hnd HxP Hu) as (Ha & E & _).
  rewrite E, (rh_above _ _ _ _ _ Hrh) by (by rewrite ?nl_del).
  by rewrite <- (rl_node m3 Hrl x), E.
Qed.

(** A node of the new state comes from one of the old state. *)
Lemma result_back y l : Nodes m4 !! y = Some l → ∃ x l0, inF n f x ∧ ¬ under f d x ∧ x ≠ P ∧
  y = mv f d x ∧ Nodes m !! x = Some l0 ∧
  ((¬ under f x d ∧ l = l0) ∨ (under f x d ∧ l = mkLeaf (label s' f y) false)).
Proof.
  intros Hy. destruct (Nodes m3 !! y) as [l0|] eqn:Hy3.
  - destruct (rl_back m3 Hrl y l0 Hy3) as (x & Hx & Hnd & HxP & -> & Hl0).
    exists x, l0. split_and!; try done. destruct (decide (under f x d)) as [Hu|Hu]; [right|left].
    + rewrite result_path, Hl0 in Hy by done. simplify_eq/=.
      by destruct (path_node x Hx Hnd HxP Hu) as (_ & -> & _).
    + rewrite result_stays, Hl0 in Hy by done. by simplify_eq.
  - rewrite (rh_rest _ _ _ _ _ Hrh) in Hy; [congruence|].
    intros [Hin Ha]. rewrite (rh_above _ _ _ _ _ Hrh), Hy3 in Hy; done.
Qed.

Lemma remembered_off_path x l : Nodes m !! x = Some l → Remember l = true → ¬ under f d x →
  inF n f x ∧ x ≠ P ∧ ¬ under f x d.
Proof.
  intros Hx Hl Hnd. destruct (hd_nodes _ _ _ _ _ Hh x l Hx) as (Hin & _).
  destruct (hd_flag _ _ _ _ _ Hh x l Hx Hl) as (h & Hn).
  assert (x ≠ P) as HxP by (intros ->; destruct parent_node as (a & b & HP); congruence).
  split_and!; try done. intros Hu. destruct (path_node x Hin Hnd HxP Hu) as (_ & _ & _ & a & b & E).
  congruence.
Qed.

(** Outside of what is strictly below the parent, siblings stay. *)
Lemma result_sibling q : inF n f q → root_at n f q = false → (under f P q → q = P) →
  is_Some (Nodes m !! sibling q) → is_Some (Nodes m4 !! sibling q).
Proof.
  intros Hq Hr HqP Hsome. destruct (sibling_props n f q) as (Hs & _ & _ & Hrs & _); try done.
  destruct (lower_family n f Hfit d Hd Hroot) as (HS & HP & HrS & HrP & _).
  destruct under_parent_self as [HuPd _].
  destruct (decide (sibling q = P)) as [->|Hne].
  { rewrite <- mvS, result_stays; [eauto|done|..].
    - apply siblings_apart; [done|apply under_refl].
    - intros E. rewrite E in HrS. lia.
    - intros Hu. apply (siblings_apart d Hd Hu). apply under_refl. }
  assert (¬ under f P (sibling q)) as HnP.
  { intros Hu. pose proof Hu as Hu'. apply (sibling_under n f Hfit P (sibling q)) in Hu'; try done.
    rewrite sibling_invol in Hu'. pose proof (HqP Hu') as ->.
    by apply (not_under_sibling n f Hfit P). }
  assert (¬ under f d (sibling q)) as Hnd by (intros Hu; apply HnP; by apply (under_trans n f Hfit P d)).
  rewrite <- (mv_outside n f d (sibling q)) by done. destruct Hsome as [l Hl].
  destruct (decide (under f (sibling q) d)); [rewrite result_path|rewrite result_stays]; try done;
    rewrite Hl; eauto.
Qed.

(** Strictly below the parent a family comes from below the sibling of [d]. *)
Lemma result_family z : inF n f z → under f S z → z ≠ S → is_Some (Nodes m !! sibling z) →
  is_Some (Nodes m4 !! sibling (mv f d z)).
Proof.
  intros Hz HuSz HzS Hsome.
  destruct (lower_family n f Hfit d Hd Hroot) as (HS & HP & HrS & HrP & _).
  destruct (mv_family n f Hfit d Hd Hroot z Hz HuSz HzS) as (Hrz & _ & HuSs & _ & _ & -> & _).
  destruct (sibling_props n f z) as (Hsz & _); try done.
  assert (¬ under f d (sibling z)) as Hnd by by apply siblings_apart.
  rewrite result_stays; try done.
  - intros E. rewrite E in HuSs. apply (under_row n f Hfit) in HuSs; try done. lia.
  - intros Hbad. apply (siblings_apart d Hd); [by apply (under_trans n f Hfit S (sibling z) d)|apply under_refl].
Qed.

(** A remembered node that moved needs what it needed before. *)
Lemma result_need_below x l q : Nodes m !! x = Some l → Remember l = true → inF n f x →
  under f S x → inF n f q → under f q (mv f d x) → under f P q → q ≠ P →
  is_Some (Nodes m4 !! sibling q).
Proof.
  intros Hx Hl Hin HuS Hq Hu HuP HqP.
  destruct (mv_row n f Hfit d Hd Hroot x Hin HuS) as [Hrow HinM].
  pose proof (under_row n f Hfit q _ Hq HinM Hu) as Hrq. pose proof (rowOf_nonneg n f x Hfit Hin).
  destruct (mv_onto n f Hfit d Hd Hroot q Hq HuP) as (z & Hz & HuSz & ->); [lia|].
  assert (z ≠ S) as HzS by (intros ->; by rewrite mvS in HqP).
  destruct (mv_family n f Hfit d Hd Hroot z Hz HuSz HzS) as (Hrz & _).
  apply (proj1 (under_mv n f Hfit d Hd Hroot z x Hz HuSz Hin HuS)) in Hu.
  apply result_family; try done. by apply (hd_need _ _ _ _ _ Hh x l z).
Qed.

(** A node that is there still has its uncle. *)
Lemma result_up q : inF n f q → root_at n f q = false → root_at n f (parent q f) = false →
  is_Some (Nodes m4 !! q) → is_Some (Nodes m4 !! sibling (parent q f)).
Proof.
  intros Hq Hr Hrp [l Hl]. destruct (sibling_props n f q) as (_ & Hp & _ & _ & _); try done.
  destruct under_parent_self as [HuPd HuPS].
  destruct (lower_family n f Hfit d Hd Hroot) as (HS & HP & HrS & HrP & HrootS & _).
  assert (under f (parent q f) q) as Hpq by (right; apply (anc_parent n f); auto).
  apply result_back in Hl as (x & l0 & Hx & Hnd & HxP & Eq & Hl0 & _).
  destruct (decide (q = P)) as [->|HqP].
  { assert (under f (parent P f) d) as Hu by (by apply (under_trans n f Hfit (parent P f) P d)).
    apply result_sibling; try done; [|by apply Hpath].
    intros Hu'. exfalso. pose proof (parent_gt n f P Hfit HP).
    apply (under_antisym n f Hfit P) in Hu'; try done. lia. }
  assert (under f P (parent q f) → parent q f ≠ P → x ≠ S ∧ under f S x) as Hdeep.
  { intros Hu Hne. destruct (survivor_cases x Hx Hnd HxP) as [->|[[_ ?]|[HnP E]]].
    - by rewrite mvS in Eq.
    - split; [|done]. intros ->. by rewrite mvS in Eq.
    - exfalso. apply HnP. rewrite E in Eq. subst x. by apply (under_trans n f Hfit P (parent q f) q). }
  destruct (decide (under f P (parent q f) ∧ parent q f ≠ P)) as [[Hu Hne]|Hout].
  - destruct (Hdeep Hu Hne) as [HxS HuS].
    destruct (mv_family n f Hfit d Hd Hroot x Hx HuS HxS) as (Hrx & Hup & _ & _ & Epar & _).
    rewrite <- Eq in Epar. rewrite Epar in *.
    destruct (sibling_props n f x) as (_ & Hpx & _); try done.
    assert (parent x f ≠ S) as HpS by (intros E; by rewrite E, mvS in Hne).
    destruct (mv_family n f Hfit d Hd Hroot (parent x f) Hpx Hup HpS) as (Hrpx & _).
    apply result_family; try done. by apply (hd_up _ _ _ _ _ Hh x); eauto.
  - apply result_sibling; try done; [destruct (decide (parent q f = P)); tauto|].
    destruct (decide (parent q f = P)) as [E|Hne]; [rewrite E in *; by apply Hpath|].
    assert (q = x) as ->; [|by apply (hd_up _ _ _ _ _ Hh x); eauto].
    destruct (survivor_cases x Hx Hnd HxP) as [->|[[_ HuS]|[_ E]]]; [by rewrite mvS in Eq| |congruence].
    exfalso. destruct (mv_under n f Hfit d Hd Hroot x Hx HuS) as [HuM _]. rewrite <- Eq in HuM.
    apply (under_parent n f Hfit P q) in HuM; try done; try congruence. tauto.
Qed.

Lemma result_need p l q : Nodes m4 !! p = Some l → Remember l = true → inF n f q → under f q p →
  root_at n f q = false → is_Some (Nodes m4 !! sibling q).
Proof.
  intros Hp Hl Hq Hu Hr. apply result_back in Hp as (x & l0 & Hx & Hnd & HxP & -> & Hl0 & [[Hnx ->]|[_ ->]]); [|done].
  destruct (decide (under f P q ∧ q ≠ P)) as [[HuP HqP]|Hout].
  - destruct (decide (under f S x)) as [HuS|HnS]; [by eapply result_need_below|].
    exfalso. destruct (survivor_cases x Hx Hnd HxP) as [->|[[_ ?]|[HnP E]]]; [apply HnS, under_refl|done|].
    rewrite E in Hu. apply HnP. destruct (lower_family n f Hfit d Hd Hroot) as (_ & HP & _).
    by apply (under_trans n f Hfit P q).
  - assert (under f P q → q = P) as HqP by (intros; destruct (decide (q = P)); tauto).
    apply result_sibling; try done.
    destruct (decide (under f q d)) as [|Hnq]; [by apply Hpath|].
    destruct (lower_family n f Hfit d Hd Hroot) as (HS & HP & HrS & HrP & _).
    destruct under_parent_self as [HuPd HuPS].
    assert (q ≠ P) as HneP by (by intros ->).
    apply (hd_need _ _ _ _ _ Hh x l0 q); try done.
    assert (under f S x → False) as HnS; [|destruct (survivor_cases x Hx Hnd HxP) as [->|[[_ ?]|[_ E]]];
      [exfalso; apply HnS, under_refl|done|by rewrite E in Hu]].
    intros HuS. destruct (mv_row n f Hfit d Hd Hroot x Hx HuS) as [_ HinM].
    destruct (mv_under n f Hfit d Hd Hroot x Hx HuS) as [HuM _].
    destruct (Z.le_gt_cases (rowOf f q) (rowOf f P)).
    + apply HneP, HqP. by apply (under_comparable n f Hfit q P (mv f d x)).
    + apply Hnq. apply (under_trans n f Hfit q P d); try done.
      apply (under_comparable n f Hfit P q (mv f d x)); try done. lia.
Qed.

Lemma result_roots p : inF n f p → root_at n f p = true → is_Some (Nodes m4 !! p).
Proof.
  intros Hp Hr. destruct (lower_family n f Hfit d Hd Hroot) as (HS & HP & HrS & HrP & HrootS & _).
  assert (∀ z, inF n f z → under f z p → z = p) as Htop.
  { intros z Hz [?|Ha]; [done|]. by rewrite (anc_root n f z p) in Ha. }
  assert (∃ x, inF n f x ∧ ¬ under f d x ∧ x ≠ P ∧ mv f d x = p ∧ is_Some (Nodes m !! x))
    as (x & Hx & Hnd & HxP & <- & l & Hl).
  { destruct (decide (p = P)) as [->|Hne].
    - exists S. split_and!; [done| |intros E; rewrite E in HrS; lia|apply mvS|eauto].
      apply siblings_apart; [done|apply under_refl].
    - assert (¬ under f d p) as Hnd by (intros <-%Htop; congruence).
      exists p. split_and!; try done; [by apply survivor_inF|by apply (hd_roots _ _ _ _ _ Hh)]. }
  destruct (decide (under f x d)); [rewrite result_path|rewrite result_stays]; try done; rewrite Hl; eauto.
Qed.

Lemma result_holds : holds f (inF n f) (root_at n f) (node s' f) m4.
Proof.
  split.
  - by rewrite (rh_rows _ _ _ _ _ Hrh), (rl_rows _ Hrl), (hd_rows _ _ _ _ _ Hh).
  - intros p l Hp. apply result_back in Hp as (x & l0 & Hx & Hnd & HxP & -> & Hl0 & Hcase).
    destruct (survivor_inF x Hx Hnd HxP) as (Hin & _ & Hstay). split; [done|].
    destruct Hcase as [[Hnx ->]|[Hux ->]].
    + rewrite survivor_node by done. destruct (hd_nodes _ _ _ _ _ Hh x l0 Hl0) as (_ & Hlab & Hsome).
      split; [done|]. intros Hr. apply Hsome. destruct (root_at n f x) eqn:E; [|done].
      rewrite Hstay in Hr by done. congruence.
    + split; [done|]. by destruct (path_node x Hx Hnd HxP Hux) as (_ & -> & ? & _).
  - apply result_roots.
  - intros p l Hp Hl. apply result_back in Hp as (x & l0 & Hx & Hnd & HxP & -> & Hl0 & [[Hnx ->]|[_ ->]]); [|done].
    rewrite survivor_node by done. by apply (hd_flag _ _ _ _ _ Hh x l0).
  - apply result_need.
  - apply result_up.
  - intros h p. rewrite (rh_cached _ _ _ _ _ Hrh), (rl_cached _ Hrl). intros (x & Hx & ->)%fmap_Some.
    destruct (cached_pos h x Hx) as (Hin & Hnd & HxP & Hn & l & Hl & Hrem & _).
    destruct (remembered_off_path x l Hl Hrem Hnd) as (_ & _ & Hnx).
    destruct (hd_cached _ _ _ _ _ Hh h x Hx) as (_ & Hleafy & _).
    rewrite survivor_node, result_stays by done. split_and!; [done..|by exists l].
Qed.
End Rehashed.

(** Before the hashes are updated, the nodes beside the path have the new hashes. *)
Lemma relocated_siblings m3 : relocated m3 → siblings_known s' f P m3.
Proof.
  intros Hrl y Hy Hu Hr. rewrite nl_del in Hy, Hr.
  destruct (lower_family n f Hfit d Hd Hroot) as (HS & HP & HrS & HrP & _).
  destruct under_parent_self as [HuPd _].
  destruct (sibling_props n f y) as (Hs & _ & Hrow & Hrs & _); try done.
  assert (under f y d) as Huy by (by apply (under_trans n f Hfit y P d)).
  destruct (Hpath y Hy Huy Hr) as [l Hl].
  assert (¬ under f P (sibling y)) as HnP.
  { intros Hu'. apply (not_under_sibling n f Hfit y Hy Hr). by apply (under_trans n f Hfit y P). }
  assert (¬ under f d (sibling y)) as Hnd by (intros Hu'; apply HnP; by apply (under_trans n f Hfit P d)).
  assert (sibling y ≠ P) as HsP by (intros E; apply HnP; rewrite E; apply under_refl).
  assert (¬ under f (sibling y) d) as Hns.
  { intros Hu'. apply (not_under_sibling n f Hfit y Hy Hr).
    apply (under_comparable n f Hfit (sibling y) y d); try done. lia. }
  exists l. rewrite <- (mv_outside n f d (sibling y)) by done. split; [by rewrite (rl_node _ Hrl)|].
  rewrite (mv_outside n) by done. unfold label. rewrite <- (mv_outside n f d (sibling y)) by done.
  rewrite survivor_node by done. by destruct (hd_nodes _ _ _ _ _ Hh _ l Hl) as (_ & ? & _).
Qed.

(** What [removeSingle] does to a state that follows [s]. *)
Lemma removeSingle_inner : ∃ m', removeSingle d m = (m', Ok tt) ∧ tracks s' f m' ∧
  (∀ h, CachedLeaves m' !! h = mv f d <$> CachedLeaves m !! h) ∧
  (∀ x l, Nodes m !! x = Some l → Remember l = true → ¬ under f d x → Nodes m' !! mv f d x = Some l).
Proof.
  destruct (lower_family n f Hfit d Hd Hroot) as (HS & HP & HrS & HrP & HrootS & _).
  destruct removeSingle_relocate as (m3 & Hrl & E). rewrite E.
  assert (¬ under f d S) as HndS by (apply siblings_apart; [done|apply under_refl]).
  assert (¬ under f S d) as HnSd by (intros Hu; apply (siblings_apart d Hd Hu); apply under_refl).
  destruct sibling_node as (tS & HtS & HlabS).
  assert (node s' f P = Some tS) as HnP by (by rewrite <- mvS, survivor_node).
  destruct (updateHashes_rehashed s' f ltac:(by rewrite nl_del) d m3) as (m4 & E4 & Hrh).
  - by rewrite (rl_rows _ Hrl), (hd_rows _ _ _ _ _ Hh).
  - rewrite nl_del, (rl_leaves _ Hrl). by destruct Hm.
  - intros y l Hy. rewrite nl_del. apply (rl_back _ Hrl) in Hy as (x & Hx & Hnd & HxP & -> & _).
    by apply survivor_inF.
  - by rewrite nl_del.
  - by rewrite nl_del.
  - by rewrite HnP.
  - by apply relocated_siblings.
  - unfold label in E4. rewrite HnP in E4. simpl in E4. rewrite <- HlabS in E4.
    rewrite (st_bind_ok _ _ _ _ _ E4).
    assert (tracks s' f m4) as Ht4.
    { split; [|split; [by rewrite nl_del|rewrite nl_del; by eapply result_holds]].
      rewrite (rh_leaves _ _ _ _ _ Hrh), (rl_leaves _ Hrl), nl_del. by destruct Hm. }
    destruct (wp_result _ _ _ (wp_dropError _ _ _ (forgetUnneededDel_tracks s' f d m4 Ht4
      ltac:(by rewrite nl_del)))) as (m5 & [] & -> & Ht5 & HC5 & _ & _ & Hrem5).
    exists m5. split_and!; [done|done|..].
    + intros h. by rewrite HC5, (rh_cached _ _ _ _ _ Hrh), (rl_cached _ Hrl).
    + intros x l Hx Hl Hnd. destruct (remembered_off_path x l Hx Hl Hnd) as (Hin & HxP & Hnx).
      apply Hrem5; [|done]. by rewrite (result_stays m3 m4).
Qed.
End Single.
End Remove.
