(* ===== verification/MapPollardDelete.v ===== *)
(** * The deletions of a block in a map pollard

    [removeSingle] at a root empties it; elsewhere [MapPollardRemove] applies.  [remove]
    runs it on the merged targets, and the state follows the forest without the targets. *)

From S2P Require Import Prelude State Utils PosTheory HashPos Traverse Calc Walk SortedTheory.
From S2P Require Import DeTwinTheory Forest EvalTheory Stump StumpTheory StumpVerify ForestLeaves StumpSpec.
From S2P Require Import Moves Deletions Translate Batch MapPollard MapPollardInv MapPollardObs MapPollardRemove.

Section Delete.
Context `{HashFn} (s : forest) (f : Z) (Hwf : wf s) (m : MapPollard) (Hm : tracks s f m).
Context (Hone : one_place (inF (nl s) f) (node s f)).
Notation n := (nl s).
Context (d : Z) (Hd : inF n f d) (Hdn : is_Some (node s f d)).
Context (Hclean : ∀ h p, CachedLeaves m !! h = Some p → ¬ under f d p).
Notation s' := (Forest.del f [d] s).

Let Hfit : fits n f := proj1 (proj2 Hm).
Let Hh := proj2 (proj2 Hm).

Section Root.
Context (Hroot : root_at n f d = true).

Lemma root_off_path x : inF n f x → ¬ under f d x → ¬ under f x d.
Proof. intros Hx Hnd Hu. apply Hnd. apply (root_under n f x d) in Hu as ->; try done. apply under_refl. Qed.

Lemma root_node_other x : inF n f x → ¬ under f d x → node s' f x = node s f x.
Proof.
  intros Hx Hnd. rewrite (node_del_other s f Hfit d Hd x) by done.
  destruct (node s f x) as [t|] eqn:E; [|unfold pruned; by rewrite E].
  apply pruned_keep; try done. rewrite onpath_under.
  intros (z & ->%list_elem_of_singleton & Hu). by apply root_off_path in Hu.
Qed.

Lemma root_node_here : node s' f d = None.
Proof. rewrite node_del_root by done. apply (pruned_deleted s f Hfit); [done|by left]. Qed.

(** What is left of a state that forgets what is below [d] and empties [d]. *)
Lemma root_holds m1 : TotalRows m1 = f → CachedLeaves m1 = CachedLeaves m →
  (∀ y, beneath n f d y → Nodes m1 !! y = None) → (∀ y, ¬ beneath n f d y → Nodes m1 !! y = Nodes m !! y) →
  holds f (inF n f) (root_at n f) (node s' f) (putNode d (mkLeaf empty false) m1).
Proof.
  intros HT HC Hin Hout.
  assert (∀ y l, Nodes (putNode d (mkLeaf empty false) m1) !! y = Some l →
    (y = d ∧ l = mkLeaf empty false) ∨ (inF n f y ∧ ¬ under f d y ∧ Nodes m !! y = Some l)) as Hback.
  { intros y l. cbn [Nodes putNode setNodes]. destruct (decide (y = d)) as [->|Hne].
    - rewrite lookup_insert_eq. intros [= <-]. by left.
    - rewrite lookup_insert_ne by done. intros Hy. right.
      assert (¬ beneath n f d y) as Hb by (intros Hb; rewrite Hin in Hy; done).
      rewrite Hout in Hy by done. destruct (hd_nodes _ _ _ _ _ Hh y l Hy) as [Hy' _].
      split_and!; try done. intros [?|Ha]; [done|]. by apply Hb. }
  assert (∀ y, inF n f y → ¬ under f d y → Nodes (putNode d (mkLeaf empty false) m1) !! y = Nodes m !! y) as Hkeep.
  { intros y Hy Hnd. cbn [Nodes putNode setNodes].
    rewrite lookup_insert_ne by (intros <-; apply Hnd, under_refl).
    apply Hout. intros [_ ?]. apply Hnd. by right. }
  split.
  - done.
  - intros p l [[-> ->]|(Hp & Hnd & Hl)]%Hback.
    + split_and!; [done|by rewrite root_node_here|congruence].
    + rewrite root_node_other by done. by apply (hd_nodes _ _ _ _ _ Hh).
  - intros p Hp Hr. destruct (decide (under f d p)) as [Hu|Hu].
    + apply (root_under n f) in Hu as ->; try done. cbn [Nodes putNode setNodes]. by rewrite lookup_insert_eq.
    + rewrite Hkeep by done. by apply (hd_roots _ _ _ _ _ Hh).
  - intros p l [[-> ->]|(Hp & Hnd & Hl)]%Hback Hrem; [done|].
    rewrite root_node_other by done. by apply (hd_flag _ _ _ _ _ Hh p l).
  - intros p l q [[-> ->]|(Hp & Hnd & Hl)]%Hback Hrem Hq Hu Hr; [done|].
    destruct (sibling_props n f q) as (Hs & _ & _ & Hrs & _); try done.
    rewrite Hkeep; [by apply (hd_need _ _ _ _ _ Hh p l)|done|].
    intros Hbad. apply Hnd. apply (under_trans n f Hfit d q p); try done.
    rewrite <- (sibling_invol q). apply (sibling_under n f Hfit); try done. congruence.
  - intros q Hq Hr Hrp [l [[-> _]|(_ & Hnd & Hl)]%Hback]; [congruence|].
    destruct (sibling_props n f q) as (_ & Hpq & _); try done.
    destruct (sibling_props n f (parent q f)) as (Hs & _ & _ & Hrs & _); try done.
    rewrite Hkeep; [apply (hd_up _ _ _ _ _ Hh q); eauto|done|].
    intros Hbad. apply Hnd. apply (under_trans n f Hfit d (parent q f) q); try done.
    + rewrite <- (sibling_invol (parent q f)). apply (sibling_under n f Hfit); try done. congruence.
    + right. apply (anc_parent n f); auto.
  - intros h p. cbn [CachedLeaves putNode setNodes]. rewrite HC. intros Hp.
    pose proof (Hclean h p Hp) as Hnd.
    destruct (hd_cached _ _ _ _ _ Hh h p Hp) as (Hn & Hleafy & l & Hl & Hrem).
    destruct (hd_nodes _ _ _ _ _ Hh p l Hl) as [Hin' _].
    rewrite root_node_other, Hkeep by done. split_and!; try done. by exists l.
Qed.

Lemma removeSingle_root : ∃ m', removeSingle d m = (m', Ok tt) ∧ tracks s' f m' ∧
  CachedLeaves m' = CachedLeaves m ∧
  (∀ x l, Nodes m !! x = Some l → Remember l = true → ¬ under f d x → Nodes m' !! x = Some l).
Proof.
  pose proof (hd_rows _ _ _ _ _ Hh) as Hrows. pose proof Hm as (Hn & _ & _).
  destruct (forgetBelow_spec n f Hfit d m Hrows Hd) as (m1 & E1 & HC1 & HN1 & HT1 & Hin1 & Hout1).
  assert (TotalRows m1 = f) as Hrows1 by congruence.
  unfold removeSingle. rewrite (st_bind_ok _ _ _ _ _ E1). st_run.
  rewrite Hrows1, (isRoot_root_at s f m1), Hroot by (done || congruence). cbn iota.
  eexists. split; [done|]. split; [split; [|split]|split].
  - rewrite nl_del. cbn [NumLeaves putNode setNodes]. congruence.
  - by rewrite nl_del.
  - rewrite nl_del. by apply root_holds.
  - done.
  - intros x l Hx Hl Hnd. cbn [Nodes putNode setNodes].
    rewrite lookup_insert_ne by (intros <-; apply Hnd, under_refl).
    rewrite Hout1; [done|]. intros [_ ?]. apply Hnd. by right.
Qed.
End Root.

(** A remembered node below [d] keeps all that its proof needs. *)
Context (x0 : Z) (l0 : Leaf) (Hx0 : Nodes m !! x0 = Some l0) (Hl0 : Remember l0 = true) (Hu0 : under f d x0).

Lemma removeSingle_tracks : ∃ m', removeSingle d m = (m', Ok tt) ∧ tracks s' f m' ∧
  (∀ h, CachedLeaves m' !! h = move n f d <$> CachedLeaves m !! h) ∧
  (∀ x l, Nodes m !! x = Some l → Remember l = true → ¬ under f d x → Nodes m' !! move n f d x = Some l).
Proof.
  destruct (root_at n f d) eqn:Hroot.
  - destruct (removeSingle_root Hroot) as (m' & E & Ht & HC & Hrem). exists m'.
    unfold move. rewrite Hroot. split_and!; [done|done| |done]. intros h. rewrite HC. by rewrite option_fmap_id.
  - destruct (hd_nodes _ _ _ _ _ Hh x0 l0 Hx0) as [Hin0 _].
    assert (∀ y, inF n f y → under f y d → root_at n f y = false → is_Some (Nodes m !! sibling y)) as Hpath.
    { intros y Hy Hu Hr. apply (hd_need _ _ _ _ _ Hh x0 l0 y); try done.
      by apply (under_trans n f Hfit y d x0). }
    destruct (Hpath d Hd (under_refl f d) Hroot) as [lS HlS].
    destruct (removeSingle_inner s f Hwf m Hm Hone d Hd Hroot Hclean lS HlS Hdn Hpath)
      as (m' & E & Ht & HC & Hrem).
    exists m'. unfold move. rewrite Hroot. done.
Qed.
End Delete.

(** Deleting does not add leaves. *)
Lemma imap_leaves (F : nat → option tree → option tree) s :
  (∀ i t, oleaves (F i t) `sublist_of` oleaves t) →
  forest_leaves (imap (λ i x, F i <$> x) s) `sublist_of` forest_leaves s.
Proof.
  unfold forest_leaves. revert F. induction s as [|x s IH]; intros F HF; [done|].
  cbn [imap]. specialize (IH (λ i, F (S i)) (λ i, HF (S i))).
  change (imap ((λ i x, F i <$> x) ∘ S) s) with (imap (λ i x, F (S i) <$> x) s).
  destruct x as [t|]; [|done]. cbn [fmap option_fmap option_map trees].
  rewrite !fmap_app, !join_app. simpl. rewrite !app_nil_r. by apply sublist_app.
Qed.

Lemma del_sublist f D s : forest_leaves (Forest.del f D s) `sublist_of` forest_leaves s.
Proof.
  unfold Forest.del. apply (imap_leaves (λ i t, t ≫= prune f D (Z.of_nat i) (2 * (nl s / 2 ^ (Z.of_nat i + 1))))).
  intros i [t|]; [|done]. simpl. apply prune_leaves.
Qed.

(** ** A list of positions *)

Section Batch.
Context `{HashFn} (f : Z).

(** The state [m] can delete the positions [D] one after the other. *)
Record deletable (s : forest) (m : MapPollard) (D : list Z) : Prop := {
  db_wf : wf s;
  db_tracks : tracks s f m;
  db_distinct : NoDup (forest_leaves s);
  db_ready : ready (nl s) f D;
  db_node d : d ∈ D → is_Some (node s f d);
  db_known d : d ∈ D → ∃ x l, Nodes m !! x = Some l ∧ Remember l = true ∧ under f d x;
  db_clean d h p : d ∈ D → CachedLeaves m !! h = Some p → ¬ under f d p;
}.

(** The subtrees of the other positions do not move. *)
Lemma ready_stays n d e x : fits n f → inF n f d → inF n f e → inF n f x →
  ¬ under f d e → ¬ under f e d → (root_at n f d = false → ¬ under f (parent d f) e) →
  ¬ under f d x → under f e x → move n f d x = x.
Proof.
  intros Hfit Hd He Hx H1 H2 H3 Hnd Hu.
  destruct (move_cases n f d x) as [?|(Hr & HuS & _)]; try done. exfalso.
  destruct (sibling_props n f d Hfit Hd Hr) as (HS & HP & HrS & HrootS & HpS). specialize (H3 Hr).
  assert (under f (parent d f) (sibling d) ∧ under f (parent d f) d) as [HuPS HuPd].
  { split; apply (under_split n f Hfit d Hd Hr); auto using under_refl. }
  destruct (Z.le_gt_cases (rowOf f e) (rowOf f (sibling d))).
  - apply H3. apply (under_trans n f Hfit (parent d f) (sibling d)); try done.
    by apply (under_comparable n f Hfit e (sibling d) x).
  - assert (under f e (sibling d)) as Hes by (apply (under_comparable n f Hfit (sibling d) e x); done || lia).
    apply H2. apply (under_trans n f Hfit e (parent d f) d); try done. rewrite <- HpS.
    apply (under_parent n f Hfit e (sibling d)); try done. intros ->. lia.
Qed.

Lemma deletable_step s m d D : deletable s m (d :: D) →
  ∃ m', removeSingle d m = (m', Ok tt) ∧ deletable (Forest.del f [d] s) m' D ∧
  (∀ h, CachedLeaves m' !! h = move (nl s) f d <$> CachedLeaves m !! h).
Proof.
  intros [Hwf Ht Hnd Hrd Hnode Hknown Hcl]. pose proof Ht as (_ & Hfit & Hh).
  inversion_clear Hrd as [|? ? Hd HD Hrd'].
  destruct (Hknown d) as (x0 & l0 & Hx0 & Hl0 & Hu0); [by left|].
  assert (is_Some (node s f d)) as Hdn by (apply Hnode; by left).
  destruct (removeSingle_tracks s f Hwf m Ht (forest_one_place s f Hfit Hwf Hnd) d Hd Hdn
    (λ h p, Hcl d h p ltac:(by left)) x0 l0 Hx0 Hl0 Hu0) as (m' & E & Ht' & HC & Hrem).
  exists m'. split_and!; [done| |done].
  assert (∀ e x, e ∈ D → inF (nl s) f x → under f e x → ¬ under f d x) as Hapart.
  { intros e x He Hx Hu Hud. destruct (HD e He) as (Hine & H1 & H2 & _).
    destruct (Z.le_gt_cases (rowOf f d) (rowOf f e)).
    - apply H2. by apply (under_comparable (nl s) f Hfit d e x).
    - apply H1. apply (under_comparable (nl s) f Hfit e d x); try done. lia. }
  split.
  - by apply wf_del.
  - done.
  - eapply sublist_NoDup; [done|apply del_sublist].
  - by rewrite nl_del.
  - intros e He. destruct (HD e He) as (? & ? & ? & ?). rewrite node_del_kept by done.
    apply Hnode. by right.
  - intros e He. destruct (Hknown e) as (x & l & Hx & Hl & Hu); [by right|].
    destruct (HD e He) as (? & ? & ? & ?). destruct (hd_nodes _ _ _ _ _ Hh x l Hx) as [Hin _].
    pose proof (Hapart e x He Hin Hu) as Hnx. exists x, l. split_and!; [|done|done].
    rewrite <- (ready_stays (nl s) d e x) by done. by apply Hrem.
  - intros e h p He. rewrite HC. intros (q & Hq & ->)%fmap_Some.
    destruct (hd_cached _ _ _ _ _ Hh h q Hq) as (_ & _ & l & Hl & _).
    destruct (hd_nodes _ _ _ _ _ Hh q l Hl) as [Hin _].
    apply (not_under_move (nl s) f Hfit d D Hd HD); try done; [by apply (Hcl d h q); [left|]|].
    apply (Hcl e h q); [by right|done].
Qed.

Lemma deletable_run D : ∀ s m, deletable s m D →
  ∃ m', for_each D (λ del, dropError (removeSingle del)) m = (m', Ok tt) ∧
    tracks (Forest.del f D s) f m' ∧
    (∀ h, CachedLeaves m' !! h = moveAll (nl s) f D <$> CachedLeaves m !! h).
Proof.
  induction D as [|d D IH]; intros s m Hok.
  { exists m. rewrite del_nil. split_and!; [done|by apply Hok|]. intros h. by rewrite option_fmap_id. }
  destruct (deletable_step s m d D Hok) as (m1 & E & Hok1 & HC1).
  destruct (IH _ m1 Hok1) as (m2 & E2 & Ht2 & HC2).
  destruct Hok as [Hwf Ht _ Hrd Hnode _ _]. pose proof Ht as (_ & Hfit & _).
  inversion_clear Hrd as [|? ? Hd HD Hrd'].
  exists m2. split_and!.
  - cbn [for_each]. rewrite (st_bind_ok _ _ _ m1 tt); [done|]. unfold dropError. by rewrite E.
  - rewrite <- (del_cons f s d D); try done. apply Hnode. by left.
  - intros h. rewrite HC2, HC1, nl_del. by destruct (CachedLeaves m !! h).
Qed.
End Batch.

(** ** The deletions of a block *)

Lemma uncacheLeaves_fields hs : ∀ m, let m' := uncacheLeaves hs m in
  Nodes m' = Nodes m ∧ NumLeaves m' = NumLeaves m ∧ TotalRows m' = TotalRows m ∧
  ∀ h, CachedLeaves m' !! h = if decide (h ∈ hs) then None else CachedLeaves m !! h.
Proof.
  induction hs as [|h hs IH]; intros m m'; [done|].
  change m' with (uncacheLeaves hs (deleteCached h m)). clear m'.
  destruct (IH (deleteCached h m)) as (HN & HL & HT & HC). cbv zeta in *.
  split_and!; [by rewrite HN|by rewrite HL|by rewrite HT|].
  intros h'. rewrite HC.
  cbn [CachedLeaves deleteCached setCached].
  destruct (decide (h' ∈ hs)) as [Hh|Hh].
  - by rewrite decide_True by by right.
  - destruct (decide (h' = h)) as [->|Hne]; [by rewrite decide_True, lookup_delete_eq by by left|].
    rewrite decide_False by (rewrite elem_of_cons; tauto). by rewrite lookup_delete_ne.
Qed.

(** Fewer cached leaves. *)
Lemma tracks_uncache `{HashFn} s f m m' : tracks s f m → Nodes m' = Nodes m → NumLeaves m' = NumLeaves m →
  TotalRows m' = TotalRows m → (∀ h p, CachedLeaves m' !! h = Some p → CachedLeaves m !! h = Some p) →
  tracks s f m'.
Proof.
  intros (Hn & Hfit & [H1 H2 H3 H4 H5 H6 H7]) HN HL HT HC. split; [congruence|]. split; [done|].
  split; rewrite ?HN, ?HT; try done. intros h p Hp%HC. by apply H7.
Qed.

Section Remove.
Context `{HashFn} (s : forest) (f : Z) (m : MapPollard).
Notation n := (nl s).
Notation g := (treeRows n).
Context (Hwf : wf s) (Hm : tracks s f m) (Hdist : NoDup (forest_leaves s)).
Context (ts : list Z) (hs : list Hash) (Hnd : NoDup ts) (Hts : Forall2 (leaf_at s g) ts hs).
Context (Hhs : ∀ h, h ∈ hs → is_Some (CachedLeaves m !! h)).

Let Hfit : fits n f := proj1 (proj2 Hm).

Lemma remove_rows : fits n g.
Proof. by apply (tracks_fits_rows s f m). Qed.

(** The targets as the map pollard numbers them. *)
Notation tr t := (translatePos t g f).
Definition translated : list Z := map (λ t, tr t) (copySortedFunc ts).

Lemma translated_elem t : t ∈ translated → ∃ h, h ∈ hs ∧ inF n f t ∧ node s f t = Some (Lf h).
Proof.
  intros (t' & -> & Ht')%list_elem_of_fmap. rewrite copySorted_perm in Ht'.
  apply list_elem_of_lookup in Ht' as (i & Hi).
  destruct (Forall2_lookup_l _ _ _ _ _ Hts Hi) as (h & Hh & Hin & Hl).
  exists h. split; [by eapply list_elem_of_lookup_2|].
  split; [by apply (tr_inF n g f remove_rows)|]. by rewrite (tr_node n g f remove_rows).
Qed.

Lemma translated_pending : pending n f translated.
Proof.
  pose proof (leaves_ok s g ts hs remove_rows Hnd Hts) as Hok.
  pose proof (targets_pending s g ts Hok) as [Hs Hin Hanti]. pose proof remove_rows as Hg. split.
  - by apply (tr_sorted n g f Hg Hfit).
  - by apply (tr_targets_in n g f Hg Hfit).
  - intros p p' (t & -> & Ht)%list_elem_of_fmap (t' & -> & Ht')%list_elem_of_fmap.
    rewrite (tr_isAncestor n g f Hg Hfit) by auto. auto.
Qed.

Lemma translated_del : Forest.del f translated s = Forest.del g ts s.
Proof.
  unfold translated. rewrite (del_translate s f Hwf Hfit g).
  - apply (del_agree s g Hwf remove_rows). intros r o t Hin _ Hh Hn. apply (prune_translate s g remove_rows); try done.
    intros. by rewrite copySorted_perm.
  - apply remove_rows.
  - apply (targets_pending s g). by apply (leaves_ok s g ts hs remove_rows).
Qed.

Notation D := (deTwin translated f).

Lemma remove_deletable : deletable f s (uncacheLeaves hs m) D.
Proof.
  pose proof translated_pending as Hpd. destruct (deTwin_spec n f Hfit translated Hpd) as (HpdD & Htw & _).
  assert (stands_for s f translated D) as [Hnode Hleaf Htarget _].
  { apply (deTwin_loop_stands_for s f Hwf Hfit); try done; [by apply Hpd|by intros ? ? ? ?%Nat.nlt_0_r|].
    apply stands_for_refl. intros t (h & _ & _ & ->)%translated_elem. eauto. }
  destruct (uncacheLeaves_fields hs m) as (HN & HL & HT & HC). cbv zeta in *.
  assert (∀ h p, CachedLeaves (uncacheLeaves hs m) !! h = Some p → h ∉ hs ∧ CachedLeaves m !! h = Some p) as Hsub.
  { intros h p. rewrite HC. by case_decide. }
  pose proof (forest_one_place s f Hfit Hwf Hdist) as Hone.
  split; try done.
  - apply (tracks_uncache s f m); try done. intros h p Hp. by apply Hsub.
  - by apply pending_ready.
  - intros d (t & Ht & Hu)%Htarget. destruct (translated_elem t Ht) as (h & Hh & Hint & Hnt).
    destruct (cached_leaf s f m Hm hs Hhs h Hh) as (p & _ & [Hinp Hnp] & l & Hl & Hrem).
    assert (p = t) as -> by by apply (Hone p t h). exists t, l. by rewrite HN.
  - intros d h p Hd [Hh Hp]%Hsub Hu. pose proof (proj2 (proj2 Hm)) as Hd'.
    destruct (hd_cached _ _ _ _ _ Hd' h p Hp) as (Hnp & _ & l & Hl & _).
    destruct (hd_nodes _ _ _ _ _ Hd' p l Hl) as [Hinp _].
    destruct (Hleaf p h Hinp Hnp) as (t & Ht & Hut); [by exists d|].
    destruct (translated_elem t Ht) as (h' & Hh' & Hint & Hnt).
    destruct Hut as [->|Ha]; [congruence|].
    destruct (node_above s f Hfit t p (Lf h)) as (a & b & ?); try done. congruence.
Qed.

(** The cached leaves after the deletions. *)
Definition remaining (h : Hash) : option Z :=
  if decide (h ∈ hs) then None else moveAll n f D <$> CachedLeaves m !! h.

Lemma remove_tracks prf : ∃ m', remove (mkProof ts prf) hs m = (m', Ok tt) ∧
  tracks (Forest.del g ts s) f m' ∧ (∀ h, CachedLeaves m' !! h = remaining h).
Proof.
  destruct (deletable_run f D s _ remove_deletable) as (m' & E & Ht & HC).
  destruct (uncacheLeaves_fields hs m) as (HN & HL & HT & HC0). cbv zeta in *.
  pose proof Hm as (Hn & _ & Hh). pose proof (hd_rows _ _ _ _ _ Hh) as Hrows.
  exists m'. split_and!.
  - unfold remove. st_run. rewrite (cached_all m hs Hhs). cbn [negb]. cbn iota. st_run.
    cbn [Targets]. rewrite HL, HT, Hrows, Hn.
    rewrite (tr_maybe n f g _ Hfit remove_rows); [done|].
    apply (targets_pending s g). by apply (leaves_ok s g ts hs remove_rows).
  - pose proof translated_pending as Hpd.
    assert (stands_for s f translated D) as [_ _ _ Hdel].
    { apply (deTwin_loop_stands_for s f Hwf Hfit); try done; [by apply Hpd|by intros ? ? ? ?%Nat.nlt_0_r|].
      apply stands_for_refl. intros t (h & _ & _ & ->)%translated_elem. eauto. }
    rewrite <- translated_del, <- Hdel. done.
  - intros h. unfold remaining. rewrite HC, HC0. by case_decide.
Qed.
End Remove.
