(* ===== verification/Carry.v ===== *)
(** * Between two rows of an addition

    Adding a leaf carries a tree up from row to row, past the roots of the lower rows.
    After some rows the positions of the grown forest split into those below the carried
    tree, at [carryPos], those of the old forest, and the ones above the carried tree,
    which hold nothing yet.  This is a [part] of the grown forest. *)

From S2P Require Import Prelude Utils PosTheory HashPos Traverse Calc Walk.
From S2P Require Import Forest EvalTheory Stump StumpTheory StumpVerify ForestLeaves StumpSpec Moves Deletions.
From S2P Require Import MapPollard MapPollardInv.

Lemma detectRow_inF n f p : fits n f → inF n f p → detectRow p f = rowOf f p.
Proof.
  intros Hfit (r & o & -> & Hin). pose proof (in_forest_valid n f r o Hfit Hin).
  by rewrite detectRow_npos, rowOf_npos.
Qed.

(** The subtree [k] rows below the position of the tree [T]. *)
Fixpoint climb (f P : Z) (T : tree) (k : nat) (p : Z) : option tree :=
  match k with
  | O => if decide (p = P) then Some T else None
  | S k => climb f P T k (parent p f) ≫= child (Z.odd p)
  end.

Definition below_tree (f P : Z) (T : tree) (p : Z) : option tree :=
  climb f P T (Z.to_nat (rowOf f P - rowOf f p)) p.

Lemma below_tree_top f P T : below_tree f P T P = Some T.
Proof. unfold below_tree. rewrite Z.sub_diag. simpl. by case_decide. Qed.

(** A subtree [k] rows below has [k] levels less. *)
Lemma climb_height f P T k : ∀ p t, climb f P T k p = Some t → height t + Z.of_nat k ≤ height T.
Proof.
  induction k as [|k IH]; intros p t; cbn [climb].
  - destruct (decide _); [|done]. intros [= <-]. lia.
  - destruct (climb f P T k (parent p f)) as [[h|a b]|] eqn:E; [done| |done].
    apply IH in E. simpl in E. simpl. destruct (Z.odd p); simpl; intros [= <-]; lia.
Qed.

Section Carry.
Context `{HashFn} (s : forest) (f : Z).
Notation n := (nl s).
Context (Hfit : fits (n + 1) f).

Lemma carry_fits : fits n f.
Proof. destruct Hfit. split; [|done]. pose proof (nl_nonneg s). lia. Qed.

Lemma old_inF p : inF n f p → inF (n + 1) f p.
Proof. intros (r & o & -> & ? & ? & ?). eexists _, _. split; [done|]. split_and!; lia. Qed.

(** The position of the carried tree: the node of row [h] over the new leaf. *)
Definition carryPos (h : Z) : Z := npos f h (n / 2 ^ h).

Section Row.
Context (h : Z) (Hh : 0 ≤ h) (Hlow : n mod 2 ^ h = 2 ^ h - 1).
Notation P := (carryPos h).

Lemma carry_in_forest : in_forest (n + 1) h (n / 2 ^ h).
Proof.
  pose proof (pow2_pos h Hh). pose proof (Z.div_mod n (2 ^ h)). pose proof (nl_nonneg s).
  split_and!; [done|apply Z.div_pos; lia|]. nia.
Qed.

Lemma carry_valid : valid f h (n / 2 ^ h).
Proof. apply (in_forest_valid (n + 1)); [done|apply carry_in_forest]. Qed.

Lemma carry_inF : inF (n + 1) f P.
Proof. eexists _, _. split; [done|apply carry_in_forest]. Qed.

Lemma carry_row : rowOf f P = h.
Proof. unfold carryPos. by rewrite rowOf_npos by apply carry_valid. Qed.

(** The old forest has nothing at or above the position. *)
Lemma old_not_above p : inF n f p → ¬ under f p P.
Proof.
  intros (r & o & -> & Hin) Hu. pose proof (in_forest_valid n f r o carry_fits Hin) as Hv.
  apply under_npos in Hu as [Hr ->]; [|apply carry_valid|done].
  destruct Hin as (? & _ & Hle). rewrite div_div_pow2 in Hle by lia.
  replace (h + (r - h)) with r in Hle by lia. pose proof (pow2_pos r ltac:(lia)).
  pose proof (Z.div_mod n (2 ^ r)). pose proof (Z.mod_pos_bound n (2 ^ r)). nia.
Qed.

(** What is neither above nor below the position is in the old forest. *)
Lemma beside_old p : inF (n + 1) f p → isAncestor p P f = false → ¬ under f P p → inF n f p.
Proof.
  intros (r & o & -> & Hin) Ha Hu. pose proof (in_forest_valid (n + 1) f r o Hfit Hin) as Hv.
  pose proof carry_valid as HvP. destruct Hin as (Hr & Ho & Hle). eexists _, _. split; [done|].
  split_and!; [done..|]. destruct (Z.eq_dec ((o + 1) * 2 ^ r) (n + 1)) as [E|]; [|lia]. exfalso.
  assert (o = n / 2 ^ r) as Ho'.
  { pose proof (pow2_pos r Hr). apply (Z.div_unique _ _ _ (2 ^ r - 1)); lia. }
  destruct (Z.le_gt_cases r h).
  - apply Hu. apply under_npos; [done..|]. split; [done|]. rewrite Ho', div_div_pow2 by lia.
    do 2 f_equal. lia.
  - apply Bool.not_true_iff_false in Ha. apply Ha. unfold carryPos.
    rewrite isAncestor_npos by done. apply andb_true_iff. split; [by apply Z.ltb_lt|].
    apply Z.eqb_eq. rewrite Ho', div_div_pow2 by lia. do 2 f_equal. lia.
Qed.

(** ** The part *)

Context (T : tree).

Definition creg (p : Z) : Prop := inF (n + 1) f p ∧ isAncestor p P f = false.
Definition croot (p : Z) : bool := if decide (under f P p) then bool_decide (p = P) else root_at n f p.
Definition cview (p : Z) : option tree :=
  if decide (under f P p) then below_tree f P T p else node s f p.

Lemma creg_top : creg P ∧ croot P = true ∧ cview P = Some T.
Proof.
  split_and!.
  - split; [apply carry_inF|]. unfold isAncestor. by rewrite Z.eqb_refl.
  - unfold croot. rewrite decide_True by apply under_refl. by apply bool_decide_eq_true.
  - unfold cview. rewrite decide_True by apply under_refl. apply below_tree_top.
Qed.

Lemma creg_old p : inF n f p → creg p.
Proof.
  intros Hp. split; [by apply old_inF|]. apply not_true_is_false. intros Ha.
  apply (old_not_above p Hp). by right.
Qed.

Lemma creg_below p : inF (n + 1) f p → under f P p → creg p.
Proof.
  intros Hp Hu. split; [done|]. apply not_true_is_false. intros Ha.
  assert (p = P) as ->; [apply (under_antisym (n + 1) f Hfit); try done; [apply carry_inF|by right]|].
  unfold isAncestor in Ha. by rewrite Z.eqb_refl in Ha.
Qed.

Lemma creg_cases p : creg p → under f P p ∨ (¬ under f P p ∧ inF n f p).
Proof. intros [Hp Ha]. destruct (decide (under f P p)); [by left|right]. split; [done|by apply beside_old]. Qed.

(** Strictly below the position nothing is a root, and families stay below. *)
Lemma below_family p : inF (n + 1) f p → under f P p → p ≠ P →
  root_at (n + 1) f p = false ∧ under f P (parent p f) ∧ under f P (sibling p) ∧ sibling p ≠ P ∧
  inF (n + 1) f (parent p f) ∧ inF (n + 1) f (sibling p) ∧ rowOf f (parent p f) = rowOf f p + 1.
Proof.
  intros Hp Hu Hne. pose proof carry_inF as HP.
  assert (root_at (n + 1) f p = false) as Hr.
  { apply not_true_is_false. intros Hr. destruct Hu as [|Ha]; [done|]. by rewrite (anc_root (n + 1) f P p) in Ha. }
  destruct (sibling_props (n + 1) f p Hfit Hp Hr) as (Hs & Hpar & _ & Hrs & _).
  destruct (inF_family (n + 1) f p) as (r & o & E & _ & Hv & _ & _ & Epar & _ & Hvp & _); try done.
  split_and!; try done.
  - by apply (under_parent (n + 1) f Hfit P p).
  - by apply (sibling_under (n + 1) f Hfit).
  - intros Es. apply (not_under_sibling (n + 1) f Hfit (sibling p)); try done.
    by rewrite sibling_invol, Es.
  - by rewrite Epar, E, !rowOf_npos.
Qed.

(** Outside, families stay outside. *)
Lemma beside_family p : inF n f p → ¬ under f P p → root_at n f p = false →
  inF n f (parent p f) ∧ inF n f (sibling p) ∧ ¬ under f P (parent p f) ∧ ¬ under f P (sibling p) ∧
  root_at n f (sibling p) = false ∧ root_at (n + 1) f p = false.
Proof.
  intros Hp Hu Hr. destruct (sibling_props n f p carry_fits Hp Hr) as (Hs & Hpar & _ & Hrs & HpS).
  assert (root_at (n + 1) f p = false) as Hr1.
  { destruct (inF_family n f p carry_fits Hp Hr) as (r & o & -> & Hin & Hv & _ & _ & _ & Hpin & _).
    rewrite root_at_npos by done. apply not_true_is_false. intros Hroot.
    apply (root_parent_out (n + 1) r o); [by destruct Hin|done|]. destruct Hpin as (? & ? & ?). split_and!; lia. }
  split_and!; try done.
  - intros Hu'. apply Hu. assert (under f (parent p f) p) as Hup.
    { right. apply (anc_parent n f); auto using carry_fits. }
    apply (under_trans (n + 1) f Hfit P (parent p f) p); auto using carry_inF, old_inF.
  - intros Hu'. assert (sibling p ≠ P) as Hne.
    { intros E. apply (old_not_above (sibling p) Hs). rewrite E. apply under_refl. }
    apply Hu. rewrite <- (sibling_invol p). destruct (below_family (sibling p)) as (_ & _ & ? & _); try done.
    by apply old_inF.
Qed.

Lemma cview_below p : inF (n + 1) f p → under f P p → p ≠ P →
  cview p = cview (parent p f) ≫= child (Z.odd p).
Proof.
  intros Hp Hu Hne. destruct (below_family p Hp Hu Hne) as (_ & Hup & _ & _ & Hpar & _ & Hrow).
  unfold cview. rewrite !decide_True by done. unfold below_tree.
  pose proof (under_row (n + 1) f Hfit P _ carry_inF Hpar Hup) as Hle.
  replace (Z.to_nat (rowOf f P - rowOf f p)) with (S (Z.to_nat (rowOf f P - rowOf f (parent p f)))) by lia.
  done.
Qed.

Lemma carry_part : part (n + 1) f creg croot cview.
Proof.
  pose proof carry_inF as HP. split.
  - by intros p [? _].
  - intros q x [Hq Ha] Hx Hu. split; [done|]. apply not_true_is_false. intros Hb.
    apply Bool.not_true_iff_false in Ha. apply Ha. destruct Hu as [->|Hu]; [done|].
    by apply (anc_trans (n + 1) f q x P).
  - intros q x [Hq Ha] Hx Hu Hne. unfold croot. destruct (decide (under f P x)) as [HuP|HuP].
    + apply bool_decide_eq_false. intros ->. apply Bool.not_true_iff_false in Ha. apply Ha.
      by destruct Hu.
    + assert (inF n f q) as Hqn.
      { apply beside_old; try done. intros Hq'. apply HuP. by apply (under_trans (n + 1) f Hfit P q x). }
      destruct Hu as [|Hu]; [done|]. apply not_true_is_false. intros Hr.
      assert (inF n f x) as Hxn.
      { apply beside_old; try done. apply not_true_is_false. intros Hb. apply Bool.not_true_iff_false in Ha.
        apply Ha. by apply (anc_trans (n + 1) f q x P). }
      by rewrite (anc_root n f q x carry_fits) in Hu.
  - intros p Hp Hr. destruct (creg_cases p Hp) as [Hu|[Hu Hpn]]; unfold croot in Hr.
    + rewrite decide_True in Hr by done. apply bool_decide_eq_false in Hr. destruct Hp as [Hp _].
      destruct (below_family p Hp Hu Hr) as (_ & ? & Hus & ? & ? & ? & _).
      split_and!; [by apply creg_below..|]. unfold croot. rewrite decide_True by done.
      by apply bool_decide_eq_false.
    + rewrite decide_False in Hr by done. destruct (beside_family p Hpn Hu Hr) as (? & ? & ? & ? & ? & _).
      split_and!; [by apply creg_old..|]. unfold croot. by rewrite decide_False.
  - intros p Hp Hr. destruct (creg_cases p Hp) as [Hu|[Hu Hpn]]; unfold croot in Hr.
    + rewrite decide_True in Hr by done. apply bool_decide_eq_false in Hr. destruct Hp as [Hp _].
      by destruct (below_family p Hp Hu Hr) as (? & _).
    + rewrite decide_False in Hr by done. by apply beside_family.
  - intros p Hp Hr. destruct (creg_cases p Hp) as [Hu|[Hu Hpn]]; unfold croot in Hr.
    + rewrite decide_True in Hr by done. apply bool_decide_eq_false in Hr. destruct Hp as [Hp _].
      by apply cview_below.
    + rewrite decide_False in Hr by done. destruct (beside_family p Hpn Hu Hr) as (_ & _ & ? & _).
      unfold cview. rewrite !decide_False by done. by apply node_child; [apply carry_fits|..].
Qed.

(** ** The last row *)

Lemma carry_up : (n + 1) / 2 ^ h = n / 2 ^ h + 1.
Proof.
  pose proof (pow2_pos h Hh). pose proof (Z.div_mod n (2 ^ h)).
  symmetry. apply (Z.div_unique _ _ _ 0); lia.
Qed.

Lemma carry_root : root_at (n + 1) f P = negb (Z.testbit n h).
Proof.
  unfold carryPos. rewrite root_at_npos, is_root_div, carry_up, testbit_div by (lia || apply carry_valid).
  replace (n / 2 ^ h =? n / 2 ^ h + 1 - 1) with true by (symmetry; apply Z.eqb_eq; lia).
  by rewrite andb_true_r, Z.add_1_r, Z.odd_succ, <- Z.negb_odd.
Qed.

Section Last.
Context (Hbit : Z.testbit n h = false).

Lemma last_creg p : inF (n + 1) f p → creg p.
Proof.
  intros Hp. split; [done|]. apply (anc_root (n + 1) f p P Hfit Hp); [apply carry_inF|].
  by rewrite carry_root, Hbit.
Qed.

Lemma last_croot p : inF (n + 1) f p → croot p = root_at (n + 1) f p.
Proof.
  intros Hp. destruct (croot p) eqn:Hr.
  - unfold croot in Hr. destruct (decide (under f P p)) as [Hu|Hu].
    + apply bool_decide_eq_true in Hr as ->. by rewrite carry_root, Hbit.
    + symmetry. destruct (root_at (n + 1) f p) eqn:Hr1; [done|exfalso].
      destruct (sibling_props (n + 1) f p Hfit Hp Hr1) as (_ & Hpar & _).
      pose proof (last_creg p Hp) as Hreg. destruct (creg_cases p Hreg) as [?|[_ Hpn]]; [done|].
      destruct (creg_cases (parent p f) (last_creg _ Hpar)) as [Hu'|[_ Hparn]].
      * apply Hu. assert (under f (parent p f) p) as Hup by (right; apply (anc_parent (n + 1) f); auto).
        apply (under_trans (n + 1) f Hfit P (parent p f) p); auto using carry_inF.
      * destruct (inF_family (n + 1) f p Hfit Hp Hr1) as (r & o & E & Hin & Hv & _ & _ & Epar & _ & Hvp & _).
        rewrite E, root_at_npos in Hr by done. rewrite Epar in Hparn.
        destruct Hparn as (r' & o' & E' & Hin'). pose proof (in_forest_valid n f r' o' carry_fits Hin').
        apply npos_inj in E' as [<- <-]; [|done..].
        by apply (root_parent_out n r o) in Hr; [|by destruct Hin].
  - symmetry. apply (pt_top _ _ _ _ _ carry_part); [by apply last_creg|done].
Qed.

(** The carried tree is at last in the slot of its row. *)
Lemma last_cview a p : incr s (Lf a) = replicate (Z.to_nat h) None ++ incr (drop (Z.to_nat h) s) T →
  inF (n + 1) f p → root_at (n + 1) f p = true → cview p = node (incr s (Lf a)) f p.
Proof.
  intros Hs1 Hp Hr. pose proof (nl_incr s (Lf a)) as Hnl.
  assert (incr s (Lf a) = replicate (Z.to_nat h) None ++ Some (Some T) :: drop (S (Z.to_nat h)) s) as Hs2.
  { rewrite Hs1. f_equal. rewrite nl_testbit in Hbit by done.
    destruct (s !! Z.to_nat h) as [x|] eqn:E.
    - rewrite (drop_S _ _ _ E). by destruct x.
    - apply lookup_ge_None in E. rewrite !drop_ge by lia. done. }
  pose proof Hp as (r & o & -> & Hin). pose proof (in_forest_valid (n + 1) f r o Hfit Hin) as Hv.
  rewrite root_at_npos in Hr by done. pose proof Hr as Hr'.
  apply andb_true_iff in Hr' as [Hb ->%Z.eqb_eq]. pose proof Hv as (? & _).
  pose proof (node_root (incr s (Lf a)) f ltac:(by rewrite Hnl) r ltac:(lia) ltac:(by rewrite Hnl)) as Hn1.
  rewrite Hnl in Hn1. rewrite Hn1. rewrite <- Hnl, nl_testbit in Hb by lia. rewrite Hs2 in Hb.
  assert (h ≤ r) as Hhr.
  { destruct (Z.le_gt_cases h r); [done|]. rewrite lookup_app_l in Hb by (rewrite length_replicate; lia).
    rewrite lookup_replicate_2 in Hb by lia. done. }
  destruct (Z.eq_dec r h) as [->|Hne].
  - assert (npos f h (2 * ((n + 1) / 2 ^ (h + 1))) = P) as ->.
    { pose proof carry_root as Hroot. rewrite Hbit in Hroot. unfold carryPos in Hroot.
      rewrite root_at_npos in Hroot by apply carry_valid.
      apply andb_true_iff in Hroot as [_ E%Z.eqb_eq]. unfold carryPos. by rewrite E. }
    destruct creg_top as (_ & _ & ->). unfold slot. rewrite Hs2.
    rewrite lookup_app_r by (rewrite length_replicate; lia). by rewrite length_replicate, Nat.sub_diag.
  - pose proof (last_croot _ Hp) as Hcr. rewrite root_at_npos, Hr in Hcr by done. unfold croot in Hcr.
    destruct (decide _) as [Hu|Hu].
    { apply bool_decide_eq_true in Hcr. apply npos_inj in Hcr as [? _]; [lia|done|apply carry_valid]. }
    unfold cview. rewrite decide_False by done. rewrite root_at_npos in Hcr by done.
    apply andb_true_iff in Hcr as [Hbn ->%Z.eqb_eq]. rewrite (node_root s f carry_fits) by (done || lia).
    unfold slot. rewrite Hs2, lookup_app_r by (rewrite length_replicate; lia). rewrite length_replicate.
    replace (Z.to_nat r - Z.to_nat h)%nat with (S (Z.to_nat r - S (Z.to_nat h))) by lia. simpl.
    rewrite lookup_drop. do 2 f_equal. by replace (S (Z.to_nat h) + (Z.to_nat r - S (Z.to_nat h)))%nat with (Z.to_nat r) by lia.
Qed.
End Last.
End Row.
End Carry.

(** A part is determined by what is at its roots. *)
Lemma part_unique n f reg root N N' : fits n f → part n f reg root N → part n f reg root N' →
  (∀ p, reg p → root p = true → N p = N' p) → ∀ p, reg p → N p = N' p.
Proof.
  intros Hfit HN HN' Heq p. remember (Z.to_nat (f - rowOf f p)) as k eqn:Hk. revert p Hk.
  induction k as [k IH] using lt_wf_ind. intros p -> Hp.
  destruct (root p) eqn:Hr; [by apply Heq|].
  rewrite (pt_child _ _ _ _ _ HN p), (pt_child _ _ _ _ _ HN' p) by done. f_equal.
  destruct (inF_family n f p) as (r & o & E & _ & Hv & Hrf & _ & Epar & _ & Hvp & _).
  1,2: try done; by apply (pt_in _ _ _ _ _ HN).
  1: by apply (pt_top _ _ _ _ _ HN).
  apply (IH (Z.to_nat (f - rowOf f (parent p f)))); [|done|by apply (pt_family _ _ _ _ _ HN)].
  rewrite Epar, E, !rowOf_npos by done. lia.
Qed.
