(* ===== verification/CarryRows.v ===== *)
(** * One row of an addition

    In a row with a tree the carried tree joins it; in a row with an emptied tree it moves
    up.  [join_holds] and [grown_holds] say that a state which holds the part of one row
    then holds the part of the next. *)

From S2P Require Import Prelude State Utils PosTheory HashPos Traverse Calc Walk.
From S2P Require Import Forest EvalTheory Stump StumpTheory StumpVerify ForestLeaves StumpSpec Moves Deletions.
From S2P Require Import MapPollard MapPollardMoves MapPollardInv MapPollardObs Carry.

(** Two parts agree below a position if they agree at it. *)
Lemma part_below n f reg root N reg' root' N' Q : fits n f → part n f reg root N → part n f reg' root' N' →
  reg Q → reg' Q → N Q = N' Q → ∀ p, inF n f p → under f Q p → N p = N' p.
Proof.
  intros Hfit HN HN' HQ HQ' Heq p. remember (Z.to_nat (f - rowOf f p)) as k eqn:Hk. revert p Hk.
  induction k as [k IH] using lt_wf_ind. intros p -> Hp Hu.
  destruct (decide (p = Q)) as [->|Hne]; [done|].
  pose proof (pt_down _ _ _ _ _ HN Q p HQ Hp Hu) as Hreg. pose proof (pt_down _ _ _ _ _ HN' Q p HQ' Hp Hu) as Hreg'.
  pose proof (pt_below _ _ _ _ _ HN Q p HQ Hp Hu Hne) as Hr. pose proof (pt_below _ _ _ _ _ HN' Q p HQ' Hp Hu Hne) as Hr'.
  rewrite (pt_child _ _ _ _ _ HN p), (pt_child _ _ _ _ _ HN' p) by done. f_equal.
  pose proof (pt_top _ _ _ _ _ HN p Hreg Hr) as Hroot.
  destruct (inF_family n f p Hfit Hp Hroot) as (r & o & E & _ & Hv & Hrf & _ & Epar & _ & Hvp & _).
  assert (inF n f (parent p f)) as Hpar by (by destruct (sibling_props n f p Hfit Hp Hroot) as (_ & ? & _)).
  apply (IH (Z.to_nat (f - rowOf f (parent p f)))); [|done|done|].
  - rewrite Epar, E, !rowOf_npos by done. lia.
  - apply (under_parent n f Hfit Q p); try done. by apply (pt_in _ _ _ _ _ HN).
Qed.

(** Pruning the nieces of a position touches only its children. *)
Lemma pruneNieces_other m p y : y ≠ leftChild p (TotalRows m) → y ≠ sibling (leftChild p (TotalRows m)) →
  Nodes (pruneNieces p m) !! y = Nodes m !! y.
Proof.
  intros H1 H2. unfold pruneNieces, prunePosition. destruct (_ =? 0); [done|].
  destruct (negb _ && negb _); [|done].
  destruct (niecesPresent m (sibling _)); cbn [negb]; destruct (niecesPresent _ (leftChild _ _)); cbn [negb];
    cbn [Nodes deleteNode setNodes]; by rewrite ?lookup_delete_ne.
Qed.

(** A node that pruning deletes anyway may be deleted before. *)
Lemma prunePosition_stale m p : let f := TotalRows m in
  Remember (nodeAt m p) = false → Remember (nodeAt m (sibling p)) = false → niecesPresent m p = false →
  (detectRow (sibling p) f ≠ 0 → p ≠ leftChild p f ∧ p ≠ rightChild p f) →
  prunePosition p m = prunePosition p (deleteNode p m).
Proof.
  intros f H1 H2 H3 Hkids.
  assert (p ≠ sibling p) as Hne by (rewrite sibling_eq; destruct (Z.even p); lia).
  assert (niecesPresent (deleteNode p m) (sibling p) = niecesPresent m (sibling p)) as HN1.
  { unfold niecesPresent, hasNode. cbn [TotalRows Nodes deleteNode setNodes]. fold f.
    destruct (Z.eqb_spec (detectRow (sibling p) f) 0) as [|Hrow]; [done|]. destruct (Hkids Hrow).
    rewrite sibling_invol. by rewrite !lookup_delete_ne. }
  assert (∀ k, TotalRows k = f → (∀ c, Nodes m !! c = None → Nodes k !! c = None) → niecesPresent k p = false) as HN2.
  { intros k Hk Hsub. unfold niecesPresent, hasNode in *. rewrite Hk. fold f in H3. destruct (_ =? 0); [done|].
    apply orb_false_iff in H3 as [Hl Hr]. apply bool_decide_eq_false, eq_None_not_Some in Hl, Hr.
    apply orb_false_iff; split; apply bool_decide_eq_false, eq_None_not_Some; auto. }
  assert (nodeAt (deleteNode p m) (sibling p) = nodeAt m (sibling p)) as HA
    by (unfold nodeAt; cbn [Nodes deleteNode setNodes]; by rewrite lookup_delete_ne).
  assert (Remember (nodeAt (deleteNode p m) p) = false) as HB
    by (unfold nodeAt; cbn [Nodes deleteNode setNodes]; by rewrite lookup_delete_eq).
  unfold prunePosition. rewrite HA, HB, H1, H2, HN1. cbn [negb andb].
  assert (∀ c q k, Nodes k !! c = None → Nodes (deleteNode q k) !! c = None) as Hdel.
  { intros c q k Hc. cbn [Nodes deleteNode setNodes].
    destruct (decide (c = q)) as [->|]; [apply lookup_delete_eq|by rewrite lookup_delete_ne]. }
  destruct (negb (niecesPresent m (sibling p))); rewrite !HN2 by (try done; intros; repeat apply Hdel; done);
    cbn [negb]; unfold deleteNode, setNodes; cbn [Nodes CachedLeaves NumLeaves TotalRows]; f_equal.
  - by rewrite (delete_delete (Nodes m) (sibling p) p), delete_delete_eq.
  - by rewrite delete_delete_eq.
Qed.

Section Rows.
Context `{HashLaws} (s : forest) (f : Z) (Hwf : wf s) (Hfit : fits (nl s + 1) f).
Notation n := (nl s).
Notation P := (carryPos s f).
Notation reg := (creg s f).
Notation croot := (croot s f).
Notation view := (cview s f).

Section Next.
Context (h : Z) (Hh : 0 ≤ h) (Hlow : n mod 2 ^ h = 2 ^ h - 1) (Hbit : Z.testbit n h = true).

(** The root of the row, the left sibling of the carried tree. *)
Definition rootAt : Z := npos f h (2 * (n / 2 ^ (h + 1))).
Notation R := rootAt.

Lemma next_low : n mod 2 ^ (h + 1) = 2 ^ (h + 1) - 1.
Proof. pose proof (carry_div n h Hh Hlow) as Hc. rewrite Hbit in Hc. tauto. Qed.

Lemma next_odd : n / 2 ^ h = 2 * (n / 2 ^ (h + 1)) + 1.
Proof.
  pose proof Hbit as Hb. rewrite testbit_div in Hb by done.
  pose proof (Z.div2_odd (n / 2 ^ h)) as Ho. rewrite Z.div2_div, <- div_pow2_succ, Hb in Ho by lia. done.
Qed.

Lemma next_family : inF n f R ∧ root_at n f R = true ∧ node s f R = slot s h ∧
  inF (n + 1) f R ∧ root_at (n + 1) f R = false ∧ sibling R = P h ∧ sibling (P h) = R ∧
  parent R f = P (h + 1) ∧ parent (P h) f = P (h + 1) ∧ Z.odd (P h) = true ∧ Z.odd R = false.
Proof.
  destruct (root_valid n f h (carry_fits s f Hfit) Hh Hbit) as (Hr & Hin & Hv).
  pose proof (carry_valid s f Hfit h Hh Hlow) as HvP. pose proof Hv as (? & ? & ?).
  pose proof next_odd as Ho.
  assert (inF n f R) as HinR by (eexists _, _; done).
  pose proof (carry_root s f Hfit h Hh Hlow) as HrP. rewrite Hbit in HrP. simpl in HrP.
  destruct (sibling_props (n + 1) f (P h) Hfit (carry_inF s f h Hh Hlow) HrP) as (_ & _ & _ & HrS & _).
  destruct (inF_family (n + 1) f (P h) Hfit (carry_inF s f h Hh Hlow) HrP)
    as (r & o & E & _ & Hvo & Hrf & _ & Epar & _ & _ & Esib & _ & Hev).
  apply npos_inj in E as [<- <-]; [|done..].
  assert (sibling (n / 2 ^ h) = 2 * (n / 2 ^ (h + 1))) as Es.
  { rewrite sibling_eq, Ho, Z.even_add, Z.even_mul. simpl. lia. }
  rewrite Es in Esib. fold R in Esib.
  assert (Z.odd (P h) = true) as HoP.
  { rewrite <- Z.negb_even, Hev, Ho, Z.even_add, Z.even_mul. done. }
  assert (sibling R = P h) as HsR by (by rewrite <- Esib, sibling_invol).
  assert (parent R f = P (h + 1)) as HpR.
  { unfold R, carryPos. rewrite parent_npos by (done || lia). f_equal.
    symmetry. apply (Z.div_unique _ _ _ 0); lia. }
  assert (Z.odd R = false) as HoR.
  { rewrite <- Z.negb_even. unfold R. rewrite npos_even by (done || lia). by rewrite Z.even_mul. }
  split_and!; try done.
  - unfold R. by rewrite root_at_npos.
  - apply node_root; [apply (carry_fits s f Hfit)|done|done].
  - by apply old_inF.
  - by rewrite <- Esib.
  - rewrite Epar, <- div_pow2_succ by done. done.
Qed.

Lemma next_reg p : reg (h + 1) p ↔ p = P (h + 1) ∨ reg h p.
Proof.
  destruct next_family as (_ & _ & _ & _ & _ & _ & _ & _ & HpP & _).
  pose proof (carry_root s f Hfit h Hh Hlow) as HrP. rewrite Hbit in HrP. simpl in HrP.
  pose proof (carry_inF s f h Hh Hlow) as HP.
  pose proof (carry_inF s f (h + 1) ltac:(lia) next_low) as HP'.
  assert (∀ p, inF (n + 1) f p → isAncestor p (P h) f = true ↔ p = P (h + 1) ∨ isAncestor p (P (h + 1)) f = true) as Ha.
  { intros q Hq. rewrite (anc_parent (n + 1) f q (P h)), HpP by done. done. }
  destruct (creg_top s f (h + 1) ltac:(lia) next_low (Lf empty)) as ([_ Htop] & _).
  unfold creg. rewrite <- !Bool.not_true_iff_false in *. split.
  - intros [Hp Hn]. destruct (decide (p = P (h + 1))) as [|Hne]; [by left|right]. split; [done|].
    rewrite Ha by done. tauto.
  - intros [->|[Hp Hn]]; [done|].
    split; [done|]. rewrite Ha in Hn by done. tauto.
Qed.

Lemma next_fresh : ¬ reg h (P (h + 1)).
Proof.
  destruct next_family as (_ & _ & _ & _ & _ & _ & _ & _ & HpP & _).
  pose proof (carry_root s f Hfit h Hh Hlow) as HrP. rewrite Hbit in HrP. simpl in HrP.
  intros [Hin Hn]. rewrite (proj2 (anc_parent (n + 1) f (P (h + 1)) (P h) Hfit Hin
    (carry_inF s f h Hh Hlow) HrP)) in Hn; [done|]. by left.
Qed.

(** What is below the next position. *)
Lemma next_under p : inF (n + 1) f p → under f (P (h + 1)) p ↔ p = P (h + 1) ∨ under f R p ∨ under f (P h) p.
Proof.
  destruct next_family as (_ & _ & _ & HR & HrR & HsR & _ & HpR & _). intros Hp.
  rewrite <- HpR, <- HsR. by apply (under_split (n + 1) f Hfit R HR HrR).
Qed.

Lemma next_root_beside : ¬ under f (P h) R.
Proof.
  destruct next_family as (_ & _ & _ & HR & HrR & HsR & HsP & _).
  rewrite <- HsP. apply (not_under_sibling (n + 1) f Hfit); [apply (carry_inF s f h Hh Hlow)|].
  by rewrite carry_root, Hbit.
Qed.

(** The two joined positions stop being roots, the others stay what they are. *)
Lemma next_croot p : reg h p → croot (h + 1) p =
  if decide (p = P h ∨ p = R) then false else croot h p.
Proof.
  intros Hp. pose proof Hp as [Hin _]. destruct next_family as (HRn & HrRn & _ & HR & _).
  assert (p ≠ P (h + 1)) as Hne by (intros ->; by apply next_fresh).
  pose proof (next_under p Hin) as Hu. unfold Carry.croot.
  destruct (decide (under f (P (h + 1)) p)) as [Hu'|Hu'].
  - rewrite (bool_decide_eq_false_2 _ Hne). destruct (decide (p = P h ∨ p = R)) as [|Hn]; [done|].
    destruct (decide (under f (P h) p)) as [HuP|HuP].
    + symmetry. apply bool_decide_eq_false. tauto.
    + symmetry. apply Hu in Hu' as [?|[HuR|?]]; [done| |done].
      apply not_true_is_false. intros Hr.
      assert (inF n f p) as Hpn by (by destruct (creg_cases s f Hfit h Hh Hlow p Hp) as [|[_ ?]]).
      destruct HuR as [?|Ha]; [tauto|]. by rewrite (anc_root n f R p (carry_fits s f Hfit)) in Ha.
  - rewrite decide_False.
    2:{ intros [->| ->]; apply Hu', Hu; auto using under_refl. }
    rewrite decide_False; [done|]. intros ?. apply Hu', Hu. auto.
Qed.

Lemma next_top : reg (h + 1) (P (h + 1)) ∧ croot (h + 1) (P (h + 1)) = true ∧
  ∀ T, view (h + 1) T (P (h + 1)) = Some T.
Proof.
  destruct (creg_top s f (h + 1) ltac:(lia) next_low (Lf empty)) as (? & ? & _).
  split_and!; try done. intros T. by destruct (creg_top s f (h + 1) ltac:(lia) next_low T) as (_ & _ & ?).
Qed.

Lemma next_roots : reg h (P h) ∧ reg h R ∧ croot h (P h) = true ∧ croot h R = true ∧
  ∀ T, view h T (P h) = Some T ∧ view h T R = slot s h.
Proof.
  destruct next_family as (HRn & HrRn & Hslot & _). pose proof next_root_beside as Hb.
  destruct (creg_top s f h Hh Hlow (Lf empty)) as (? & ? & _).
  split_and!; [done|by apply creg_old|done|unfold Carry.croot; by rewrite decide_False|].
  intros T. destruct (creg_top s f h Hh Hlow T) as (_ & _ & ?). split; [done|].
  unfold cview. by rewrite decide_False.
Qed.

(** The subtrees at the two joined positions are the children of the carried tree. *)
Lemma next_children T : view (h + 1) T (P h) = child true T ∧ view (h + 1) T R = child false T.
Proof.
  destruct next_family as (_ & _ & _ & HR & _ & _ & _ & HpR & HpP & HoP & HoR).
  pose proof (carry_inF s f h Hh Hlow) as HP. destruct next_top as (_ & _ & Htop).
  assert (∀ q, inF (n + 1) f q → under f (P (h + 1)) q → q ≠ P (h + 1) → parent q f = P (h + 1) →
    view (h + 1) T q = child (Z.odd q) T) as Hq.
  { intros q Hq Hu Hne Hpq. rewrite (cview_below s f Hfit (h + 1) ltac:(lia) next_low T q) by done.
    by rewrite Hpq, Htop. }
  split; [rewrite <- HoP|rewrite <- HoR]; apply Hq; try done.
  - apply next_under; auto using under_refl.
  - intros E. apply next_fresh. rewrite <- E. by apply next_roots.
  - apply next_under; auto using under_refl.
  - intros E. apply next_fresh. rewrite <- E. by apply next_roots.
Qed.

Lemma next_leftChild : leftChild (P (h + 1)) f = R.
Proof.
  pose proof (carry_valid s f Hfit (h + 1) ltac:(lia) next_low) as HvP.
  unfold carryPos. rewrite leftChild_npos by (done || lia). done.
Qed.

Lemma next_distinct : R ≠ P (h + 1) ∧ P h ≠ P (h + 1).
Proof. destruct next_roots as (HPr & HRr & _). split; intros E; apply next_fresh; by rewrite <- E. Qed.

(** What [pruneNieces] at the next position leaves alone. *)
Lemma next_pruned m : TotalRows m = f → Nodes (pruneNieces (P (h + 1)) m) !! P (h + 1) = Nodes m !! P (h + 1).
Proof.
  intros Hrows. destruct next_distinct. destruct next_family as (_ & _ & _ & _ & _ & HsR & _).
  apply pruneNieces_other; by rewrite Hrows, next_leftChild, ?HsR.
Qed.

Section Join.
Context (T l : tree) (Hslot : slot s h = Some l).

Lemma join_view p : reg h p → view (h + 1) (Nd l T) p = view h T p.
Proof.
  intros Hp. pose proof Hp as [Hin _]. destruct next_roots as (HPr & HRr & _ & _ & Hv).
  destruct (Hv T) as [HvP HvR]. rewrite Hslot in HvR. destruct (next_children (Nd l T)) as [HcP HcR].
  simpl in HcP, HcR.
  pose proof (carry_part s f Hfit h Hh Hlow T) as HpA.
  pose proof (carry_part s f Hfit (h + 1) ltac:(lia) next_low (Nd l T)) as HpB.
  destruct (decide (under f (P (h + 1)) p)) as [Hu|Hu].
  - apply next_under in Hu as [->|[Hu|Hu]]; [by apply next_fresh in Hp|..|done].
    + apply (part_below (n + 1) f _ _ _ _ _ _ R Hfit HpB HpA); [by apply next_reg; right|done|congruence|done..].
    + apply (part_below (n + 1) f _ _ _ _ _ _ (P h) Hfit HpB HpA); [by apply next_reg; right|done|congruence|done..].
  - unfold cview. rewrite !decide_False; [done| |done].
    intros Hbad. apply Hu. apply next_under; auto.
Qed.

Lemma join_holds m l0 pNode : holds f (reg h) (croot h) (view h T) m →
  Nodes m !! R = Some l0 → Nodes m !! P h = Some pNode →
  holds f (reg (h + 1)) (croot (h + 1)) (view (h + 1) (Nd l T))
    (putNode (P (h + 1)) (mkLeaf (parentHash (leafHash l0) (leafHash pNode)) false) m).
Proof.
  intros Hm HR HP. destruct next_roots as (HPr & HRr & HPc & HRc & Hv). destruct (Hv T) as [HvP HvR].
  destruct next_family as (_ & _ & _ & _ & _ & HsR & HsP & HpR & HpP & _).
  destruct next_top as (Htr & Htc & Htv).
  destruct (hd_nodes _ _ _ _ _ Hm _ _ HR) as (_ & HlR & _).
  destruct (hd_nodes _ _ _ _ _ Hm _ _ HP) as (_ & HlP & _).
  rewrite HvR, Hslot in HlR. rewrite HvP in HlP. simpl in HlR, HlP.
  assert (∀ y x, Nodes (putNode (P (h + 1)) x m) !! y = if decide (y = P (h + 1)) then Some x else Nodes m !! y) as Hput.
  { intros y x. cbn [Nodes putNode setNodes]. destruct (decide _) as [->|]; [apply lookup_insert_eq|].
    by rewrite lookup_insert_ne. }
  assert (∀ y, reg h y → y ≠ P (h + 1)) as Hne by (intros y Hy ->; by apply next_fresh).
  assert (∀ y, reg (h + 1) y → y ≠ P (h + 1) → reg h y) as Hold by (intros y [?|?]%next_reg ?; done).
  assert (∀ y, reg (h + 1) y → croot (h + 1) y = false → reg h y ∧ (y = P h ∨ y = R ∨ croot h y = false)) as Hcr.
  { intros y Hy Hr. assert (reg h y) as Hy' by (apply Hold; [done|intros ->; congruence]). split; [done|].
    rewrite next_croot in Hr by done. destruct (decide _) as [[?|?]|]; auto. }
  split.
  - apply (hd_rows _ _ _ _ _ Hm).
  - intros p x. rewrite Hput. destruct (decide (p = P (h + 1))) as [->|Hp].
    + intros [= <-]. split; [done|]. rewrite Htv. simpl. rewrite HlR, HlP. split; [done|congruence].
    + intros Hx. destruct (hd_nodes _ _ _ _ _ Hm p x Hx) as (Hrp & Hlp & Hsome).
      split; [apply next_reg; auto|]. rewrite join_view by done. split; [done|]. intros Hr.
      rewrite next_croot in Hr by done. destruct (decide _) as [[->| ->]|]; [rewrite HvP; eauto|rewrite HvR, Hslot; eauto|auto].
  - intros p Hp Hr. rewrite Hput. destruct (decide _) as [|Hne']; [eauto|].
    pose proof (Hold p Hp Hne') as Hp'. rewrite next_croot in Hr by done.
    destruct (decide _); [done|]. by apply (hd_roots _ _ _ _ _ Hm).
  - intros p x. rewrite Hput. destruct (decide _) as [|Hne']; [by intros [= <-]|]. intros Hx Hrem.
    rewrite join_view by (by eapply hd_nodes). by apply (hd_flag _ _ _ _ _ Hm p x).
  - intros p x q. rewrite !Hput. destruct (decide (p = _)) as [|Hne']; [by intros [= <-]|].
    intros Hx Hrem Hq Hu Hr. destruct (decide _) as [|_]; [eauto|].
    destruct (Hcr q Hq Hr) as (Hq' & [->|[->|Hr']]); [by rewrite HsP, HR|by rewrite HsR, HP|].
    by apply (hd_need _ _ _ _ _ Hm p x q).
  - intros q Hq Hr Hrp. rewrite !Hput. destruct (Hcr q Hq Hr) as (Hq' & Hcase).
    rewrite decide_False by auto. intros Hsome. destruct (decide _) as [|_]; [eauto|].
    destruct Hcase as [->|[->|Hr']]; [rewrite HpP in Hrp; congruence|rewrite HpR in Hrp; congruence|].
    destruct (pt_family _ _ _ _ _ (carry_part s f Hfit (h + 1) ltac:(lia) next_low T) q Hq Hr) as (Hpq & _).
    destruct (Hcr _ Hpq Hrp) as (Hpq' & [->|[->|Hrp']]); [by rewrite HsP, HR|by rewrite HsR, HP|].
    by apply (hd_up _ _ _ _ _ Hm q).
  - intros x p Hp. destruct (hd_cached _ _ _ _ _ Hm x p Hp) as (Hn & Hleafy & y & Hy & Hrem).
    destruct (hd_nodes _ _ _ _ _ Hm p y Hy) as (Hrp & _). rewrite join_view by done. split_and!; try done.
    exists y. rewrite Hput, decide_False by auto. done.
Qed.

Lemma join_one : one_place (reg h) (view h T) → one_place (reg (h + 1)) (view (h + 1) (Nd l T)).
Proof.
  intros Hone p q x Hp Hq Hnp Hnq. destruct next_top as (_ & _ & Htv).
  apply next_reg in Hp as [->|Hp], Hq as [->|Hq]; rewrite ?Htv in *; try done.
  rewrite join_view in Hnp, Hnq by done. by apply (Hone p q x).
Qed.
End Join.

Section Lift.
Context (T : tree) (Hslot : slot s h = None) (Hheight : height T ≤ h).
Notation mv := (mv f R).

(** The next position and the two joined ones, in the terms of a deletion of the root. *)
Lemma lift_setup : inF (n + 1) f R ∧ root_at (n + 1) f R = false ∧ sibling R = P h ∧
  parent R f = P (h + 1) ∧ inF (n + 1) f (P h) ∧ inF (n + 1) f (P (h + 1)) ∧
  rowOf f R = h ∧ rowOf f (P h) = h ∧ rowOf f (P (h + 1)) = h + 1 ∧ mv (P h) = P (h + 1).
Proof.
  destruct next_family as (_ & _ & _ & HR & HrR & HsR & _ & HpR & _).
  pose proof (carry_inF s f h Hh Hlow) as HP. pose proof (carry_inF s f (h + 1) ltac:(lia) next_low) as HP'.
  pose proof (carry_row s f Hfit h Hh Hlow) as HrowP.
  destruct (sibling_props (n + 1) f R Hfit HR HrR) as (_ & _ & Hrow & _).
  split_and!; try done.
  - by rewrite HsR, HrowP in Hrow.
  - apply (carry_row s f Hfit); [lia|apply next_low].
  - rewrite <- HsR, <- HpR. by apply (mv_sibling (n + 1) f Hfit R HR HrR).
Qed.

Lemma lift_apart x : inF (n + 1) f x → under f (P h) x → ¬ under f R x.
Proof.
  destruct lift_setup as (HR & HrR & HsR & HpR & HP & HP' & HrowR & HrowP & HrowP' & _).
  intros Hx HuP Hu. apply next_root_beside.
  apply (under_comparable (n + 1) f Hfit R (P h) x); try done. lia.
Qed.

Lemma lift_cases x : reg h x → ¬ under f R x →
  under f (P h) x ∨ (¬ under f (P h) x ∧ ¬ under f (P (h + 1)) x ∧ mv x = x).
Proof.
  intros Hx Hnd. pose proof Hx as [Hin _].
  destruct (decide (under f (P h) x)) as [|Hn]; [by left|right].
  assert (¬ under f (P (h + 1)) x) as Hu.
  { rewrite next_under by done. intros [->|[?|?]]; [by apply next_fresh in Hx|done..]. }
  split_and!; try done. destruct lift_setup as (HR & HrR & HsR & HpR & _).
  apply (mv_outside (n + 1)); [done|by rewrite HpR].
Qed.

Lemma lift_below x : inF (n + 1) f x → under f (P h) x →
  inF (n + 1) f (mv x) ∧ under f (P (h + 1)) (mv x) ∧ rowOf f (mv x) = rowOf f x + 1 ∧
  (x ≠ P h → mv x ≠ P (h + 1)).
Proof.
  destruct lift_setup as (HR & HrR & HsR & HpR & HP & HP' & HrowR & HrowP & HrowP' & HmP).
  intros Hx Hu. pose proof Hu as Hu'. rewrite <- HsR in Hu'.
  destruct (mv_row (n + 1) f Hfit R HR HrR x Hx Hu') as [Hrow Hin].
  destruct (mv_under (n + 1) f Hfit R HR HrR x Hx Hu') as [HuM _]. rewrite HpR in HuM.
  split_and!; try done. intros Hne E. apply Hne.
  apply (mv_eq (n + 1) f Hfit R HR HrR); try done; [by rewrite HsR; apply under_refl|congruence].
Qed.

(** A family below the carried tree moves together. *)
Lemma lift_family_below x : inF (n + 1) f x → under f (P h) x → x ≠ P h →
  under f (P h) (parent x f) ∧ under f (P h) (sibling x) ∧ inF (n + 1) f (parent x f) ∧
  inF (n + 1) f (sibling x) ∧ parent (mv x) f = mv (parent x f) ∧ sibling (mv x) = mv (sibling x) ∧
  Z.odd (mv x) = Z.odd x ∧ rowOf f (parent x f) = rowOf f x + 1.
Proof.
  destruct lift_setup as (HR & HrR & HsR & HpR & _). intros Hx Hu Hne.
  destruct (below_family s f Hfit h Hh Hlow x Hx Hu Hne) as (_ & ? & ? & _ & ? & ? & ?).
  rewrite <- HsR in Hu, Hne.
  destruct (mv_family (n + 1) f Hfit R HR HrR x Hx Hu Hne) as (_ & _ & _ & _ & ? & ? & ?). done.
Qed.

Lemma lift_view_below x : inF (n + 1) f x → under f (P h) x → view (h + 1) T (mv x) = view h T x.
Proof.
  destruct lift_setup as (HR & HrR & HsR & HpR & HP & HP' & HrowR & HrowP & HrowP' & HmP).
  remember (Z.to_nat (h - rowOf f x)) as k eqn:Hk. revert x Hk.
  induction k as [k IH] using lt_wf_ind. intros x -> Hx Hu.
  destruct (decide (x = P h)) as [->|Hne].
  { rewrite HmP. destruct next_top as (_ & _ & ->). destruct next_roots as (_ & _ & _ & _ & Hv).
    by destruct (Hv T) as [-> _]. }
  destruct (lift_family_below x Hx Hu Hne) as (Hup & _ & Hpar & _ & Epar & _ & Eodd & Hrow).
  destruct (lift_below x Hx Hu) as (HinM & HuM & _ & HneM).
  pose proof (under_row (n + 1) f Hfit (P h) _ HP Hpar Hup) as Hle.
  rewrite (cview_below s f Hfit h Hh Hlow T x), (cview_below s f Hfit (h + 1) ltac:(lia) next_low T (mv x)) by auto.
  rewrite Epar, Eodd. f_equal. by apply (IH (Z.to_nat (h - rowOf f (parent x f))) ltac:(lia)).
Qed.

(** What moves stays what it was. *)
Lemma lift_same x : reg h x → ¬ under f R x →
  reg (h + 1) (mv x) ∧ croot (h + 1) (mv x) = croot h x ∧ view (h + 1) T (mv x) = view h T x.
Proof.
  destruct lift_setup as (HR & HrR & HsR & HpR & HP & HP' & HrowR & HrowP & HrowP' & HmP).
  intros Hx Hnd. pose proof Hx as [Hin _]. destruct (lift_cases x Hx Hnd) as [Hu|(Hu & Hu' & E)].
  - destruct (lift_below x Hin Hu) as (HinM & HuM & _ & HneM).
    split_and!; [by apply (creg_below s f Hfit (h + 1) ltac:(lia) next_low)| |by apply lift_view_below].
    unfold Carry.croot. rewrite !decide_True by done. destruct (decide (x = P h)) as [->|Hne].
    + by rewrite HmP, !bool_decide_eq_true_2.
    + rewrite !bool_decide_eq_false_2; auto.
  - rewrite E. split_and!.
    + apply next_reg. by right.
    + unfold Carry.croot. by rewrite !decide_False.
    + unfold cview. by rewrite !decide_False.
Qed.

Lemma lift_family x : reg h x → ¬ under f R x → croot h x = false →
  reg h (parent x f) ∧ reg h (sibling x) ∧ ¬ under f R (parent x f) ∧ ¬ under f R (sibling x) ∧
  parent (mv x) f = mv (parent x f) ∧ sibling (mv x) = mv (sibling x).
Proof.
  intros Hx Hnd Hr. pose proof Hx as [Hin _].
  destruct (pt_family _ _ _ _ _ (carry_part s f Hfit h Hh Hlow T) x Hx Hr) as (Hpr & Hsr & _).
  destruct (lift_cases x Hx Hnd) as [Hu|(Hu & Hu' & E)].
  - assert (x ≠ P h) as Hne by (intros ->; destruct next_roots as (_ & _ & ? & _); congruence).
    destruct (lift_family_below x Hin Hu Hne) as (Hup & Hus & Hpar & Hs & ? & ? & _).
    split_and!; try done; by apply lift_apart.
  - assert (inF n f x ∧ root_at n f x = false) as [Hxn Hrn].
    { destruct (creg_cases s f Hfit h Hh Hlow x Hx) as [?|[_ ?]]; [done|]. split; [done|].
      unfold Carry.croot in Hr. by rewrite decide_False in Hr. }
    pose proof (carry_part s f Hfit (h + 1) ltac:(lia) next_low T) as HpB.
    destruct (beside_family s f Hfit (h + 1) ltac:(lia) next_low x Hxn Hu' Hrn) as (Hpn & Hsn & Hup & Hus & _).
    assert (∀ q, inF n f q → ¬ under f (P (h + 1)) q → ¬ under f R q ∧ mv q = q) as Hq.
    { intros q Hq Hn. pose proof (old_inF s f q Hq) as Hq1. split.
      - intros Hb. apply Hn. apply next_under; auto.
      - destruct lift_setup as (HR & HrR & HsR & HpR & _). apply (mv_outside (n + 1)); [done|by rewrite HpR]. }
    destruct (Hq _ Hpn Hup) as [? ->]. destruct (Hq _ Hsn Hus) as [? ->]. by rewrite E.
Qed.

Lemma lift_under z x : reg h z → ¬ under f R z → reg h x → ¬ under f R x →
  under f (mv z) (mv x) → under f z x.
Proof.
  destruct lift_setup as (HR & HrR & HsR & HpR & HP & HP' & HrowR & HrowP & HrowP' & HmP).
  intros Hz Hndz Hx Hndx Hu. pose proof Hz as [Hinz _]. pose proof Hx as [Hinx _].
  destruct (lift_cases z Hz Hndz) as [Huz|(Hnz & Hnz' & Ez)], (lift_cases x Hx Hndx) as [Hux|(Hnx & Hnx' & Ex)].
  - by apply (under_mv (n + 1) f Hfit R HR HrR z x); rewrite ?HsR.
  - exfalso. rewrite Ex in Hu. apply Hnx'. destruct (lift_below z Hinz Huz) as (HinM & HuM & _).
    by apply (under_trans (n + 1) f Hfit (P (h + 1)) (mv z) x).
  - exfalso. rewrite Ez in Hu. destruct (lift_below x Hinx Hux) as (HinM & HuM & _).
    destruct (Z.le_gt_cases (rowOf f z) (rowOf f (P (h + 1)))) as [Hle|Hgt].
    + apply Hnz'. by apply (under_comparable (n + 1) f Hfit z (P (h + 1)) (mv x)).
    + assert (reg (h + 1) z) as [_ Ha] by by apply next_reg; right.
      assert (under f z (P (h + 1))) as [E|Hb]; [|rewrite E in Hgt; lia|congruence].
      apply (under_comparable (n + 1) f Hfit (P (h + 1)) z (mv x)); try done. lia.
  - by rewrite Ez, Ex in Hu.
Qed.

(** Only positions of row 0 are new. *)
Lemma lift_onto y : reg (h + 1) y → under f (P (h + 1)) y → 1 ≤ rowOf f y →
  ∃ x, reg h x ∧ ¬ under f R x ∧ y = mv x.
Proof.
  destruct lift_setup as (HR & HrR & HsR & HpR & HP & HP' & _). intros [Hy _] Hu Hrow.
  rewrite <- HpR in Hu. destruct (mv_onto (n + 1) f Hfit R HR HrR y Hy Hu Hrow) as (x & Hx & Hux & ->).
  rewrite HsR in Hux. exists x. split_and!; [by apply creg_below|by apply lift_apart|done].
Qed.

Lemma lift_outside y : reg (h + 1) y → ¬ under f (P (h + 1)) y →
  reg h y ∧ ¬ under f R y ∧ y = mv y.
Proof.
  intros Hy Hu. assert (reg h y) as Hy'.
  { apply next_reg in Hy as [->|?]; [|done]. exfalso. apply Hu, under_refl. }
  pose proof Hy' as [Hin _]. assert (¬ under f R y) as Hnd.
  { intros Hb. apply Hu. apply next_under; auto. }
  split_and!; try done. destruct (lift_cases y Hy' Hnd) as [Hb|(_ & _ & ?)]; [|done].
  exfalso. apply Hu. apply next_under; auto.
Qed.

(** No subtree reaches row 0 below the next position. *)
Lemma lift_origin y : reg (h + 1) y → is_Some (view (h + 1) T y) →
  ∃ x, reg h x ∧ ¬ under f R x ∧ y = mv x.
Proof.
  intros Hy [t Ht]. destruct (decide (under f (P (h + 1)) y)) as [Hu|Hu].
  - apply lift_onto; try done. unfold cview in Ht. rewrite decide_True in Ht by done.
    apply climb_height in Ht. pose proof (height_nonneg t).
    destruct lift_setup as (_ & _ & _ & _ & _ & _ & _ & _ & HrowP' & _). rewrite HrowP' in Ht. lia.
  - destruct (lift_outside y Hy Hu) as (? & ? & ?). by exists y.
Qed.

Lemma lift_one : one_place (reg h) (view h T) → one_place (reg (h + 1)) (view (h + 1) T).
Proof.
  intros Hone p q x Hp Hq Hnp Hnq.
  destruct (lift_origin p Hp) as (p0 & Hp0 & Hndp & ->); [eauto|].
  destruct (lift_origin q Hq) as (q0 & Hq0 & Hndq & ->); [eauto|].
  destruct (lift_same p0 Hp0 Hndp) as (_ & _ & E). rewrite E in Hnp.
  destruct (lift_same q0 Hq0 Hndq) as (_ & _ & E'). rewrite E' in Hnq.
  f_equal. by apply (Hone p0 q0 x).
Qed.

(** A state in which everything has moved. *)
Record grown (m m' : MapPollard) : Prop := {
  gw_leaves : NumLeaves m' = NumLeaves m;
  gw_rows : TotalRows m' = TotalRows m;
  gw_node x : reg h x → ¬ under f R x → Nodes m' !! mv x = Nodes m !! x;
  gw_back y l : Nodes m' !! y = Some l →
    ∃ x, reg h x ∧ ¬ under f R x ∧ y = mv x ∧ Nodes m !! x = Some l;
  gw_cached x : CachedLeaves m' !! x = mv <$> CachedLeaves m !! x;
}.

Lemma view_empty_below x : inF (n + 1) f x → under f R x → view h T x = None.
Proof.
  intros Hx Hu. destruct next_roots as (_ & HRr & _ & _ & Hv). destruct (Hv T) as [_ HvR].
  pose proof (carry_part s f Hfit h Hh Hlow T) as HpA.
  remember (Z.to_nat (f - rowOf f x)) as k eqn:Hk. revert x Hk Hx Hu.
  induction k as [k IH] using lt_wf_ind. intros x -> Hx Hu.
  destruct (decide (x = R)) as [->|Hne]; [by rewrite HvR|].
  pose proof (pt_down _ _ _ _ _ HpA R x HRr Hx Hu) as Hreg.
  pose proof (pt_below _ _ _ _ _ HpA R x HRr Hx Hu Hne) as Hr.
  rewrite (pt_child _ _ _ _ _ HpA x) by done.
  pose proof (pt_top _ _ _ _ _ HpA x Hreg Hr) as Hroot.
  destruct (inF_family (n + 1) f x Hfit Hx Hroot) as (r & o & E & _ & Hvx & Hrf & _ & Epar & _ & Hvp & _).
  destruct (sibling_props (n + 1) f x Hfit Hx Hroot) as (_ & Hpar & _).
  rewrite (IH (Z.to_nat (f - rowOf f (parent x f)))); try done.
  - rewrite Epar, E, !rowOf_npos by done. lia.
  - destruct lift_setup as (HR & _). by apply (under_parent (n + 1) f Hfit R x).
Qed.

Lemma grown_holds m m' : holds f (reg h) (croot h) (view h T) m → grown m m' →
  holds f (reg (h + 1)) (croot (h + 1)) (view (h + 1) T) m'.
Proof.
  intros Hm [HL HT Hnode Hback HC]. split.
  - rewrite HT. apply (hd_rows _ _ _ _ _ Hm).
  - intros y l (x & Hx & Hnd & -> & Hl)%Hback. destruct (lift_same x Hx Hnd) as (? & -> & ->).
    split; [done|]. by apply (hd_nodes _ _ _ _ _ Hm).
  - intros y Hy Hr. destruct (decide (under f (P (h + 1)) y)) as [Hu|Hu].
    + unfold Carry.croot in Hr. rewrite decide_True in Hr by done. apply bool_decide_eq_true in Hr as ->.
      destruct lift_setup as (_ & _ & _ & _ & HP & _ & _ & _ & _ & <-). destruct next_roots as (HPr & _ & HPc & _).
      rewrite Hnode; [by apply (hd_roots _ _ _ _ _ Hm)|done|]. apply lift_apart; [done|apply under_refl].
    + destruct (lift_outside y Hy Hu) as (Hy' & Hnd & E). rewrite E, Hnode by done.
      apply (hd_roots _ _ _ _ _ Hm); [done|]. destruct (lift_same y Hy' Hnd) as (_ & <- & _). by rewrite <- E.
  - intros y l (x & Hx & Hnd & -> & Hl)%Hback Hrem. destruct (lift_same x Hx Hnd) as (_ & _ & ->).
    by apply (hd_flag _ _ _ _ _ Hm x l).
  - intros y l q (x & Hx & Hnd & -> & Hl)%Hback Hrem Hq Hu Hr.
    assert (∃ z, reg h z ∧ ¬ under f R z ∧ q = mv z) as (z & Hz & Hndz & ->).
    { destruct (decide (under f (P (h + 1)) q)) as [Hu'|Hu'];
        [|destruct (lift_outside q Hq Hu') as (? & ? & ?); by exists q].
      apply lift_onto; try done. pose proof Hq as [Hinq _]. pose proof Hx as [Hinx _].
      destruct (lift_same x Hx Hnd) as ([HinM _] & _).
      pose proof (under_row (n + 1) f Hfit q (mv x) Hinq HinM Hu). 
      pose proof (rowOf_nonneg (n + 1) f x Hfit Hinx).
      destruct (lift_cases x Hx Hnd) as [Hux|(_ & Hnx & E)]; [by destruct (lift_below x Hinx Hux) as (_ & _ & ? & _); lia|].
      exfalso. apply Hnx. rewrite E in *. destruct lift_setup as (_ & _ & _ & _ & _ & HP' & _).
      by apply (under_trans (n + 1) f Hfit (P (h + 1)) q x). }
    destruct (lift_same z Hz Hndz) as (_ & Hcz & _). rewrite Hcz in Hr.
    destruct (lift_family z Hz Hndz Hr) as (_ & Hsz & _ & Hnds & _ & ->). rewrite Hnode by done.
    apply (hd_need _ _ _ _ _ Hm x l z); try done. by apply lift_under.
  - intros q Hq Hr Hrp [l (x & Hx & Hnd & -> & Hl)%Hback].
    destruct (lift_same x Hx Hnd) as (_ & Hcx & _). rewrite Hcx in Hr.
    destruct (lift_family x Hx Hnd Hr) as (Hpx & _ & Hndp & _ & E & _). rewrite E in *.
    destruct (lift_same _ Hpx Hndp) as (_ & Hcp & _). rewrite Hcp in Hrp.
    destruct (lift_family _ Hpx Hndp Hrp) as (_ & Hsz & _ & Hnds & _ & ->). rewrite Hnode by done.
    apply (hd_up _ _ _ _ _ Hm x); eauto.
  - intros y p. rewrite HC. intros (x & Hx & ->)%fmap_Some.
    destruct (hd_cached _ _ _ _ _ Hm y x Hx) as (Hn & Hleafy & l & Hl & Hrem).
    destruct (hd_nodes _ _ _ _ _ Hm x l Hl) as (Hreg & _).
    assert (¬ under f R x) as Hnd.
    { intros Hu. rewrite view_empty_below in Hn; [done| |done]. by destruct Hreg. }
    destruct (lift_same x Hreg Hnd) as (_ & _ & ->). split_and!; try done. exists l. by rewrite Hnode.
Qed.
End Lift.
End Next.
End Rows.
