(* ===== verification/MapPollardAdd.v ===== *)
(** * Adding a leaf to a map pollard

    [carried] is the state of [addSingle] when it has reached a row: the state holds the
    part of the grown forest that [Carry] describes.  At the last row that part is the
    whole forest. *)

From S2P Require Import Prelude State Utils PosTheory HashPos Traverse Calc Walk.
From S2P Require Import Forest EvalTheory Stump StumpTheory StumpVerify ForestLeaves StumpSpec Moves Deletions.
From S2P Require Import MapPollard MapPollardMoves MapPollardInv MapPollardObs Carry CarryRows.

(** [holds] looks at a part only inside its positions. *)
Lemma holds_ext `{HashFn} n f reg root N reg' root' N' m : part n f reg root N →
  (∀ p, reg p ↔ reg' p) → (∀ p, reg p → root p = root' p) → (∀ p, reg p → N p = N' p) →
  holds f reg root N m → holds f reg' root' N' m.
Proof.
  intros Hpart Hreg Hroot HN Hm.
  assert (∀ p, reg' p → reg p ∧ root' p = root p ∧ N' p = N p) as Hall.
  { intros p Hp. apply Hreg in Hp. split_and!; [done|symmetry; auto..]. }
  split.
  - apply (hd_rows _ _ _ _ _ Hm).
  - intros p l Hl. destruct (hd_nodes _ _ _ _ _ Hm p l Hl) as (Hp & ? & ?).
    rewrite <- HN, <- Hroot by done. split; [by apply Hreg|done].
  - intros p (Hp & -> & _)%Hall. by apply (hd_roots _ _ _ _ _ Hm).
  - intros p l Hl Hrem. rewrite <- HN by (by eapply hd_nodes). by apply (hd_flag _ _ _ _ _ Hm p l).
  - intros p l q Hl Hrem (Hq & -> & _)%Hall. by apply (hd_need _ _ _ _ _ Hm p l).
  - intros q (Hq & -> & _)%Hall Hr. destruct (pt_family _ _ _ _ _ Hpart q Hq Hr) as (Hpq & _).
    rewrite <- Hroot by done. by apply (hd_up _ _ _ _ _ Hm).
  - intros x p Hp. destruct (hd_cached _ _ _ _ _ Hm x p Hp) as (? & ? & l & Hl & ?).
    rewrite <- HN by (by eapply hd_nodes). split_and!; try done. by exists l.
Qed.

Section Add.
Context `{HashLaws} (s : forest) (f : Z) (Hwf : wf s) (Hfit : fits (nl s + 1) f).
Notation n := (nl s).
Notation P := (carryPos s f).
Notation reg := (creg s f).
Notation croot := (croot s f).
Notation view := (cview s f).
Notation R := (rootAt s f).

(** The leaf that is added.  Its hash is not the hash of an inner node when the state is
    to remember it: the hash function is collision free. *)
Context (add : Leaf) (Hleafy : Remember add = true → ∀ a b, parentHash a b ≠ leafHash add).

Record carried (m0 : MapPollard) (h : Z) (T : tree) (pNode : Leaf) (m : MapPollard) : Prop := {
  ca_low : n mod 2 ^ h = 2 ^ h - 1;
  ca_tree : incr s (Lf (leafHash add)) = replicate (Z.to_nat h) None ++ incr (drop (Z.to_nat h) s) T;
  ca_height : height T ≤ h;
  ca_live : live T;
  ca_kind : (T = Lf (leafHash add) ∧ Remember pNode = Remember add) ∨ ∃ a b, T = Nd a b;
  ca_top : Nodes m !! P h = Some pNode;
  ca_leaves : NumLeaves m = n;
  ca_holds : holds f (reg h) (croot h) (view h T) m;
  ca_one : one_place (reg h) (view h T);
  ca_cached x : is_Some (CachedLeaves m !! x) ↔
    (x = leafHash add ∧ Remember add = true) ∨ is_Some (CachedLeaves m0 !! x);
}.

Section Row.
Context (m0 m : MapPollard) (h : Z) (T : tree) (pNode : Leaf) (Hh : 0 ≤ h).
Context (Hm : carried m0 h T pNode m) (Hbit : Z.testbit n h = true).

Let Hlow := ca_low _ _ _ _ _ Hm.
Let Hholds := ca_holds _ _ _ _ _ Hm.

Lemma row_pNode : leafHash pNode = thash T.
Proof.
  destruct (hd_nodes _ _ _ _ _ Hholds _ _ (ca_top _ _ _ _ _ Hm)) as (_ & Hl & _).
  destruct (next_roots s f Hfit h Hh Hlow Hbit) as (_ & _ & _ & _ & Hv). destruct (Hv T) as [E _].
  by rewrite E in Hl.
Qed.

Lemma row_found : ∃ l0, Nodes m !! R h = Some l0 ∧ leafHash l0 = ohash (slot s h).
Proof.
  destruct (next_roots s f Hfit h Hh Hlow Hbit) as (_ & HRr & _ & HRc & Hv). destruct (Hv T) as [_ E].
  destruct (hd_roots _ _ _ _ _ Hholds (R h) HRr HRc) as [l0 Hl0]. exists l0. split; [done|].
  destruct (hd_nodes _ _ _ _ _ Hholds _ _ Hl0) as (_ & Hl & _). by rewrite E in Hl.
Qed.

Lemma row_slot_live l : slot s h = Some l → height l ≤ h ∧ live l.
Proof.
  unfold slot. destruct (s !! Z.to_nat h) as [[x|]|] eqn:E; [|done..]. intros ->.
  destruct (Hwf _ _ E) as [? ?]. split; [lia|done].
Qed.

Lemma row_tree : incr s (Lf (leafHash add)) = replicate (Z.to_nat (h + 1)) None ++
  incr (drop (Z.to_nat (h + 1)) s) (match slot s h with Some l => Nd l T | None => T end).
Proof.
  rewrite (ca_tree _ _ _ _ _ Hm). replace (Z.to_nat (h + 1)) with (S (Z.to_nat h)) by lia.
  pose proof Hbit as Hb. rewrite nl_testbit in Hb by done. unfold slot.
  destruct (s !! Z.to_nat h) as [[x|]|] eqn:E; try done. rewrite (drop_S _ _ _ E).
  rewrite replicate_S_end, <- app_assoc. done.
Qed.

(** A row with a tree. *)
Lemma row_join l l0 : slot s h = Some l → Nodes m !! R h = Some l0 →
  let pNode' := mkLeaf (parentHash (leafHash l0) (leafHash pNode)) false in
  carried m0 (h + 1) (Nd l T) pNode' (pruneNieces (P (h + 1)) (putNode (P (h + 1)) pNode' m)).
Proof.
  intros Hslot HR. cbv zeta. pose proof (next_low s h Hh Hlow Hbit) as Hlow'.
  pose proof (join_holds s f Hfit h Hh Hlow Hbit T l Hslot m l0 pNode Hholds HR (ca_top _ _ _ _ _ Hm)) as Hj.
  destruct (next_top s f h Hh Hlow Hbit) as (Htr & _ & Htv).
  destruct (holds_pruneNieces (n + 1) f _ _ _ Hfit (carry_part s f Hfit (h + 1) ltac:(lia) Hlow' (Nd l T))
    _ (P (h + 1)) Hj Htr) as (Hj' & HC & HL & _).
  destruct (row_slot_live l Hslot) as [Hheight Hlive].
  split; try done.
  - pose proof row_tree as E. by rewrite Hslot in E.
  - simpl. pose proof (ca_height _ _ _ _ _ Hm). lia.
  - apply live_nd. split; [done|]. apply (ca_live _ _ _ _ _ Hm).
  - right. eauto.
  - rewrite (next_pruned s f Hfit h Hh Hlow Hbit) by apply (hd_rows _ _ _ _ _ Hj).
    cbn [Nodes putNode setNodes]. apply lookup_insert_eq.
  - rewrite HL. apply (ca_leaves _ _ _ _ _ Hm).
  - apply join_one; try done. apply (ca_one _ _ _ _ _ Hm).
  - intros x. rewrite HC. apply (ca_cached _ _ _ _ _ Hm).
Qed.

(** ** A row with an emptied tree *)

Section Empty.
Context (Hslot : slot s h = None) (l0 : Leaf) (HR : Nodes m !! R h = Some l0).
Notation mv := (mv f (R h)).

Definition uncarried : MapPollard :=
  (if Remember add && bool_decide (leafHash pNode = leafHash add)
   then recache (leafHash add) (P (h + 1)) else id) (deleteNode (P h) m).

Lemma uncarried_fields : Nodes uncarried = delete (P h) (Nodes m) ∧ NumLeaves uncarried = n ∧
  TotalRows uncarried = f.
Proof.
  pose proof (ca_leaves _ _ _ _ _ Hm) as HL. pose proof (hd_rows _ _ _ _ _ Hholds) as HT.
  unfold uncarried. destruct (_ && _); [|done].
  by destruct (recache_fields (leafHash add) (P (h + 1)) (deleteNode (P h) m)) as (-> & -> & ->).
Qed.

(** Only the added leaf can be cached at the carried position. *)
Lemma carried_cached x : CachedLeaves m !! x = Some (P h) → x = leafHash add ∧ Remember add = true ∧
  leafHash pNode = leafHash add.
Proof.
  intros Hx. destruct (hd_cached _ _ _ _ _ Hholds x _ Hx) as (Hn & _ & l & Hl & Hrem).
  rewrite (ca_top _ _ _ _ _ Hm) in Hl. injection Hl as <-.
  destruct (next_roots s f Hfit h Hh Hlow Hbit) as (_ & _ & _ & _ & Hv). destruct (Hv T) as [E _].
  rewrite E in Hn. injection Hn as Hn. rewrite row_pNode, Hn. simpl.
  destruct (ca_kind _ _ _ _ _ Hm) as [[Ht Hr]|(a & b & ?)]; [|congruence].
  rewrite Hn in Ht. injection Ht as ->. split_and!; congruence.
Qed.

Lemma uncarried_cached x : CachedLeaves uncarried !! x =
  (λ p, if decide (p = P h) then P (h + 1) else p) <$> CachedLeaves m !! x.
Proof.
  assert (∀ y p, CachedLeaves m !! y = Some p → p ≠ P h →
    (λ p, if decide (p = P h) then P (h + 1) else p) <$> CachedLeaves m !! y = Some p) as Hother.
  { intros y p Hy Hp. rewrite Hy. simpl. by rewrite decide_False. }
  unfold uncarried. destruct (Remember add && bool_decide (leafHash pNode = leafHash add)) eqn:Hcond.
  - apply andb_true_iff in Hcond as [Hrem Hhash%bool_decide_eq_true].
    assert (T = Lf (leafHash add)) as HT.
    { destruct (ca_kind _ _ _ _ _ Hm) as [[? _]|(a & b & E)]; [done|]. exfalso.
      rewrite row_pNode, E in Hhash. simpl in Hhash. by apply (Hleafy Hrem (thash a) (thash b)). }
    destruct (next_roots s f Hfit h Hh Hlow Hbit) as (HPr & _ & _ & _ & Hv). destruct (Hv T) as [E _].
    assert (∀ q, CachedLeaves m !! leafHash add = Some q → q = P h) as Hq.
    { intros q Hq. destruct (hd_cached _ _ _ _ _ Hholds _ _ Hq) as (Hn & _ & l & Hl & _).
      destruct (hd_nodes _ _ _ _ _ Hholds _ _ Hl) as (Hregq & _).
      apply (ca_one _ _ _ _ _ Hm q (P h) (leafHash add)); try done. by rewrite E, HT. }
    unfold recache. cbn [CachedLeaves deleteNode setNodes].
    destruct (CachedLeaves m !! leafHash add) as [q|] eqn:Eq.
    + cbn [CachedLeaves putCached setCached deleteNode setNodes].
      destruct (decide (x = leafHash add)) as [->|Hne].
      * rewrite lookup_insert_eq, Eq, (Hq q eq_refl). simpl. by rewrite decide_True.
      * rewrite lookup_insert_ne by done. destruct (CachedLeaves m !! x) as [p|] eqn:Ex; [|done].
        symmetry. simpl. rewrite decide_False; [done|]. intros ->. by apply carried_cached in Ex as (? & _).
    + cbn [CachedLeaves deleteNode setNodes]. destruct (CachedLeaves m !! x) as [p|] eqn:Ex; [|done].
      simpl. rewrite decide_False; [done|]. intros ->. apply carried_cached in Ex as Hc.
      destruct Hc as (-> & _). congruence.
  - cbn [CachedLeaves deleteNode setNodes id]. destruct (CachedLeaves m !! x) as [p|] eqn:Ex; [|done].
    simpl. rewrite decide_False; [done|]. intros ->. apply carried_cached in Ex as (_ & Hrem & Hhash).
    rewrite Hrem, Hhash, bool_decide_eq_true_2 in Hcond by done. done.
Qed.

Notation lower := (lower (n + 1) f (R h)).

Lemma lower_inner x : lower x → inF (n + 1) f x ∧ x ≠ P h ∧ x ≠ R h ∧ x ≠ P (h + 1) ∧
  (under f (R h) x ∨ under f (P h) x).
Proof.
  destruct (next_family s f Hfit h Hh Hlow Hbit) as (_ & _ & _ & HRin & HrR & HsR & _ & HpR & _).
  intros Hx. destruct (lower_split (n + 1) f Hfit (R h) HRin HrR x Hx) as (Hu & H1 & H2 & H3).
  rewrite HsR in *. rewrite HpR in H3. destruct Hx. tauto.
Qed.

(** Strictly below the carried tree. *)
Lemma lower_below x : inF (n + 1) f x → under f (P h) x → x ≠ P h → lower x.
Proof.
  destruct (next_family s f Hfit h Hh Hlow Hbit) as (_ & _ & _ & HRin & HrR & HsR & _ & HpR & _).
  destruct (lift_setup s f Hfit h Hh Hlow Hbit) as (_ & _ & _ & _ & HPin & _ & HrowR & HrowP & _).
  intros Hx Hu Hne. split_and!; [done| |].
  - apply (under_split (n + 1) f Hfit (R h) HRin HrR); [done|]. rewrite HsR. auto.
  - destruct Hu as [|Ha]; [done|]. apply (anc_lt (n + 1)) in Ha as [_ ?]; try done. lia.
Qed.

Lemma empty_below x : inF (n + 1) f x → under f (R h) x → x ≠ R h → Nodes m !! x = None.
Proof.
  intros Hx Hu Hne. destruct (Nodes m !! x) as [l|] eqn:E; [|done]. exfalso.
  destruct (next_roots s f Hfit h Hh Hlow Hbit) as (_ & HRr & _).
  destruct (hd_nodes _ _ _ _ _ Hholds x l E) as (_ & _ & Hsome).
  rewrite (view_empty_below s f Hfit h Hh Hlow Hbit T Hslot x Hx Hu) in Hsome.
  destruct Hsome as [? ?]; [|done].
  by apply (pt_below _ _ _ _ _ (carry_part s f Hfit h Hh Hlow T) (R h) x).
Qed.

Lemma uncarried_other x : x ≠ P h → Nodes uncarried !! x = Nodes m !! x.
Proof. intros Hne. destruct uncarried_fields as (-> & _). by rewrite lookup_delete_ne. Qed.

(** The conditions of [moveUpDescendants_moved]. *)
Lemma uncarried_below x : lower x → under f (R h) x → Nodes uncarried !! x = None.
Proof.
  intros Hx Hu. destruct (lower_inner x Hx) as (Hin & HxP & HxR & _).
  rewrite uncarried_other by done. by apply empty_below.
Qed.

Lemma uncarried_cached_lower x p : CachedLeaves uncarried !! x = Some p → lower p →
  CachedLeaves m !! x = Some p.
Proof.
  rewrite uncarried_cached. intros (q & Hq & ->)%fmap_Some Hp.
  destruct (lower_inner _ Hp) as (_ & HqP & _ & HqP' & _).
  destruct (decide (q = P h)); [done|done].
Qed.

Lemma uncarried_has x p : CachedLeaves uncarried !! x = Some p → lower p →
  ∃ l, Nodes uncarried !! p = Some l ∧ leafHash l = x.
Proof.
  intros Hx Hp. pose proof (uncarried_cached_lower x p Hx Hp) as Hc.
  destruct (lower_inner p Hp) as (_ & HpP & _).
  destruct (hd_cached _ _ _ _ _ Hholds x p Hc) as (Hn & _ & l & Hl & _).
  destruct (hd_nodes _ _ _ _ _ Hholds p l Hl) as (_ & Hlab & _). rewrite Hn in Hlab.
  exists l. by rewrite uncarried_other.
Qed.

Lemma uncarried_place p l q : lower p → Nodes uncarried !! p = Some l →
  CachedLeaves uncarried !! leafHash l = Some q → q = p.
Proof.
  intros Hp Hl Hq. destruct (lower_inner p Hp) as (Hin & HpP & HpR & _ & Hu).
  rewrite uncarried_other in Hl by done. rewrite uncarried_cached in Hq.
  apply fmap_Some in Hq as (q0 & Hq0 & ->).
  destruct (hd_nodes _ _ _ _ _ Hholds p l Hl) as (Hreg & Hlab & Hsome).
  destruct (hd_cached _ _ _ _ _ Hholds _ q0 Hq0) as (Hn & Hleaf & l' & Hl' & _).
  destruct (hd_nodes _ _ _ _ _ Hholds q0 l' Hl') as (Hreg' & _ & _).
  destruct (next_roots s f Hfit h Hh Hlow Hbit) as (HPr & HRr & _).
  pose proof (carry_part s f Hfit h Hh Hlow T) as Hpart.
  destruct Hsome as [t Ht].
  { destruct Hu; [by apply (pt_below _ _ _ _ _ Hpart (R h) p)|by apply (pt_below _ _ _ _ _ Hpart (P h) p)]. }
  rewrite Ht in Hlab. destruct t as [y|a b]; simpl in Hlab; [|by destruct (Hleaf (thash a) (thash b))].
  assert (q0 = p) as ->; [|by rewrite decide_False].
  apply (ca_one _ _ _ _ _ Hm q0 p y); try done. by rewrite <- Hlab.
Qed.

Section Moved.
Context (D : list Z) (m3 : MapPollard) (Hmv : moved (n + 1) f (R h) uncarried D m3) (HD : ∀ y, y ∈ D ↔ lower y).
Context (HL3 : NumLeaves m3 = n) (HT3 : TotalRows m3 = f).
Notation m4 := (putNode (P (h + 1)) pNode m3).

(** A node has moved to where the empty root was. *)
Definition landed : Prop := Exists (λ x, under f (P h) x ∧ mv x = R h ∧ is_Some (Nodes m !! x)) D.

#[local] Instance landed_dec : Decision landed.
Proof. unfold landed. apply _. Defined.

(** Otherwise the empty root is still there; it is pruned with the nieces. *)
Definition settled : MapPollard := if decide landed then m4 else deleteNode (R h) m4.

Lemma settled_node y : Nodes settled !! y =
  if decide (y = P (h + 1)) then Some pNode
  else if decide (y = R h ∧ ¬ landed) then None else Nodes m3 !! y.
Proof.
  destruct (next_distinct s f Hfit h Hh Hlow Hbit) as [HRP _].
  unfold settled. destruct (decide landed) as [Hl|Hl]; cbn [Nodes putNode deleteNode setNodes].
  - rewrite (decide_False (P := y = R h ∧ ¬ landed)) by tauto.
    destruct (decide (y = P (h + 1))) as [->|]; [apply lookup_insert_eq|by rewrite lookup_insert_ne].
  - destruct (decide (y = R h)) as [->|Hne].
    + rewrite lookup_delete_eq, decide_False, decide_True by done. done.
    + rewrite lookup_delete_ne, (decide_False (P := y = R h ∧ ¬ landed)) by (done || tauto).
      destruct (decide (y = P (h + 1))) as [->|]; [apply lookup_insert_eq|by rewrite lookup_insert_ne].
Qed.

Lemma base_cases y : base (R h) uncarried y = if decide (y = R h) then Some l0 else None.
Proof.
  destruct (next_family s f Hfit h Hh Hlow Hbit) as (_ & _ & _ & _ & _ & HsR & HsP & _).
  assert (R h ≠ P h) as Hne by (intros E; rewrite E, sibling_eq in HsR; destruct (Z.even (P h)); lia).
  unfold base. rewrite HsR. destruct uncarried_fields as (-> & _).
  destruct (decide (y = R h)) as [->|HyR].
  - rewrite decide_True by auto. by rewrite lookup_delete_ne.
  - destruct (decide (y = R h ∨ y = P h)) as [[?| ->]|]; [done|apply lookup_delete_eq|done].
Qed.

Lemma moved_node x : lower x → under f (P h) x →
  (if decide (mv x = R h ∧ ¬ landed) then None else Nodes m3 !! mv x) = Nodes m !! x.
Proof.
  intros Hx Hu. destruct (lift_setup s f Hfit h Hh Hlow Hbit) as (HRin & HrR & HsR & HpR & _).
  destruct (lower_inner x Hx) as (Hin & HxP & HxR & HxP' & _).
  rewrite (mo_up _ _ _ _ _ _ Hmv x), uncarried_other, base_cases by (try apply HD; by rewrite ?HsR).
  destruct (decide (mv x = R h)) as [E|E].
  - destruct (decide landed) as [Hl|Hl].
    + rewrite decide_False by tauto. apply Exists_exists in Hl as (z & Hz%HD & Huz & Ez & [lz Hlz]).
      assert (x = z) as ->; [|by rewrite Hlz].
      apply (mv_eq (n + 1) f Hfit (R h) HRin HrR); rewrite ?HsR; try done; [by destruct Hz|congruence].
    + rewrite decide_True by tauto. symmetry. apply eq_None_not_Some. intros Hsome. apply Hl.
      apply Exists_exists. exists x. split_and!; try done. by apply HD.
  - rewrite decide_False by tauto. apply right_id_L. apply _.
Qed.

Lemma settled_grown : grown s f h m settled.
Proof.
  destruct (lift_setup s f Hfit h Hh Hlow Hbit) as (HRin & HrR & HsR & HpR & HPin & HPin' & HrowR & HrowP & HrowP' & HmP).
  destruct (next_distinct s f Hfit h Hh Hlow Hbit) as [HRP HPP].
  assert (∀ x, reg h x → ¬ under f (R h) x → x ≠ P h →
    (lower x ∧ under f (P h) x ∧ mv x ≠ P (h + 1)) ∨ (x ∉ D ∧ x ≠ R h ∧ x ≠ P (h + 1) ∧ mv x = x)) as Hcases.
  { intros x Hx Hnd Hne. pose proof Hx as [Hin _].
    destruct (lift_cases s f Hfit h Hh Hlow Hbit x Hx Hnd) as [Hu|(Hu & Hu' & E)]; [left|right].
    - destruct (lift_below s f Hfit h Hh Hlow Hbit x Hin Hu) as (_ & _ & _ & Hm').
      split_and!; auto using lower_below.
    - split_and!; try done; [|intros ->; apply Hnd, under_refl|intros ->; apply Hu', under_refl].
      intros (_ & Hu'' & _)%HD. rewrite HpR in Hu''. done. }
  split.
  - unfold settled. rewrite (ca_leaves _ _ _ _ _ Hm). by destruct (decide landed).
  - unfold settled. rewrite (hd_rows _ _ _ _ _ Hholds). by destruct (decide landed).
  - intros x Hx Hnd. rewrite settled_node. destruct (decide (x = P h)) as [->|Hne].
    { rewrite HmP, decide_True by done. symmetry. apply (ca_top _ _ _ _ _ Hm). }
    destruct (Hcases x Hx Hnd Hne) as [(Hl & Hu & HmP')|(HnD & HxR & HxP' & E)].
    + rewrite decide_False by done. by apply moved_node.
    + rewrite E, decide_False, decide_False by tauto.
      rewrite (mo_rest _ _ _ _ _ _ Hmv) by (rewrite ?HsR; done). by apply uncarried_other.
  - intros y l. rewrite settled_node. destruct (decide (y = P (h + 1))) as [->|HyP'].
    { intros [= <-]. exists (P h). rewrite HmP. split_and!; try done.
      - apply (proj1 (creg_top s f h Hh Hlow T)).
      - apply (lift_apart s f Hfit h Hh Hlow Hbit); [done|apply under_refl].
      - apply (ca_top _ _ _ _ _ Hm). }
    destruct (decide (Exists (λ x, under f (P h) x ∧ y = mv x) D)) as [Hex|Hnex].
    { apply Exists_exists in Hex as (x & Hx%HD & Hu & ->). rewrite moved_node by done. intros Hl.
      destruct (hd_nodes _ _ _ _ _ Hholds x l Hl) as (Hreg & _).
      exists x. split_and!; try done. apply (lift_apart s f Hfit h Hh Hlow Hbit); [by destruct Hreg|done]. }
    destruct (decide (y = R h ∧ ¬ landed)) as [|Hstale]; [done|].
    assert (∀ x, x ∈ D → under f (P h) x → y ≠ mv x) as Hno.
    { intros x Hx Hu E. apply Hnex, Exists_exists. by exists x. }
    destruct (decide (y ∈ D ∨ y = R h ∨ y = P h)) as [Hy|Hy].
    + rewrite (mo_none _ _ _ _ _ _ Hmv y), base_cases by (rewrite ?HsR; tauto || (intros; apply Hno; congruence)).
      destruct (decide (y = R h)) as [->|]; [|done]. intros _. exfalso.
      assert (landed) as Hl by (destruct (decide landed); tauto).
      apply Exists_exists in Hl as (z & Hz & Huz & Ez & _). by apply (Hno z).
    + rewrite (mo_rest _ _ _ _ _ _ Hmv), uncarried_other by (rewrite ?HsR; tauto). intros Hl.
      destruct (hd_nodes _ _ _ _ _ Hholds y l Hl) as (Hreg & _). pose proof Hreg as [Hin _].
      assert (¬ under f (R h) y) as Hnd.
      { intros Hu. rewrite empty_below in Hl by tauto. done. }
      destruct (Hcases y Hreg Hnd) as [(Hlow' & _)|(_ & _ & _ & E)]; [tauto|apply HD in Hlow'; tauto|].
      by exists y.
  - intros x. unfold settled.
    assert (CachedLeaves (if decide landed then m4 else deleteNode (R h) m4) = CachedLeaves m3) as ->
      by by destruct (decide landed).
    rewrite (mo_cached _ _ _ _ _ _ Hmv), uncarried_cached.
    destruct (CachedLeaves m !! x) as [p|] eqn:Ex; [|done]. simpl. f_equal.
    destruct (hd_cached _ _ _ _ _ Hholds x p Ex) as (Hn & _ & l & Hl & _).
    destruct (hd_nodes _ _ _ _ _ Hholds p l Hl) as (Hreg & _). pose proof Hreg as [Hin _].
    assert (¬ under f (R h) p) as Hnd.
    { intros Hu. by rewrite (view_empty_below s f Hfit h Hh Hlow Hbit T Hslot p) in Hn. }
    destruct (decide (p = P h)) as [->|Hne].
    + rewrite HmP, decide_False; [done|]. intros [(_ & _ & ?)%HD _]. lia.
    + destruct (Hcases p Hreg Hnd Hne) as [(Hl' & Hu & _)|(HnD & _ & _ & E)].
      * rewrite decide_True; [done|]. split; [by apply HD|]. by rewrite HsR.
      * rewrite decide_False by tauto. done.
Qed.

(** What moved to the carried position was strictly below it; its sibling would land. *)
Lemma image_carried x : ¬ landed → reg h x → ¬ under f (R h) x → mv x = P h →
  croot h x = false ∧ ¬ is_Some (Nodes m !! sibling x).
Proof.
  intros Hl Hx Hnd E. pose proof Hx as [Hin _].
  destruct (lift_setup s f Hfit h Hh Hlow Hbit) as (HRin & HrR & HsR & HpR & HPin & HPin' & HrowR & HrowP & HrowP' & HmP).
  destruct (next_distinct s f Hfit h Hh Hlow Hbit) as [HRP HPP].
  destruct (next_family s f Hfit h Hh Hlow Hbit) as (_ & _ & _ & _ & _ & _ & HsP & _).
  destruct (lift_cases s f Hfit h Hh Hlow Hbit x Hx Hnd) as [Hu|(Hu & _ & E')];
    [|exfalso; apply Hu; rewrite <- E', E; apply under_refl].
  assert (x ≠ P h) as Hne by (intros ->; congruence). split.
  - apply (pt_below _ _ _ _ _ (carry_part s f Hfit h Hh Hlow T) (P h) x); try done.
    apply (proj1 (creg_top s f h Hh Hlow T)).
  - intros Hsome.
    destruct (lift_family_below s f Hfit h Hh Hlow Hbit x Hin Hu Hne) as (_ & Hus & _ & Hs & _ & Esib & _).
    rewrite E, HsP in Esib. apply Hl, Exists_exists. exists (sibling x). split_and!; try done.
    apply HD, lower_below; try done. intros Es.
    destruct (lift_below s f Hfit h Hh Hlow Hbit (sibling x) Hs Hus) as (_ & _ & Hrow & _).
    rewrite <- Esib, Es in Hrow. lia.
Qed.

(** If nothing landed there, the sibling is not remembered and has no children. *)
Lemma unlanded_sibling : ¬ landed → Remember (nodeAt settled (P h)) = false ∧
  ∀ c, parent c f = P h → inF (n + 1) f c → root_at (n + 1) f c = false → Nodes settled !! c = None.
Proof.
  intros Hl. destruct settled_grown as [_ _ _ Hback _].
  destruct (lift_setup s f Hfit h Hh Hlow Hbit) as (HRin & HrR & HsR & HpR & HPin & HPin' & HrowR & HrowP & HrowP' & HmP).
  split.
  - unfold nodeAt. destruct (Nodes settled !! P h) as [l|] eqn:E; [|done]. simpl.
    apply not_true_is_false. intros Hrem.
    apply Hback in E as (x & Hx & Hnd & Ex & Hlx).
    destruct (image_carried x Hl Hx Hnd) as [Hr Hno]; [done|]. apply Hno.
    apply (hd_need _ _ _ _ _ Hholds x l x); try done. apply under_refl.
  - intros c Hpc Hc Hrc. apply eq_None_not_Some. intros [l (x & Hx & Hnd & -> & Hlx)%Hback].
    pose proof Hx as [Hin _].
    assert (under f (P h) (mv x)) as HuM.
    { right. apply (anc_parent (n + 1) f); try done. by left. }
    pose proof (under_row (n + 1) f Hfit (P h) _ HPin Hc HuM) as Hrow.
    destruct (lift_cases s f Hfit h Hh Hlow Hbit x Hx Hnd) as [Hu|(Hu & _ & E')]; [|by rewrite E' in HuM].
    assert (x ≠ P h) as Hne by (intros ->; rewrite HmP in Hrow; lia).
    assert (croot h x = false) as Hr.
    { apply (pt_below _ _ _ _ _ (carry_part s f Hfit h Hh Hlow T) (P h) x); try done.
      apply (proj1 (creg_top s f h Hh Hlow T)). }
    destruct (lift_family s f Hfit h Hh Hlow Hbit T x Hx Hnd Hr) as (Hpx & _ & Hndp & _ & Epar & _).
    rewrite Hpc in Epar. destruct (image_carried (parent x f) Hl Hpx Hndp) as [Hrp Hno]; [done|].
    apply Hno. apply (hd_up _ _ _ _ _ Hholds x); eauto.
Qed.

(** The empty root, if still there, goes with the nieces. *)
Lemma settled_pruned : pruneNieces (P (h + 1)) m4 = pruneNieces (P (h + 1)) settled.
Proof.
  unfold settled at 1. destruct (decide landed) as [Hl|Hl]; [done|].
  destruct (unlanded_sibling Hl) as [Hrem Hkids]. 
  destruct (lift_setup s f Hfit h Hh Hlow Hbit) as (HRin & HrR & HsR & HpR & HPin & HPin' & HrowR & HrowP & HrowP' & HmP).
  destruct (next_distinct s f Hfit h Hh Hlow Hbit) as [HRP HPP].
  destruct (next_family s f Hfit h Hh Hlow Hbit) as (_ & _ & _ & _ & _ & _ & HsP & _).
  assert (R h ≠ P h) as HRPh by (intros E; rewrite E, sibling_eq in HsR; destruct (Z.even (P h)); lia).
  assert (∀ y, y ≠ R h → Nodes m4 !! y = Nodes settled !! y) as Hsame.
  { intros y Hy. unfold settled. rewrite (decide_False (P := landed)) by done.
    cbn [Nodes deleteNode setNodes]. by rewrite lookup_delete_ne. }
  unfold pruneNieces. cbn [TotalRows putNode deleteNode setNodes]. rewrite HT3.
  rewrite (detectRow_inF (n + 1) f (P (h + 1)) Hfit HPin'), HrowP', (proj2 (Z.eqb_neq _ _)) by lia.
  rewrite (next_leftChild s f Hfit h Hh Hlow Hbit).
  assert (∀ p, inF (n + 1) f p → rowOf f p = h → h ≠ 0 → ∀ c, c ∈ kids f p → c ≠ R h ∧ c ≠ P h ∧
    inF (n + 1) f c ∧ root_at (n + 1) f c = false ∧ parent c f = p) as Hrows.
  { intros p Hp Hprow Hh0 c Hc. apply (kids_elem (n + 1) f Hfit p c Hp) in Hc as (Hc & Hrc & Hpc).
    destruct (inF_family (n + 1) f c Hfit Hc Hrc) as (r & o & E & _ & Hv & _ & _ & Epar & _ & Hvp & _).
    assert (rowOf f c ≠ h) as Hne by (rewrite <- Hprow, <- Hpc, Epar, E, !rowOf_npos by done; lia).
    split_and!; try done; intros ->; done. }
  pose proof (detectRow_inF (n + 1) f (P h) Hfit HPin) as HdP. rewrite HrowP in HdP.
  pose proof (detectRow_inF (n + 1) f (R h) Hfit HRin) as HdR. rewrite HrowR in HdR.
  assert (∀ p, inF (n + 1) f p → rowOf f p = h → h ≠ 0 → leftChild p f ∈ kids f p ∧ rightChild p f ∈ kids f p) as Hin.
  { intros p _ Hprow Hh0. unfold kids. rewrite Hprow, (proj2 (Z.eqb_neq h 0)) by done. split; [left|right; left]. }
  rewrite prunePosition_stale; cbn [TotalRows putNode setNodes]; rewrite ?HT3, ?HsR.
  - done.
  - unfold nodeAt. assert (Nodes m4 !! R h = Some l0) as ->.
    { cbn [Nodes putNode setNodes]. rewrite lookup_insert_ne by done.
      destruct (decide (Exists (λ x, under f (P h) x ∧ R h = mv x) D)) as [Hex|Hnex].
      - apply Exists_exists in Hex as (x & Hx & Hu & E). apply HD in Hx as Hx'.
        destruct (lower_inner x Hx') as (_ & HxP & _). rewrite E.
        rewrite (mo_up _ _ _ _ _ _ Hmv x), uncarried_other, <- E, base_cases by (rewrite ?HsR; done).
        rewrite decide_True by done. destruct (Nodes m !! x) eqn:Ex; [|done].
        exfalso. apply Hl, Exists_exists. exists x. rewrite Ex. by split_and!.
      - rewrite (mo_none _ _ _ _ _ _ Hmv (R h)), base_cases; [by rewrite decide_True|auto|].
        intros x Hx Hu E. apply Hnex, Exists_exists. exists x. by rewrite <- HsR. }
    simpl. apply not_true_is_false. intros Hr0.
    destruct (hd_flag _ _ _ _ _ Hholds _ _ HR Hr0) as (y & Hy).
    destruct (next_roots s f Hfit h Hh Hlow Hbit) as (_ & _ & _ & _ & Hv). destruct (Hv T) as [_ E]. congruence.
  - unfold nodeAt. rewrite Hsame by done. apply Hrem.
  - unfold niecesPresent. cbn [TotalRows putNode setNodes]. rewrite HT3, HdR, HsR.
    destruct (Z.eqb_spec h 0) as [|Hh0]; [done|]. destruct (Hin (P h) HPin HrowP Hh0) as [Hl1 Hl2].
    apply orb_false_iff. split; apply bool_decide_eq_false, eq_None_not_Some.
    + destruct (Hrows (P h) HPin HrowP Hh0 _ Hl1) as (? & _ & ? & ? & ?). rewrite Hsame by done. by apply Hkids.
    + destruct (Hrows (P h) HPin HrowP Hh0 _ Hl2) as (? & _ & ? & ? & ?). rewrite Hsame by done. by apply Hkids.
  - rewrite HdP. intros Hh0. destruct (Hin (R h) HRin HrowR Hh0) as [Hl1 Hl2].
    split; apply not_eq_sym; by apply (Hrows (R h)).
Qed.

Lemma row_settled : carried m0 (h + 1) T pNode (pruneNieces (P (h + 1)) settled).
Proof.
  pose proof settled_grown as Hg. pose proof (next_low s h Hh Hlow Hbit) as Hlow'.
  pose proof (grown_holds s f Hfit h Hh Hlow Hbit T Hslot m settled Hholds Hg) as Hs.
  destruct (next_top s f h Hh Hlow Hbit) as (Htr & _ & _).
  destruct (holds_pruneNieces (n + 1) f _ _ _ Hfit (carry_part s f Hfit (h + 1) ltac:(lia) Hlow' T)
    _ (P (h + 1)) Hs Htr) as (Hs' & HC & HL & _).
  split; try done.
  - pose proof row_tree as E. by rewrite Hslot in E.
  - pose proof (ca_height _ _ _ _ _ Hm). lia.
  - apply (ca_live _ _ _ _ _ Hm).
  - apply (ca_kind _ _ _ _ _ Hm).
  - rewrite (next_pruned s f Hfit h Hh Hlow Hbit) by apply (hd_rows _ _ _ _ _ Hs).
    rewrite settled_node. by rewrite decide_True.
  - rewrite HL, (gw_leaves _ _ _ _ _ Hg). apply (ca_leaves _ _ _ _ _ Hm).
  - apply lift_one; try done; [apply (ca_height _ _ _ _ _ Hm)|apply (ca_one _ _ _ _ _ Hm)].
  - intros x. rewrite HC, (gw_cached _ _ _ _ _ Hg), fmap_is_Some. apply (ca_cached _ _ _ _ _ Hm).
Qed.
End Moved.

(** A row with an emptied tree: the carried tree moves up. *)
Lemma row_lift : ∃ m3, moveUpDescendants (P h) (R h) (n ⊞ 1) uncarried = (m3, Ok tt) ∧
  carried m0 (h + 1) T pNode (pruneNieces (P (h + 1)) (putNode (P (h + 1)) pNode m3)).
Proof.
  destruct (next_family s f Hfit h Hh Hlow Hbit) as (_ & _ & _ & HRin & HrR & HsR & _).
  destruct uncarried_fields as (_ & HL & HT).
  destruct (moveUpDescendants_moved (n + 1) f Hfit (R h) HRin HrR uncarried uncarried_below
    uncarried_has uncarried_place (n ⊞ 1) HT) as (D & m3 & E & Hmv & HD & HL3 & HT3).
  rewrite HsR in E. exists m3. split; [done|].
  rewrite HL in HL3. rewrite HT in HT3. rewrite (settled_pruned D m3 Hmv HD) by done. by apply row_settled.
Qed.
End Empty.
End Row.

(** ** All the rows *)

Lemma rows_run fuel m0 : ∀ h T pNode m, 0 ≤ h → carried m0 h T pNode m → (Z.to_nat (64 - h) < fuel)%nat →
  ∃ h' T' pNode' m', addSingle_loop fuel h (P h) pNode add f m = (m', Ok tt) ∧ 0 ≤ h' ∧
    carried m0 h' T' pNode' m' ∧ Z.testbit n h' = false.
Proof.
  induction fuel as [|fuel IH]; intros h T pNode m Hh Hm Hfuel; [lia|].
  cbn [addSingle_loop]. st_run. rewrite (ca_leaves _ _ _ _ _ Hm), bitSet_testbit by done.
  destruct (Z.testbit n h) eqn:Hbit.
  2:{ exists h, T, pNode, m. done. }
  pose proof (ca_low _ _ _ _ _ Hm) as Hlow. pose proof (nl_nonneg s). 
  assert (n + 1 ≤ 2 ^ 63) as Hmax by (by eapply fits_le).
  assert (h < 64) as Hh64 by (apply (testbit_below n h); done || lia).
  pose proof (carry_valid s f Hfit h Hh Hlow) as (Hhf & _).
  rewrite (rootPosition_eq n h f (carry_fits s f Hfit)) by done. fold (R h).
  destruct (row_found m0 m h T pNode Hh Hm Hbit) as (l0 & Hl0 & Hhash). st_run. rewrite Hl0.
  destruct (next_family s f Hfit h Hh Hlow Hbit) as (_ & _ & _ & _ & _ & _ & _ & _ & HpP & _).
  rewrite u8_small by lia.
  destruct (slot s h) as [l|] eqn:Hslot.
  - assert (leafHash l0 ≠ empty) as Hne.
    { rewrite Hhash. simpl. apply thash_nonempty. by apply (row_slot_live h Hh l). }
    rewrite decide_False by done. rewrite st_ret_bind. st_run. rewrite HpP.
    apply (IH (h + 1) (Nd l T)); [lia| |lia]. by apply (row_join m0 m h T pNode Hh Hm Hbit l l0).
  - assert (leafHash l0 = empty) as He by done. rewrite decide_True by done.
    destruct (row_lift m0 m h T pNode Hh Hm Hbit Hslot l0 Hl0) as (m3 & E & Hm3).
    rewrite !st_assoc. st_run. rewrite !st_assoc. st_run. rewrite st_assoc, HpP.
    rewrite (st_bind_ok _ _ _ _ _ E), st_ret_bind. st_run.
    apply (IH (h + 1) T); [lia|done|lia].
Qed.

(** ** The new leaf *)

Section Start.
Context (m : MapPollard) (Hm : tracks s f m) (Hdist : NoDup (forest_leaves s)).
Context (Hnew : leafHash add ∉ forest_leaves s) (Hne : leafHash add ≠ empty).
Notation T := (Lf (leafHash add)).

Let Hh := proj2 (proj2 Hm).

Definition started : MapPollard :=
  (if Remember add then putCached (leafHash add) n else id)
    (putNode n (mkLeaf (leafHash add) (Remember add)) m).

Lemma start_pos : P 0 = n.
Proof. unfold carryPos, npos. rewrite Z.sub_0_r, Z.pow_0_r, Z.div_1_r. lia. Qed.

Lemma start_low : n mod 2 ^ 0 = 2 ^ 0 - 1.
Proof. by rewrite Z.pow_0_r, Z.mod_1_r. Qed.

Lemma start_reg p : reg 0 p → p = P 0 ∨ (inF n f p ∧ ¬ under f (P 0) p).
Proof.
  intros Hp. destruct (creg_cases s f Hfit 0 ltac:(lia) start_low p Hp) as [[->|Ha]|[? ?]]; auto.
  exfalso. destruct Hp as [Hin _]. pose proof (carry_inF s f 0 ltac:(lia) start_low) as HP.
  apply (anc_lt (n + 1)) in Ha as [_ Hrow]; try done.
  rewrite (carry_row s f Hfit 0 ltac:(lia) start_low) in Hrow.
  pose proof (rowOf_nonneg (n + 1) f p Hfit Hin). lia.
Qed.

Lemma start_old p : inF n f p → reg 0 p ∧ p ≠ P 0 ∧ croot 0 p = root_at n f p ∧ view 0 T p = node s f p.
Proof.
  intros Hp. pose proof (creg_old s f Hfit 0 ltac:(lia) start_low p Hp) as Hreg.
  assert (p ≠ P 0) as Hne0.
  { intros ->. apply (old_not_above s f Hfit 0 ltac:(lia) start_low (P 0) Hp). apply under_refl. }
  destruct (start_reg p Hreg) as [|[_ Hu]]; [done|]. split_and!; try done.
  - unfold Carry.croot. by rewrite decide_False.
  - unfold cview. by rewrite decide_False.
Qed.

Lemma started_fields : Nodes started = <[P 0 := add]> (Nodes m) ∧ NumLeaves started = n ∧
  TotalRows started = f ∧ ∀ x, CachedLeaves started !! x =
    if decide (x = leafHash add ∧ Remember add = true) then Some (P 0) else CachedLeaves m !! x.
Proof.
  pose proof Hm as (HL & _ & _). pose proof (hd_rows _ _ _ _ _ Hh) as HT. rewrite start_pos. unfold started.
  destruct add as [a [|]]; cbn [Remember leafHash id]; split_and!; try done; intros x.
  - cbn [CachedLeaves putCached setCached putNode setNodes]. destruct (decide (x = a)) as [->|Hx].
    + by rewrite lookup_insert_eq, decide_True.
    + by rewrite lookup_insert_ne, decide_False by (done || tauto).
  - by rewrite decide_False by (by intros [_ ?]).
Qed.

Lemma started_holds : holds f (reg 0) (croot 0) (view 0 T) started.
Proof.
  destruct started_fields as (HN & HL & HT & HC).
  destruct (creg_top s f 0 ltac:(lia) start_low T) as (HPr & HPc & HPv).
  assert (∀ p, p ≠ P 0 → Nodes started !! p = Nodes m !! p) as Hother
    by (intros p Hp; rewrite HN; by rewrite lookup_insert_ne).
  assert (Nodes started !! P 0 = Some add) as Hhere by (rewrite HN; apply lookup_insert_eq).
  assert (∀ p l, Nodes started !! p = Some l → (p = P 0 ∧ l = add) ∨ (p ≠ P 0 ∧ inF n f p ∧ Nodes m !! p = Some l)) as Hback.
  { intros p l Hl. destruct (decide (p = P 0)) as [->|Hp]; [left; split; [done|congruence]|right].
    rewrite Hother in Hl by done. by destruct (hd_nodes _ _ _ _ _ Hh p l Hl) as (? & _). }
  assert (∀ p, reg 0 p → croot 0 p = false → inF n f p ∧ root_at n f p = false) as Hold.
  { intros p Hp Hr. destruct (start_reg p Hp) as [->|[Hpn _]]; [congruence|].
    destruct (start_old p Hpn) as (_ & _ & <- & _). done. }
  split.
  - done.
  - intros p l [[-> ->]|(Hp & Hin & Hl)]%Hback; [by rewrite HPv, HPc|].
    destruct (start_old p Hin) as (Hreg & _ & -> & ->). split; [done|]. by apply (hd_nodes _ _ _ _ _ Hh).
  - intros p Hp Hr. destruct (start_reg p Hp) as [->|[Hpn _]]; [by rewrite Hhere|].
    destruct (start_old p Hpn) as (_ & Hp0 & Er & _). rewrite Er in Hr. rewrite Hother by done.
    by apply (hd_roots _ _ _ _ _ Hh).
  - intros p l [[-> ->]|(Hp & Hin & Hl)]%Hback Hrem; [rewrite HPv; eauto|].
    destruct (start_old p Hin) as (_ & _ & _ & ->). by apply (hd_flag _ _ _ _ _ Hh p l).
  - intros p l q Hl Hrem Hq Hu Hr. destruct (Hold q Hq Hr) as [Hqn Hrn].
    destruct (sibling_props n f q (carry_fits s f Hfit) Hqn Hrn) as (Hs & _).
    destruct (start_old _ Hs) as (_ & Hs0 & _). rewrite Hother by done.
    apply Hback in Hl as [[-> ->]|(Hp & Hin & Hl)]; [|by apply (hd_need _ _ _ _ _ Hh p l)].
    by apply (old_not_above s f Hfit 0 ltac:(lia) start_low) in Hu.
  - intros q Hq Hr Hrp [l Hl]. destruct (Hold q Hq Hr) as [Hqn Hrn].
    destruct (sibling_props n f q (carry_fits s f Hfit) Hqn Hrn) as (_ & Hpq & _).
    destruct (start_old _ Hpq) as (Hpreg & _ & Erp & _). rewrite Erp in Hrp.
    destruct (sibling_props n f _ (carry_fits s f Hfit) Hpq Hrp) as (Hs & _).
    destruct (start_old _ Hs) as (_ & Hs0 & _). rewrite Hother by done.
    apply Hback in Hl as [[-> _]|(_ & _ & Hl)]; [congruence|].
    apply (hd_up _ _ _ _ _ Hh q); eauto.
  - intros x p. rewrite HC. destruct (decide (x = leafHash add ∧ Remember add = true)) as [[-> Hrem]|_].
    + intros [= <-]. rewrite HPv. split_and!; [done|by apply Hleafy|by exists add].
    + intros Hp. destruct (hd_cached _ _ _ _ _ Hh x p Hp) as (Hn & Hl & l & Hl' & Hrem).
      destruct (hd_nodes _ _ _ _ _ Hh p l Hl') as (Hin & _).
      destruct (start_old p Hin) as (_ & Hp0 & _ & ->). split_and!; try done. exists l. by rewrite Hother.
Qed.

Lemma start_carried : carried m 0 T add started.
Proof.
  destruct started_fields as (HN & HL & HT & HC).
  destruct (creg_top s f 0 ltac:(lia) start_low T) as (HPr & HPc & HPv).
  split; try done.
  - apply start_low.
  - unfold live. simpl. by rewrite list_elem_of_singleton.
  - by left.
  - rewrite HN. apply lookup_insert_eq.
  - apply started_holds.
  - pose proof (forest_one_place s f (carry_fits s f Hfit) Hwf Hdist) as Hone.
    assert (∀ p, inF n f p → node s f p = Some (Lf (leafHash add)) → False) as Hfresh.
    { intros p Hp Hn. apply Hnew. rewrite (forest_leaves_pleaves s f (carry_fits s f Hfit)).
      apply list_elem_of_fmap. exists (p, leafHash add). split; [done|].
      by apply (leaf_at_pleaves s f (carry_fits s f Hfit) Hwf). }
    intros p q x Hp Hq Hnp Hnq. 
    destruct (start_reg p Hp) as [->|[Hpn _]], (start_reg q Hq) as [->|[Hqn _]]; [done|..].
    + destruct (start_old q Hqn) as (_ & _ & _ & E). rewrite HPv in Hnp. rewrite E in Hnq.
      exfalso. apply (Hfresh q Hqn). congruence.
    + destruct (start_old p Hpn) as (_ & _ & _ & E). rewrite HPv in Hnq. rewrite E in Hnp.
      exfalso. apply (Hfresh p Hpn). congruence.
    + destruct (start_old p Hpn) as (_ & _ & _ & E). destruct (start_old q Hqn) as (_ & _ & _ & E').
      rewrite E in Hnp. rewrite E' in Hnq. by apply (Hone p q x).
  - intros x. rewrite HC. destruct (decide _) as [[-> ?]|]; [|tauto]. split; [auto|eauto].
Qed.

(** The last row: the part is the grown forest. *)
Lemma carried_tracks h T' pNode m' : 0 ≤ h → carried m h T' pNode m' → Z.testbit n h = false →
  holds f (inF (n + 1) f) (root_at (n + 1) f) (node (incr s T) f) m'.
Proof.
  intros Hh0 Hc Hbit. pose proof (ca_low _ _ _ _ _ Hc) as Hlow.
  pose proof (carry_part s f Hfit h Hh0 Hlow T') as Hpart.
  pose proof (nl_incr s T) as Hnl.
  pose proof (forest_part (incr s T) f) as Hfp. cbv zeta in Hfp. rewrite Hnl in Hfp. specialize (Hfp Hfit).
  assert (∀ p, reg h p → croot h p = root_at (n + 1) f p) as Hcr
    by (intros p [Hp _]; by apply last_croot).
  apply (holds_ext (n + 1) f (reg h) (croot h) (view h T')); try done.
  - intros p. split; [by intros [? _]|]. by apply last_creg.
  - apply (part_unique (n + 1) f (reg h) (croot h) _ _ Hfit Hpart).
    + destruct Hfp as [F1 F2 F3 F4 F5 F6]. split.
      * by intros p [? _].
      * apply (pt_down _ _ _ _ _ Hpart).
      * apply (pt_below _ _ _ _ _ Hpart).
      * apply (pt_family _ _ _ _ _ Hpart).
      * apply (pt_top _ _ _ _ _ Hpart).
      * intros p Hp Hr. rewrite Hcr in Hr by done. apply F6; [by destruct Hp|done].
    + intros p Hp Hr. apply last_cview; try done; [apply (ca_tree _ _ _ _ _ Hc)|by destruct Hp|by rewrite <- Hcr].
  - apply (ca_holds _ _ _ _ _ Hc).
Qed.

Lemma addSingle_grows : ∃ m', addSingle add m = (m', Ok tt) ∧ NumLeaves m' = n ∧
  holds f (inF (n + 1) f) (root_at (n + 1) f) (node (incr s T) f) m' ∧
  ∀ x, is_Some (CachedLeaves m' !! x) ↔
    (x = leafHash add ∧ Remember add = true) ∨ is_Some (CachedLeaves m !! x).
Proof.
  pose proof Hm as (HL & _ & _). pose proof (hd_rows _ _ _ _ _ Hh) as HT. pose proof (nl_nonneg s).
  assert (n + 1 ≤ 2 ^ 63) as Hmax by (by eapply fits_le).
  destruct (rows_run bit_fuel m 0 T add started ltac:(lia) start_carried) as (h' & T' & pNode' & m' & E & Hh' & Hc & Hbit).
  { unfold bit_fuel. lia. }
  exists m'. split_and!.
  - unfold addSingle, remap. rewrite st_assoc. st_run. rewrite st_assoc. st_run.
    rewrite HL, HT. unfold add64. rewrite (u64_small (n + 1)) by lia.
    rewrite (proj2 (Z.leb_le _ _)) by (by apply treeRows_le).
    rewrite st_ret_bind. st_run. rewrite HL. rewrite start_pos in E. exact E.
  - apply (ca_leaves _ _ _ _ _ Hc).
  - by eapply carried_tracks.
  - apply (ca_cached _ _ _ _ _ Hc).
Qed.
End Start.
End Add.
