(* ===== verification/MapPollardSpec.v ===== *)
(** * A map pollard follows the forest

    [Modify] on a state that follows a forest leaves a state that follows the forest after
    the block, as long as the forest fits into the rows that the state has allocated; a
    fresh state has 50. *)

From S2P Require Import Prelude State Utils PosTheory HashPos Traverse Calc Walk.
From S2P Require Import Forest EvalTheory Stump StumpTheory StumpVerify ForestLeaves StumpSpec Moves Deletions.
From S2P Require Import MapPollard MapPollardInv MapPollardObs MapPollardDelete MapPollardAdd.

Section Spec.
Context `{HashLaws} (f : Z).

(** Leaves that can be added: the hashes are not the empty one, and the hash of a leaf to
    remember is not the hash of an inner node. *)
Record addable (adds : list Leaf) : Prop := {
  ad_nonempty : empty ∉ map leafHash adds;
  ad_leafy a : a ∈ adds → Remember a = true → ∀ l r, parentHash l r ≠ leafHash a;
}.

Lemma addable_cons a adds : addable (a :: adds) → leafHash a ≠ empty ∧ addable adds ∧
  (Remember a = true → ∀ l r, parentHash l r ≠ leafHash a).
Proof.
  intros [Hne Hl]. cbn [map] in Hne. apply not_elem_of_cons in Hne as [H1 H2].
  split_and!; [done| |apply Hl; by left]. split; [done|]. intros b Hb. apply Hl. by right.
Qed.

(** A leaf of the list that is to be remembered. *)
Definition to_remember (adds : list Leaf) (h : Hash) : Prop :=
  ∃ a, a ∈ adds ∧ leafHash a = h ∧ Remember a = true.

Lemma to_remember_cons a adds h :
  to_remember (a :: adds) h ↔ (h = leafHash a ∧ Remember a = true) ∨ to_remember adds h.
Proof.
  unfold to_remember. setoid_rewrite elem_of_cons. split.
  - intros (b & [->|?] & <- & ?); eauto 6.
  - intros [[-> ?]|(b & ? & ? & ?)]; eauto 6.
Qed.

Lemma grown_tracks s T m : fits (nl s + 1) f → NumLeaves m = nl s →
  holds f (inF (nl s + 1) f) (root_at (nl s + 1) f) (node (incr s T) f) m →
  tracks (incr s T) f (setNumLeaves (NumLeaves m ⊞ 1) m).
Proof.
  intros Hfit HL [H1 H2 H3 H4 H5 H6 H7]. pose proof (fits_le _ _ Hfit). pose proof (nl_nonneg s).
  split; [|split; rewrite nl_incr; [done|by split]].
  cbn [NumLeaves setNumLeaves]. rewrite HL, nl_incr. unfold add64. apply u64_small. lia.
Qed.

Lemma add_tracks adds : ∀ s m, wf s → tracks s f m → addable adds →
  NoDup (forest_leaves s ++ map leafHash adds) → fits (nl s + Z.of_nat (length adds)) f →
  ∃ m', add adds m = (m', Ok tt) ∧ tracks (add_leaves s (map leafHash adds)) f m' ∧
    ∀ h, is_Some (CachedLeaves m' !! h) ↔ to_remember adds h ∨ is_Some (CachedLeaves m !! h).
Proof.
  induction adds as [|a adds IH]; intros s m Hwf Hm Had Hnd Hfit.
  { exists m. split_and!; try done. intros h. split; [auto|]. intros [(? & ?%elem_of_nil & _)|?]; done. }
  apply addable_cons in Had as (Hne & Had & Hleafy). pose proof (nl_nonneg s).
  assert (fits (nl s + 1) f) as Hfit1 by (destruct Hfit; cbn [length] in *; split; lia).
  pose proof Hnd as (Hnds & Hnew & _)%NoDup_app. cbn [map] in Hnd.
  assert (leafHash a ∉ forest_leaves s) as Hfresh by (intros Hin; by apply (Hnew _ Hin); left).
  destruct (addSingle_grows s f Hwf Hfit1 a Hleafy m Hm Hnds Hfresh Hne) as (m1 & E1 & HL1 & Hh1 & HC1).
  assert (wf (incr s (Lf (leafHash a)))) as Hwf1.
  { apply (wf_add_leaves s [leafHash a] Hwf). by rewrite list_elem_of_singleton. }
  destruct (IH (incr s (Lf (leafHash a))) (setNumLeaves (NumLeaves m1 ⊞ 1) m1) Hwf1) as (m2 & E2 & Ht2 & HC2).
  - by apply grown_tracks.
  - done.
  - by rewrite forest_leaves_incr, <- app_assoc.
  - rewrite nl_incr. cbn [length] in Hfit. by replace (nl s + 1 + Z.of_nat (length adds))
      with (nl s + Z.of_nat (S (length adds))) by lia.
  - exists m2. split_and!; [|done|].
    + unfold add. cbn [for_each]. rewrite !st_assoc, (st_bind_ok _ _ _ _ _ E1). st_run. exact E2.
    + intros h. rewrite HC2, to_remember_cons. cbn [CachedLeaves setNumLeaves]. rewrite HC1. tauto.
Qed.

(** ** A block *)

Lemma Modify_tracks s m ts hs prf adds : let s' := apply_block s ts (map leafHash adds) in
  wf s → tracks s f m → NoDup (forest_leaves s) →
  NoDup ts → Forall2 (leaf_at s (treeRows (nl s))) ts hs →
  (∀ h, h ∈ hs → is_Some (CachedLeaves m !! h)) →
  addable adds → NoDup (forest_leaves s') → nl s' ≤ 2 ^ f →
  ∃ m', Modify adds hs (mkProof ts prf) m = (m', Ok tt) ∧ wf s' ∧ tracks s' f m' ∧
    ∀ h, is_Some (CachedLeaves m' !! h) ↔
      to_remember adds h ∨ (h ∉ hs ∧ is_Some (CachedLeaves m !! h)).
Proof.
  intros s' Hwf Hm Hnds Hnd Hts Hhs Had Hnd' Hmax. pose proof Hm as (_ & Hfit & _).
  destruct (remove_tracks s f m Hwf Hm Hnds ts hs Hnd Hts Hhs prf) as (m1 & E1 & Ht1 & HC1).
  unfold s', apply_block in *. rewrite forest_leaves_add in Hnd'.
  rewrite nl_add_leaves, nl_del, length_map in Hmax. pose proof (nl_nonneg s).
  destruct (add_tracks adds _ m1 (wf_del _ _ _ Hwf) Ht1 Had Hnd') as (m2 & E2 & Ht2 & HC2).
  { rewrite nl_del. destruct Hfit. split; lia. }
  exists m2. split_and!; [|apply wf_add_leaves; [by apply wf_del|apply Had]|done|].
  - unfold Modify. by rewrite (st_bind_ok _ _ _ _ _ E1).
  - intros h. rewrite HC2, HC1. unfold remaining. destruct (decide (h ∈ hs)); [|rewrite fmap_is_Some]; naive_solver.
Qed.
End Spec.
