(* ===== verification/ProofUpdateTheory.v ===== *)
(** * Combining and trimming honest proofs

    [AddProof], [GetMissingPositions] and [GetProofSubset] on proofs whose hashes are
    those of a forest. *)

From S2P Require Import Prelude Utils PosTheory HashPos HashPosTheory SortedTheory Traverse Calc Walk.
From S2P Require Import DeTwinTheory CalcTheory Forest EvalTheory Stump StumpTheory StumpVerify.
From S2P Require Import StumpSpec ProofUpdate.

(** ** Slices of positions paired with a label *)

Section Labelled.
Context (L : Z → Hash).

Definition labelled (l : list Z) : list (Z * Hash) := map (λ p, (p, L p)) l.

Definition is_labelled (l : list (Z * Hash)) : Prop := ∀ x, x ∈ l → x.2 = L x.1.

Lemma map_fst_labelled l : map fst (labelled l) = l.
Proof. unfold labelled. rewrite map_map. apply map_id. Qed.

Lemma map_snd_labelled l : map snd (labelled l) = map L l.
Proof. unfold labelled. by rewrite map_map. Qed.

Lemma of_pairs_labelled l : of_pairs (labelled l) = mkHnp l (map L l).
Proof. unfold of_pairs. by rewrite map_fst_labelled, map_snd_labelled. Qed.

Lemma labelled_is l : is_labelled (labelled l).
Proof. intros x (p & -> & _)%list_elem_of_fmap. done. Qed.

Lemma is_labelled_eq l : is_labelled l → l = labelled (map fst l).
Proof.
  intros Hl. unfold labelled. rewrite map_map. rewrite <- (map_id l) at 1. apply map_ext_in.
  intros [p h] Hin%list_elem_of_In. specialize (Hl _ Hin). simpl in *. by rewrite Hl.
Qed.

Lemma incr_labelled l : StronglySorted Z.lt l → incr_keys fst (labelled l).
Proof. intros. apply incr_keys_map. by rewrite map_fst_labelled. Qed.

(** A strictly sorted labelled slice is determined by its set of positions. *)
Lemma labelled_unique l q : incr_keys fst l → is_labelled l → StronglySorted Z.lt q →
  (∀ p, p ∈ map fst l ↔ p ∈ q) → l = labelled q.
Proof.
  intros Hs Hl Hq He. rewrite (is_labelled_eq l Hl). f_equal.
  apply (sorted_ext (map fst l) q); [by apply (incr_keys_map fst)|done|done].
Qed.

Lemma merge_labelled a b c : StronglySorted Z.lt a → StronglySorted Z.lt b → StronglySorted Z.lt c →
  (∀ p, p ∈ c ↔ p ∈ a ∨ p ∈ b) → merge_pairs (labelled a) (labelled b) = labelled c.
Proof.
  intros Ha Hb Hc He. apply labelled_unique; [by apply merge_pairs_incr; apply incr_labelled| |done|].
  - intros x. rewrite merge_pairs_elem by (by apply incr_labelled).
    intros [Hx|[Hx _]]; by apply labelled_is in Hx.
  - intros p. rewrite He, list_elem_of_fmap. setoid_rewrite merge_pairs_elem; [|by apply incr_labelled..].
    rewrite map_fst_labelled. split.
    + intros (x & -> & [Hx|[Hx _]]); apply list_elem_of_fmap in Hx as (p & -> & ?); auto.
    + intros Hp. exists (p, L p). split; [done|]. simpl.
      assert (∀ l, (p, L p) ∈ labelled l ↔ p ∈ l) as Hl.
      { intros l. unfold labelled. rewrite list_elem_of_fmap. split.
        - intros (q & [= <- _] & ?). done.
        - intros. by exists p. }
      rewrite !Hl. destruct (decide (p ∈ a)); tauto.
Qed.

Lemma filter_notin_labelled (b l : list Z) :
  filter (λ x, x.1 ∉ b) (labelled l) = labelled (filter (λ p, p ∉ b) l).
Proof.
  induction l as [|p l IH]; [done|]. change (labelled (p :: l)) with ((p, L p) :: labelled l).
  rewrite !filter_cons. simpl. rewrite IH. by repeat case_decide.
Qed.

Lemma filter_in_labelled (b l : list Z) :
  filter (λ x, x.1 ∈ b) (labelled l) = labelled (filter (λ p, p ∈ b) l).
Proof.
  induction l as [|p l IH]; [done|]. change (labelled (p :: l)) with ((p, L p) :: labelled l).
  rewrite !filter_cons. simpl. rewrite IH. by repeat case_decide.
Qed.

Lemma sort_pairs_labelled l : incr_keys fst l → is_labelled l → sort_pairs l = l.
Proof.
  intros Hs Hl. rewrite (is_labelled_eq l Hl) at 2.
  assert (StronglySorted Z.lt (map fst l)) as Hs' by (by apply (incr_keys_map fst)).
  apply labelled_unique; [|intros x; rewrite sort_pairs_perm; apply Hl|done|intros p; by rewrite sort_pairs_perm].
  apply incr_keys_map, sorted_le_nodup_lt; [apply map_fst_sorted, sort_pairs_sorted|].
  rewrite sort_pairs_perm. by apply sorted_lt_nodup.
Qed.

Lemma toHashAndPos_labelled ts : NoDup ts →
  toHashAndPos ts (map L ts) = Ok (of_pairs (labelled (copySortedFunc ts))).
Proof.
  intros Hnd. rewrite toHashAndPos_pairs by apply length_map. do 2 f_equal.
  assert (zip ts (map L ts) = labelled ts) as ->.
  { clear. induction ts as [|t ts IH]; [done|]. cbn [map]. unfold labelled in *. cbn [map]. by rewrite <- IH. }
  apply labelled_unique.
  - apply incr_keys_map, sorted_le_nodup_lt; [apply map_fst_sorted, sort_pairs_sorted|].
    by rewrite sort_pairs_perm, map_fst_labelled.
  - intros x. rewrite sort_pairs_perm. apply labelled_is.
  - by apply copySorted_sorted.
  - intros p. by rewrite sort_pairs_perm, map_fst_labelled, copySorted_perm.
Qed.
End Labelled.

Lemma copySorted_le l : StronglySorted Z.le (copySortedFunc l).
Proof. apply (StronglySorted_merge_sort Z.le). Qed.

Lemma copySorted_id l : StronglySorted Z.lt l → copySortedFunc l = l.
Proof.
  intros Hl. apply sorted_lt_unique; [by apply copySorted_sorted, sorted_lt_nodup|done|].
  apply copySorted_perm.
Qed.

(** ** The nodes that [calculateHashes] returns *)

Section Outputs.
Context `{HashFn}.

Lemma zip_map_self (l : list Z) (g : Z → Hash) : zip l (map g l) = map (λ p, (p, g p)) l.
Proof. induction l as [|x l IH]; [done|]. cbn [map]. by rewrite <- IH. Qed.

Lemma zip_replicate_empty (l : list Z) : zip l (replicate (length l) empty) = map (λ p, (p, empty)) l.
Proof. induction l as [|x l IH]; [done|]. cbn [map length replicate]. by rewrite <- IH. Qed.

(** The nodes that [calculateHashes] returns: the targets and everything above them. *)
Lemma outputs_spec n f ts tr (g h : Z → Hash) : fits n f →
  pending n f (copySortedFunc ts) → NoDup ts → walk n f (copySortedFunc ts) tr →
  let out := merge_pairs (map (λ p, (p, g p)) (parents f tr)) (sort_pairs (map (λ t, (t, h t)) ts)) in
  incr_keys fst out ∧
  ∀ x y, (x, y) ∈ out ↔ inF n f x ∧ onpath f ts x ∧ y = if decide (x ∈ ts) then h x else g x.
Proof.
  intros Hfit Hpd Hnd Hw out. set (q := copySortedFunc ts) in *.
  assert (∀ l (k : Z → Hash), map fst (map (λ p, (p, k p)) l) = l) as Hfst
    by (intros l k; rewrite map_map; apply map_id).
  assert (incr_keys fst (map (λ p, (p, g p)) (parents f tr))) as H1.
  { apply incr_keys_map. rewrite Hfst. by apply (walk_sorted n f Hfit q tr). }
  assert (incr_keys fst (sort_pairs (map (λ t, (t, h t)) ts))) as H2.
  { apply incr_keys_map. apply sorted_le_nodup_lt; [apply map_fst_sorted, sort_pairs_sorted|].
    by rewrite sort_pairs_perm, Hfst. }
  split; [by apply merge_pairs_incr|]. intros x y. unfold out. rewrite merge_pairs_elem by done.
  rewrite Hfst, sort_pairs_perm. simpl. rewrite !list_elem_of_fmap.
  assert (∀ x, x ∈ q ↔ x ∈ ts) as Hq by (intros z; unfold q; by rewrite copySorted_perm).
  assert (x ∈ parents f tr ↔ inF n f x ∧ above f q x) as Hpar by (by apply (parents_above n f Hfit)).
  assert (onpath f ts x ↔ x ∈ ts ∨ above f q x) as Hon.
  { rewrite <- (onpath_perm f q ts x) by apply copySorted_perm. unfold onpath, above. rewrite <- Hq. split.
    - intros (t & Ht & [->|?]); eauto.
    - intros [?|(t & ? & ?)]; eauto. }
  assert (x ∈ ts → ¬ above f q x) as Hanti.
  { intros Hx (t & Ht & Hanc). rewrite (pd_anti _ _ _ Hpd) in Hanc; [done|done|by apply Hq]. }
  assert (x ∈ ts → inF n f x) as Hin by (intros Hx; apply Hpd; by apply Hq).
  rewrite Hon. split.
  - intros [(z & [= <- ->] & Hz)|[(z & [= <- ->] & Hz) _]].
    + apply Hpar in Hz as [? ?]. rewrite decide_False by tauto. auto.
    + rewrite decide_True by done. auto.
  - intros (Hx & [Hx'|Ha] & ->).
    + right. rewrite decide_True by done. split; [eauto|]. rewrite Hpar. tauto.
    + left. rewrite decide_False by tauto. exists x. split; [done|]. by apply Hpar.
Qed.
End Outputs.

(** Sets of sorted positions. *)
Lemma sorted_filter_lt (P : Z → Prop) `{∀ x, Decision (P x)} (l : list Z) :
  StronglySorted Z.lt l → StronglySorted Z.lt (filter P l).
Proof. apply sorted_filter. Qed.

Section Targets.
Context `{HashLaws} (s : forest) (Hwf : wf s) (Hmax : nl s ≤ 2 ^ 63).
Notation n := (nl s).
Notation f := (treeRows (nl s)).
Notation L := (label s f).

(** What [proofPositions] returns for a set of targets. *)
Record positions_of (ts pp cp : list Z) : Prop := {
  po_eq : proofPositions (copySortedFunc ts) n f = Ok (pp, cp);
  po_pp : StronglySorted Z.lt pp;
  po_cp : StronglySorted Z.lt cp;
  po_pp_elem : ∀ x, x ∈ pp ↔ needed n f ts x;
  po_cp_elem : ∀ x, x ∈ cp ↔ inF n f x ∧ above f ts x;
}.

Lemma positions_exist ts : targets_ok s f ts → ∃ pp cp, positions_of ts pp cp.
Proof.
  intros Hts. destruct (targets_walk s Hmax ts Hts) as (tr & Hw & Hlen & Hp).
  pose proof (targets_pending s f ts Hts) as Hpd. pose proof (Hfit s Hmax) as Hfit.
  destruct (walk_sorted n f Hfit _ tr Hw Hpd) as [Hcp Hpp].
  exists (sibs tr), (parents f tr). split; try done.
  - intros x. rewrite (sibs_needed n f Hfit _ tr x Hw Hpd). unfold needed.
    by rewrite !(onpath_perm f _ _ _ (copySorted_perm ts)).
  - intros x. rewrite (parents_above n f Hfit _ tr x Hw Hpd). unfold above.
    by setoid_rewrite copySorted_perm.
Qed.

Lemma prover_positions ts pp cp prf : positions_of ts pp cp →
  prover_proof s ts prf ↔ prf = map L pp.
Proof.
  intros Hpo. split.
  - intros (pp' & cp' & He & ->). rewrite (po_eq _ _ _ Hpo) in He. by injection He as -> ->.
  - intros ->. exists pp, cp. split; [apply Hpo|done].
Qed.

Lemma onpath_above ts x : onpath f ts x ↔ x ∈ ts ∨ above f ts x.
Proof.
  unfold onpath, above. split.
  - intros (t & Ht & [->|?]); eauto.
  - intros [?|(t & ? & ?)]; eauto.
Qed.

Lemma onpath_union A B T x : (∀ p, p ∈ T ↔ p ∈ A ∨ p ∈ B) →
  onpath f T x ↔ onpath f A x ∨ onpath f B x.
Proof. intros HT. unfold onpath. setoid_rewrite HT. naive_solver. Qed.

Lemma targets_union A B T : targets_ok s f T → (∀ p, p ∈ T ↔ p ∈ A ∨ p ∈ B) → NoDup A → NoDup B →
  targets_ok s f A ∧ targets_ok s f B.
Proof.
  intros [_ Hn Ha] HT HA HB.
  split; (split; [done|intros; apply Hn, HT; auto|intros; apply Ha; apply HT; auto]).
Qed.

(** What the union of two target sets needs. *)
Lemma needed_union A B T x : (∀ p, p ∈ T ↔ p ∈ A ∨ p ∈ B) →
  needed n f T x ↔ (needed n f A x ∨ needed n f B x) ∧ ¬ onpath f A x ∧ ¬ onpath f B x.
Proof. intros HT. unfold needed. rewrite !(onpath_union A B T) by done. tauto. Qed.

Lemma AddProof_spec A B ppA cpA ppB cpB T :
  targets_ok s f T → StronglySorted Z.lt T → (∀ p, p ∈ T ↔ p ∈ A ∨ p ∈ B) → NoDup A → NoDup B →
  positions_of A ppA cpA → positions_of B ppB cpB →
  ∃ pp cp, positions_of T pp cp ∧
    AddProof (mkProof A (map L ppA)) (mkProof B (map L ppB)) (map L A) (map L B) n
    = Ok (map L T, mkProof T (map L pp)).
Proof.
  intros HTok HTs HT HA HB [EA SpA ScA PA CA] [EB SpB ScB PB CB].
  destruct (positions_exist T HTok) as (pp & cp & Hpo). exists pp, cp. split; [done|].
  destruct Hpo as [_ Spp _ Hpp _].
  unfold AddProof. cbn [Targets ProofHashes]. rewrite EA, EB. cbn [bind].
  rewrite <- !of_pairs_labelled, mergeSorted_pairs, !mergeSortedSlicesFunc_spec. cbn [bind].
  destruct (merged_slices ppA ppB SpA SpB) as [Sm Hm].
  set (m := map fst (merge_pairs (tag ppA) (tag ppB))) in *.
  rewrite (merge_labelled L ppA ppB m) by done.
  destruct (merged_slices cpA cpB ScA ScB) as [Sc Hc].
  set (c := map fst (merge_pairs (tag cpA) (tag cpB))) in *.
  destruct (merged_slices (copySortedFunc A) (copySortedFunc B)) as [St Ht];
    [by apply copySorted_sorted..|].
  set (t := map fst (merge_pairs (tag (copySortedFunc A)) (tag (copySortedFunc B)))) in *.
  assert (t = T) as -> by (apply sorted_ext; [done|done|]; intros p; by rewrite Ht, HT, !copySorted_perm).
  rewrite subtractSortedHashAndPos_spec by (by apply incr_labelled || by apply sorted_lt_le).
  cbn [bind]. rewrite (filter_notin_labelled L c).
  rewrite subtractSortedHashAndPos_spec
    by (by apply incr_labelled, sorted_filter_lt || by apply sorted_lt_le).
  cbn [bind]. rewrite (filter_notin_labelled L T), !toHashAndPos_labelled by done. cbn [bind].
  rewrite mergeSorted_pairs. cbn [bind].
  rewrite (merge_labelled L (copySortedFunc A) (copySortedFunc B) T)
    by (try done; try (by apply copySorted_sorted); intros p; by rewrite HT, !copySorted_perm).
  rewrite !of_pairs_labelled. cbn [hashes]. do 4 f_equal.
  apply sorted_ext; [by do 2 apply sorted_filter_lt|done|]. intros x.
  rewrite !list_elem_of_filter, Hm, Hc, PA, PB, CA, CB, Hpp, (needed_union A B T x HT), HT, !onpath_above.
  unfold needed. split; [|tauto]. intros (Hx & Hc' & Hn).
  assert (inF n f x) as Hin by (destruct Hn as [Hn|Hn]; apply Hn). tauto.
Qed.

Lemma targets_ok_sub ts ts' : targets_ok s f ts → NoDup ts' → (∀ p, p ∈ ts' → p ∈ ts) → targets_ok s f ts'.
Proof. intros [_ Hn Ha] Hnd Hsub. split; auto. Qed.

Lemma targets_ok_nil : targets_ok s f [].
Proof. split; [apply NoDup_nil_2|by intros t ?%elem_of_nil|by intros t t' ?%elem_of_nil]. Qed.

(** The positions that the holder of a proof for [A] lacks to prove [D]. *)
Lemma GetMissingPositions_spec A D : targets_ok s f A → targets_ok s f D →
  ∃ ms, GetMissingPositions n A D = Ok ms ∧ StronglySorted Z.lt ms ∧
    ∀ x, x ∈ ms ↔ needed n f (filter (λ p, p ∉ A) D) x ∧ ¬ needed n f A x ∧ ¬ onpath f A x.
Proof.
  intros HA HD. unfold GetMissingPositions.
  rewrite subtractSortedSlice_spec
    by (by apply copySorted_sorted, HD || by apply sorted_lt_le, copySorted_sorted, HA).
  cbn [bind]. set (D' := filter _ (copySortedFunc D)). set (E := filter (λ p, p ∉ A) D).
  assert (∀ p, p ∈ D' ↔ p ∈ E) as HE.
  { intros p. unfold D', E. by rewrite !list_elem_of_filter, !copySorted_perm. }
  assert (StronglySorted Z.lt D') as SD by (by apply sorted_filter_lt, copySorted_sorted, HD).
  assert (targets_ok s f D') as HD'.
  { apply (targets_ok_sub D); [done|by apply sorted_lt_nodup|].
    intros p [_ Hp]%HE%list_elem_of_filter. done. }
  assert (∀ x, onpath f D' x ↔ onpath f E x) as HonE by (intros x; unfold onpath; by setoid_rewrite HE).
  assert (∀ x, needed n f D' x ↔ needed n f E x) as HnE by (intros x; unfold needed; by rewrite !HonE).
  destruct (positions_exist D' HD') as (dp & dc & [ED SD1 _ PD _]).
  destruct (positions_exist A HA) as (pp & cp & [EA _ _ PA CA]).
  rewrite copySorted_id in ED by done.
  destruct D' as [|d D1] eqn:HDe; cbn [length Nat.leb].
  { exists []. split_and!; [done|constructor|]. intros x. rewrite <- HnE.
    split; [by intros ?%elem_of_nil|]. intros [(_ & _ & (t & Ht%elem_of_nil & _) & _) _]. done. }
  rewrite ED, EA. cbn [bind].
  rewrite subtractSortedSlice_spec by (done || apply copySorted_le).
  eexists. split; [reflexivity|]. split; [by apply sorted_filter_lt|].
  intros x. rewrite list_elem_of_filter, copySorted_perm, !elem_of_app, copySorted_perm.
  rewrite PA, CA, PD, HnE, onpath_above.
  split; [|tauto]. intros [Hx Hn]. pose proof (proj1 Hn). tauto.
Qed.

(** [calculateHashes] on an honest proof returns the labels of the targets and of what
    is above them. *)
Lemma calculateHashes_labelled A pp cp : targets_ok s f A → positions_of A pp cp →
  ∃ out rs, calculateHashes n (Some (map L A)) (mkProof A (map L pp)) = Ok (of_pairs out, rs) ∧
    incr_keys fst out ∧ is_labelled L out ∧ ∀ x, x ∈ map fst out ↔ inF n f x ∧ onpath f A x.
Proof.
  intros HA Hpo. destruct (targets_walk s Hmax A HA) as (tr & Hw & Hlen & Hp).
  pose proof (po_eq _ _ _ Hpo) as Hpp. rewrite Hp in Hpp. injection Hpp as <- <-.
  eexists _, _. split.
  { apply (calculateHashes_ok s Hmax A HA tr Hw Hlen); [by rewrite length_map|].
    rewrite <- (app_nil_r (map _ (sibs tr))). by apply (eval_honest s Hwf Hmax A HA tr Hw). }
  destruct (outputs_spec n f A tr L L (Hfit s Hmax) (targets_pending s f A HA) (to_nodup _ _ _ HA) Hw)
    as [Hs Ho].
  rewrite !zip_map_self. split; [done|]. split.
  - intros [x y] (_ & _ & ->)%Ho. by case_decide.
  - intros x. rewrite list_elem_of_fmap. split.
    + intros ([x' y] & -> & (? & ? & _)%Ho). done.
    + intros [? ?]. eexists (x, _). split; [done|]. by apply Ho.
Qed.

Lemma wantHashes_spec ps ws : (∀ w, w ∈ ws → w ∈ ps) →
  wantHashes (of_pairs (labelled L ps)) ws = Ok (map L ws).
Proof.
  intros Hsub. rewrite of_pairs_labelled. induction ws as [|w ws IH]; [done|]. cbn [wantHashes positions hashes].
  destruct (list_find_elem_of (λ p, p = w) ps w) as [[i y] Hf]; [by apply Hsub; left|done|].
  rewrite Hf. apply list_find_Some in Hf as (Hi & -> & _). unfold index.
  change (map L ps) with (L <$> ps). rewrite list_lookup_fmap, Hi. cbn [bind].
  change (L <$> ps) with (map L ps). rewrite IH by (intros; apply Hsub; by right). done.
Qed.

(** All that an honest proof of [A] gives, cut down to what a proof of [W] needs. *)
Lemma merged_subset A pp W wp out : incr_keys fst out → is_labelled L out →
  (∀ x, x ∈ map fst out ↔ inF n f x ∧ onpath f A x) →
  StronglySorted Z.lt pp → (∀ x, x ∈ pp ↔ needed n f A x) → (∀ w, w ∈ W → w ∈ A) →
  StronglySorted Z.lt wp → (∀ x, x ∈ wp ↔ needed n f W x) →
  let all := merge_pairs out (labelled L pp) in
  incr_keys fst all ∧ filter (λ x, x.1 ∈ wp) all = labelled L wp.
Proof.
  intros So Lo Eo SpA PA HWA SpW PW all.
  assert (incr_keys fst all) as Sall by (by apply merge_pairs_incr; [|apply incr_labelled]).
  split; [done|]. assert (is_labelled L all) as Lall.
  { intros x. unfold all. rewrite merge_pairs_elem by (done || by apply incr_labelled).
    intros [Hx|[Hx _]]; [by apply Lo|by apply labelled_is in Hx]. }
  rewrite (is_labelled_eq L all Lall), filter_in_labelled. f_equal.
  apply sorted_ext; [by apply sorted_filter_lt, (incr_keys_map fst)|done|]. intros x.
  rewrite list_elem_of_filter. split; [tauto|]. intros Hx. split; [done|]. apply PW in Hx.
  destruct Hx as (Hin & Hr & (w & Hw & Hsw) & Hn).
  assert (x ∈ map fst out ∨ x ∈ pp) as Hor.
  { rewrite Eo, PA. destruct (decide (x ∈ map fst out)) as [Ho|Ho]; rewrite Eo in Ho; [by left|right].
    split_and!; try done; [exists w; auto|by intros ?; apply Ho]. }
  unfold all. rewrite list_elem_of_fmap. setoid_rewrite merge_pairs_elem; [|done|by apply incr_labelled].
  destruct (decide (x ∈ map fst out)) as [(y & -> & Hy)%list_elem_of_fmap|Hno]; [eauto|].
  destruct Hor as [?|Hpp]; [done|]. exists (x, L x). split; [done|right]. split; [|done].
  unfold labelled. apply list_elem_of_fmap. eauto.
Qed.

(** Trimming a proof whose targets are sorted to some of its targets. *)
Lemma GetProofSubset_spec A pp cp W : targets_ok s f A → StronglySorted Z.lt A → positions_of A pp cp →
  NoDup W → (∀ w, w ∈ W → w ∈ A) →
  ∃ wp wc, positions_of W wp wc ∧
    GetProofSubset (mkProof A (map L pp)) (map L A) W n = Ok (map L W, mkProof W (map L wp)).
Proof.
  intros HA SA HpA HW HWA. pose proof (targets_ok_sub A W HA HW HWA) as HWok.
  destruct (positions_exist W HWok) as (wp & wc & HpW). exists wp, wc. split; [done|].
  unfold GetProofSubset. cbn [Targets ProofHashes]. rewrite !(copySorted_id A) by done.
  pose proof (copySorted_sorted W HW) as SW.
  rewrite subtractSortedSlice_spec by (done || by apply sorted_lt_le). cbn [bind].
  replace (filter _ (copySortedFunc W)) with (@nil Z).
  2:{ symmetry. apply list_eq_nil_elem. intros x [Hx Hx']%list_elem_of_filter.
      rewrite copySorted_perm in Hx'. by apply Hx, HWA. }
  cbn [length Nat.ltb Nat.leb].
  rewrite toHashAndPos_labelled by apply HA. cbn [bind]. rewrite (copySorted_id A) by done.
  destruct (calculateHashes_labelled A pp cp HA HpA) as (out & rs & -> & So & Lo & Eo). cbn [bind].
  rewrite sort_hnp_pairs. cbn [bind].
  destruct HpA as [EA SpA _ PA CA]. rewrite copySorted_id in EA by done. rewrite EA. cbn [bind].
  rewrite toHashAndPos_labelled by (by apply sorted_lt_nodup). cbn [bind].
  rewrite mergeSorted_pairs. cbn [bind].
  rewrite getHashAndPosSubset_spec by (by apply incr_labelled || by apply sorted_lt_le). cbn [bind].
  rewrite filter_in_labelled.
  assert (filter (λ p, p ∈ copySortedFunc W) A = copySortedFunc W) as ->.
  { apply sorted_ext; [by apply sorted_filter_lt|done|]. intros x.
    rewrite list_elem_of_filter, copySorted_perm. naive_solver. }
  rewrite of_pairs_labelled at 1. cbn [positions].
  destruct HpW as [EW SpW _ PW _]. rewrite EW. cbn [bind].
  rewrite (sort_pairs_labelled L out), (copySorted_id pp) by done.
  destruct (merged_subset A pp W wp out So Lo Eo SpA PA HWA SpW PW) as [Sall Hall].
  rewrite getHashAndPosSubset_spec by (done || by apply sorted_lt_le). cbn [bind]. rewrite Hall.
  rewrite of_pairs_labelled. unfold Len. cbn [positions]. rewrite Nat.eqb_refl. cbn [negb].
  rewrite <- of_pairs_labelled, wantHashes_spec by (intros w; by rewrite copySorted_perm).
  cbn [bind]. by rewrite of_pairs_labelled.
Qed.
End Targets.
