(* ===== verification/MapPollardIngest.v ===== *)
(** * Ingesting a proof

    [Ingest] puts the targets of a proof, the hashes of the proof and the hashes computed
    from them into the state.  For the prover's proof of some leaves the state goes on
    following the forest, and remembers these leaves as well. *)

From S2P Require Import Prelude State Utils PosTheory HashPos HashPosTheory SortedTheory Traverse Calc Walk.
From S2P Require Import CalcTheory Forest EvalTheory Stump StumpTheory StumpVerify ForestLeaves StumpSpec Moves.
From S2P Require Import MapPollard Translate MapPollardInv MapPollardObs ProofUpdateTheory.

(** ** The loops *)

Section Loops.
Context `{HashFn} (L : Z → Hash).

(** Everything but the nodes stays. *)
Lemma placeProof_run ps : ∀ pre m, ∃ m',
  placeProof ps (length pre) (pre ++ map L ps) m = (m', Ok tt) ∧
  CachedLeaves m' = CachedLeaves m ∧ NumLeaves m' = NumLeaves m ∧ TotalRows m' = TotalRows m ∧
  ∀ y, Nodes m' !! y = match Nodes m !! y with
                       | Some l => Some l
                       | None => if decide (y ∈ ps) then Some (mkLeaf (L y) false) else None
                       end.
Proof.
  induction ps as [|p ps IH]; intros pre m.
  { exists m. split_and!; try done. intros y. rewrite decide_False by apply not_elem_of_nil. by destruct (Nodes m !! y). }
  cbn [placeProof map]. st_run.
  assert (pre ++ L p :: map L ps = (pre ++ [L p]) ++ map L ps) as Happ by by rewrite <- app_assoc.
  assert (S (length pre) = length (pre ++ [L p])) as Hlen by (rewrite length_app; simpl; lia).
  assert (index (pre ++ L p :: map L ps) (length pre) = Ok (L p)) as Hidx
    by (unfold index; by rewrite list_lookup_middle).
  set (m1 := if hasNode m p then m else putNode p (mkLeaf (L p) false) m).
  destruct (IH (pre ++ [L p]) m1) as (m' & E & HC & HN & HT & Hn).
  exists m'. rewrite Happ, Hlen in *. split_and!.
  - unfold m1 in E. destruct (hasNode m p).
    + rewrite st_ret_bind. exact E.
    + rewrite st_assoc, (st_lift_ok _ _ _ _ Hidx). st_run. exact E.
  - rewrite HC. unfold m1. by destruct (hasNode m p).
  - rewrite HN. unfold m1. by destruct (hasNode m p).
  - rewrite HT. unfold m1. by destruct (hasNode m p).
  - intros y. rewrite Hn. unfold m1, hasNode.
    destruct (Nodes m !! p) as [l|] eqn:Ep; simpl.
    + destruct (Nodes m !! y) eqn:Ey; [done|].
      assert (y ≠ p) as Hne by congruence.
      destruct (decide (y ∈ ps)); [by rewrite decide_True by by right|].
      by rewrite decide_False by (rewrite elem_of_cons; tauto).
    + cbn [Nodes putNode setNodes]. destruct (decide (y = p)) as [->|Hne].
      * rewrite lookup_insert_eq, Ep. by rewrite decide_True by by left.
      * rewrite lookup_insert_ne by done. destruct (Nodes m !! y); [done|].
        destruct (decide (y ∈ ps)); [by rewrite decide_True by by right|].
        by rewrite decide_False by (rewrite elem_of_cons; tauto).
Qed.

Lemma placeHashes_run remember ps : ∀ m, ∃ m',
  placeHashes ps (map L ps) remember m = (m', Ok tt) ∧
  NumLeaves m' = NumLeaves m ∧ TotalRows m' = TotalRows m ∧
  (∀ y, Nodes m' !! y = if decide (y ∈ ps) then Some (mkLeaf (L y) (remember y)) else Nodes m !! y) ∧
  (∀ h p, CachedLeaves m' !! h = Some p →
    (p ∈ ps ∧ remember p = true ∧ L p = h) ∨ CachedLeaves m !! h = Some p) ∧
  (∀ h, is_Some (CachedLeaves m' !! h) ↔
    (∃ p, p ∈ ps ∧ remember p = true ∧ L p = h) ∨ is_Some (CachedLeaves m !! h)).
Proof.
  induction ps as [|p ps IH]; intros m.
  { exists m. split_and!; try done; [auto|]. intros h. split; [auto|]. intros [(? & ?%elem_of_nil & _)|?]; done. }
  cbn [placeHashes map]. st_run.
  set (m1 := (if remember p then putCached (L p) p else id) (putNode p (mkLeaf (L p) (remember p)) m)).
  assert (Nodes m1 = <[p := mkLeaf (L p) (remember p)]> (Nodes m) ∧ NumLeaves m1 = NumLeaves m ∧
    TotalRows m1 = TotalRows m ∧
    ∀ h, CachedLeaves m1 !! h = if decide (remember p = true ∧ L p = h) then Some p else CachedLeaves m !! h)
    as (HN1 & HL1 & HT1 & HC1).
  { unfold m1. destruct (remember p); split_and!; try done.
    intros h. cbn [CachedLeaves putCached setCached putNode setNodes]. destruct (decide (L p = h)) as [<-|Hne].
    - by rewrite lookup_insert_eq, decide_True.
    - by rewrite lookup_insert_ne, decide_False by (done || tauto). }
  destruct (IH m1) as (m' & E & HL & HT & Hn & Hc1 & Hc2). exists m'. split_and!.
  - exact E.
  - congruence.
  - congruence.
  - intros y. rewrite Hn, HN1. destruct (decide (y ∈ ps)); [by rewrite decide_True by by right|].
    destruct (decide (y = p)) as [->|Hne]; [by rewrite lookup_insert_eq, decide_True by by left|].
    rewrite lookup_insert_ne, decide_False by (done || rewrite elem_of_cons; tauto). done.
  - intros h y [(Hy & Hr & HLy)|Hy]%Hc1; [left; split_and!; try done; by right|].
    rewrite HC1 in Hy. destruct (decide _) as [[? ?]|]; [|by right]. simplify_eq. left. split_and!; try done. by left.
  - intros h. rewrite Hc2, HC1. split.
    + intros [(y & ? & ? & ?)|Hs]; [left; exists y; split_and!; try done; by right|].
      destruct (decide _) as [[? ?]|]; [|by right]. left. exists p. split_and!; try done. by left.
    + intros [(y & [->|Hy]%elem_of_cons & Hr & Hh)|Hs].
      * right. rewrite decide_True by done. eauto.
      * left. eauto.
      * right. destruct (decide _); eauto.
Qed.
End Loops.

(** ** What is in the state afterwards *)

Section Ingested.
Context `{HashFn} (s : forest) (f : Z) (m m' : MapPollard) (T ps pp : list Z).
Notation n := (nl s).
Notation L := (label s f).

Context (Hm : tracks s f m) (HT : ∀ t, t ∈ T → ∃ h, leaf_at s f t h ∧ ∀ a b, parentHash a b ≠ h).
Context (remember : Z → bool) (Hrem : ∀ x, remember x = true ↔ x ∈ T).
Context (Hps : ∀ x, x ∈ ps ↔ inF n f x ∧ onpath f T x) (Hpp : ∀ x, x ∈ pp ↔ needed n f T x).
Context (HN : NumLeaves m' = NumLeaves m) (HR : TotalRows m' = TotalRows m).
Context (Hnodes : ∀ y, Nodes m' !! y =
  if decide (y ∈ ps) then Some (mkLeaf (L y) (remember y))
  else match Nodes m !! y with
       | Some l => Some l
       | None => if decide (y ∈ pp) then Some (mkLeaf (L y) false) else None
       end).
Context (Hcached : ∀ h p, CachedLeaves m' !! h = Some p →
  (p ∈ ps ∧ remember p = true ∧ L p = h) ∨ CachedLeaves m !! h = Some p).

Lemma ingested_cases y l : Nodes m' !! y = Some l →
  (y ∈ ps ∧ l = mkLeaf (L y) (remember y)) ∨ (y ∉ ps ∧ Nodes m !! y = Some l) ∨
  (y ∈ pp ∧ l = mkLeaf (L y) false).
Proof.
  rewrite Hnodes. destruct (decide (y ∈ ps)); [intros [= <-]; auto|].
  destruct (Nodes m !! y); [intros [= <-]; auto|]. destruct (decide (y ∈ pp)); [|done]. intros [= <-]. auto.
Qed.

Lemma ingested_keeps y : is_Some (Nodes m !! y) → is_Some (Nodes m' !! y).
Proof. intros [l Hl]. rewrite Hnodes, Hl. destruct (decide (y ∈ ps)); eauto. Qed.

Lemma ingested_target t : t ∈ T → inF n f t ∧ is_Some (node s f t).
Proof. intros Ht. destruct (HT t Ht) as (h & [? ->] & _). eauto. Qed.

Lemma ingested_node y l : Nodes m' !! y = Some l →
  inF n f y ∧ leafHash l = L y ∧ (root_at n f y = false → is_Some (node s f y)).
Proof.
  pose proof Hm as (_ & Hfit & Hh). intros [[Hy ->]|[[_ Hl]|[Hy ->]]]%ingested_cases.
  - apply Hps in Hy as [Hin Hon]. split_and!; try done. intros _.
    apply (node_onpath s f Hfit T); auto using ingested_target.
  - by apply (hd_nodes _ _ _ _ _ Hh).
  - apply Hpp in Hy as (Hin & Hr & Hon & _). split_and!; try done. intros _.
    destruct (sibling_props n f y Hfit Hin Hr) as (Hs & Hp & _ & Hrs & Hps').
    destruct (node_onpath s f Hfit T (sibling y)) as [u Hu]; [apply ingested_target|done|done|].
    destruct (node_family s f Hfit (sibling y) u Hs Hrs Hu) as (u' & Hu' & _).
    rewrite sibling_invol in Hu'. eauto.
Qed.

(** A remembered leaf that was there before keeps its flag. *)
Lemma ingested_flag y l : Nodes m !! y = Some l → Remember l = true →
  ∃ l', Nodes m' !! y = Some l' ∧ Remember l' = true.
Proof.
  pose proof Hm as (_ & Hfit & Hh). intros Hl Hr. rewrite Hnodes.
  destruct (decide (y ∈ ps)) as [Hy|]; [|rewrite Hl; eauto]. eexists. split; [done|]. simpl. apply Hrem.
  apply Hps in Hy as [Hin Hon]. destruct (hd_flag _ _ _ _ _ Hh y l Hl Hr) as [h Hn].
  apply onpath_under in Hon as (t & Ht & [->|Hanc]); [done|].
  destruct (HT t Ht) as (h' & Hleaf & _).
  assert (NoDup [y; t] → targets_ok s f [y; t]) as Hok.
  { intros Hnd. apply (leaves_ok s f _ [h; h']); [done|done|].
    apply Forall2_cons_2; [by split|by apply Forall2_cons_2]. }
  destruct (decide (y = t)) as [->|Hne]; [done|]. exfalso.
  assert (NoDup [y; t]) as Hnd by (repeat constructor; set_solver).
  apply not_false_iff_true in Hanc. apply Hanc. apply (to_anti _ _ _ (Hok Hnd)); set_solver.
Qed.

Lemma ingested_up q : inF n f q → root_at n f q = false → onpath f T q → onpath f T (parent q f).
Proof.
  pose proof Hm as (_ & Hfit & _). rewrite !onpath_under. intros Hq Hr (t & Ht & Hu). exists t. split; [done|].
  destruct (sibling_props n f q Hfit Hq Hr) as (_ & Hp & _).
  apply (under_trans n f Hfit _ q); try done; [by apply ingested_target|].
  right. apply (anc_parent n f); auto.
Qed.

(** The sibling of a position on the way to a target. *)
Lemma ingested_sibling q : inF n f q → root_at n f q = false → onpath f T q →
  is_Some (Nodes m' !! sibling q).
Proof.
  pose proof Hm as (_ & Hfit & _). intros Hq Hr Hon.
  destruct (sibling_props n f q Hfit Hq Hr) as (Hs & _ & _ & Hrs & _).
  rewrite Hnodes. destruct (decide (sibling q ∈ ps)) as [|Hnps]; [eauto|].
  destruct (Nodes m !! sibling q); [eauto|]. rewrite decide_True; [eauto|]. apply Hpp.
  split_and!; [done|done|by rewrite sibling_invol|]. intros Hbad. apply Hnps, Hps. done.
Qed.

Lemma ingested_tracks : tracks s f m'.
Proof.
  pose proof Hm as (HN0 & Hfit & Hh).
  split; [congruence|]. split; [done|]. split.
  - rewrite HR. apply Hh.
  - apply ingested_node.
  - intros p Hp Hr. apply ingested_keeps. by apply (hd_roots _ _ _ _ _ Hh).
  - intros p l [[Hy ->]|[[_ Hl]|[Hy ->]]]%ingested_cases Hr; simpl in Hr; [|by apply (hd_flag _ _ _ _ _ Hh p l)|done].
    apply Hrem in Hr. destruct (HT p Hr) as (h & [_ Hn] & _). eauto.
  - intros p l q Hl Hr Hq Hu Hrq.
    assert (p ∈ T ∨ ∃ l0, Nodes m !! p = Some l0 ∧ Remember l0 = true) as [HpT|(l0 & Hl0 & Hr0)].
    { apply ingested_cases in Hl as [[Hy ->]|[[_ Hl]|[Hy ->]]]; simpl in Hr; [left; by apply Hrem|eauto|done]. }
    + apply ingested_sibling; [done|done|]. apply onpath_under. by exists p.
    + apply ingested_keeps. by apply (hd_need _ _ _ _ _ Hh p l0).
  - intros q Hq Hr Hrp [l Hl].
    destruct (sibling_props n f q Hfit Hq Hr) as (Hs & Hpar & _ & Hrs & Hps').
    apply ingested_cases in Hl as [[Hy _]|[[_ Hl]|[Hy _]]].
    + apply ingested_sibling; [done|done|]. apply ingested_up; [done|done|]. by apply Hps.
    + apply ingested_keeps. apply (hd_up _ _ _ _ _ Hh q); eauto.
    + apply Hpp in Hy as (_ & _ & Hon & _). apply ingested_sibling; [done|done|].
      rewrite <- Hps'. by apply ingested_up.
  - intros h p [(Hp & Hr & <-)|Hp]%Hcached.
    + pose proof Hr as HpT%Hrem. destruct (HT p HpT) as (h & [_ Hn] & Hleafy).
      assert (L p = h) as -> by (unfold label; by rewrite Hn). split_and!; try done.
      rewrite Hnodes, decide_True by done. eauto.
    + destruct (hd_cached _ _ _ _ _ Hh h p Hp) as (Hn & Hleafy & l & Hl & Hr). split_and!; try done.
      by apply (ingested_flag p l).
Qed.
End Ingested.

(** ** The whole operation *)

(** Translating a labelled slice. *)
Lemma translate_labelled `{HashFn} s f g q : fits (nl s) f → fits (nl s) g →
  StronglySorted Z.lt q → (∀ x, x ∈ q → inF (nl s) g x) →
  translateHnp (of_pairs (labelled (label s g) q)) g f =
  Ok (of_pairs (labelled (label s f) (map (λ t, translatePos t g f) q))).
Proof.
  intros Hf Hg Hs Hq.
  assert (map (label s g) q = map (label s f) (map (λ t, translatePos t g f) q)) as Hlab.
  { rewrite map_map. apply map_ext_in. intros x Hx%list_elem_of_In. unfold label.
    by rewrite (tr_node (nl s) g f Hg Hf) by auto. }
  unfold translateHnp. rewrite !of_pairs_labelled. cbn [positions hashes]. rewrite Hlab.
  destruct (Z.eqb_spec g f) as [->|]; cbn [negb].
  - do 2 f_equal. rewrite <- (map_id q) at 1. apply map_ext_in.
    intros x (r & o & -> & Hin)%list_elem_of_In%Hq.
    pose proof (in_forest_valid (nl s) f r o Hf Hin). by rewrite translatePos_npos.
  - pose proof (tr_sorted (nl s) g f Hg Hf q Hq Hs) as Hs'. unfold translatePositions.
    change (sort_hnp (mkHnp ?a ?b)) with (toHashAndPos a b).
    rewrite toHashAndPos_labelled by (by apply sorted_lt_nodup).
    by rewrite copySorted_id, of_pairs_labelled.
Qed.

Section Ingest.
Context `{HashLaws} (s : forest) (f : Z) (m : MapPollard) (Hwf : wf s) (Hm : tracks s f m).
Notation n := (nl s).
Notation g := (treeRows n).

Context (ts : list Z) (hs prf : list Hash) (Hnd : NoDup ts) (Hts : Forall2 (leaf_at s g) ts hs).
Context (Hprf : prover_proof s ts prf) (Hleafy : ∀ h, h ∈ hs → ∀ a b, parentHash a b ≠ h).
Notation tr := (λ t, translatePos t g f).
Notation T := (map tr (copySortedFunc ts)).

Lemma ingest_leaf t : t ∈ T → ∃ h, leaf_at s f t h ∧ ∀ a b, parentHash a b ≠ h.
Proof.
  pose proof (tracks_fits s f m Hm) as Hf. pose proof (tracks_fits_rows s f m Hm) as Hg.
  intros (x & -> & Hx)%list_elem_of_fmap. rewrite copySorted_perm in Hx.
  apply list_elem_of_lookup in Hx as [i Hi].
  destruct (Forall2_lookup_l _ _ _ _ _ Hts Hi) as (h & Hh & [Hin Hn]). exists h. split.
  - split; [by apply (tr_inF n g f)|]. by rewrite (tr_node n g f).
  - apply Hleafy. by eapply list_elem_of_lookup_2.
Qed.

Lemma ingest_hash h : h ∈ hs ↔ ∃ t, t ∈ T ∧ label s f t = h.
Proof.
  pose proof (tracks_fits s f m Hm) as Hf. pose proof (tracks_fits_rows s f m Hm) as Hg.
  rewrite (leaf_labels s ts hs Hts), list_elem_of_fmap. setoid_rewrite list_elem_of_fmap.
  assert (∀ t, t ∈ ts → label s f (tr t) = label s g t) as Hlab.
  { intros t [i Hi]%list_elem_of_lookup. destruct (Forall2_lookup_l _ _ _ _ _ Hts Hi) as (h' & _ & [Hin _]).
    unfold label. by rewrite (tr_node n g f). }
  split.
  - intros (t & -> & Ht). exists (tr t). split; [exists t; split; [done|by rewrite copySorted_perm]|auto].
  - intros (? & (t & -> & Ht) & <-). rewrite copySorted_perm in Ht. exists t. split; [auto|done].
Qed.

Lemma ingest_targets : targets_ok s g ts ∧ (∀ t, t ∈ copySortedFunc ts → inF n g t) ∧
  targets_ok s f T ∧ StronglySorted Z.lt T.
Proof.
  pose proof (tracks_fits s f m Hm) as Hf. pose proof (tracks_fits_rows s f m Hm) as Hg.
  pose proof (leaves_ok s g ts hs Hg Hnd Hts) as Hok.
  assert (targets_ok s g (copySortedFunc ts)) as Hok'.
  { destruct Hok as [H1 H2 H3]. split; [by rewrite copySorted_perm|..].
    - intros t. rewrite copySorted_perm. auto.
    - intros t t'. rewrite !copySorted_perm. auto. }
  assert (∀ t, t ∈ copySortedFunc ts → inF n g t) as Hin by (intros t Ht; by apply (to_node _ _ _ Hok')).
  split_and!; try done; [by apply tr_targets_ok|]. apply (tr_sorted n); try done. by apply copySorted_sorted.
Qed.

Lemma ingest_positions : ∃ pp cp pp' cp', positions_of s ts pp cp ∧
  prf = map (label s g) pp ∧ map (label s g) pp = map (label s f) pp' ∧
  proofPositions T n f = Ok (pp', cp') ∧ ∀ x, x ∈ pp' ↔ needed n f T x.
Proof.
  pose proof (tracks_fits s f m Hm) as Hf. pose proof (tracks_fits_rows s f m Hm) as Hg.
  pose proof (tracks_max s f m Hm) as Hmax. destruct ingest_targets as (Hok & Hin & HokT & HsT).
  destruct (positions_exist s Hmax ts Hok) as (pp & cp & Hpo).
  destruct (needed_positions s f T Hf HokT) as (pp' & cp' & He & Hs & Hel).
  rewrite copySorted_id in He by done.
  exists pp, cp, pp', cp'. split_and!; try done; [by apply (prover_positions s ts pp cp)|].
  assert (∀ x, x ∈ pp → inF n g x) as Hinp by (intros x; rewrite (po_pp_elem _ _ _ _ Hpo); by intros []).
  assert (pp' = map tr pp) as ->.
  { apply sorted_ext; [done|apply (tr_sorted n); try done; apply Hpo|]. intros y.
    assert (∀ x, needed n g (copySortedFunc ts) x ↔ x ∈ pp) as HE.
    { intros x. rewrite (po_pp_elem _ _ _ _ Hpo). unfold needed.
      by rewrite !(onpath_perm g _ _ _ (copySorted_perm ts)). }
    rewrite Hel, (tr_needed n) by done. rewrite list_elem_of_fmap. setoid_rewrite HE. naive_solver. }
  rewrite map_map. apply map_ext_in. intros x Hx%list_elem_of_In. unfold label.
  by rewrite (tr_node n g f) by auto.
Qed.

Lemma ingest_hashes pp cp : positions_of s ts pp cp → ∃ os rs ps,
  calculateHashes n (Some hs) (mkProof ts (map (label s g) pp)) = Ok (of_pairs (labelled (label s g) os), rs) ∧
  translateHnp (of_pairs (labelled (label s g) os)) g f = Ok (of_pairs (labelled (label s f) ps)) ∧
  ∀ x, x ∈ ps ↔ inF n f x ∧ onpath f T x.
Proof.
  intros Hpo. pose proof (tracks_fits s f m Hm) as Hf. pose proof (tracks_fits_rows s f m Hm) as Hg.
  pose proof (tracks_max s f m Hm) as Hmax. destruct ingest_targets as (Hok & Hin & _ & _).
  destruct (calculateHashes_labelled s Hwf Hmax ts pp cp Hok Hpo) as (out & rs & He & Hs & Hl & Hel).
  rewrite <- (leaf_labels s ts hs Hts) in He. rewrite (is_labelled_eq _ _ Hl) in He.
  exists (map fst out), rs, (map tr (map fst out)). split; [done|]. split.
  - apply translate_labelled; [done|done|by apply (incr_keys_map fst)|]. intros x. rewrite Hel. by intros [].
  - intros y. rewrite list_elem_of_fmap. setoid_rewrite Hel. split.
    + intros (x & -> & Hx & Hon). split; [by apply (tr_inF n g f)|]. apply (tr_onpath n); try done.
      by apply (onpath_perm g _ _ _ (copySorted_perm ts)).
    + intros [Hy Hon]. exists (translatePos y f g). rewrite (tr_back n f g) by done. split; [done|].
      pose proof (tr_inF n f g Hf Hg y Hy) as Hx. split; [done|].
      apply (onpath_perm g _ _ _ (copySorted_perm ts)), (tr_onpath n g f Hg Hf); try done.
      by rewrite (tr_back n f g).
Qed.

Lemma Ingest_tracks : ∃ m', Ingest hs (mkProof ts prf) m = (m', Ok tt) ∧ tracks s f m' ∧
  ∀ h, is_Some (CachedLeaves m' !! h) ↔ h ∈ hs ∨ is_Some (CachedLeaves m !! h).
Proof.
  pose proof (tracks_fits s f m Hm) as Hf. pose proof (tracks_fits_rows s f m Hm) as Hg.
  destruct ingest_targets as (Hok & Hin & HokT & HsT).
  destruct ingest_positions as (pp & cp & pp' & cp' & Hpo & -> & Hlab & He & Hel).
  destruct (ingest_hashes pp cp Hpo) as (os & rs & ps & Hc & Htr & Hps).
  assert (toHashAndPos ts hs = Ok (of_pairs (labelled (label s g) (copySortedFunc ts)))) as Hh.
  { rewrite (leaf_labels s ts hs Hts) at 1. by apply toHashAndPos_labelled. }
  pose proof (translate_labelled s f g (copySortedFunc ts) Hf Hg) as Htr0.
  unfold Ingest. st_run. rewrite (tracks_rows s f m Hm), (tracks_leaves s f m Hm). cbn [Targets ProofHashes].
  rewrite (st_lift_ok _ _ _ _ Hh), (st_lift_ok _ _ _ _ (Htr0 (copySorted_sorted ts Hnd) Hin)).
  rewrite of_pairs_labelled. cbn [positions]. rewrite (st_lift_ok _ _ _ _ He).
  assert (f <? g = false) as -> by (apply Z.ltb_ge; by apply treeRows_le).
  rewrite (st_lift_ok _ _ _ _ eq_refl), Hlab.
  destruct (placeProof_run (label s f) pp' [] m) as (m1 & E1 & HC1 & HL1 & HT1 & Hn1).
  destruct (placeHashes_run (label s f) (λ pos, existsb (λ p, p =? pos) T) ps m1)
    as (m' & E2 & HL2 & HT2 & Hn2 & HC2 & HI2).
  assert (∀ x, existsb (λ p, p =? x) T = true ↔ x ∈ T) as Hrem.
  { intros x. rewrite existsb_exists. setoid_rewrite <- list_elem_of_In. setoid_rewrite Z.eqb_eq. naive_solver. }
  exists m'. split_and!.
  - cbn [app length] in E1. rewrite (st_bind_ok _ _ _ _ _ E1), <- Hlab, (st_lift_ok _ _ _ _ Hc).
    cbn beta iota. rewrite (st_lift_ok _ _ _ _ Htr), of_pairs_labelled. exact E2.
  - eapply (ingested_tracks s f m m' T ps pp' Hm ingest_leaf _ Hrem Hps Hel); [congruence..| |].
    + intros y. by rewrite Hn2, Hn1.
    + rewrite <- HC1. exact HC2.
  - intros h. rewrite HI2, HC1, ingest_hash. setoid_rewrite Hrem. split; [naive_solver|].
    intros [(t & Ht & <-)|?]; [|by right]. left. exists t. split_and!; try done. apply Hps. split.
    + by apply (to_node _ _ _ HokT).
    + exists t. auto.
Qed.
End Ingest.
