(* ===== verification/MapPollardRun.v ===== *)
(** * What clients of a map pollard see

    The states that a client reaches from [NewMapPollard] by blocks and by verifying
    proofs, and the invariant that they satisfy. *)

From S2P Require Import Prelude State Utils PosTheory HashPos Traverse Calc Walk.
From S2P Require Import Forest EvalTheory Stump StumpTheory StumpVerify ForestLeaves StumpSpec Moves Deletions.
From S2P Require Import MapPollard MapPollardInv MapPollardObs MapPollardDelete MapPollardAdd MapPollardSpec.
From S2P Require Import MapPollardIngest MapPollardIO.

(** ** What a client may do *)

Lemma NewMapPollard_tracks `{HashFn} : tracks [] 50 NewMapPollard.
Proof.
  assert (∀ p, inF 0 50 p → False) as Hempty.
  { intros p (r & o & _ & ? & ? & ?). pose proof (pow2_pos r). lia. }
  split; [done|]. split; [split; cbn [nl]; lia|].
  split; [done|..]; intros; try done; exfalso; eauto.
Qed.

(** Targets, their hashes, the proof hashes, the leaves to add. *)
Notation pblock := (list Z * list Hash * list Hash * list Leaf)%type.

Section Run.
Context `{HashFn}.

(** What a client of [Modify] has to keep to, in the rows [f]. *)
Record good_block (f : Z) (s : forest) (known : Hash → Prop) (b : pblock) : Prop := {
  gb_nodup : NoDup b.1.1.1;
  gb_leaves : Forall2 (leaf_at s (treeRows (nl s))) b.1.1.1 b.1.1.2;
  gb_known h : h ∈ b.1.1.2 → known h;
  gb_addable : addable b.2;
  gb_distinct : NoDup (forest_leaves (apply_block s b.1.1.1 (map leafHash b.2)));
  gb_fits : nl (apply_block s b.1.1.1 (map leafHash b.2)) ≤ 2 ^ f;
}.

(** A prover's proof of leaves whose hashes are not hashes of inner nodes. *)
Record good_proof (s : forest) (ts : list Z) (hs prf : list Hash) : Prop := {
  gp_nodup : NoDup ts;
  gp_leaves : Forall2 (leaf_at s (treeRows (nl s))) ts hs;
  gp_proof : prover_proof s ts prf;
  gp_leafy h : h ∈ hs → ∀ a b, parentHash a b ≠ h;
}.

(** The leaves that the state has been told to remember and that are still there. *)
Definition known_after (known : Hash → Prop) (b : pblock) (h : Hash) : Prop :=
  to_remember b.2 h ∨ (h ∉ b.1.1.2 ∧ known h).

(** The leaves of an accepted proof are remembered if that is wanted. *)
Definition known_with (remember : bool) (hs : list Hash) (known : Hash → Prop) (h : Hash) : Prop :=
  if remember then h ∈ hs ∨ known h else known h.

(** The states that a client reaches: the forest, the leaves that are remembered, and the
    state of the accumulator.  Blocks delete remembered leaves; any proof may be checked,
    but only the proofs of a prover are remembered: an accepted proof of something else
    can leave wrong hashes behind (see [Verify_remember_other_root]). *)
Inductive reachable : forest → (Hash → Prop) → MapPollard → Prop :=
| reach_new : reachable [] (λ _, False) NewMapPollard
| reach_modify s known m b m' :
    reachable s known m → good_block 50 s known b →
    Modify b.2 b.1.1.2 (mkProof b.1.1.1 b.1.2) m = (m', Ok tt) →
    reachable (apply_block s b.1.1.1 (map leafHash b.2)) (known_after known b) m'
| reach_verify s known m ts hs prf remember m' :
    reachable s known m → good_proof s ts hs prf →
    Verify hs (mkProof ts prf) remember m = (m', Ok tt) →
    reachable s (known_with remember hs known) m'
| reach_check s known m hs prf m' r :
    reachable s known m → Verify hs prf false m = (m', r) → reachable s known m'.
End Run.

Record invariant `{HashFn} (f : Z) (s : forest) (known : Hash → Prop) (m : MapPollard) : Prop := {
  iv_wf : wf s;
  iv_tracks : tracks s f m;
  iv_distinct : NoDup (forest_leaves s);
  iv_known h : is_Some (CachedLeaves m !! h) ↔ known h;
}.

Lemma invariant_step `{HashLaws} f s known m b : invariant f s known m → good_block f s known b →
  ∃ m', Modify b.2 b.1.1.2 (mkProof b.1.1.1 b.1.2) m = (m', Ok tt) ∧
    invariant f (apply_block s b.1.1.1 (map leafHash b.2)) (known_after known b) m'.
Proof.
  intros [Hwf Ht Hnd Hk] [G1 G2 G3 G4 G5 G6].
  destruct (Modify_tracks f s m b.1.1.1 b.1.1.2 b.1.2 b.2) as (m' & E & Hwf' & Ht' & HC); try done.
  { intros h Hh. by apply Hk, G3. }
  exists m'. split; [done|]. split; try done. intros h. rewrite HC, Hk. done.
Qed.

Lemma invariant_new `{HashFn} : invariant 50 [] (λ _, False) NewMapPollard.
Proof.
  split; [by intros i t Hi; rewrite lookup_nil in Hi|apply NewMapPollard_tracks|apply NoDup_nil_2|].
  intros h. cbn. rewrite lookup_empty. split; [by intros [? ?]|done].
Qed.

Lemma leaf_targets `{HashFn} s k ts hs : Forall2 (leaf_at s k) ts hs → ∀ t, t ∈ ts → inF (nl s) k t.
Proof.
  intros Hl t [i Hi]%list_elem_of_lookup. by destruct (Forall2_lookup_l _ _ _ _ _ Hl Hi) as (h & _ & [? _]).
Qed.

(** A proof that is only checked changes nothing, whatever the answer. *)
Lemma Verify_checks `{HashFn} hs prf m : (Verify hs prf false m).1 = m.
Proof. unfold Verify. st_run. unfold mbind, st_bind, lift. by destruct (Stump.Verify _ _ _). Qed.

Lemma reachable_invariant `{HashLaws} s known m : reachable s known m → invariant 50 s known m.
Proof.
  induction 1 as [|s known m b m' _ IH Hb E|s known m ts hs prf remember m' _ [Hwf Ht Hnd Hk] [G1 G2 G3 G4] E
                  |s known m hs prf m' r _ IH E].
  - apply invariant_new.
  - destruct (invariant_step 50 s known m b IH Hb) as (m1 & E1 & Hi). congruence.
  - rewrite (Verify_run s 50 m Ht) in E.
    2:{ by eapply leaf_targets. }
    destruct (Stump.Verify _ _ _); try done. destruct remember.
    + destruct (Ingest_tracks s 50 m Hwf Ht ts hs prf G1 G2 G3 G4) as (m1 & E1 & Ht1 & HC1).
      assert (m1 = m') as -> by congruence. split; try done. intros h. by rewrite HC1, Hk.
    + simplify_eq. by split.
  - pose proof (Verify_checks hs prf m) as Hm. by rewrite E in Hm; simpl in Hm; subst m'.
Qed.

(** [Read] accepts what is written of such a state. *)
Lemma reachable_present `{HashLaws} s known m : reachable s known m → cachedPresent m.
Proof.
  intros [_ Ht _ _]%reachable_invariant h p Hp. pose proof Ht as (_ & _ & Hd).
  destruct (hd_cached _ _ _ _ _ Hd h p Hp) as (Hn & _ & l & Hl & _).
  destruct (tracks_node s 50 m Ht p l Hl) as [_ Hlab]. rewrite Hl. simpl.
  rewrite Hlab. unfold label. by rewrite Hn.
Qed.

(** ** Answers *)

Lemma represents_det `{HashFn} s st st' : represents s st → represents s st' → st = st'.
Proof. destruct st, st'. intros [H1 H2] [H3 H4]. simpl in *. congruence. Qed.

Lemma cached_Forall m hs : cached m hs = true ↔ ∀ h, h ∈ hs → is_Some (CachedLeaves m !! h).
Proof.
  unfold cached. rewrite forallb_forall. setoid_rewrite <- list_elem_of_In.
  by setoid_rewrite bool_decide_eq_true.
Qed.

Lemma cached_one m h : cached m [h] = true ↔ is_Some (CachedLeaves m !! h).
Proof. rewrite cached_Forall. setoid_rewrite list_elem_of_singleton. naive_solver. Qed.

(** A prover's proof is accepted. *)
Lemma Verify_accepts `{HashLaws} s f m ts hs prf remember : wf s → tracks s f m →
  NoDup ts → Forall2 (leaf_at s (treeRows (nl s))) ts hs → prover_proof s ts prf →
  Verify hs (mkProof ts prf) remember m =
    if remember then Ingest hs (mkProof ts prf) m else (m, Ok tt).
Proof.
  intros Hwf Hm Hnd Hl Hp. rewrite (Verify_run s f m Hm) by (by eapply leaf_targets).
  destruct (Verify_prover s (GetStump m) Hwf (GetStump_represents s f m Hm) (tracks_max s f m Hm) ts hs prf)
    as (idxs & -> & _); done.
Qed.

(** Distinct leaves have one place each, so their positions are determined. *)
Lemma leaf_targets_det s k ts ts' hs : fits (nl s) k → wf s → NoDup (forest_leaves s) →
  Forall2 (leaf_at s k) ts hs → Forall2 (leaf_at s k) ts' hs → ts = ts'.
Proof.
  intros Hfit Hwf Hnd Hl. revert ts'. induction Hl as [|t h ts hs [Ht Hn] _ IH]; intros ts' Hl'.
  { by apply Forall2_nil_inv_r in Hl' as ->. }
  apply Forall2_cons_inv_r in Hl' as (t' & ts1 & [Ht' Hn'] & Hl' & ->). f_equal; [|by apply IH].
  by apply (forest_one_place s k Hfit Hwf Hnd t t' h).
Qed.

(** The proof depends on the forest only. *)
Lemma Prove_det `{HashLaws} s f m f' m' hs : wf s → NoDup (forest_leaves s) →
  tracks s f m → tracks s f' m' → NoDup hs → cached m hs = true → cached m' hs = true →
  ∃ prf, Prove m hs = Ok prf ∧ Prove m' hs = Ok prf.
Proof.
  rewrite !cached_Forall. intros Hwf Hnd Hm Hm' Hhs Hc Hc'.
  destruct (Prove_tracks s f m Hm hs Hc Hhs) as (ts & prf & E & _ & Hl & (pp & cp & Hp & ->)).
  destruct (Prove_tracks s f' m' Hm' hs Hc' Hhs) as (ts' & prf' & E' & _ & Hl' & (pp' & cp' & Hp' & ->)).
  assert (ts = ts') as <-.
  { eapply leaf_targets_det; [apply (tracks_fits_rows s f m Hm)|done..]. }
  rewrite Hp in Hp'. injection Hp' as <- <-. eauto.
Qed.

(** Pruning is invisible. *)
Lemma prune_tracks `{HashFn} s f m p : tracks s f m → inF (nl s) f p → root_at (nl s) f p = false →
  tracks s f (prunePosition p m) ∧ CachedLeaves (prunePosition p m) = CachedLeaves m.
Proof.
  intros (HL & Hfit & Hh) Hp Hr.
  destruct (holds_prune (nl s) f _ _ _ Hfit (forest_part s f Hfit) m p Hh Hp Hr) as [Hh' (HC & HN & HR & _)].
  split; [|done]. split; [congruence|]. by split.
Qed.
