(* ===== verification/Toy.v ===== *)
(** * A concrete instance for witnesses

    A small arithmetic hash function that satisfies [HashLaws], and a forest of five
    leaves with its stump. *)

From S2P Require Import Prelude Utils PosTheory HashPos Traverse Calc Walk.
From S2P Require Import Forest EvalTheory Stump StumpTheory StumpVerify StumpSpec.

Definition toy_parentHash (l r : Hash) : Hash := 1 + Z.land (31 * l + 17 * r + 5) (Z.ones 64).

#[export] Instance toy_hash : HashFn := toy_parentHash.

#[export] Instance toy_laws : HashLaws.
Proof.
  intros l r. unfold parentHash, toy_hash, toy_parentHash, empty.
  rewrite Z.land_ones by lia. pose proof (Z.mod_pos_bound (31 * l + 17 * r + 5) (2 ^ 64)). lia.
Qed.

(** Leaves 11 .. 15; positions 0 .. 4 in a forest of 3 rows. *)
Definition toy_forest : forest := add_leaves [] [11; 12; 13; 14; 15].
Definition toy_stump : Stump := mkStump (map ohash (trees toy_forest)) 5.

(** Leaves 12 and 15, with the hashes of positions 0 and 9. *)
Definition toy_targets : list Z := [4; 1].
Definition toy_hashes : list Hash := [15; 12].
Definition toy_proof : list Hash := [11; toy_parentHash 13 14].

Lemma toy_wf : wf toy_forest.
Proof.
  apply wf_add_leaves.
  - intros i t Hi. by rewrite lookup_nil in Hi.
  - apply (bool_decide_unpack _). vm_compute; reflexivity.
Qed.

Lemma toy_represents : represents toy_forest toy_stump.
Proof. split; vm_compute; reflexivity. Qed.

Lemma toy_leaves : Forall2 (leaf_at toy_forest 3) toy_targets toy_hashes.
Proof.
  repeat constructor.
  - exists 0, 4. split; [vm_compute; reflexivity|]. split; [lia|]. split; [lia|done].
  - exists 0, 1. split; [vm_compute; reflexivity|]. split; [lia|]. split; [lia|done].
Qed.

Lemma toy_nodup : NoDup toy_targets.
Proof. apply (bool_decide_unpack _). vm_compute; reflexivity. Qed.

Lemma toy_prover : prover_proof toy_forest toy_targets toy_proof.
Proof. exists [0; 9], [8; 12]. split; vm_compute; reflexivity. Qed.

Lemma toy_distinct : distinct_roots toy_forest.
Proof. apply (bool_decide_unpack _). vm_compute; reflexivity. Qed.

Lemma toy_targets_ok : targets_ok toy_forest 3 toy_targets.
Proof.
  eapply leaves_ok; [split; [done|lia]|apply toy_nodup|apply toy_leaves].
Qed.
