(* ===== verification/VerifyErrors.v ===== *)
(** * Proofs that Verify does not answer

    [Verify] on malformed proofs: too few hashes, targets outside the forest, and on
    inputs for which the answer is not the expected one. *)

From S2P Require Import State MapPollard.
From S2P Require Import Prelude Utils PosTheory HashPos HashPosTheory SortedTheory Traverse Calc Walk.
From S2P Require Import DeTwinTheory CalcTheory Forest EvalTheory Stump StumpTheory StumpVerify.
From S2P Require Import StumpSpec ProofUpdate Toy.

(** ** Rows of a position outside the forest *)

Lemma maxPositionAtRow_bound row f n : 0 ≤ f ≤ 63 → 0 ≤ n ≤ 2 ^ f →
  or_zero 0 (maxPositionAtRow row f n) ≤ 2 ^ (f + 1) - 2.
Proof.
  intros Hf Hn. pose proof (pow2_succ f). pose proof (pow2_pos f). pose proof (pow2_le (f + 1) 64).
  unfold maxPositionAtRow, parentMany.
  destruct (row =? 0).
  { simpl. destruct (Z.eqb_spec n 0); simpl; [lia|]. unfold sub64. rewrite u64_small; lia. }
  destruct (f <? row); [simpl; lia|]. cbn [bind or_zero]. rewrite mask_eq by lia.
  set (m := Z.land _ _). assert (0 ≤ m < 2 ^ (f + 1)).
  { unfold m. replace (2 ^ (f + 1) - 1) with (Z.ones (f + 1)) by (rewrite Z.ones_equiv; lia).
    rewrite Z.land_ones by lia. apply Z.mod_pos_bound. lia. }
  destruct (Z.eqb_spec m 0); simpl; [lia|]. unfold sub64. rewrite u64_small; lia.
Qed.

(** No number of rounds of the row loop gets past a position above all rows. *)
Lemma climb_beyond fuel p row f n : 0 ≤ f ≤ 63 → 0 ≤ n ≤ 2 ^ f → 2 ^ (f + 1) - 1 ≤ p →
  climb fuel p row f n = Spin.
Proof.
  intros Hf Hn Hp. revert row. induction fuel as [|fuel IH]; intros row; [done|]. cbn [climb].
  pose proof (maxPositionAtRow_bound row f n Hf Hn).
  rewrite (proj2 (Z.ltb_lt _ _)) by lia. apply IH.
Qed.

Section Errors.
Context `{HashFn}.

(** Too few proof hashes panic, enough of them give roots. *)
Lemma eval_total f tr val prf :
  ((length prf < length (sibs tr))%nat → eval f tr val prf = Panic) ∧
  ((length (sibs tr) ≤ length prf)%nat → ∃ ps rs, eval f tr val prf = Ok (ps, rs)).
Proof.
  revert val prf. induction tr as [|[p|p|p] tr IH]; intros val prf; cbn [eval sibs].
  - split; simpl; [lia|eauto].
  - destruct (IH val prf) as [Hp Ho]. split; intros Hl.
    + by rewrite Hp.
    + destruct (Ho Hl) as (ps & rs & ->). eauto.
  - destruct (IH (upd val (parent p f) (getNextHash p (val p) (val (rightSib p)))) prf) as [Hp Ho].
    split; intros Hl.
    + by rewrite Hp.
    + destruct (Ho Hl) as (ps & rs & ->). eauto.
  - destruct prf as [|k prf]; simpl; [split; [done|lia]|].
    destruct (IH (upd val (parent p f) (getNextHash p (val p) k)) prf) as [Hp Ho]. split; intros Hl.
    + rewrite Hp; [done|lia].
    + destruct Ho as (ps & rs & ->); [lia|]. eauto.
Qed.

Lemma calculateHashes_spins n p h prf : 0 ≤ n ≤ 2 ^ 63 → 2 ^ (treeRows n + 1) - 1 ≤ p →
  calculateHashes n (Some [h]) (mkProof [p] prf) = Spin.
Proof.
  intros Hn Hp. destruct (fits_treeRows n Hn) as [Hf Hnf]. unfold calculateHashes. cbn [Targets].
  rewrite toHashAndPos_pairs by done. cbn [bind]. unfold walk_fuel. cbn [length].
  rewrite Nat.add_1_r. cbn [calculateHashes_loop]. rewrite (proj2 (Z.leb_le _ _)) by lia.
  assert (sort_pairs (zip [p] [h]) = [(p, h)]) as -> by done.
  unfold getNextPos, nextLeastSlice. cbn -[climb treeRows rightSib]. by rewrite climb_beyond.
Qed.
End Errors.

Section Claims.
Context `{HashFn}.

(** C38.  On distinct targets of the forest, none above another one, [Verify] with as many
    hashes as targets terminates whatever the hashes: given enough proof hashes it
    accepts or returns the invalid-proof error, given too few it panics. *)
Theorem Verify_total st ts hs prf pp cp : let n := NumLeaves st in let f := treeRows n in
  0 ≤ n ≤ 2 ^ 63 → pending n f (copySortedFunc ts) → length hs = length ts →
  proofPositions (copySortedFunc ts) n f = Ok (pp, cp) →
  ((length pp ≤ length prf)%nat →
     (∃ idxs, Verify st hs (mkProof ts prf) = Ok idxs) ∨
     Verify st hs (mkProof ts prf) = Err ErrInvalidProof) ∧
  ((length prf < length pp)%nat → Verify st hs (mkProof ts prf) = Panic).
Proof.
  intros n f Hn Hpd Hhs Hpp. pose proof (fits_treeRows n Hn) as Hfit. fold f in Hfit.
  destruct (walk_exists n f _ Hfit Hpd) as (tr & Hw & Hlen).
  destruct (proofPositions_walk n f _ Hfit Hpd) as (tr' & Hw' & _ & Hp). rewrite Hp in Hpp.
  rewrite (walk_det n f _ tr' tr) in Hpp by done. injection Hpp as <- <-.
  unfold Verify. cbn [Targets]. rewrite Hhs, Nat.eqb_refl. cbn [negb]. fold n.
  rewrite (calculateHashes_eval n ts hs prf _ tr Hfit Hpd (copySorted_perm ts) Hw Hlen Hhs). fold f.
  destruct (eval_total f tr (assoc (zip ts hs)) prf) as [Hpanic Hok]. split; intros Hl.
  - destruct (Hok Hl) as (ps & rs & He). rewrite He. apply eval_lengths in He as [He _]. cbn [bind].
    rewrite <- (of_pairs_zip (parents f tr) ps), mergeSorted_pairs by done. cbn [bind].
    destruct (negb _); eauto.
  - by rewrite (Hpanic Hl).
Qed.

(** C16.  [Verify] accepts all-zero hashes.  Over two leaves with root [r], the claim that
    [r] itself is leaf 0 is accepted with an all-zero proof hash, because an empty sibling
    counts as deleted and lets the claimed hash move up; the update that deletes it then
    empties the whole tree.  The all-zero hash is accepted as leaf 0 with [r] as the proof. *)
Theorem Verify_empty_hash r : r ≠ empty →
  let st := mkStump [r] 2 in
  Verify st [r] (mkProof [0] [empty]) = Ok [0%nat] ∧
  (∃ ud, Update st [r] [] (mkProof [0] [empty]) = (mkStump [empty] 2, Ok ud)) ∧
  Verify st [empty] (mkProof [0] [r]) = Ok [0%nat].
Proof.
  intros Hr st. unfold st.
  assert (calculateHashes 2 (Some [r]) (mkProof [0] [empty]) = Ok (mkHnp [0; 2] [r; r], [r])) as Hc.
  { assert (getNextHash 0 r empty = r) as E by (unfold getNextHash; by rewrite decide_False).
    rewrite <- E at 3 4. by vm_compute. }
  assert (Verify (mkStump [r] 2) [r] (mkProof [0] [empty]) = Ok [0%nat]) as HV.
  { unfold Verify. cbn [Targets length Nat.eqb negb NumLeaves Roots]. rewrite Hc. cbn.
    by rewrite bool_decide_eq_true_2. }
  split; [done|]. split.
  - unfold Update, Stump.del, del_roots. rewrite HV. eexists. by vm_compute.
  - unfold Verify. cbn [Targets length Nat.eqb negb NumLeaves Roots].
    assert (calculateHashes 2 (Some [empty]) (mkProof [0] [r]) = Ok (mkHnp [0; 2] [empty; r], [r])) as -> by done.
    cbn. by rewrite bool_decide_eq_true_2.
Qed.

(** C39.  A single target at or above [2^(treeRows+1) - 1], i.e. past the last position
    of the forest, makes [Verify] loop for ever instead of returning an error: no
    number of rounds of the row loop of [calculateHashes] ends, whatever the row. *)
Theorem Verify_outside_spins st p h prf : let n := NumLeaves st in let f := treeRows n in
  0 ≤ n ≤ 2 ^ 63 → 2 ^ (f + 1) - 1 ≤ p →
  Verify st [h] (mkProof [p] prf) = Spin ∧ ∀ fuel row, climb fuel p row f n = Spin.
Proof.
  intros n f Hn Hp. split.
  - unfold Verify. cbn [Targets length Nat.eqb negb]. by rewrite calculateHashes_spins.
  - intros. destruct (fits_treeRows n Hn). by apply climb_beyond.
Qed.
(** C40.  [Verify] compares a candidate with every root, not with the root above its
    target.  Over three leaves with roots [a] and [b], the claim that [a] is at position
    2, where [b] is, is accepted with the index of the other tree, and the deletion
    empties that tree instead. *)
Theorem Verify_other_root a b : a ≠ b →
  Verify (mkStump [a; b] 3) [a] (mkProof [2] []) = Ok [0%nat] ∧
  Stump.del (mkStump [a; b] 3) [a] (mkProof [2] []) = (mkStump [empty; b] 3, Ok ([empty], [2])).
Proof.
  intros Hab. assert (Verify (mkStump [a; b] 3) [a] (mkProof [2] []) = Ok [0%nat]) as HV.
  { unfold Verify. cbn [Targets length Nat.eqb negb].
    assert (calculateHashes 3 (Some [a]) (mkProof [2] []) = Ok (mkHnp [2] [a], [a])) as Hc by done.
    cbn [NumLeaves Roots]. rewrite Hc. cbn. rewrite bool_decide_eq_false_2 by done. cbn.
    by rewrite bool_decide_eq_true_2. }
  split; [done|]. unfold Stump.del, del_roots. rewrite HV. by vm_compute.
Qed.

(** A map pollard that remembers such a proof stores the claimed hash at the target: it
    writes over a root, and its stump is no longer that of the forest. *)
Theorem Verify_remember_other_root a b : a ≠ b →
  let m := mkMapPollard ∅ (<[2 := mkLeaf b false]> (<[4 := mkLeaf a false]> ∅)) 3 2 in
  MapPollard.GetRoots m = [a; b] ∧
  ∃ m', MapPollard.Verify [a] (mkProof [2] []) true m = (m', Ok tt) ∧ MapPollard.GetRoots m' = [a; a].
Proof.
  intros Hab m. split; [by vm_compute|].
  assert (Verify (MapPollard.GetStump m) [a] (mkProof [2] []) = Ok [0%nat]) as HV.
  { unfold Verify. cbn [Targets length Nat.eqb negb].
    assert (MapPollard.GetStump m = mkStump [a; b] 3) as -> by by vm_compute.
    assert (calculateHashes 3 (Some [a]) (mkProof [2] []) = Ok (mkHnp [2] [a], [a])) as Hc by done.
    cbn [NumLeaves Roots]. rewrite Hc. cbn. rewrite bool_decide_eq_false_2 by done. cbn.
    by rewrite bool_decide_eq_true_2. }
  unfold MapPollard.Verify. st_run. change (negb _) with false. cbn iota.
  unfold mbind, st_bind, lift. rewrite HV. eexists. split; [by vm_compute|]. by vm_compute.
Qed.

(** [GetProofSubset] pairs the sorted targets with the hashes in their given order:
    from a valid proof of both leaves of a tree, right leaf first, it returns for the
    left leaf [a] the hash of the right one. *)
Theorem GetProofSubset_unsorted a b : a ≠ empty → b ≠ empty →
  Verify (mkStump [parentHash a b] 2) [b; a] (mkProof [1; 0] []) = Ok [0%nat] ∧
  GetProofSubset (mkProof [1; 0] []) [b; a] [0] 2 = Ok ([b], mkProof [0] [b]).
Proof.
  intros Ha Hb.
  assert (calculateHashes 2 (Some [b; a]) (mkProof [1; 0] [])
          = Ok (mkHnp [0; 1; 2] [a; b; parentHash a b], [parentHash a b])) as Hc.
  { assert (getNextHash 0 a b = parentHash a b) as <- by (unfold getNextHash; by rewrite !decide_False).
    by vm_compute. }
  split.
  - unfold Verify. cbn [Targets length Nat.eqb negb]. cbn [NumLeaves Roots]. rewrite Hc. cbn.
    by rewrite bool_decide_eq_true_2.
  - unfold GetProofSubset. cbn [Targets ProofHashes]. rewrite Hc. by vm_compute.
Qed.
End Claims.

Lemma Verify_total_witness :
  ((2 ≤ 2)%nat →
     (∃ idxs, Verify toy_stump toy_hashes (mkProof toy_targets [7; 7]) = Ok idxs) ∨
     Verify toy_stump toy_hashes (mkProof toy_targets [7; 7]) = Err ErrInvalidProof) ∧
  ((2 < 2)%nat → Verify toy_stump toy_hashes (mkProof toy_targets [7; 7]) = Panic).
Proof.
  apply (Verify_total toy_stump toy_targets toy_hashes [7; 7] [0; 9] [8; 12]).
  - vm_compute; split; discriminate.
  - apply (targets_pending toy_forest 3 toy_targets toy_targets_ok).
  - reflexivity.
  - by vm_compute.
Defined.

Lemma Verify_outside_spins_witness :
  Verify toy_stump [1] (mkProof [15] []) = Spin ∧ ∀ fuel row, climb fuel 15 row 3 5 = Spin.
Proof. apply (Verify_outside_spins toy_stump 15 1 []); vm_compute; [split|]; discriminate. Defined.

(** ** Unexpected answers *)

(** A proof whose last hash is missing. *)
Example Verify_short_proof :
  Verify toy_stump toy_hashes (mkProof toy_targets [11]) = Panic.
Proof. by vm_compute. Qed.

(** A position of the second row's numbering that the forest of five leaves does not have:
    the climb from 6 leaves the forest. *)
Example Verify_unused_position :
  Verify toy_stump [1] (mkProof [6] [7; 8; 9; 10; 11]) = Spin.
Proof. by vm_compute. Qed.

Lemma Verify_other_root_witness :
  Verify (mkStump [12; 13] 3) [12] (mkProof [2] []) = Ok [0%nat] ∧
  Stump.del (mkStump [12; 13] 3) [12] (mkProof [2] []) = (mkStump [empty; 13] 3, Ok ([empty], [2])).
Proof. apply (Verify_other_root 12 13). discriminate. Defined.

Lemma Verify_empty_hash_witness :
  Verify (mkStump [12] 2) [12] (mkProof [0] [empty]) = Ok [0%nat] ∧
  (∃ ud, Update (mkStump [12] 2) [12] [] (mkProof [0] [empty]) = (mkStump [empty] 2, Ok ud)) ∧
  Verify (mkStump [12] 2) [empty] (mkProof [0] [12]) = Ok [0%nat].
Proof. apply (Verify_empty_hash 12). discriminate. Defined.

Lemma GetProofSubset_unsorted_witness :
  Verify (mkStump [parentHash 12 13] 2) [13; 12] (mkProof [1; 0] []) = Ok [0%nat] ∧
  GetProofSubset (mkProof [1; 0] []) [13; 12] [0] 2 = Ok ([13], mkProof [0] [13]).
Proof. apply (GetProofSubset_unsorted 12 13); discriminate. Defined.
