(* ===== verification/StumpProps.v ===== *)
(** * Properties of the stump

    The claims about stump.go: verification, updates, runs of updates. *)

From S2P Require Import Prelude Utils PosTheory HashPos HashPosTheory Traverse Calc Walk.
From S2P Require Import CalcTheory Forest EvalTheory Stump StumpTheory StumpVerify ForestLeaves.
From S2P Require Import StumpSpec Toy.

(** C1.  An update with an honest proof deletes exactly the targets and adds exactly
    the given leaves: the stump ends up with the roots and the leaf count of the
    forest in which the targets were deleted and the leaves added.  The update data
    names the previous leaf count and the empty roots that were written over. *)
Theorem Update_refines `{HashLaws} s st ts hs prf adds :
  wf s → represents s st → nl s + Z.of_nat (length adds) ≤ 2 ^ 63 →
  NoDup ts → Forall2 (leaf_at s (treeRows (nl s))) ts hs → prover_proof s ts prf →
  distinct_roots s → empty ∉ adds →
  ∃ st' ud, Update st hs adds (mkProof ts prf) = (st', Ok ud) ∧
    represents (apply_block s ts adds) st' ∧ PrevNumLeaves ud = nl s ∧
    ToDestroy ud = doomed (treeRows (nl s + Z.of_nat (length adds))) (nl s)
                     (Z.of_nat (length adds)) 0 (Forest.del (treeRows (nl s)) ts s).
Proof.
  intros Hwf Hrep Hmax Hnd Hl Hp Hd Hne. assert (nl s ≤ 2 ^ 63) as Hn by lia.
  pose proof (leaves_ok s _ ts hs (Hfit s Hn) Hnd Hl) as Hts.
  destruct (del_honest s st Hwf Hrep Hn ts hs prf) as (st1 & inter & Hdel & Hrep1); try done.
  { by apply leaf_labels. }
  by eapply Update_del.
Qed.

Lemma Update_refines_witness :
  ∃ st' ud, Update toy_stump toy_hashes [16; 17] (mkProof toy_targets toy_proof) = (st', Ok ud) ∧
    represents (apply_block toy_forest toy_targets [16; 17]) st' ∧ PrevNumLeaves ud = nl toy_forest ∧
    ToDestroy ud = doomed (treeRows (nl toy_forest + 2)) (nl toy_forest) 2 0
                     (Forest.del (treeRows (nl toy_forest)) toy_targets toy_forest).
Proof.
  apply (Update_refines toy_forest toy_stump toy_targets toy_hashes toy_proof [16; 17]).
  - apply toy_wf.
  - apply toy_represents.
  - by vm_compute.
  - apply toy_nodup.
  - apply toy_leaves.
  - apply toy_prover.
  - apply toy_distinct.
  - apply (bool_decide_unpack _). by vm_compute.
Defined.





(** C7.  Completeness of [Verify]: the proof that a prover derives from the forest with
    [proofPositions] is accepted, for any set of distinct leaves in any order. *)
Theorem Verify_complete `{HashLaws} s st ts hs prf :
  wf s → represents s st → nl s ≤ 2 ^ 63 →
  NoDup ts → Forall2 (leaf_at s (treeRows (nl s))) ts hs → prover_proof s ts prf →
  ∃ idxs, Verify st hs (mkProof ts prf) = Ok idxs ∧
    length idxs = length (tops (nl s) (treeRows (nl s)) ts).
Proof.
  intros Hwf Hrep Hmax. by apply Verify_prover.
Qed.

Lemma Verify_complete_witness :
  ∃ idxs, Verify toy_stump toy_hashes (mkProof toy_targets toy_proof) = Ok idxs ∧
    length idxs = length (tops (nl toy_forest) (treeRows (nl toy_forest)) toy_targets).
Proof.
  apply (Verify_complete toy_forest toy_stump toy_targets toy_hashes toy_proof).
  - apply toy_wf.
  - apply toy_represents.
  - by vm_compute.
  - apply toy_nodup.
  - apply toy_leaves.
  - apply toy_prover.
Defined.



(** C11.  The set of leaves after an honest update is the old one without the deleted
    leaves and with the added ones (as multisets): nothing else disappears or appears. *)
Theorem Update_leaves `{HashLaws} s st ts hs prf adds :
  wf s → represents s st → nl s + Z.of_nat (length adds) ≤ 2 ^ 63 →
  NoDup ts → Forall2 (leaf_at s (treeRows (nl s))) ts hs → prover_proof s ts prf →
  distinct_roots s → empty ∉ adds →
  ∃ st' ud s', Update st hs adds (mkProof ts prf) = (st', Ok ud) ∧
    wf s' ∧ represents s' st' ∧ hs ++ forest_leaves s' ≡ₚ forest_leaves s ++ adds.
Proof.
  intros Hwf Hrep Hmax Hnd Hl Hp Hd Hne. assert (nl s ≤ 2 ^ 63) as Hn by lia.
  pose proof (leaves_ok s _ ts hs (Hfit s Hn) Hnd Hl) as Hts.
  destruct (del_honest s st Hwf Hrep Hn ts hs prf) as (st1 & inter & Hdel & Hrep1); try done.
  { by apply leaf_labels. }
  destruct (Update_del s st Hwf ts hs prf adds st1 inter) as (st' & ud & Hu & Hr & _); try done.
  exists st', ud, (apply_block s ts adds). split; [done|]. split; [|split; [done|]].
  - apply wf_add_leaves; [by apply wf_del|done].
  - unfold apply_block. rewrite forest_leaves_add, app_assoc. apply Permutation_app_tail.
    symmetry. by apply del_leaves.
Qed.

Lemma Update_leaves_witness :
  ∃ st' ud s', Update toy_stump toy_hashes [16; 17] (mkProof toy_targets toy_proof) = (st', Ok ud) ∧
    wf s' ∧ represents s' st' ∧ [15; 12] ++ forest_leaves s' ≡ₚ [11; 12; 13; 14; 15] ++ [16; 17].
Proof.
  apply (Update_leaves toy_forest toy_stump toy_targets toy_hashes toy_proof [16; 17]).
  - apply toy_wf.
  - apply toy_represents.
  - by vm_compute.
  - apply toy_nodup.
  - apply toy_leaves.
  - apply toy_prover.
  - apply toy_distinct.
  - apply (bool_decide_unpack _). by vm_compute.
Defined.

(** C12.  A stump that starts empty and is updated with any sequence of blocks, each with
    an honest proof against the forest at that point, follows the forest: every update
    succeeds and the final stump represents the final forest. *)
Theorem run_stump_refines `{HashLaws} s st blocks s' :
  wf s → represents s st → honest_run s blocks s' →
  ∃ st', run_stump st blocks = Ok st' ∧ wf s' ∧ represents s' st'.
Proof.
  intros Hwf Hrep Hrun. revert st Hwf Hrep.
  induction Hrun as [s|s ts hs prf adds blocks s' Hb Hrun IH]; intros st Hwf Hrep; [by exists st|].
  destruct Hb as [Hmax Hnd Hl Hp Hd Hne]. assert (nl s ≤ 2 ^ 63) as Hn by lia.
  pose proof (leaves_ok s _ ts hs (Hfit s Hn) Hnd Hl) as Hts.
  destruct (del_honest s st Hwf Hrep Hn ts hs prf) as (st1 & inter & Hdel & Hrep1); try done.
  { by apply leaf_labels. }
  destruct (Update_del s st Hwf ts hs prf adds st1 inter) as (st2 & ud & Hu & Hr & _); try done.
  cbn [run_stump]. rewrite Hu. apply IH; [|done]. apply wf_add_leaves; [by apply wf_del|done].
Qed.

Lemma run_stump_refines_witness :
  ∃ st', run_stump (mkStump [] 0)
           [([], [], [], [11; 12; 13; 14; 15]); (toy_targets, toy_hashes, toy_proof, [16; 17])] = Ok st' ∧
    wf (apply_block toy_forest toy_targets [16; 17]) ∧
    represents (apply_block toy_forest toy_targets [16; 17]) st'.
Proof.
  apply (run_stump_refines []).
  - intros i t Hi. by rewrite lookup_nil in Hi.
  - split; reflexivity.
  - econstructor; [|econstructor; [|constructor]].
    + split; [by vm_compute|constructor|constructor|by exists [], []|constructor|].
      apply (bool_decide_unpack _). by vm_compute.
    + split; [by vm_compute|apply toy_nodup|apply toy_leaves|apply toy_prover|apply toy_distinct|].
      apply (bool_decide_unpack _). by vm_compute.
Defined.

(** C13.  [add] is the binary counter: it never panics on a stump that represents a
    forest, the new roots are those of the forest with the leaves added, and it returns
    parallel slices and the positions of the empty roots written over. *)
Theorem add_refines `{HashLaws} s st hs : wf s → represents s st → empty ∉ hs →
  nl s + Z.of_nat (length hs) ≤ 2 ^ 63 →
  ∃ st' ah ap,
    add st hs = Ok (st', (ah, ap, doomed (treeRows (nl s + Z.of_nat (length hs))) (nl s)
                                   (Z.of_nat (length hs)) 0 s)) ∧
    represents (add_leaves s hs) st' ∧ length ah = length ap ∧
    forest_leaves (add_leaves s hs) = forest_leaves s ++ hs.
Proof.
  intros Hwf Hrep Hne Hlen. destruct (add_spec s st hs) as (st' & ah & ap & He & Hr & Hl); try done.
  exists st', ah, ap. do 3 (split; [done|]). apply forest_leaves_add.
Qed.

Lemma add_refines_witness :
  ∃ st' ah ap,
    add toy_stump [16; 17; 18] = Ok (st', (ah, ap, doomed 3 5 3 0 toy_forest)) ∧
    represents (add_leaves toy_forest [16; 17; 18]) st' ∧ length ah = length ap ∧
    forest_leaves (add_leaves toy_forest [16; 17; 18]) = forest_leaves toy_forest ++ [16; 17; 18].
Proof.
  apply (add_refines toy_forest toy_stump [16; 17; 18]).
  - apply toy_wf.
  - apply toy_represents.
  - apply (bool_decide_unpack _). by vm_compute.
  - by vm_compute.
Defined.

(** C14.  [rootsToDestory] returns, lowest row first, the positions of exactly those empty
    roots whose row overflows when [numAdds] leaves are added, in the coordinates of
    the forest after the additions. *)
Theorem rootsToDestory_exact `{HashLaws} s k p : let n := nl s in
  let f := treeRows (n + Z.of_nat k) in
  wf s → n + Z.of_nat k ≤ 2 ^ 63 →
  ∃ dels, rootsToDestory k n (map ohash (trees s)) = Ok dels ∧ StronglySorted Z.lt dels ∧
    (p ∈ dels ↔ ∃ r, 0 ≤ r ∧ s !! Z.to_nat r = Some (Some None) ∧
       n / 2 ^ (r + 1) < (n + Z.of_nat k) / 2 ^ (r + 1) ∧ p = npos f r (2 * (n / 2 ^ (r + 1)))).
Proof.
  intros n f Hwf Hmax. exists (doomed f n (Z.of_nat k) 0 s). split; [by apply rootsToDestory_spec|].
  split; [apply doomed_sorted; [apply fits_after; [apply nl_nonneg|lia|done]|lia|apply rows_from_nl]|].
  rewrite (doomed_elem f n (Z.of_nat k) 0 s p) by lia. split.
  - intros (i & ? & ? & ->). exists (Z.of_nat i). rewrite Nat2Z.id. auto with lia.
  - intros (r & ? & ? & ? & ->). exists (Z.to_nat r). rewrite Z.add_0_l, Z2Nat.id by lia. auto.
Qed.

(** The forest in which the last leaf was deleted has an empty root on row 0. *)
Lemma rootsToDestory_exact_witness : let s := Forest.del 3 [4] toy_forest in
  ∃ dels, rootsToDestory 1 5 (map ohash (trees s)) = Ok dels ∧ StronglySorted Z.lt dels ∧
    (4 ∈ dels ↔ ∃ r, 0 ≤ r ∧ s !! Z.to_nat r = Some (Some None) ∧
       5 / 2 ^ (r + 1) < (5 + 1) / 2 ^ (r + 1) ∧ 4 = npos 3 r (2 * (5 / 2 ^ (r + 1)))).
Proof.
  apply (rootsToDestory_exact (Forest.del 3 [4] toy_forest) 1 4).
  - apply wf_del, toy_wf.
  - by vm_compute.
Defined.

(** C15.  A rejected update leaves the stump as it was.  It is rejected with the count
    error exactly when the numbers of hashes and targets differ, and otherwise because
    some root candidate matches no root or the numbers of roots differ. *)
Theorem Update_reject `{HashFn} st hs adds proof st' e :
  Update st hs adds proof = (st', Err e) →
  st' = st ∧
  ((e = ErrTargetCount ∧ length hs ≠ length (Targets proof)) ∨
   (length hs = length (Targets proof) ∧ (e = ErrInvalidProof ∨ e = ErrModifiedRoots))).
Proof.
  unfold Update, del. destruct (del_roots st hs proof) as [[roots inter]|e'| |] eqn:Hd; try done.
  - destruct (add _ adds) as [[st2 [[ah ap] dl]]|e'| |] eqn:Ha; try done. by apply add_no_err in Ha.
  - intros [= <- <-]. split; [done|]. by eapply del_roots_err.
Qed.

Lemma Update_reject_witness :
  toy_stump = toy_stump ∧
  ((ErrInvalidProof = ErrTargetCount ∧ 1%nat ≠ 1%nat) ∨
   (1%nat = 1%nat ∧ (ErrInvalidProof = ErrInvalidProof ∨ ErrInvalidProof = ErrModifiedRoots))).
Proof.
  apply (Update_reject toy_stump [12] [16] (mkProof [1] [11; 99]) toy_stump ErrInvalidProof).
  vm_compute. reflexivity.
Defined.
