(* ===== verification/PosProps.v ===== *)
(** * Properties of the position arithmetic

    The claims about utils.go, for every position of a forest of up to 63 rows. *)

From S2P Require Import Prelude Utils PosTheory Walk StumpVerify.

(** The positions of a full forest of [f] rows. *)
Definition is_pos (f p : Z) : Prop := 0 ≤ f ≤ 63 ∧ 0 ≤ p < 2 ^ (f + 1) - 1.

Lemma is_pos_npos f p : is_pos f p → ∃ r o, valid f r o ∧ p = npos f r o.
Proof. intros [Hf Hp]. destruct (npos_decode f p Hf Hp). eauto. Qed.

Lemma detectRow_rowOf f p : is_pos f p → detectRow p f = rowOf f p.
Proof. intros (r & o & Hv & ->)%is_pos_npos. by rewrite detectRow_npos, rowOf_npos. Qed.

(** C24.  [detectRow] finds the row whose range of positions, from [startPositionAtRow]
    to [maxPossiblePosAtRow], holds the position; its loop terminates within the fuel. *)
Theorem detectRow_range f p r : is_pos f p → 0 ≤ r ≤ f →
  detectRow p f = r ↔ startPositionAtRow r f ≤ p ≤ maxPossiblePosAtRow r f.
Proof.
  intros Hp Hr. pose proof Hp as [? _]. apply is_pos_npos in Hp as (r0 & o & Hv & ->).
  pose proof Hv as (? & ? & ?).
  rewrite detectRow_npos, startPositionAtRow_eq, maxPossiblePosAtRow_eq by (done || lia).
  pose proof (npos_row_succ f r0). split.
  - intros ->. unfold npos in *. lia.
  - intros [Hlo Hhi]. destruct (Z.lt_trichotomy r0 r) as [Hlt|[?|Hlt]]; [|done|].
    + pose proof (npos_row_mono f (r0 + 1) r). unfold npos in *. lia.
    + pose proof (npos_row_mono f (r + 1) r0). unfold npos in *. lia.
Qed.

Lemma detectRow_range_witness :
  detectRow 12 3 = 2 ↔ startPositionAtRow 2 3 ≤ 12 ≤ maxPossiblePosAtRow 2 3.
Proof. apply (detectRow_range 3 12 2); [split|]; lia. Defined.

(** C25.  The family of a node above row 0: both children have it as parent, are
    siblings of each other, and lie one row below; a left child is even. *)
Theorem children_family f p : is_pos f p → 0 < detectRow p f →
  let l := leftChild p f in let r := rightChild p f in
  parent l f = p ∧ parent r f = p ∧ sibling l = r ∧ sibling r = l ∧
  leftSib r = l ∧ rightSib l = r ∧ isLeftNiece l = true ∧ isLeftNiece r = false ∧
  detectRow l f = detectRow p f - 1 ∧ detectRow r f = detectRow p f - 1.
Proof.
  intros (r & o & Hv & ->)%is_pos_npos Hr l r'. rewrite detectRow_npos in * by done.
  pose proof Hv as (? & ? & ?). assert (r = r - 1 + 1) as Hr1 by lia. rewrite Hr1 in Hv.
  assert (valid f (r - 1) (2 * o)) as Hvl.
  { replace (2 * o) with (2 * o + 0) by lia. apply valid_child; [done|lia|lia]. }
  assert (valid f (r - 1) (2 * o + 1)) as Hvr by (apply valid_child; [done|lia|lia]).
  assert (l = npos f (r - 1) (2 * o)) as El by (unfold l; rewrite Hr1 at 1; apply leftChild_npos; [done|lia]).
  assert (r' = l + 1) as Er by (unfold l, r'; apply rightChild_leftChild; lia).
  assert (Z.even l = true) as Hev by (rewrite El, npos_even by (done || lia); by rewrite Z.even_mul).
  assert (Z.even r' = false) as Hod by (by rewrite Er, Z.even_add, Hev).
  assert (r' = npos f (r - 1) (2 * o + 1)) as Er' by (rewrite Er, El; unfold npos; lia).
  assert ((2 * o) / 2 = o) as Hol by (symmetry; apply (Z.div_unique _ _ _ 0); lia).
  assert ((2 * o + 1) / 2 = o) as Hor by (symmetry; apply (Z.div_unique _ _ _ 1); lia).
  rewrite !isLeftNiece_even, !sibling_eq, rightSib_eq, leftSib_eq, Hev, Hod.
  split_and!; try lia.
  - rewrite El, parent_npos, Hol by done. by replace (r - 1 + 1) with r by lia.
  - rewrite Er', parent_npos, Hor by done. by replace (r - 1 + 1) with r by lia.
  - by rewrite El, detectRow_npos.
  - by rewrite Er', detectRow_npos.
Qed.

Lemma children_family_witness :
  parent (leftChild 12 3) 3 = 12 ∧ parent (rightChild 12 3) 3 = 12 ∧
  sibling (leftChild 12 3) = rightChild 12 3 ∧ sibling (rightChild 12 3) = leftChild 12 3 ∧
  leftSib (rightChild 12 3) = leftChild 12 3 ∧ rightSib (leftChild 12 3) = rightChild 12 3 ∧
  isLeftNiece (leftChild 12 3) = true ∧ isLeftNiece (rightChild 12 3) = false ∧
  detectRow (leftChild 12 3) 3 = detectRow 12 3 - 1 ∧ detectRow (rightChild 12 3) 3 = detectRow 12 3 - 1.
Proof. apply (children_family 3 12); [split; lia|by vm_compute]. Defined.

(** [childMany] and [parentMany] undo each other: going down [k] rows leads [k]
    rows lower, to a node with the start as its [k]-th ancestor; both report an error
    for more rows than the forest has. *)
Theorem childMany_parentMany f p k : is_pos f p → 0 ≤ k ≤ detectRow p f →
  ∃ c, childMany p k f = Ok c ∧ parentMany c k f = Ok p ∧ detectRow c f = detectRow p f - k ∧
    ∀ m, f < m → childMany p m f = Err ErrDrop ∧ parentMany p m f = Err ErrRise.
Proof.
  intros (r & o & Hv & ->)%is_pos_npos Hk. rewrite detectRow_npos in * by done.
  pose proof Hv as (? & ? & ?). assert (r = r - k + k) as Er by lia. rewrite Er in Hv.
  pose proof (pow2_pos k). pose proof (pow2_split (f - (r - k)) k).
  assert (valid f (r - k) (o * 2 ^ k)) as Hvc.
  { split; [lia|]. split; [lia|]. rewrite (pow2_split (f - (r - k)) k) by lia.
    replace (f - (r - k) - k) with (f - r) by lia. nia. }
  exists (npos f (r - k) (o * 2 ^ k)). split_and!.
  - rewrite Er at 1. apply childMany_npos; [done|lia|lia].
  - rewrite parentMany_npos, Z.div_mul by (done || lia). by replace (r - k + k) with r by lia.
  - by rewrite detectRow_npos.
  - intros m Hm. unfold childMany, parentMany. rewrite (proj2 (Z.eqb_neq m 0)) by lia.
    by rewrite (proj2 (Z.ltb_lt f m)).
Qed.

Lemma childMany_parentMany_witness :
  ∃ c, childMany 14 2 3 = Ok c ∧ parentMany c 2 3 = Ok 14 ∧ detectRow c 3 = detectRow 14 3 - 2 ∧
    ∀ m, 3 < m → childMany 14 m 3 = Err ErrDrop ∧ parentMany 14 m 3 = Err ErrRise.
Proof. apply (childMany_parentMany 3 14 2); [split; lia|by vm_compute]. Defined.

(** C26.  [isAncestor] holds exactly of the positions reached by taking the parent one
    or more times without leaving the forest. *)
Theorem isAncestor_iter f a p : is_pos f a → is_pos f p →
  isAncestor a p f = true ↔
  ∃ k : nat, (0 < k)%nat ∧ detectRow p f + Z.of_nat k ≤ f ∧ Nat.iter k (λ x, parent x f) p = a.
Proof.
  intros (ra & oa & Hva & ->)%is_pos_npos (r & o & Hv & ->)%is_pos_npos.
  rewrite isAncestor_npos, detectRow_npos, andb_true_iff, Z.ltb_lt, Z.eqb_eq by done.
  assert (∀ k : nat, r + Z.of_nat k ≤ f →
    Nat.iter k (λ x, parent x f) (npos f r o) = npos f (r + Z.of_nat k) (o / 2 ^ Z.of_nat k)) as Hiter.
  { induction k as [|k IH]; intros Hk; simpl Nat.iter.
    - change (Z.of_nat 0) with 0. by rewrite Z.add_0_r, Z.pow_0_r, Z.div_1_r.
    - rewrite IH by lia. rewrite parent_npos by (apply valid_ancestor; [done|lia]).
      change (npos f (r + Z.of_nat k + 1) (o / 2 ^ Z.of_nat k / 2 ^ 1) =
        npos f (r + Z.of_nat (S k)) (o / 2 ^ Z.of_nat (S k))).
      rewrite div_div_pow2 by lia. f_equal; [lia|]. do 2 f_equal. lia. }
  pose proof Hva as (? & ? & ?). split.
  - intros [Hlt ->]. exists (Z.to_nat (ra - r)). split_and!; [lia|lia|].
    rewrite Hiter, Z2Nat.id by lia. f_equal. lia.
  - intros (k & Hk & Hle & Heq). rewrite Hiter in Heq by lia.
    apply npos_inj in Heq as [<- <-]; [|by apply valid_ancestor; [|lia]|done].
    split; [lia|]. by replace (r + Z.of_nat k - r) with (Z.of_nat k) by lia.
Qed.

Lemma isAncestor_iter_witness :
  isAncestor 14 1 3 = true ↔
  ∃ k : nat, (0 < k)%nat ∧ detectRow 1 3 + Z.of_nat k ≤ 3 ∧ Nat.iter k (λ x, parent x 3) 1 = 14.
Proof. apply (isAncestor_iter 3 14 1); split; lia. Defined.

(** C27.  [inForest] terminates and decides whether the last leaf below a position has
    been added, which is what it means for the position to exist. *)
Theorem inForest_decides n f p : fits n f → is_pos f p →
  ∃ b, inForest p n f = Ok b ∧ (b = true ↔ inF n f p).
Proof.
  intros Hfit (r & o & Hv & ->)%is_pos_npos. rewrite inForest_npos by done. eexists. split; [done|].
  rewrite Z.leb_le. pose proof Hv as (? & ? & ?). split.
  - intros Hle. exists r, o. split; [done|]. split; [lia|]. split; [lia|done].
  - intros (r' & o' & Heq & Hin). pose proof (in_forest_valid n f r' o' Hfit Hin) as Hv'.
    apply npos_inj in Heq as [-> ->]; [|done..]. by destruct Hin as (_ & _ & ?).
Qed.

Lemma inForest_decides_witness : ∃ b, inForest 9 5 3 = Ok b ∧ (b = true ↔ inF 5 3 9).
Proof. apply (inForest_decides 5 3 9); (split; lia). Defined.

(** C28.  [RootPositions] lists, in strictly descending order, exactly the positions of
    the forest without a parent in it; their number is [numRoots]. *)
Theorem RootPositions_exact n f : fits n f →
  StronglySorted Z.gt (RootPositions n f) ∧
  Z.of_nat (length (RootPositions n f)) = numRoots n ∧
  ∀ p, p ∈ RootPositions n f ↔ inF n f p ∧ ¬ inF n f (parent p f).
Proof.
  intros Hfit. pose proof Hfit as [? ?].
  pose proof (RootPositions_elem_gen n f Hfit) as Helem.
  split_and!.
  - apply RootPositions_loop_sorted; [done|lia].
  - by apply RootPositions_length.
  - intros p. rewrite Helem. split; (intros [Hin Hp]; split; [done|]).
    + destruct Hin as (r & o & -> & Hin). pose proof (in_forest_valid n f r o Hfit Hin) as Hv.
      rewrite root_at_npos in Hp by done. rewrite parent_npos by done.
      intros (r' & o' & Heq & Hin'). pose proof (in_forest_valid n f r' o' Hfit Hin') as Hv'.
      pose proof Hv as (? & ? & ?). destruct (Z.eq_dec r f) as [->|].
      * assert (2 ^ (f - f) = 1) by (by rewrite Z.sub_diag). assert (o = 0) as -> by lia.
        pose proof (npos_range f r' o' Hv') as Hr. rewrite <- Heq in Hr. unfold npos in Hr.
        rewrite Z.sub_diag in Hr.
        change (2 ^ 0) with 1 in Hr. change (0 / 2) with 0 in Hr. lia.
      * apply npos_inj in Heq as [<- <-]; [|apply valid_parent; [done|lia]|done].
        apply (root_parent_out n r o) in Hin'; [done|lia|done].
    + destruct (root_at n f p) eqn:Hroot; [done|]. exfalso. apply Hp.
      by destruct (sibling_props n f p) as (_ & ? & _).
Qed.

Lemma RootPositions_exact_witness :
  StronglySorted Z.gt (RootPositions 7 3) ∧
  Z.of_nat (length (RootPositions 7 3)) = numRoots 7 ∧
  ∀ p, p ∈ RootPositions 7 3 ↔ inF 7 3 p ∧ ¬ inF 7 3 (parent p 3).
Proof. apply (RootPositions_exact 7 3). split; lia. Defined.

(** [detectOffset] finds the tree of a position: its first result is the index in
    [RootPositions] (so also in [Roots]) of the root above the position, its second the
    number of rows between them. *)
Theorem detectOffset_root n p : let f := treeRows n in
  0 ≤ n ≤ 2 ^ 63 → inF n f p →
  ∃ i len bits root, detectOffset p n = Ok (i, len, bits) ∧
    RootPositions n f !! Z.to_nat i = Some root ∧
    (root = p ∨ isAncestor root p f = true) ∧ len = detectRow root f - detectRow p f.
Proof.
  intros f Hn (r & o & -> & Hin). pose proof (fits_treeRows n Hn) as Hfit. fold f in Hfit.
  pose proof (in_forest_valid n f r o Hfit Hin) as Hv. pose proof Hv as (? & ? & ?).
  destruct (root_row_exists n r o) as (R & HR); [lia|done|]. pose proof HR as [HrR Hroot].
  assert (in_forest n R (o / 2 ^ (R - r))) as HinR by (apply root_in_forest; [lia|lia|done]).
  pose proof (in_forest_valid n f _ _ Hfit HinR) as HvR. pose proof HvR as (? & _ & _).
  destruct (detectOffset_npos n r o R Hn Hv HR ltac:(fold f; lia)) as (bits & Hd & _). fold f in Hd.
  pose proof Hroot as [Hb Ho%Z.eqb_eq]%andb_true_iff.
  exists (Z.of_nat (bigger n R (Z.to_nat (f - R)))), (R - r), bits, (npos f R (o / 2 ^ (R - r))).
  split; [done|]. split; [|split].
  - rewrite Nat2Z.id. unfold RootPositions. rewrite Ho.
    replace (Z.to_nat f) with (Z.to_nat (R + Z.of_nat (Z.to_nat (f - R)))) by lia.
    apply RootPositions_loop_lookup; [done|lia|lia|done].
  - destruct (Z.eq_dec R r) as [->|].
    + left. by rewrite Z.sub_diag, Z.pow_0_r, Z.div_1_r.
    + right. rewrite isAncestor_npos by done. apply andb_true_iff.
      split; [apply Z.ltb_lt; lia|by apply Z.eqb_eq].
  - by rewrite !detectRow_npos.
Qed.

Lemma detectOffset_root_witness :
  ∃ i len bits root, detectOffset 4 7 = Ok (i, len, bits) ∧
    RootPositions 7 (treeRows 7) !! Z.to_nat i = Some root ∧
    (root = 4 ∨ isAncestor root 4 (treeRows 7) = true) ∧
    len = detectRow root (treeRows 7) - detectRow 4 (treeRows 7).
Proof.
  apply (detectOffset_root 7 4); [lia|]. exists 0, 4. split; [by vm_compute|].
  split; [lia|]. split; [lia|by vm_compute].
Defined.

(** C29.  When a node is deleted, its sibling subtree moves up one row: [calcNextPosition]
    gives the new position of a node [p] at or below the sibling of the deleted
    position [d], one row higher and at or below the parent of [d], and
    [calcPrevPosition] takes it back. *)
Theorem calcNext_calcPrev f p d : is_pos f p → is_pos f d →
  detectRow d f < f → (p = sibling d ∨ isAncestor (sibling d) p f = true) →
  ∃ p', calcNextPosition p d f = Ok p' ∧ calcPrevPosition p' d f = p ∧
    detectRow p' f = detectRow p f + 1 ∧ (p' = parent d f ∨ isAncestor (parent d f) p' f = true).
Proof.
  intros (r & o & Hv & ->)%is_pos_npos (rd & od & Hvd & ->)%is_pos_npos Hrd Hanc.
  rewrite !detectRow_npos in * by done. pose proof (valid_sibling f rd od Hvd Hrd) as Hvs.
  pose proof Hv as (? & ? & ?). pose proof Hvd as (? & ? & ?).
  rewrite sibling_npos in Hanc by done.
  assert (r ≤ rd ∧ o / 2 ^ (rd - r) = sibling od) as [Hr Ho].
  { destruct Hanc as [Heq|Hanc].
    - apply npos_inj in Heq as [-> ->]; [|done..]. by rewrite Z.sub_diag, Z.pow_0_r, Z.div_1_r.
    - rewrite isAncestor_npos in Hanc by done. apply andb_true_iff in Hanc as [?%Z.ltb_lt ?%Z.eqb_eq].
      split; [lia|done]. }
  set (k := rd - r) in *. pose proof (valid_rm f r o k Hv ltac:(lia)) as Hvr.
  exists (npos f (r + 1) (rm k o)). split; [by apply calcNextPosition_npos|]. split; [|split].
  - rewrite calcPrevPosition_npos by (done || lia). fold k. f_equal.
    assert (Z.even od = Z.testbit o k) as ->; [|apply ins_rm; lia].
    rewrite testbit_div, Ho by lia. rewrite sibling_eq, <- Z.negb_even.
    destruct (Z.even od) eqn:E; rewrite ?Z.even_add, ?Z.even_sub, E; done.
  - by rewrite detectRow_npos.
  - pose proof (valid_parent f rd od Hvd Hrd) as Hvp. rewrite parent_npos by done.
    assert (rm k o / 2 ^ k = od / 2) as Hrm.
    { unfold rm. pose proof (pow2_pos k). rewrite Z.add_comm, Z.div_add by lia.
      rewrite (Z.div_small (o mod 2 ^ k)) by (apply Z.mod_pos_bound; lia).
      rewrite div_pow2_succ, Ho by lia. rewrite sibling_eq. symmetry.
      pose proof (Z.div_mod od 2). pose proof (Zmod_even od).
      destruct (Z.even od); [apply (Z.div_unique _ _ _ 1)|apply (Z.div_unique _ _ _ 0)]; lia. }
    destruct (Z.eq_dec k 0) as [Hk|].
    + left. rewrite <- Hrm, Hk, Z.pow_0_r, Z.div_1_r. f_equal. lia.
    + right. rewrite isAncestor_npos by done. apply andb_true_iff.
      split; [apply Z.ltb_lt; lia|]. apply Z.eqb_eq. rewrite <- Hrm. do 2 f_equal. lia.
Qed.

Lemma calcNext_calcPrev_witness :
  ∃ p', calcNextPosition 2 8 3 = Ok p' ∧ calcPrevPosition p' 8 3 = 2 ∧
    detectRow p' 3 = detectRow 2 3 + 1 ∧ (p' = parent 8 3 ∨ isAncestor (parent 8 3) p' 3 = true).
Proof.
  apply (calcNext_calcPrev 3 2 8); [split; lia|split; lia|by vm_compute|].
  right. by vm_compute.
Defined.

(** [translatePos] keeps row and offset when the number of rows grows, so going
    back and forth is the identity. *)
Theorem translatePos_roundtrip f g p : is_pos f p → f ≤ g ≤ 63 →
  let p' := translatePos p f g in
  is_pos g p' ∧ detectRow p' g = detectRow p f ∧
  p' - startPositionAtRow (detectRow p f) g = p - startPositionAtRow (detectRow p f) f ∧
  translatePos p' g f = p.
Proof.
  intros (r & o & Hv & ->)%is_pos_npos Hg p'. pose proof Hv as (? & ? & ?).
  assert (valid g r o) as Hvg.
  { split; [lia|]. split; [lia|]. pose proof (pow2_le (f - r) (g - r)). lia. }
  assert (p' = npos g r o) as -> by (by apply translatePos_npos).
  rewrite !detectRow_npos, translatePos_npos, !startPositionAtRow_eq by (done || lia).
  split; [split; [lia|by apply npos_range]|]. split; [done|]. split; [unfold npos; lia|done].
Qed.

Lemma translatePos_roundtrip_witness :
  is_pos 5 (translatePos 12 3 5) ∧ detectRow (translatePos 12 3 5) 5 = detectRow 12 3 ∧
  translatePos 12 3 5 - startPositionAtRow (detectRow 12 3) 5 = 12 - startPositionAtRow (detectRow 12 3) 3 ∧
  translatePos (translatePos 12 3 5) 5 3 = 12.
Proof. apply (translatePos_roundtrip 3 5 12); [split|]; lia. Defined.

(** C30.  [treeRows] is the least number of rows in which the leaves fit. *)
Theorem treeRows_least n r : 1 ≤ n ≤ 2 ^ 63 → 0 ≤ r →
  0 ≤ treeRows n ≤ 63 ∧ (treeRows n ≤ r ↔ n ≤ maxLeafCount r ∨ 64 ≤ r).
Proof.
  intros Hn Hr. pose proof (treeRows_bounds n Hn) as (Hb & Hle & Hmin). split; [done|].
  unfold maxLeafCount. destruct (Z.lt_ge_cases r 64) as [Hlt|]; [|lia].
  rewrite shl_one by lia. pose proof (pow2_le (treeRows n) r). split; [lia|].
  intros [Hnr|]; [|lia]. destruct Hmin as [?|Hmin]; [lia|].
  destruct (Z.le_gt_cases (treeRows n) r); [done|]. pose proof (pow2_le r (treeRows n - 1)). lia.
Qed.

Lemma treeRows_least_witness :
  0 ≤ treeRows 9 ≤ 63 ∧ (treeRows 9 ≤ 3 ↔ 9 ≤ maxLeafCount 3 ∨ 64 ≤ 3).
Proof. apply (treeRows_least 9 3); lia. Defined.
