(* ===== verification/ProofProps.v ===== *)
(** * Properties of proofs and of their building blocks

    The claims about prove.go and the sorted-slice helpers. *)

From S2P Require Import Prelude Utils PosTheory HashPos HashPosTheory SortedTheory Traverse Calc Walk.
From S2P Require Import DeTwinTheory CalcTheory Forest EvalTheory Stump StumpTheory StumpVerify.
From S2P Require Import StumpSpec ProofUpdateTheory Toy.

(** ** Positions *)

(** C31.  [proofPositions] terminates, and on sorted targets of the forest, none above
    another one, it returns two strictly ascending lists: the positions a proof must
    provide, i.e. the non-root positions that are neither targets nor above one while
    their sibling is, and the positions computed on the way, i.e. those strictly above
    a target. *)
Theorem proofPositions_exact n f ts : fits n f → pending n f ts →
  ∃ pp cp, proofPositions ts n f = Ok (pp, cp) ∧
    StronglySorted Z.lt pp ∧ StronglySorted Z.lt cp ∧
    (∀ x, x ∈ pp ↔ inF n f x ∧ root_at n f x = false ∧ onpath f ts (sibling x) ∧ ¬ onpath f ts x) ∧
    (∀ x, x ∈ cp ↔ inF n f x ∧ ∃ t, t ∈ ts ∧ isAncestor x t f = true).
Proof.
  intros Hfit Hpd. destruct (proofPositions_walk n f ts Hfit Hpd) as (tr & Hw & _ & ->).
  destruct (walk_sorted n f Hfit ts tr Hw Hpd) as [Hcp Hpp].
  exists (sibs tr), (parents f tr). split_and!; try done.
  - intros x. by apply (sibs_needed n f Hfit ts tr).
  - intros x. by apply (parents_above n f Hfit ts tr).
Qed.

Lemma proofPositions_exact_witness :
  ∃ pp cp, proofPositions [1; 4] 5 3 = Ok (pp, cp) ∧
    StronglySorted Z.lt pp ∧ StronglySorted Z.lt cp ∧
    (∀ x, x ∈ pp ↔ inF 5 3 x ∧ root_at 5 3 x = false ∧ onpath 3 [1; 4] (sibling x) ∧ ¬ onpath 3 [1; 4] x) ∧
    (∀ x, x ∈ cp ↔ inF 5 3 x ∧ ∃ t, t ∈ [1; 4] ∧ isAncestor x t 3 = true).
Proof.
  apply (proofPositions_exact 5 3 [1; 4]); [split; lia|].
  apply (targets_pending toy_forest 3 [4; 1] toy_targets_ok).
Defined.

(** The loop for one target agrees with the general one. *)
Theorem proofPosition_proofPositions n f t : fits n f → inF n f t →
  ∃ cp, proofPositions [t] n f = Ok (proofPosition t n f, cp).
Proof. apply proofPosition_eq. Qed.

Lemma proofPosition_proofPositions_witness :
  ∃ cp, proofPositions [1] 5 3 = Ok (proofPosition 1 5 3, cp).
Proof.
  apply (proofPosition_proofPositions 5 3 1); [split; lia|].
  exists 0, 1. split; [by vm_compute|]. split; [lia|]. split; [lia|done].
Defined.

(** C32.  [deTwin] replaces twins by their parents until none are left: the result is
    again sorted, distinct and free of ancestors, holds no left child followed by its
    right sibling, and stands for the same leaves.  Its fuel suffices. *)
Theorem deTwin_correct n f dels : fits n f → pending n f dels →
  pending n f (deTwin dels f) ∧
  (∀ j x y, deTwin dels f !! j = Some x → deTwin dels f !! S j = Some y → rightSib x ≠ y) ∧
  ∀ x, inF n f x → detectRow x f = 0 →
    (∃ d, d ∈ deTwin dels f ∧ (x = d ∨ isAncestor d x f = true)) ↔
    (∃ d, d ∈ dels ∧ (x = d ∨ isAncestor d x f = true)).
Proof.
  intros Hfit Hpd. destruct (deTwin_spec n f Hfit dels Hpd) as (Hp & Ht & Hc).
  split; [done|]. split; [done|]. intros x Hx Hrow. apply Hc; [done|].
  destruct Hx as (r & o & -> & Hin). pose proof (in_forest_valid n f r o Hfit Hin).
  by rewrite rowOf_npos, detectRow_npos in * by done.
Qed.

Lemma deTwin_correct_witness :
  pending 5 3 (deTwin [1; 4] 3) ∧
  (∀ j x y, deTwin [1; 4] 3 !! j = Some x → deTwin [1; 4] 3 !! S j = Some y → rightSib x ≠ y) ∧
  ∀ x, inF 5 3 x → detectRow x 3 = 0 →
    (∃ d, d ∈ deTwin [1; 4] 3 ∧ (x = d ∨ isAncestor d x 3 = true)) ↔
    (∃ d, d ∈ [1; 4] ∧ (x = d ∨ isAncestor d x 3 = true)).
Proof.
  apply (deTwin_correct 5 3 [1; 4]); [split; lia|].
  apply (targets_pending toy_forest 3 [4; 1] toy_targets_ok).
Defined.

(** ** Root calculation *)

Section Roots.
Context `{HashLaws}.

(** C33.  On an honest proof [calculateHashes] returns the root hashes of the trees of
    the targets, lowest row first, and the targets and all positions above them, in
    ascending order, each with the hash the forest has there. *)
Theorem calculateHashes_honest s st ts hs prf : let n := nl s in let f := treeRows n in
  wf s → represents s st → n ≤ 2 ^ 63 → NoDup ts → Forall2 (leaf_at s f) ts hs →
  prover_proof s ts prf →
  ∃ out, calculateHashes (NumLeaves st) (Some hs) (mkProof ts prf)
         = Ok (of_pairs out, map (label s f) (tops n f ts)) ∧
    StronglySorted Z.lt (map fst out) ∧
    ∀ x y, (x, y) ∈ out ↔ inF n f x ∧ onpath f ts x ∧ y = label s f x.
Proof.
  intros n f Hwf Hrep Hmax Hnd Hl (pp & cp & Hpp & ->).
  pose proof (Hfit s Hmax) as Hfit. pose proof (leaves_ok s _ ts hs Hfit Hnd Hl) as Hts.
  pose proof (leaf_labels s ts hs Hl) as Hhs.
  destruct (targets_walk s Hmax ts Hts) as (tr & Hw & Hlen & Hp). rewrite Hp in Hpp. injection Hpp as <- <-.
  rewrite (rep_leaves _ _ Hrep).
  erewrite (calculateHashes_ok s Hmax ts Hts tr Hw Hlen); [|by rewrite Hhs, length_map|].
  2:{ rewrite <- (app_nil_r (map _ (sibs tr))). by apply (eval_honest s Hwf Hmax ts Hts tr Hw). }
  eexists. split; [reflexivity|].
  destruct (outputs_spec n f ts tr (label s f) (label s f) Hfit (targets_pending s f ts Hts) Hnd Hw)
    as [Hs Ho].
  subst f n. rewrite Hhs, !zip_map_self. split; [by apply (incr_keys_map fst)|]. intros x y. rewrite Ho.
  by destruct (decide (x ∈ ts)).
Qed.

(** C34.  Without hashes ([nil]) it returns the hashes after the deletion of the targets:
    the empty hash for a target, and for every position above one the hash of what
    [Forest.del] leaves of the subtree there; the roots are those of the new trees. *)
Theorem calculateHashes_deleted s st ts hs prf : let n := nl s in let f := treeRows n in
  wf s → represents s st → n ≤ 2 ^ 63 → NoDup ts → Forall2 (leaf_at s f) ts hs →
  prover_proof s ts prf →
  ∃ out, calculateHashes (NumLeaves st) None (mkProof ts prf)
         = Ok (of_pairs out, map (λ p, ohash (pruned s f ts p)) (tops n f ts)) ∧
    StronglySorted Z.lt (map fst out) ∧
    ∀ x y, (x, y) ∈ out ↔ inF n f x ∧ onpath f ts x ∧ y = ohash (pruned s f ts x).
Proof.
  intros n f Hwf Hrep Hmax Hnd Hl (pp & cp & Hpp & ->).
  pose proof (Hfit s Hmax) as Hfit. pose proof (leaves_ok s _ ts hs Hfit Hnd Hl) as Hts.
  destruct (targets_walk s Hmax ts Hts) as (tr & Hw & Hlen & Hp). rewrite Hp in Hpp. injection Hpp as <- <-.
  rewrite (rep_leaves _ _ Hrep), calculateHashes_nil. cbn [Targets].
  erewrite (calculateHashes_ok s Hmax ts Hts tr Hw Hlen); [|by rewrite length_replicate|].
  2:{ rewrite <- (app_nil_r (map _ (sibs tr))). by apply (eval_deleted s Hwf Hmax ts Hts tr Hw). }
  eexists. split; [reflexivity|].
  destruct (outputs_spec n f ts tr (plabel s f ts) (λ _, empty) Hfit (targets_pending s f ts Hts) Hnd Hw)
    as [Hs Ho].
  subst f n. rewrite zip_map_self, zip_replicate_empty. split; [by apply (incr_keys_map fst)|]. intros x y. rewrite Ho.
  destruct (decide (x ∈ ts)) as [Hx|]; [|done]. split; intros (Hin & ? & ->); split_and!; try done.
  - by rewrite (pruned_deleted s _ Hfit).
  - by rewrite (pruned_deleted s _ Hfit).
Qed.
End Roots.

Lemma calculateHashes_honest_witness :
  ∃ out, calculateHashes 5 (Some toy_hashes) (mkProof toy_targets toy_proof)
         = Ok (of_pairs out, map (label toy_forest 3) (tops 5 3 toy_targets)) ∧
    StronglySorted Z.lt (map fst out) ∧
    ∀ x y, (x, y) ∈ out ↔ inF 5 3 x ∧ onpath 3 toy_targets x ∧ y = label toy_forest 3 x.
Proof.
  apply (calculateHashes_honest toy_forest toy_stump toy_targets toy_hashes toy_proof).
  - apply toy_wf.
  - apply toy_represents.
  - by vm_compute.
  - apply toy_nodup.
  - apply toy_leaves.
  - apply toy_prover.
Defined.

Lemma calculateHashes_deleted_witness :
  ∃ out, calculateHashes 5 None (mkProof toy_targets toy_proof)
         = Ok (of_pairs out, map (λ p, ohash (pruned toy_forest 3 toy_targets p)) (tops 5 3 toy_targets)) ∧
    StronglySorted Z.lt (map fst out) ∧
    ∀ x y, (x, y) ∈ out ↔
      inF 5 3 x ∧ onpath 3 toy_targets x ∧ y = ohash (pruned toy_forest 3 toy_targets x).
Proof.
  apply (calculateHashes_deleted toy_forest toy_stump toy_targets toy_hashes toy_proof).
  - apply toy_wf.
  - apply toy_represents.
  - by vm_compute.
  - apply toy_nodup.
  - apply toy_leaves.
  - apply toy_prover.
Defined.

(** ** Sorted slices *)

(** Merging two slices sorted by position gives their union sorted by position; on
    a position that both hold, the hash of the first one is kept. *)
Theorem mergeSortedHashAndPos_union a b :
  StronglySorted Z.lt (map fst a) → StronglySorted Z.lt (map fst b) →
  ∃ c, mergeSortedHashAndPos (of_pairs a) (of_pairs b) = Ok (of_pairs c) ∧
    StronglySorted Z.lt (map fst c) ∧
    ∀ p h, (p, h) ∈ c ↔ (p, h) ∈ a ∨ ((p, h) ∈ b ∧ p ∉ map fst a).
Proof.
  intros Ha%(incr_keys_map fst) Hb%(incr_keys_map fst). exists (merge_pairs a b).
  split; [apply mergeSorted_pairs|]. split; [by apply (incr_keys_map fst), merge_pairs_incr|].
  intros p h. by apply merge_pairs_elem.
Qed.

Lemma mergeSortedHashAndPos_union_witness :
  ∃ c, mergeSortedHashAndPos (of_pairs [(1, 5); (3, 6)]) (of_pairs [(2, 7); (3, 8)]) = Ok (of_pairs c) ∧
    StronglySorted Z.lt (map fst c) ∧
    ∀ p h, (p, h) ∈ c ↔ (p, h) ∈ [(1, 5); (3, 6)] ∨ ((p, h) ∈ [(2, 7); (3, 8)] ∧ p ∉ [1; 3]).
Proof. apply (mergeSortedHashAndPos_union [(1, 5); (3, 6)] [(2, 7); (3, 8)]); repeat constructor. Defined.

(** On sorted slices the helpers are set operations that keep the order:
    [subtractSortedHashAndPos] and [subtractSortedSlice] remove exactly the positions of
    the second slice, [getHashAndPosSubset] keeps exactly these, and
    [mergeSortedSlicesFunc] is the sorted union.  None of them panics or runs on. *)
Theorem sorted_set_operations l a b : StronglySorted Z.lt (map fst l) →
  StronglySorted Z.lt a → StronglySorted Z.lt b →
  subtractSortedHashAndPos (of_pairs l) b = Ok (of_pairs (filter (λ x, x.1 ∉ b) l)) ∧
  getHashAndPosSubset (of_pairs l) b = Ok (of_pairs (filter (λ x, x.1 ∈ b) l)) ∧
  subtractSortedSlice a b = Ok (filter (λ x, x ∉ b) a) ∧
  ∃ c, mergeSortedSlicesFunc a b = Ok c ∧ StronglySorted Z.lt c ∧ ∀ p, p ∈ c ↔ p ∈ a ∨ p ∈ b.
Proof.
  intros Hl%(incr_keys_map fst) Ha Hb. pose proof (sorted_lt_le b Hb). split_and!.
  - by apply subtractSortedHashAndPos_spec.
  - by apply getHashAndPosSubset_spec.
  - by apply subtractSortedSlice_spec.
  - eexists. split; [apply mergeSortedSlicesFunc_spec|]. by apply merged_slices.
Qed.

Lemma sorted_set_operations_witness :
  subtractSortedHashAndPos (of_pairs [(1, 5); (3, 6)]) [3] = Ok (of_pairs (filter (λ x, x.1 ∉ [3]) [(1, 5); (3, 6)])) ∧
  getHashAndPosSubset (of_pairs [(1, 5); (3, 6)]) [3] = Ok (of_pairs (filter (λ x, x.1 ∈ [3]) [(1, 5); (3, 6)])) ∧
  subtractSortedSlice [1; 2] [3] = Ok (filter (λ x, x ∉ [3]) [1; 2]) ∧
  ∃ c, mergeSortedSlicesFunc [1; 2] [3] = Ok c ∧ StronglySorted Z.lt c ∧ ∀ p, p ∈ c ↔ p ∈ [1; 2] ∨ p ∈ [3].
Proof. apply (sorted_set_operations [(1, 5); (3, 6)] [1; 2] [3]); repeat constructor. Defined.

(** [insertInOrder] finds by binary search the place that keeps a sorted slice
    sorted, and adds nothing but the new element. *)
Theorem insertInOrder_correct dels el : StronglySorted Z.le dels →
  StronglySorted Z.le (insertInOrder dels el) ∧ insertInOrder dels el ≡ₚ el :: dels.
Proof. intros Hs. split; [by apply insertInOrder_sorted|apply insertInOrder_perm]. Qed.

Lemma insertInOrder_correct_witness :
  StronglySorted Z.le (insertInOrder [1; 4; 9] 5) ∧ insertInOrder [1; 4; 9] 5 ≡ₚ [5; 1; 4; 9].
Proof. apply (insertInOrder_correct [1; 4; 9] 5). repeat constructor; done. Defined.
