(* ===== verification/ProofUpdateProps.v ===== *)
(** * Properties of combining and trimming proofs

    The claims about [AddProof], [GetMissingPositions] and [GetProofSubset]. *)

From S2P Require Import Prelude Utils PosTheory HashPos HashPosTheory SortedTheory Traverse Calc Walk.
From S2P Require Import DeTwinTheory CalcTheory Forest EvalTheory Stump StumpTheory StumpVerify.
From S2P Require Import StumpSpec ProofUpdate ProofUpdateTheory Toy.

Section Leaves.
Context `{HashLaws} (s : forest) (Hmax : nl s ≤ 2 ^ 63).
Notation f := (treeRows (nl s)).
Notation L := (label s f).

Lemma leaves_labelled ts : (∀ t, t ∈ ts → ∃ h, leaf_at s f t h) → Forall2 (leaf_at s f) ts (map L ts).
Proof.
  intros Ht. induction ts as [|t ts IH]; constructor.
  - destruct (Ht t) as (h & Hh); [by left|].
    assert (Forall2 (leaf_at s f) [t] [h]) as Hl by (constructor; [done|apply Forall2_nil_2]).
    by apply leaf_labels in Hl as [= <-].
  - apply IH. intros t' ?. apply Ht. by right.
Qed.

Lemma leaves_in ts hs t : Forall2 (leaf_at s f) ts hs → t ∈ ts → ∃ h, leaf_at s f t h.
Proof.
  intros Hl (i & Hi)%list_elem_of_lookup.
  destruct (Forall2_lookup_l _ _ _ _ _ Hl Hi) as (h & _ & ?). by exists h.
Qed.

Lemma leaves_targets ts : NoDup ts → (∀ t, t ∈ ts → ∃ h, leaf_at s f t h) → targets_ok s f ts.
Proof. intros Hnd Ht. eapply leaves_ok; [by apply Hfit|done|by apply leaves_labelled]. Qed.

Lemma honest_positions ts hs prf : NoDup ts → Forall2 (leaf_at s f) ts hs → prover_proof s ts prf →
  ∃ pp cp, positions_of s ts pp cp ∧ prf = map L pp ∧ hs = map L ts ∧ targets_ok s f ts.
Proof.
  intros Hnd Hl Hprf. assert (targets_ok s f ts) as Hok.
  { eapply leaves_ok; [by apply Hfit|done|done]. }
  destruct (positions_exist s Hmax ts Hok) as (pp & cp & Hpo). exists pp, cp. split_and!; try done.
  - by apply (prover_positions s ts pp cp).
  - by apply leaf_labels.
Qed.
End Leaves.

Section Honest.
Context `{HashLaws}.

(** C35.  [AddProof] on two honest proofs of leaves of the same forest returns the sorted
    union of their targets, its leaf hashes, and exactly the proof that a prover would
    make for the union: hashes that one proof lets compute are dropped from the other. *)
Theorem AddProof_honest s A B hsA hsB prfA prfB : let f := treeRows (nl s) in
  nl s ≤ 2 ^ 63 → NoDup A → NoDup B →
  Forall2 (leaf_at s f) A hsA → Forall2 (leaf_at s f) B hsB →
  prover_proof s A prfA → prover_proof s B prfB →
  ∃ T hs prf, AddProof (mkProof A prfA) (mkProof B prfB) hsA hsB (nl s) = Ok (hs, mkProof T prf) ∧
    StronglySorted Z.lt T ∧ (∀ p, p ∈ T ↔ p ∈ A ∨ p ∈ B) ∧
    Forall2 (leaf_at s f) T hs ∧ prover_proof s T prf.
Proof.
  intros f Hmax HA HB HlA HlB HpA HpB.
  destruct (honest_positions s Hmax A hsA prfA HA HlA HpA) as (ppA & cpA & HoA & -> & -> & _).
  destruct (honest_positions s Hmax B hsB prfB HB HlB HpB) as (ppB & cpB & HoB & -> & -> & _).
  destruct (merged_slices _ _ (copySorted_sorted A HA) (copySorted_sorted B HB)) as [ST HT].
  set (T := map fst _) in ST, HT. setoid_rewrite copySorted_perm in HT.
  assert (∀ t, t ∈ T → ∃ h, leaf_at s f t h) as Hleaf.
  { intros t [Ht|Ht]%HT; [by eapply leaves_in, Ht|by eapply leaves_in, Ht]. }
  assert (targets_ok s f T) as HTok by (apply leaves_targets; [done|by apply sorted_lt_nodup|done]).
  destruct (AddProof_spec s Hmax A B ppA cpA ppB cpB T HTok ST HT HA HB HoA HoB) as (pp & cp & Hpo & ->).
  eexists T, _, _. split; [reflexivity|]. split_and!; [done|done|by apply leaves_labelled|].
  by apply (prover_positions s T pp cp).
Qed.

(** C36.  [GetMissingPositions] returns, in ascending order, the positions that a proof of
    the desired leaves needs and that a holder of a proof of [A] neither has nor can
    compute; with these and the proof of [A], nothing that a proof of all the leaves
    needs is missing. *)
Theorem GetMissingPositions_exact s A D hsA hsD : let n := nl s in let f := treeRows n in
  n ≤ 2 ^ 63 → NoDup A → NoDup D → Forall2 (leaf_at s f) A hsA → Forall2 (leaf_at s f) D hsD →
  ∃ ms, GetMissingPositions n A D = Ok ms ∧ StronglySorted Z.lt ms ∧
    (∀ x, x ∈ ms ↔ needed n f (filter (λ p, p ∉ A) D) x ∧ ¬ needed n f A x ∧ ¬ onpath f A x) ∧
    ∀ T x, (∀ p, p ∈ T ↔ p ∈ A ∨ p ∈ D) → needed n f T x → needed n f A x ∨ x ∈ ms.
Proof.
  intros n f Hmax HA HD HlA HlD.
  assert (targets_ok s f A) as HokA by (eapply leaves_ok; [by apply Hfit|done|done]).
  assert (targets_ok s f D) as HokD by (eapply leaves_ok; [by apply Hfit|done|done]).
  destruct (GetMissingPositions_spec s Hmax A D HokA HokD) as (ms & Hms & Ss & He).
  exists ms. split_and!; try done. intros T x HT Hx. rewrite He.
  assert (∀ p, p ∈ T ↔ p ∈ A ∨ p ∈ filter (λ p, p ∉ A) D) as HT'.
  { intros p. rewrite HT, list_elem_of_filter. destruct (decide (p ∈ A)); tauto. }
  apply (needed_union s A _ T x HT') in Hx as ([?|Hx] & Hn & _); [by left|].
  destruct (positions_exist s Hmax A HokA) as (pp & cp & Hpo);
    destruct (decide (x ∈ pp)) as [Hin|Hin]; rewrite (po_pp_elem _ _ _ _ Hpo) in Hin; tauto.
Qed.

(** C37.  [GetProofSubset] on an honest proof whose targets are in ascending order: for
    wanted targets in any order it returns their leaf hashes, in that order, and
    exactly the proof that a prover would make for them. *)
Theorem GetProofSubset_honest s A hs prf W : let f := treeRows (nl s) in
  wf s → nl s ≤ 2 ^ 63 → StronglySorted Z.lt A → Forall2 (leaf_at s f) A hs → prover_proof s A prf →
  NoDup W → (∀ w, w ∈ W → w ∈ A) →
  ∃ hs' prf', GetProofSubset (mkProof A prf) hs W (nl s) = Ok (hs', mkProof W prf') ∧
    Forall2 (leaf_at s f) W hs' ∧ prover_proof s W prf'.
Proof.
  intros f Hwf Hmax SA HlA HpA HW Hsub.
  destruct (honest_positions s Hmax A hs prf (sorted_lt_nodup A SA) HlA HpA) as (pp & cp & Hpo & -> & -> & Hok).
  destruct (GetProofSubset_spec s Hwf Hmax A pp cp W Hok SA Hpo HW Hsub) as (wp & wc & HoW & ->).
  eexists _, _. split; [reflexivity|]. split.
  - apply leaves_labelled. intros t Ht. eapply leaves_in; [done|by apply Hsub].
  - by apply (prover_positions s W wp wc).
Qed.

(** A wanted target that the proof does not have is an error, whatever the hashes. *)
Theorem GetProofSubset_missing proof hs W n : NoDup W → (∃ w, w ∈ W ∧ w ∉ Targets proof) →
  GetProofSubset proof hs W n = Err ErrMissing.
Proof.
  intros HW (w & Hw & Hn). unfold GetProofSubset.
  rewrite subtractSortedSlice_spec by (by apply copySorted_sorted || apply copySorted_le).
  cbn [bind]. destruct (filter _ (copySortedFunc W)) as [|y l] eqn:He; [|done].
  assert (w ∈ filter (λ x, x ∉ copySortedFunc (Targets proof)) (copySortedFunc W)) as Hin.
  { rewrite list_elem_of_filter, !copySorted_perm. done. }
  rewrite He in Hin. by apply elem_of_nil in Hin.
Qed.
End Honest.

(** Leaf 13 of the toy forest, with its proof. *)
Lemma toy_leaf_2 : Forall2 (leaf_at toy_forest 3) [2] [13].
Proof.
  repeat constructor. exists 0, 2. split; [vm_compute; reflexivity|]. split; [lia|]. split; [lia|done].
Qed.

Lemma toy_prover_2 : prover_proof toy_forest [2] [14; toy_parentHash 11 12].
Proof. exists [3; 8], [9; 12]. split; vm_compute; reflexivity. Qed.

Lemma toy_sorted_leaves : Forall2 (leaf_at toy_forest 3) [1; 4] [12; 15].
Proof.
  repeat constructor.
  - exists 0, 1. split; [vm_compute; reflexivity|]. split; [lia|]. split; [lia|done].
  - exists 0, 4. split; [vm_compute; reflexivity|]. split; [lia|]. split; [lia|done].
Qed.

Lemma toy_prover_sorted : prover_proof toy_forest [1; 4] toy_proof.
Proof. exists [0; 9], [8; 12]. split; vm_compute; reflexivity. Qed.

Lemma AddProof_honest_witness :
  ∃ T hs prf,
    AddProof (mkProof toy_targets toy_proof) (mkProof [2] [14; toy_parentHash 11 12]) toy_hashes [13] 5
    = Ok (hs, mkProof T prf) ∧
    StronglySorted Z.lt T ∧ (∀ p, p ∈ T ↔ p ∈ toy_targets ∨ p ∈ [2]) ∧
    Forall2 (leaf_at toy_forest 3) T hs ∧ prover_proof toy_forest T prf.
Proof.
  apply (AddProof_honest toy_forest toy_targets [2] toy_hashes [13] toy_proof [14; toy_parentHash 11 12]).
  - vm_compute; discriminate.
  - apply toy_nodup.
  - apply NoDup_singleton.
  - apply toy_leaves.
  - apply toy_leaf_2.
  - apply toy_prover.
  - apply toy_prover_2.
Defined.

Lemma GetMissingPositions_exact_witness :
  ∃ ms, GetMissingPositions 5 toy_targets [2] = Ok ms ∧ StronglySorted Z.lt ms ∧
    (∀ x, x ∈ ms ↔ needed 5 3 (filter (λ p, p ∉ toy_targets) [2]) x ∧ ¬ needed 5 3 toy_targets x ∧
                   ¬ onpath 3 toy_targets x) ∧
    ∀ T x, (∀ p, p ∈ T ↔ p ∈ toy_targets ∨ p ∈ [2]) → needed 5 3 T x → needed 5 3 toy_targets x ∨ x ∈ ms.
Proof.
  apply (GetMissingPositions_exact toy_forest toy_targets [2] toy_hashes [13]).
  - vm_compute; discriminate.
  - apply toy_nodup.
  - apply NoDup_singleton.
  - apply toy_leaves.
  - apply toy_leaf_2.
Defined.

Lemma GetProofSubset_honest_witness :
  ∃ hs' prf', GetProofSubset (mkProof [1; 4] toy_proof) [12; 15] [4] 5 = Ok (hs', mkProof [4] prf') ∧
    Forall2 (leaf_at toy_forest 3) [4] hs' ∧ prover_proof toy_forest [4] prf'.
Proof.
  apply (GetProofSubset_honest toy_forest [1; 4] [12; 15] toy_proof [4]).
  - apply toy_wf.
  - vm_compute; discriminate.
  - repeat constructor; lia.
  - apply toy_sorted_leaves.
  - apply toy_prover_sorted.
  - apply NoDup_singleton.
  - intros w ->%list_elem_of_singleton. by right; left.
Defined.

Lemma GetProofSubset_missing_witness :
  GetProofSubset (mkProof [1; 4] toy_proof) [12; 15] [4; 2] 5 = Err ErrMissing.
Proof.
  apply (GetProofSubset_missing (mkProof [1; 4] toy_proof) [12; 15] [4; 2] 5).
  - apply (bool_decide_unpack _). vm_compute; reflexivity.
  - exists 2. split; [by right; left|]. apply (bool_decide_unpack _). vm_compute; reflexivity.
Defined.
