(* ===== verification/MapPollardProps.v ===== *)
(** * Properties of the map pollard

    The claims about mappollard.go, serialization excepted.  Their witnesses run on a
    state with five leaves, three of them remembered. *)

From S2P Require Import Prelude State Utils PosTheory HashPos Traverse Calc Walk.
From S2P Require Import Forest EvalTheory Stump StumpTheory StumpVerify ForestLeaves StumpSpec Moves Deletions.
From S2P Require Import MapPollard MapPollardInv MapPollardObs MapPollardDelete MapPollardAdd MapPollardSpec.
From S2P Require Import MapPollardIngest MapPollardRun Toy.

(** ** A small run *)

Definition toy_leaf (h : Hash) (remember : bool) : Leaf := mkLeaf h remember.

Definition toy_block1 : pblock :=
  ([], [], [], [toy_leaf (-1) true; toy_leaf (-2) false; toy_leaf (-3) true;
                toy_leaf (-4) false; toy_leaf (-5) true]).

(** Leaf -3 goes, two more are added. *)
Definition toy_block2 : pblock :=
  ([2], [-3], [-4; toy_parentHash (-1) (-2)], [toy_leaf (-6) true; toy_leaf (-7) false]).

Definition toy_forest1 : forest := apply_block [] toy_block1.1.1.1 (map leafHash toy_block1.2).
Definition toy_known1 : Hash → Prop := known_after (λ _, False) toy_block1.
Definition toy_map1 : MapPollard :=
  (Modify toy_block1.2 toy_block1.1.1.2 (mkProof toy_block1.1.1.1 toy_block1.1.2) NewMapPollard).1.

Lemma toy_addable adds : empty ∉ map leafHash adds →
  (∀ a, a ∈ adds → Remember a = true → leafHash a < 0) → addable adds.
Proof.
  intros Hne Hneg. split; [done|]. intros a Ha Hr l r E. specialize (Hneg a Ha Hr).
  revert E. unfold parentHash, toy_hash, toy_parentHash. rewrite Z.land_ones by lia.
  pose proof (Z.mod_pos_bound (31 * l + 17 * r + 5) (2 ^ 64)). lia.
Qed.

Lemma toy_good1 : good_block 50 [] (λ _, False) toy_block1.
Proof.
  split.
  - apply NoDup_nil_2.
  - constructor.
  - by intros h ?%elem_of_nil.
  - apply toy_addable; [apply (bool_decide_unpack _); by vm_compute|].
    intros a Ha _. revert a Ha. apply Forall_forall. repeat constructor.
  - apply (bool_decide_unpack _). by vm_compute.
  - by vm_compute.
Qed.

Lemma toy_reachable1 : reachable toy_forest1 toy_known1 toy_map1.
Proof.
  apply (reach_modify [] _ NewMapPollard toy_block1); [apply reach_new|apply toy_good1|].
  vm_compute. reflexivity.
Qed.

Lemma toy_known_1 : toy_known1 (-1).
Proof. left. exists (toy_leaf (-1) true). split; [left|done]. Qed.

Lemma toy_known_3 : toy_known1 (-3).
Proof. left. exists (toy_leaf (-3) true). split; [right; right; left|done]. Qed.

Lemma toy_leaf_3 : Forall2 (leaf_at toy_forest1 3) [2] [-3].
Proof.
  repeat constructor. exists 0, 2. split; [vm_compute; reflexivity|]. split; [lia|]. split; [lia|done].
Qed.

Lemma toy_good2 : good_block 50 toy_forest1 toy_known1 toy_block2.
Proof.
  split.
  - apply NoDup_singleton.
  - apply toy_leaf_3.
  - intros h ->%list_elem_of_singleton. apply toy_known_3.
  - apply toy_addable; [apply (bool_decide_unpack _); by vm_compute|].
    intros a Ha _. revert a Ha. apply Forall_forall. repeat constructor.
  - apply (bool_decide_unpack _). by vm_compute.
  - by vm_compute.
Qed.

(** What the first block leads to. *)
Lemma toy_invariant1 : invariant 50 toy_forest1 toy_known1 toy_map1.
Proof. apply reachable_invariant, toy_reachable1. Qed.

Lemma toy_proof2 : prover_proof toy_forest1 [2] [-4; toy_parentHash (-1) (-2)].
Proof. exists [3; 8], [9; 12]. split; vm_compute; reflexivity. Qed.

Lemma toy_distinct1 : distinct_roots toy_forest1.
Proof. apply (bool_decide_unpack _). by vm_compute. Qed.

(** What [remove] does before the first [removeSingle]. *)
Lemma toy_uncached : let m := uncacheLeaves [-3] toy_map1 in
  tracks toy_forest1 50 m ∧ ∀ h p, CachedLeaves m !! h = Some p → ¬ under 50 2 p.
Proof.
  split.
  - eapply tracks_uncache; [apply toy_invariant1|done|done|done|]. intros h p.
    cbn [CachedLeaves uncacheLeaves foldl deleteCached setCached]. intros [_ Hp]%lookup_delete_Some. done.
  - change (map_Forall (λ _ p, ¬ under 50 2 p) (CachedLeaves (uncacheLeaves [-3] toy_map1))).
    apply (bool_decide_unpack _). by vm_compute.
Qed.

(** A proof of leaf -4, which is not remembered. *)
Lemma toy_good_proof : good_proof toy_forest1 [3] [-4] [-3; toy_parentHash (-1) (-2)].
Proof.
  split.
  - apply NoDup_singleton.
  - repeat constructor. exists 0, 3. split; [vm_compute; reflexivity|]. split; [lia|]. split; [lia|done].
  - exists [2; 8], [9; 12]. split; vm_compute; reflexivity.
  - intros h ->%list_elem_of_singleton l r. unfold parentHash, toy_hash, toy_parentHash.
    rewrite Z.land_ones by lia. pose proof (Z.mod_pos_bound (31 * l + 17 * r + 5) (2 ^ 64)). lia.
Qed.

(** ** Blocks *)

(** C2.  [Modify] refines the abstract accumulator: on a state that follows a forest, any
    block that deletes remembered leaves and adds leaves that fit is carried out without
    error, and the state then follows the forest in which the targets were deleted and the
    leaves added, in every node that it keeps.  It remembers the leaves that it remembered
    before, less the deleted ones, and those that were added to be remembered. *)
Theorem Modify_refines `{HashLaws} f s m ts hs prf adds :
  let s' := apply_block s ts (map leafHash adds) in
  wf s → tracks s f m → NoDup (forest_leaves s) →
  NoDup ts → Forall2 (leaf_at s (treeRows (nl s))) ts hs → cached m hs = true →
  addable adds → NoDup (forest_leaves s') → nl s' ≤ 2 ^ f →
  ∃ m', Modify adds hs (mkProof ts prf) m = (m', Ok tt) ∧ wf s' ∧ tracks s' f m' ∧
    ∀ h, cached m' [h] = true ↔ to_remember adds h ∨ (h ∉ hs ∧ cached m [h] = true).
Proof.
  intros s' Hwf Hm Hnd Hts Hl Hc Had Hnd' Hmax.
  destruct (Modify_tracks f s m ts hs prf adds) as (m' & E & Hwf' & Ht & HC); try done.
  { by apply cached_Forall. }
  exists m'. split_and!; try done. intros h. by rewrite !cached_one, HC.
Qed.

Lemma Modify_refines_witness :
  ∃ m', Modify toy_block2.2 [-3] (mkProof [2] toy_block2.1.2) toy_map1 = (m', Ok tt) ∧
    wf (apply_block toy_forest1 [2] [-6; -7]) ∧ tracks (apply_block toy_forest1 [2] [-6; -7]) 50 m' ∧
    ∀ h, cached m' [h] = true ↔ to_remember toy_block2.2 h ∨ (h ∉ [-3] ∧ cached toy_map1 [h] = true).
Proof.
  apply (Modify_refines 50 toy_forest1 toy_map1 [2] [-3] toy_block2.1.2 toy_block2.2).
  - apply toy_invariant1.
  - apply toy_invariant1.
  - apply toy_invariant1.
  - apply NoDup_singleton.
  - apply toy_leaf_3.
  - vm_compute. reflexivity.
  - apply toy_good2.
  - apply toy_good2.
  - apply toy_good2.
Defined.

(** C4.  A fresh map pollard that is given valid blocks, that checks any proofs at all and
    remembers the proofs of provers, follows the forest of the blocks: its stump is the
    stump of that forest, no leaf occurs twice, and the cached leaves are exactly those that
    it was told to remember and that were not deleted since.  A valid block deletes
    remembered leaves at their positions and adds distinct leaves, at most [2^50] in all;
    leaves to be remembered are not hashes of inner nodes.  (Proofs that are accepted
    although no prover made them must not be remembered, see C40.) *)
Theorem reachable_follows `{HashLaws} s known m : reachable s known m →
  wf s ∧ represents s (GetStump m) ∧ NoDup (forest_leaves s) ∧
  ∀ h, cached m [h] = true ↔ known h.
Proof.
  intros [Hwf Ht Hnd Hk]%reachable_invariant. split_and!; try done.
  - by apply (GetStump_represents s 50).
  - intros h. by rewrite cached_one.
Qed.

Lemma reachable_follows_witness :
  wf toy_forest1 ∧ represents toy_forest1 (GetStump toy_map1) ∧ NoDup (forest_leaves toy_forest1) ∧
  ∀ h, cached toy_map1 [h] = true ↔ toy_known1 h.
Proof. apply (reachable_follows toy_forest1 toy_known1 toy_map1). apply toy_reachable1. Defined.

(** C9.  Every state that is reached with valid blocks (of at most [2^50] leaves in all), any
    checked proofs and remembered provers' proofs is well typed: it has 50 rows and the leaf
    count of the forest, every node is at a position of the forest with the hash that the
    forest has there, all roots are present, only leaves are flagged as remembered, and
    every cached leaf is at a flagged node with its hash. *)
Theorem reachable_typed `{HashLaws} s known m : reachable s known m →
  TotalRows m = 50 ∧ NumLeaves m = nl s ∧ 0 ≤ NumLeaves m ≤ 2 ^ 50 ∧
  (∀ p l, Nodes m !! p = Some l → inF (NumLeaves m) 50 p ∧ leafHash l = label s 50 p ∧
     (Remember l = true → leaf_at s 50 p (leafHash l))) ∧
  (∀ p, p ∈ RootPositions (NumLeaves m) 50 → is_Some (Nodes m !! p)) ∧
  (∀ h p, CachedLeaves m !! h = Some p → Nodes m !! p = Some (mkLeaf h true)).
Proof.
  intros [Hwf Ht Hnd _]%reachable_invariant. pose proof Ht as (HL & Hfit & Hd).
  pose proof Hfit as [[? ?] _]. rewrite HL. split_and!; try done; [by apply (tracks_rows s)|..].
  - intros p l Hp. destruct (tracks_node s 50 m Ht p l Hp) as [Hin Hlab]. split_and!; try done.
    intros [h Hn]%(hd_flag _ _ _ _ _ Hd p l Hp). split; [done|]. rewrite Hlab. unfold label. by rewrite Hn.
  - intros p [Hin Hr]%(RootPositions_elem s 50 Hfit). by apply (hd_roots _ _ _ _ _ Hd).
  - intros h p Hp. destruct (hd_cached _ _ _ _ _ Hd h p Hp) as (Hn & _ & [x b] & Hl & Hb).
    destruct (tracks_node s 50 m Ht p _ Hl) as [_ Hlab]. simpl in *. unfold label in Hlab.
    rewrite Hn in Hlab. simpl in Hlab. by rewrite Hl, Hlab, Hb.
Qed.

Lemma reachable_typed_witness :
  TotalRows toy_map1 = 50 ∧ NumLeaves toy_map1 = nl toy_forest1 ∧ 0 ≤ NumLeaves toy_map1 ≤ 2 ^ 50 ∧
  (∀ p l, Nodes toy_map1 !! p = Some l → inF (NumLeaves toy_map1) 50 p ∧
     leafHash l = label toy_forest1 50 p ∧ (Remember l = true → leaf_at toy_forest1 50 p (leafHash l))) ∧
  (∀ p, p ∈ RootPositions (NumLeaves toy_map1) 50 → is_Some (Nodes toy_map1 !! p)) ∧
  (∀ h p, CachedLeaves toy_map1 !! h = Some p → Nodes toy_map1 !! p = Some (mkLeaf h true)).
Proof. apply (reachable_typed toy_forest1 toy_known1 toy_map1). apply toy_reachable1. Defined.

(** C6.  What was remembered can be proved: in every state that is reached with valid blocks,
    any checked proofs and remembered provers' proofs, for any selection of the leaves that
    are to be remembered and have not been deleted, [Prove] returns a proof; the map pollard
    itself accepts it and so does its stump. *)
Theorem reachable_proves `{HashLaws} s known m hs : reachable s known m →
  NoDup hs → (∀ h, h ∈ hs → known h) →
  ∃ prf idxs, Prove m hs = Ok prf ∧ Verify hs prf false m = (m, Ok tt) ∧
    Stump.Verify (GetStump m) hs prf = Ok idxs.
Proof.
  intros [Hwf Ht Hnd Hk]%reachable_invariant Hhs Hall.
  destruct (Prove_tracks s 50 m Ht hs) as (ts & prf & E & Hts & Hl & Hp); [intros; by apply Hk, Hall|done|].
  destruct (Verify_prover s (GetStump m) Hwf (GetStump_represents s 50 m Ht) (tracks_max s 50 m Ht) ts hs prf)
    as (idxs & Ev & _); try done.
  exists (mkProof ts prf), idxs. split_and!; try done. by apply (Verify_accepts s 50).
Qed.

Lemma reachable_proves_witness :
  ∃ prf idxs, Prove toy_map1 [-3; -1] = Ok prf ∧ Verify [-3; -1] prf false toy_map1 = (toy_map1, Ok tt) ∧
    Stump.Verify (GetStump toy_map1) [-3; -1] prf = Ok idxs.
Proof.
  apply (reachable_proves toy_forest1 toy_known1 toy_map1 [-3; -1]).
  - apply toy_reachable1.
  - apply (bool_decide_unpack _). by vm_compute.
  - intros h [->|[->|?%elem_of_nil]%elem_of_cons]%elem_of_cons; [apply toy_known_3|apply toy_known_1|done].
Defined.

(** C8.  A map pollard and a stump stay together: on a block that the map pollard carries out,
    with the proof of a prover, [Update] of its stump succeeds and gives the stump of the
    new state. *)
Theorem Modify_Update_agree `{HashLaws} s known m b : reachable s known m →
  good_block 50 s known b → prover_proof s b.1.1.1 b.1.2 → distinct_roots s →
  ∃ m' ud, Modify b.2 b.1.1.2 (mkProof b.1.1.1 b.1.2) m = (m', Ok tt) ∧
    Update (GetStump m) b.1.1.2 (map leafHash b.2) (mkProof b.1.1.1 b.1.2) = (GetStump m', Ok ud).
Proof.
  intros Hi%reachable_invariant Hb Hp Hd.
  destruct (invariant_step 50 s known m b Hi Hb) as (m' & E & Hi'). destruct Hi as [Hwf Ht Hnd _].
  pose proof (GetStump_represents s 50 m Ht) as Hr. pose proof (tracks_max s 50 m Ht) as Hn.
  pose proof (leaves_ok s _ _ _ (Hfit s Hn) (gb_nodup _ _ _ _ Hb) (gb_leaves _ _ _ _ Hb)) as Hts.
  destruct (del_honest s (GetStump m) Hwf Hr Hn b.1.1.1 b.1.1.2 b.1.2) as (st1 & inter & Hdel & Hr1); try done.
  { apply leaf_labels, (gb_leaves _ _ _ _ Hb). }
  pose proof (gb_fits _ _ _ _ Hb) as Hmax. unfold apply_block in Hmax. rewrite nl_add_leaves, nl_del in Hmax.
  destruct (Update_del s (GetStump m) Hwf b.1.1.1 b.1.1.2 b.1.2 (map leafHash b.2) st1 inter)
    as (st' & ud & Eu & Hr' & _ & _); [apply (gb_addable _ _ _ _ Hb)|lia|done|done|].
  exists m', ud. split; [done|]. rewrite Eu. f_equal.
  apply (represents_det (apply_block s b.1.1.1 (map leafHash b.2))); [done|].
  apply (GetStump_represents _ 50), Hi'.
Qed.

Lemma Modify_Update_agree_witness :
  ∃ m' ud, Modify toy_block2.2 [-3] (mkProof [2] toy_block2.1.2) toy_map1 = (m', Ok tt) ∧
    Update (GetStump toy_map1) [-3] [-6; -7] (mkProof [2] toy_block2.1.2) = (GetStump m', Ok ud).
Proof.
  apply (Modify_Update_agree toy_forest1 toy_known1 toy_map1 toy_block2).
  - apply toy_reachable1.
  - apply toy_good2.
  - apply toy_proof2.
  - apply toy_distinct1.
Defined.

(** ** Proofs *)

(** C18.  Proofs are canonical: when two map pollards, in states as in C4, follow the same
    forest and both remember the leaves, they return the same proof, targets and
    hashes, in the order of the leaves. *)
Theorem Prove_canonical `{HashLaws} s known m known' m' hs : reachable s known m →
  reachable s known' m' → NoDup hs → cached m hs = true → cached m' hs = true →
  ∃ prf, Prove m hs = Ok prf ∧ Prove m' hs = Ok prf ∧ prover_proof s (Targets prf) (ProofHashes prf) ∧
    Forall2 (leaf_at s (treeRows (nl s))) (Targets prf) hs.
Proof.
  intros [Hwf Ht Hnd _]%reachable_invariant [_ Ht' _ _]%reachable_invariant Hhs Hc Hc'.
  destruct (Prove_det s 50 m 50 m' hs) as (prf & E & E'); try done. rewrite cached_Forall in Hc.
  destruct (Prove_tracks s 50 m Ht hs Hc Hhs) as (ts & ps & E2 & _ & Hl & Hp).
  assert (prf = mkProof ts ps) as -> by congruence. eauto 6.
Qed.

Lemma Prove_canonical_witness : ∃ m',
  reachable toy_forest1 (known_with true [-4] toy_known1) m' ∧
  ∃ prf, Prove toy_map1 [-3] = Ok prf ∧ Prove m' [-3] = Ok prf ∧
    prover_proof toy_forest1 (Targets prf) (ProofHashes prf) ∧
    Forall2 (leaf_at toy_forest1 (treeRows (nl toy_forest1))) (Targets prf) [-3].
Proof.
  set (m' := (Verify [-4] (mkProof [3] [-3; toy_parentHash (-1) (-2)]) true toy_map1).1).
  assert (reachable toy_forest1 (known_with true [-4] toy_known1) m') as Hm'.
  { apply (reach_verify _ _ toy_map1 [3] [-4] [-3; toy_parentHash (-1) (-2)]);
      [apply toy_reachable1|apply toy_good_proof|]. vm_compute. reflexivity. }
  exists m'. split; [exact Hm'|].
  apply (Prove_canonical toy_forest1 toy_known1 toy_map1 (known_with true [-4] toy_known1) m' [-3]).
  - apply toy_reachable1.
  - exact Hm'.
  - apply NoDup_singleton.
  - vm_compute. reflexivity.
  - vm_compute. reflexivity.
Defined.

(** C19.  Pruning is safe: [prunePosition] at any position below a root leaves a state that
    still follows the forest, caches the same leaves and returns the same proof for any of
    them. *)
Theorem prunePosition_safe `{HashLaws} f s m p : wf s → tracks s f m → NoDup (forest_leaves s) →
  inF (nl s) f p → root_at (nl s) f p = false →
  tracks s f (prunePosition p m) ∧ CachedLeaves (prunePosition p m) = CachedLeaves m ∧
  ∀ hs, NoDup hs → cached m hs = true →
    ∃ prf, Prove m hs = Ok prf ∧ Prove (prunePosition p m) hs = Ok prf.
Proof.
  intros Hwf Hm Hnd Hp Hr. destruct (prune_tracks s f m p Hm Hp Hr) as [Hm' HC].
  split_and!; try done. intros hs Hhs Hc. apply (Prove_det s f m f); try done.
  rewrite cached_Forall in *. by rewrite HC.
Qed.

Lemma prunePosition_safe_witness :
  tracks toy_forest1 50 (prunePosition 2 toy_map1) ∧
  CachedLeaves (prunePosition 2 toy_map1) = CachedLeaves toy_map1 ∧
  ∀ hs, NoDup hs → cached toy_map1 hs = true →
    ∃ prf, Prove toy_map1 hs = Ok prf ∧ Prove (prunePosition 2 toy_map1) hs = Ok prf.
Proof.
  apply (prunePosition_safe 50 toy_forest1 toy_map1 2).
  - apply toy_invariant1.
  - apply toy_invariant1.
  - apply toy_invariant1.
  - exists 0, 2. split; [vm_compute; reflexivity|]. split; [lia|]. split; [lia|done].
  - vm_compute. reflexivity.
Defined.

(** C17.  Verifying a prover's proof with [remember] succeeds and adds its leaves to the ones
    that can be proved: the state follows the same forest, with the same stump, and [Prove]
    returns proofs for the new leaves as well. *)
Theorem Verify_remembers `{HashLaws} s known m ts hs prf : reachable s known m →
  good_proof s ts hs prf →
  ∃ m', Verify hs (mkProof ts prf) true m = (m', Ok tt) ∧ GetStump m' = GetStump m ∧
    reachable s (known_with true hs known) m' ∧
    ∀ ps, NoDup ps → (∀ h, h ∈ ps → known_with true hs known h) → ∃ prf', Prove m' ps = Ok prf'.
Proof.
  intros Hm [G1 G2 G3 G4]. pose proof Hm as [Hwf Ht Hnd Hk]%reachable_invariant.
  destruct (Ingest_tracks s 50 m Hwf Ht ts hs prf G1 G2 G3 G4) as (m' & E & Ht' & HC).
  assert (Verify hs (mkProof ts prf) true m = (m', Ok tt)) as Ev.
  { by rewrite (Verify_accepts s 50 m ts hs prf true). }
  exists m'. split_and!; [done| | |].
  - apply (represents_det s); by apply (GetStump_represents s 50).
  - apply (reach_verify s known m ts hs prf true); by try split.
  - intros ps Hps Hall.
    destruct (Prove_tracks s 50 m' Ht' ps) as (ts' & prf' & E' & _); [|done|by eexists].
    intros h Hh. apply HC. rewrite Hk. by apply Hall.
Qed.

Lemma Verify_remembers_witness :
  ∃ m', Verify [-4] (mkProof [3] [-3; toy_parentHash (-1) (-2)]) true toy_map1 = (m', Ok tt) ∧
    GetStump m' = GetStump toy_map1 ∧ reachable toy_forest1 (known_with true [-4] toy_known1) m' ∧
    ∀ ps, NoDup ps → (∀ h, h ∈ ps → known_with true [-4] toy_known1 h) → ∃ prf', Prove m' ps = Ok prf'.
Proof.
  apply (Verify_remembers toy_forest1 toy_known1 toy_map1 [3] [-4]).
  - apply toy_reachable1.
  - apply toy_good_proof.
Defined.

(** Leaves that are not cached are refused: a block that deletes one leaves the state as
    it was, whatever else it does, and there is no proof for them. *)
Theorem Modify_uncached `{HashFn} adds hs prf m h : h ∈ hs → cached m [h] = false →
  Modify adds hs prf m = (m, Err ErrNotCached) ∧ Prove m hs = Err ErrNotCached.
Proof.
  intros Hin Hc. assert (cached m hs = false) as Hno.
  { apply not_true_is_false. rewrite cached_Forall. intros Hall. apply Hall in Hin.
    apply not_true_iff_false in Hc. by rewrite cached_one in Hc. }
  split.
  - unfold Modify, remove. rewrite st_assoc. st_run. by rewrite Hno.
  - unfold Prove. by rewrite Hno.
Qed.

Lemma Modify_uncached_witness :
  Modify [] [-1; -2] (mkProof [0; 1] []) toy_map1 = (toy_map1, Err ErrNotCached) ∧
  Prove toy_map1 [-1; -2] = Err ErrNotCached.
Proof.
  apply (Modify_uncached [] [-1; -2] (mkProof [0; 1] []) toy_map1 (-2)).
  - right. left.
  - vm_compute. reflexivity.
Defined.

(** ** Deleting and adding one leaf *)

(** C20.  [removeSingle] at a position that a remembered leaf is at or below, nothing cached
    below it: the state follows the forest without what was at the position, and every
    cached leaf is found where the deletion moves it to. *)
Theorem removeSingle_exact `{HashLaws} f s m d x l : wf s → tracks s f m → NoDup (forest_leaves s) →
  inF (nl s) f d → is_Some (node s f d) →
  (∀ h p, CachedLeaves m !! h = Some p → ¬ under f d p) →
  Nodes m !! x = Some l → Remember l = true → under f d x →
  ∃ m', removeSingle d m = (m', Ok tt) ∧ tracks (Forest.del f [d] s) f m' ∧
    ∀ h, CachedLeaves m' !! h = move (nl s) f d <$> CachedLeaves m !! h.
Proof.
  intros Hwf Hm Hnd Hd Hn Hcl Hx Hl Hu. pose proof (tracks_fits s f m Hm) as Hfit.
  destruct (removeSingle_tracks s f Hwf m Hm (forest_one_place s f Hfit Hwf Hnd) d Hd Hn Hcl x l Hx Hl Hu)
    as (m' & E & Ht & HC & _). eauto.
Qed.

Lemma removeSingle_exact_witness : let m := uncacheLeaves [-3] toy_map1 in
  ∃ m', removeSingle 2 m = (m', Ok tt) ∧ tracks (Forest.del 50 [2] toy_forest1) 50 m' ∧
    ∀ h, CachedLeaves m' !! h = move (nl toy_forest1) 50 2 <$> CachedLeaves m !! h.
Proof.
  apply (removeSingle_exact 50 toy_forest1 (uncacheLeaves [-3] toy_map1) 2 2 (toy_leaf (-3) true)).
  - apply toy_invariant1.
  - apply toy_uncached.
  - apply toy_invariant1.
  - exists 0, 2. split; [vm_compute; reflexivity|]. split; [lia|]. split; [lia|done].
  - vm_compute. eauto.
  - apply toy_uncached.
  - vm_compute. reflexivity.
  - done.
  - by left.
Defined.

(** [add] appends its leaves in order: the state follows the forest with the leaves
    added, wherever empty roots are written over on the way and however many trees are
    joined, and caches those that are to be remembered besides what it had cached. *)
Theorem map_add_refines `{HashLaws} f s m adds : wf s → tracks s f m → addable adds →
  NoDup (forest_leaves s ++ map leafHash adds) → fits (nl s + Z.of_nat (length adds)) f →
  ∃ m', MapPollard.add adds m = (m', Ok tt) ∧ tracks (add_leaves s (map leafHash adds)) f m' ∧
    ∀ h, cached m' [h] = true ↔ to_remember adds h ∨ cached m [h] = true.
Proof.
  intros Hwf Hm Had Hnd Hfit. destruct (add_tracks f adds s m) as (m' & E & Ht & HC); try done.
  exists m'. split_and!; try done. intros h. by rewrite !cached_one, HC.
Qed.

Lemma map_add_refines_witness :
  ∃ m', MapPollard.add toy_block2.2 toy_map1 = (m', Ok tt) ∧
    tracks (add_leaves toy_forest1 [-6; -7]) 50 m' ∧
    ∀ h, cached m' [h] = true ↔ to_remember toy_block2.2 h ∨ cached toy_map1 [h] = true.
Proof.
  apply (map_add_refines 50 toy_forest1 toy_map1 toy_block2.2).
  - apply toy_invariant1.
  - apply toy_invariant1.
  - apply toy_good2.
  - apply (bool_decide_unpack _). by vm_compute.
  - split; [split; [by vm_compute|by vm_compute]|by vm_compute].
Defined.
